(* ===== verification/_CoqProject ===== *)
-Q . S2P
Prelude.v
Errors.v
Addr.v
Frame.v
Float64.v
Pacer.v
Options.v
Ring.v
Retransmit.v
RetransmitSpec.v
RetransmitRefine.v
StreamRecv.v
Xor.v
RecvLemmas.v
RecvInv.v
StreamDelivery.v
LossDetection.v
StreamSend.v
SendRule.v
SendLanes.v
SendInv.v
SendRun.v
StreamWriting.v
Estimator.v
SendBatch.v
BatchInv.v
SendFifo.v
Connection.v
ConnLemmas.v
StreamSlots.v
Termination.v
Monitor.v
Waiting.v
ConnBooks.v
ConnInv.v
ConnOps.v
ConnRun.v
ConnFlags.v
ConnInput.v
ConnActs.v
ConnLedger.v
ConnSender.v
ConnReceiver.v
WireFrames.v
Lifecycle.v
LifeInv.v
Teardown.v
Listener.v
ListenerInv.v
ListenerRun.v
ListenerEnd.v
Dial.v
Sockets.v
Network.v
Reliability.v
Resending.v
Uring.v
UringRing.v
UringRun.v
UringSetup.v
UringFlush.v
