(* ===== verification/Prelude.v ===== *)
(** * Anadromous: a verification development

    Anadromous (Go, under [src/]) carries many reliable byte streams over one
    UDP socket.  A [Connection] owns the socket's send batch, a
    retransmission queue, a resend worker and a table of [Stream]s.  A
    [Stream] cuts what is written to it into numbered DATA frames, folds them
    into parity frames (forward error correction, in one or two dimensions),
    and at the other end reassembles them, reconstructs what parity allows,
    grants flow-control credit and asks for what is missing.  A [WirePacer]
    may limit what all connections of a process put on the wire.

    ** The parts and the files that model them

    - [Prelude]: record update, Go's integers at their widths ([u32], [i64],
      [u64]), slices and [copy], boolean comparison, tactics, list lemmas.
    - [Errors]: [errors.go], and [result], a Go function's value or error.
    - [Addr]: [parseAddr] of [connection.go], with what it uses of [net].
    - [Frame]: [frame.go], the wire format.  A Go panic (an index out of
      range) is [None] there and everywhere.
    - [Float64], [Pacer]: [pacer.go], the token bucket in IEEE double
      arithmetic, and the wait loop of [waitBatch].
    - [Options]: [options.go], the configuration and its options.
    - [Ring]: the receive ring of [stream.go].
    - [Retransmit]: [retransmit.go], with a heap of list nodes and a memory
      of payload buffers that have identities, so that sharing and reuse of a
      buffer show.  [RetransmitSpec] and [RetransmitRefine] relate it to a
      list of pending frames.
    - [StreamRecv]: the half of a [Stream] that [readMu] guards.  [Xor],
      [RecvLemmas], [RecvInv], [StreamDelivery] and [LossDetection] hold its
      theory.
    - [StreamSend]: the half that [writeMu] guards, against an interface
      [SendPath] of its connection.  [SendLanes], [SendInv], [SendRun],
      [StreamWriting] and [SendRule] hold its theory.
    - [Estimator]: the RFC 6298 estimator and the in-flight caps of
      [connection.go].
    - [SendBatch]: the send path of [connection.go]: message slots, GSO
      packing, pacing classes, zero-copy payloads, [sendmmsg].  [BatchInv]
      and [SendFifo] hold its theory.
    - [Connection]: the rest of [connection.go]: the stream table, every
      handler of an incoming frame, acknowledgements, the resend worker,
      keep-alive and closing.  It implements [SendPath] ([conn_path]), and
      runs the read sides' requests ([run_call]).  [ConnLemmas],
      [Termination], [ConnBooks], [ConnInv], [ConnOps], [ConnRun],
      [ConnFlags] and [ConnInput] hold its theory.
    - [StreamSlots]: calls of [OpenStreamSync] that wait for a free slot, and
      the channel that wakes them.
    - [Monitor]: goroutines that wait on a condition variable with a deadline
      timer ([deadlineTimer] of [stream.go]), for any state and loop that
      keep the laws of an interface; [Waiting]: the blocking of [Read] and
      [Write] as its two instances.
    - [ConnActs] takes every operation of a connection apart into acts on
      single streams, so that the theories of the two halves of a stream
      apply inside a whole connection: [ConnSender] the write side,
      [ConnReceiver] the read side.  [WireFrames] follows a frame from the
      sender's history through its datagram into the peer's dispatcher, and
      [Network] joins two connections.
    - [ConnLedger]: what a connection has been acknowledged and what it has
      given up, as a ledger kept beside a run; [Reliability] and [Resending]
      prove from it that nothing written is forgotten, that what was
      acknowledged was delivered, and that what is overdue is sent again.
    - [Lifecycle]: the goroutines of a connection ([readLoop],
      [retransmitLoop], [keepAliveLoop]), the listener's fallback path into
      it, [start] and [Close], as program counters over the connection's
      state, a step per critical section or blocking call.  What the kernel
      may do with a blocked receive at any time ([kernel_step]) is apart from
      the steps the program can count on ([own_step]), where a receive ends
      only when its socket is shut down.  [LifeInv] is its invariant,
      [Teardown] its theorems.
    - [Listener]: [listener.go]: the listener's goroutine, its table of
      connections, [Accept] and [Close], over a world of connections each of
      which is a [life] of [Lifecycle]; the kernel's steps are apart here,
      too ([lkernel_step]).  [ListenerInv], [ListenerRun] and
      [ListenerEnd] hold its theory.
    - [Dial]: the handshake of [Dial], with its retries and deadline, beside
      the connection's goroutines; a handshake may be held up for any time;
      [Sockets]: the options of a socket, the three chains of calls that make
      one, [Dial] and [Listen] as a whole, over an interface ([Unet]) of the
      socket builder.
    - [Uring]: [uring.go], the io_uring send ring; [UringRing] and [UringRun]
      hold its theory; [UringSetup]: the ring's making and release.  [UringFlush] is [flushSendUringLocked] of
      [connection.go], the double-buffered flush, and its theory.

    State is passed explicitly; a structure the code mutates is a record, an
    operation a function that returns the new one.  What the environment
    decides (the clock, the kernel's answers, the order of Go's map
    iteration, the wake-ups of a waiting goroutine) is a parameter, and the
    theorems hold for all of its values.

    ** What the theorems show

    - The receive side delivers a prefix of what the peer wrote, for every
      order, loss, duplication and reconstruction of frames, and end-of-file
      only after all of it; a reader that has everything is not stuck; its
      acknowledgements are truthful, its grants can be honoured, its memory
      is bounded ([StreamDelivery], [LossDetection]).
    - The write side sends exactly what [Write] counted, with parity that
      covers what it claims, as long as no DATA frame is refused by the
      connection, within the peer's credit and the in-flight cap,
      and ends once; both sides composed deliver a prefix of what was
      written ([StreamWriting]).
    - The retransmission queue refines a list; payloads handed to the kernel
      by reference stay intact; the scan for overdue frames and cumulative
      acknowledgement are exact ([RetransmitRefine]).
    - The send batch is a FIFO of whole, correctly encoded frames, within
      the limits of a batch and of an IP packet, and the pacer is charged
      what is sent ([SendFifo]); the pacer conforms to its rate over any
      interval, however long it was idle before ([Pacer]).
    - A whole connection, in every state it can reach: no panic, every
      datagram on the wire accounted for, bytes in flight equal to what the
      retransmission queue holds, the stream table well formed ([ConnRun]);
      input handling ends ([Termination]); coalescing of datagrams is
      immaterial and resends are served in order ([ConnInput]).
    - Two whole connections over a network that loses, duplicates, reorders
      and coalesces datagrams deliver each stream's bytes in order and
      complete ([Network]).  The ends agree on the payload size (below 64k,
      as parity frames have 16 bits for lengths) and on the FEC group; no
      DATA frame of the stream was refused by its connection (what happens
      then is [refused_frame_corrupts]); the stream number was used once,
      which a number one opens oneself always is.
    - Reliability of that: at every moment each frame a stream has sent is in
      its sender's retransmission queue, with its payload as first sent, or
      was taken in by the receiver, unless one of them gave the stream up;
      once the queue is empty a receiver that still has the stream, and has
      not cancelled it, has everything ([Reliability]).
      What is overdue is on the wire again after a pass of the ticker and one
      of the worker ([Resending]).
    - A goroutine blocked in [Read] or [Write] is woken, by its timer or by
      whatever it waits for, and returns without further help; no wake-up is
      lost ([Waiting]).
    - Goroutines: no step after [Close] touches a closed descriptor or wakes
      a stream that is gone, and every call of [Close] can return by the
      connection's own steps, whatever the other goroutines are doing
      ([Teardown]); the listener's table is exact, and the call that closes
      it ends, and closes everything it made ([ListenerRun], [ListenerEnd]);
      [Dial], with usable options, returns a connection only when its
      handshake was answered, releases everything otherwise, and ends at its
      deadline unless a handshake is held up then ([Sockets]);
      tuning a socket is best effort ([tuning_best_effort]); addresses are
      read as they are written ([Addr]).
    - A call of [OpenStreamSync] is woken when a slot is free, when one call
      is made at a time ([StreamSlots]).
    - The io_uring path: sound set-up and release ([UringSetup]); as long as
      every submission (and, for the flush, every wait) succeeds, exact
      accounting of operations in flight with wrapping counters, and no slot
      or payload written while the kernel may read it ([UringRun],
      [UringFlush]).  What a failed submission leaves behind is
      [failed_submit_forgotten].
    - Round trips and bounds of the wire format, the options and the
      estimator ([Frame], [Options], [Estimator]).
    - Behaviours that are not as the source's comments have them:
      [refused_frame_corrupts], [gso_small_datagram_panics],
      [zero_batch_panics],
      [first_gap_nacks_at_once], [fin_first_never_tail_nacks],
      [removal_race], [failed_submit_forgotten], [read_error_deafens],
      [stepped_clock_strands], [lost_window_strands],
      [open_sync_stranded], [freed_before_queued].

    ** Fuel

    Go loops that are not structurally recursive carry fuel, [None] when it
    runs out.  Each caller supplies enough, and it is proved to be: one more
    than the number of buffered parities for the recursion between delivery
    and reconstruction ([deliver_total], [applyFec_total]); the length of the
    buffer for the parse loop, of the list for the acknowledgement loops, of
    the queue for the resend worker ([input_handled]); the length of what is
    to be written for [writeLoop] ([writeLoop_spec]); the length of the
    list for the due scan ([due_spec]); the number of buffered frames for the
    reorder buffer ([drain_no_stall]); for the io_uring loops, which a signal
    can interrupt any number of times, some fuel whenever signals stop
    ([uring_exact]).

    ** What is not modelled

    - In [Connection] an operation is atomic, as under its mutexes, except
      [removeStream] and [Close], which are split into their critical
      sections.  In particular the addition of a frame to the retransmission
      queue and its place in the batch are one step there; [UringFlush]
      parts them.  [Lifecycle] interleaves the goroutines at that grain.
      There, what decides when an operation runs (contexts, timers,
      condition variables) is left open; the condition variables and deadline
      timers of a stream and the wait for a stream slot have their own models
      ([Monitor], [Waiting], [StreamSlots]).
    - The builder of sockets is another package's, an interface here, and so
      are the endpoints for [sendmmsg] and [recvmmsg], of which the batches'
      contents are modelled.  The kernel's side of an io_uring is an
      oracle with the documented behaviour.  A connection model uses the
      synchronous path; the io_uring flush is proved by itself.
    - In [Network] an application reads a stream while it is in its
      connection's table; what is left to read of a stream that has been
      dropped from it is the business of [StreamDelivery].
    - [anadromous.go] has no code. *)

(** * Prelude *)
From Stdlib Require Export ZArith Lia.
From stdpp Require Export prelude option gmap list.

#[global] Open Scope Z_scope.
#[global] Set Default Proof Using "Type".

(** ** Record update

    Go code mutates struct fields in place.  [r <| f := v |>] is the record
    [r] with the field [f] replaced by [v].  A record type opts in by giving
    its eta expansion ([Eta]); the setter of a field is then found by
    instance search, which replaces that field's projection in the
    expansion. *)
Class Eta (R : Type) := eta : R → R.
Class Setter {R E : Type} (field : R → E) := put : E → R → R.
Arguments put {R E} field {_} v r.

Ltac solve_setter :=
  lazymatch goal with
  | |- @Setter ?R ?E ?field =>
    let v := fresh "v" in
    let r := fresh "r" in
    intros v r;
    let i := constr:(_ : Eta R) in
    let h := lazymatch i with ?h => h end in
    let body := eval cbv beta delta [h] in (h r) in
    match body with
    | context C [field r] => let b := context C [v] in exact b
    end
  end.
#[export] Hint Extern 0 (Setter _) => solve_setter : typeclass_instances.

Declare Scope go_scope.
Delimit Scope go_scope with go.
#[warnings="-postfix-notation-not-level-1"]
Notation "r <| f := v |>" := (put f v r)
  (at level 12, left associativity, f at level 11, v at level 99) : go_scope.
#[global] Open Scope go_scope.

(** ** Machine integers

    A Go integer of width [w] is a [Z]; the conversions below are the ones
    the language performs on overflow and on explicit conversion. *)
Definition u8 (x : Z) : Z := x `mod` 2 ^ 8.
Definition u16 (x : Z) : Z := x `mod` 2 ^ 16.
Definition u32 (x : Z) : Z := x `mod` 2 ^ 32.
Definition u64 (x : Z) : Z := x `mod` 2 ^ 64.

(** two's-complement reading of the low 64 bits: Go's [int64(x)] *)
Definition i64 (x : Z) : Z := (x + 2 ^ 63) `mod` 2 ^ 64 - 2 ^ 63.

Definition maxInt64 : Z := 2 ^ 63 - 1.
Definition minInt64 : Z := - 2 ^ 63.

Definition is_u8 (x : Z) : Prop := 0 ≤ x < 2 ^ 8.
Definition is_u32 (x : Z) : Prop := 0 ≤ x < 2 ^ 32.
Definition is_u64 (x : Z) : Prop := 0 ≤ x < 2 ^ 64.
Definition is_i64 (x : Z) : Prop := minInt64 ≤ x ≤ maxInt64.

(** [word_lia] is [lia] with the width definitions visible. *)
Ltac word_lia :=
  unfold u8, u16, u32, u64, i64, is_u8, is_u32, is_u64, is_i64, maxInt64, minInt64 in *;
  try change (2 ^ 8) with 256 in *;
  try change (2 ^ 16) with 65536 in *;
  try change (2 ^ 32) with 4294967296 in *;
  try change (2 ^ 63) with 9223372036854775808 in *;
  try change (2 ^ 64) with 18446744073709551616 in *;
  Z.to_euclidean_division_equations; lia.

Create HintDb word.
Create Rewrite HintDb word.
Create Rewrite HintDb zlen.

Lemma u8_range x : is_u8 (u8 x).
Proof. word_lia. Qed.
Lemma u32_range x : is_u32 (u32 x).
Proof. word_lia. Qed.
Lemma u64_range x : is_u64 (u64 x).
Proof. word_lia. Qed.
Lemma i64_range x : is_i64 (i64 x).
Proof. word_lia. Qed.
Lemma u8_id x : is_u8 x → u8 x = x.
Proof. word_lia. Qed.
Lemma u32_id x : is_u32 x → u32 x = x.
Proof. word_lia. Qed.
Lemma u64_id x : is_u64 x → u64 x = x.
Proof. word_lia. Qed.
Lemma i64_id x : is_i64 x → i64 x = x.
Proof. word_lia. Qed.
Lemma i64_u64 x : i64 (u64 x) = i64 x.
Proof. word_lia. Qed.
#[export] Hint Resolve u8_range u32_range u64_range i64_range : word.
#[export] Hint Rewrite u8_id u32_id u64_id i64_id using (first [assumption | word_lia]) : word.

(** ** Time

    [time.Time] is the number of nanoseconds since the zero instant
    (January 1, year 1), so that the zero value is [0] and [IsZero] is
    equality with it; [time.Duration] is a nanosecond count.  [Time.Sub]
    saturates at the ends of the [Duration] range, which matters: the
    distance from the zero instant to any present-day instant exceeds it. *)
Definition Microsecond : Z := 1000.
Definition Millisecond : Z := 1000 * Microsecond.
Definition Second : Z := 1000 * Millisecond.

Definition time_Sub (a b : Z) : Z :=
  if decide (a - b < minInt64) then minInt64
  else if decide (maxInt64 < a - b) then maxInt64 else a - b.
Definition time_IsZero (t : Z) : bool := bool_decide (t = 0).
Definition time_Before (a b : Z) : bool := bool_decide (a < b).
Definition time_After (a b : Z) : bool := bool_decide (b < a).

Lemma time_Sub_later a b : b ≤ a → 0 ≤ time_Sub a b ≤ a - b.
Proof. intros. unfold time_Sub, maxInt64, minInt64. repeat case_decide; lia. Qed.
Lemma time_Sub_small a b : minInt64 ≤ a - b ≤ maxInt64 → time_Sub a b = a - b.
Proof. intros. unfold time_Sub. by repeat case_decide; lia. Qed.

(** ** Slices *)
Definition Zlen {A} (l : list A) : Z := Z.of_nat (length l).

(** [l[a:b]] *)
Definition slice {A} (l : list A) (a b : Z) : list A :=
  take (Z.to_nat (b - a)) (drop (Z.to_nat a) l).

(** [copy(dst[off:], src)]: as many bytes as fit, the rest of [dst] kept *)
Definition copy_at {A} (dst : list A) (off : Z) (src : list A) : list A :=
  take (Z.to_nat off) dst
  ++ take (length dst - Z.to_nat off) src
  ++ drop (Z.to_nat off + length src) dst.

Section slices.
Context {A : Type}.
Implicit Types l dst src : list A.

Lemma Zlen_nonneg l : 0 ≤ Zlen l.
Proof. unfold Zlen. lia. Qed.
Lemma Zlen_nil : Zlen (@nil A) = 0.
Proof. reflexivity. Qed.
Lemma Zlen_cons x l : Zlen (x :: l) = Zlen l + 1.
Proof. unfold Zlen. simpl. lia. Qed.
Lemma Zlen_app l1 l2 : Zlen (l1 ++ l2) = Zlen l1 + Zlen l2.
Proof. unfold Zlen. rewrite length_app. lia. Qed.
Lemma Zlen_0 l : Zlen l = 0 → l = [].
Proof. destruct l; [done|]. rewrite Zlen_cons. pose proof (Zlen_nonneg l). lia. Qed.
Lemma Zlen_replicate n (x : A) : 0 ≤ n → Zlen (replicate (Z.to_nat n) x) = n.
Proof. intros. unfold Zlen. rewrite length_replicate. lia. Qed.

Lemma Zlen_slice l a b : 0 ≤ a → a ≤ b → b ≤ Zlen l → Zlen (slice l a b) = b - a.
Proof. intros. unfold Zlen, slice in *. rewrite length_take, length_drop. lia. Qed.

Lemma slice_all l : slice l 0 (Zlen l) = l.
Proof.
  unfold slice, Zlen. rewrite Z.sub_0_r, Nat2Z.id. simpl.
  by rewrite drop_0, firstn_all.
Qed.

Lemma slice_nil l a : slice l a a = [].
Proof. unfold slice. by rewrite Z.sub_diag. Qed.

Lemma slice_app_l l1 l2 a b :
  0 ≤ a → b ≤ Zlen l1 → slice (l1 ++ l2) a b = slice l1 a b.
Proof.
  intros Ha Hb. unfold slice, Zlen in *.
  destruct (decide (b ≤ a)).
  { by replace (Z.to_nat (b - a)) with 0%nat by lia. }
  rewrite drop_app_le by lia. rewrite take_app_le; [done|].
  rewrite length_drop. lia.
Qed.

Lemma slice_app_r l1 l2 a b :
  Zlen l1 ≤ a → slice (l1 ++ l2) a b = slice l2 (a - Zlen l1) (b - Zlen l1).
Proof.
  intros Ha. unfold slice, Zlen in *. rewrite drop_app_ge by lia.
  do 2 f_equal; lia.
Qed.

Lemma slice_split l a b c :
  0 ≤ a → a ≤ b → b ≤ c → slice l a c = slice l a b ++ slice l b c.
Proof.
  intros. unfold slice.
  replace (Z.to_nat (c - a)) with (Z.to_nat (b - a) + Z.to_nat (c - b))%nat by lia.
  rewrite <- (take_take_drop (drop _ l)). do 2 f_equal.
  rewrite drop_drop. f_equal. lia.
Qed.

Lemma slice_slice l a b c d :
  0 ≤ a → 0 ≤ c → c ≤ d → a + d ≤ b → slice (slice l a b) c d = slice l (a + c) (a + d).
Proof.
  intros. unfold slice. rewrite skipn_firstn_comm, take_take, drop_drop. f_equal; [lia|].
  f_equal. lia.
Qed.

Lemma Zlen_copy_at dst off src : 0 ≤ off ≤ Zlen dst → Zlen (copy_at dst off src) = Zlen dst.
Proof.
  intros. unfold copy_at, Zlen in *.
  rewrite !length_app, !length_take, length_drop. lia.
Qed.

(** A copy that fits is the three-part concatenation. *)
Lemma copy_at_fits dst off src :
  0 ≤ off → off + Zlen src ≤ Zlen dst →
  copy_at dst off src = slice dst 0 off ++ src ++ slice dst (off + Zlen src) (Zlen dst).
Proof.
  intros. unfold copy_at, slice, Zlen in *. rewrite Z.sub_0_r, drop_0.
  rewrite (take_ge src) by lia. do 2 f_equal.
  rewrite (take_ge (drop _ dst)).
  - f_equal. lia.
  - rewrite length_drop. lia.
Qed.

Lemma slice_copy_at_in dst off src :
  0 ≤ off → off + Zlen src ≤ Zlen dst →
  slice (copy_at dst off src) off (off + Zlen src) = src.
Proof.
  intros. pose proof (Zlen_nonneg src). rewrite copy_at_fits by lia.
  rewrite slice_app_r by (rewrite Zlen_slice; lia).
  rewrite Zlen_slice by lia.
  replace (off - (off - 0)) with 0 by lia.
  replace (off + Zlen src - (off - 0)) with (Zlen src) by lia.
  rewrite slice_app_l by lia. apply slice_all.
Qed.

Lemma slice_copy_at_before dst off src a b :
  0 ≤ off → off + Zlen src ≤ Zlen dst → 0 ≤ a → b ≤ off →
  slice (copy_at dst off src) a b = slice dst a b.
Proof.
  intros. destruct (decide (b ≤ a)).
  { unfold slice. by replace (Z.to_nat (b - a)) with 0%nat by lia. }
  pose proof (Zlen_nonneg src). rewrite copy_at_fits by lia.
  rewrite slice_app_l by (rewrite ?Zlen_slice; lia).
  rewrite slice_slice by lia. f_equal; lia.
Qed.

Lemma slice_copy_at_after dst off src a b :
  0 ≤ off → off + Zlen src ≤ a → a ≤ b → b ≤ Zlen dst →
  slice (copy_at dst off src) a b = slice dst a b.
Proof.
  intros. rewrite copy_at_fits by lia. rewrite app_assoc.
  pose proof (Zlen_nonneg src).
  rewrite slice_app_r by (rewrite Zlen_app, Zlen_slice; lia).
  rewrite Zlen_app, Zlen_slice by lia.
  rewrite slice_slice by lia. f_equal; lia.
Qed.
End slices.

#[export] Hint Rewrite @Zlen_app @Zlen_cons @Zlen_nil : zlen.

(** ** Small automation *)

(** split the innermost [match]/[if] scrutinee of the goal or a hypothesis *)
Ltac case_split :=
  match goal with
  | |- context [match ?x with _ => _ end] =>
      lazymatch x with context [match _ with _ => _ end] => fail | _ => destruct x eqn:? end
  | H : context [match ?x with _ => _ end] |- _ =>
      lazymatch x with context [match _ with _ => _ end] => fail | _ => destruct x eqn:? end
  end.
Ltac case_splits := repeat (case_split; simplify_eq/=).

(** decide the first test of the goal *)
Ltac case_test := match goal with |- context [bool_decide ?P] => destruct (bool_decide_reflect P) end.

(** turn the boolean tests the code performs into propositions *)
Ltac bool_simpl :=
  repeat match goal with
  | H : bool_decide _ = true |- _ => apply bool_decide_eq_true_1 in H
  | H : bool_decide _ = false |- _ => apply bool_decide_eq_false_1 in H
  | H : andb _ _ = true |- _ => apply andb_prop in H as [? ?]
  | H : andb _ _ = false |- _ => apply andb_false_iff in H
  | H : orb _ _ = true |- _ => apply orb_true_iff in H
  | H : orb _ _ = false |- _ => apply orb_false_iff in H as [? ?]
  | H : negb _ = true |- _ => apply negb_true_iff in H
  | H : negb _ = false |- _ => apply negb_false_iff in H
  end.

(** The constant-free tests [a <? b] etc. come from [bool_decide] on [Z]. *)
Notation "a <? b" := (bool_decide (a < b)%Z) (at level 70, no associativity) : go_scope.
Notation "a <=? b" := (bool_decide (a ≤ b)%Z) (at level 70, no associativity) : go_scope.
Notation "a =? b" := (bool_decide (a = b :> Z)) (at level 70, no associativity) : go_scope.
Notation "a >? b" := (bool_decide (b < a)%Z) (at level 70, no associativity) : go_scope.
Notation "a >=? b" := (bool_decide (b ≤ a)%Z) (at level 70, no associativity) : go_scope.
