(* ===== verification/Errors.v ===== *)
(** * Errors

    The error values of [errors.go], with the two the package takes from
    elsewhere ([io.EOF], the deadline error of [stream.go], a kernel
    [syscall.Errno]), the text errors of the wire codec ([frame.go]) and the
    [AddrError]s of package [net].
    A Go function that returns [(T, error)] is modelled by [result T]; a
    Go function that can panic on an index out of range returns an
    [option], [None] being the panic. *)
From S2P Require Import Prelude.

(** why package [net] refuses an address *)
Inductive addr_why :=
| missingPort
| tooManyColons
| missingBracket
| unexpectedOpen
| unexpectedClose
| invalidPort.
#[export] Instance addr_why_eq_dec : EqDecision addr_why.
Proof. solve_decision. Defined.

Inductive go_error : Type :=
| ErrClosed
| ErrStreamClosed
| ErrStreamFIN
| ErrMaxStreams
| ErrConnRefused
| ErrHandshakeTimeout
| ErrPayloadTooLarge
| ErrStreamReset
| io_EOF
| errDeadlineExceeded
| ErrErrno (errno : Z)
| ErrHeaderTooSmall
| ErrPayloadTruncated (have need : Z)
| ErrSeqListTooSmall
| ErrSeqListTruncated (have need : Z)
| ErrNoSeqCapacity
| ErrWindowUpdateTooSmall
| ErrHandshakeTooSmall
| AddrError (why : addr_why).

#[export] Instance go_error_eq_dec : EqDecision go_error.
Proof. solve_decision. Defined.

Inductive result (A : Type) : Type :=
| Ok (a : A)
| Err (e : go_error).
Arguments Ok {A} a.
Arguments Err {A} e.

#[export] Instance result_eq_dec {A} `{EqDecision A} : EqDecision (result A).
Proof. solve_decision. Defined.
