(* ===== verification/Addr.v ===== *)
(** * Addresses

    [parseAddr] of [connection.go], which [Dial] and [Listen] give their
    address to, with what it uses of package [net]: [SplitHostPort] and
    [LookupPort].  A string is its bytes.  The resolver's table of services,
    which [LookupPort] asks about a port that is not a number, is a
    parameter. *)
From S2P Require Import Prelude Errors.

Definition ch_colon : Z := 58.
Definition ch_open : Z := 91.
Definition ch_close : Z := 93.
Definition ch_plus : Z := 43.
Definition ch_minus : Z := 45.
Definition ch_0 : Z := 48.

(** the first and the last place of a byte, [-1] where there is none *)
Fixpoint IndexByte (s : list Z) (c : Z) : Z :=
  match s with
  | [] => -1
  | x :: s => if x =? c then 0 else let i := IndexByte s c in if i <? 0 then -1 else i + 1
  end.
Fixpoint LastIndexByte (s : list Z) (c : Z) : Z :=
  match s with
  | [] => -1
  | x :: s => let i := LastIndexByte s c in if i <? 0 then if x =? c then 0 else -1 else i + 1
  end.

(** [hostport[i]], for an index in range *)
Definition byte_at (s : list Z) (i : Z) : Z := default 0 (s !! Z.to_nat i).

(** [net.SplitHostPort] *)
Definition SplitHostPort (hostport : list Z) : result (list Z * list Z) :=
  let finish (host : list Z) (i j k : Z) : result (list Z * list Z) :=
    if IndexByte (slice hostport j (Zlen hostport)) ch_open >=? 0 then Err (AddrError unexpectedOpen)
    else if IndexByte (slice hostport k (Zlen hostport)) ch_close >=? 0 then Err (AddrError unexpectedClose)
    else Ok (host, slice hostport (i + 1) (Zlen hostport)) in
  let i := LastIndexByte hostport ch_colon in
  if i <? 0 then Err (AddrError missingPort)
  else if byte_at hostport 0 =? ch_open then
    let end_ := IndexByte hostport ch_close in
    if end_ <? 0 then Err (AddrError missingBracket)
    else if end_ + 1 =? Zlen hostport then Err (AddrError missingPort)
    else if end_ + 1 =? i then finish (slice hostport 1 end_) i 1 (end_ + 1)
    else if byte_at hostport (end_ + 1) =? ch_colon then Err (AddrError tooManyColons)
    else Err (AddrError missingPort)
  else
    let host := slice hostport 0 i in
    if IndexByte host ch_colon >=? 0 then Err (AddrError tooManyColons) else finish host i 0 0.

(** ** Ports *)
Definition port_max : Z := 2 ^ 32 - 1.
Definition port_cutoff : Z := 2 ^ 30.

(** the loop of [parsePort], its [uint32] wrapping; [None] where a byte is
    not a digit *)
Fixpoint portLoop (n : Z) (service : list Z) : option Z :=
  match service with
  | [] => Some n
  | d :: service =>
      if (ch_0 <=? d) && (d <=? ch_0 + 9) then
        if n >=? port_cutoff then Some port_max
        else
          let n := u32 (n * 10) in
          let nn := u32 (n + (d - ch_0)) in
          if (nn <? n) || (nn >? port_max) then Some port_max else portLoop nn service
      else None
  end.

(** [parsePort]: the port, or [None] where it must be looked up *)
Definition parsePort (service : list Z) : option Z :=
  match service with
  | [] => Some 0
  | c :: rest =>
      let neg := c =? ch_minus in
      let digits := if (c =? ch_plus) || neg then rest else service in
      n ← portLoop 0 digits;
      let port :=
        if negb neg && (n >=? port_cutoff) then port_cutoff - 1
        else if neg && (n >? port_cutoff) then port_cutoff
        else n in
      Some (if neg then - port else port)
  end.

Section lookup.
Context (lookup : list Z → result Z).

(** [net.LookupPort("udp", service)] *)
Definition LookupPort (service : list Z) : result Z :=
  match match parsePort service with Some port => Ok port | None => lookup service end with
  | Err e => Err e
  | Ok port => if (0 >? port) || (port >? 65535) then Err (AddrError invalidPort) else Ok port
  end.

Definition parseAddr (addr : list Z) : result (list Z * Z) :=
  match SplitHostPort addr with
  | Err e => Err e
  | Ok (h, p) => match LookupPort p with Err e => Err e | Ok pn => Ok (h, pn) end
  end.
End lookup.

(** ** Writing an address *)

(** the decimal digits of a number below ten to the [fuel] *)
Fixpoint Itoa (fuel : nat) (n : Z) : list Z :=
  match fuel with
  | O => []
  | S fuel => (if n <? 10 then [] else Itoa fuel (n `div` 10)) ++ [ch_0 + n `mod` 10]
  end.
Definition port_string (n : Z) : list Z := Itoa 5 n.

(** ["host:port"], and ["[host]:port"] where the host has colons *)
Definition bracketed (h p : list Z) : list Z := ch_open :: h ++ ch_close :: ch_colon :: p.
Definition plain (h p : list Z) : list Z := h ++ ch_colon :: p.
Definition JoinHostPort (h p : list Z) : list Z := if decide (ch_colon ∈ h) then bracketed h p else plain h p.

(** no brackets *)
Definition unbracketed (s : list Z) : Prop := ch_open ∉ s ∧ ch_close ∉ s.

(** ** Searching *)
Lemma IndexByte_range s c : -1 ≤ IndexByte s c.
Proof. induction s as [|x s IH]; cbn [IndexByte]; [done|]. repeat case_test; lia. Qed.
Lemma IndexByte_none s c : IndexByte s c < 0 ↔ c ∉ s.
Proof.
  induction s as [|x s IH]; cbn [IndexByte]; [split; [intros _; apply not_elem_of_nil|lia]|]. rewrite not_elem_of_cons. pose proof (IndexByte_range s c).
  case_test; [split; [lia|by intros []]|]. rewrite <- IH. case_test; split; try (intros [_ ?]); lia.
Qed.
Lemma IndexByte_some s c : bool_decide (0 ≤ IndexByte s c) = false ↔ c ∉ s.
Proof. rewrite <- IndexByte_none, bool_decide_eq_false. lia. Qed.
Lemma IndexByte_at s1 c s2 : c ∉ s1 → IndexByte (s1 ++ c :: s2) c = Zlen s1.
Proof.
  induction s1 as [|x s1 IH]; intros Hc; cbn [app IndexByte]; [by rewrite bool_decide_true|]. apply not_elem_of_cons in Hc as [Hx Hc].
  rewrite bool_decide_false, IH, Zlen_cons by done. pose proof (Zlen_nonneg s1). case_test; lia.
Qed.
Lemma IndexByte_first s c : ¬ (IndexByte s c < 0) → ∃ s1 s2, s = s1 ++ c :: s2 ∧ c ∉ s1 ∧ IndexByte s c = Zlen s1.
Proof.
  intros Hc. destruct (decide (c ∈ s)) as [Hin|Hin]; [|by destruct Hc; apply IndexByte_none].
  apply list_elem_of_split_l in Hin as (s1 & s2 & -> & H). exists s1, s2. split_and!; [done|done|by apply IndexByte_at].
Qed.
Lemma LastIndexByte_range s c : -1 ≤ LastIndexByte s c.
Proof. induction s as [|x s IH]; cbn [LastIndexByte]; [done|]. repeat case_test; lia. Qed.
Lemma LastIndexByte_none s c : c ∉ s → LastIndexByte s c = -1.
Proof.
  induction s as [|x s IH]; cbn [LastIndexByte]; [done|]. intros [Hx Hs]%not_elem_of_cons. rewrite IH by done.
  by rewrite bool_decide_true, bool_decide_false.
Qed.
Lemma LastIndexByte_at s1 c s2 : c ∉ s2 → LastIndexByte (s1 ++ c :: s2) c = Zlen s1.
Proof.
  intros Hc. induction s1 as [|x s1 IH]; cbn [app LastIndexByte].
  - rewrite LastIndexByte_none by done. by rewrite !bool_decide_true.
  - rewrite IH, Zlen_cons. pose proof (Zlen_nonneg s1). case_test; lia.
Qed.
Lemma LastIndexByte_last s c : ¬ (LastIndexByte s c < 0) → ∃ s1 s2, s = s1 ++ c :: s2 ∧ c ∉ s2 ∧ LastIndexByte s c = Zlen s1.
Proof.
  intros Hc. destruct (decide (c ∈ s)) as [Hin|Hin]; [|by destruct Hc; rewrite LastIndexByte_none].
  apply list_elem_of_split_r in Hin as (s1 & s2 & -> & H). exists s1, s2. split_and!; [done|done|by apply LastIndexByte_at].
Qed.

Lemma slice_tail {A} (s1 s2 : list A) : slice (s1 ++ s2) (Zlen s1) (Zlen (s1 ++ s2)) = s2.
Proof. rewrite slice_app_r, Z.sub_diag, Zlen_app by done. replace (Zlen s1 + Zlen s2 - Zlen s1) with (Zlen s2) by lia. apply slice_all. Qed.
Lemma Zlen_snoc {A} (s : list A) x : Zlen (s ++ [x]) = Zlen s + 1.
Proof. by rewrite Zlen_app. Qed.
Lemma slice_head {A} (s1 s2 : list A) : slice (s1 ++ s2) 0 (Zlen s1) = s1.
Proof. rewrite slice_app_l by (pose proof (Zlen_nonneg s1); lia). apply slice_all. Qed.
Lemma slice_inner {A} (x : A) (s1 s2 : list A) : slice (x :: s1 ++ s2) 1 (Zlen s1 + 1) = s1.
Proof.
  change (x :: s1 ++ s2) with ([x] ++ (s1 ++ s2)). rewrite slice_app_r by done. rewrite <- (slice_head s1 s2) at 3. f_equal. change (Zlen [x]) with 1. lia.
Qed.

(** ** Splitting *)
Lemma unbracketed_app s1 s2 : unbracketed (s1 ++ s2) ↔ unbracketed s1 ∧ unbracketed s2.
Proof. unfold unbracketed. rewrite !not_elem_of_app. tauto. Qed.
Lemma unbracketed_cons x s : unbracketed (x :: s) ↔ x ≠ ch_open ∧ x ≠ ch_close ∧ unbracketed s.
Proof. unfold unbracketed. rewrite !not_elem_of_cons. naive_solver. Qed.

Lemma SplitHostPort_plain h p : ch_colon ∉ h → unbracketed h → ch_colon ∉ p → unbracketed p → SplitHostPort (plain h p) = Ok (h, p).
Proof.
  intros H1 H2 H3 H4. assert (unbracketed (plain h p)) as [Ho Hc].
  { unfold plain. rewrite unbracketed_app, unbracketed_cons. done. }
  assert (byte_at (plain h p) 0 ≠ ch_open) as H0.
  { intros Hb. destruct Ho. unfold plain, byte_at in *. destruct h as [|x h]; [discriminate Hb|]. change (x = ch_open) in Hb. rewrite Hb. by left. }
  pose proof (Zlen_nonneg h). assert (LastIndexByte (plain h p) ch_colon = Zlen h) as Hi by by apply LastIndexByte_at.
  assert (slice (plain h p) 0 (Zlen h) = h) as Hh by apply slice_head.
  assert (slice (plain h p) (Zlen h + 1) (Zlen (plain h p)) = p) as Hp.
  { unfold plain. change (ch_colon :: p) with ([ch_colon] ++ p). rewrite app_assoc. rewrite <- (Zlen_snoc h ch_colon). apply slice_tail. }
  unfold SplitHostPort. rewrite Hi, Hh, Hp, slice_all. rewrite (bool_decide_false (Zlen h < 0)), (bool_decide_false (byte_at _ _ = _)) by (done || lia).
  by rewrite (proj2 (IndexByte_some h _) H1), (proj2 (IndexByte_some _ _) Ho), (proj2 (IndexByte_some _ _) Hc).
Qed.
Lemma SplitHostPort_bracketed h p : unbracketed h → ch_colon ∉ p → unbracketed p → SplitHostPort (bracketed h p) = Ok (h, p).
Proof.
  intros [H1 H2] H3 [H4 H5]. set (s := bracketed h p). pose proof (Zlen_nonneg h). pose proof (Zlen_nonneg p).
  assert (s = (ch_open :: h ++ [ch_close]) ++ ch_colon :: p) as Es by (unfold s, bracketed; cbn; by rewrite <- app_assoc).
  assert (LastIndexByte s ch_colon = Zlen h + 2) as Hi. { rewrite Es, LastIndexByte_at by done. rewrite Zlen_cons, Zlen_snoc. lia. }
  assert (IndexByte s ch_close = Zlen h + 1) as He.
  { rewrite <- (Zlen_cons ch_open h). apply (IndexByte_at (ch_open :: h)). by apply not_elem_of_cons. }
  assert (Zlen s = Zlen h + 3 + Zlen p) as Hs. { rewrite Es, Zlen_app, !Zlen_cons, Zlen_snoc. lia. }
  unfold SplitHostPort. rewrite Hi, He. rewrite (bool_decide_false (Zlen h + 2 < 0)) by lia. rewrite (bool_decide_true (byte_at s 0 = ch_open)) by done.
  rewrite bool_decide_false, bool_decide_false, bool_decide_true by lia.
  assert (slice s 1 (Zlen h + 1) = h) as -> by apply slice_inner.
  assert (slice s 1 (Zlen s) = h ++ ch_close :: ch_colon :: p) as ->. { apply (slice_tail [ch_open]). }
  assert (slice s (Zlen h + 1 + 1) (Zlen s) = ch_colon :: p) as ->.
  { rewrite Es. replace (Zlen h + 1 + 1) with (Zlen (ch_open :: h ++ [ch_close])) by (rewrite Zlen_cons, Zlen_snoc; lia). apply slice_tail. }
  assert (slice s (Zlen h + 2 + 1) (Zlen s) = p) as ->.
  { change (ch_colon :: p) with ([ch_colon] ++ p) in Es. rewrite app_assoc in Es. rewrite Es.
    replace (Zlen h + 2 + 1) with (Zlen ((ch_open :: h ++ [ch_close]) ++ [ch_colon])) by (rewrite Zlen_snoc, Zlen_cons, Zlen_snoc; lia). apply slice_tail. }
  rewrite (proj2 (IndexByte_some _ _)), (proj2 (IndexByte_some _ _)); [done|by apply not_elem_of_cons|].
  rewrite not_elem_of_app, !not_elem_of_cons. done.
Qed.

(** and only such addresses are split *)
Ltac test_as H := match goal with |- context [bool_decide ?P] => destruct (bool_decide_reflect P) as [H|H] end.
Lemma SplitHostPort_inv s h p : SplitHostPort s = Ok (h, p) →
  ch_colon ∉ p ∧ unbracketed p ∧ unbracketed h ∧ (s = plain h p ∧ ch_colon ∉ h ∨ s = bracketed h p).
Proof.
  unfold SplitHostPort. test_as Hi; [done|]. apply LastIndexByte_last in Hi as (s1 & s2 & Es & H2 & ->).
  assert (slice s (Zlen s1 + 1) (Zlen s) = s2) as Hp.
  { rewrite Es. change (ch_colon :: s2) with ([ch_colon] ++ s2). rewrite app_assoc. rewrite <- (Zlen_snoc s1 ch_colon). apply slice_tail. }
  rewrite Hp. test_as H0.
  - test_as He; [done|]. apply IndexByte_first in He as (t1 & t2 & Et & H3 & ->). case_test; [done|]. test_as Hl; [|case_test; done].
    assert (s1 = t1 ++ [ch_close] ∧ s2 = drop 1 t2) as [E1 E2].
    { rewrite Es in Et. change (ch_close :: t2) with ([ch_close] ++ t2) in Et. rewrite app_assoc in Et.
      apply app_inj_1 in Et as [? <-]; [done|]. unfold Zlen in Hl. rewrite length_app. cbn. lia. }
    destruct t1 as [|x t1]; [by rewrite Et in H0|]. assert (x = ch_open) as -> by (by rewrite Et in H0).
    assert (s = bracketed t1 s2) as Eb. { rewrite Es, E1. unfold bracketed. cbn. by rewrite <- app_assoc. }
    assert (slice s 1 (Zlen (ch_open :: t1)) = t1) as ->. { rewrite Eb, Zlen_cons. apply slice_inner. }
    assert (slice s 1 (Zlen s) = t1 ++ ch_close :: ch_colon :: s2) as ->. { rewrite Eb. apply (slice_tail [ch_open]). }
    assert (slice s (Zlen (ch_open :: t1) + 1) (Zlen s) = ch_colon :: s2) as ->.
    { rewrite Es, E1, <- (Zlen_snoc (ch_open :: t1) ch_close). apply slice_tail. }
    test_as Ho; [done|]. test_as Hc; [done|]. intros [= <- <-].
    apply Z.nle_gt, IndexByte_none in Ho, Hc. rewrite not_elem_of_app, !not_elem_of_cons in Ho. rewrite not_elem_of_cons in Hc, H3.
    unfold unbracketed. naive_solver.
  - assert (slice s 0 (Zlen s1) = s1) as ->. { rewrite Es. apply slice_head. }
    test_as Hcol; [done|]. rewrite !slice_all. test_as Ho; [done|]. test_as Hc; [done|]. intros [= <- <-].
    apply Z.nle_gt, IndexByte_none in Ho, Hc, Hcol. rewrite Es, not_elem_of_app, not_elem_of_cons in Ho, Hc. unfold unbracketed, plain. naive_solver.
Qed.

(** ** Decimal ports *)
Definition is_digit (d : Z) : Prop := ch_0 ≤ d ≤ ch_0 + 9.
Definition decimal (n : Z) (ds : list Z) : Z := foldl (λ n d, n * 10 + (d - ch_0)) n ds.

Lemma decimal_grows ds n : Forall is_digit ds → 0 ≤ n → n ≤ decimal n ds.
Proof.
  intros Hd. revert n. induction Hd as [|d ds Hd _ IH]; intros n Hn; cbn; [done|]. unfold is_digit in Hd.
  etransitivity; [|apply IH; lia]. lia.
Qed.
(** the loop computes the number, as long as it is small enough *)
Lemma portLoop_decimal ds n : Forall is_digit ds → 0 ≤ n → decimal n ds < port_cutoff → portLoop n ds = Some (decimal n ds).
Proof.
  intros Hd. revert n. induction Hd as [|d ds Hd Hds IH]; intros n Hn Hlt; [done|]. cbn [portLoop decimal foldl] in *. fold (decimal (n * 10 + (d - ch_0)) ds) in *.
  pose proof (decimal_grows ds (n * 10 + (d - ch_0)) Hds). unfold is_digit, port_cutoff, port_max in *.
  rewrite (bool_decide_true (ch_0 ≤ d)), (bool_decide_true (d ≤ _)) by lia. cbn [andb]. rewrite bool_decide_false by lia.
  rewrite (u32_id (n * 10)), u32_id by word_lia. rewrite !bool_decide_false by lia. cbn [orb]. apply IH; lia.
Qed.

Lemma Itoa_digits fuel n : 0 ≤ n → Forall is_digit (Itoa fuel n).
Proof.
  revert n. induction fuel as [|fuel IH]; intros n Hn; [by constructor|]. cbn [Itoa]. apply Forall_app. split.
  - case_test; [by constructor|]. apply IH. apply Z.div_pos; lia.
  - constructor; [|by constructor]. unfold is_digit. Z.to_euclidean_division_equations; lia.
Qed.
Lemma Itoa_nonempty fuel n : Itoa (S fuel) n ≠ [].
Proof. cbn [Itoa]. by intros [_ ?]%app_nil. Qed.
Lemma Itoa_decimal fuel n : 0 ≤ n < 10 ^ Z.of_nat fuel → decimal 0 (Itoa fuel n) = n.
Proof.
  revert n. induction fuel as [|fuel IH]; intros n Hn; [cbn in *; lia|]. cbn [Itoa]. unfold decimal. rewrite foldl_app. fold (decimal 0 (if n <? 10 then [] else Itoa fuel (n `div` 10))).
  cbn [foldl]. rewrite Nat2Z.inj_succ, Z.pow_succ_r in Hn by lia. pose proof (Z.div_mod n 10).
  test_as H10; [cbn; Z.to_euclidean_division_equations; lia|]. rewrite IH; [lia|]. split; [apply Z.div_pos; lia|]. apply Z.div_lt_upper_bound; lia.
Qed.

Lemma parsePort_decimal ds : Forall is_digit ds → ds ≠ [] → decimal 0 ds < port_cutoff → parsePort ds = Some (decimal 0 ds).
Proof.
  intros Hd Hne Hlt. destruct ds as [|d ds]; [done|]. unfold parsePort. assert (is_digit d) as Hd0 by (by apply Forall_inv in Hd). unfold is_digit in Hd0.
  rewrite (bool_decide_false (d = ch_minus)), (bool_decide_false (d = ch_plus)) by (unfold ch_0, ch_minus, ch_plus in *; lia). cbn [orb negb andb].
  rewrite portLoop_decimal by done. cbn [mbind option_bind]. by rewrite bool_decide_false by lia.
Qed.
Lemma digits_plain ds : Forall is_digit ds → ch_colon ∉ ds ∧ unbracketed ds.
Proof.
  intros Hd. assert (∀ x, ch_0 + 9 < x → x ∉ ds) as Hx by (intros x Hx Hin; rewrite Forall_forall in Hd; specialize (Hd x Hin); unfold is_digit in Hd; lia).
  split; [|split]; by apply Hx.
Qed.

(** what [LookupPort] returns is a port *)
Lemma LookupPort_range lookup p n : LookupPort lookup p = Ok n → 0 ≤ n ≤ 65535.
Proof.
  unfold LookupPort. destruct (match parsePort p with Some port => Ok port | None => lookup p end) as [port|e]; [|done].
  destruct (bool_decide_reflect (port < 0)); [done|]. cbn [orb]. destruct (bool_decide_reflect (65535 < port)); [done|]. intros [= <-]. lia.
Qed.

(** C34: addresses are read as they are written.  Whatever names the resolver
    knows: (1) a host without brackets and a port, written ["host:port"], or
    ["[host]:port"] for a host with colons, are read back, an empty host
    included; (2) what [parseAddr] accepts has one of these two forms, with
    nothing else around, and a port that fits 16 bits; everything else is an
    error. *)
Theorem parseAddr_exact lookup :
  (∀ h n, unbracketed h → 0 ≤ n ≤ 65535 → parseAddr lookup (JoinHostPort h (port_string n)) = Ok (h, n)) ∧
  (∀ addr h n, parseAddr lookup addr = Ok (h, n) →
     0 ≤ n ≤ 65535 ∧ unbracketed h ∧ ∃ p, LookupPort lookup p = Ok n ∧ (addr = JoinHostPort h p ∨ addr = bracketed h p)).
Proof.
  split.
  - intros h n Hh Hn. unfold parseAddr, port_string. pose proof (Itoa_digits 5 n) as Hd. destruct (digits_plain (Itoa 5 n)) as [P1 P2]; [apply Hd; lia|].
    assert (SplitHostPort (JoinHostPort h (Itoa 5 n)) = Ok (h, Itoa 5 n)) as ->.
    { unfold JoinHostPort. case_decide; [by apply SplitHostPort_bracketed|by apply SplitHostPort_plain]. }
    pose proof (Itoa_decimal 5 n) as Hv. change (10 ^ Z.of_nat 5) with 100000 in Hv. unfold LookupPort.
    rewrite parsePort_decimal, Hv; [|lia|apply Hd; lia|apply Itoa_nonempty|rewrite Hv by lia; unfold port_cutoff; lia].
    by rewrite !bool_decide_false by lia.
  - intros addr h n. unfold parseAddr. destruct (SplitHostPort addr) as [[h' p]|e] eqn:Hs; [|done].
    destruct (LookupPort lookup p) as [n'|e] eqn:Hp; [|done]. intros [= -> ->]. apply SplitHostPort_inv in Hs as (_ & _ & H1 & H2).
    split; [by apply (LookupPort_range lookup p)|]. split; [done|]. exists p. split; [done|]. unfold JoinHostPort.
    destruct H2 as [[-> Hc]| ->]; [left; by rewrite decide_False|by right].
Qed.

Definition no_names (_ : list Z) : result Z := Err (AddrError invalidPort).
(** ["[::1]:7000"] and [":7000"] *)
Lemma parseAddr_exact_witness :
  parseAddr no_names [91; 58; 58; 49; 93; 58; 55; 48; 48; 48] = Ok ([58; 58; 49], 7000) ∧ parseAddr no_names [58; 55; 48; 48; 48] = Ok ([], 7000).
Proof.
  destruct (parseAddr_exact no_names) as [H _]. split.
  - apply (H [58; 58; 49] 7000); [split; by apply (bool_decide_unpack _); vm_compute|lia].
  - apply (H [] 7000); [split; apply not_elem_of_nil|lia].
Defined.
