(* ===== verification/Frame.v ===== *)
(** * The wire format ([frame.go])

    Frame types, the 13-byte frame header, complete frames, the ACK/NACK
    sequence list, and the fixed 8-byte payloads.  Bytes are integers below
    256; a Go [[]byte] buffer is the list of its bytes and a write beyond
    its end is the run-time panic [None]. *)
From S2P Require Import Prelude Errors.

(** ** encoding/binary *)

(** the [n] low bytes of [v], most significant first
    ([binary.BigEndian.PutUint32] for [n = 4], [PutUint64] for [n = 8]) *)
Fixpoint be_bytes (n : nat) (v : Z) : list Z :=
  match n with
  | O => []
  | S n' => u8 (Z.shiftr v (8 * Z.of_nat n')) :: be_bytes n' v
  end.

(** the value of a big-endian byte string ([binary.BigEndian.Uint32/64]) *)
Definition be_val (l : list Z) : Z := foldl (λ acc b, acc * 256 + b) 0 l.

Definition PutUint32 (v : Z) : list Z := be_bytes 4 v.
Definition PutUint64 (v : Z) : list Z := be_bytes 8 v.
Definition Uint32 (l : list Z) : Z := be_val (take 4 l).
Definition Uint64 (l : list Z) : Z := be_val (take 8 l).

(** [copy] of a fixed-size encoding at [off]; writing past the end panics *)
Definition put_bytes (buf : list Z) (off : Z) (bs : list Z) : option (list Z) :=
  if off + Zlen bs <=? Zlen buf then Some (copy_at buf off bs) else None.

(** ** Frame types and sizes *)
Definition frameData : Z := 0x01.
Definition frameStreamOpen : Z := 0x02.
Definition frameStreamClose : Z := 0x03.
Definition frameStreamFIN : Z := 0x04.
Definition frameWindowUpdate : Z := 0x05.
Definition framePing : Z := 0x06.
Definition framePong : Z := 0x07.
Definition frameGoAway : Z := 0x08.
Definition frameACK : Z := 0x09.
Definition frameHandshake : Z := 0x0A.
Definition frameStreamReset : Z := 0x0B.
Definition frameStopSending : Z := 0x0C.
Definition frameNack : Z := 0x0D.
Definition frameFEC : Z := 0x0E.
Definition frameFECRow : Z := 0x0F.

Definition fecMetaLen : Z := 4.
Definition frameHeaderSize : Z := 13.
Definition defaultMaxPayloadSize : Z := 1200.
Definition defaultMaxDatagramSize : Z := frameHeaderSize + defaultMaxPayloadSize.

Definition maxAckSeqsPerFrame (maxPayload : Z) : Z := Z.quot (maxPayload - 8) 4.

(** ** Chunked visits of a sequence list

    [visit] is the callback, a state transformer that may fail; the loop is
    run with [fuel] iterations ([None] when they do not suffice, which
    [chunk_loop_ok] excludes for the fuel the function uses). *)
Section chunks.
Context {St : Type} (visit : list Z → St → St * option go_error).

Fixpoint chunk_loop (fuel : nat) (maxSeqs : Z) (seqs : list Z) (st : St)
    : option (St * option go_error) :=
  match seqs with
  | [] => Some (st, None)
  | _ :: _ =>
      match fuel with
      | O => None
      | S fuel' =>
          let n := if Zlen seqs >? maxSeqs then maxSeqs else Zlen seqs in
          match visit (slice seqs 0 n) st with
          | (st', Some err) => Some (st', Some err)
          | (st', None) => chunk_loop fuel' maxSeqs (slice seqs n (Zlen seqs)) st'
          end
      end
  end.

Definition forEachSeqListChunk (seqs : list Z) (maxPayload : Z) (st : St)
    : option (St * option go_error) :=
  let maxSeqs := maxAckSeqsPerFrame maxPayload in
  if maxSeqs <=? 0 then Some (st, Some ErrNoSeqCapacity)
  else chunk_loop (length seqs) maxSeqs seqs st.
End chunks.

(** ** Frames *)
Record frame := mkFrame {
  f_ftype : Z;
  f_streamID : Z;
  f_seq : Z;
  f_length : Z;
  f_payload : list Z;
}.
#[export] Instance eta_frame : Eta frame :=
  λ f, mkFrame (f_ftype f) (f_streamID f) (f_seq f) (f_length f) (f_payload f).
#[export] Instance frame_eq_dec : EqDecision frame.
Proof. solve_decision. Defined.

Definition encodeHeader (buf : list Z) (ftype streamID seq length : Z) : option (list Z) :=
  buf ← put_bytes buf 0 [ftype];
  buf ← put_bytes buf 1 (PutUint32 streamID);
  buf ← put_bytes buf 5 (PutUint32 seq);
  put_bytes buf 9 (PutUint32 length).

Definition encodeFrame (buf : list Z) (ftype streamID seq : Z) (payload : list Z)
    : option (list Z * Z) :=
  let plen := u32 (Zlen payload) in
  buf ← encodeHeader buf ftype streamID seq plen;
  Some (copy_at buf frameHeaderSize payload, frameHeaderSize + plen).

Fixpoint put_seqs (buf : list Z) (off : Z) (seqs : list Z) : option (list Z) :=
  match seqs with
  | [] => Some buf
  | s :: rest => buf ← put_bytes buf off (PutUint32 s); put_seqs buf (off + 4) rest
  end.

Definition encodeSeqListFrame (buf : list Z) (ftype streamID cumulative : Z) (seqs : list Z)
    : option (list Z * Z) :=
  let plen := u32 (8 + 4 * Zlen seqs) in
  buf ← encodeHeader buf ftype streamID 0 plen;
  buf ← put_bytes buf frameHeaderSize (PutUint32 cumulative);
  buf ← put_bytes buf (frameHeaderSize + 4) (PutUint32 (u32 (Zlen seqs)));
  buf ← put_seqs buf (frameHeaderSize + 8) seqs;
  Some (buf, frameHeaderSize + plen).

Definition encodeAckFrame (buf : list Z) (streamID cumulative : Z) (seqs : list Z)
    : option (list Z * Z) :=
  encodeSeqListFrame buf frameACK streamID cumulative seqs.

(** The decoded list is written over the first [count] cells of [scratch]
    when its capacity allows, and over a fresh slice otherwise. *)
Definition decodeSeqListFrame (f : frame) (scratch : list Z) : result (Z * list Z) :=
  if Zlen f.(f_payload) <? 8 then Err ErrSeqListTooSmall
  else
    let cumulative := Uint32 (slice f.(f_payload) 0 4) in
    let count := Uint32 (slice f.(f_payload) 4 8) in
    let need := 8 + 4 * count in
    if Zlen f.(f_payload) <? need then Err (ErrSeqListTruncated (Zlen f.(f_payload)) need)
    else
      let seqs := if Zlen scratch >=? count then slice scratch 0 count
                  else replicate (Z.to_nat count) 0 in
      let seqs := imap (λ i _, let off := 8 + 4 * Z.of_nat i in
                               Uint32 (slice f.(f_payload) off (off + 4))) seqs in
      Ok (cumulative, seqs).

Definition decodeHeader (buf : list Z) : result (Z * Z * Z * Z) :=
  if Zlen buf <? frameHeaderSize then Err ErrHeaderTooSmall
  else Ok (default 0 (buf !! 0%nat),
           Uint32 (slice buf 1 5), Uint32 (slice buf 5 9), Uint32 (slice buf 9 13)).

Definition decodeFrame (buf : list Z) : result frame :=
  match decodeHeader buf with
  | Err e => Err e
  | Ok (ft, sid, sq, len) =>
      let total := frameHeaderSize + len in
      if Zlen buf <? total then Err (ErrPayloadTruncated (Zlen buf - frameHeaderSize) len)
      else Ok (mkFrame ft sid sq len
                 (if len >? 0 then slice buf frameHeaderSize total else []))
  end.

(** ** Fixed payloads *)
Definition windowUpdatePayload (offset : Z) : list Z := PutUint64 offset.
Definition decodeWindowUpdatePayload (payload : list Z) : result Z :=
  if Zlen payload <? 8 then Err ErrWindowUpdateTooSmall else Ok (Uint64 payload).
Definition resetPayload (code : Z) : list Z := PutUint64 code.
Definition decodeResetPayload (payload : list Z) : Z :=
  if Zlen payload <? 8 then 0 else Uint64 payload.
Definition handshakePayload (connID : Z) : list Z := PutUint64 connID.
Definition decodeHandshake (payload : list Z) : result Z :=
  if Zlen payload <? 8 then Err ErrHandshakeTooSmall else Ok (Uint64 payload).

(** ** Codec lemmas *)
Lemma length_be_bytes n v : length (be_bytes n v) = n.
Proof. induction n; simpl; congruence. Qed.

Lemma Zlen_PutUint32 v : Zlen (PutUint32 v) = 4.
Proof. done. Qed.
Lemma Zlen_PutUint64 v : Zlen (PutUint64 v) = 8.
Proof. done. Qed.
#[export] Hint Rewrite Zlen_PutUint32 Zlen_PutUint64 : zlen.

Lemma be_val_acc l acc : foldl (λ a b, a * 256 + b) acc l = acc * 256 ^ Zlen l + be_val l.
Proof.
  revert acc. induction l as [|b l IH]; intros acc; [rewrite Zlen_nil; cbn; lia|].
  unfold be_val. cbn [foldl]. rewrite IH, (IH (0 * 256 + b)), Zlen_cons.
  pose proof (Zlen_nonneg l). rewrite Z.pow_add_r by lia. lia.
Qed.

Lemma be_val_cons b l : be_val (b :: l) = b * 256 ^ Zlen l + be_val l.
Proof. unfold be_val at 1. cbn [foldl]. by rewrite be_val_acc. Qed.

Lemma be_val_bytes n v : be_val (be_bytes n v) = v `mod` 256 ^ Z.of_nat n.
Proof.
  induction n as [|n IH]; [by rewrite Z.mod_1_r|].
  cbn [be_bytes]. rewrite be_val_cons, IH. unfold Zlen. rewrite length_be_bytes.
  rewrite Z.shiftr_div_pow2 by lia. unfold u8. rewrite Z.pow_mul_r by lia.
  change (2 ^ 8) with 256.
  rewrite Nat2Z.inj_succ, Z.pow_succ_r, (Z.mul_comm 256) by lia.
  rewrite Z.rem_mul_r by lia. lia.
Qed.

Lemma Uint32_PutUint32 v rest : Uint32 (PutUint32 v ++ rest) = u32 v.
Proof. unfold Uint32, PutUint32. rewrite take_app_length' by done. exact (be_val_bytes _ v). Qed.
Lemma Uint64_PutUint64 v rest : Uint64 (PutUint64 v ++ rest) = u64 v.
Proof. unfold Uint64, PutUint64. rewrite take_app_length' by done. exact (be_val_bytes _ v). Qed.
Lemma Uint32_PutUint32' v : Uint32 (PutUint32 v) = u32 v.
Proof. rewrite <- (Uint32_PutUint32 v []). by rewrite app_nil_r. Qed.

Lemma be_val_nonneg l : Forall is_u8 l → 0 ≤ be_val l < 256 ^ Zlen l.
Proof.
  induction 1 as [|b l Hb _ IH]; [by cbn|].
  rewrite be_val_cons, Zlen_cons. pose proof (Zlen_nonneg l).
  rewrite Z.pow_add_r by lia. unfold is_u8 in Hb. nia.
Qed.

(** Writing at the end of a known prefix. *)
Lemma put_bytes_app pre rest bs :
  Zlen bs ≤ Zlen rest →
  put_bytes (pre ++ rest) (Zlen pre) bs = Some (pre ++ bs ++ drop (length bs) rest).
Proof.
  intros H. unfold put_bytes. rewrite bool_decide_true by (rewrite Zlen_app; lia).
  f_equal. unfold copy_at, Zlen in *. rewrite Nat2Z.id, take_app_length, length_app.
  do 2 f_equal; [rewrite take_ge; [done|lia]|].
  by rewrite drop_app_add.
Qed.

Lemma put_bytes_panics buf off bs : Zlen buf < off + Zlen bs → put_bytes buf off bs = None.
Proof. intros. unfold put_bytes. by rewrite bool_decide_false by lia. Qed.

(** The 13 bytes of a header. *)
Definition header_bytes (ft sid sq len : Z) : list Z :=
  [ft] ++ PutUint32 sid ++ PutUint32 sq ++ PutUint32 len.

Lemma Zlen_header_bytes ft sid sq len : Zlen (header_bytes ft sid sq len) = frameHeaderSize.
Proof. done. Qed.

Lemma encodeHeader_ok buf ft sid sq len :
  frameHeaderSize ≤ Zlen buf →
  encodeHeader buf ft sid sq len = Some (header_bytes ft sid sq len ++ drop 13 buf).
Proof.
  unfold frameHeaderSize. intros H. unfold encodeHeader.
  change (put_bytes buf 0 [ft]) with (put_bytes ([] ++ buf) (Zlen (@nil Z)) [ft]).
  rewrite put_bytes_app by (rewrite Zlen_cons, Zlen_nil; lia). cbn [mbind option_bind].
  rewrite app_nil_l.
  change 1 with (Zlen [ft]).
  rewrite put_bytes_app by (unfold Zlen in *; rewrite length_drop; cbn; lia).
  cbn [mbind option_bind]. rewrite app_assoc. change 5 with (Zlen ([ft] ++ PutUint32 sid)).
  rewrite put_bytes_app by (unfold Zlen in *; rewrite !length_drop; cbn; lia).
  cbn [mbind option_bind]. rewrite app_assoc.
  change 9 with (Zlen (([ft] ++ PutUint32 sid) ++ PutUint32 sq)).
  rewrite put_bytes_app by (unfold Zlen in *; rewrite !length_drop; cbn; lia).
  rewrite !drop_drop. unfold header_bytes. by rewrite <- !app_assoc.
Qed.

Lemma encodeHeader_panics buf ft sid sq len :
  Zlen buf < frameHeaderSize → encodeHeader buf ft sid sq len = None.
Proof.
  unfold frameHeaderSize. intros H. unfold encodeHeader.
  destruct (put_bytes buf 0 [ft]) as [b1|] eqn:E1; [|done]. cbn [mbind option_bind].
  destruct (put_bytes b1 1 _) as [b2|] eqn:E2; [|done]. cbn [mbind option_bind].
  destruct (put_bytes b2 5 _) as [b3|] eqn:E3; [|done]. cbn [mbind option_bind].
  assert (Hl : ∀ b b' off bs, put_bytes b off bs = Some b' → 0 ≤ off → Zlen b' = Zlen b).
  { intros b b' off bs. unfold put_bytes. intros. case_bool_decide; simplify_eq.
    apply Zlen_copy_at. pose proof (Zlen_nonneg bs). lia. }
  apply put_bytes_panics. rewrite Zlen_PutUint32.
  rewrite (Hl _ _ _ _ E3), (Hl _ _ _ _ E2), (Hl _ _ _ _ E1) by lia. lia.
Qed.

Lemma slice_pre {A} (pre rest : list A) n : n = Zlen pre → slice (pre ++ rest) 0 n = pre.
Proof. intros ->. rewrite slice_app_l by lia. apply slice_all. Qed.

Lemma decodeHeader_ok ft sid sq len rest :
  is_u32 sid → is_u32 sq → is_u32 len →
  decodeHeader (header_bytes ft sid sq len ++ rest) = Ok (ft, sid, sq, len).
Proof.
  intros. unfold decodeHeader.
  rewrite bool_decide_false by (rewrite Zlen_app, Zlen_header_bytes; pose proof (Zlen_nonneg rest); lia).
  rewrite !(slice_app_l (header_bytes _ _ _ _) rest) by (rewrite ?Zlen_header_bytes; unfold frameHeaderSize; lia).
  unfold header_bytes.
  change (slice _ 1 5) with (PutUint32 sid).
  change (slice _ 5 9) with (PutUint32 sq).
  change (slice _ 9 13) with (PutUint32 len).
  rewrite !Uint32_PutUint32', !u32_id by done. done.
Qed.

(** The frame a buffer holds when it starts with [hdr ++ pl]. *)
Lemma decodeFrame_bytes ft sid sq pl rest :
  is_u32 sid → is_u32 sq → is_u32 (Zlen pl) →
  decodeFrame (header_bytes ft sid sq (Zlen pl) ++ pl ++ rest)
  = Ok (mkFrame ft sid sq (Zlen pl) pl).
Proof.
  intros. unfold decodeFrame. rewrite decodeHeader_ok by done.
  rewrite bool_decide_false
    by (rewrite !Zlen_app, Zlen_header_bytes; pose proof (Zlen_nonneg rest); lia).
  do 2 f_equal.
  rewrite slice_app_r by (rewrite Zlen_header_bytes; lia). rewrite Zlen_header_bytes.
  replace (frameHeaderSize - frameHeaderSize) with 0 by lia.
  rewrite slice_pre by lia. case_bool_decide; [done|].
  symmetry. apply Zlen_0. pose proof (Zlen_nonneg pl). lia.
Qed.

(** The sequence list as one byte string. *)
Definition seqlist_payload (cumulative : Z) (seqs : list Z) : list Z :=
  PutUint32 cumulative ++ PutUint32 (u32 (Zlen seqs)) ++ concat (PutUint32 <$> seqs).

Lemma Zlen_concat_seqs seqs : Zlen (concat (PutUint32 <$> seqs)) = 4 * Zlen seqs.
Proof.
  induction seqs as [|s seqs IH]; [done|]. cbn [fmap list_fmap concat].
  rewrite Zlen_app, IH, Zlen_cons, Zlen_PutUint32. lia.
Qed.

Lemma put_seqs_app pre rest seqs :
  4 * Zlen seqs ≤ Zlen rest →
  put_seqs (pre ++ rest) (Zlen pre) seqs
  = Some (pre ++ concat (PutUint32 <$> seqs) ++ drop (4 * length seqs) rest).
Proof.
  revert pre rest. induction seqs as [|s seqs IH]; intros pre rest H.
  { cbn. by rewrite drop_0. }
  rewrite Zlen_cons in H. pose proof (Zlen_nonneg seqs). cbn [put_seqs].
  rewrite put_bytes_app by (rewrite Zlen_PutUint32; lia). cbn [mbind option_bind].
  rewrite app_assoc.
  replace (Zlen pre + 4) with (Zlen (pre ++ PutUint32 s)) by (by rewrite Zlen_app, Zlen_PutUint32).
  rewrite IH.
  - rewrite drop_drop. cbn [fmap list_fmap concat]. rewrite <- !app_assoc. repeat f_equal.
    unfold PutUint32. rewrite length_be_bytes. cbn [length]. lia.
  - unfold Zlen in *. rewrite length_drop. cbn. lia.
Qed.

Lemma encodeSeqListFrame_ok buf ft sid cum seqs :
  frameHeaderSize + 8 + 4 * Zlen seqs ≤ Zlen buf → 8 + 4 * Zlen seqs < 2 ^ 32 →
  encodeSeqListFrame buf ft sid cum seqs
  = Some (header_bytes ft sid 0 (8 + 4 * Zlen seqs) ++ seqlist_payload cum seqs
            ++ drop (21 + 4 * length seqs) buf, frameHeaderSize + (8 + 4 * Zlen seqs)).
Proof.
  intros H H32. pose proof (Zlen_nonneg seqs). unfold frameHeaderSize in H.
  unfold encodeSeqListFrame. rewrite (u32_id (8 + _)) by word_lia.
  rewrite encodeHeader_ok by (unfold frameHeaderSize; lia). cbn [mbind option_bind].
  rewrite <- (Zlen_header_bytes ft sid 0 (8 + 4 * Zlen seqs)).
  set (h := header_bytes _ _ _ _).
  assert (Zlen (drop 13 buf) = Zlen buf - 13) as Hd
    by (unfold Zlen in *; rewrite length_drop; lia).
  rewrite put_bytes_app by (rewrite Zlen_PutUint32; lia). cbn [mbind option_bind].
  rewrite app_assoc.
  replace (Zlen h + 4) with (Zlen (h ++ PutUint32 cum)) by (by rewrite Zlen_app).
  rewrite put_bytes_app by (unfold Zlen in *; rewrite !length_drop in *; cbn; lia).
  cbn [mbind option_bind]. rewrite app_assoc.
  replace (Zlen h + 8) with (Zlen ((h ++ PutUint32 cum) ++ PutUint32 (u32 (Zlen seqs))))
    by (by rewrite !Zlen_app).
  rewrite put_seqs_app by (unfold Zlen in *; rewrite !length_drop in *; cbn; lia).
  cbn [mbind option_bind]. rewrite !drop_drop.
  unfold seqlist_payload. rewrite <- !app_assoc. do 6 f_equal.
Qed.

Lemma slice_concat_seqs seqs i s :
  seqs !! i = Some s →
  slice (concat (PutUint32 <$> seqs)) (4 * Z.of_nat i) (4 * Z.of_nat i + 4) = PutUint32 s.
Proof.
  revert i. induction seqs as [|s' seqs IH]; intros i Hi; [done|].
  cbn [fmap list_fmap concat]. destruct i as [|i]; simpl in Hi; simplify_eq.
  - rewrite slice_pre by done. done.
  - rewrite slice_app_r by (rewrite Zlen_PutUint32; lia). rewrite Zlen_PutUint32.
    rewrite <- (IH _ Hi). f_equal; lia.
Qed.

(** Decoding a well-formed list overwrites whatever the scratch held. *)
Lemma decodeSeqListFrame_ok f cum seqs rest scratch :
  is_u32 cum → Forall is_u32 seqs → is_u32 (Zlen seqs) →
  f.(f_payload) = seqlist_payload cum seqs ++ rest →
  decodeSeqListFrame f scratch = Ok (cum, seqs).
Proof.
  intros Hc Hs Hn Hp. unfold decodeSeqListFrame. rewrite Hp.
  pose proof (Zlen_nonneg rest). pose proof (Zlen_nonneg seqs).
  assert (Hl : Zlen (seqlist_payload cum seqs) = 8 + 4 * Zlen seqs).
  { unfold seqlist_payload. rewrite !Zlen_app, Zlen_concat_seqs, !Zlen_PutUint32. lia. }
  rewrite bool_decide_false by (rewrite Zlen_app; lia).
  rewrite !(slice_app_l (seqlist_payload _ _)) by lia.
  assert (slice (seqlist_payload cum seqs) 0 4 = PutUint32 cum) as ->
    by (unfold seqlist_payload; by rewrite slice_pre).
  assert (slice (seqlist_payload cum seqs) 4 8 = PutUint32 (u32 (Zlen seqs))) as ->.
  { unfold seqlist_payload. rewrite slice_app_r by (rewrite Zlen_PutUint32; lia).
    rewrite Zlen_PutUint32. by rewrite slice_pre. }
  rewrite !Uint32_PutUint32', !u32_id by (try done; by rewrite u32_id).
  rewrite bool_decide_false by (rewrite Zlen_app; lia).
  do 2 f_equal. apply list_eq. intros i. rewrite list_lookup_imap.
  assert (Hlen : length (if Zlen scratch >=? Zlen seqs then slice scratch 0 (Zlen seqs)
                 else replicate (Z.to_nat (Zlen seqs)) 0) = length seqs).
  { case_bool_decide.
    - apply Nat2Z.inj. fold (Zlen (slice scratch 0 (Zlen seqs))). rewrite Zlen_slice by lia.
      unfold Zlen. lia.
    - rewrite length_replicate. unfold Zlen. lia. }
  destruct (seqs !! i) as [s|] eqn:Ei.
  - destruct (lookup_lt_is_Some_2 (if Zlen scratch >=? Zlen seqs then slice scratch 0 (Zlen seqs)
                 else replicate (Z.to_nat (Zlen seqs)) 0) i) as [x Hx].
    { rewrite Hlen. by eapply lookup_lt_Some. }
    rewrite Hx. cbn [fmap option_fmap option_map]. f_equal.
    assert (Hi : (i < length seqs)%nat) by (by eapply lookup_lt_Some).
    rewrite slice_app_l by (unfold Zlen in *; lia).
    unfold seqlist_payload. rewrite app_assoc, slice_app_r
      by (rewrite Zlen_app, !Zlen_PutUint32; lia).
    rewrite Zlen_app, !Zlen_PutUint32.
    replace (8 + 4 * Z.of_nat i - (4 + 4)) with (4 * Z.of_nat i) by lia.
    replace (8 + 4 * Z.of_nat i + 4 - (4 + 4)) with (4 * Z.of_nat i + 4) by lia.
    rewrite (slice_concat_seqs _ _ _ Ei), Uint32_PutUint32'. apply u32_id.
    eapply Forall_lookup_1; eauto.
  - rewrite lookup_ge_None_2; [done|]. rewrite Hlen. by apply lookup_ge_None.
Qed.

(** [visit] run over a list of chunks, stopping at the first error. *)
Fixpoint visit_all {St} (visit : list Z → St → St * option go_error)
    (chunks : list (list Z)) (st : St) : St * option go_error :=
  match chunks with
  | [] => (st, None)
  | c :: rest =>
      match visit c st with
      | (st', Some err) => (st', Some err)
      | (st', None) => visit_all visit rest st'
      end
  end.

Lemma chunk_loop_ok {St} (visit : list Z → St → St * option go_error) m :
  0 < m → ∀ fuel seqs, (length seqs ≤ fuel)%nat →
  ∃ chunks, concat chunks = seqs ∧ Forall (λ c, 0 < Zlen c ≤ m) chunks ∧
    ∀ st, chunk_loop visit fuel m seqs st = Some (visit_all visit chunks st).
Proof.
  intros Hm fuel. induction fuel as [|fuel IH]; intros seqs Hf.
  { destruct seqs; [|simpl in Hf; lia]. by exists []. }
  destruct seqs as [|s seqs']; [by exists []|].
  set (seqs := s :: seqs') in *. set (n := if Zlen seqs >? m then m else Zlen seqs).
  assert (Hn : 0 < n ≤ m ∧ n ≤ Zlen seqs).
  { unfold n, seqs. rewrite Zlen_cons. pose proof (Zlen_nonneg seqs'). case_bool_decide; lia. }
  destruct (IH (slice seqs n (Zlen seqs))) as (chunks & Hc & Hb & Hrun).
  { apply Nat2Z.inj_le. fold (Zlen (slice seqs n (Zlen seqs))).
    rewrite Zlen_slice by lia. unfold Zlen in *. lia. }
  exists (slice seqs 0 n :: chunks). split_and!.
  - cbn [concat]. rewrite Hc, <- slice_split by lia. apply slice_all.
  - constructor; [|done]. rewrite Zlen_slice by lia. lia.
  - intros st. cbn [chunk_loop visit_all]. fold seqs. fold n.
    destruct (visit (slice seqs 0 n) st) as [st' [e|]]; [done|]. apply Hrun.
Qed.

(** ** Properties of the wire format *)

(** C39: Encoding a frame into a large enough buffer and decoding the bytes
    it reports as written gives the frame back — type, stream, sequence
    number, length and payload — whatever follows them, as in a datagram into
    which several frames are packed; and the rest of the buffer is left
    alone. *)
Theorem encodeFrame_decodeFrame (buf pl : list Z) (ft sid sq : Z) :
  is_u8 ft → is_u32 sid → is_u32 sq → is_u32 (Zlen pl) →
  frameHeaderSize + Zlen pl ≤ Zlen buf →
  ∃ buf' n, encodeFrame buf ft sid sq pl = Some (buf', n)
    ∧ n = frameHeaderSize + Zlen pl
    ∧ Zlen buf' = Zlen buf
    ∧ (∀ rest, decodeFrame (slice buf' 0 n ++ rest) = Ok (mkFrame ft sid sq (Zlen pl) pl))
    ∧ slice buf' n (Zlen buf) = slice buf n (Zlen buf).
Proof.
  intros Hft Hs Hq Hl Hb. pose proof (Zlen_nonneg pl). unfold encodeFrame.
  rewrite (u32_id (Zlen pl)) by done. rewrite encodeHeader_ok by lia. cbn [mbind option_bind].
  set (h := header_bytes ft sid sq (Zlen pl)).
  assert (Hlen : Zlen (h ++ drop 13 buf) = Zlen buf).
  { rewrite Zlen_app. unfold h. rewrite Zlen_header_bytes. unfold frameHeaderSize, Zlen in *.
    rewrite length_drop. lia. }
  eexists _, _. split; [done|]. split; [done|].
  rewrite copy_at_fits by (unfold frameHeaderSize in *; lia).
  rewrite (slice_pre h) by done. rewrite Hlen.
  remember (h ++ drop 13 buf) as mid eqn:Hmid.
  split_and!.
  - rewrite !Zlen_app, Zlen_slice by (unfold frameHeaderSize in *; lia).
    unfold h. rewrite Zlen_header_bytes. lia.
  - intros rest. rewrite app_assoc, slice_pre by (by rewrite Zlen_app).
    rewrite <- app_assoc. by apply decodeFrame_bytes.
  - rewrite app_assoc, slice_app_r by (by rewrite Zlen_app).
    rewrite Zlen_app. unfold h at 1 2. rewrite Zlen_header_bytes.
    rewrite slice_slice by (unfold frameHeaderSize in *; lia).
    rewrite Hmid. unfold h. rewrite slice_app_r by (rewrite Zlen_header_bytes; lia).
    rewrite Zlen_header_bytes. unfold slice, frameHeaderSize. rewrite drop_drop.
    f_equal; [lia|]. f_equal. lia.
Qed.

Lemma encodeFrame_decodeFrame_witness :
  ∃ buf' n, encodeFrame (replicate 40 7) frameData 5 9 [1; 2; 3] = Some (buf', n)
    ∧ n = 16 ∧ Zlen buf' = 40
    ∧ (∀ rest, decodeFrame (slice buf' 0 n ++ rest) = Ok (mkFrame frameData 5 9 3 [1; 2; 3]))
    ∧ slice buf' n 40 = slice (replicate 40 7) n 40.
Proof.
  apply (encodeFrame_decodeFrame (replicate 40 7) [1; 2; 3] frameData 5 9);
    vm_compute; intuition congruence.
Defined.

(** An ACK or NACK sequence list survives the wire: what
    [encodeSeqListFrame] writes, [decodeFrame] and [decodeSeqListFrame] read
    back exactly, whatever scratch buffer the decoder is given. *)
Theorem encodeSeqList_decodeSeqList (buf seqs scratch : list Z) (ft sid cum : Z) :
  is_u8 ft → is_u32 sid → is_u32 cum → Forall is_u32 seqs →
  frameHeaderSize + 8 + 4 * Zlen seqs ≤ Zlen buf → 8 + 4 * Zlen seqs < 2 ^ 32 →
  ∃ buf' n f, encodeSeqListFrame buf ft sid cum seqs = Some (buf', n)
    ∧ decodeFrame (slice buf' 0 n) = Ok f
    ∧ f_ftype f = ft ∧ f_streamID f = sid
    ∧ decodeSeqListFrame f scratch = Ok (cum, seqs).
Proof.
  intros Hft Hs Hc Hseqs Hb H32. pose proof (Zlen_nonneg seqs).
  assert (Hl : Zlen (seqlist_payload cum seqs) = 8 + 4 * Zlen seqs).
  { unfold seqlist_payload. rewrite !Zlen_app, Zlen_concat_seqs, !Zlen_PutUint32. lia. }
  eexists _, _, _. rewrite encodeSeqListFrame_ok by done. split; [done|].
  rewrite app_assoc, slice_pre by (rewrite Zlen_app, Hl, Zlen_header_bytes; lia).
  rewrite <- Hl.
  match goal with |- context [decodeFrame (?h ++ ?p)] =>
    replace (h ++ p) with (h ++ p ++ []) by (by rewrite app_nil_r) end.
  rewrite decodeFrame_bytes by (try done; rewrite Hl; word_lia).
  split_and!; try done. eapply (decodeSeqListFrame_ok _ _ _ []); try done.
  - word_lia.
  - simpl. by rewrite app_nil_r.
Qed.

Lemma encodeSeqList_decodeSeqList_witness :
  ∃ buf' n f, encodeSeqListFrame (replicate 60 0) frameACK 42 77 [1; 2; 5; 9; 100] = Some (buf', n)
    ∧ decodeFrame (slice buf' 0 n) = Ok f
    ∧ f_ftype f = frameACK ∧ f_streamID f = 42
    ∧ decodeSeqListFrame f [13; 13] = Ok (77, [1; 2; 5; 9; 100]).
Proof.
  apply (encodeSeqList_decodeSeqList (replicate 60 0) [1; 2; 5; 9; 100] [13; 13] frameACK 42 77);
    [vm_compute; intuition congruence..| |vm_compute; congruence|vm_compute; congruence].
  repeat constructor; vm_compute; congruence.
Defined.

Lemma decodeFrame_length buf f : Forall is_u8 buf → decodeFrame buf = Ok f → 0 ≤ f_length f.
Proof.
  intros Hb. assert (Hr : 0 ≤ Uint32 (slice buf 9 13)).
  { apply be_val_nonneg. unfold slice. by repeat (apply Forall_take || apply Forall_drop). }
  unfold decodeFrame, decodeHeader. repeat case_bool_decide; intros; by simplify_eq/=.
Qed.

(** The decoder never reads past the datagram: a decoded frame's payload
    is exactly the [length] bytes after the header, all inside the buffer,
    and any buffer shorter than the header or than the advertised length is
    refused. *)
Theorem decodeFrame_in_bounds (buf : list Z) :
  Forall is_u8 buf →
  (∀ f, decodeFrame buf = Ok f →
     0 ≤ f_length f ∧ frameHeaderSize + f_length f ≤ Zlen buf
     ∧ f_payload f = slice buf frameHeaderSize (frameHeaderSize + f_length f)
     ∧ Zlen (f_payload f) = f_length f)
  ∧ (Zlen buf < frameHeaderSize ∨ Zlen buf < frameHeaderSize + Uint32 (slice buf 9 13) ↔
     ∃ e, decodeFrame buf = Err e).
Proof.
  intros Hb. assert (Hr : 0 ≤ Uint32 (slice buf 9 13)).
  { apply be_val_nonneg. unfold slice. by repeat (apply Forall_take || apply Forall_drop). }
  unfold decodeFrame, decodeHeader. split.
  - intros f. repeat case_bool_decide; intros; simplify_eq/=.
    + rewrite Zlen_slice by (unfold frameHeaderSize in *; lia). split_and!; [lia..|done|lia].
    + replace (Uint32 (slice buf 9 13)) with 0 in * by lia.
      rewrite Z.add_0_r, slice_nil. split_and!; [lia..|done|done].
  - repeat case_bool_decide; split; intros Hx; eauto; first [lia | by destruct Hx].
Qed.

Lemma decodeFrame_in_bounds_witness :
  ∃ e, decodeFrame [1; 0;0;0;5; 0;0;0;9; 0;0;0;4; 1;2;3] = Err e.
Proof.
  apply (decodeFrame_in_bounds [1; 0;0;0;5; 0;0;0;9; 0;0;0;4; 1;2;3]).
  - repeat constructor; vm_compute; congruence.
  - right. vm_compute. reflexivity.
Defined.

(** A volley of sequence numbers of any length is sent completely and in
    order, in non-empty chunks that each fit one frame; the loop always
    finishes, a callback error stops it at once, and a payload too small to
    hold one number is refused before the first call. *)
Theorem forEachSeqListChunk_covers {St} (visit : list Z → St → St * option go_error)
    (seqs : list Z) (maxPayload : Z) :
  ∃ chunks, concat chunks = seqs
    ∧ ∀ st, forEachSeqListChunk visit seqs maxPayload st
      = Some (if maxPayload <? 12 then (st, Some ErrNoSeqCapacity)
              else visit_all visit chunks st)
    ∧ (12 ≤ maxPayload → Forall (λ c, 0 < Zlen c ∧ 8 + 4 * Zlen c ≤ maxPayload) chunks).
Proof.
  unfold forEachSeqListChunk, maxAckSeqsPerFrame. destruct (decide (maxPayload < 12)).
  - exists [seqs]. split; [simpl; by rewrite app_nil_r|]. intros st.
    rewrite bool_decide_true by (Z.to_euclidean_division_equations; lia).
    rewrite bool_decide_true by done. split; [done|lia].
  - destruct (chunk_loop_ok visit (Z.quot (maxPayload - 8) 4) ltac:(Z.to_euclidean_division_equations; lia)
                (length seqs) seqs ltac:(lia)) as (chunks & Hc & Hb & Hrun).
    exists chunks. split; [done|]. intros st.
    rewrite bool_decide_false by (Z.to_euclidean_division_equations; lia).
    rewrite bool_decide_false by lia. split; [apply Hrun|]. intros _.
    eapply Forall_impl; [exact Hb|]. intros c [? ?]. cbv beta in *.
    split; [done|]. Z.to_euclidean_division_equations; lia.
Qed.

(** The 8-byte control payloads (flow-control watermark, reset code,
    connection identifier) decode to the unsigned 64-bit value that was
    encoded; short payloads are refused, except that a short RESET payload
    reads as code 0. *)
Theorem payloads_roundtrip (v : Z) :
  is_u64 v →
  decodeWindowUpdatePayload (windowUpdatePayload v) = Ok v
  ∧ decodeResetPayload (resetPayload v) = v
  ∧ decodeHandshake (handshakePayload v) = Ok v
  ∧ ∀ p, Zlen p < 8 → decodeWindowUpdatePayload p = Err ErrWindowUpdateTooSmall
       ∧ decodeResetPayload p = 0 ∧ decodeHandshake p = Err ErrHandshakeTooSmall.
Proof.
  intros Hv. unfold decodeWindowUpdatePayload, decodeResetPayload, decodeHandshake,
    windowUpdatePayload, resetPayload, handshakePayload.
  rewrite !Zlen_PutUint64, <- (app_nil_r (PutUint64 v)), !Uint64_PutUint64, u64_id by done.
  split_and!; try done. intros p Hp. by rewrite !bool_decide_true.
Qed.

Lemma payloads_roundtrip_witness :
  decodeWindowUpdatePayload (windowUpdatePayload 262144) = Ok 262144.
Proof. apply (payloads_roundtrip 262144). vm_compute. intuition congruence. Defined.
