(* ===== verification/Float64.v ===== *)
(** * IEEE 754 double precision, as the pacer uses it

    [pacer.go] converts token counts and elapsed times to [float64],
    multiplies, divides, compares and truncates back.  All operands there
    are non-negative and far inside the normal range (between 2^-64 and
    2^127), so a [float64] is a non-negative dyadic [mant * 2^expo] and
    every operation rounds its exact result to 53 significant bits,
    nearest, ties to even. *)
From S2P Require Import Prelude.

Record float64 := mkF { mant : Z; expo : Z }.

(** [n / d] rounded to an integer, nearest, ties to even ([d > 0]) *)
Definition rne (n d : Z) : Z :=
  let q := n `div` d in
  let r := n `mod` d in
  if 2 * r <? d then q
  else if d <? 2 * r then q + 1
  else if Z.even q then q else q + 1.

(** the numerator and denominator of [n/d * 2^-e] *)
Definition scaled (n d e : Z) : Z * Z :=
  if e >=? 0 then (n, d * 2 ^ e) else (n * 2 ^ (- e), d).

(** the exponent [E] with [2^E <= n/d < 2^(E+1)] ([n, d > 0]) *)
Definition binade (n d : Z) : Z :=
  let e0 := Z.log2 n - Z.log2 d in
  let '(a, b) := scaled n d e0 in
  if b <=? a then e0 else e0 - 1.

(** the rational [n/d] rounded to 53 bits *)
Definition round64 (n d : Z) : float64 :=
  if n <=? 0 then mkF 0 0
  else
    let e := binade n d - 52 in
    let '(a, b) := scaled n d e in
    mkF (rne a b) e.

(** the value of a float as numerator and denominator *)
Definition fnum (x : float64) : Z := if x.(expo) >=? 0 then x.(mant) * 2 ^ x.(expo) else x.(mant).
Definition fden (x : float64) : Z := if x.(expo) >=? 0 then 1 else 2 ^ (- x.(expo)).

Definition f_of_int (z : Z) : float64 := round64 z 1.
Definition f_mul (x y : float64) : float64 := round64 (fnum x * fnum y) (fden x * fden y).
Definition f_div (x y : float64) : float64 := round64 (fnum x * fden y) (fden x * fnum y).
Definition f_ge (x y : float64) : bool := fnum y * fden x <=? fnum x * fden y.
(** [int64(x)] for a value that fits *)
Definition f_trunc (x : float64) : Z := fnum x `div` fden x.

(** ** Facts *)
Lemma fden_pos x : 0 < fden x.
Proof. unfold fden. case_bool_decide; [lia|]. apply Z.pow_pos_nonneg; lia. Qed.

Lemma rne_exact q d : 0 < d → rne (q * d) d = q.
Proof.
  intros. unfold rne. rewrite Z.mod_mul, Z.div_mul by lia.
  by rewrite bool_decide_true by lia.
Qed.

(** rounding moves by at most half a unit *)
Lemma rne_err n d : 0 < d → - d ≤ 2 * (rne n d * d - n) ≤ d.
Proof.
  intros Hd. unfold rne. pose proof (Z.div_mod n d ltac:(lia)).
  pose proof (Z.mod_pos_bound n d Hd). repeat case_bool_decide; [nia..|].
  destruct (Z.even _); nia.
Qed.

Lemma rne_nonneg n d : 0 < d → 0 ≤ n → 0 ≤ rne n d.
Proof.
  intros Hd Hn. unfold rne. pose proof (Z.div_pos n d Hn Hd).
  repeat case_bool_decide; try destruct (Z.even _); lia.
Qed.

Lemma scaled_pos n d e : 0 < d → 0 < (scaled n d e).2.
Proof.
  intros. unfold scaled. case_bool_decide; simpl; [|done].
  apply Z.mul_pos_pos; [done|]. apply Z.pow_pos_nonneg; lia.
Qed.

Lemma round64_nonneg n d : 0 < d → 0 ≤ mant (round64 n d).
Proof.
  intros Hd. unfold round64. case_bool_decide; [done|].
  pose proof (scaled_pos n d (binade n d - 52) Hd) as Hp. unfold scaled in *.
  case_bool_decide; simpl in *; apply rne_nonneg; lia.
Qed.

Lemma fnum_nonneg x : 0 ≤ mant x → 0 ≤ fnum x.
Proof.
  intros. unfold fnum. case_bool_decide; [|done].
  assert (0 < 2 ^ expo x) by (apply Z.pow_pos_nonneg; lia). nia.
Qed.

(** integers of at most 53 bits convert exactly *)
Lemma f_of_int_exact z : 0 ≤ z ≤ 2 ^ 53 → fnum (f_of_int z) = z * fden (f_of_int z).
Proof.
  intros Hz. unfold f_of_int, round64. case_bool_decide.
  { replace z with 0 by lia. done. }
  assert (Hb : binade z 1 = Z.log2 z).
  { unfold binade. change (Z.log2 1) with 0. rewrite Z.sub_0_r. unfold scaled.
    rewrite bool_decide_true by apply Z.log2_nonneg. cbn -[Z.log2 Z.pow].
    rewrite bool_decide_true; [done|]. pose proof (Z.log2_spec z ltac:(lia)). lia. }
  rewrite Hb. unfold scaled. case_bool_decide as He.
  - assert (Z.log2 z ≤ 53).
    { rewrite <- (Z.log2_pow2 53) by lia. apply Z.log2_le_mono. lia. }
    assert (Z.log2 z = 52 ∨ Z.log2 z = 53) as [E|E] by lia; rewrite E in *; cbn -[rne Z.mul].
    + unfold fnum, fden; cbn -[rne Z.mul]. change (1 * 2 ^ (52 - 52)) with 1.
      rewrite <- (Z.mul_1_r z) at 1. rewrite rne_exact by lia. simpl. lia.
    + assert (z = 2 ^ 53) as ->; [|vm_compute; done].
      pose proof (Z.log2_spec z ltac:(lia)). rewrite E in *. lia.
  - unfold fnum, fden. cbn [mant expo]. rewrite !bool_decide_false by lia.
    rewrite <- (Z.mul_1_r (z * _)). rewrite rne_exact by lia. lia.
Qed.

Lemma f_trunc_le x n : f_ge x (f_of_int n) = false → 0 ≤ n ≤ 2 ^ 53 → f_trunc x ≤ n.
Proof.
  unfold f_ge, f_trunc. intros H Hn. bool_simpl.
  rewrite (f_of_int_exact n Hn) in H.
  pose proof (fden_pos x). pose proof (fden_pos (f_of_int n)).
  assert (fnum x < n * fden x) by nia.
  apply Z.div_le_upper_bound; [done|]. nia.
Qed.

Lemma f_trunc_pos x : f_ge x (f_of_int 1) = true → 1 ≤ f_trunc x.
Proof.
  unfold f_ge, f_trunc. intros H. bool_simpl.
  rewrite (f_of_int_exact 1) in H by lia.
  pose proof (fden_pos x). pose proof (fden_pos (f_of_int 1)).
  apply Z.div_le_lower_bound; nia.
Qed.

(** [3 * 0.1] style sanity checks of the rounding *)
Example round_third : round64 1 3 = mkF 6004799503160661 (-54).
Proof. reflexivity. Qed.
Example round_big : round64 (2 ^ 53 + 1) 1 = mkF (2 ^ 52) 1.
Proof. reflexivity. Qed.

(** ** Relative error *)

(** [2^e <= n/d], written without fractions *)
Definition pow_le (n d e : Z) : Prop := (scaled n d e).2 ≤ (scaled n d e).1.

Lemma binade_lower n d : 0 < n → 0 < d → pow_le n d (binade n d).
Proof.
  intros Hn Hd. unfold binade.
  destruct (scaled n d (Z.log2 n - Z.log2 d)) as [a b] eqn:E.
  case_bool_decide; [unfold pow_le; by rewrite E|].
  pose proof (Z.log2_spec n Hn) as [Hn1 _]. pose proof (Z.log2_spec d Hd) as [_ Hd2].
  pose proof (Z.log2_nonneg n). pose proof (Z.log2_nonneg d).
  unfold pow_le, scaled. case_bool_decide; cbn [fst snd].
  - apply Z.le_trans with (2 ^ Z.succ (Z.log2 d) * 2 ^ (Z.log2 n - Z.log2 d - 1)).
    + apply Z.mul_le_mono_nonneg_r; [apply Z.pow_nonneg; lia|lia].
    + rewrite <- Z.pow_add_r by lia.
      by replace (Z.succ (Z.log2 d) + (Z.log2 n - Z.log2 d - 1)) with (Z.log2 n) by lia.
  - apply Z.le_trans with (2 ^ Z.log2 n * 2 ^ (- (Z.log2 n - Z.log2 d - 1))).
    + rewrite <- Z.pow_add_r by lia.
      replace (Z.log2 n + - (Z.log2 n - Z.log2 d - 1)) with (Z.succ (Z.log2 d)) by lia. lia.
    + apply Z.mul_le_mono_nonneg_r; [apply Z.pow_nonneg; lia|lia].
Qed.

Lemma pow_le_shift n d e k : 0 < d → 0 ≤ k → pow_le n d (e + k) →
  (scaled n d e).2 * 2 ^ k ≤ (scaled n d e).1.
Proof.
  intros Hd Hk. unfold pow_le, scaled.
  destruct (decide (0 ≤ e)), (decide (0 ≤ e + k));
    rewrite ?(bool_decide_true (0 ≤ e)), ?(bool_decide_true (0 ≤ e + k)),
      ?(bool_decide_false (0 ≤ e)), ?(bool_decide_false (0 ≤ e + k)) by done;
    cbn [fst snd]; intros Hle.
  - rewrite <- Z.mul_assoc, <- Z.pow_add_r by lia. done.
  - lia.
  - assert (0 < 2 ^ (- e)) by (apply Z.pow_pos_nonneg; lia).
    replace (2 ^ k) with (2 ^ (e + k) * 2 ^ (- e)).
    + nia.
    + rewrite <- Z.pow_add_r by lia. f_equal. lia.
  - assert (0 < 2 ^ k) by (apply Z.pow_pos_nonneg; lia).
    replace (2 ^ (- e)) with (2 ^ (- (e + k)) * 2 ^ k).
    + nia.
    + rewrite <- Z.pow_add_r by lia. f_equal. lia.
Qed.

(** A rounded value exceeds the exact one by at most a factor [1 + 2^-53]. *)
Lemma round64_le n d : 0 ≤ n → 0 < d →
  fnum (round64 n d) * d * 2 ^ 53 ≤ n * fden (round64 n d) * (2 ^ 53 + 1).
Proof.
  intros Hn Hd. unfold round64. case_bool_decide as H0.
  { change (fnum (mkF 0 0)) with 0. assert (n = 0) as -> by lia. lia. }
  set (e := binade n d - 52).
  pose proof (binade_lower n d ltac:(lia) Hd) as Hb.
  replace (binade n d) with (e + 52) in Hb by (unfold e; lia).
  pose proof (pow_le_shift n d e 52 Hd ltac:(lia) Hb) as Hs.
  pose proof (scaled_pos n d e Hd) as Hp.
  destruct (scaled n d e) as [a b] eqn:E. cbn [fst snd] in *.
  pose proof (rne_err a b Hp) as [_ Herr].
  (* 2 (m b - a) <= b and b 2^52 <= a *)
  assert (Hm : rne a b * b * 2 ^ 53 ≤ a * (2 ^ 53 + 1)) by nia.
  unfold fnum, fden. cbn [mant expo]. unfold scaled in E.
  case_bool_decide; simplify_eq; nia.
Qed.

(** [within k x n d]: [x] is non-negative and at most [n/d] times the error
    of [k] roundings. *)
Definition within (k : nat) (x : float64) (n d : Z) : Prop :=
  0 ≤ fnum x ∧ fnum x * d * (2 ^ 53) ^ Z.of_nat k ≤ n * fden x * (2 ^ 53 + 1) ^ Z.of_nat k.

Lemma within_round k a b n d :
  0 ≤ a → 0 < b → 0 ≤ n → 0 < d →
  a * d * (2 ^ 53) ^ Z.of_nat k ≤ n * b * (2 ^ 53 + 1) ^ Z.of_nat k →
  within (S k) (round64 a b) n d.
Proof.
  intros Ha Hb Hn Hd H. split; [apply fnum_nonneg, round64_nonneg; lia|].
  pose proof (round64_le a b Ha Hb) as Hr. pose proof (fden_pos (round64 a b)).
  rewrite Nat2Z.inj_succ, !Z.pow_succ_r by lia.
  set (K := (2 ^ 53) ^ Z.of_nat k) in *. set (L := (2 ^ 53 + 1) ^ Z.of_nat k) in *.
  set (F := fnum _) in *. set (D := fden _) in *.
  assert (0 < K) by (apply Z.pow_pos_nonneg; lia).
  apply (Zmult_le_reg_r _ _ b); [lia|].
  apply Z.le_trans with (a * D * (2 ^ 53 + 1) * (d * K)).
  - replace (F * d * (2 ^ 53 * K) * b) with (F * b * 2 ^ 53 * (d * K)) by ring.
    apply Z.mul_le_mono_nonneg_r; lia.
  - replace (a * D * (2 ^ 53 + 1) * (d * K)) with (a * d * K * (D * (2 ^ 53 + 1))) by ring.
    replace (n * D * ((2 ^ 53 + 1) * L) * b) with (n * b * L * (D * (2 ^ 53 + 1))) by ring.
    apply Z.mul_le_mono_nonneg_r; lia.
Qed.

Lemma within_of_int z : 0 ≤ z → within 1 (f_of_int z) z 1.
Proof. intros. apply within_round; lia. Qed.

Lemma within_mul k1 k2 x y n1 d1 n2 d2 :
  0 ≤ n1 → 0 < d1 → 0 ≤ n2 → 0 < d2 →
  within k1 x n1 d1 → within k2 y n2 d2 →
  within (S (k1 + k2)) (f_mul x y) (n1 * n2) (d1 * d2).
Proof.
  intros ???? [Hx1 Hx2] [Hy1 Hy2]. pose proof (fden_pos x). pose proof (fden_pos y).
  apply within_round; [nia..|]. rewrite Nat2Z.inj_add, !Z.pow_add_r by lia.
  set (K1 := (2 ^ 53) ^ Z.of_nat k1) in *. set (K2 := (2 ^ 53) ^ Z.of_nat k2) in *.
  set (L1 := (2 ^ 53 + 1) ^ Z.of_nat k1) in *. set (L2 := (2 ^ 53 + 1) ^ Z.of_nat k2) in *.
  replace (fnum x * fnum y * (d1 * d2) * (K1 * K2))
    with ((fnum x * d1 * K1) * (fnum y * d2 * K2)) by ring.
  replace (n1 * n2 * (fden x * fden y) * (L1 * L2))
    with ((n1 * fden x * L1) * (n2 * fden y * L2)) by ring.
  assert (0 ≤ K1) by (apply Z.pow_nonneg; lia). assert (0 ≤ K2) by (apply Z.pow_nonneg; lia).
  apply Z.mul_le_mono_nonneg; auto; repeat apply Z.mul_nonneg_nonneg; lia.
Qed.

(** division by an exactly represented integer *)
Lemma within_div k x n d z :
  0 ≤ n → 0 < d → 0 < z ≤ 2 ^ 53 → within k x n d →
  within (S k) (f_div x (f_of_int z)) n (d * z).
Proof.
  intros ?? Hz [Hx1 Hx2]. pose proof (fden_pos x). pose proof (fden_pos (f_of_int z)) as Hp.
  unfold f_div. rewrite (f_of_int_exact z) by lia. apply within_round; [nia..|].
  set (K := (2 ^ 53) ^ Z.of_nat k) in *. set (L := (2 ^ 53 + 1) ^ Z.of_nat k) in *.
  set (q := fden (f_of_int z)) in *.
  replace (fnum x * q * (d * z) * K) with (fnum x * d * K * (q * z)) by ring.
  replace (n * (fden x * (z * q)) * L) with (n * fden x * L * (q * z)) by ring.
  apply Z.mul_le_mono_nonneg_r; lia.
Qed.

(** A rounded value falls short of the exact one by at most a factor
    [1 - 2^-53]. *)
Lemma round64_ge n d : 0 ≤ n → 0 < d →
  n * fden (round64 n d) * (2 ^ 53 - 1) ≤ fnum (round64 n d) * d * 2 ^ 53.
Proof.
  intros Hn Hd. unfold round64. case_bool_decide as H0.
  { change (fnum (mkF 0 0)) with 0. assert (n = 0) as -> by lia. lia. }
  set (e := binade n d - 52).
  pose proof (binade_lower n d ltac:(lia) Hd) as Hb.
  replace (binade n d) with (e + 52) in Hb by (unfold e; lia).
  pose proof (pow_le_shift n d e 52 Hd ltac:(lia) Hb) as Hs.
  pose proof (scaled_pos n d e Hd) as Hp.
  destruct (scaled n d e) as [a b] eqn:E. cbn [fst snd] in *.
  pose proof (rne_err a b Hp) as [Herr _].
  assert (Hm : a * (2 ^ 53 - 1) ≤ rne a b * b * 2 ^ 53) by nia.
  unfold fnum, fden. cbn [mant expo]. unfold scaled in E.
  case_bool_decide; simplify_eq; nia.
Qed.

(** [atleast k x n d]: [x] is at least [n/d] less the error of [k]
    roundings. *)
Definition atleast (k : nat) (x : float64) (n d : Z) : Prop :=
  0 ≤ fnum x ∧ n * fden x * (2 ^ 53 - 1) ^ Z.of_nat k ≤ fnum x * d * (2 ^ 53) ^ Z.of_nat k.

Lemma atleast_round k a b n d :
  0 ≤ a → 0 < b → 0 ≤ n → 0 < d →
  n * b * (2 ^ 53 - 1) ^ Z.of_nat k ≤ a * d * (2 ^ 53) ^ Z.of_nat k →
  atleast (S k) (round64 a b) n d.
Proof.
  intros Ha Hb Hn Hd H. split; [apply fnum_nonneg, round64_nonneg; lia|].
  pose proof (round64_ge a b Ha Hb) as Hr. pose proof (fden_pos (round64 a b)).
  rewrite Nat2Z.inj_succ, !Z.pow_succ_r by lia.
  set (K := (2 ^ 53) ^ Z.of_nat k) in *. set (L := (2 ^ 53 - 1) ^ Z.of_nat k) in *.
  set (F := fnum _) in *. set (D := fden _) in *.
  assert (0 < K) by (apply Z.pow_pos_nonneg; lia).
  apply (Zmult_le_reg_r _ _ b); [lia|].
  apply Z.le_trans with (a * D * (2 ^ 53 - 1) * (d * K)).
  - replace (n * D * ((2 ^ 53 - 1) * L) * b) with (n * b * L * (D * (2 ^ 53 - 1))) by ring.
    replace (a * D * (2 ^ 53 - 1) * (d * K)) with (a * d * K * (D * (2 ^ 53 - 1))) by ring.
    apply Z.mul_le_mono_nonneg_r; lia.
  - replace (F * d * (2 ^ 53 * K) * b) with (F * b * 2 ^ 53 * (d * K)) by ring.
    apply Z.mul_le_mono_nonneg_r; lia.
Qed.
Lemma atleast_of_int z : 0 ≤ z → atleast 1 (f_of_int z) z 1.
Proof. intros. apply atleast_round; lia. Qed.
Lemma atleast_mul k1 k2 x y n1 d1 n2 d2 :
  0 ≤ n1 → 0 < d1 → 0 ≤ n2 → 0 < d2 →
  atleast k1 x n1 d1 → atleast k2 y n2 d2 →
  atleast (S (k1 + k2)) (f_mul x y) (n1 * n2) (d1 * d2).
Proof.
  intros ???? [Hx1 Hx2] [Hy1 Hy2]. pose proof (fden_pos x). pose proof (fden_pos y).
  apply atleast_round; [nia..|]. rewrite Nat2Z.inj_add, !Z.pow_add_r by lia.
  set (K1 := (2 ^ 53) ^ Z.of_nat k1) in *. set (K2 := (2 ^ 53) ^ Z.of_nat k2) in *.
  set (L1 := (2 ^ 53 - 1) ^ Z.of_nat k1) in *. set (L2 := (2 ^ 53 - 1) ^ Z.of_nat k2) in *.
  replace (fnum x * fnum y * (d1 * d2) * (K1 * K2))
    with ((fnum x * d1 * K1) * (fnum y * d2 * K2)) by ring.
  replace (n1 * n2 * (fden x * fden y) * (L1 * L2))
    with ((n1 * fden x * L1) * (n2 * fden y * L2)) by ring.
  assert (0 ≤ L1) by (apply Z.pow_nonneg; lia). assert (0 ≤ L2) by (apply Z.pow_nonneg; lia).
  apply Z.mul_le_mono_nonneg; auto; repeat apply Z.mul_nonneg_nonneg; lia.
Qed.
Lemma atleast_div k x n d z :
  0 ≤ n → 0 < d → 0 < z ≤ 2 ^ 53 → atleast k x n d →
  atleast (S k) (f_div x (f_of_int z)) n (d * z).
Proof.
  intros ?? Hz [Hx1 Hx2]. pose proof (fden_pos x). pose proof (fden_pos (f_of_int z)) as Hp.
  unfold f_div. rewrite (f_of_int_exact z) by lia. apply atleast_round; [nia..|].
  set (K := (2 ^ 53) ^ Z.of_nat k) in *. set (L := (2 ^ 53 - 1) ^ Z.of_nat k) in *.
  set (q := fden (f_of_int z)) in *.
  replace (fnum x * q * (d * z) * K) with (fnum x * d * K * (q * z)) by ring.
  replace (n * (fden x * (z * q)) * L) with (n * fden x * L * (q * z)) by ring.
  apply Z.mul_le_mono_nonneg_r; lia.
Qed.

#[global] Arguments f_of_int : simpl never.
#[global] Arguments f_mul : simpl never.
#[global] Arguments f_div : simpl never.
#[global] Arguments f_ge : simpl never.
#[global] Arguments f_trunc : simpl never.
