(* ===== verification/Pacer.v ===== *)
(** * The aggregate wire pacer ([pacer.go])

    Carrier accounting, the token bucket ([refillLocked], the critical
    section of [waitBatch]) and the waiting loop around it.  The bucket is
    shared: between two visits of one [waitBatch] call, other goroutines may
    have visited it, which the loop model makes explicit as an arbitrary
    transformation of the pacer before every iteration. *)
From S2P Require Import Prelude Float64.

Definition defaultPacingBurst : Z := 2 * Millisecond.

Record WireAccounting := mkAccounting {
  PerDatagramOverhead : Z;
  MinimumDatagramSize : Z;
}.

Definition Cost (a : WireAccounting) (udpPayloadBytes : Z) : Z :=
  let overhead := a.(PerDatagramOverhead) in
  let overhead := if overhead <? 0 then 0 else overhead in
  let minimum := a.(MinimumDatagramSize) in
  let minimum := if minimum <? 0 then 0 else minimum in
  let cost := i64 (udpPayloadBytes + overhead) in
  if cost <? minimum then minimum else cost.

Record WirePacerConfig := mkPacerConfig {
  RateBytesPerSecond : Z;
  BurstBytes : Z;
  Accounting : WireAccounting;
}.

Record WirePacerStats := mkStats {
  WireBytes : Z;
  UDPBytes : Z;
  Datagrams : Z;
  Batches : Z;
  CriticalBatches : Z;
  RecoveryBatches : Z;
  BulkBatches : Z;
  WaitTime : Z;
}.
#[export] Instance eta_stats : Eta WirePacerStats :=
  λ s, mkStats (WireBytes s) (UDPBytes s) (Datagrams s) (Batches s) (CriticalBatches s)
         (RecoveryBatches s) (BulkBatches s) (WaitTime s).

Record WirePacer := mkPacer {
  rate : Z;
  burstBytes : Z;
  accounting : WireAccounting;
  tokens : Z;
  last : Z;
  recoveryWaiters : Z;
  criticalWaiters : Z;
  stats : WirePacerStats;
}.
#[export] Instance eta_pacer : Eta WirePacer :=
  λ p, mkPacer (rate p) (burstBytes p) (accounting p) (tokens p) (last p)
         (recoveryWaiters p) (criticalWaiters p) (stats p).

(** [None] is the nil pacer of a non-positive rate. *)
Definition NewWirePacer (cfg : WirePacerConfig) (now : Z) : option WirePacer :=
  if cfg.(RateBytesPerSecond) <=? 0 then None
  else
    let burst := cfg.(BurstBytes) in
    let burst := if burst <=? 0
                 then Z.quot (i64 (cfg.(RateBytesPerSecond) * defaultPacingBurst)) Second
                 else burst in
    let burst := if burst <? 1 then 1 else burst in
    let a := cfg.(Accounting) in
    let a := mkAccounting
               (if a.(PerDatagramOverhead) <? 0 then 0 else a.(PerDatagramOverhead))
               (if a.(MinimumDatagramSize) <? 0 then 0 else a.(MinimumDatagramSize)) in
    Some (mkPacer cfg.(RateBytesPerSecond) burst a burst now 0 0
            (mkStats 0 0 0 0 0 0 0 0)).

(** what a pacer, or none, reports *)
Definition WirePacer_RateBytesPerSecond (p : option WirePacer) : Z := match p with None => 0 | Some p => p.(rate) end.
Definition WirePacer_BurstBytes (p : option WirePacer) : Z := match p with None => 0 | Some p => p.(burstBytes) end.
Definition WirePacer_Accounting (p : option WirePacer) : WireAccounting := match p with None => mkAccounting 0 0 | Some p => p.(accounting) end.
Definition WirePacer_Stats (p : option WirePacer) : WirePacerStats := match p with None => mkStats 0 0 0 0 0 0 0 0 | Some p => p.(stats) end.

(** a new pacer reports the rate asked for, cut off at zero, a usable burst
    exactly where it paces, overheads that are not negative, and no traffic *)
Lemma NewWirePacer_reports cfg now : let p := NewWirePacer cfg now in
  WirePacer_RateBytesPerSecond p = Z.max 0 cfg.(RateBytesPerSecond) ∧ (0 < WirePacer_BurstBytes p ↔ 0 < cfg.(RateBytesPerSecond)) ∧
  0 ≤ (WirePacer_Accounting p).(PerDatagramOverhead) ∧ 0 ≤ (WirePacer_Accounting p).(MinimumDatagramSize) ∧
  WirePacer_Stats p = mkStats 0 0 0 0 0 0 0 0.
Proof.
  unfold NewWirePacer. case_bool_decide as Hr; cbn; [split_and!; [lia|lia|lia|lia|done]|]. split_and!; [lia| |case_test; lia|case_test; lia|done].
  case_test; lia.
Qed.

Inductive paceClass := paceCritical | paceRecovery | paceBulk.
#[export] Instance paceClass_eq_dec : EqDecision paceClass.
Proof. solve_decision. Defined.

(** Tokens earned in [elapsed] nanoseconds, in floating point. *)
Definition addedFloat (p : WirePacer) (elapsed : Z) : float64 :=
  f_div (f_mul (f_of_int elapsed) (f_of_int p.(rate))) (f_of_int Second).

Definition refillLocked (p : WirePacer) (now : Z) : WirePacer :=
  if negb (time_After now p.(last)) then p
  else
    let space := p.(burstBytes) - p.(tokens) in
    if space <=? 0 then p <| tokens := p.(burstBytes) |> <| last := now |>
    else
      let added := addedFloat p (time_Sub now p.(last)) in
      if f_ge added (f_of_int space) then p <| tokens := p.(burstBytes) |> <| last := now |>
      else if f_ge added (f_of_int 1)
           then p <| tokens := p.(tokens) + f_trunc added |> <| last := now |>
           else p.

(** The tokens a batch must find in the bucket. *)
Definition needed (p : WirePacer) (wireBytes : Z) (class : paceClass) : Z :=
  let n := wireBytes in
  let n := if bool_decide (class = paceCritical) then n - p.(burstBytes) else n in
  if n >? p.(burstBytes) then p.(burstBytes) else n.

Inductive attempt := Granted | MustWait (delay : Z).

(** The delay until [deficit] more tokens are earned, at least a microsecond. *)
Definition grantDelay (p : WirePacer) (deficit : Z) : Z :=
  let wait := f_trunc (f_mul (f_div (f_of_int deficit) (f_of_int p.(rate))) (f_of_int Second)) in
  if wait <? Microsecond then Microsecond else wait.

Lemma grantDelay_min p deficit : Microsecond ≤ grantDelay p deficit.
Proof. unfold grantDelay. case_bool_decide; lia. Qed.

(** The critical section of [waitBatch] (under [p.mu]) and the delay computed
    from its deficit. *)
Definition tryGrant (p : WirePacer) (wireBytes : Z) (class : paceClass) (now : Z)
    : WirePacer * attempt :=
  let p := refillLocked p now in
  let need := needed p wireBytes class in
  if p.(tokens) >=? need then (p <| tokens := p.(tokens) - wireBytes |>, Granted)
  else
    let deficit := need - p.(tokens) in
    (p, MustWait (grantDelay p deficit)).

Definition recordGrant (p : WirePacer) (wireBytes udpBytes datagrams : Z) (class : paceClass)
    (waited : Z) : WirePacer :=
  let s := p.(stats) in
  let s := s <| WireBytes := u64 (WireBytes s + u64 wireBytes) |>
             <| UDPBytes := u64 (UDPBytes s + u64 udpBytes) |>
             <| Datagrams := u64 (Datagrams s + u64 datagrams) |>
             <| Batches := u64 (Batches s + 1) |>
             <| WaitTime := i64 (WaitTime s + waited) |> in
  let s := match class with
           | paceCritical => s <| CriticalBatches := u64 (CriticalBatches s + 1) |>
           | paceRecovery => s <| RecoveryBatches := u64 (RecoveryBatches s + 1) |>
           | paceBulk => s <| BulkBatches := u64 (BulkBatches s + 1) |>
           end in
  p <| stats := s |>.

(** What one iteration of the waiting loop meets: what other goroutines did
    to the shared pacer since the previous one, the clock under the lock and
    at the grant, and the [done] channel in the wait that follows. *)
Record wait_env := mkWaitEnv {
  we_others : WirePacer → WirePacer;
  we_now : Z;
  we_after : Z;
  we_done : option bool;
}.

(** [waitPacerDelay]: whether the timer ended the wait.  [None] is a nil
    [done], with which there is only the timer; [Some b] a channel, [b] if the
    [select] takes its case: it was closed before the timer fired, or both
    were ready.  How long the delay is decides only when. *)
Definition waitPacerDelay (done : option bool) : bool :=
  match done with
  | None => true
  | Some closed => negb closed
  end.

(** [class] must stand back for the waiters the shared counters show. *)
Definition mustYield (p : WirePacer) (class : paceClass) : bool :=
  match class with
  | paceBulk => (p.(criticalWaiters) >? 0) || (p.(recoveryWaiters) >? 0)
  | paceRecovery => p.(criticalWaiters) >? 0
  | paceCritical => false
  end.

(** The [for] loop of [waitBatch], one environment per iteration; [None] is
    "still waiting when the environments run out". *)
Fixpoint waitLoop (p : WirePacer) (wireBytes udpBytes datagrams : Z) (class : paceClass)
    (started : Z) (envs : list wait_env) : option (WirePacer * bool) :=
  match envs with
  | [] => None
  | e :: envs =>
      let p := e.(we_others) p in
      if mustYield p class then
        if negb (waitPacerDelay e.(we_done)) then Some (p, false)
        else waitLoop p wireBytes udpBytes datagrams class started envs
      else
        match tryGrant p wireBytes class e.(we_now) with
        | (p, Granted) =>
            Some (recordGrant p wireBytes udpBytes datagrams class
                    (time_Sub e.(we_after) started), true)
        | (p, MustWait _) =>
            if negb (waitPacerDelay e.(we_done)) then Some (p, false)
            else waitLoop p wireBytes udpBytes datagrams class started envs
        end
  end.

(** [criticalWaiters.Add(delta)] / [recoveryWaiters.Add(delta)] *)
Definition addWaiter (p : WirePacer) (class : paceClass) (delta : Z) : WirePacer :=
  match class with
  | paceCritical => p <| criticalWaiters := p.(criticalWaiters) + delta |>
  | paceRecovery => p <| recoveryWaiters := p.(recoveryWaiters) + delta |>
  | paceBulk => p
  end.

Definition waitBatch (p : WirePacer) (wireBytes udpBytes datagrams : Z) (class : paceClass)
    (started : Z) (envs : list wait_env) : option (WirePacer * bool) :=
  if (p.(rate) <=? 0) || (wireBytes <=? 0) then Some (p, true)
  else
    match waitLoop (addWaiter p class 1) wireBytes udpBytes datagrams class started envs with
    | Some (p, ok) => Some (addWaiter p class (-1), ok)
    | None => None
    end.

(** The rate handed to [SO_MAX_PACING_RATE], a 32-bit option. *)
Definition kernelPacingRate (p : option WirePacer) : option Z :=
  match p with
  | None => None
  | Some p =>
      if p.(rate) <=? 0 then None
      else Some (if p.(rate) >? 2 ^ 32 - 1 then 2 ^ 32 - 1 else p.(rate))
  end.

(** ** The bucket's arithmetic *)

(** One part in 2^50 covers the four roundings of [addedFloat]. *)
Definition rateSlack (x : Z) : Z := x * (2 ^ 50 + 1).
Definition perSecond (x : Z) : Z := x * Second * 2 ^ 50.

Lemma rateSlack_mono x y : x ≤ y → rateSlack x ≤ rateSlack y.
Proof. unfold rateSlack. lia. Qed.
Lemma rateSlack_nonneg x : 0 ≤ x → 0 ≤ rateSlack x.
Proof. unfold rateSlack. lia. Qed.

(** a number of tokens below the float is below its exact bound *)
Lemma perSecond_le n x bound :
  n * fden x ≤ fnum x → perSecond (fnum x) ≤ bound * fden x → perSecond n ≤ bound.
Proof.
  intros H1 H2. pose proof (fden_pos x). unfold perSecond in *.
  apply (Zmult_le_reg_r _ _ (fden x)); [lia|].
  assert (n * fden x * (Second * 2 ^ 50) ≤ fnum x * (Second * 2 ^ 50)).
  { apply Z.mul_le_mono_nonneg_r; [done|lia]. }
  lia.
Qed.

Lemma addedFloat_le p elapsed :
  0 ≤ elapsed → 0 < p.(rate) →
  perSecond (fnum (addedFloat p elapsed)) ≤ rateSlack (elapsed * p.(rate)) * fden (addedFloat p elapsed).
Proof.
  intros He Hr.
  assert (within 4 (addedFloat p elapsed) (elapsed * p.(rate)) (1 * 1 * Second)) as [H0 H].
  { apply within_div; [nia|lia|by split|].
    apply (within_mul 1 1); try lia; apply within_of_int; lia. }
  set (A := fnum _) in *. set (D := fden _) in *.
  assert (0 < D) by apply fden_pos. unfold perSecond, rateSlack.
  assert (Hk : (2 ^ 53 + 1) ^ Z.of_nat 4 * 2 ^ 50 ≤ (2 ^ 53) ^ Z.of_nat 4 * (2 ^ 50 + 1))
    by (vm_compute; congruence).
  apply (Zmult_le_reg_r _ _ ((2 ^ 53) ^ Z.of_nat 4)); [done|].
  assert (0 ≤ elapsed * p.(rate) * D) by nia. nia.
Qed.

(** ** Invariant

    [maxBatch] bounds the batches the pacer is asked to grant.  The bucket
    never holds more than a burst, and never owes more than the larger of
    one burst (the critical reserve) and the excess of an indivisible
    batch over one burst. *)
Definition debtFloor (p : WirePacer) (maxBatch : Z) : Z :=
  Z.min (- p.(burstBytes)) (p.(burstBytes) - maxBatch).

Record pacer_wf (maxBatch : Z) (p : WirePacer) : Prop := mkPacerWf {
  pw_rate : 0 < p.(rate);
  pw_burst : 1 ≤ p.(burstBytes) ≤ 2 ^ 52;
  pw_batch : 0 ≤ maxBatch ≤ 2 ^ 53;
  pw_tokens : debtFloor p maxBatch ≤ p.(tokens) ≤ p.(burstBytes);
}.

Lemma NewWirePacer_wf cfg now p maxBatch :
  NewWirePacer cfg now = Some p → p.(burstBytes) ≤ 2 ^ 52 → 0 ≤ maxBatch ≤ 2 ^ 53 →
  pacer_wf maxBatch p ∧ p.(tokens) = p.(burstBytes) ∧ p.(last) = now.
Proof.
  unfold NewWirePacer. intros H Hb Hm. case_bool_decide; [done|].
  generalize dependent (if BurstBytes cfg <=? 0
    then Z.quot (i64 (RateBytesPerSecond cfg * defaultPacingBurst)) Second else BurstBytes cfg).
  intros burst H. simplify_eq. cbn [burstBytes tokens last] in *.
  split; [|done]. split; cbn [rate burstBytes tokens]; unfold debtFloor; cbn [burstBytes];
    repeat case_bool_decide; lia.
Qed.

(** What one refill adds, and that it never exceeds the elapsed time's worth. *)
Lemma refillLocked_spec maxBatch p now :
  pacer_wf maxBatch p →
  let p' := refillLocked p now in
  p.(tokens) ≤ p'.(tokens) ≤ p.(burstBytes)
  ∧ (p'.(last) = p.(last) ∨ p'.(last) = now)
  ∧ p.(last) ≤ p'.(last)
  ∧ perSecond (p'.(tokens) - p.(tokens)) ≤ rateSlack ((p'.(last) - p.(last)) * p.(rate)).
Proof.
  intros [Hr Hb Hm Ht]. unfold refillLocked, time_After, debtFloor in *.
  assert (Hsame : ∀ x : Z, perSecond (x - x) ≤ rateSlack ((p.(last) - p.(last)) * p.(rate))).
  { intros x. rewrite !Z.sub_diag. done. }
  case_bool_decide as Hafter; [|simpl; auto with lia].
  set (el := time_Sub now (last p)).
  assert (Hel : 0 ≤ el ≤ now - last p) by (apply time_Sub_later; lia).
  pose proof (addedFloat_le p el ltac:(lia) Hr) as Hadd.
  assert (Hmono : rateSlack (el * rate p) ≤ rateSlack ((now - last p) * rate p))
    by (apply rateSlack_mono, Z.mul_le_mono_nonneg_r; lia).
  generalize dependent (addedFloat p el). intros af Hadd.
  set (space := burstBytes p - tokens p). case_bool_decide as Hspace; simpl.
  { replace (burstBytes p) with (tokens p) by lia. rewrite Z.sub_diag.
    split_and!; [lia|lia|by right|lia|]. apply rateSlack_nonneg, Z.mul_nonneg_nonneg; lia. }
  assert (Hsp : 0 ≤ space ≤ 2 ^ 53) by lia.
  destruct (f_ge _ (f_of_int space)) eqn:Ege; simpl; [|destruct (f_ge _ (f_of_int 1)) eqn:Eg1; simpl].
  - split_and!; [lia|lia|by right|lia|]. fold space. etrans; [|exact Hmono].
    eapply perSecond_le; [|exact Hadd].
    unfold f_ge in Ege. bool_simpl. rewrite (f_of_int_exact space Hsp) in Ege.
    pose proof (fden_pos (f_of_int space)). nia.
  - pose proof (f_trunc_le _ _ Ege Hsp). pose proof (f_trunc_pos _ Eg1).
    split_and!; [lia|lia|by right|lia|]. etrans; [|exact Hmono].
    eapply perSecond_le; [|exact Hadd].
    replace (tokens p + _ - tokens p) with (f_trunc af) by lia.
    unfold f_trunc. pose proof (Z.mul_div_le (fnum af) _ (fden_pos af)). lia.
  - auto with lia.
Qed.

Lemma refillLocked_fields p now :
  let p' := refillLocked p now in
  p'.(rate) = p.(rate) ∧ p'.(burstBytes) = p.(burstBytes) ∧ p'.(accounting) = p.(accounting)
  ∧ p'.(stats) = p.(stats) ∧ p'.(criticalWaiters) = p.(criticalWaiters)
  ∧ p'.(recoveryWaiters) = p.(recoveryWaiters).
Proof.
  unfold refillLocked. destruct (negb _); [done|]. cbv zeta.
  destruct (bool_decide _); [done|]. destruct (f_ge _ _); [done|]. by destruct (f_ge _ _).
Qed.

(** One visit of the critical section: bounds, and exact conservation of
    tokens. *)
Definition granted (a : attempt) (wireBytes : Z) : Z :=
  match a with Granted => wireBytes | MustWait _ => 0 end.

Lemma tryGrant_spec maxBatch p wireBytes class now p' a :
  pacer_wf maxBatch p → 0 < wireBytes ≤ maxBatch → tryGrant p wireBytes class now = (p', a) →
  pacer_wf maxBatch p'
  ∧ p'.(rate) = p.(rate) ∧ p'.(burstBytes) = p.(burstBytes)
  ∧ p.(last) ≤ p'.(last)
  ∧ perSecond (p'.(tokens) + granted a wireBytes - p.(tokens))
    ≤ rateSlack ((p'.(last) - p.(last)) * p.(rate)).
Proof.
  intros Hwf Hw. pose proof (refillLocked_spec maxBatch p now Hwf) as (Ht & _ & Hl & Hr).
  pose proof (refillLocked_fields p now) as (E1 & E2 & _).
  destruct Hwf as [H1 H2 H3 H4]. unfold tryGrant, needed, debtFloor in *.
  generalize dependent (refillLocked p now). intros q Ht Hl Hr E1 E2. cbv zeta. rewrite E2.
  assert (Hfields : ∀ t, debtFloor p maxBatch ≤ t ≤ burstBytes p →
            pacer_wf maxBatch (q <| tokens := t |>)).
  { intros t ?. unfold debtFloor in *. split; simpl; unfold debtFloor; simpl; rewrite ?E1, ?E2; lia. }
  unfold debtFloor in *.
  set (need := if bool_decide (class = paceCritical) then wireBytes - burstBytes p else wireBytes).
  assert (Hneed : wireBytes - burstBytes p ≤ need ≤ wireBytes) by (unfold need; case_bool_decide; lia).
  case_bool_decide as Hgrant; intros [= <- <-]; cbn [granted].
  - split; [apply Hfields; case_bool_decide; lia|]. split_and!; try done. cbn [tokens put].
    replace (tokens q - wireBytes + wireBytes - tokens p) with (tokens q - tokens p) by lia. done.
  - split; [|split_and!; try done; by rewrite Z.add_0_r].
    destruct q. apply (Hfields tokens0). simpl in *. lia.
Qed.

(** ** Schedules: the sequence of visits to the shared bucket *)
Record visit := mkVisit { v_wire : Z; v_class : paceClass; v_now : Z }.

(** The visits of any number of connections, in lock order, with the total
    of granted wire bytes. *)
Fixpoint runVisits (p : WirePacer) (vs : list visit) : WirePacer * Z :=
  match vs with
  | [] => (p, 0)
  | v :: vs =>
      let '(p, a) := tryGrant p v.(v_wire) v.(v_class) v.(v_now) in
      let '(p, total) := runVisits p vs in
      (p, granted a v.(v_wire) + total)
  end.

Lemma runVisits_spec maxBatch vs : ∀ p p' total,
  pacer_wf maxBatch p → Forall (λ v, 0 < v.(v_wire) ≤ maxBatch) vs →
  runVisits p vs = (p', total) →
  pacer_wf maxBatch p' ∧ p'.(rate) = p.(rate) ∧ p'.(burstBytes) = p.(burstBytes)
  ∧ p.(last) ≤ p'.(last)
  ∧ perSecond (p'.(tokens) + total - p.(tokens)) ≤ rateSlack ((p'.(last) - p.(last)) * p.(rate)).
Proof.
  induction vs as [|v vs IH]; intros p p' total Hwf Hvs; cbn [runVisits].
  { intros [= <- <-]. rewrite Z.add_0_r, !Z.sub_diag. by repeat split; try apply Hwf. }
  inversion_clear Hvs as [|?? Hv Hvs'].
  destruct (tryGrant p _ _ _) as [p1 a] eqn:E1. destruct (runVisits p1 vs) as [p2 t2] eqn:E2.
  intros [= <- <-].
  destruct (tryGrant_spec maxBatch _ _ _ _ _ _ Hwf Hv E1) as (Hwf1 & R1 & B1 & L1 & C1).
  destruct (IH _ _ _ Hwf1 Hvs' E2) as (Hwf2 & R2 & B2 & L2 & C2).
  split_and!; [done|congruence|congruence|lia|]. rewrite R1 in C2.
  unfold perSecond, rateSlack in *. lia.
Qed.

(** A visit that finds less than a token earned leaves the clock of the bucket
    behind, but by no more than a token's worth. *)
Lemma unearned p elapsed :
  0 ≤ elapsed → 0 < p.(rate) → f_ge (addedFloat p elapsed) (f_of_int 1) = false → elapsed * p.(rate) ≤ Second.
Proof.
  intros He Hr Hge.
  assert (atleast 4 (addedFloat p elapsed) (elapsed * p.(rate)) (1 * 1 * Second)) as [_ H].
  { apply atleast_div; [nia|lia|by split|].
    apply (atleast_mul 1 1); try lia; apply atleast_of_int; lia. }
  unfold f_ge in Hge. apply bool_decide_eq_false in Hge. rewrite (f_of_int_exact 1) in Hge by lia.
  pose proof (fden_pos (f_of_int 1)) as H1. set (A := fnum (addedFloat p elapsed)) in *. set (D := fden (addedFloat p elapsed)) in *.
  assert (0 < D) by apply fden_pos. assert (A < D) by nia. set (X := elapsed * rate p) in *.
  assert (0 ≤ X) by (unfold X; nia).
  assert (X * (2 ^ 53 - 1) ^ Z.of_nat 4 ≤ Second * (2 ^ 53) ^ Z.of_nat 4).
  { apply (Zmult_le_reg_r _ _ D); [lia|]. apply Z.le_trans with (A * (1 * 1 * Second) * (2 ^ 53) ^ Z.of_nat 4); [lia|].
    replace (Second * (2 ^ 53) ^ Z.of_nat 4 * D) with (D * (1 * 1 * Second) * (2 ^ 53) ^ Z.of_nat 4) by ring.
    apply Z.mul_le_mono_nonneg_r; [apply Z.pow_nonneg; lia|]. apply Z.mul_le_mono_nonneg_r; [done|lia]. }
  destruct (decide (X ≤ Second)) as [|Hx]; [done|]. exfalso.
  assert ((Second + 1) * (2 ^ 53 - 1) ^ Z.of_nat 4 ≤ X * (2 ^ 53 - 1) ^ Z.of_nat 4) by (apply Z.mul_le_mono_nonneg_r; [apply Z.pow_nonneg; lia|lia]).
  assert (Second * (2 ^ 53) ^ Z.of_nat 4 < (Second + 1) * (2 ^ 53 - 1) ^ Z.of_nat 4) by (vm_compute; reflexivity). lia.
Qed.
Lemma refill_clock maxBatch p now : pacer_wf maxBatch p → p.(last) ≤ now →
  (refillLocked p now).(last) = now ∨ (refillLocked p now = p ∧ (now - p.(last)) * p.(rate) ≤ Second).
Proof.
  intros [Hr _ _ _] Hl. unfold refillLocked, time_After. case_bool_decide as Ha; cbn [negb]; [|left; lia].
  cbv zeta. case_bool_decide; [by left|]. destruct (f_ge _ (f_of_int (burstBytes p - tokens p))); [by left|].
  destruct (f_ge _ (f_of_int 1)) eqn:E1; [by left|]. right. split; [done|].
  pose proof (time_Sub_later now (last p) ltac:(lia)) as Hel. pose proof (unearned p _ (proj1 Hel) Hr E1) as Hu.
  assert (time_Sub now (last p) = now - last p) as Hts; [|by rewrite Hts in Hu].
  unfold time_Sub in *. unfold minInt64, maxInt64 in *. repeat case_decide; try lia. exfalso. unfold Second, Millisecond, Microsecond in Hu. nia.
Qed.
Lemma refill_twice maxBatch p now : pacer_wf maxBatch p → p.(last) ≤ now → refillLocked (refillLocked p now) now = refillLocked p now.
Proof.
  intros Hwf Hl. destruct (refill_clock _ p now Hwf Hl) as [Hq|[Hq _]]; [|by rewrite !Hq].
  unfold refillLocked at 1, time_After. by rewrite bool_decide_false by lia.
Qed.
Lemma refill_wf maxBatch p now : pacer_wf maxBatch p → pacer_wf maxBatch (refillLocked p now).
Proof.
  intros Hwf. pose proof (refillLocked_spec maxBatch p now Hwf) as (Ht & _). pose proof (refillLocked_fields p now) as (E1 & E2 & _).
  destruct Hwf as [H1 H2 H3 H4]. unfold debtFloor in *. split; unfold debtFloor; rewrite ?E1, ?E2; lia.
Qed.
(** the bucket's clock follows the visits' *)
Lemma runVisits_last vs t : ∀ p p' total, p.(last) ≤ t → Forall (λ v, v.(v_now) ≤ t) vs → runVisits p vs = (p', total) → p'.(last) ≤ t.
Proof.
  induction vs as [|v vs IH]; intros p p' total Hl Hvs; cbn [runVisits]; [by intros [= <- _]|]. apply Forall_cons in Hvs as [Hv Hvs].
  destruct (tryGrant p _ _ _) as [p1 a] eqn:E1. destruct (runVisits p1 vs) as [p2 t2] eqn:E2. intros [= <- _]. apply (IH p1 p2 t2); [|done|done].
  assert ((refillLocked p v.(v_now)).(last) ≤ t) as Hr.
  { unfold refillLocked. destruct (negb _); [done|]. cbv zeta. case_bool_decide; [done|]. destruct (f_ge _ _); [done|]. by destruct (f_ge _ _). }
  unfold tryGrant in E1. revert E1. cbv zeta. case_bool_decide; by intros [= <- _].
Qed.

(** C37: Token-bucket conformance.  However many connections share a pacer and
    whatever the classes and order of their batches: over any interval of
    time, wherever in the pacer's life it begins and however long the bucket
    has been idle before, the carrier bytes granted are at most two bursts (or
    the largest indivisible batch, if that is larger) and one byte, plus the
    configured rate times the length of the interval, up to one part in 2^50
    of floating-point rounding. *)
Theorem pacer_conformance (cfg : WirePacerConfig) (now maxBatch t1 t2 : Z) (p p1 p2 : WirePacer)
    (vs1 vs2 : list visit) (before total : Z) :
  NewWirePacer cfg now = Some p → p.(burstBytes) ≤ 2 ^ 52 → 0 ≤ maxBatch ≤ 2 ^ 53 →
  Forall (λ v, 0 < v.(v_wire) ≤ maxBatch) (vs1 ++ vs2) →
  now ≤ t1 ≤ t2 → Forall (λ v, v.(v_now) ≤ t1) vs1 → Forall (λ v, t1 ≤ v.(v_now) ≤ t2) vs2 →
  runVisits p vs1 = (p1, before) → runVisits p1 vs2 = (p2, total) →
  perSecond (total - Z.max (2 * p.(burstBytes)) maxBatch)
  ≤ rateSlack ((t2 - t1) * p.(rate) + Second).
Proof.
  intros Hnew Hb Hm [Hv1 Hv2]%Forall_app Ht Hn1 Hn2 H1 H2. destruct (NewWirePacer_wf _ _ _ maxBatch Hnew Hb Hm) as (Hwf & _ & Hnow).
  destruct (runVisits_spec _ _ _ _ _ Hwf Hv1 H1) as (Hwf1 & R1 & B1 & _). pose proof (runVisits_last vs1 t1 p p1 before ltac:(lia) Hn1 H1) as L1.
  pose proof (pw_rate _ _ Hwf) as Hr. pose proof (pw_burst _ _ Hwf) as Hbu.
  destruct vs2 as [|v vs].
  { injection H2 as <- <-. apply Z.le_trans with 0; [|apply rateSlack_nonneg; unfold Second, Millisecond, Microsecond; nia].
    unfold perSecond. apply Z.mul_nonpos_nonneg; [apply Z.mul_nonpos_nonneg; [lia|done]|done]. }
  apply Forall_cons in Hn2 as [[Hv Hv'] Hn2]. pose proof (refill_wf _ _ v.(v_now) Hwf1) as Hwq. pose proof (refill_twice _ p1 v.(v_now) Hwf1 (Z.le_trans _ _ _ L1 Hv)) as Htw.
  pose proof (refillLocked_fields p1 v.(v_now)) as (Q1 & Q2 & _). set (q := refillLocked p1 v.(v_now)) in *.
  assert (runVisits q (v :: vs) = (p2, total)) as H2'.
  { rewrite <- H2. cbn [runVisits]. unfold tryGrant. fold q. by rewrite Htw. }
  destruct (runVisits_spec _ _ _ _ _ Hwq Hv2 H2') as ([_ _ _ [Hlo _]] & _ & B2 & _ & C).
  assert (q.(last) ≤ v.(v_now) ∧ (v.(v_now) - q.(last)) * p.(rate) ≤ Second) as [Lq Cq].
  { rewrite <- R1. destruct (refill_clock _ p1 v.(v_now) Hwf1 (Z.le_trans _ _ _ L1 Hv)) as [Hq|[Hq Hs]]; fold q in Hq.
    - rewrite Hq, Z.sub_diag. split; [lia|done].
    - rewrite Hq. split; [lia|done]. }
  assert (p2.(last) ≤ t2) as L2.
  { apply (runVisits_last (v :: vs) t2 q p2 total); [lia| |done]. constructor; [done|]. eapply Forall_impl; [exact Hn2|]. by intros ? [_ ?]. }
  unfold debtFloor in Hlo. pose proof (pw_tokens _ _ Hwq) as [_ Hhi].
  apply Z.le_trans with (perSecond (tokens p2 + total - tokens q)).
  { unfold perSecond. apply Z.mul_le_mono_nonneg_r; [done|]. apply Z.mul_le_mono_nonneg_r; [done|]. lia. }
  etrans; [exact C|]. apply rateSlack_mono. rewrite Q1, R1. nia.
Qed.

Definition witness_cfg : WirePacerConfig := mkPacerConfig 100000 1000 (mkAccounting 28 0).
Definition witness_pacer : WirePacer :=
  mkPacer 100000 1000 (mkAccounting 28 0) 1000 5 0 0 (mkStats 0 0 0 0 0 0 0 0).
Definition witness_visits : list visit :=
  [mkVisit 1000 paceBulk 5; mkVisit 1000 paceBulk 6; mkVisit 900 paceCritical 7;
   mkVisit 1000 paceBulk 20000005].

(** an hour later it has not saved up more than a burst *)
Definition late : Z := 3600 * Second.
Definition late_visits : list visit :=
  [mkVisit 1000 paceBulk late; mkVisit 1000 paceBulk (late + 1); mkVisit 1000 paceCritical (late + 2)].
Lemma pacer_conformance_witness :
  (runVisits (runVisits witness_pacer witness_visits).1 late_visits).2 = 2000
  ∧ perSecond (2000 - Z.max 2000 1000) ≤ rateSlack ((late + 2 - late) * 100000 + Second).
Proof.
  split; [vm_compute; reflexivity|].
  apply (pacer_conformance witness_cfg 5 1000 late (late + 2) witness_pacer (runVisits witness_pacer witness_visits).1
    (runVisits (runVisits witness_pacer witness_visits).1 late_visits).1 witness_visits late_visits 2900 2000);
    [reflexivity|vm_compute; congruence|vm_compute; intuition congruence| |vm_compute; intuition congruence| | |vm_compute; reflexivity|vm_compute; reflexivity];
    repeat constructor; vm_compute; congruence.
Defined.

(** The post-charge bound documented on [waitBatch]: a granted bulk or
    recovery batch of at most one burst never drives the bucket below zero,
    and a granted critical batch of at most two bursts never below minus one
    burst; a batch that is not granted costs nothing. *)
Theorem pacer_debt_bound (p p' : WirePacer) (wireBytes now : Z) (class : paceClass) (a : attempt) :
  0 < p.(burstBytes) →
  tryGrant p wireBytes class now = (p', a) →
  match a with
  | MustWait d => p' = refillLocked p now ∧ Microsecond ≤ d
  | Granted =>
      p'.(tokens) = (refillLocked p now).(tokens) - wireBytes
      ∧ (class ≠ paceCritical → wireBytes ≤ p.(burstBytes) → 0 ≤ p'.(tokens))
      ∧ (class = paceCritical → wireBytes ≤ 2 * p.(burstBytes) → - p.(burstBytes) ≤ p'.(tokens))
  end.
Proof.
  intros Hb. pose proof (refillLocked_fields p now) as (_ & E2 & _).
  unfold tryGrant, needed. generalize dependent (refillLocked p now). intros q E2. cbv zeta.
  rewrite E2. case_bool_decide as Hg; intros [= <- <-].
  - cbn [tokens put]. split; [done|].
    split; intros Hc Hw; [rewrite (bool_decide_false (class = _)) in Hg by done
                         |rewrite (bool_decide_true (class = _)) in Hg by done];
      case_bool_decide; lia.
  - split; [done|]. apply grantDelay_min.
Qed.

Lemma pacer_debt_bound_witness :
  let p := witness_pacer <| tokens := -900 |> in
  ∃ p', tryGrant p 100 paceCritical 6 = (p', Granted) ∧ - 1000 ≤ p'.(tokens).
Proof.
  eexists. split; [vm_compute; reflexivity|].
  refine (proj2 (proj2 (pacer_debt_bound (witness_pacer <| tokens := -900 |>) _ 100 6
                          paceCritical Granted _ _)) _ _);
    [reflexivity|vm_compute; reflexivity|reflexivity|vm_compute; congruence].
Defined.

(** No batch is starved by its size: once the time since the last refill
    is worth the missing tokens, the bucket is full and a batch of any size
    and class is granted on that visit. *)
Theorem pacer_full_bucket_grants (p : WirePacer) (wireBytes now : Z) (class : paceClass) :
  0 < p.(burstBytes) → 0 < wireBytes → p.(last) < now →
  p.(tokens) < p.(burstBytes) →
  f_ge (addedFloat p (time_Sub now p.(last))) (f_of_int (p.(burstBytes) - p.(tokens))) = true →
  ∃ p', tryGrant p wireBytes class now = (p', Granted)
    ∧ p'.(tokens) = p.(burstBytes) - wireBytes ∧ p'.(last) = now.
Proof.
  intros Hb Hw Hl Ht Hge. unfold tryGrant.
  assert (refillLocked p now = p <| tokens := p.(burstBytes) |> <| last := now |>) as ->.
  { unfold refillLocked, time_After. rewrite bool_decide_true by done. cbn [negb].
    rewrite bool_decide_false by lia. cbv zeta. by rewrite Hge. }
  eexists. cbv zeta. rewrite bool_decide_true; [done|].
  unfold needed. cbn [burstBytes tokens put]. repeat case_bool_decide; lia.
Qed.

Lemma pacer_full_bucket_grants_witness :
  let p := witness_pacer <| tokens := -900 |> in
  ∃ p', tryGrant p 5000 paceBulk 20000005 = (p', Granted)
    ∧ p'.(tokens) = p.(burstBytes) - 5000 ∧ p'.(last) = 20000005.
Proof.
  apply (pacer_full_bucket_grants (witness_pacer <| tokens := -900 |>) 5000 20000005 paceBulk);
    vm_compute; reflexivity.
Defined.

(** ** The waiting loop *)

(** Interference that leaves this call's registration and the statistics
    alone: other goroutines may move tokens and the clock arbitrarily. *)
Definition quiet (f : WirePacer → WirePacer) : Prop :=
  ∀ q, (f q).(criticalWaiters) = q.(criticalWaiters)
     ∧ (f q).(recoveryWaiters) = q.(recoveryWaiters) ∧ (f q).(stats) = q.(stats).

Lemma tryGrant_fields p wireBytes class now :
  let p' := (tryGrant p wireBytes class now).1 in
  p'.(criticalWaiters) = p.(criticalWaiters) ∧ p'.(recoveryWaiters) = p.(recoveryWaiters)
  ∧ p'.(stats) = p.(stats).
Proof.
  pose proof (refillLocked_fields p now) as (_ & _ & _ & E1 & E2 & E3).
  unfold tryGrant. generalize dependent (refillLocked p now). intros q. cbv zeta.
  case_bool_decide; intros; by split_and!.
Qed.

Lemma waitLoop_outcome wireBytes udpBytes datagrams class started envs :
  Forall (λ e, quiet e.(we_others)) envs → ∀ p p' ok,
  waitLoop p wireBytes udpBytes datagrams class started envs = Some (p', ok) →
  p'.(criticalWaiters) = p.(criticalWaiters) ∧ p'.(recoveryWaiters) = p.(recoveryWaiters)
  ∧ ∃ waited, p'.(stats) = if ok then (recordGrant p wireBytes udpBytes datagrams class waited).(stats)
                           else p.(stats).
Proof.
  induction 1 as [|e envs He _ IH]; intros p p' ok; cbn [waitLoop]; [done|].
  destruct (He p) as (Hc & Hr & Hs).
  destruct (mustYield _ _).
  - destruct (negb (waitPacerDelay (we_done e))); intros H; [simplify_eq; eauto|].
    apply IH in H as (-> & -> & w & ->). split_and!; try done. exists w.
    unfold recordGrant. cbn [stats put]. by rewrite Hs.
  - pose proof (tryGrant_fields (we_others e p) wireBytes class (we_now e)) as (Tc & Tr & Ts).
    destruct (tryGrant _ _ _ _) as [q [|d]]; cbn [fst] in *.
    + intros [= <- <-]. split_and!; [by rewrite <- Hc|by rewrite <- Hr|].
      exists (time_Sub (we_after e) started). unfold recordGrant. cbn [stats put]. by rewrite Ts, Hs.
    + destruct (negb (waitPacerDelay (we_done e))); intros H.
      * simplify_eq. split_and!; [congruence..|]. exists 0. congruence.
      * apply IH in H as (-> & -> & w & ->). split_and!; [congruence..|]. exists w.
        unfold recordGrant. cbn [stats put]. by rewrite Ts, Hs.
Qed.

(** [waitBatch] leaves no trace but its grant: on every path its
    registration as a waiter is withdrawn; the statistics record the batch
    exactly when it was granted, and nothing when the wait was cancelled. *)
Theorem waitBatch_outcome (p p' : WirePacer) (wireBytes udpBytes datagrams started : Z)
    (class : paceClass) (envs : list wait_env) (ok : bool) :
  0 < p.(rate) → 0 < wireBytes → Forall (λ e, quiet e.(we_others)) envs →
  waitBatch p wireBytes udpBytes datagrams class started envs = Some (p', ok) →
  p'.(criticalWaiters) = p.(criticalWaiters) ∧ p'.(recoveryWaiters) = p.(recoveryWaiters)
  ∧ ∃ waited, p'.(stats) = if ok then (recordGrant p wireBytes udpBytes datagrams class waited).(stats)
                           else p.(stats).
Proof.
  intros Hr Hw Hq. unfold waitBatch. rewrite !bool_decide_false by lia. cbn [orb].
  destruct (waitLoop _ _ _ _ _ _ _) as [[q b]|] eqn:E; [|done]. intros [= <- <-].
  destruct (waitLoop_outcome _ _ _ _ _ _ Hq _ _ _ E) as (Hc & Hre & w & Hs).
  destruct class; simpl in *; split_and!; try lia; by exists w.
Qed.

Lemma waitBatch_outcome_witness :
  let e := mkWaitEnv (λ q, q) 20000005 20000006 None in
  ∃ p', waitBatch witness_pacer 500 450 1 paceRecovery 4 [e] = Some (p', true)
    ∧ p'.(criticalWaiters) = witness_pacer.(criticalWaiters)
    ∧ p'.(recoveryWaiters) = witness_pacer.(recoveryWaiters)
    ∧ ∃ waited, p'.(stats) = (recordGrant witness_pacer 500 450 1 paceRecovery waited).(stats).
Proof.
  eexists. split; [vm_compute; reflexivity|].
  apply (waitBatch_outcome witness_pacer _ 500 450 1 4 paceRecovery
           [mkWaitEnv (λ q, q) 20000005 20000006 None] true);
    [reflexivity|reflexivity|by repeat constructor|vm_compute; reflexivity].
Defined.
