(* ===== verification/Options.v ===== *)
(** * Configuration ([options.go])

    The [config] record, its defaults, the functional options and the
    derived sizes.  A [*WirePacer] is a location in the pacer store shared
    by all connections, [None] being the nil pointer.  [socketOpts], a
    callback on the external socket type, is an identity that [Sockets.v]
    runs. *)
From S2P Require Import Prelude Frame Float64 Pacer.

Definition defaultMaxStreams : Z := 1024.
Definition defaultStreamBufSize : Z := 128 * 1024 * 1024.
Definition defaultRecvBufSize : Z := 16 * 1024 * 1024.
Definition defaultSendBufSize : Z := 16 * 1024 * 1024.
Definition defaultBatchSize : Z := 64.
Definition defaultHandshakeTimout : Z := 5 * Second.
Definition defaultKeepAlive : Z := 10 * Second.
Definition defaultRetransmitTimeout : Z := 300 * Millisecond.
Definition defaultMinRetransmitTimeout : Z := 150 * Millisecond.
Definition defaultHandshakeRetryIvl : Z := 250 * Millisecond.
Definition defaultFECGroup : Z := 8.

Record config := mkConfig {
  maxStreams : Z;
  streamBufSize : Z;
  recvBufSize : Z;
  sendBufSize : Z;
  batchSize : Z;
  maxPayload : Z;
  handshakeTimout : Z;
  keepAlive : Z;
  retransmitTmout : Z;
  minRetransmitTmout : Z;
  bindDevice : list Z;
  enableGSO : bool;
  enableIOUring : bool;
  maxInFlight : Z;
  fecGroup : Z;
  fec2D : bool;
  paceRate : Z;
  paceBurst : Z;
  paceAccounting : WireAccounting;
  wirePacer : option positive;
  socketOpts : option positive;   (* the identity of a function on sockets *)
}.
#[export] Instance eta_config : Eta config :=
  λ c, mkConfig (maxStreams c) (streamBufSize c) (recvBufSize c) (sendBufSize c) (batchSize c)
    (maxPayload c) (handshakeTimout c) (keepAlive c) (retransmitTmout c) (minRetransmitTmout c)
    (bindDevice c) (enableGSO c) (enableIOUring c) (maxInFlight c) (fecGroup c) (fec2D c)
    (paceRate c) (paceBurst c) (paceAccounting c) (wirePacer c) (socketOpts c).

Definition defaultConfig : config :=
  mkConfig defaultMaxStreams defaultStreamBufSize defaultRecvBufSize defaultSendBufSize
    defaultBatchSize defaultMaxPayloadSize defaultHandshakeTimout defaultKeepAlive
    defaultRetransmitTimeout defaultMinRetransmitTimeout [] true true 0 defaultFECGroup false
    0 0 (mkAccounting 0 0) None None.

Definition dataCap (c : config) : Z :=
  if c.(fecGroup) >? 0 then c.(maxPayload) - fecMetaLen else c.(maxPayload).

Definition effectiveMaxInFlight (c : config) : Z :=
  if c.(maxInFlight) >? 0 then c.(maxInFlight)
  else c.(recvBufSize) + Z.quot c.(recvBufSize) 2.

Definition maxDatagram (c : config) : Z := frameHeaderSize + c.(maxPayload).

Definition pacingEnabled (c : config) : bool :=
  bool_decide (c.(wirePacer) ≠ None) || (c.(paceRate) >? 0).

(** [ensureWirePacer] allocates in the pacer store. *)
Definition ensureWirePacer (store : gmap positive WirePacer) (now : Z) (c : config)
    : gmap positive WirePacer * config :=
  if bool_decide (c.(wirePacer) ≠ None) || (c.(paceRate) <=? 0) then (store, c)
  else
    match NewWirePacer (mkPacerConfig c.(paceRate) c.(paceBurst) c.(paceAccounting)) now with
    | None => (store, c <| wirePacer := None |>)
    | Some p => let l := fresh (dom store) in (<[l := p]> store, c <| wirePacer := Some l |>)
    end.

(** ** Options *)
Definition Opt : Type := config → config.

Definition WithMaxStreams (n : Z) : Opt := λ c, c <| maxStreams := n |>.
Definition WithStreamBufferSize (n : Z) : Opt := λ c, c <| streamBufSize := n |>.
Definition WithRecvBufferSize (n : Z) : Opt := λ c, c <| recvBufSize := n |>.
Definition WithSendBufferSize (n : Z) : Opt := λ c, c <| sendBufSize := n |>.
Definition WithBatchSize (n : Z) : Opt := λ c, c <| batchSize := n |>.
Definition WithHandshakeTimeout (d : Z) : Opt := λ c, c <| handshakeTimout := d |>.
Definition WithKeepAlive (d : Z) : Opt := λ c, c <| keepAlive := d |>.
Definition WithIdleTimeout (d : Z) : Opt := λ c, c <| keepAlive := Z.quot d 3 |>.
Definition WithMaxDatagramSize (n : Z) : Opt := λ c,
  if n >=? frameHeaderSize + 12 then c <| maxPayload := n - frameHeaderSize |> else c.
Definition WithBindToDevice (ifname : list Z) : Opt := λ c, c <| bindDevice := ifname |>.
Definition WithRetransmitTimeout (d : Z) : Opt := λ c, c <| retransmitTmout := d |>.
Definition WithMinRetransmitTimeout (d : Z) : Opt := λ c,
  if d >? 0 then c <| minRetransmitTmout := d |> else c.
Definition WithMaxBytesInFlight (n : Z) : Opt := λ c, c <| maxInFlight := n |>.
Definition WithGSO (enabled : bool) : Opt := λ c, c <| enableGSO := enabled |>.
Definition WithIOUring (enabled : bool) : Opt := λ c, c <| enableIOUring := enabled |>.
Definition WithFEC (groupSize : Z) : Opt := λ c,
  if groupSize <=? 0 then c <| fecGroup := 0 |>
  else if groupSize <? 2 then c <| fecGroup := 2 |>
  else if groupSize >? 32 then c <| fecGroup := 32 |>
  else c <| fecGroup := groupSize |>.
Definition WithFEC2D (enabled : bool) : Opt := λ c, c <| fec2D := enabled |>.
Definition WithPacingRate (bytesPerSec : Z) : Opt := λ c,
  let bytesPerSec := if bytesPerSec <? 0 then 0 else bytesPerSec in
  c <| paceRate := bytesPerSec |> <| wirePacer := None |>.
Definition WithPacingAccounting (accounting : WireAccounting) : Opt := λ c,
  c <| paceAccounting := accounting |>.
Definition WithPacingBurstBytes (bytes : Z) : Opt := λ c, c <| paceBurst := bytes |>.
Definition WithWirePacer (pacer : option positive) : Opt := λ c,
  c <| wirePacer := pacer |> <| paceRate := 0 |>.
Definition WithSocketOptions (fn : option positive) : Opt := λ c, c <| socketOpts := fn |>.

(** the options the package exports *)
Inductive is_option : Opt → Prop :=
| o_MaxStreams n : is_option (WithMaxStreams n)
| o_StreamBufferSize n : is_option (WithStreamBufferSize n)
| o_RecvBufferSize n : is_option (WithRecvBufferSize n)
| o_SendBufferSize n : is_option (WithSendBufferSize n)
| o_BatchSize n : is_option (WithBatchSize n)
| o_HandshakeTimeout d : is_option (WithHandshakeTimeout d)
| o_KeepAlive d : is_option (WithKeepAlive d)
| o_IdleTimeout d : is_option (WithIdleTimeout d)
| o_MaxDatagramSize n : is_option (WithMaxDatagramSize n)
| o_BindToDevice i : is_option (WithBindToDevice i)
| o_RetransmitTimeout d : is_option (WithRetransmitTimeout d)
| o_MinRetransmitTimeout d : is_option (WithMinRetransmitTimeout d)
| o_MaxBytesInFlight n : is_option (WithMaxBytesInFlight n)
| o_GSO b : is_option (WithGSO b)
| o_IOUring b : is_option (WithIOUring b)
| o_FEC n : is_option (WithFEC n)
| o_FEC2D b : is_option (WithFEC2D b)
| o_PacingRate n : is_option (WithPacingRate n)
| o_PacingAccounting a : is_option (WithPacingAccounting a)
| o_PacingBurstBytes n : is_option (WithPacingBurstBytes n)
| o_WirePacer p : is_option (WithWirePacer p)
| o_SocketOptions fn : is_option (WithSocketOptions fn).

(** [cfg := defaultConfig(); for _, o := range opts { o(&cfg) }] *)
Definition applyOptions (opts : list Opt) : config := foldl (λ c o, o c) defaultConfig opts.

(** ** What the rest of the package relies on *)
Record config_wf (c : config) : Prop := mkConfigWf {
  cw_payload : 12 ≤ c.(maxPayload);
  cw_fec : c.(fecGroup) = 0 ∨ 2 ≤ c.(fecGroup) ≤ 32;
  cw_minRTO : 0 < c.(minRetransmitTmout);
  cw_pace : 0 ≤ c.(paceRate);
}.

Lemma defaultConfig_wf : config_wf defaultConfig.
Proof. split; [by vm_compute|right; by vm_compute|by vm_compute..]. Qed.

Lemma is_option_wf o c : is_option o → config_wf c → config_wf (o c).
Proof.
  intros Ho [H1 H2 H3 H4]. destruct Ho; split; simpl; try done;
    unfold WithMaxDatagramSize, WithMinRetransmitTimeout, WithFEC, WithPacingRate, frameHeaderSize;
    repeat case_bool_decide; simpl; try done; lia.
Qed.

(** Whatever options are given, in whatever order, the resulting
    configuration leaves room for a data byte in every DATA frame and for a
    sequence number in every ACK and NACK frame, has a parity group size the
    32-bit member masks can hold, a positive retransmission floor and a
    non-negative pacing rate. *)
Theorem applyOptions_wf (opts : list Opt) :
  Forall is_option opts →
  config_wf (applyOptions opts)
  ∧ 8 ≤ dataCap (applyOptions opts)
  ∧ 1 ≤ maxAckSeqsPerFrame (maxPayload (applyOptions opts)).
Proof.
  intros Hopts. assert (Hwf : config_wf (applyOptions opts)).
  { unfold applyOptions. generalize defaultConfig_wf. generalize defaultConfig.
    induction Hopts as [|o opts Ho _ IH]; intros c Hc; [done|]. by apply IH, is_option_wf. }
  split; [done|]. destruct Hwf. unfold dataCap, maxAckSeqsPerFrame, fecMetaLen.
  split; [case_bool_decide; lia|]. Z.to_euclidean_division_equations; lia.
Qed.

Lemma applyOptions_wf_witness :
  8 ≤ dataCap (applyOptions [WithMaxDatagramSize 25; WithFEC 100; WithMaxDatagramSize 24]).
Proof.
  apply (applyOptions_wf [WithMaxDatagramSize 25; WithFEC 100; WithMaxDatagramSize 24]).
  repeat constructor.
Defined.

(** Pacer ownership.  A legacy [WithPacingRate] rate is materialised as a
    fresh pacer of that rate for each connection, distinct from every pacer
    in existence; an explicitly supplied pacer is shared as it is, and with
    neither the connection stays unpaced. *)
Theorem ensureWirePacer_ownership (store store' : gmap positive WirePacer) (now : Z) (c c' : config) :
  ensureWirePacer store now c = (store', c') →
  match c.(wirePacer) with
  | Some l => store' = store ∧ c' = c
  | None =>
      if c.(paceRate) <=? 0 then store' = store ∧ c'.(wirePacer) = None
      else ∃ l p, c'.(wirePacer) = Some l ∧ store !! l = None ∧ store' = <[l := p]> store
             ∧ p.(rate) = c.(paceRate) ∧ p.(tokens) = p.(burstBytes) ∧ 1 ≤ p.(burstBytes)
             ∧ (0 < c.(paceBurst) → p.(burstBytes) = c.(paceBurst))
  end.
Proof.
  unfold ensureWirePacer, NewWirePacer. cbn [RateBytesPerSecond BurstBytes Accounting].
  destruct (wirePacer c) as [l|] eqn:E; cbn [orb bool_decide].
  { rewrite bool_decide_true by done. by intros [= <- <-]. }
  rewrite bool_decide_false by naive_solver. cbn [orb].
  case_bool_decide; [intros [= <- <-]; by rewrite E|].
  generalize (Z.quot (i64 (paceRate c * defaultPacingBurst)) Second). intros d.
  intros [= <- <-]. cbn [wirePacer put]. eexists _, _. split; [done|]. split.
  { apply not_elem_of_dom, is_fresh. }
  split; [done|]. simpl. repeat case_bool_decide; lia.
Qed.

Lemma ensureWirePacer_ownership_witness :
  let c := WithPacingBurstBytes 4096 (WithPacingRate 1000000 defaultConfig) in
  let '(store', c') := ensureWirePacer {[1%positive := witness_pacer]} 9 c in
  ∃ l p, c'.(wirePacer) = Some l ∧ ({[1%positive := witness_pacer]} : gmap _ _) !! l = None
     ∧ store' = <[l := p]> {[1%positive := witness_pacer]}
     ∧ p.(rate) = c.(paceRate) ∧ p.(tokens) = p.(burstBytes) ∧ 1 ≤ p.(burstBytes)
     ∧ (0 < c.(paceBurst) → p.(burstBytes) = c.(paceBurst)).
Proof.
  apply (ensureWirePacer_ownership {[1%positive := witness_pacer]} _ 9
           (WithPacingBurstBytes 4096 (WithPacingRate 1000000 defaultConfig)) _ eq_refl).
Defined.
