(* ===== verification/Ring.v ===== *)
(** * The receive ring of a stream ([stream.go], ring buffer section)

    [readBuf], [readHead], [readTail] and [readLen] with the four operations
    on them, their invariant, and the proof that they implement a bounded
    byte queue ([ring_refines_queue]).  The receive path of a stream is
    proved from [ringWrite_spec], [ringRead_spec] and
    [reallocRingLocked_spec] alone. *)
From S2P Require Import Prelude.

Record ring := mkRing {
  readBuf : list Z;
  readHead : Z;
  readTail : Z;
  readLen : Z;
}.
#[export] Instance eta_ring : Eta ring :=
  λ r, mkRing (readBuf r) (readHead r) (readTail r) (readLen r).

Definition ringCap (r : ring) : Z := Zlen r.(readBuf).

(** [make([]byte, n)] with nothing buffered *)
Definition newRing (n : Z) : ring := mkRing (replicate (Z.to_nat n) 0) 0 0 0.

Definition ringFitsLocked (r : ring) (n : Z) : bool := r.(readLen) + n <=? Zlen r.(readBuf).

Definition ringWrite (r : ring) (data : list Z) : ring :=
  let cap_ := Zlen r.(readBuf) in
  let n := Zlen data in
  let end_ := r.(readTail) + n in
  let buf :=
    if end_ <=? cap_ then copy_at r.(readBuf) r.(readTail) data
    else
      let first := cap_ - r.(readTail) in
      let buf := copy_at r.(readBuf) r.(readTail) (slice data 0 first) in
      copy_at buf 0 (slice data first n) in
  r <| readBuf := buf |>
    <| readTail := (r.(readTail) + n) `mod` cap_ |>
    <| readLen := r.(readLen) + n |>.

(** [ringRead(p)] with [len(p) = plen]: the bytes copied into [p] *)
Definition ringRead (r : ring) (plen : Z) : ring * list Z :=
  let cap_ := Zlen r.(readBuf) in
  let n := if plen >? r.(readLen) then r.(readLen) else plen in
  let end_ := r.(readHead) + n in
  let out :=
    if end_ <=? cap_ then slice r.(readBuf) r.(readHead) end_
    else slice r.(readBuf) r.(readHead) cap_ ++ slice r.(readBuf) 0 (end_ - cap_) in
  (r <| readHead := (r.(readHead) + n) `mod` cap_ |> <| readLen := r.(readLen) - n |>, out).

Definition reallocRingLocked (r : ring) (newCap : Z) : ring :=
  let nb := replicate (Z.to_nat newCap) 0 in
  let '(_, out) := ringRead r r.(readLen) in
  let n := Zlen out in
  mkRing (copy_at nb 0 out) 0 (n `mod` newCap) n.

(** ** Invariant and contents *)
Record ring_wf (r : ring) : Prop := mkRingWf {
  rw_cap : 0 < ringCap r;
  rw_head : 0 ≤ r.(readHead) < ringCap r;
  rw_len : 0 ≤ r.(readLen) ≤ ringCap r;
  rw_tail : r.(readTail) = (r.(readHead) + r.(readLen)) `mod` ringCap r;
}.

(** the buffered bytes, oldest first *)
Definition contents (r : ring) : list Z :=
  let cap_ := ringCap r in
  let end_ := r.(readHead) + r.(readLen) in
  if end_ <=? cap_ then slice r.(readBuf) r.(readHead) end_
  else slice r.(readBuf) r.(readHead) cap_ ++ slice r.(readBuf) 0 (end_ - cap_).

(** [(h + n) mod cap] for one lap *)
Lemma lap_mod h n cap : 0 ≤ h + n < 2 * cap →
  (h + n) `mod` cap = if h + n <? cap then h + n else h + n - cap.
Proof.
  intros. case_bool_decide; [by apply Z.mod_small; lia|].
  symmetry. apply (Z.mod_unique_pos _ _ 1); lia.
Qed.

Lemma Zlen_contents r : ring_wf r → Zlen (contents r) = r.(readLen).
Proof.
  intros [H1 H2 H3 _]. unfold contents, ringCap in *. case_bool_decide.
  - rewrite Zlen_slice; lia.
  - rewrite Zlen_app, !Zlen_slice; lia.
Qed.

Lemma newRing_wf n : 0 < n → ring_wf (newRing n) ∧ contents (newRing n) = [] ∧ ringCap (newRing n) = n.
Proof.
  intros. assert (ringCap (newRing n) = n) as Hc by (apply Zlen_replicate; lia).
  assert (ring_wf (newRing n)) as Hwf.
  { split; rewrite ?Hc; simpl; try lia. by rewrite Z.mod_0_l by lia. }
  split_and!; [done| |done]. apply Zlen_0. by rewrite Zlen_contents.
Qed.

(** ** Copies into a list that is read as a ring

    [b] is the buffer, [h] the head, [l] the buffered length, [d] the bytes
    written behind them. *)
Lemma write_flat (b d : list Z) h l :
  0 ≤ h → 0 ≤ l → h + l + Zlen d ≤ Zlen b →
  slice (copy_at b (h + l) d) h (h + l + Zlen d) = slice b h (h + l) ++ d.
Proof.
  intros. pose proof (Zlen_nonneg d). rewrite (slice_split _ _ (h + l)) by lia.
  by rewrite slice_copy_at_before, slice_copy_at_in by lia.
Qed.

Lemma write_wraps (b d : list Z) h l :
  0 ≤ h → 0 ≤ l → h + l ≤ Zlen b → Zlen b < h + l + Zlen d → l + Zlen d ≤ Zlen b →
  let first := Zlen b - (h + l) in
  let b2 := copy_at (copy_at b (h + l) (slice d 0 first)) 0 (slice d first (Zlen d)) in
  slice b2 h (Zlen b) ++ slice b2 0 (h + l + Zlen d - Zlen b) = slice b h (h + l) ++ d.
Proof.
  intros. set (d1 := slice d 0 first) in *. set (d2 := slice d first (Zlen d)) in *.
  assert (Zlen d1 = first) by (unfold d1, first; rewrite Zlen_slice; lia).
  assert (Zlen d2 = Zlen d - first) by (unfold d2, first; rewrite Zlen_slice; lia).
  assert (d = d1 ++ d2) as Hd.
  { unfold d1, d2. rewrite <- slice_split by (unfold first; lia). by rewrite slice_all. }
  set (b1 := copy_at b (h + l) d1) in *.
  assert (Zlen b1 = Zlen b) by (unfold b1; rewrite Zlen_copy_at; lia).
  unfold b2. rewrite slice_copy_at_after by (unfold first in *; lia).
  replace (h + l + Zlen d - Zlen b) with (0 + Zlen d2) by (unfold first in *; lia).
  rewrite slice_copy_at_in by (unfold first in *; lia).
  replace (Zlen b) with (h + l + Zlen d1) by (unfold first in *; lia).
  unfold b1. rewrite write_flat by (unfold first in *; lia). by rewrite <- app_assoc, <- Hd.
Qed.

Lemma write_wrapped (b d : list Z) h t :
  0 ≤ t → t + Zlen d ≤ h → h ≤ Zlen b →
  slice (copy_at b t d) h (Zlen b) ++ slice (copy_at b t d) 0 (t + Zlen d)
  = (slice b h (Zlen b) ++ slice b 0 t) ++ d.
Proof.
  intros. pose proof (Zlen_nonneg d). rewrite slice_copy_at_after by lia.
  pose proof (write_flat b d 0 t) as Hf. rewrite !Z.add_0_l in Hf.
  rewrite Hf by lia. by rewrite app_assoc.
Qed.

Lemma Zlen_ringWrite_buf r data :
  0 ≤ r.(readTail) ≤ ringCap r → ringCap (ringWrite r data) = ringCap r.
Proof.
  intros. unfold ringCap, ringWrite in *. simpl. case_bool_decide; rewrite !Zlen_copy_at; try done.
  rewrite Zlen_copy_at; lia.
Qed.

(** Writing what fits appends it and keeps the ring well formed. *)
Lemma ringWrite_spec r data :
  ring_wf r → ringFitsLocked r (Zlen data) = true →
  ring_wf (ringWrite r data)
  ∧ contents (ringWrite r data) = contents r ++ data
  ∧ ringCap (ringWrite r data) = ringCap r.
Proof.
  intros [Hcap Hh Hl Ht] Hfit. unfold ringFitsLocked in Hfit. bool_simpl.
  pose proof (Zlen_nonneg data) as Hn. fold (ringCap r) in Hfit.
  assert (0 ≤ readTail r < ringCap r) as Htb by (rewrite Ht; apply Z.mod_pos_bound; lia).
  assert (Hlen : ringCap (ringWrite r data) = ringCap r) by (apply Zlen_ringWrite_buf; lia).
  split_and!; [|unfold contents; rewrite Hlen|done].
  { split; rewrite ?Hlen; unfold ringWrite; simpl; try lia.
    fold (ringCap r). rewrite Ht, Z.add_mod_idemp_l by lia. f_equal. lia. }
  rewrite lap_mod in Ht by lia. unfold ringWrite. fold (ringCap r). simpl. unfold ringCap in *.
  replace (readHead r + (readLen r + Zlen data)) with (readHead r + readLen r + Zlen data) by lia.
  destruct (decide (readHead r + readLen r < Zlen (readBuf r))) as [Hlt|Hge];
    [rewrite (bool_decide_true (_ < _)) in Ht by done; rewrite Ht, (bool_decide_true (_ + readLen r ≤ _)) by lia
    |rewrite (bool_decide_false (_ < _)) in Ht by done].
  - case_bool_decide; [apply write_flat; lia|apply write_wraps; lia].
  - rewrite (bool_decide_true (readTail r + _ ≤ _)) by lia.
    destruct (decide (readHead r + readLen r + Zlen data ≤ Zlen (readBuf r))).
    + assert (Zlen data = 0) as E0 by lia. rewrite !bool_decide_true by lia.
      apply Zlen_0 in E0 as ->. rewrite app_nil_r, Zlen_nil, Z.add_0_r.
      rewrite slice_copy_at_after by (rewrite ?Zlen_nil; lia). done.
    + rewrite bool_decide_false by lia.
      replace (readHead r + readLen r + Zlen data - Zlen (readBuf r)) with (readTail r + Zlen data) by lia.
      rewrite write_wrapped by lia. f_equal. case_bool_decide; [|by rewrite Ht].
      replace (readTail r) with 0 by lia.
      replace (readHead r + readLen r) with (Zlen (readBuf r)) by lia. by rewrite slice_nil, app_nil_r.
Qed.

(** The bytes [slice]d from a ring starting at [h], as if it were unrolled. *)
Definition unroll (b : list Z) (h n : Z) : list Z :=
  if h + n <=? Zlen b then slice b h (h + n)
  else slice b h (Zlen b) ++ slice b 0 (h + n - Zlen b).

Lemma unroll_split b h m n :
  0 < Zlen b → 0 ≤ h < Zlen b → 0 ≤ m → 0 ≤ n → m + n ≤ Zlen b →
  unroll b h (m + n) = unroll b h m ++ unroll b ((h + m) `mod` Zlen b) n.
Proof.
  intros Hc Hh Hm Hn Hmn. rewrite lap_mod by lia. unfold unroll.
  replace (h + (m + n)) with (h + m + n) by lia.
  destruct (decide (h + m < Zlen b)).
  - rewrite (bool_decide_true (h + m < _)), (bool_decide_true (h + m ≤ _)) by lia.
    case_bool_decide; [by apply slice_split; lia|].
    rewrite (slice_split _ h (h + m)) by lia. by rewrite <- app_assoc.
  - rewrite (bool_decide_false (h + m < _)) by lia.
    rewrite (bool_decide_true (h + m - _ + n ≤ _)) by lia.
    replace (h + m - Zlen b + n) with (h + m + n - Zlen b) by lia.
    destruct (decide (h + m = Zlen b)) as [E|].
    + rewrite (bool_decide_true (h + m ≤ _)), E, Z.sub_diag by lia.
      case_bool_decide; [|done].
      assert (n = 0) as -> by lia. rewrite Z.add_0_r, Z.sub_diag, slice_nil, app_nil_r. done.
    + rewrite !bool_decide_false by lia. rewrite <- app_assoc, <- slice_split by lia. done.
Qed.

Lemma Zlen_unroll b h n : 0 ≤ h ≤ Zlen b → 0 ≤ n ≤ Zlen b → Zlen (unroll b h n) = n.
Proof. intros. unfold unroll. case_bool_decide; rewrite ?Zlen_app, !Zlen_slice; lia. Qed.

Lemma ringRead_unroll r plen :
  ringRead r plen =
    let n := Z.min plen r.(readLen) in
    (r <| readHead := (r.(readHead) + n) `mod` ringCap r |> <| readLen := r.(readLen) - n |>,
     unroll r.(readBuf) r.(readHead) n).
Proof.
  unfold ringRead. replace (if plen >? readLen r then readLen r else plen)
    with (Z.min plen (readLen r)) by (case_bool_decide; lia). done.
Qed.

(** Reading takes a prefix of the contents and keeps the ring well formed. *)
Lemma ringRead_spec r plen r' out :
  ring_wf r → 0 ≤ plen → ringRead r plen = (r', out) →
  ring_wf r' ∧ contents r = out ++ contents r' ∧ Zlen out = Z.min plen r.(readLen)
  ∧ ringCap r' = ringCap r ∧ r'.(readLen) = r.(readLen) - Zlen out.
Proof.
  intros [H1 H2 H3 H4] Hp. rewrite ringRead_unroll. cbv zeta.
  set (n := Z.min plen (readLen r)). intros [= <- <-]. unfold ringCap in *.
  rewrite Zlen_unroll by lia. split_and!; try done.
  - split; unfold ringCap; simpl; try lia; [apply Z.mod_pos_bound; lia|].
    rewrite H4, Z.add_mod_idemp_l by lia. f_equal. lia.
  - change (contents r) with (unroll (readBuf r) (readHead r) (readLen r)).
    replace (readLen r) with (n + (readLen r - n)) at 1 by lia.
    rewrite unroll_split by lia. done.
Qed.

(** Reallocation keeps the contents. *)
Lemma reallocRingLocked_spec r newCap :
  ring_wf r → 0 < newCap → r.(readLen) ≤ newCap →
  ring_wf (reallocRingLocked r newCap)
  ∧ contents (reallocRingLocked r newCap) = contents r
  ∧ ringCap (reallocRingLocked r newCap) = newCap
  ∧ (reallocRingLocked r newCap).(readLen) = r.(readLen).
Proof.
  intros Hwf Hn Hl. unfold reallocRingLocked.
  destruct (ringRead r (readLen r)) as [r' out] eqn:E.
  destruct (ringRead_spec _ _ _ _ Hwf (proj1 (rw_len _ Hwf)) E) as (_ & Hc & Ho & _ & Hl').
  rewrite Z.min_id in Ho. pose proof (Zlen_contents _ Hwf) as Hcl.
  assert (contents r' = []) as Hnil.
  { apply Zlen_0. apply (f_equal Zlen) in Hc. rewrite Zlen_app in Hc. lia. }
  rewrite Hnil, app_nil_r in Hc. subst out.
  assert (Hbuf : Zlen (copy_at (replicate (Z.to_nat newCap) 0) 0 (contents r)) = newCap).
  { rewrite Zlen_copy_at; rewrite Zlen_replicate; lia. }
  destruct Hwf as [? ? ? ?]. split_and!; try done; try lia.
  - split; unfold ringCap; simpl; rewrite ?Hbuf; try lia; done.
  - unfold contents at 1, ringCap. simpl. rewrite Hbuf, Ho, bool_decide_true by lia.
    rewrite <- Ho. replace (Zlen (contents r)) with (0 + Zlen (contents r)) at 1 by lia.
    apply slice_copy_at_in; [lia|]. rewrite Zlen_replicate; lia.
Qed.

(** ** Refinement of a bounded byte queue *)
Inductive ring_op :=
| RWrite (data : list Z)
| RRead (plen : Z)
| RRealloc (newCap : Z).

(** An operation is refused where the callers never issue it: a write that
    does not fit, a read into a buffer of negative length, a reallocation
    below the buffered length. *)
Definition ring_step (r : ring) (op : ring_op) : option (ring * list Z) :=
  match op with
  | RWrite d => if ringFitsLocked r (Zlen d) then Some (ringWrite r d, []) else None
  | RRead n => if n >=? 0 then Some (ringRead r n) else None
  | RRealloc c => if (c >? 0) && (r.(readLen) <=? c) then Some (reallocRingLocked r c, []) else None
  end.

(** the specification: a capacity and the queued bytes *)
Definition queue_step (q : Z * list Z) (op : ring_op) : option ((Z * list Z) * list Z) :=
  let '(cap, l) := q in
  match op with
  | RWrite d => if Zlen l + Zlen d <=? cap then Some ((cap, l ++ d), []) else None
  | RRead n => if n >=? 0 then Some ((cap, drop (Z.to_nat n) l), take (Z.to_nat n) l) else None
  | RRealloc c => if (c >? 0) && (Zlen l <=? c) then Some ((c, l), []) else None
  end.

Fixpoint run_ops {S} (step : S → ring_op → option (S * list Z)) (s : S) (ops : list ring_op)
    : option (S * list (list Z)) :=
  match ops with
  | [] => Some (s, [])
  | op :: ops =>
      '(s, out) ← step s op;
      '(s, outs) ← run_ops step s ops;
      Some (s, out :: outs)
  end.

Definition ring_abs (r : ring) : Z * list Z := (ringCap r, contents r).

Lemma ring_step_sim r op :
  ring_wf r →
  match ring_step r op with
  | Some (r', out) => ring_wf r' ∧ queue_step (ring_abs r) op = Some (ring_abs r', out)
  | None => queue_step (ring_abs r) op = None
  end.
Proof.
  intros Hwf. pose proof (Zlen_contents r Hwf) as Hl.
  destruct op as [d|n|c]; simpl; rewrite ?Hl.
  - destruct (ringFitsLocked r (Zlen d)) eqn:E.
    + destruct (ringWrite_spec r d Hwf E) as (? & Hc & Hcap). split; [done|].
      unfold ringFitsLocked in E. fold (ringCap r) in E. rewrite E. unfold ring_abs. by rewrite Hc, Hcap.
    + unfold ringFitsLocked in E. fold (ringCap r) in E. by rewrite E.
  - case_bool_decide as Hn; [|done]. destruct (ringRead r n) as [r' out] eqn:E.
    destruct (ringRead_spec _ _ _ _ Hwf Hn E) as (? & Hc & Ho & Hcap & Hl'). split; [done|].
    unfold ring_abs. rewrite Hcap, Hc.
    destruct (decide (n ≤ readLen r)).
    + assert (Z.to_nat n = length out) as -> by (unfold Zlen in *; lia).
      by rewrite drop_app_length, take_app_length.
    + assert (contents r' = []) as ->.
      { apply Zlen_0. apply (f_equal Zlen) in Hc. rewrite Zlen_app in Hc. lia. }
      rewrite app_nil_r, take_ge, drop_ge by (unfold Zlen in *; lia). done.
  - destruct (_ && _) eqn:E; [|done]. bool_simpl.
    destruct (reallocRingLocked_spec r c Hwf ltac:(lia) ltac:(lia)) as (? & Hc & Hcap & _).
    split; [done|]. unfold ring_abs. by rewrite Hc, Hcap.
Qed.

(** C38: The receive ring is a bounded FIFO byte queue: for every sequence of
    writes, reads and growths issued on a new ring of [n] bytes, it accepts
    and refuses exactly what the queue of capacity [n] does and every read
    returns the same bytes, in the order they were written — across
    wrap-around of both the buffered data and the copies. *)
Theorem ring_refines_queue (n : Z) (ops : list ring_op) :
  0 < n →
  match run_ops ring_step (newRing n) ops with
  | Some (r, outs) => ring_wf r ∧ run_ops queue_step (n, []) ops = Some (ring_abs r, outs)
  | None => run_ops queue_step (n, []) ops = None
  end.
Proof.
  intros Hn. destruct (newRing_wf n Hn) as (Hwf & Hc & Hcap).
  assert ((n, []) = ring_abs (newRing n)) as -> by (unfold ring_abs; by rewrite Hc, Hcap).
  clear Hc Hcap. generalize dependent (newRing n). clear Hn.
  induction ops as [|op ops IH]; intros r Hwf; cbn [run_ops]; [done|].
  pose proof (ring_step_sim r op Hwf) as Hs.
  destruct (ring_step r op) as [[r' out]|].
  - destruct Hs as [Hwf' ->]. cbn [mbind option_bind]. specialize (IH r' Hwf').
    destruct (run_ops ring_step r' ops) as [[r'' outs]|]; cbn [mbind option_bind].
    + destruct IH as [? ->]. done.
    + by rewrite IH.
  - by rewrite Hs.
Qed.

Lemma ring_refines_queue_witness :
  let ops := [RWrite [1; 2; 3]; RRead 2; RWrite [4; 5; 6]; RRealloc 7; RRead 9] in
  snd <$> run_ops ring_step (newRing 4) ops = Some [[]; [1; 2]; []; []; [3; 4; 5; 6]]
  ∧ match run_ops ring_step (newRing 4) ops with
    | Some (r, outs) => ring_wf r ∧ run_ops queue_step (4, []) ops = Some (ring_abs r, outs)
    | None => run_ops queue_step (4, []) ops = None
    end.
Proof.
  split; [vm_compute; reflexivity|].
  apply (ring_refines_queue 4 [RWrite [1; 2; 3]; RRead 2; RWrite [4; 5; 6]; RRealloc 7; RRead 9]).
  reflexivity.
Defined.
