(* ===== verification/Retransmit.v ===== *)
(** * The retransmission queue ([retransmit.go])

    Entries live in a heap of nodes addressed by pointers and threaded on an
    intrusive doubly linked list, as in the source; payload bytes live in
    buffers with an identity, so that sharing and reuse of a buffer are
    visible: the arena hands out slots of [slotSize] bytes, a removed entry's
    slot waits in [pendingFree], and [drainPendingFree] makes it available
    again.  Pointers and buffer identities are positives taken from counters. *)
From S2P Require Import Prelude Errors Frame.

(** ** Buffers and the arena *)

(** a Go slice [b[:len]] of the buffer [b] *)
Record bslice := mkSlice { sl_buf : positive; sl_len : Z }.
#[export] Instance bslice_eq_dec : EqDecision bslice.
Proof. solve_decision. Defined.

(** [mem] is the memory of all payload buffers; a buffer's length is the
    capacity of the slices of it. *)
Record retransmitArena := mkArena {
  slotSize : Z;
  growBy : nat;
  free : list positive;
  mem : gmap positive (list Z);
  memNext : positive;
}.
#[export] Instance eta_arena : Eta retransmitArena :=
  λ a, mkArena (slotSize a) (growBy a) (free a) (mem a) (memNext a).

Definition newRetransmitArena (slotSize : Z) : retransmitArena := mkArena slotSize 128 [] ∅ 1.

(** [make([]byte, n)] *)
Definition arena_make (a : retransmitArena) (n : Z) : retransmitArena * positive :=
  (a <| mem := <[a.(memNext) := replicate (Z.to_nat n) 0]> a.(mem) |>
     <| memNext := Pos.succ a.(memNext) |>, a.(memNext)).

(** the slots of [grow]'s one backing allocation *)
Fixpoint arena_grow_loop (i : nat) (a : retransmitArena) : retransmitArena :=
  match i with
  | O => a
  | S i =>
      let '(a, b) := arena_make a a.(slotSize) in
      arena_grow_loop i (a <| free := a.(free) ++ [b] |>)
  end.
Definition arena_grow (a : retransmitArena) : retransmitArena := arena_grow_loop a.(growBy) a.

Definition arena_get (a : retransmitArena) (n : Z) : retransmitArena * bslice :=
  if n >? a.(slotSize) then let '(a, b) := arena_make a n in (a, mkSlice b n)
  else
    let a := if bool_decide (a.(free) = []) then arena_grow a else a in
    match reverse a.(free) with
    | [] => (a, mkSlice a.(memNext) n)  (* [growBy = 0]: excluded by [arena_wf] *)
    | b :: rest => (a <| free := reverse rest |>, mkSlice b n)
    end.

Definition arena_cap (a : retransmitArena) (s : bslice) : Z :=
  Zlen (default [] (a.(mem) !! s.(sl_buf))).

Definition arena_put (a : retransmitArena) (s : bslice) : retransmitArena :=
  if negb (arena_cap a s =? a.(slotSize)) then a
  else a <| free := a.(free) ++ [s.(sl_buf)] |>.

(** the bytes of a slice, and [copy(s, bytes)] *)
Definition slice_bytes (a : retransmitArena) (s : bslice) : list Z :=
  take (Z.to_nat s.(sl_len)) (default [] (a.(mem) !! s.(sl_buf))).
Definition slice_copy (a : retransmitArena) (s : bslice) (bytes : list Z) : retransmitArena :=
  a <| mem := alter (λ b, copy_at b 0 (take (Z.to_nat s.(sl_len)) bytes)) s.(sl_buf) a.(mem) |>.

(** ** Entries and the queue *)
Record retransmitEntry := mkEntry {
  e_ftype : Z;
  e_streamID : Z;
  e_seq : Z;
  e_data : option bslice;
  e_sentAt : Z;
  e_retries : Z;
  e_queued : bool;
  e_prev : option positive;
  e_next : option positive;
}.
#[export] Instance eta_entry : Eta retransmitEntry :=
  λ e, mkEntry (e_ftype e) (e_streamID e) (e_seq e) (e_data e) (e_sentAt e) (e_retries e)
         (e_queued e) (e_prev e) (e_next e).
Definition zeroEntry : retransmitEntry := mkEntry 0 0 0 None 0 0 false None None.

Record retransmitRequest := mkRequest { req_streamID : Z; req_seq : Z }.
#[export] Instance retransmitRequest_eq_dec : EqDecision retransmitRequest.
Proof. solve_decision. Defined.

Record retransmitQueue := mkQueue {
  entries : gmap Z positive;
  nodes : gmap positive retransmitEntry;
  nodesNext : positive;
  q_head : option positive;
  q_tail : option positive;
  freeEntries : list positive;
  arena : retransmitArena;
  pendingFree : list bslice;
  ackedThrough : gmap Z Z;
}.
#[export] Instance eta_queue : Eta retransmitQueue :=
  λ q, mkQueue (entries q) (nodes q) (nodesNext q) (q_head q) (q_tail q) (freeEntries q)
         (arena q) (pendingFree q) (ackedThrough q).

Definition newRetransmitQueue (maxPayload : Z) : retransmitQueue :=
  mkQueue ∅ ∅ 1 None None [] (newRetransmitArena maxPayload) [] ∅.

Definition retransmitKey (streamID seq : Z) : Z := Z.lor (Z.shiftl streamID 32) seq.

(** [*p] and [p.f = v] *)
Definition node (q : retransmitQueue) (p : positive) : retransmitEntry :=
  default zeroEntry (q.(nodes) !! p).
Definition set_node (q : retransmitQueue) (p : positive) (f : retransmitEntry → retransmitEntry)
    : retransmitQueue := q <| nodes := alter f p q.(nodes) |>.

Definition getEntry (q : retransmitQueue) : retransmitQueue * positive :=
  match reverse q.(freeEntries) with
  | e :: rest => (q <| freeEntries := reverse rest |>, e)
  | [] => (q <| nodes := <[q.(nodesNext) := zeroEntry]> q.(nodes) |>
             <| nodesNext := Pos.succ q.(nodesNext) |>, q.(nodesNext))
  end.

Definition pushTail (q : retransmitQueue) (e : positive) : retransmitQueue :=
  let q := set_node q e (λ x, x <| e_next := None |> <| e_prev := q.(q_tail) |>) in
  let q := match q.(q_tail) with
           | Some t => set_node q t (λ x, x <| e_next := Some e |>)
           | None => q <| q_head := Some e |>
           end in
  q <| q_tail := Some e |>.

Definition unlink (q : retransmitQueue) (e : positive) : retransmitQueue :=
  let q := match (node q e).(e_prev) with
           | Some p => set_node q p (λ x, x <| e_next := (node q e).(e_next) |>)
           | None => q <| q_head := (node q e).(e_next) |>
           end in
  let q := match (node q e).(e_next) with
           | Some n => set_node q n (λ x, x <| e_prev := (node q e).(e_prev) |>)
           | None => q <| q_tail := (node q e).(e_prev) |>
           end in
  set_node q e (λ x, x <| e_prev := None |> <| e_next := None |>).

(** [append(q.pendingFree, e.data)]; a nil slice is never stored there. *)
Definition removeLocked (q : retransmitQueue) (key : Z) (e : positive) : retransmitQueue :=
  let q := unlink q e in
  let q := q <| pendingFree := q.(pendingFree) ++ option_list (node q e).(e_data) |> in
  let q := set_node q e (λ x, x <| e_data := None |>) in
  let q := q <| freeEntries := q.(freeEntries) ++ [e] |> in
  q <| entries := delete key q.(entries) |>.

Definition add (q : retransmitQueue) (ftype streamID seq : Z) (payload : list Z) (now : Z)
    : retransmitQueue * bslice :=
  let '(a, data) := arena_get q.(arena) (Zlen payload) in
  let a := slice_copy a data payload in
  let q := q <| arena := a |> in
  let '(q, e) := getEntry q in
  let q := set_node q e (λ x, x <| e_ftype := ftype |> <| e_streamID := streamID |>
                                <| e_seq := seq |> <| e_data := Some data |>
                                <| e_sentAt := now |> <| e_retries := 0 |>
                                <| e_queued := false |>) in
  let q := q <| entries := <[retransmitKey streamID seq := e]> q.(entries) |> in
  (pushTail q e, data).

Definition hasStream (q : retransmitQueue) (streamID : Z) : bool :=
  existsb (λ '(_, e), (node q e).(e_streamID) =? streamID) (map_to_list q.(entries)).

Definition ackOne (q : retransmitQueue) (streamID seq : Z) : retransmitQueue :=
  let key := retransmitKey streamID seq in
  match q.(entries) !! key with
  | Some e => removeLocked q key e
  | None => q
  end.

(** [len(e.data)] *)
Definition data_len (e : retransmitEntry) : Z :=
  match e.(e_data) with Some s => s.(sl_len) | None => 0 end.

(** The body shared by [ackMany] and [ackCumulative]: remove one frame if it
    is pending, adding its bytes to [freedBytes] and, when it was never
    retransmitted, its age to the minimum RTT sample. *)
Definition ackStep (q : retransmitQueue) (streamID seq now freedBytes rttSample : Z)
    : retransmitQueue * Z * Z :=
  let key := retransmitKey streamID seq in
  match q.(entries) !! key with
  | None => (q, freedBytes, rttSample)
  | Some e =>
      let freedBytes := freedBytes + data_len (node q e) in
      let rttSample :=
        if (node q e).(e_retries) =? 0 then
          let s := time_Sub now (node q e).(e_sentAt) in
          if (rttSample =? 0) || (s <? rttSample) then s else rttSample
        else rttSample in
      (removeLocked q key e, freedBytes, rttSample)
  end.

Fixpoint ackLoop (q : retransmitQueue) (streamID now : Z) (seqs : list Z)
    (freedBytes rttSample : Z) : retransmitQueue * Z * Z :=
  match seqs with
  | [] => (q, freedBytes, rttSample)
  | seq :: seqs =>
      let '(q, freedBytes, rttSample) := ackStep q streamID seq now freedBytes rttSample in
      ackLoop q streamID now seqs freedBytes rttSample
  end.

Definition ackMany (q : retransmitQueue) (streamID : Z) (seqs : list Z) (now : Z)
    : retransmitQueue * Z * Z := ackLoop q streamID now seqs 0 0.

Definition maxCumAdvance : Z := Z.shiftl 1 20.

(** [seqZ from n] is [from, from+1, ...], the loop variable of the sweep
    (which cannot wrap: it stays below [cum]). *)
Definition ackCumulative (q : retransmitQueue) (streamID cum now : Z) : retransmitQueue * Z * Z :=
  let from := default 0 (q.(ackedThrough) !! streamID) in
  if (cum <=? from) || (cum - from >? maxCumAdvance) then (q, 0, 0)
  else
    let '(q, freedBytes, rttSample) := ackLoop q streamID now (seqZ from (cum - from)) 0 0 in
    (q <| ackedThrough := <[streamID := cum]> q.(ackedThrough) |>, freedBytes, rttSample).

(** [purgeStream] ranges over the entry map, in the unspecified order of Go's
    map iteration: [order] is that order. *)
Fixpoint purgeLoop (q : retransmitQueue) (streamID : Z) (order : list (Z * positive))
    : retransmitQueue :=
  match order with
  | [] => q
  | (k, e) :: order =>
      let q := if (node q e).(e_streamID) =? streamID then removeLocked q k e else q in
      purgeLoop q streamID order
  end.
Definition purgeStream (q : retransmitQueue) (streamID : Z) (order : list (Z * positive))
    : retransmitQueue :=
  let q := purgeLoop q streamID order in
  q <| ackedThrough := delete streamID q.(ackedThrough) |>.

Definition drainPendingFree (q : retransmitQueue) : retransmitQueue :=
  q <| arena := foldl arena_put q.(arena) q.(pendingFree) |> <| pendingFree := [] |>.

Definition pendingFreeLen (q : retransmitQueue) : Z := Zlen q.(pendingFree).

Definition drainPendingFreeFirst (q : retransmitQueue) (n : Z) : retransmitQueue :=
  let n := if n >? Zlen q.(pendingFree) then Zlen q.(pendingFree) else n in
  q <| arena := foldl arena_put q.(arena) (slice q.(pendingFree) 0 n) |>
    <| pendingFree := slice q.(pendingFree) n (Zlen q.(pendingFree)) |>.

Definition requestForResend (q : retransmitQueue) (streamID seq minAge now : Z)
    : retransmitQueue * option retransmitRequest :=
  match q.(entries) !! retransmitKey streamID seq with
  | None => (q, None)
  | Some e =>
      let entry := node q e in
      if entry.(e_queued) || ((minAge >? 0) && (time_Sub now entry.(e_sentAt) <? minAge))
      then (q, None)
      else (set_node q e (λ x, x <| e_queued := true |>), Some (mkRequest streamID seq))
  end.

Definition peekForResend (q : retransmitQueue) (req : retransmitRequest) : option (Z * Z) :=
  match q.(entries) !! retransmitKey req.(req_streamID) req.(req_seq) with
  | Some e => if (node q e).(e_queued) then Some ((node q e).(e_ftype), data_len (node q e)) else None
  | None => None
  end.

(** the worker's copy: a struct copy of the entry whose data is an arena slot
    of its own *)
Definition takeForResend (q : retransmitQueue) (req : retransmitRequest) (now : Z)
    : retransmitQueue * option retransmitEntry :=
  match q.(entries) !! retransmitKey req.(req_streamID) req.(req_seq) with
  | None => (q, None)
  | Some e =>
      if negb (node q e).(e_queued) then (q, None)
      else
        let q := set_node q e (λ x, x <| e_queued := false |> <| e_sentAt := now |>
                                      <| e_retries := x.(e_retries) + 1 |>) in
        let q := unlink q e in
        let q := pushTail q e in
        let entry := node q e in
        let '(a, data) := arena_get q.(arena) (data_len entry) in
        let a := match entry.(e_data) with
                 | Some s => slice_copy a data (slice_bytes a s)
                 | None => a
                 end in
        (q <| arena := a |>,
         Some (entry <| e_prev := None |> <| e_next := None |> <| e_queued := false |>
                     <| e_data := Some data |>))
  end.

Definition releaseResendCopy (q : retransmitQueue) (data : bslice) : retransmitQueue :=
  q <| arena := arena_put q.(arena) data |>.

(** The scan from the head.  A node is visited at most once, so the number of
    nodes bounds the walk ([fuel]; [None] if it did not suffice, which
    [due_spec] excludes). *)
Fixpoint dueLoop (fuel : nat) (q : retransmitQueue) (p : option positive) (rto now : Z)
    (requests : list retransmitRequest) : option (retransmitQueue * list retransmitRequest) :=
  match p with
  | None => Some (q, requests)
  | Some e =>
      match fuel with
      | O => None
      | S fuel =>
          let x := node q e in
          if time_Sub now x.(e_sentAt) <? rto then Some (q, requests)
          else if x.(e_queued) then dueLoop fuel q x.(e_next) rto now requests
          else dueLoop fuel (set_node q e (λ x, x <| e_queued := true |>)) x.(e_next) rto now
                 (requests ++ [mkRequest x.(e_streamID) x.(e_seq)])
      end
  end.
Definition due (q : retransmitQueue) (rto now : Z)
    : option (retransmitQueue * list retransmitRequest) :=
  dueLoop (size q.(nodes)) q q.(q_head) rto now [].
