(* ===== verification/RetransmitSpec.v ===== *)
(** * Correctness of the retransmission queue

    The linked list, the entry map, the entry pool and the buffer arena of
    [Retransmit] together implement a plain list of pending frames in send
    order.  [rq_inv] is the representation invariant: which nodes are on the
    list, that the map indexes exactly those, that pools and list are
    disjoint, and that no payload buffer has two owners. *)
From S2P Require Import Prelude Errors Frame Retransmit.

(** ** Doubly linked segments *)

(** the first pointer unless it is nil *)
Definition or_else {A} (x y : option A) : option A := match x with Some _ => x | None => y end.
Notation "x ?: y" := (or_else x y) (at level 50, left associativity) : go_scope.

Section dseg.
Implicit Types (h : gmap positive retransmitEntry) (l : list positive).

(** [l] is the chain of nodes entered from [prv] and left to [nxt] *)
Fixpoint dseg h (prv : option positive) l (nxt : option positive) : Prop :=
  match l with
  | [] => True
  | p :: l' => (∃ e, h !! p = Some e ∧ e.(e_prev) = prv ∧ e.(e_next) = head l' ?: nxt)
               ∧ dseg h (Some p) l' nxt
  end.

Lemma or_else_assoc {A} (x y z : option A) : x ?: (y ?: z) = (x ?: y) ?: z.
Proof. by destruct x, y, z. Qed.
Lemma or_else_None_r {A} (x : option A) : x ?: None = x.
Proof. by destruct x. Qed.
Lemma head_app_or_else {A} (l1 l2 : list A) : head (l1 ++ l2) = head l1 ?: head l2.
Proof. destruct l1; simpl; by destruct (head l2). Qed.
Lemma last_app_or_else {A} (l1 l2 : list A) : last (l1 ++ l2) = last l2 ?: last l1.
Proof. rewrite last_app. by destruct (last l2), (last l1). Qed.

Lemma dseg_app h prv l1 l2 nxt :
  dseg h prv (l1 ++ l2) nxt ↔
  dseg h prv l1 (head l2 ?: nxt) ∧ dseg h (last l1 ?: prv) l2 nxt.
Proof.
  revert prv. induction l1 as [|p l1 IH]; intros prv; simpl.
  { tauto. }
  rewrite IH, head_app_or_else, <- or_else_assoc.
  replace (last (p :: l1) ?: prv) with (last l1 ?: Some p); [tauto|].
  rewrite last_cons. by destruct (last l1), prv.
Qed.

(** nodes outside the segment, and payload fields inside it, are irrelevant *)
Lemma dseg_ext h h' prv l nxt :
  (∀ p e, p ∈ l → h !! p = Some e → ∃ e', h' !! p = Some e' ∧
     e'.(e_prev) = e.(e_prev) ∧ e'.(e_next) = e.(e_next)) →
  dseg h prv l nxt → dseg h' prv l nxt.
Proof.
  revert prv. induction l as [|p l IH]; intros prv Hx; simpl; [done|].
  intros [(e & He & <- & Hn) Hl]. split.
  - destruct (Hx p e) as (e' & ? & ? & ?); [set_solver|done|].
    exists e'. split_and!; [done|done|congruence].
  - apply IH; [|done]. intros p' e' ?. apply Hx. set_solver.
Qed.

Lemma dseg_alter_notin h prv l nxt p f :
  p ∉ l → dseg h prv l nxt → dseg (alter f p h) prv l nxt.
Proof.
  intros Hp. apply dseg_ext. intros p' e Hin He.
  exists e. by rewrite lookup_alter_ne by set_solver.
Qed.

Lemma dseg_alter_links h prv l nxt p f :
  (∀ e, (f e).(e_prev) = e.(e_prev) ∧ (f e).(e_next) = e.(e_next)) →
  dseg h prv l nxt → dseg (alter f p h) prv l nxt.
Proof.
  intros Hf. apply dseg_ext. intros p' e Hin He.
  destruct (decide (p' = p)) as [->|].
  - exists (f e). rewrite lookup_alter_eq, He. split; [done|apply Hf].
  - exists e. by rewrite lookup_alter_ne.
Qed.

Lemma dseg_set_next h prv l t nxt nxt' f :
  t ∉ l → (∀ e, (f e).(e_prev) = e.(e_prev) ∧ (f e).(e_next) = nxt') →
  dseg h prv (l ++ [t]) nxt → dseg (alter f t h) prv (l ++ [t]) nxt'.
Proof.
  intros Ht Hf. rewrite !dseg_app. simpl.
  intros [H1 [(e & He & Hp & Hn) _]]. split.
  - by apply dseg_alter_notin.
  - split; [|done]. exists (f e). rewrite lookup_alter_eq, He.
    destruct (Hf e) as [-> ->]. naive_solver.
Qed.

Lemma dseg_set_prev h prv p l nxt prv' f :
  p ∉ l → (∀ e, (f e).(e_next) = e.(e_next) ∧ (f e).(e_prev) = prv') →
  dseg h prv (p :: l) nxt → dseg (alter f p h) prv' (p :: l) nxt.
Proof.
  intros Hp Hf [(e & He & Hp' & Hn) Hl]. split.
  - exists (f e). rewrite lookup_alter_eq, He. destruct (Hf e) as [-> ->]. naive_solver.
  - by apply dseg_alter_notin.
Qed.

Lemma dseg_lookup h prv l nxt p : dseg h prv l nxt → p ∈ l → is_Some (h !! p).
Proof.
  revert prv. induction l as [|p' l IH]; intros prv; simpl; [set_solver|].
  intros [(e & He & _) Hl]. rewrite elem_of_cons. intros [->|]; eauto.
Qed.
End dseg.

(** ** What the list operations do *)

(** an entry without its links *)
Definition core (e : retransmitEntry) : retransmitEntry := e <| e_prev := None |> <| e_next := None |>.

Lemma core_alter (f : retransmitEntry → retransmitEntry) p (h : gmap positive retransmitEntry) :
  (∀ e, core (f e) = core e) → core <$> alter f p h = core <$> h.
Proof.
  intros Hf. apply map_eq. intros i. rewrite !lookup_fmap.
  destruct (decide (i = p)) as [->|]; [rewrite lookup_alter_eq|by rewrite lookup_alter_ne].
  destruct (h !! p); simpl; by rewrite ?Hf.
Qed.

Record dll (q : retransmitQueue) (l : list positive) : Prop := mkDll {
  dll_seg : dseg q.(nodes) None l None;
  dll_nodup : NoDup l;
  dll_head : q.(q_head) = head l;
  dll_tail : q.(q_tail) = last l;
}.

(** [q'] differs from [q] in the links only *)
Definition relinked (q q' : retransmitQueue) : Prop :=
  core <$> q'.(nodes) = core <$> q.(nodes) ∧
  q'.(entries) = q.(entries) ∧ q'.(nodesNext) = q.(nodesNext) ∧
  q'.(freeEntries) = q.(freeEntries) ∧ q'.(arena) = q.(arena) ∧
  q'.(pendingFree) = q.(pendingFree) ∧ q'.(ackedThrough) = q.(ackedThrough).

Lemma unlink_relinked q e : relinked q (unlink q e).
Proof.
  unfold unlink, set_node. repeat case_match; repeat split; simpl; by rewrite ?core_alter.
Qed.
Lemma pushTail_relinked q e : relinked q (pushTail q e).
Proof.
  unfold pushTail, set_node. repeat case_match; repeat split; simpl; by rewrite ?core_alter.
Qed.

Lemma pushTail_dll q l e : dll q l → e ∉ l → is_Some (q.(nodes) !! e) → dll (pushTail q e) (l ++ [e]).
Proof.
  intros [Hs Hn Hh Ht] He [x Hx]. unfold pushTail, set_node. simpl. rewrite Ht.
  set (h1 := alter _ e q.(nodes)).
  assert (dseg h1 None l None) as Hs1 by by apply dseg_alter_notin.
  assert (h1 !! e = Some (x <| e_next := None |> <| e_prev := last l |>)) as Hx1.
  { unfold h1. by rewrite lookup_alter_eq, Hx, <- Ht. }
  clearbody h1.
  assert (NoDup (l ++ [e])) by (apply NoDup_app; split_and!; [done|set_solver|apply NoDup_singleton]).
  destruct l as [|t l _] using rev_ind; simpl.
  { split; simpl; [|done..]. split; [|done]. eauto. }
  rewrite last_snoc.
  assert (t ∉ l ∧ t ≠ e) as [Htl Hte].
  { split; [|set_solver]. apply NoDup_app in Hn. set_solver. }
  split; simpl; [| done | by rewrite Hh; destruct l | by rewrite last_snoc].
  apply dseg_app. split.
  - eapply dseg_set_next; [done| |done]. by intros x'.
  - simpl. split; [|done]. rewrite lookup_alter_ne by done. rewrite Hx1.
    eexists; split_and!; [done| |done]. by rewrite last_snoc.
Qed.

Lemma unlink_dll q l1 e l2 : dll q (l1 ++ e :: l2) → dll (unlink q e) (l1 ++ l2).
Proof.
  intros [Hs Hn Hh Ht]. pose proof Hs as Hs0. apply dseg_app in Hs as [H1 H2]. simpl in H1, H2.
  destruct H2 as [(x & Hx & Hp & Hx') H2].
  rewrite or_else_None_r in Hp, Hx'.
  apply NoDup_app in Hn as (Hn1 & Hd & Hn2). apply NoDup_cons in Hn2 as [He Hn2].
  assert (e ∉ l1) as He1 by (intros ?; by apply (Hd e); [|left]).
  assert (∀ p, p ∈ l1 → p ∉ l2) as Hd' by (intros p ??; apply (Hd p); [done|by right]).
  assert (NoDup (l1 ++ l2)) by (apply NoDup_app; auto).
  unfold unlink, node, set_node. rewrite Hx. simpl. rewrite Hp, Hx'.
  (* first link *)
  set (q1 := match last l1 with Some p => _ | None => _ end).
  assert (dseg (nodes q1) None l1 (head l2) ∧ dseg (nodes q1) (Some e) l2 None
    ∧ nodes q1 !! e = Some x ∧ q_head q1 = head (l1 ++ l2) ∧ q_tail q1 = last (e :: l2) ?: last l1)
    as (H1' & H2' & Hx1 & Hh1 & Ht1).
  { unfold q1. destruct l1 as [|t l1 _] using rev_ind; simpl.
    - split_and!; try done. rewrite Ht. simpl. by destruct (last (e :: l2)).
    - rewrite last_snoc. simpl. split_and!.
      + eapply dseg_set_next; [| |done]; [|done]. apply NoDup_app in Hn1. set_solver.
      + apply dseg_alter_notin; [|done]. set_solver.
      + rewrite lookup_alter_ne by set_solver. done.
      + rewrite Hh. by destruct l1.
      + by rewrite Ht, last_app_or_else, last_snoc. }
  clearbody q1. rewrite Hx1. simpl. rewrite Hp, Hx'.
  destruct l2 as [|n l2]; simpl.
  - split; simpl; [| done.. | ].
    + rewrite app_nil_r. apply dseg_alter_notin; done.
    + by rewrite app_nil_r.
  - split; simpl; [|done|done|].
    + apply dseg_alter_notin; [set_solver|]. apply dseg_app. split.
      * apply dseg_alter_notin; [set_solver|]. done.
      * rewrite or_else_None_r.
        eapply dseg_set_prev; [by apply NoDup_cons in Hn2 as []| |done]. done.
    + rewrite Ht1, last_app_or_else. simpl. by rewrite !last_cons; destruct (last l2).
Qed.

(** ** Memory: every buffer has one owner

    [held] lists the slices in use outside the free list: the payloads of
    live entries, the buffers awaiting a drain, and copies lent to the resend
    worker. *)
Record mem_inv (a : retransmitArena) (held : list bslice) : Prop := mkMemInv {
  mi_size : 0 ≤ a.(slotSize);
  mi_grow : (0 < a.(growBy))%nat;
  mi_nodup : NoDup (a.(free) ++ (sl_buf <$> held));
  mi_free : ∀ b, b ∈ a.(free) → ∃ bs, a.(mem) !! b = Some bs ∧ Zlen bs = a.(slotSize);
  mi_held : ∀ s, s ∈ held → ∃ bs, a.(mem) !! s.(sl_buf) = Some bs ∧ 0 ≤ s.(sl_len) ≤ Zlen bs;
  mi_fresh : ∀ b, is_Some (a.(mem) !! b) → (b < a.(memNext))%positive;
}.

#[export] Instance mem_inv_proper a : Proper ((≡ₚ) ==> iff) (mem_inv a).
Proof.
  assert (∀ h1 h2, h1 ≡ₚ h2 → mem_inv a h1 → mem_inv a h2) as Hx.
  { intros h1 h2 Hp [????? ?]. split; try done.
    - by rewrite <- Hp.
    - intros s. rewrite <- Hp. eauto. }
  intros h1 h2 Hp. split; by apply Hx.
Qed.

Lemma mem_inv_cons_drop a s held : mem_inv a (s :: held) → mem_inv a held.
Proof.
  intros [???? Hh ?]. split; try done.
  - rewrite fmap_cons, <- Permutation_middle in mi_nodup0. by apply NoDup_cons in mi_nodup0 as [].
  - intros s' Hs'. apply Hh. by right.
Qed.

Lemma arena_make_spec a held n :
  mem_inv a held → 0 ≤ n →
  let '(a', b) := arena_make a n in
  mem_inv a' held ∧ a'.(free) = a.(free) ∧ a.(mem) ⊆ a'.(mem) ∧ b ∉ a.(free) ++ (sl_buf <$> held) ∧
  a'.(slotSize) = a.(slotSize) ∧ a'.(growBy) = a.(growBy) ∧
  ∃ bs, a'.(mem) !! b = Some bs ∧ Zlen bs = n.
Proof.
  intros [Hs Hg Hn Hf Hh Hr] Hn0. unfold arena_make. simpl.
  assert (a.(mem) !! a.(memNext) = None) as Hfree.
  { apply eq_None_not_Some. intros Hx%Hr. lia. }
  assert (a.(mem) ⊆ <[a.(memNext) := replicate (Z.to_nat n) 0]> a.(mem)) as Hsub
    by by apply insert_subseteq.
  split_and!; try done.
  - split; simpl; try done.
    + intros b (bs & Hb & ?)%Hf. exists bs. split; [|done]. by eapply lookup_weaken.
    + intros s (bs & Hb & ?)%Hh. exists bs. split; [|done]. by eapply lookup_weaken.
    + intros b Hb. destruct (decide (b = a.(memNext))) as [->|Hne]; [lia|].
      rewrite lookup_insert_ne in Hb by done. apply Hr in Hb. lia.
  - rewrite elem_of_app, list_elem_of_fmap.
    intros [(bs & Hb & _)%Hf|(s & Heq & (bs & Hb & _)%Hh)]; congruence.
  - exists (replicate (Z.to_nat n) 0). rewrite lookup_insert_eq. split; [done|by apply Zlen_replicate].
Qed.

Lemma arena_grow_loop_spec i a held :
  mem_inv a held →
  let a' := arena_grow_loop i a in
  mem_inv a' held ∧ a.(mem) ⊆ a'.(mem) ∧ a'.(slotSize) = a.(slotSize) ∧
  length a'.(free) = (i + length a.(free))%nat.
Proof.
  revert a. induction i as [|i IH]; intros a Hi; cbn [arena_grow_loop]; [done|].
  pose proof (arena_make_spec a held a.(slotSize) Hi (mi_size _ _ Hi)) as Hm.
  destruct (arena_make a a.(slotSize)) as [a1 b].
  destruct Hm as ([Hs Hg Hn Hf Hh Hr] & Hfr & Hsub & Hb & Hsz & Hgr & bs & Hbs & Hlen).
  edestruct (IH (a1 <| free := a1.(free) ++ [b] |>)) as (IH1 & IH2 & IH3 & IH4).
  - split; simpl; try done.
    + rewrite Hfr, <- app_assoc, (Permutation_app_comm [b]), app_assoc.
      rewrite NoDup_app. split_and!; [by rewrite <- Hfr| |apply NoDup_singleton].
      intros x Hx ->%list_elem_of_singleton. done.
    + intros b'. rewrite elem_of_app, list_elem_of_singleton. intros [?| ->]; [by apply Hf|].
      exists bs. by rewrite Hsz.
  - simpl in *. split_and!; [done|by etrans; [exact Hsub|]|by rewrite IH3|].
    rewrite IH4, length_app, Hfr. simpl. lia.
Qed.

(** [get] hands out a buffer nobody holds and touches no existing bytes. *)
Lemma arena_get_spec a held n :
  mem_inv a held → 0 ≤ n →
  let '(a', s) := arena_get a n in
  mem_inv a' (s :: held) ∧ a.(mem) ⊆ a'.(mem) ∧ s.(sl_len) = n.
Proof.
  intros Hi Hn0. unfold arena_get. case_bool_decide as Hbig.
  { pose proof (arena_make_spec a held n Hi Hn0) as Hm. destruct (arena_make a n) as [a1 b].
    destruct Hm as ([Hs Hg Hn Hf Hh Hr] & Hfr & Hsub & Hb & Hsz & Hgr & bs & Hbs & Hlen).
    split_and!; [|done|done]. split; try done.
    - rewrite fmap_cons, <- Permutation_middle. apply NoDup_cons. by rewrite Hfr in *.
    - intros s [->|]%elem_of_cons; [|by apply Hh]. exists bs. simpl. split; [done|lia]. }
  set (a1 := if bool_decide _ then arena_grow a else a).
  assert (mem_inv a1 held ∧ a.(mem) ⊆ a1.(mem) ∧ a1.(slotSize) = a.(slotSize) ∧ a1.(free) ≠ [])
    as (Hi1 & Hsub & Hsz & Hne).
  { unfold a1. case_bool_decide as He; [|done].
    pose proof (arena_grow_loop_spec a.(growBy) a held Hi) as (H1 & H2 & H3 & H4).
    split_and!; try done. intros Hnil. unfold arena_grow in Hnil. rewrite Hnil in H4.
    pose proof (mi_grow _ _ Hi). simpl in H4. lia. }
  clearbody a1. destruct (reverse a1.(free)) as [|b rest] eqn:Hrev.
  { destruct Hne. by rewrite <- (reverse_involutive a1.(free)), Hrev. }
  assert (a1.(free) = reverse rest ++ [b]) as Hfr.
  { rewrite <- (reverse_involutive a1.(free)), Hrev. by rewrite reverse_cons. }
  destruct Hi1 as [Hs Hg Hn Hf Hh Hr]. split_and!; [|done|done].
  rewrite Hfr in Hn, Hf. split; simpl; try done.
  - rewrite <- app_assoc in Hn. done.
  - intros b' Hb'. apply Hf. set_solver.
  - intros s [->|]%elem_of_cons; [|by apply Hh].
    destruct (Hf b) as (bs & Hb & Hlen); [set_solver|]. exists bs. simpl. split; [done|lia].
Qed.

Lemma arena_put_spec a held s :
  mem_inv a (s :: held) → mem_inv (arena_put a s) held ∧ (arena_put a s).(mem) = a.(mem).
Proof.
  intros Hi. unfold arena_put, arena_cap. case_bool_decide as Hc; simpl.
  - split; [|done]. pose proof (mem_inv_cons_drop _ _ _ Hi) as Hi'.
    destruct Hi as [Hs Hg Hn Hf Hh Hr], Hi' as [_ _ _ _ Hh' _]. split; simpl; try done.
    + by rewrite <- app_assoc.
    + intros b. rewrite elem_of_app, list_elem_of_singleton. intros [?| ->]; [by apply Hf|].
      destruct (Hh s) as (bs & Hb & _); [by left|]. rewrite Hb in Hc. by exists bs.
  - split; [|done]. by eapply mem_inv_cons_drop.
Qed.

Lemma slice_bytes_mem a a' s : a'.(mem) !! s.(sl_buf) = a.(mem) !! s.(sl_buf) →
  slice_bytes a' s = slice_bytes a s.
Proof. intros Hm. unfold slice_bytes. by rewrite Hm. Qed.

Lemma slice_bytes_sub a a' held s : mem_inv a held → s ∈ held → a.(mem) ⊆ a'.(mem) →
  slice_bytes a' s = slice_bytes a s.
Proof.
  intros Hi Hs Hsub. apply slice_bytes_mem.
  destruct (mi_held _ _ Hi s Hs) as (bs & Hb & _). rewrite Hb. by eapply lookup_weaken.
Qed.

Lemma slice_copy_spec a held s bytes :
  mem_inv a (s :: held) → Zlen bytes = s.(sl_len) →
  let a' := slice_copy a s bytes in
  mem_inv a' (s :: held) ∧ slice_bytes a' s = bytes ∧
  ∀ s', s' ∈ held → slice_bytes a' s' = slice_bytes a s'.
Proof.
  intros [Hs Hg Hn Hf Hh Hr] Hlen a'.
  destruct (Hh s) as (bs & Hb & Hl); [by left|].
  assert (take (Z.to_nat (sl_len s)) bytes = bytes) as Htk by (apply take_ge; unfold Zlen in *; lia).
  assert (∀ b bs', a.(mem) !! b = Some bs' → ∃ bs'', a'.(mem) !! b = Some bs'' ∧ Zlen bs'' = Zlen bs') as Hkeep.
  { intros b bs' Hbs. unfold a', slice_copy. simpl. destruct (decide (b = s.(sl_buf))) as [->|].
    - rewrite lookup_alter_eq, Hbs. eexists; split; [done|]. apply Zlen_copy_at.
      pose proof (Zlen_nonneg bs'). lia.
    - rewrite lookup_alter_ne by done. eauto. }
  split_and!.
  - split; try done.
    + intros b (bs' & Hbs & Hl')%Hf. destruct (Hkeep _ _ Hbs) as (bs'' & ? & ?).
      exists bs''. split; [done|]. simpl. lia.
    + intros s' (bs' & Hbs & Hl')%Hh. destruct (Hkeep _ _ Hbs) as (bs'' & ? & ?).
      exists bs''. split; [done|]. lia.
    + intros b. unfold a', slice_copy. simpl. rewrite lookup_alter_is_Some. apply Hr.
  - unfold slice_bytes, a', slice_copy. simpl. rewrite lookup_alter_eq, Hb, Htk. simpl.
    rewrite copy_at_fits by lia. rewrite slice_nil. simpl. apply take_app_length'.
    unfold Zlen in Hlen. lia.
  - intros s' Hs'. apply slice_bytes_mem. unfold a', slice_copy. simpl. apply lookup_alter_ne.
    intros Heq. rewrite fmap_cons, <- Permutation_middle in Hn. apply NoDup_cons in Hn as [Hn _].
    apply Hn. rewrite Heq. apply elem_of_app. right. by apply list_elem_of_fmap_2.
Qed.

(** ** The representation invariant *)
Definition key_of (e : retransmitEntry) : Z := retransmitKey e.(e_streamID) e.(e_seq).
Definition live (q : retransmitQueue) (l : list positive) : list bslice := omap (λ p, (node q p).(e_data)) l.

(** [l] is the list of pending entries, oldest send first; [loans] are the
    payload copies handed to the resend worker and not yet released. *)
Record rq_inv (q : retransmitQueue) (l : list positive) (loans : list bslice) : Prop := mkRqInv {
  ri_dll : dll q l;
  ri_pool : NoDup (l ++ q.(freeEntries));
  ri_nodes : ∀ p, p ∈ q.(freeEntries) → is_Some (q.(nodes) !! p);
  ri_fresh : ∀ p, is_Some (q.(nodes) !! p) → (p < q.(nodesNext))%positive;
  ri_entries : ∀ k p, q.(entries) !! k = Some p ↔ p ∈ l ∧ k = key_of (node q p);
  ri_ids : ∀ p, p ∈ l → is_u32 (node q p).(e_streamID) ∧ is_u32 (node q p).(e_seq);
  ri_data : ∀ p, p ∈ l → is_Some (node q p).(e_data);
  ri_mem : mem_inv q.(arena) (q.(pendingFree) ++ live q l ++ loans);
}.

(** ** The specification: a list of pending frames *)
Record pframe := mkPframe {
  p_ftype : Z; p_streamID : Z; p_seq : Z; p_bytes : list Z;
  p_sentAt : Z; p_retries : Z; p_queued : bool;
}.
#[export] Instance eta_pframe : Eta pframe :=
  λ f, mkPframe (p_ftype f) (p_streamID f) (p_seq f) (p_bytes f) (p_sentAt f) (p_retries f) (p_queued f).

Definition view (a : retransmitArena) (e : retransmitEntry) : pframe :=
  mkPframe e.(e_ftype) e.(e_streamID) e.(e_seq)
    (match e.(e_data) with Some s => slice_bytes a s | None => [] end)
    e.(e_sentAt) e.(e_retries) e.(e_queued).
Definition pending (q : retransmitQueue) (l : list positive) : list pframe :=
  (λ p, view q.(arena) (node q p)) <$> l.

Definition is_frame (sid seq : Z) (f : pframe) : Prop := f.(p_streamID) = sid ∧ f.(p_seq) = seq.
#[export] Instance is_frame_dec sid seq f : Decision (is_frame sid seq f).
Proof. unfold is_frame. apply _. Defined.

Definition s_lookup (sid seq : Z) (L : list pframe) : option pframe := head (filter (is_frame sid seq) L).
Definition s_remove (sid seq : Z) (L : list pframe) : list pframe := filter (λ f, ¬ is_frame sid seq f) L.
Definition s_add (ftype sid seq : Z) (bytes : list Z) (now : Z) (L : list pframe) : list pframe :=
  L ++ [mkPframe ftype sid seq bytes now 0 false].
Definition s_mark (sid seq : Z) (L : list pframe) : list pframe :=
  (λ f, if decide (is_frame sid seq f) then f <| p_queued := true |> else f) <$> L.
(** a resend moves the frame to the end with a new time stamp *)
Definition s_resend (sid seq now : Z) (L : list pframe) : list pframe :=
  match s_lookup sid seq L with
  | Some f => s_remove sid seq L ++
      [f <| p_queued := false |> <| p_sentAt := now |> <| p_retries := f.(p_retries) + 1 |>]
  | None => L
  end.

(** ** Keys *)
Lemma retransmitKey_spec sid seq : is_u32 seq → retransmitKey sid seq = sid * 2 ^ 32 + seq.
Proof.
  intros Hs. unfold retransmitKey. rewrite Z.shiftl_mul_pow2 by lia.
  rewrite <- Z.add_lor_land.
  replace (Z.land (sid * 2 ^ 32) seq) with 0; [lia|].
  symmetry. apply Z.bits_inj_0. intros n. rewrite Z.land_spec.
  destruct (decide (n < 0)). { by rewrite Z.testbit_neg_r. }
  destruct (decide (n < 32)).
  - by rewrite Z.mul_pow2_bits_low.
  - rewrite (Z.bits_above_log2 seq); [by rewrite andb_false_r|apply Hs|].
    destruct (decide (seq = 0)) as [->|]; [simpl; lia|].
    apply Z.log2_lt_pow2; [unfold is_u32 in Hs; lia|].
    apply Z.lt_le_trans with (2 ^ 32); [apply Hs|]. apply Z.pow_le_mono_r; lia.
Qed.

Lemma retransmitKey_inj s1 q1 s2 q2 :
  is_u32 q1 → is_u32 q2 → retransmitKey s1 q1 = retransmitKey s2 q2 → s1 = s2 ∧ q1 = q2.
Proof. intros ??. rewrite !retransmitKey_spec by done. unfold is_u32 in *. lia. Qed.

(** ** Nodes under updates *)
Lemma node_relinked q q' p : relinked q q' → core (node q' p) = core (node q p).
Proof.
  intros [Hc _]. unfold node. apply (f_equal (lookup p)) in Hc. rewrite !lookup_fmap in Hc.
  destruct (nodes q' !! p), (nodes q !! p); cbn [fmap option_fmap option_map] in Hc; [by apply (inj Some) in Hc|done..].
Qed.
Lemma node_set_node q p f : is_Some (q.(nodes) !! p) → node (set_node q p f) p = f (node q p).
Proof. intros [x Hx]. unfold node, set_node. simpl. by rewrite lookup_alter_eq, Hx. Qed.
Lemma node_set_node_ne q p p' f : p ≠ p' → node (set_node q p f) p' = node q p'.
Proof. intros Hp. unfold node, set_node. simpl. by rewrite lookup_alter_ne. Qed.
Lemma nodes_set_node q p f p' : is_Some ((set_node q p f).(nodes) !! p') ↔ is_Some (q.(nodes) !! p').
Proof. unfold set_node. simpl. apply lookup_alter_is_Some. Qed.
Lemma nodes_relinked q q' p : relinked q q' → is_Some (q'.(nodes) !! p) ↔ is_Some (q.(nodes) !! p).
Proof.
  intros [Hc _]. apply (f_equal (lookup p)) in Hc. rewrite !lookup_fmap in Hc.
  destruct (nodes q' !! p), (nodes q !! p); cbn [fmap option_fmap option_map] in Hc; naive_solver.
Qed.

Lemma live_data_ext q q' l :
  (∀ p, p ∈ l → (node q' p).(e_data) = (node q p).(e_data)) → live q' l = live q l.
Proof.
  intros Hc. unfold live. induction l as [|p l IH]; [done|]. cbn.
  by rewrite IH, (Hc p (list_elem_of_here _ _)) by (intros; apply Hc; by right).
Qed.
Lemma live_ext q q' l : (∀ p, p ∈ l → core (node q' p) = core (node q p)) → live q' l = live q l.
Proof. intros Hc. apply live_data_ext. intros p Hp. exact (f_equal e_data (Hc p Hp)). Qed.

Lemma view_ext a a' e e' :
  core e' = core e → (∀ s, e.(e_data) = Some s → slice_bytes a' s = slice_bytes a s) →
  view a' e' = view a e.
Proof.
  intros Hc Ha. destruct e, e'. unfold core in Hc. injection Hc as -> -> -> -> -> -> ->.
  unfold view. simpl in *. f_equal. case_match; auto.
Qed.

Lemma elem_of_live q l p s : p ∈ l → (node q p).(e_data) = Some s → s ∈ live q l.
Proof. intros Hp Hd. apply list_elem_of_omap. eauto. Qed.

Lemma pending_ext q q' l :
  (∀ p, p ∈ l → core (node q' p) = core (node q p)) →
  (∀ s, s ∈ live q l → slice_bytes q'.(arena) s = slice_bytes q.(arena) s) →
  pending q' l = pending q l.
Proof.
  intros Hc Ha. unfold pending. apply list_fmap_ext. intros i p Hp.
  apply list_elem_of_lookup_2 in Hp. apply view_ext; [auto|].
  intros s Hs. apply Ha. by eapply elem_of_live.
Qed.

Lemma pending_app q l1 l2 : pending q (l1 ++ l2) = pending q l1 ++ pending q l2.
Proof. apply fmap_app. Qed.
Lemma live_app q l1 l2 : live q (l1 ++ l2) = live q l1 ++ live q l2.
Proof. apply omap_app. Qed.
Lemma live_cons q p l : live q (p :: l) = option_list (node q p).(e_data) ++ live q l.
Proof. unfold live. cbn. by case_match. Qed.
Lemma key_of_core e e' : core e' = core e → key_of e' = key_of e.
Proof.
  intros Hc. pose proof (f_equal e_streamID Hc) as H1. pose proof (f_equal e_seq Hc) as H2.
  simpl in H1, H2. unfold key_of. by rewrite H1, H2.
Qed.

(** ** Looking a frame up *)
Lemma filter_none {A} (P : A → Prop) `{!∀ x, Decision (P x)} (l : list A) :
  (∀ x, x ∈ l → ¬ P x) → filter P l = [].
Proof.
  intros Hx. induction l as [|x l IH]; [done|]. rewrite filter_cons_False by (apply Hx; by left).
  apply IH. intros; apply Hx. by right.
Qed.
Lemma filter_all {A} (P : A → Prop) `{!∀ x, Decision (P x)} (l : list A) :
  (∀ x, x ∈ l → P x) → filter P l = l.
Proof.
  intros Hx. induction l as [|x l IH]; [done|]. rewrite filter_cons_True by (apply Hx; by left).
  f_equal. apply IH. intros; apply Hx. by right.
Qed.

Section lookup.
Context q l loans (Hi : rq_inv q l loans) (sid seq : Z) (Hsid : is_u32 sid) (Hseq : is_u32 seq).

Lemma is_frame_key p : p ∈ l →
  is_frame sid seq (view q.(arena) (node q p)) ↔ key_of (node q p) = retransmitKey sid seq.
Proof using All.
  intros Hp. destruct (ri_ids _ _ _ Hi p Hp) as [??]. unfold is_frame, key_of. simpl. split.
  - by intros [-> ->].
  - intros Hk. by apply retransmitKey_inj in Hk.
Qed.

Lemma lookup_missing : q.(entries) !! retransmitKey sid seq = None →
  ∀ f, f ∈ pending q l → ¬ is_frame sid seq f.
Proof using All.
  intros Hn f (p & -> & Hp)%list_elem_of_fmap Hf. rewrite is_frame_key in Hf by done.
  assert (q.(entries) !! retransmitKey sid seq = Some p) as Hs by (by apply (ri_entries _ _ _ Hi)).
  congruence.
Qed.

Lemma lookup_missing_spec : q.(entries) !! retransmitKey sid seq = None →
  s_lookup sid seq (pending q l) = None ∧ s_remove sid seq (pending q l) = pending q l.
Proof using All.
  intros Hn. pose proof (lookup_missing Hn) as Hf. unfold s_lookup, s_remove.
  by rewrite filter_none, filter_all.
Qed.

Lemma lookup_found e : q.(entries) !! retransmitKey sid seq = Some e →
  ∃ l1 l2, l = l1 ++ e :: l2 ∧ is_frame sid seq (view q.(arena) (node q e)) ∧
    ∀ f, f ∈ pending q (l1 ++ l2) → ¬ is_frame sid seq f.
Proof using All.
  intros He. apply (ri_entries _ _ _ Hi) in He as Hel. destruct Hel as [Hin Hk].
  pose proof Hin as (l1 & l2 & Hl)%list_elem_of_split. exists l1, l2. split_and!; [done| |].
  - by apply is_frame_key.
  - intros f (p & -> & Hp)%list_elem_of_fmap Hf.
    assert (p ∈ l) as Hp' by (rewrite Hl; set_solver). rewrite is_frame_key in Hf by done.
    assert (p = e) as ->.
    { assert (q.(entries) !! key_of (node q p) = Some p) as Hs by (by apply (ri_entries _ _ _ Hi)).
      congruence. }
    pose proof (dll_nodup _ _ (ri_dll _ _ _ Hi)) as Hnd.
    rewrite Hl, <- Permutation_middle in Hnd. apply NoDup_cons in Hnd as [Hnd _]. done.
Qed.

Lemma lookup_found_spec e : q.(entries) !! retransmitKey sid seq = Some e →
  ∃ l1 l2, l = l1 ++ e :: l2 ∧
    s_lookup sid seq (pending q l) = Some (view q.(arena) (node q e)) ∧
    s_remove sid seq (pending q l) = pending q (l1 ++ l2).
Proof using All.
  intros (l1 & l2 & Hl & Hf & Hr)%lookup_found. exists l1, l2. rewrite Hl.
  assert (∀ f, f ∈ pending q l1 → ¬ is_frame sid seq f) as Hr1.
  { intros f Hf'. apply Hr. rewrite pending_app, elem_of_app. by left. }
  assert (∀ f, f ∈ pending q l2 → ¬ is_frame sid seq f) as Hr2.
  { intros f Hf'. apply Hr. rewrite pending_app, elem_of_app. by right. }
  split_and!; [done| |].
  - unfold s_lookup. rewrite pending_app, filter_app, filter_none by done. cbn [pending fmap list_fmap app].
    by rewrite filter_cons_True.
  - unfold s_remove. rewrite !pending_app, filter_app. cbn [pending fmap list_fmap].
    rewrite filter_cons_False by tauto. by rewrite !filter_all.
Qed.
End lookup.

(** ** Removing an entry *)
Lemma entries_delete q q' l1 e l2 :
  (∀ k p, q.(entries) !! k = Some p ↔ p ∈ l1 ++ e :: l2 ∧ k = key_of (node q p)) →
  e ∉ l1 ++ l2 → (∀ p, p ∈ l1 ++ l2 → core (node q' p) = core (node q p)) →
  ∀ k p, delete (key_of (node q e)) q.(entries) !! k = Some p ↔
    p ∈ l1 ++ l2 ∧ k = key_of (node q' p).
Proof.
  intros Hents Hel Hcore k p. rewrite lookup_delete_Some, Hents. split.
  - intros (Hk & Hp & ->). assert (p ∈ l1 ++ l2) as Hp' by set_solver. split; [done|].
    symmetry. by apply key_of_core, Hcore.
  - intros [Hp ->]. rewrite (key_of_core _ _ (Hcore p Hp)).
    split_and!; [|set_solver|done]. intros Hke. apply Hel.
    assert (entries q !! key_of (node q p) = Some p) as E1 by (apply Hents; set_solver).
    assert (entries q !! key_of (node q e) = Some e) as E2 by (apply Hents; set_solver).
    congruence.
Qed.
Lemma removeLocked_spec q l1 e l2 loans :
  rq_inv q (l1 ++ e :: l2) loans →
  let q' := removeLocked q (key_of (node q e)) e in
  rq_inv q' (l1 ++ l2) loans ∧ pending q' (l1 ++ l2) = pending q (l1 ++ l2) ∧
  q'.(arena) = q.(arena) ∧ q'.(pendingFree) = q.(pendingFree) ++ option_list (node q e).(e_data) ∧
  q'.(ackedThrough) = q.(ackedThrough) ∧ e ∉ l1 ++ l2 ∧
  ∀ p, p ∈ l1 ++ l2 → core (node q' p) = core (node q p).
Proof.
  intros Hi. unfold removeLocked.
  destruct (dseg_lookup _ _ _ _ e (dll_seg _ _ (ri_dll _ _ _ Hi))) as [x Hx]; [set_solver|].
  pose proof (unlink_relinked q e) as Hr. pose proof (unlink_dll _ _ _ _ (ri_dll _ _ _ Hi)) as Hd.
  set (q1 := unlink q e) in *. clearbody q1.
  pose proof (node_relinked _ _ e Hr) as Hne. pose proof (f_equal e_data Hne) as Hde. simpl in Hde.
  rewrite Hde.
  set (q' := put entries _ _).
  destruct Hr as (Hc & Hent & Hnx & Hfe & Har & Hpf & Hat).
  assert (e ∉ l1 ++ l2) as Hel.
  { pose proof (dll_nodup _ _ (ri_dll _ _ _ Hi)) as Hnd.
    rewrite <- Permutation_middle in Hnd. by apply NoDup_cons in Hnd as []. }
  assert (∀ p, p ≠ e → core (node q' p) = core (node q p)) as Hcore.
  { intros p Hp. transitivity (core (node q1 p)); [|by apply node_relinked].
    unfold q', node, set_node. simpl. by rewrite lookup_alter_ne. }
  assert (∀ p, p ∈ l1 ++ l2 → core (node q' p) = core (node q p)) as Hcore'.
  { intros p Hp. apply Hcore. by intros ->. }
  assert (∀ p, is_Some (nodes q' !! p) ↔ is_Some (nodes q !! p)) as Hnodes.
  { intros p. unfold q', set_node. simpl. rewrite lookup_alter_is_Some. by apply nodes_relinked. }
  assert (pendingFree q' = pendingFree q ++ option_list (node q e).(e_data)) as Hpf'
    by (unfold q'; simpl; by rewrite Hpf).
  assert (arena q' = arena q) as Har' by done.
  split_and!; try done; [|].
  - destruct Hi as [_ Hpool Hnds Hfresh Hents Hids Hdata Hmem]. split.
    + destruct Hd as [Hs Hn Hh Ht]. split; try done. unfold q', set_node. simpl.
      by apply dseg_alter_notin.
    + unfold q'. simpl. rewrite Hfe. rewrite <- Permutation_middle in Hpool.
      by rewrite (assoc_L (++)), <- Permutation_cons_append.
    + intros p. rewrite Hnodes. unfold q'. simpl. rewrite Hfe, elem_of_app, list_elem_of_singleton.
      intros [?| ->]; [by apply Hnds|]. by exists x.
    + intros p. rewrite Hnodes. unfold q'. simpl. rewrite Hnx. apply Hfresh.
    + assert (entries q' = delete (key_of (node q e)) (entries q)) as -> by (unfold q'; simpl; by rewrite Hent).
      by apply (entries_delete q q' l1 e l2).
    + intros p Hp. pose proof (Hcore' p Hp) as Hcp.
      pose proof (f_equal e_streamID Hcp) as H1. pose proof (f_equal e_seq Hcp) as H2. simpl in H1, H2.
      rewrite H1, H2. apply Hids. set_solver.
    + intros p Hp. pose proof (f_equal e_data (Hcore' p Hp)) as H1. simpl in H1. rewrite H1.
      apply Hdata. set_solver.
    + rewrite Hpf', Har', (live_ext q q') by done. eapply mem_inv_proper; [|exact Hmem].
      rewrite !live_app, live_cons, <- !app_assoc. f_equiv. rewrite !app_assoc. do 2 f_equiv.
      apply Permutation_app_comm.
  - apply pending_ext; [done|]. by rewrite Har'.
Qed.

(** ** Generic preservation *)

(** links rearranged *)
Lemma relink_spec q q' l l' loans :
  rq_inv q l loans → relinked q q' → dll q' l' → l' ≡ₚ l →
  rq_inv q' l' loans ∧ pending q' l' = pending q l' ∧ q'.(arena) = q.(arena).
Proof.
  intros [_ Hpool Hnds Hfresh Hents Hids Hdata Hmem] Hr Hd Hp.
  pose proof (λ p, node_relinked q q' p Hr) as Hn. pose proof (λ p, nodes_relinked q q' p Hr) as Hns.
  destruct Hr as (Hc & Hent & Hnx & Hfe & Har & Hpf & Hat).
  split_and!; [split|apply pending_ext; [done|by rewrite Har]|done].
  - done.
  - by rewrite Hfe, Hp.
  - intros p. rewrite Hns, Hfe. auto.
  - intros p. rewrite Hns, Hnx. auto.
  - intros k p. by rewrite Hent, Hp, (key_of_core _ _ (Hn p)).
  - intros p. rewrite Hp. pose proof (f_equal e_streamID (Hn p)) as H1.
    pose proof (f_equal e_seq (Hn p)) as H2. simpl in H1, H2. rewrite H1, H2. apply Hids.
  - intros p. rewrite Hp. pose proof (f_equal e_data (Hn p)) as H1. simpl in H1. rewrite H1. apply Hdata.
  - rewrite Har, Hpf, (live_ext q q') by done.
    assert (live q l' ≡ₚ live q l) as -> by (unfold live; by rewrite Hp). done.
Qed.

(** buffers obtained, filled or returned *)
Lemma arena_spec q l loans a loans' :
  rq_inv q l loans → mem_inv a (q.(pendingFree) ++ live q l ++ loans') →
  (∀ s, s ∈ live q l → slice_bytes a s = slice_bytes q.(arena) s) →
  rq_inv (q <| arena := a |>) l loans' ∧ pending (q <| arena := a |>) l = pending q l.
Proof.
  intros [Hd Hpool Hnds Hfresh Hents Hids Hdata Hmem] Ha Hb.
  split; [|by apply pending_ext]. split; try done. by destruct Hd.
Qed.

(** a frame's bookkeeping fields changed *)
Definition keeps_frame (f : retransmitEntry → retransmitEntry) : Prop :=
  ∀ e, (f e).(e_prev) = e.(e_prev) ∧ (f e).(e_next) = e.(e_next) ∧
       (f e).(e_streamID) = e.(e_streamID) ∧ (f e).(e_seq) = e.(e_seq) ∧ (f e).(e_data) = e.(e_data).

Lemma node_set_node_keeps q p f p' :
  keeps_frame f → (node (set_node q p f) p').(e_streamID) = (node q p').(e_streamID) ∧
    (node (set_node q p f) p').(e_seq) = (node q p').(e_seq) ∧
    (node (set_node q p f) p').(e_data) = (node q p').(e_data).
Proof.
  intros Hf. unfold node, set_node. simpl. destruct (decide (p = p')) as [->|].
  - rewrite lookup_alter_eq. destruct (nodes q !! p') as [x|]; [|done]. simpl. by destruct (Hf x) as (_&_&?&?&?).
  - by rewrite lookup_alter_ne.
Qed.

Lemma set_node_spec q l loans p f :
  rq_inv q l loans → keeps_frame f → p ∈ l →
  rq_inv (set_node q p f) l loans ∧
  pending (set_node q p f) l =
    (λ p', view q.(arena) (if decide (p' = p) then f (node q p) else node q p')) <$> l.
Proof.
  intros Hi Hf Hp. pose proof (λ p', node_set_node_keeps q p f p' Hf) as Hn.
  pose proof (dseg_lookup _ _ _ _ p (dll_seg _ _ (ri_dll _ _ _ Hi)) Hp) as Hx. split.
  - destruct Hi as [Hd Hpool Hnds Hfresh Hents Hids Hdata Hmem]. split; try done.
    + destruct Hd as [Hs ???]. split; try done. apply dseg_alter_links; [|done].
      intros e. by destruct (Hf e) as (?&?&_).
    + intros p' ?. apply nodes_set_node. by apply Hnds.
    + intros p'. rewrite nodes_set_node. apply Hfresh.
    + intros k p'. destruct (Hn p') as (H1&H2&_). unfold key_of. rewrite H1, H2. apply Hents.
    + intros p' Hp'. destruct (Hn p') as (->&->&_). by apply Hids.
    + intros p' Hp'. destruct (Hn p') as (_&_&->). by apply Hdata.
    + rewrite (live_data_ext q); [done|]. intros p' _. apply Hn.
  - unfold pending. apply list_fmap_ext. intros i p' _. simpl. f_equal. case_decide as Hd.
    + subst. by apply node_set_node.
    + by apply node_set_node_ne.
Qed.

(** ** Acknowledgement *)
Definition s_ack (sid seq now : Z) (st : list pframe * Z * Z) : list pframe * Z * Z :=
  let '(L, freed, rtt) := st in
  match s_lookup sid seq L with
  | None => st
  | Some f =>
      (s_remove sid seq L, freed + Zlen f.(p_bytes),
       if f.(p_retries) =? 0 then
         let s := time_Sub now f.(p_sentAt) in
         if (rtt =? 0) || (s <? rtt) then s else rtt
       else rtt)
  end.

Lemma view_data_len q l loans p :
  rq_inv q l loans → p ∈ l → Zlen (view q.(arena) (node q p)).(p_bytes) = data_len (node q p).
Proof.
  intros Hi Hp. destruct (ri_data _ _ _ Hi p Hp) as [s Hs]. unfold view, data_len. rewrite Hs. simpl.
  destruct (mi_held _ _ (ri_mem _ _ _ Hi) s) as (bs & Hb & Hl).
  { apply elem_of_app. right. apply elem_of_app. left. by eapply elem_of_live. }
  unfold slice_bytes. rewrite Hb. simpl. unfold Zlen in *. rewrite length_take. lia.
Qed.

(** What removals and marks leave alone: memory, the sweep marks, and the set
    of buffers in use (live or awaiting a drain). *)
Definition in_use (q : retransmitQueue) (l : list positive) : list bslice := q.(pendingFree) ++ live q l.
Definition ack_frame (c c' : retransmitQueue * list positive) : Prop :=
  c'.1.(arena) = c.1.(arena) ∧ c'.1.(ackedThrough) = c.1.(ackedThrough) ∧
  in_use c'.1 c'.2 ≡ₚ in_use c.1 c.2.
#[export] Instance ack_frame_preorder : PreOrder ack_frame.
Proof.
  split; [by intros []|]. intros c1 c2 c3 (?&?&H1) (?&?&H2). split_and!; [congruence..|by rewrite H2].
Qed.

Lemma removeLocked_frame q l1 e l2 loans :
  rq_inv q (l1 ++ e :: l2) loans →
  ack_frame (q, l1 ++ e :: l2) (removeLocked q (key_of (node q e)) e, l1 ++ l2).
Proof.
  intros Hi. destruct (removeLocked_spec q l1 e l2 loans Hi) as (_ & _ & Ha & Hpf & Hat & _ & Hc).
  split_and!; [done|done|]. simpl. unfold in_use. rewrite Hpf, (live_ext q) by done.
  rewrite !live_app, live_cons, <- !app_assoc. f_equiv. rewrite !app_assoc. f_equiv. apply Permutation_app_comm.
Qed.
Lemma set_node_frame q l p f : keeps_frame f → ack_frame (q, l) (set_node q p f, l).
Proof.
  intros Hf. split_and!; [done|done|]. simpl. unfold in_use. rewrite (live_data_ext q); [done|].
  intros p' _. by apply node_set_node_keeps.
Qed.

Lemma ackStep_spec q l loans sid seq now freed rtt :
  rq_inv q l loans → is_u32 sid → is_u32 seq →
  ∃ q' l' freed' rtt', ackStep q sid seq now freed rtt = (q', freed', rtt') ∧
    rq_inv q' l' loans ∧ ack_frame (q, l) (q', l') ∧
    s_ack sid seq now (pending q l, freed, rtt) = (pending q' l', freed', rtt').
Proof.
  intros Hi Hsid Hseq. unfold ackStep, s_ack.
  destruct (q.(entries) !! retransmitKey sid seq) as [e|] eqn:He.
  - destruct (lookup_found_spec q l loans Hi sid seq Hsid Hseq e He) as (l1 & l2 & -> & -> & ->).
    apply (ri_entries _ _ _ Hi) in He as [Hin ->].
    destruct (removeLocked_spec q l1 e l2 loans Hi) as (Hi' & Hp & Ha & Hpf & Hat & _).
    eexists _, (l1 ++ l2), _, _. split_and!; [done|done| |].
    + by eapply removeLocked_frame.
    + rewrite Hp. by rewrite (view_data_len q (l1 ++ e :: l2) loans).
  - destruct (lookup_missing_spec q l loans Hi sid seq Hsid Hseq He) as [-> _].
    by eexists q, l, _, _.
Qed.

Lemma ackLoop_spec seqs q l loans sid now freed rtt :
  rq_inv q l loans → is_u32 sid → Forall is_u32 seqs →
  ∃ q' l' freed' rtt', ackLoop q sid now seqs freed rtt = (q', freed', rtt') ∧
    rq_inv q' l' loans ∧ ack_frame (q, l) (q', l') ∧
    foldl (λ st seq, s_ack sid seq now st) (pending q l, freed, rtt) seqs = (pending q' l', freed', rtt').
Proof.
  revert q l freed rtt. induction seqs as [|seq seqs IH]; intros q l freed rtt Hi Hsid Hs.
  { by eexists q, l, _, _. }
  apply Forall_cons in Hs as [Hseq Hs].
  destruct (ackStep_spec q l loans sid seq now freed rtt Hi Hsid Hseq)
    as (q1 & l1 & freed1 & rtt1 & E1 & Hi1 & Hf1 & S1).
  destruct (IH q1 l1 freed1 rtt1 Hi1 Hsid Hs) as (q2 & l2 & freed2 & rtt2 & E2 & Hi2 & Hf2 & S2).
  exists q2, l2, freed2, rtt2. cbn [ackLoop foldl]. rewrite E1, S1. split_and!; [done|done|by etrans|done].
Qed.

(** ** Adding a frame *)

(** [getEntry] returns an allocated node that is on no list. *)
Lemma getEntry_spec q l loans :
  rq_inv q l loans →
  let '(q', e) := getEntry q in
  rq_inv q' l loans ∧ pending q' l = pending q l ∧ e ∉ l ++ q'.(freeEntries) ∧
  is_Some (q'.(nodes) !! e) ∧ q'.(arena) = q.(arena) ∧ q'.(pendingFree) = q.(pendingFree) ∧
  q'.(entries) = q.(entries) ∧ q'.(ackedThrough) = q.(ackedThrough) ∧ live q' l = live q l.
Proof.
  intros Hi. unfold getEntry. destruct (reverse q.(freeEntries)) as [|e rest] eqn:Hrev.
  - assert (q.(nodes) !! q.(nodesNext) = None) as Hno.
    { apply eq_None_not_Some. intros Hx%(ri_fresh _ _ _ Hi). lia. }
    set (q' := put nodesNext _ _).
    assert (∀ p, p ≠ q.(nodesNext) → node q' p = node q p) as Hn.
    { intros p Hp. unfold q', node. simpl. by rewrite lookup_insert_ne. }
    assert (∀ p, p ∈ l → is_Some (nodes q !! p)) as Hdom.
    { intros p Hp. by eapply dseg_lookup; [apply Hi|]. }
    assert (q.(nodesNext) ∉ l ++ q.(freeEntries)) as Hnotin.
    { rewrite elem_of_app. intros [[x Hx]%Hdom|[x Hx]%(ri_nodes _ _ _ Hi)]; congruence. }
    assert (∀ p, p ∈ l → node q' p = node q p) as Hn' by (intros p Hp; apply Hn; set_solver).
    split_and!; try done.
    + destruct Hi as [[Hs Hnd Hh Ht] Hpool Hnds Hfresh Hents Hids Hdata Hmem]. split; try done.
      * split; try done. eapply dseg_ext; [|exact Hs]. intros p e Hp He. exists e.
        unfold q'. simpl. rewrite lookup_insert_ne by set_solver. done.
      * intros p Hp. unfold q'. simpl. apply lookup_insert_is_Some. right. split; [set_solver|auto].
      * intros p. unfold q'. simpl. rewrite lookup_insert_is_Some. intros [->|[_ Hp%Hfresh]]; lia.
      * intros k p. unfold q'. simpl. fold q'. rewrite Hents. split; intros [Hp ->]; by rewrite Hn'.
      * intros p Hp. rewrite Hn' by done. auto.
      * intros p Hp. rewrite Hn' by done. auto.
      * rewrite (live_data_ext q); [done|]. intros p Hp. by rewrite Hn'.
    + apply pending_ext; [|done]. intros p Hp. by rewrite Hn'.
    + unfold q'. simpl. rewrite lookup_insert_eq. eauto.
    + apply live_data_ext. intros p Hp. by rewrite Hn'.
  - assert (q.(freeEntries) = reverse rest ++ [e]) as Hf.
    { rewrite <- (reverse_involutive q.(freeEntries)), Hrev. by rewrite reverse_cons. }
    pose proof (ri_pool _ _ _ Hi) as Hpool. rewrite Hf, app_assoc in Hpool.
    apply NoDup_app in Hpool as (Hpool & Hdis & _).
    split_and!; try done.
    + destruct Hi as [[Hs Hnd Hh Ht] _ Hnds Hfresh Hents Hids Hdata Hmem]. split; try done.
      intros p Hp. apply Hnds. rewrite Hf. simpl in Hp. set_solver.
    + simpl. intros He. apply (Hdis e He). set_solver.
    + apply Hi. rewrite Hf. set_solver.
Qed.

(** assigning to an entry that is on no list *)
Lemma fill_spec q l loans e f :
  rq_inv q l loans → e ∉ l → is_Some (q.(nodes) !! e) →
  rq_inv (set_node q e f) l loans ∧ pending (set_node q e f) l = pending q l ∧
  node (set_node q e f) e = f (node q e) ∧ live (set_node q e f) l = live q l.
Proof.
  intros Hi He Hx.
  assert (∀ p, p ∈ l → node (set_node q e f) p = node q p) as Hn.
  { intros p Hp. apply node_set_node_ne. by intros ->. }
  split_and!; [|apply pending_ext; [|done]; intros p Hp; by rewrite Hn|by apply node_set_node
    |apply live_data_ext; intros p Hp; by rewrite Hn].
  destruct Hi as [[Hs Hnd Hh Ht] Hpool Hnds Hfresh Hents Hids Hdata Hmem]. split; try done.
  - split; try done. by apply dseg_alter_notin.
  - intros p Hp. apply nodes_set_node. auto.
  - intros p. rewrite nodes_set_node. auto.
  - intros k p. simpl. rewrite Hents. split; intros [Hp ->]; by rewrite Hn.
  - intros p Hp. rewrite Hn by done. auto.
  - intros p Hp. rewrite Hn by done. auto.
  - rewrite (live_data_ext q); [done|]. intros p Hp. by rewrite Hn.
Qed.

(** linking a filled-in entry *)
Lemma link_spec q l loans e x s :
  rq_inv q l (s :: loans) → e ∉ l ++ q.(freeEntries) → is_Some (q.(nodes) !! e) →
  node q e = x → x.(e_data) = Some s → is_u32 x.(e_streamID) → is_u32 x.(e_seq) →
  q.(entries) !! key_of x = None →
  let q' := pushTail (q <| entries := <[key_of x := e]> q.(entries) |>) e in
  rq_inv q' (l ++ [e]) loans ∧ pending q' (l ++ [e]) = pending q l ++ [view q.(arena) x] ∧
  q'.(arena) = q.(arena) ∧ q'.(pendingFree) = q.(pendingFree) ∧ q'.(ackedThrough) = q.(ackedThrough) ∧
  live q' (l ++ [e]) = live q l ++ [s].
Proof.
  intros Hi He Hx Hxe Hdx Hu1 Hu2 Hfr.
  set (q1 := q <| entries := _ |>). set (q' := pushTail q1 e).
  assert (e ∉ l) as Hel by set_solver.
  assert (dll q1 l) as Hd1 by (destruct Hi as [[] _ _ _ _ _ _ _]; done).
  pose proof (pushTail_dll q1 l e Hd1 Hel Hx) as Hd. fold q' in Hd.
  pose proof (pushTail_relinked q1 e) as Hr. fold q' in Hr.
  assert (∀ p, core (node q' p) = core (node q p)) as Hn by (intros p; by rewrite (node_relinked q1 q' p)).
  assert (∀ p, is_Some (nodes q' !! p) ↔ is_Some (nodes q !! p)) as Hns by (intros p; by apply (nodes_relinked q1 q' p)).
  destruct Hr as (Hc & Hent & Hnx & Hfe & Har & Hpf & Hat).
  assert (∀ p, (node q' p).(e_data) = (node q p).(e_data)) as Hnd by (intros p; exact (f_equal e_data (Hn p))).
  split_and!; try done.
  - destruct Hi as [_ Hpool Hnds Hfresh Hents Hids Hdata Hmem]. split; try done.
    + rewrite Hfe. simpl. rewrite <- app_assoc. cbn [app]. rewrite <- Permutation_middle. by apply NoDup_cons.
    + intros p. rewrite Hns, Hfe. apply Hnds.
    + intros p. rewrite Hns, Hnx. apply Hfresh.
    + intros k p. rewrite Hent, (key_of_core _ _ (Hn p)). simpl. rewrite lookup_insert_Some, Hents.
      rewrite elem_of_app, list_elem_of_singleton. split.
      * intros [[<- <-]|(Hk & Hp & ->)]; [split; [by right|by rewrite Hxe]|auto].
      * intros [[Hp| ->] ->]; [right|left; by rewrite Hxe]. split_and!; try done. intros Heq.
        assert (entries q !! key_of (node q p) = Some p) as Hs by (by apply Hents). congruence.
    + intros p. rewrite elem_of_app, list_elem_of_singleton. intros Hp.
      pose proof (f_equal e_streamID (Hn p)) as H1. pose proof (f_equal e_seq (Hn p)) as H2.
      simpl in H1, H2. rewrite H1, H2. destruct Hp as [Hp| ->]; [by apply Hids|by rewrite Hxe].
    + intros p. rewrite elem_of_app, list_elem_of_singleton, Hnd. intros [Hp| ->]; [by apply Hdata|].
      rewrite Hxe, Hdx. eauto.
    + rewrite Har, Hpf, (live_data_ext q) by done. eapply mem_inv_proper; [|exact Hmem]. simpl.
      rewrite live_app, live_cons, Hxe, Hdx. simpl. rewrite <- app_assoc. done.
  - rewrite pending_app. f_equal; [apply pending_ext; [done|by rewrite Har]|].
    change (pending q' [e]) with [view q'.(arena) (node q' e)]. f_equal. rewrite <- Hxe.
    apply view_ext; [apply Hn|by rewrite Har].
  - rewrite live_app, live_cons, Hnd, Hxe, Hdx. f_equal. apply live_data_ext. by intros.
Qed.

Lemma add_spec q l loans ftype sid seq payload now :
  rq_inv q l loans → is_u32 sid → is_u32 seq → s_lookup sid seq (pending q l) = None →
  ∃ q' e s, add q ftype sid seq payload now = (q', s) ∧
    rq_inv q' (l ++ [e]) loans ∧
    pending q' (l ++ [e]) = s_add ftype sid seq payload now (pending q l) ∧
    slice_bytes q'.(arena) s = payload ∧ live q' (l ++ [e]) = live q l ++ [s] ∧
    q'.(pendingFree) = q.(pendingFree) ∧ q'.(ackedThrough) = q.(ackedThrough) ∧
    ∀ s', s' ∈ q.(pendingFree) ++ live q l ++ loans →
      slice_bytes q'.(arena) s' = slice_bytes q.(arena) s'.
Proof.
  intros Hi Hsid Hseq Hnone. unfold add.
  pose proof (ri_mem _ _ _ Hi) as Hm.
  pose proof (arena_get_spec _ _ (Zlen payload) Hm (Zlen_nonneg _)) as Hg.
  destruct (arena_get q.(arena) (Zlen payload)) as [a1 s]. destruct Hg as (Hm1 & Hsub & Hlen).
  destruct (slice_copy_spec a1 _ s payload Hm1 (eq_sym Hlen)) as (Hm2 & Hbs & Hoth).
  set (a2 := slice_copy a1 s payload) in *. clearbody a2.
  assert (∀ s', s' ∈ q.(pendingFree) ++ live q l ++ loans → slice_bytes a2 s' = slice_bytes q.(arena) s') as Hkeep.
  { intros s' Hs'. rewrite Hoth by done. by eapply slice_bytes_sub. }
  destruct (arena_spec q l loans a2 (s :: loans) Hi) as [Hi2 Hp2].
  { eapply mem_inv_proper; [|exact Hm2]. by rewrite !Permutation_middle. }
  { intros s' Hs'. apply Hkeep. set_solver. }
  pose proof (getEntry_spec _ _ _ Hi2) as Hge. destruct (getEntry (q <| arena := a2 |>)) as [q3 e].
  destruct Hge as (Hi3 & Hp3 & He & Hx & Ha3 & Hpf3 & Hen3 & Hat3 & Hl3).
  simpl in Ha3, Hpf3, Hen3, Hat3.
  set (f := λ x : retransmitEntry, _).
  destruct (fill_spec q3 l (s :: loans) e f Hi3) as (Hi4 & Hp4 & Hn4 & Hl4); [set_solver|done|].
  assert (entries q !! retransmitKey sid seq = None) as Hfree.
  { destruct (entries q !! _) as [e'|] eqn:He'; [|done].
    destruct (lookup_found_spec q l loans Hi sid seq Hsid Hseq e' He') as (? & ? & _ & Hs & _). congruence. }
  destruct (link_spec (set_node q3 e f) l loans e (f (node q3 e)) s Hi4)
    as (Hi5 & Hp5 & Ha5 & Hpf5 & Hat5 & Hd5); try done.
  { by apply nodes_set_node. }
  { simpl. rewrite Hen3. done. }
  match type of Hi5 with rq_inv ?q' _ _ => exists q', e, s end.
  split_and!; [reflexivity|exact Hi5| | | | | |].
  - rewrite Hp5, Hp4, Hp3, Hp2. unfold s_add, view. simpl. by rewrite Ha3, Hbs.
  - rewrite Ha5. simpl. by rewrite Ha3.
  - by rewrite Hd5, Hl4, Hl3.
  - by rewrite Hpf5, <- Hpf3.
  - by rewrite Hat5, <- Hat3.
  - intros s' Hs'. rewrite Ha5. simpl. rewrite Ha3. by apply Hkeep.
Qed.

(** ** Resending *)
Lemma view_queued a e b : view a (e <| e_queued := b |>) = view a e <| p_queued := b |>.
Proof. by destruct e. Qed.

Lemma requestForResend_spec q l loans sid seq minAge now :
  rq_inv q l loans → is_u32 sid → is_u32 seq →
  let '(q', r) := requestForResend q sid seq minAge now in
  rq_inv q' l loans ∧ ack_frame (q, l) (q', l) ∧
  match s_lookup sid seq (pending q l) with
  | Some f =>
      if f.(p_queued) || ((minAge >? 0) && (time_Sub now f.(p_sentAt) <? minAge))
      then r = None ∧ q' = q
      else r = Some (mkRequest sid seq) ∧ pending q' l = s_mark sid seq (pending q l)
  | None => r = None ∧ q' = q
  end.
Proof.
  intros Hi Hsid Hseq. unfold requestForResend.
  destruct (entries q !! retransmitKey sid seq) as [e|] eqn:He.
  - destruct (lookup_found_spec q l loans Hi sid seq Hsid Hseq e He) as (_ & _ & _ & -> & _).
    cbn [view p_queued p_sentAt].
    match goal with |- context [if ?b then (q, None) else _] => destruct b; [done|] end.
    destruct (lookup_found q l loans Hi sid seq Hsid Hseq e He) as (l1 & l2 & Hl & Hf & Hrest).
    assert (e ∈ l) as Hel by (rewrite Hl; set_solver).
    destruct (set_node_spec q l loans e (λ x, x <| e_queued := true |>) Hi) as [Hi' Hp']; [done..|].
    split_and!; [done|by apply set_node_frame|done|].
    rewrite Hp'. unfold s_mark, pending. rewrite <- list_fmap_compose. apply list_fmap_ext.
    intros i p Hp. simpl. apply list_elem_of_lookup_2 in Hp as Hp2. case_decide as Hd.
    + subst p. rewrite decide_True by done. apply view_queued.
    + rewrite decide_False; [done|]. apply Hrest. apply list_elem_of_fmap. exists p. split; [done|].
      rewrite Hl in Hp2. set_solver.
  - destruct (lookup_missing_spec q l loans Hi sid seq Hsid Hseq He) as [-> _]. done.
Qed.

Lemma peekForResend_spec q l loans req :
  rq_inv q l loans → is_u32 req.(req_streamID) → is_u32 req.(req_seq) →
  peekForResend q req =
    match s_lookup req.(req_streamID) req.(req_seq) (pending q l) with
    | Some f => if f.(p_queued) then Some (f.(p_ftype), Zlen f.(p_bytes)) else None
    | None => None
    end.
Proof.
  intros Hi Hsid Hseq. unfold peekForResend. destruct (entries q !! _) as [e|] eqn:He.
  - destruct (lookup_found_spec q l loans Hi _ _ Hsid Hseq e He) as (l1 & l2 & Hl & -> & _).
    rewrite (view_data_len q l loans) by (done || rewrite Hl; set_solver). done.
  - by destruct (lookup_missing_spec q l loans Hi _ _ Hsid Hseq He) as [-> _].
Qed.

(** moving an entry to the tail *)
Lemma requeue_spec q l1 e l2 loans :
  rq_inv q (l1 ++ e :: l2) loans →
  let q' := pushTail (unlink q e) e in
  rq_inv q' ((l1 ++ l2) ++ [e]) loans ∧ relinked q q' ∧
  pending q' ((l1 ++ l2) ++ [e]) = pending q (l1 ++ l2) ++ [view q.(arena) (node q e)].
Proof.
  intros Hi q'.
  assert (e ∉ l1 ++ l2) as Hel.
  { pose proof (dll_nodup _ _ (ri_dll _ _ _ Hi)) as Hnd.
    rewrite <- Permutation_middle in Hnd. by apply NoDup_cons in Hnd as []. }
  pose proof (unlink_dll _ _ _ _ (ri_dll _ _ _ Hi)) as Hd1.
  pose proof (unlink_relinked q e) as Hr1.
  assert (dll q' ((l1 ++ l2) ++ [e])) as Hd2.
  { apply pushTail_dll; [done|done|]. apply (nodes_relinked _ _ e Hr1).
    eapply dseg_lookup; [apply Hi|set_solver]. }
  assert (relinked q q') as Hr.
  { destruct Hr1 as (?&?&?&?&?&?&?).
    destruct (pushTail_relinked (unlink q e) e) as (?&?&?&?&?&?&?). repeat split; unfold q'; congruence. }
  destruct (relink_spec _ _ _ _ _ Hi Hr Hd2) as (Hi' & Hp' & _).
  { by rewrite <- Permutation_cons_append, Permutation_middle. }
  split_and!; [done|done|]. by rewrite Hp', pending_app.
Qed.

(** the bookkeeping of one resend, then the move to the tail *)
Definition stamp (now : Z) (x : retransmitEntry) : retransmitEntry :=
  x <| e_queued := false |> <| e_sentAt := now |> <| e_retries := x.(e_retries) + 1 |>.
Lemma resend_move_spec q l1 e l2 loans now :
  rq_inv q (l1 ++ e :: l2) loans →
  let q' := pushTail (unlink (set_node q e (stamp now)) e) e in
  rq_inv q' ((l1 ++ l2) ++ [e]) loans ∧
  pending q' ((l1 ++ l2) ++ [e]) = pending q (l1 ++ l2) ++ [view q.(arena) (stamp now (node q e))] ∧
  core (node q' e) = core (stamp now (node q e)) ∧
  live q' ((l1 ++ l2) ++ [e]) ≡ₚ live q (l1 ++ e :: l2) ∧
  q'.(arena) = q.(arena) ∧ q'.(pendingFree) = q.(pendingFree) ∧ q'.(ackedThrough) = q.(ackedThrough).
Proof.
  intros Hi q'. assert (e ∈ l1 ++ e :: l2) as Hel by set_solver.
  destruct (set_node_spec q _ loans e (stamp now) Hi) as [Hi1 _]; [done..|].
  pose proof (dseg_lookup _ _ _ _ e (dll_seg _ _ (ri_dll _ _ _ Hi)) Hel) as Hx.
  pose proof (node_set_node q e (stamp now) Hx) as Hne.
  assert (pending (set_node q e (stamp now)) (l1 ++ l2) = pending q (l1 ++ l2)) as Hp1.
  { apply pending_ext; [|done]. intros p Hp. rewrite node_set_node_ne; [done|]. intros ->.
    pose proof (dll_nodup _ _ (ri_dll _ _ _ Hi)) as Hnd.
    rewrite <- Permutation_middle in Hnd. by apply NoDup_cons in Hnd as []. }
  assert (live (set_node q e (stamp now)) (l1 ++ e :: l2) = live q (l1 ++ e :: l2)) as Hlv.
  { apply live_data_ext. intros p _. by apply node_set_node_keeps. }
  destruct (requeue_spec _ _ _ _ _ Hi1) as (Hi2 & Hr & Hp2). fold q' in Hi2, Hr, Hp2.
  split_and!; [done|by rewrite Hp2, Hp1, Hne|rewrite <- Hne; by apply node_relinked| |apply Hr..].
  rewrite <- Hlv, (live_ext (set_node q e (stamp now))) by (intros; by apply node_relinked).
  unfold live. by rewrite <- Permutation_cons_append, <- Permutation_middle.
Qed.

(** copying a live payload into a slot lent to the caller *)
Lemma lend_spec q l loans s :
  rq_inv q l loans → s ∈ live q l →
  let '(a, d) := arena_get q.(arena) s.(sl_len) in
  let a' := slice_copy a d (slice_bytes a s) in
  rq_inv (q <| arena := a' |>) l (d :: loans) ∧ pending (q <| arena := a' |>) l = pending q l ∧
  slice_bytes a' d = slice_bytes q.(arena) s ∧
  ∀ s', s' ∈ q.(pendingFree) ++ live q l ++ loans → slice_bytes a' s' = slice_bytes q.(arena) s'.
Proof.
  intros Hi Hs. pose proof (ri_mem _ _ _ Hi) as Hm.
  assert (s ∈ pendingFree q ++ live q l ++ loans) as Hs' by set_solver.
  destruct (mi_held _ _ Hm s Hs') as (bs & Hb & Hl).
  pose proof (arena_get_spec _ _ s.(sl_len) Hm (proj1 Hl)) as Hg.
  destruct (arena_get q.(arena) s.(sl_len)) as [a d]. destruct Hg as (Hm1 & Hsub & Hlen).
  rewrite (slice_bytes_sub _ a _ s Hm Hs' Hsub).
  destruct (slice_copy_spec a _ d (slice_bytes q.(arena) s) Hm1) as (Hm2 & Hbs & Hoth).
  { rewrite Hlen. unfold slice_bytes. rewrite Hb. simpl. unfold Zlen in *. rewrite length_take. lia. }
  set (a' := slice_copy a d _) in *. clearbody a'.
  assert (∀ x, x ∈ pendingFree q ++ live q l ++ loans → slice_bytes a' x = slice_bytes (arena q) x) as Hk.
  { intros x Hx. rewrite Hoth by done. by eapply slice_bytes_sub. }
  destruct (arena_spec q l loans a' (d :: loans) Hi) as [Hi2 Hp2].
  { eapply mem_inv_proper; [|exact Hm2]. by rewrite !Permutation_middle. }
  { intros x Hx. apply Hk. set_solver. }
  done.
Qed.

Lemma takeForResend_spec q l loans req now :
  rq_inv q l loans → is_u32 req.(req_streamID) → is_u32 req.(req_seq) →
  match s_lookup req.(req_streamID) req.(req_seq) (pending q l) with
  | Some f =>
      if f.(p_queued) then
        ∃ q' l' x s, takeForResend q req now = (q', Some x) ∧ x.(e_data) = Some s ∧
          rq_inv q' l' (s :: loans) ∧
          pending q' l' = s_resend req.(req_streamID) req.(req_seq) now (pending q l) ∧
          view q'.(arena) x = f <| p_queued := false |> <| p_sentAt := now |> <| p_retries := f.(p_retries) + 1 |> ∧
          q'.(pendingFree) = q.(pendingFree) ∧ q'.(ackedThrough) = q.(ackedThrough) ∧ live q' l' ≡ₚ live q l ∧
          ∀ s', s' ∈ q.(pendingFree) ++ live q l ++ loans → slice_bytes q'.(arena) s' = slice_bytes q.(arena) s'
      else takeForResend q req now = (q, None)
  | None => takeForResend q req now = (q, None)
  end.
Proof.
  intros Hi Hsid Hseq. unfold takeForResend. destruct (entries q !! _) as [e|] eqn:He;
    [|by destruct (lookup_missing_spec q l loans Hi _ _ Hsid Hseq He) as [-> _]].
  destruct (lookup_found_spec q l loans Hi _ _ Hsid Hseq e He) as (l1 & l2 & Hl & Hlk & Hrm).
  rewrite Hlk. unfold s_resend. rewrite Hlk, Hrm. cbn [view p_queued].
  destruct (e_queued (node q e)) eqn:Hq; [|done]. cbn [negb].
  assert (e ∈ l) as Hel by (rewrite Hl; set_solver).
  destruct (ri_data _ _ _ Hi e Hel) as [s Hs].
  pose proof (resend_move_spec q l1 e l2 loans now) as Hmv. rewrite <- Hl in Hmv.
  destruct (Hmv Hi) as (Hi2 & Hp2 & Hn2 & Hlp & Ha & Hpf & Hat). clear Hmv.
  unfold stamp in *. set (q2 := pushTail (unlink _ e) e) in *. clearbody q2.
  assert (e_data (node q2 e) = Some s) as Hs2 by (rewrite <- Hs; exact (f_equal e_data Hn2)).
  unfold data_len. rewrite Hs2.
  pose proof (lend_spec q2 _ loans s Hi2) as Hlend.
  destruct (arena_get q2.(arena) s.(sl_len)) as [a d].
  destruct Hlend as (Hi3 & Hp3 & Hb3 & Hk3); [eapply elem_of_live; [|done]; set_solver|].
  eexists _, _, _, d. split_and!; [reflexivity|done|exact Hi3| | |done|done|done|].
  - rewrite Hp3, Hp2. unfold view. simpl. by rewrite Hs.
  - unfold view. simpl. rewrite Hb3, Ha, Hs. destruct (node q2 e), (node q e).
    unfold core in Hn2. simpl in *. by injection Hn2 as -> -> -> -> -> -> ->.
  - intros x Hx'. simpl. rewrite Hk3, Ha; [done|]. by rewrite Hpf, Hlp.
Qed.

(** ** The due scan *)
Fixpoint s_due (rto now : Z) (L : list pframe) : list pframe * list retransmitRequest :=
  match L with
  | [] => ([], [])
  | f :: L' =>
      if time_Sub now f.(p_sentAt) <? rto then (L, [])
      else
        let '(L'', rs) := s_due rto now L' in
        (f <| p_queued := true |> :: L'',
         if f.(p_queued) then rs else mkRequest f.(p_streamID) f.(p_seq) :: rs)
  end.

Lemma dseg_next q done e rest loans :
  rq_inv q (done ++ e :: rest) loans → (node q e).(e_next) = head rest.
Proof.
  intros Hi. pose proof (dll_seg _ _ (ri_dll _ _ _ Hi)) as Hs. apply dseg_app in Hs as [_ Hs].
  destruct Hs as [(x & Hx & _ & Hn) _]. unfold node. rewrite Hx. simpl. by rewrite Hn, or_else_None_r.
Qed.

Lemma mark_head q done e rest loans :
  rq_inv q (done ++ e :: rest) loans →
  let q' := set_node q e (λ x, x <| e_queued := true |>) in
  rq_inv q' (done ++ e :: rest) loans ∧ pending q' done = pending q done ∧
  pending q' rest = pending q rest ∧
  view q'.(arena) (node q' e) = view q.(arena) (node q e) <| p_queued := true |>.
Proof.
  intros Hi q'.
  destruct (set_node_spec q _ loans e (λ x, x <| e_queued := true |>) Hi) as [Hi' _]; [done|set_solver|].
  pose proof (dll_nodup _ _ (ri_dll _ _ _ Hi)) as Hnd.
  rewrite <- Permutation_middle in Hnd. apply NoDup_cons in Hnd as [Hnd _].
  assert (∀ p, p ∈ done ++ rest → core (node q' p) = core (node q p)) as Hn.
  { intros p Hp. unfold q'. rewrite node_set_node_ne; [done|]. by intros ->. }
  split_and!; [done|apply pending_ext; [|done]; set_solver|apply pending_ext; [|done]; set_solver|].
  unfold q'. rewrite node_set_node; [apply view_queued|].
  eapply dseg_lookup; [apply Hi|set_solver].
Qed.

Lemma dueLoop_spec rest fuel q done loans rto now reqs :
  rq_inv q (done ++ rest) loans → (length rest ≤ fuel)%nat →
  ∃ q', dueLoop fuel q (head rest) rto now reqs = Some (q', reqs ++ (s_due rto now (pending q rest)).2) ∧
    rq_inv q' (done ++ rest) loans ∧ ack_frame (q, done ++ rest) (q', done ++ rest) ∧
    pending q' (done ++ rest) = pending q done ++ (s_due rto now (pending q rest)).1.
Proof.
  revert fuel q done reqs. induction rest as [|e rest IH]; intros fuel q done reqs Hi Hfuel.
  { exists q. destruct fuel; simpl; by rewrite !app_nil_r in *. }
  destruct fuel as [|fuel]; [simpl in Hfuel; lia|]. apply le_S_n in Hfuel.
  cbn [dueLoop head]. change (pending q (e :: rest)) with (view q.(arena) (node q e) :: pending q rest).
  cbn [s_due]. cbn [view p_sentAt p_queued p_streamID p_seq].
  case_bool_decide as Hage.
  { exists q. rewrite app_nil_r, pending_app. done. }
  destruct (s_due rto now (pending q rest)) as [L2 rs] eqn:Hsd.
  rewrite (dseg_next q done e rest loans Hi). pose proof Hi as Hi0.
  change (done ++ e :: rest) with (done ++ [e] ++ rest) in Hi. rewrite app_assoc in Hi.
  change (done ++ e :: rest) with (done ++ [e] ++ rest). rewrite !app_assoc.
  destruct (e_queued (node q e)) eqn:Hq.
  - destruct (IH fuel q (done ++ [e]) reqs Hi Hfuel) as (q' & Hrun & Hi' & Hf & Hp). rewrite Hsd in Hrun, Hp.
    exists q'. split_and!; [done|done|done|]. rewrite Hp, pending_app, <- app_assoc. do 2 f_equal.
    cbn. f_equal. unfold view. simpl. by rewrite Hq.
  - destruct (mark_head q done e rest loans Hi0) as (Hi1 & Hp1 & Hp2 & Hv).
    set (q1 := set_node q e _) in *.
    assert (ack_frame (q, (done ++ [e]) ++ rest) (q1, (done ++ [e]) ++ rest)) as Hf1 by by apply set_node_frame.
    clearbody q1. change (done ++ e :: rest) with (done ++ [e] ++ rest) in Hi1. rewrite app_assoc in Hi1.
    destruct (IH fuel q1 (done ++ [e]) (reqs ++ [mkRequest (e_streamID (node q e)) (e_seq (node q e))]) Hi1 Hfuel)
      as (q' & Hrun & Hi' & Hf & Hp).
    rewrite Hp2, Hsd in Hrun, Hp. exists q'. rewrite <- app_assoc in Hrun.
    split_and!; [done|done|by etrans|].
    rewrite Hp, pending_app, Hp1, <- app_assoc. do 2 f_equal. cbn. by rewrite Hv.
Qed.

Lemma inv_length q l loans : rq_inv q l loans → (length l ≤ size q.(nodes))%nat.
Proof.
  intros Hi. rewrite <- size_dom, <- (size_list_to_set (C:=gset positive) l) by apply Hi.
  apply subseteq_size. intros p Hp%elem_of_list_to_set. apply elem_of_dom.
  eapply dseg_lookup; [apply Hi|done].
Qed.

Lemma due_spec q l loans rto now :
  rq_inv q l loans →
  ∃ q', due q rto now = Some (q', (s_due rto now (pending q l)).2) ∧ rq_inv q' l loans ∧
    ack_frame (q, l) (q', l) ∧ pending q' l = (s_due rto now (pending q l)).1.
Proof.
  intros Hi. unfold due. rewrite (dll_head _ _ (ri_dll _ _ _ Hi)).
  exact (dueLoop_spec l _ q [] loans rto now [] Hi (inv_length _ _ _ Hi)).
Qed.

(** ** Purging a stream and recycling buffers *)
Lemma purgeLoop_spec order q l loans sid :
  rq_inv q l loans → (∀ k e, (k, e) ∈ order → e ∈ l ∧ k = key_of (node q e)) → NoDup order.*2 →
  (∀ p, p ∈ l → (node q p).(e_streamID) = sid → p ∈ order.*2) →
  ∃ l', rq_inv (purgeLoop q sid order) l' loans ∧ ack_frame (q, l) (purgeLoop q sid order, l') ∧
    pending (purgeLoop q sid order) l' = filter (λ f, f.(p_streamID) ≠ sid) (pending q l).
Proof.
  revert q l. induction order as [|[k e] order IH]; intros q l Hi Hord Hnd Hall; cbn [purgeLoop].
  { exists l. split_and!; [done|done|]. rewrite filter_all; [done|].
    intros f (p & -> & Hp)%list_elem_of_fmap Hs. by apply (Hall p) in Hs; [apply elem_of_nil in Hs|]. }
  apply NoDup_cons in Hnd as [Hne Hnd]. destruct (Hord k e) as [Hel ->]; [by left|].
  case_bool_decide as Hs.
  - apply list_elem_of_split in Hel as (l1 & l2 & ->).
    destruct (removeLocked_spec q l1 e l2 loans Hi) as (Hi' & Hp & Ha & Hpf & Hat & Hel & Hcore).
    set (q1 := removeLocked q _ e) in *.
    edestruct (IH q1 (l1 ++ l2) Hi') as (l' & Hi2 & Hf2 & Hp2).
    + intros k' e' Hin. destruct (Hord k' e') as [Hel' ->]; [by right|].
      assert (e' ≠ e) as Hee. { intros ->. apply Hne. by apply (list_elem_of_fmap_2 snd) in Hin. }
      split; [set_solver|]. symmetry. apply key_of_core, Hcore. set_solver.
    + done.
    + intros p Hpl Hps. pose proof (f_equal e_streamID (Hcore p Hpl)) as H1. simpl in H1.
      rewrite H1 in Hps. apply Hall in Hps; [|set_solver]. simpl in Hps. set_solver.
    + exists l'. split_and!; [done|etrans; [|done]; by eapply removeLocked_frame|].
      rewrite Hp2, Hp, !pending_app, !filter_app. f_equal. cbn.
      by rewrite decide_False by (simpl; tauto).
  - destruct (IH q l Hi) as (l' & Hi2 & Hf2 & Hp2); [|done| |by exists l'].
    + intros k' e' Hin. apply Hord. by right.
    + intros p Hpl Hps. apply (Hall p Hpl) in Hps as Hps'. simpl in Hps'.
      apply elem_of_cons in Hps' as [->|]; [done|done].
Qed.

(** the order in which [range q.entries] may visit the map *)
Definition map_order (q : retransmitQueue) (order : list (Z * positive)) : Prop :=
  order ≡ₚ map_to_list q.(entries).

Lemma purgeStream_spec q l loans sid order :
  rq_inv q l loans → map_order q order →
  let q' := purgeStream q sid order in
  ∃ l', rq_inv q' l' loans ∧ pending q' l' = filter (λ f, f.(p_streamID) ≠ sid) (pending q l) ∧
    q'.(arena) = q.(arena) ∧ q'.(ackedThrough) = delete sid q.(ackedThrough) ∧
    in_use q' l' ≡ₚ in_use q l.
Proof.
  intros Hi Ho. unfold purgeStream.
  assert (∀ k e, (k, e) ∈ order ↔ q.(entries) !! k = Some e) as Hin.
  { intros k e. by rewrite Ho, elem_of_map_to_list. }
  destruct (purgeLoop_spec order q l loans sid Hi) as (l' & Hi' & (Ha & Hat & Hpf) & Hp).
  - intros k e. rewrite Hin. apply Hi.
  - rewrite Ho. apply NoDup_fmap_2_strong; [|apply NoDup_map_to_list].
    intros [k1 e1] [k2 e2] H1 H2 ?. simpl in *. subst e2.
    apply elem_of_map_to_list, (ri_entries _ _ _ Hi) in H1 as [_ ->].
    by apply elem_of_map_to_list, (ri_entries _ _ _ Hi) in H2 as [_ ->].
  - intros p Hp _. apply list_elem_of_fmap. exists (key_of (node q p), p). split; [done|].
    apply Hin. by apply (ri_entries _ _ _ Hi).
  - simpl in Hat. exists l'. split_and!; try done; [|by rewrite <- Hat].
    destruct Hi' as [[] ???????]. done.
Qed.

Lemma put_all_spec a bufs held :
  mem_inv a (bufs ++ held) → mem_inv (foldl arena_put a bufs) held ∧ (foldl arena_put a bufs).(mem) = a.(mem).
Proof.
  revert a. induction bufs as [|s bufs IH]; intros a Hm; [done|]. cbn [foldl app] in *.
  destruct (arena_put_spec _ _ _ Hm) as [Hm1 He]. destruct (IH _ Hm1) as [Hm2 He2].
  split; [done|by rewrite He2].
Qed.

(** recycling a prefix of the buffers awaiting a drain changes no frame *)
Lemma recycle_spec q l loans pf1 pf2 :
  rq_inv q l loans → q.(pendingFree) = pf1 ++ pf2 →
  let q' := q <| arena := foldl arena_put q.(arena) pf1 |> <| pendingFree := pf2 |> in
  rq_inv q' l loans ∧ pending q' l = pending q l ∧ q'.(arena).(mem) = q.(arena).(mem).
Proof.
  intros Hi Hpf q'. pose proof (ri_mem _ _ _ Hi) as Hm. rewrite Hpf, <- app_assoc in Hm.
  destruct (put_all_spec _ _ _ Hm) as [Hm' He].
  split_and!; [|apply pending_ext; [done|]|done].
  - destruct Hi as [[] ???????]. split; done.
  - intros s Hs. apply slice_bytes_mem. unfold q'. simpl. by rewrite He.
Qed.

Lemma drainPendingFree_spec q l loans :
  rq_inv q l loans →
  rq_inv (drainPendingFree q) l loans ∧ pending (drainPendingFree q) l = pending q l ∧
  (drainPendingFree q).(arena).(mem) = q.(arena).(mem).
Proof. intros Hi. apply (recycle_spec q l loans q.(pendingFree) [] Hi). by rewrite app_nil_r. Qed.

Lemma drainPendingFreeFirst_spec q l loans n :
  rq_inv q l loans → 0 ≤ n →
  let q' := drainPendingFreeFirst q n in
  rq_inv q' l loans ∧ pending q' l = pending q l ∧ q'.(arena).(mem) = q.(arena).(mem) ∧
  q'.(pendingFree) = drop (Z.to_nat n) q.(pendingFree).
Proof.
  intros Hi Hn. unfold drainPendingFreeFirst.
  set (m := if n >? Zlen (pendingFree q) then _ else n).
  assert (0 ≤ m ≤ Zlen (pendingFree q)) as Hm.
  { unfold m. pose proof (Zlen_nonneg (pendingFree q)). case_bool_decide; lia. }
  assert (drop (Z.to_nat m) q.(pendingFree) = drop (Z.to_nat n) q.(pendingFree)) as Hd.
  { unfold m. case_bool_decide; [|done]. unfold Zlen in *. rewrite !drop_ge by lia. done. }
  clearbody m.
  destruct (recycle_spec q l loans (slice q.(pendingFree) 0 m) (slice q.(pendingFree) m (Zlen q.(pendingFree))) Hi)
    as (H1 & H2 & H3).
  { rewrite <- slice_split by lia. by rewrite slice_all. }
  split_and!; [done..|]. simpl. rewrite <- Hd. unfold slice. apply take_ge.
  rewrite length_drop. unfold Zlen in *. lia.
Qed.

Lemma releaseResendCopy_spec q l loans s :
  rq_inv q l (s :: loans) →
  rq_inv (releaseResendCopy q s) l loans ∧ pending (releaseResendCopy q s) l = pending q l ∧
  (releaseResendCopy q s).(arena).(mem) = q.(arena).(mem).
Proof.
  intros Hi. pose proof (ri_mem _ _ _ Hi) as Hm.
  assert (mem_inv q.(arena) (s :: q.(pendingFree) ++ live q l ++ loans)) as Hm1.
  { eapply mem_inv_proper; [|exact Hm]. by rewrite !Permutation_middle. }
  destruct (arena_put_spec _ _ _ Hm1) as [Hm2 He].
  destruct (arena_spec q l (s :: loans) (arena_put q.(arena) s) loans Hi Hm2) as [H1 H2].
  { intros s' _. apply slice_bytes_mem. by rewrite He. }
  done.
Qed.
