(* ===== verification/RetransmitRefine.v ===== *)
(** * Runs of the retransmission queue

    A client of the queue is a sequence of its operations.  This file runs
    such sequences on the concrete queue and on the specification (a list of
    pending frames) and shows that they agree, that a payload buffer handed to
    the kernel by reference keeps its bytes until it is drained, and that with
    a clock that does not run backwards the due scan finds every overdue
    frame although it stops at the first one that is not. *)
From Stdlib Require Import Sorted.
From S2P Require Import Prelude Errors Frame Retransmit RetransmitSpec.

Inductive rq_op :=
  | OpAdd (ftype sid seq : Z) (payload : list Z) (now : Z)
  | OpAckOne (sid seq : Z)
  | OpAckMany (sid : Z) (seqs : list Z) (now : Z)
  | OpAckCum (sid cum now : Z)
  | OpPurge (sid : Z) (order : list (Z * positive))
  | OpDrain
  | OpDrainFirst (n : Z)
  | OpRequest (sid seq minAge now : Z)
  | OpPeek (req : retransmitRequest)
  | OpTake (req : retransmitRequest) (now : Z)
  | OpRelease (s : bslice)
  | OpDue (rto now : Z).

(** what an operation returns, a payload as its bytes *)
Inductive rq_ret :=
  | RUnit
  | RBytes (payload : list Z)
  | RFreed (freedBytes rttSample : Z)
  | RReq (r : option retransmitRequest)
  | RShape (r : option (Z * Z))
  | RFrame (f : option pframe)
  | RReqs (rs : list retransmitRequest).

(** the queue, and the copies out with the resend worker *)
Definition rq_state : Type := retransmitQueue * list bslice.
Definition s_state : Type := list pframe * gmap Z Z.

Definition rq_step (st : rq_state) (op : rq_op) : option (rq_state * rq_ret) :=
  let '(q, loans) := st in
  match op with
  | OpAdd ftype sid seq payload now =>
      let '(q, s) := add q ftype sid seq payload now in
      Some (q, loans, RBytes (slice_bytes q.(arena) s))
  | OpAckOne sid seq => Some (ackOne q sid seq, loans, RUnit)
  | OpAckMany sid seqs now => let '(q, b, r) := ackMany q sid seqs now in Some (q, loans, RFreed b r)
  | OpAckCum sid cum now => let '(q, b, r) := ackCumulative q sid cum now in Some (q, loans, RFreed b r)
  | OpPurge sid order => Some (purgeStream q sid order, loans, RUnit)
  | OpDrain => Some (drainPendingFree q, loans, RUnit)
  | OpDrainFirst n => Some (drainPendingFreeFirst q n, loans, RUnit)
  | OpRequest sid seq minAge now =>
      let '(q, r) := requestForResend q sid seq minAge now in Some (q, loans, RReq r)
  | OpPeek req => Some (q, loans, RShape (peekForResend q req))
  | OpTake req now =>
      let '(q, x) := takeForResend q req now in
      Some (q, option_list (x ≫= e_data) ++ loans, RFrame (view q.(arena) <$> x))
  | OpRelease s => Some (releaseResendCopy q s, filter (λ x, x ≠ s) loans, RUnit)
  | OpDue rto now => '(q, rs) ← due q rto now; Some (q, loans, RReqs rs)
  end.

Definition s_step (st : s_state) (op : rq_op) : s_state * rq_ret :=
  let '(L, acked) := st in
  match op with
  | OpAdd ftype sid seq payload now => (s_add ftype sid seq payload now L, acked, RBytes payload)
  | OpAckOne sid seq => (s_remove sid seq L, acked, RUnit)
  | OpAckMany sid seqs now =>
      let '(L, b, r) := foldl (λ st seq, s_ack sid seq now st) (L, 0, 0) seqs in (L, acked, RFreed b r)
  | OpAckCum sid cum now =>
      let from := default 0 (acked !! sid) in
      if (cum <=? from) || (cum - from >? maxCumAdvance) then (L, acked, RFreed 0 0)
      else
        let '(L, b, r) := foldl (λ st seq, s_ack sid seq now st) (L, 0, 0) (seqZ from (cum - from)) in
        (L, <[sid := cum]> acked, RFreed b r)
  | OpPurge sid _ => (filter (λ f, f.(p_streamID) ≠ sid) L, delete sid acked, RUnit)
  | OpDrain | OpDrainFirst _ | OpRelease _ => (L, acked, RUnit)
  | OpRequest sid seq minAge now =>
      match s_lookup sid seq L with
      | Some f =>
          if f.(p_queued) || ((minAge >? 0) && (time_Sub now f.(p_sentAt) <? minAge))
          then (L, acked, RReq None)
          else (s_mark sid seq L, acked, RReq (Some (mkRequest sid seq)))
      | None => (L, acked, RReq None)
      end
  | OpPeek req =>
      (L, acked, RShape match s_lookup req.(req_streamID) req.(req_seq) L with
                        | Some f => if f.(p_queued) then Some (f.(p_ftype), Zlen f.(p_bytes)) else None
                        | None => None
                        end)
  | OpTake req now =>
      match s_lookup req.(req_streamID) req.(req_seq) L with
      | Some f =>
          if f.(p_queued) then
            (s_resend req.(req_streamID) req.(req_seq) now L, acked,
             RFrame (Some (f <| p_queued := false |> <| p_sentAt := now |> <| p_retries := f.(p_retries) + 1 |>)))
          else (L, acked, RFrame None)
      | None => (L, acked, RFrame None)
      end
  | OpDue rto now => let '(L, rs) := s_due rto now L in (L, acked, RReqs rs)
  end.

Definition all_u32 (seqs : list Z) : bool := forallb (λ x, (0 <=? x) && (x <? 2 ^ 32)) seqs.
Lemma all_u32_spec seqs : all_u32 seqs = true → Forall is_u32 seqs.
Proof.
  unfold all_u32. rewrite forallb_forall, Forall_forall. intros Hs x Hx.
  specialize (Hs x (proj1 (list_elem_of_In _ _) Hx)). bool_simpl. done.
Qed.

(** What the callers guarantee: ids are 32-bit, a frame is not added while it
    is still pending, the worker releases each copy it took once, and a purge
    ranges over the entry map. *)
Definition op_ok (st : rq_state) (L : list pframe) (op : rq_op) : Prop :=
  match op with
  | OpAdd _ sid seq _ _ => is_u32 sid ∧ is_u32 seq ∧ s_lookup sid seq L = None
  | OpAckOne sid seq | OpRequest sid seq _ _ => is_u32 sid ∧ is_u32 seq
  | OpAckMany sid seqs _ => is_u32 sid ∧ all_u32 seqs = true
  | OpAckCum sid cum _ => is_u32 sid ∧ is_u32 cum
  | OpPeek req | OpTake req _ => is_u32 req.(req_streamID) ∧ is_u32 req.(req_seq)
  | OpPurge _ order => map_order st.1 order
  | OpDrainFirst n => 0 ≤ n
  | OpRelease s => s ∈ st.2
  | OpDrain | OpDue _ _ => True
  end.

Definition acked_u32 (m : gmap Z Z) : Prop := map_Forall (λ _ c, is_u32 c) m.

(** the refinement relation *)
Definition rq_rel (st : rq_state) (sst : s_state) : Prop :=
  ∃ l, rq_inv st.1 l st.2 ∧ pending st.1 l = sst.1 ∧ st.1.(ackedThrough) = sst.2 ∧ acked_u32 sst.2.

Lemma loans_release q l loans s :
  rq_inv q l loans → s ∈ loans → rq_inv q l (s :: filter (λ x, x ≠ s) loans).
Proof.
  intros Hi Hs. enough (loans ≡ₚ s :: filter (λ x, x ≠ s) loans) as Hp.
  { destruct Hi. split; try done. by rewrite <- Hp. }
  assert (NoDup loans) as Hnd.
  { pose proof (mi_nodup _ _ (ri_mem _ _ _ Hi)) as Hn. rewrite !fmap_app, !app_assoc in Hn.
    apply NoDup_app in Hn as (_ & _ & Hn). by eapply NoDup_fmap_1. }
  apply list_elem_of_split in Hs as (l1 & l2 & ->). rewrite <- Permutation_middle in Hnd.
  apply NoDup_cons in Hnd as [Hnd _].
  rewrite filter_app, filter_cons_False by tauto.
  rewrite !filter_all by set_solver. by rewrite Permutation_middle.
Qed.

Lemma seqZ_u32 from cum : is_u32 from → is_u32 cum → Forall is_u32 (seqZ from (cum - from)).
Proof.
  intros H1 H2. apply Forall_forall. intros x [??]%elem_of_seqZ. unfold is_u32 in *. lia.
Qed.

(** ** One step *)

(** A drain that does not recycle [s]; other operations never do. *)
Definition op_spares (q : retransmitQueue) (s : bslice) (op : rq_op) : Prop :=
  match op with
  | OpDrain => s ∉ q.(pendingFree)
  | OpDrainFirst n => s ∉ take (Z.to_nat n) q.(pendingFree)
  | _ => True
  end.

(** buffers in use stay in use, with the same bytes *)
Definition keeps_buffers (q : retransmitQueue) (l : list positive) (op : rq_op)
    (q' : retransmitQueue) (l' : list positive) : Prop :=
  ∀ s, s ∈ in_use q l → op_spares q s op →
    s ∈ in_use q' l' ∧ slice_bytes q'.(arena) s = slice_bytes q.(arena) s.

Lemma ack_frame_keeps q l q' l' op :
  q'.(arena) = q.(arena) → in_use q' l' ≡ₚ in_use q l → keeps_buffers q l op q' l'.
Proof. intros Ha Hu s Hs _. by rewrite Hu, Ha. Qed.

Lemma ackOne_spec q l loans sid seq :
  rq_inv q l loans → is_u32 sid → is_u32 seq →
  ∃ l', rq_inv (ackOne q sid seq) l' loans ∧ ack_frame (q, l) (ackOne q sid seq, l') ∧
    pending (ackOne q sid seq) l' = s_remove sid seq (pending q l).
Proof.
  intros Hi Hsid Hseq. unfold ackOne. destruct (entries q !! _) as [e|] eqn:He.
  - destruct (lookup_found_spec q l loans Hi sid seq Hsid Hseq e He) as (l1 & l2 & -> & _ & ->).
    apply (ri_entries _ _ _ Hi) in He as [_ ->].
    destruct (removeLocked_spec q l1 e l2 loans Hi) as (Hi' & Hp & _).
    exists (l1 ++ l2). split_and!; [done|by eapply removeLocked_frame|done].
  - destruct (lookup_missing_spec q l loans Hi sid seq Hsid Hseq He) as [_ ->]. by exists l.
Qed.

Definition step_sim (q : retransmitQueue) (l : list positive) (loans : list bslice) (op : rq_op) : Prop :=
  ∃ q' loans' l' ret, rq_step (q, loans) op = Some (q', loans', ret) ∧
    s_step (pending q l, q.(ackedThrough)) op = (pending q' l', q'.(ackedThrough), ret) ∧
    rq_inv q' l' loans' ∧ keeps_buffers q l op q' l' ∧
    (acked_u32 q.(ackedThrough) → acked_u32 q'.(ackedThrough)).

Lemma sim_acks q l loans sid seqs now cum :
  rq_inv q l loans → is_u32 sid → Forall is_u32 seqs → is_u32 cum → acked_u32 q.(ackedThrough) →
  step_sim q l loans (OpAckMany sid seqs now) ∧ step_sim q l loans (OpAckCum sid cum now).
Proof.
  intros Hi Hsid Hseqs Hcum Hau. split.
  - destruct (ackLoop_spec seqs q l loans sid now 0 0 Hi Hsid Hseqs)
      as (q' & l' & b & r & E & Hi' & (Ha & Hat & Hu) & S).
    exists q', loans, l', (RFreed b r). simpl in *. unfold ackMany. rewrite E, S, Hat.
    split_and!; try done. by apply ack_frame_keeps.
  - unfold step_sim. cbn [rq_step s_step]. unfold ackCumulative.
    match goal with |- context [if ?b then (q, 0, 0) else _] => destruct b end.
    { by exists q, loans, l, (RFreed 0 0). }
    assert (is_u32 (default 0 (q.(ackedThrough) !! sid))) as Hfrom.
    { destruct (q.(ackedThrough) !! sid) as [c|] eqn:Hc; [by apply (Hau sid)|done]. }
    destruct (ackLoop_spec (seqZ _ _) q l loans sid now 0 0 Hi Hsid (seqZ_u32 _ _ Hfrom Hcum))
      as (q' & l' & b & r & E & Hi' & (Ha & Hat & Hu) & S).
    rewrite E, S. simpl in *. eexists _, _, l', _. split_and!; [done|by rewrite <- Hat| | |].
    + destruct Hi' as [[] ???????]. split; done.
    + by apply ack_frame_keeps.
    + intros _. simpl. apply map_Forall_insert_2; [done|]. by rewrite Hat.
Qed.

Lemma sim_resend q l loans op :
  rq_inv q l loans → op_ok (q, loans) (pending q l) op →
  match op with OpRequest _ _ _ _ | OpPeek _ | OpTake _ _ | OpDue _ _ | OpRelease _ => step_sim q l loans op | _ => True end.
Proof.
  intros Hi Hop. destruct op as [| | | | | | |sid seq minAge now|req|req now|s|rto now]; try done; unfold step_sim; cbn [rq_step s_step op_ok] in *.
  - destruct Hop as [Hsid Hseq]. pose proof (requestForResend_spec q l loans sid seq minAge now Hi Hsid Hseq) as Hr.
    destruct (requestForResend q sid seq minAge now) as [q' r]. destruct Hr as (Hi' & (Ha & Hat & Hu) & Hr).
    simpl in *. exists q', loans, l, (RReq r). rewrite Hat.
    split_and!; [done| |done|by apply ack_frame_keeps|done].
    destruct (s_lookup sid seq (pending q l)) as [f|]; [|by destruct Hr as [-> ->]].
    destruct (_ || _); destruct Hr as [-> Hr]; [by rewrite Hr|by rewrite Hr].
  - destruct Hop as [Hsid Hseq]. rewrite (peekForResend_spec q l loans req) by done.
    eexists q, loans, l, _. done.
  - destruct Hop as [Hsid Hseq]. pose proof (takeForResend_spec q l loans req now Hi Hsid Hseq) as Hr.
    destruct (s_lookup _ _ (pending q l)) as [f|] eqn:Hlk; [destruct (p_queued f)|].
    2,3: rewrite Hr; by exists q, loans, l, (RFrame None).
    destruct Hr as (q' & l' & x & s & -> & Hx & Hi' & Hp & Hv & Hpf & Hat & Hlp & Hk).
    eexists q', (s :: loans), l', _. simpl. rewrite Hx, Hv, Hat, Hp. split_and!; try done.
    intros s' Hs' _. split; [unfold in_use in *; by rewrite Hpf, Hlp|]. apply Hk. unfold in_use in Hs'. set_solver.
  - destruct (releaseResendCopy_spec q l _ s (loans_release _ _ _ _ Hi Hop)) as (Hi' & Hp & Hm).
    eexists _, _, l, _. split_and!; [done|by rewrite Hp|done| |done].
    intros s' Hs' _. split; [done|]. apply slice_bytes_mem. by rewrite Hm.
  - destruct (due_spec q l loans rto now Hi) as (q' & -> & Hi' & (Ha & Hat & Hu) & Hp).
    destruct (s_due rto now (pending q l)) as [L rs]. simpl in *. subst L.
    exists q', loans, l, (RReqs rs). rewrite Hat. split_and!; try done. by apply ack_frame_keeps.
Qed.

Lemma sim_step q l loans op :
  rq_inv q l loans → acked_u32 q.(ackedThrough) → op_ok (q, loans) (pending q l) op →
  step_sim q l loans op.
Proof.
  intros Hi Hau Hop. pose proof (sim_resend q l loans op Hi Hop) as Hre.
  destruct op as [ftype sid seq payload now|sid seq|sid seqs now|sid cum now|sid order| |n| | | | |];
    try done; clear Hre; unfold step_sim; cbn [op_ok] in Hop.
  - destruct Hop as (Hsid & Hseq & Hno).
    destruct (add_spec q l loans ftype sid seq payload now Hi Hsid Hseq Hno)
      as (q' & e & s & E & Hi' & Hp & Hb & Hl & Hpf & Hat & Hk).
    cbn [rq_step s_step]. rewrite E. eexists q', loans, (l ++ [e]), _.
    rewrite Hb, Hp, Hat. split_and!; [done|done|done| |done].
    intros s' Hs' _. unfold in_use in *. rewrite Hpf, Hl. split; [set_solver|apply Hk; set_solver].
  - destruct Hop as [Hsid Hseq].
    destruct (ackOne_spec q l loans sid seq Hi Hsid Hseq) as (l' & Hi' & (Ha & Hat & Hu) & Hp).
    simpl in *. eexists _, loans, l', RUnit. rewrite Hat, Hp. split_and!; try done. by apply ack_frame_keeps.
  - destruct Hop as [? ?%all_u32_spec]. by apply (sim_acks _ _ _ _ _ _ 0).
  - by destruct Hop; apply (sim_acks _ _ _ _ []).
  - destruct (purgeStream_spec q l loans sid order Hi Hop) as (l' & Hi' & Hp & Ha & Hat & Hu).
    eexists _, loans, l', RUnit. cbn [rq_step s_step]. rewrite Hat, Hp. split_and!; try done.
    + by apply ack_frame_keeps.
    + by apply map_Forall_delete.
  - destruct (drainPendingFree_spec q l loans Hi) as (Hi' & Hp & Hm).
    eexists _, loans, l, RUnit. cbn [rq_step s_step]. rewrite Hp. split_and!; try done.
    intros s Hs Hsp. cbn [op_spares] in Hsp. unfold in_use in *. split; [set_solver|].
    apply slice_bytes_mem. by rewrite Hm.
  - destruct (drainPendingFreeFirst_spec q l loans n Hi Hop) as (Hi' & Hp & Hm & Hpf).
    eexists _, loans, l, RUnit. cbn [rq_step s_step]. rewrite Hp. split_and!; try done.
    intros s Hs Hsp. cbn [op_spares] in Hsp. unfold in_use in *. rewrite Hpf. split.
    + rewrite <- (take_drop (Z.to_nat n) (pendingFree q)), <- app_assoc in Hs. set_solver.
    + apply slice_bytes_mem. by rewrite Hm.
Qed.

(** ** Runs *)
Fixpoint rq_run (st : rq_state) (ops : list rq_op) : option (rq_state * list rq_ret) :=
  match ops with
  | [] => Some (st, [])
  | op :: ops => '(st, r) ← rq_step st op; '(st, rs) ← rq_run st ops; Some (st, r :: rs)
  end.
Fixpoint s_run (sst : s_state) (ops : list rq_op) : s_state * list rq_ret :=
  match ops with
  | [] => (sst, [])
  | op :: ops => let '(sst, r) := s_step sst op in let '(sst, rs) := s_run sst ops in (sst, r :: rs)
  end.
Fixpoint ops_ok (st : rq_state) (sst : s_state) (ops : list rq_op) : Prop :=
  match ops with
  | [] => True
  | op :: ops => op_ok st sst.1 op ∧
      match rq_step st op with Some (st, _) => ops_ok st (s_step sst op).1 ops | None => True end
  end.

Lemma rq_inv_new maxPayload : 0 ≤ maxPayload → rq_inv (newRetransmitQueue maxPayload) [] [].
Proof.
  intros Hm. split; simpl.
  - split; simpl; try done. apply NoDup_nil_2.
  - apply NoDup_nil_2.
  - set_solver.
  - intros p [x Hx]. by rewrite lookup_empty in Hx.
  - intros k p. rewrite lookup_empty. set_solver.
  - set_solver.
  - set_solver.
  - split; simpl; [done|lia|apply NoDup_nil_2|set_solver|set_solver|].
    intros b [x Hx]. by rewrite lookup_empty in Hx.
Qed.

Lemma rq_run_sim ops st sst :
  rq_rel st sst → ops_ok st sst ops →
  ∃ st' sst' rets, rq_run st ops = Some (st', rets) ∧ s_run sst ops = (sst', rets) ∧ rq_rel st' sst'.
Proof.
  revert st sst. induction ops as [|op ops IH]; intros st sst Hr Hok.
  { by exists st, sst, []. }
  destruct st as [q loans], sst as [L acked]. destruct Hr as (l & Hi & Hp & Hat & Hau).
  simpl in Hi, Hp, Hat, Hau. subst L acked. destruct Hok as [Hop Hok]. cbn [fst] in Hop.
  destruct (sim_step q l loans op Hi Hau Hop) as (q' & loans' & l' & r & E & S & Hi' & _ & Hau').
  rewrite E, S in Hok. cbn [fst] in Hok.
  destruct (IH (q', loans') (pending q' l', ackedThrough q')) as (st2 & sst2 & rs & E2 & S2 & Hr2); [|done|].
  { exists l'. split_and!; auto. }
  exists st2, sst2, (r :: rs). cbn [rq_run s_run]. rewrite E, S. cbn [mbind option_bind]. rewrite E2, S2. done.
Qed.

(** C10: the retransmission queue (entry map, intrusive doubly linked list,
    entry pool and buffer arena) refines a plain list of pending frames in
    send order: for every admissible sequence of [add], [ackOne], [ackMany],
    [ackCumulative], [purgeStream], [requestForResend], [peekForResend],
    [takeForResend], [releaseResendCopy], [due] and drains on a new queue, the
    queue completes every operation, returns what the specification returns
    (freed bytes, RTT samples, requests and payload bytes included), and ends
    in a state that represents the specification's. *)
Theorem rq_refines_list maxPayload ops :
  0 ≤ maxPayload → ops_ok (newRetransmitQueue maxPayload, []) ([], ∅) ops →
  ∃ st' sst' rets, rq_run (newRetransmitQueue maxPayload, []) ops = Some (st', rets) ∧
    s_run ([], ∅) ops = (sst', rets) ∧ rq_rel st' sst'.
Proof.
  intros Hm Hok. apply rq_run_sim; [|done]. exists []. split_and!; [by apply rq_inv_new|done|done|].
  apply map_Forall_empty.
Qed.

(** a retransmission after a NACK, a cumulative ACK past it, a purge *)
Definition witness_ops : list rq_op :=
  [ OpAdd 1 7 0 [10; 11; 12] 100; OpAdd 1 7 1 [20; 21] 110; OpAdd 1 9 0 [30] 120;
    OpRequest 7 0 5 200; OpPeek (mkRequest 7 0); OpTake (mkRequest 7 0) 210; OpRelease (mkSlice 125 3);
    OpDue 60 180; OpAckCum 7 2 400; OpDrainFirst 1; OpAckOne 9 5; OpDrain; OpAckMany 9 [0; 0] 500 ].

Lemma rq_refines_list_witness :
  ∃ st', rq_run (newRetransmitQueue 4, []) witness_ops = Some (st',
    [ RBytes [10; 11; 12]; RBytes [20; 21]; RBytes [30]; RReq (Some (mkRequest 7 0)); RShape (Some (1, 3));
      RFrame (Some (mkPframe 1 7 0 [10; 11; 12] 210 1 false)); RUnit;
      RReqs [mkRequest 7 1; mkRequest 9 0]; RFreed 5 290; RUnit; RUnit; RUnit; RFreed 1 380 ]) ∧
    rq_rel st' (s_run ([], ∅) witness_ops).1.
Proof.
  destruct (rq_refines_list 4 witness_ops) as (st' & sst' & rets & E & S & Hr); [lia| |].
  - vm_compute. repeat split; try discriminate. apply list_elem_of_here.
  - exists st'. rewrite S. split; [|exact Hr]. rewrite E. f_equal. f_equal.
    apply (f_equal snd) in S. vm_compute in S. symmetry. exact S.
Defined.

(** ** Zero-copy sends *)

(** no drain of the run recycles [s] *)
Fixpoint run_spares (st : rq_state) (s : bslice) (ops : list rq_op) : Prop :=
  match ops with
  | [] => True
  | op :: ops => op_spares st.1 s op ∧
      match rq_step st op with Some (st, _) => run_spares st s ops | None => True end
  end.

Lemma run_keeps ops q l loans s :
  rq_inv q l loans → acked_u32 q.(ackedThrough) → s ∈ in_use q l →
  ops_ok (q, loans) (pending q l, q.(ackedThrough)) ops → run_spares (q, loans) s ops →
  ∃ q' loans' rets, rq_run (q, loans) ops = Some (q', loans', rets) ∧
    slice_bytes q'.(arena) s = slice_bytes q.(arena) s.
Proof.
  revert q l loans. induction ops as [|op ops IH]; intros q l loans Hi Hau Hs Hok Hsp.
  { by exists q, loans, []. }
  destruct Hok as [Hop Hok], Hsp as [Hsp1 Hsp]. cbn [fst] in *.
  destruct (sim_step q l loans op Hi Hau Hop) as (q1 & loans1 & l1 & r & E & S & Hi1 & Hk & Hau1).
  rewrite E in Hok, Hsp. rewrite S in Hok. cbn [fst] in *. destruct (Hk s Hs Hsp1) as [Hs1 Hb1].
  destruct (IH q1 l1 loans1 Hi1 (Hau1 Hau) Hs1 Hok Hsp) as (q2 & loans2 & rs & E2 & Hb2).
  exists q2, loans2, (r :: rs). cbn [rq_run]. rewrite E. cbn [mbind option_bind]. rewrite E2.
  split; [done|by rewrite Hb2].
Qed.

Lemma ops_ok_app ops st sst op ops2 st1_rets :
  rq_rel st sst → ops_ok st sst (ops ++ op :: ops2) → rq_run st ops = Some st1_rets →
  ∃ sst1, rq_rel st1_rets.1 sst1 ∧ op_ok st1_rets.1 sst1.1 op ∧
    match rq_step st1_rets.1 op with Some (st, _) => ops_ok st (s_step sst1 op).1 ops2 | None => True end.
Proof.
  revert st sst st1_rets. induction ops as [|op1 ops IH]; intros st sst sr Hr Hok Hrun.
  { injection Hrun as <-. exists sst. destruct Hok. done. }
  destruct st as [q loans], sst as [L acked]. destruct Hr as (l & Hi & Hp & Hat & Hau).
  simpl in Hi, Hp, Hat, Hau. subst L acked. destruct Hok as [Hop Hok]. cbn [fst] in Hop.
  destruct (sim_step q l loans op1 Hi Hau Hop) as (q' & loans' & l' & r & E & S & Hi' & _ & Hau').
  cbn [rq_run] in Hrun. rewrite E, S in Hok. rewrite E in Hrun. cbn [fst mbind option_bind] in Hok, Hrun.
  destruct (rq_run (q', loans') ops) as [[st2 rs]|] eqn:E2; [|done]. injection Hrun as <-. cbn [fst].
  apply (IH (q', loans') (pending q' l', ackedThrough q') (st2, rs)); [|done|done].
  exists l'. split_and!; auto.
Qed.

(** C11: the slice [add] returns, which the connection hands to the kernel by
    reference, holds the frame's payload through any further admissible
    operations (new frames, ACKs of this frame, purges, resends, due scans,
    drains of other buffers) until a drain recycles that very slot: no slot
    still referenced by a pending frame or awaiting a drain is ever handed out
    again or written. *)
Theorem zero_copy_stable maxPayload ops1 ftype sid seq payload now ops2 st1 q2 s rets1 :
  0 ≤ maxPayload →
  rq_run (newRetransmitQueue maxPayload, []) ops1 = Some (st1, rets1) →
  add st1.1 ftype sid seq payload now = (q2, s) →
  ops_ok (newRetransmitQueue maxPayload, []) ([], ∅) (ops1 ++ OpAdd ftype sid seq payload now :: ops2) →
  run_spares (q2, st1.2) s ops2 →
  ∃ q' loans' rets, rq_run (q2, st1.2) ops2 = Some (q', loans', rets) ∧
    slice_bytes q'.(arena) s = payload.
Proof.
  intros Hm Hrun1 Hadd Hok Hsp.
  assert (rq_rel (newRetransmitQueue maxPayload, []) ([], ∅)) as Hrel.
  { exists []. split_and!; [by apply rq_inv_new|done|done|apply map_Forall_empty]. }
  destruct (ops_ok_app _ _ _ _ _ (st1, rets1) Hrel Hok Hrun1) as (sst1 & (l1 & Hi1 & Hp1 & Hat1 & Hau1) & Hop & Hok2).
  destruct st1 as [q1 loans1], sst1 as [L1 ack1]. simpl in *. subst L1 ack1.
  rewrite Hadd in Hok2. destruct Hop as (Hsid & Hseq & Hno).
  destruct (add_spec q1 l1 loans1 ftype sid seq payload now Hi1 Hsid Hseq Hno)
    as (q2' & e & s' & E & Hi2 & Hp2 & Hb2 & Hl2 & Hpf2 & Hat2 & _).
  rewrite Hadd in E. injection E as <- <-. rewrite <- Hb2.
  eapply run_keeps; [exact Hi2|by rewrite Hat2|unfold in_use; rewrite Hl2; set_solver| |done].
  by rewrite Hp2, Hat2.
Qed.

(** the frame is acknowledged, and another added, before any drain *)
Lemma zero_copy_stable_witness :
  let q2 := (add (newRetransmitQueue 4) 1 7 0 [10; 11] 100).1 in
  ∃ q' loans' rets,
    rq_run (q2, []) [OpAckOne 7 0; OpAdd 1 7 1 [5; 6; 7] 120; OpDrainFirst 0] = Some (q', loans', rets) ∧
    slice_bytes q'.(arena) (mkSlice 128 2) = [10; 11].
Proof.
  intros q2.
  apply (zero_copy_stable 4 [] 1 7 0 [10; 11] 100 [OpAckOne 7 0; OpAdd 1 7 1 [5; 6; 7] 120; OpDrainFirst 0]
           (newRetransmitQueue 4, []) q2 (mkSlice 128 2) []).
  - lia.
  - reflexivity.
  - vm_compute. reflexivity.
  - vm_compute. repeat split; discriminate.
  - vm_compute. repeat split. intros Hx. apply elem_of_nil in Hx. done.
Defined.

(** ** Overdue frames *)
Definition sent_sorted (t : Z) (L : list pframe) : Prop :=
  StronglySorted Z.le (p_sentAt <$> L) ∧ Forall (λ f, f.(p_sentAt) ≤ t) L.

Lemma sorted_fmap_filter (P : pframe → Prop) `{!∀ x, Decision (P x)} L :
  StronglySorted Z.le (p_sentAt <$> L) → StronglySorted Z.le (p_sentAt <$> filter P L).
Proof.
  induction L as [|f L IH]; [done|]. rewrite fmap_cons. intros [Hs Hf]%StronglySorted_inv.
  destruct (decide (P f)); [rewrite filter_cons_True by done|rewrite filter_cons_False by done; auto].
  rewrite fmap_cons. constructor; [auto|]. rewrite Forall_fmap in *. rewrite Forall_forall in *.
  intros x [_ Hx]%list_elem_of_filter. by apply Hf.
Qed.

Lemma sorted_snoc (l : list Z) x : StronglySorted Z.le l → Forall (λ y, y ≤ x) l → StronglySorted Z.le (l ++ [x]).
Proof.
  induction l as [|y l IH]; simpl; [by repeat constructor|].
  intros [Hs Hf]%StronglySorted_inv [Hy Hl]%Forall_cons. constructor; [auto|].
  apply Forall_app. split; [done|]. by constructor.
Qed.

Lemma sent_sorted_weaken t t' L : t ≤ t' → sent_sorted t L → sent_sorted t' L.
Proof. intros Ht [Hs Hf]. split; [done|]. eapply Forall_impl; [exact Hf|]. simpl. lia. Qed.

Lemma sent_sorted_filter t (P : pframe → Prop) `{!∀ x, Decision (P x)} L :
  sent_sorted t L → sent_sorted t (filter P L).
Proof.
  intros [Hs Hf]. split; [by apply sorted_fmap_filter|]. rewrite Forall_forall in *.
  intros x [_ Hx]%list_elem_of_filter. auto.
Qed.

Lemma sent_sorted_snoc t L f : sent_sorted t L → f.(p_sentAt) = t → sent_sorted t (L ++ [f]).
Proof.
  intros [Hs Hf] Ht. split.
  - rewrite fmap_app. cbn. rewrite Ht. apply sorted_snoc; [done|]. by apply Forall_fmap.
  - apply Forall_app. split; [done|]. constructor; [lia|done].
Qed.

Lemma sent_sorted_same t L L' : p_sentAt <$> L' = p_sentAt <$> L → sent_sorted t L → sent_sorted t L'.
Proof.
  intros He [Hs Hf]. split; [by rewrite He|].
  assert (Forall (λ x, x ≤ t) (p_sentAt <$> L')) as Hx by (rewrite He; by apply Forall_fmap).
  rewrite Forall_fmap in Hx. exact Hx.
Qed.

Lemma s_due_sentAt rto now L : p_sentAt <$> (s_due rto now L).1 = p_sentAt <$> L.
Proof.
  induction L as [|f L IH]; [done|]. cbn [s_due]. case_bool_decide; [done|].
  destruct (s_due rto now L) as [L' rs]. cbn [fst] in *. rewrite !fmap_cons. by rewrite IH.
Qed.

(** the clock read by an operation *)
Definition op_now (op : rq_op) : option Z :=
  match op with
  | OpAdd _ _ _ _ now | OpAckMany _ _ now | OpAckCum _ _ now | OpRequest _ _ _ now
  | OpTake _ now | OpDue _ now => Some now
  | _ => None
  end.
(** the clock after a run from [t], if it never runs backwards *)
Fixpoint clock_ok (t : Z) (ops : list rq_op) (t' : Z) : Prop :=
  match ops with
  | [] => t ≤ t'
  | op :: ops => let n := default t (op_now op) in t ≤ n ∧ clock_ok n ops t'
  end.

Lemma s_ack_sorted t sid now seqs L b r :
  sent_sorted t L → sent_sorted t (foldl (λ st seq, s_ack sid seq now st) (L, b, r) seqs).1.1.
Proof.
  revert L b r. induction seqs as [|seq seqs IH]; intros L b r Hs; [done|]. cbn [foldl].
  destruct (s_ack sid seq now (L, b, r)) as [[L' b'] r'] eqn:E. apply IH. cbn [s_ack] in E.
  destruct (s_lookup sid seq L); injection E as <- _ _; [by apply sent_sorted_filter|done].
Qed.

Lemma s_step_sorted t sst op :
  sent_sorted t sst.1 → t ≤ default t (op_now op) → sent_sorted (default t (op_now op)) (s_step sst op).1.1.
Proof.
  intros Hs Ht. apply (sent_sorted_weaken _ _ _ Ht) in Hs. destruct sst as [L acked]. cbn [fst] in Hs.
  destruct op as [ftype sid seq payload now|sid seq|sid seqs now|sid cum now|sid order| |n|sid seq minAge now|req|req now|s|rto now];
    cbn [s_step op_now default from_option] in *; try done.
  - by apply sent_sorted_snoc.
  - by apply sent_sorted_filter.
  - pose proof (s_ack_sorted now sid now seqs L 0 0 Hs). by destruct (foldl _ _ _) as [[??]?].
  - destruct (_ || _); [done|].
    match goal with |- context [foldl _ _ ?s] => pose proof (s_ack_sorted now sid now s L 0 0 Hs) end.
    by destruct (foldl _ _ _) as [[??]?].
  - by apply sent_sorted_filter.
  - destruct (s_lookup sid seq L); [|done]. destruct (_ || _); [done|]. cbn [fst].
    eapply sent_sorted_same; [|done]. unfold s_mark. rewrite <- list_fmap_compose. apply list_fmap_ext.
    intros i f _. simpl. by case_decide.
  - destruct (s_lookup _ _ L) eqn:Hl; [|done]. destruct (p_queued _); [|done]. cbn [fst].
    unfold s_resend. rewrite Hl. apply sent_sorted_snoc; [by apply sent_sorted_filter|done].
  - pose proof (s_due_sentAt rto now L) as He. destruct (s_due rto now L) as [L' rs]. cbn [fst] in *.
    by eapply sent_sorted_same.
Qed.

Lemma s_run_sorted ops t t' sst :
  sent_sorted t sst.1 → clock_ok t ops t' → sent_sorted t' (s_run sst ops).1.1.
Proof.
  revert t sst. induction ops as [|op ops IH]; intros t sst Hs Hc.
  { by eapply sent_sorted_weaken. }
  destruct Hc as [Ht Hc]. cbn [s_run]. pose proof (s_step_sorted t sst op Hs Ht) as Hs1.
  destruct (s_step sst op) as [sst1 r]. cbn [fst] in Hs1. specialize (IH _ _ Hs1 Hc).
  by destruct (s_run sst1 ops).
Qed.

(** frames at least [rto] old and without a queued resend *)
Definition overdue (rto now : Z) (f : pframe) : Prop := rto ≤ time_Sub now f.(p_sentAt) ∧ f.(p_queued) = false.
#[export] Instance overdue_dec rto now f : Decision (overdue rto now f).
Proof. unfold overdue. apply _. Defined.
Definition request_of (f : pframe) : retransmitRequest := mkRequest f.(p_streamID) f.(p_seq).

Lemma time_Sub_mono now a b : a ≤ b → time_Sub now b ≤ time_Sub now a.
Proof. intros. unfold time_Sub, minInt64, maxInt64. repeat case_decide; lia. Qed.

Lemma s_due_sorted rto now t L :
  sent_sorted t L → (s_due rto now L).2 = request_of <$> filter (overdue rto now) L.
Proof.
  intros [Hs _]. induction L as [|f L IH]; [done|]. rewrite fmap_cons in Hs.
  apply StronglySorted_inv in Hs as [Hs Hf]. specialize (IH Hs). cbn [s_due].
  case_bool_decide as Hage.
  - rewrite filter_none; [done|]. intros g Hg [Hg' _].
    assert (f.(p_sentAt) ≤ g.(p_sentAt)) as Hle.
    { apply elem_of_cons in Hg as [->|Hg]; [lia|]. rewrite Forall_fmap, Forall_forall in Hf. by apply Hf. }
    pose proof (time_Sub_mono now _ _ Hle). lia.
  - destruct (s_due rto now L) as [L' rs]. cbn [snd] in *. subst rs.
    destruct (p_queued f) eqn:Hq.
    + rewrite filter_cons_False; [done|]. unfold overdue. rewrite Hq. naive_solver.
    + rewrite filter_cons_True; [done|]. split; [lia|done].
Qed.

(** After any admissible run whose clock does not run backwards, the due
    scan, which walks the send-order list from its head and stops at the first
    entry younger than the RTO, terminates and requests exactly the pending
    frames that are at least [rto] old and not already queued for a resend, in
    send order: none is missed behind the stopping point. *)
Theorem due_exact maxPayload ops rto now :
  0 ≤ maxPayload → ops_ok (newRetransmitQueue maxPayload, []) ([], ∅) ops → clock_ok 0 ops now →
  ∃ st rets q', rq_run (newRetransmitQueue maxPayload, []) ops = Some (st, rets) ∧
    due st.1 rto now =
      Some (q', request_of <$> filter (overdue rto now) (s_run ([], ∅) ops).1.1).
Proof.
  intros Hm Hok Hc. pose proof (s_run_sorted ops 0 now ([], ∅)) as Hsort.
  destruct (rq_run_sim ops (newRetransmitQueue maxPayload, []) ([], ∅)) as (st & sst & rets & E & S & l & Hi & Hp & _).
  { exists []. split_and!; [by apply rq_inv_new|done|done|apply map_Forall_empty]. }
  { done. }
  destruct (due_spec st.1 l st.2 rto now Hi) as (q' & Hdue & _).
  exists st, rets, q'. split; [done|]. rewrite Hdue, Hp, S. cbn [fst].
  rewrite (s_due_sorted rto now now); [done|]. rewrite S in Hsort. apply Hsort; [|done].
  split; simpl; [constructor|done].
Qed.

Lemma due_exact_witness :
  ∃ st rets q', rq_run (newRetransmitQueue 4, []) (take 5 witness_ops) = Some (st, rets) ∧
    due st.1 60 500 = Some (q', [mkRequest 7 1; mkRequest 9 0]).
Proof.
  apply (due_exact 4 (take 5 witness_ops) 60 500).
  - lia.
  - vm_compute. repeat split; discriminate.
  - vm_compute. repeat split; discriminate.
Defined.

(** ** Cumulative acknowledgement *)
Definition sum_len (L : list pframe) : Z := foldr (λ f a, Zlen f.(p_bytes) + a) 0 L.
#[export] Instance sum_len_proper : Proper ((≡ₚ) ==> (=)) sum_len.
Proof. intros L L' Hp. induction Hp; simpl; lia. Qed.

(** frames of stream [sid] with a sequence number in [seqs] *)
Definition acked_by (sid : Z) (seqs : list Z) (f : pframe) : Prop := f.(p_streamID) = sid ∧ f.(p_seq) ∈ seqs.
#[export] Instance acked_by_dec sid seqs f : Decision (acked_by sid seqs f).
Proof. unfold acked_by. apply _. Defined.

(** each (stream, seq) is pending at most once *)
Definition keys_unique (L : list pframe) : Prop := NoDup ((λ f, (f.(p_streamID), f.(p_seq))) <$> L).

Lemma keys_unique_filter (P : pframe → Prop) `{!∀ x, Decision (P x)} L :
  keys_unique L → keys_unique (filter P L).
Proof.
  unfold keys_unique. induction L as [|f L IH]; [done|]. rewrite fmap_cons. intros [Hf Hn]%NoDup_cons.
  destruct (decide (P f)); [rewrite filter_cons_True by done|rewrite filter_cons_False by done; auto].
  rewrite fmap_cons. apply NoDup_cons. split; [|auto]. contradict Hf.
  apply list_elem_of_fmap in Hf as (g & -> & [_ Hg]%list_elem_of_filter).
  apply list_elem_of_fmap. by exists g.
Qed.

Lemma s_lookup_split sid seq L f :
  keys_unique L → s_lookup sid seq L = Some f → L ≡ₚ f :: s_remove sid seq L ∧ is_frame sid seq f.
Proof.
  intros Hu Hl. unfold s_lookup, s_remove in *.
  assert (f ∈ filter (is_frame sid seq) L) as [Hf Hin]%list_elem_of_filter.
  { destruct (filter (is_frame sid seq) L); [done|]. injection Hl as ->. by left. }
  split; [|done]. clear Hl.
  apply list_elem_of_split in Hin as (L1 & L2 & ->). unfold keys_unique in Hu.
  rewrite <- Permutation_middle in Hu. rewrite fmap_cons in Hu. apply NoDup_cons in Hu as [Hu _].
  rewrite filter_app, filter_cons_False by tauto.
  assert (∀ g, g ∈ L1 ++ L2 → ¬ is_frame sid seq g) as Hg.
  { intros g Hg [H1 H2]. destruct Hf as [H3 H4]. apply Hu. apply list_elem_of_fmap. exists g.
    split; [by rewrite H1, H2, H3, H4|done]. }
  rewrite !filter_all by set_solver. by rewrite Permutation_middle.
Qed.

(** a minimum over samples, [0] standing for none *)
Definition is_min_sample (r : Z) (samples : list Z) : Prop :=
  (samples = [] ∧ r = 0) ∨ (r ∈ samples ∧ ∀ a, a ∈ samples → r ≤ a).

(** ages of the acknowledged frames that were sent exactly once *)
Definition ages (now : Z) (L : list pframe) : list Z :=
  (λ f, time_Sub now f.(p_sentAt)) <$> filter (λ f, f.(p_retries) = 0) L.

Lemma is_min_sample_step r samples s :
  is_min_sample r samples → 0 < s → Forall (λ a, 0 < a) samples →
  is_min_sample (if (r =? 0) || (s <? r) then s else r) (samples ++ [s]).
Proof.
  intros Hm Hs Hpos. right. destruct Hm as [[-> ->]|[Hr Hmin]].
  - simpl. split; [by left|]. intros a ->%list_elem_of_singleton. lia.
  - assert (0 < r) as Hr0 by (rewrite Forall_forall in Hpos; auto).
    rewrite bool_decide_false by lia. simpl. case_bool_decide as Hlt.
    + split; [set_solver|]. intros a [Ha%Hmin| ->%list_elem_of_singleton]%elem_of_app; lia.
    + split; [set_solver|]. intros a [Ha%Hmin| ->%list_elem_of_singleton]%elem_of_app; lia.
Qed.

Lemma is_min_sample_perm r s1 s2 : s1 ≡ₚ s2 → is_min_sample r s1 → is_min_sample r s2.
Proof.
  intros Hp [[-> ->]|[Hr Hm]]; [left; by apply Permutation_nil_l in Hp as ->|].
  right. rewrite <- Hp. split; [done|]. intros a. rewrite <- Hp. auto.
Qed.

Lemma filter_ext_in {A} (P Q : A → Prop) `{!∀ x, Decision (P x), !∀ x, Decision (Q x)} (l : list A) :
  (∀ x, x ∈ l → P x ↔ Q x) → filter P l = filter Q l.
Proof.
  induction l as [|x l IH]; [done|]. intros Hpq.
  assert (filter P l = filter Q l) as Hl by (apply IH; intros; apply Hpq; by right).
  assert (P x ↔ Q x) as Hx by (apply Hpq; by left).
  destruct (decide (P x)); [rewrite !filter_cons_True by tauto|rewrite !filter_cons_False by tauto]; by rewrite Hl.
Qed.

Lemma acked_by_cons sid seq seqs f : acked_by sid (seq :: seqs) f ↔ is_frame sid seq f ∨ acked_by sid seqs f.
Proof. unfold acked_by, is_frame. rewrite elem_of_cons. naive_solver. Qed.

Lemma filter_acked_cons sid seq seqs L :
  filter (λ f, ¬ acked_by sid (seq :: seqs) f) L = filter (λ f, ¬ acked_by sid seqs f) (s_remove sid seq L) ∧
  filter (acked_by sid (seq :: seqs)) (s_remove sid seq L) = filter (acked_by sid seqs) (s_remove sid seq L).
Proof.
  unfold s_remove. rewrite !list_filter_filter. split; apply list_filter_iff; intros f;
    rewrite acked_by_cons; tauto.
Qed.

Lemma s_lookup_None sid seq L : s_lookup sid seq L = None → s_remove sid seq L = L.
Proof.
  unfold s_lookup, s_remove. intros Hl. apply filter_all. intros f Hf Hfr.
  assert (f ∈ filter (is_frame sid seq) L) as Hin by (by apply list_elem_of_filter).
  destruct (filter (is_frame sid seq) L); [by apply elem_of_nil in Hin|done].
Qed.

Lemma ages_cons now f L :
  ages now (f :: L) = (if f.(p_retries) =? 0 then [time_Sub now f.(p_sentAt)] else []) ++ ages now L.
Proof.
  unfold ages. case_bool_decide; [by rewrite filter_cons_True|by rewrite filter_cons_False].
Qed.
#[export] Instance ages_proper now : Proper ((≡ₚ) ==> (≡ₚ)) (ages now).
Proof. intros L L' Hp. unfold ages. by rewrite Hp. Qed.

Lemma age_pos now f : f.(p_sentAt) < now → 0 < time_Sub now f.(p_sentAt).
Proof. intros. unfold time_Sub, minInt64, maxInt64. repeat case_decide; lia. Qed.

Lemma s_ack_fold sid now seqs L b r acc :
  keys_unique L → Forall (λ f, f.(p_sentAt) < now) L → Forall (λ a, 0 < a) acc → is_min_sample r acc →
  let '(L', b', r') := foldl (λ st seq, s_ack sid seq now st) (L, b, r) seqs in
  L' = filter (λ f, ¬ acked_by sid seqs f) L ∧ b' = b + sum_len (filter (acked_by sid seqs) L) ∧
  is_min_sample r' (acc ++ ages now (filter (acked_by sid seqs) L)).
Proof.
  revert L b r acc. induction seqs as [|seq seqs IH]; intros L b r acc Hu Hnow Hpos Hr; cbn [foldl].
  { assert (∀ f, ¬ acked_by sid [] f) as Hno by (intros f [_ Hf]; set_solver).
    rewrite filter_all, filter_none by auto. simpl. rewrite Z.add_0_r, app_nil_r. done. }
  destruct (filter_acked_cons sid seq seqs L) as [F1 F2]. rewrite F1.
  destruct (s_ack sid seq now (L, b, r)) as [[L1 b1] r1] eqn:E. cbn [s_ack] in E.
  destruct (s_lookup sid seq L) as [f|] eqn:Hl; injection E as <- <- <-.
  - destruct (s_lookup_split _ _ _ _ Hu Hl) as [Hp Hf].
    assert (filter (acked_by sid (seq :: seqs)) L ≡ₚ f :: filter (acked_by sid seqs) (s_remove sid seq L)) as Hfp.
    { rewrite Hp at 1. rewrite filter_cons_True by (apply acked_by_cons; by left). by rewrite F2. }
    assert (f.(p_sentAt) < now) as Hfn by (rewrite Hp, Forall_cons in Hnow; tauto).
    pose proof (age_pos _ _ Hfn) as Hage.
    set (s := if p_retries f =? 0 then [time_Sub now f.(p_sentAt)] else []).
    specialize (IH (s_remove sid seq L) (b + Zlen (p_bytes f))
      (if p_retries f =? 0 then if (r =? 0) || (time_Sub now (p_sentAt f) <? r) then time_Sub now (p_sentAt f) else r else r)
      (acc ++ s) (keys_unique_filter _ _ Hu)).
    destruct (foldl _ _ seqs) as [[L' b'] r']. destruct IH as (I1 & I2 & I3).
    + rewrite Hp, Forall_cons in Hnow. tauto.
    + apply Forall_app. split; [done|]. unfold s. case_bool_decide; [by constructor|done].
    + unfold s. case_bool_decide; [by apply is_min_sample_step|by rewrite app_nil_r].
    + split_and!; [done|rewrite Hfp, I2; simpl; lia|]. eapply is_min_sample_perm; [|exact I3].
      by rewrite Hfp, ages_cons, <- app_assoc.
  - rewrite (s_lookup_None _ _ _ Hl) in *. rewrite F2. by apply IH.
Qed.

Lemma pending_keys q l loans : rq_inv q l loans → keys_unique (pending q l).
Proof.
  intros Hi. unfold keys_unique, pending. rewrite <- list_fmap_compose.
  apply NoDup_fmap_2_strong; [|apply Hi]. intros p1 p2 H1 H2 Heq. simpl in Heq. injection Heq as E1 E2.
  assert (entries q !! key_of (node q p1) = Some p1) as L1 by (by apply (ri_entries _ _ _ Hi)).
  assert (entries q !! key_of (node q p2) = Some p2) as L2 by (by apply (ri_entries _ _ _ Hi)).
  unfold key_of in *. rewrite E1, E2 in L1. congruence.
Qed.

(** C36: a cumulative acknowledgement of a stream up to [cum], on a queue
    reached by any admissible run, in which everything of the stream below its
    sweep mark is already gone and all frames were sent before now.  A mark
    that does not advance, or advances by more than 2^20, changes nothing and
    frees nothing.  Otherwise exactly the stream's frames below [cum] leave the
    queue, all others stay in order, the freed bytes are the sum of the removed
    payload lengths, and the RTT sample is the minimum age of the removed
    frames that were never retransmitted (Karn), 0 if there are none. *)
Theorem ackCumulative_exact maxPayload ops st rets sid cum now :
  0 ≤ maxPayload → ops_ok (newRetransmitQueue maxPayload, []) ([], ∅) ops →
  rq_run (newRetransmitQueue maxPayload, []) ops = Some (st, rets) → is_u32 sid → is_u32 cum →
  let L := (s_run ([], ∅) ops).1.1 in
  let from := default 0 (st.1.(ackedThrough) !! sid) in
  Forall (λ f, f.(p_sentAt) < now) L → Forall (λ f, f.(p_streamID) = sid → from ≤ f.(p_seq)) L →
  let '(q', freedBytes, rttSample) := ackCumulative st.1 sid cum now in
  if bool_decide (from < cum ≤ from + 2 ^ 20) then
    q'.(ackedThrough) = <[sid := cum]> st.1.(ackedThrough) ∧
    (∃ l', rq_inv q' l' st.2 ∧
      pending q' l' = filter (λ f, ¬ (f.(p_streamID) = sid ∧ f.(p_seq) < cum)) L) ∧
    let removed := filter (λ f, f.(p_streamID) = sid ∧ f.(p_seq) < cum) L in
    freedBytes = sum_len removed ∧ is_min_sample rttSample (ages now removed)
  else q' = st.1 ∧ freedBytes = 0 ∧ rttSample = 0.
Proof.
  intros Hm Hok Hrun Hsid Hcum L from Hnow Hswept.
  destruct (rq_run_sim ops (newRetransmitQueue maxPayload, []) ([], ∅))
    as (st' & sst & rets' & E & S & l & Hi & Hp & Hat & Hau).
  { exists []. split_and!; [by apply rq_inv_new|done|done|apply map_Forall_empty]. }
  { done. }
  rewrite Hrun in E. injection E as <- <-. unfold L in *. rewrite S in *. cbn [fst] in *. clear L Hok S Hrun.
  unfold ackCumulative. fold from. cbv zeta. rewrite <- Hp in *.
  change maxCumAdvance with (2 ^ 20).
  destruct (decide (from < cum ≤ from + 2 ^ 20)) as [Hacc|Hacc];
    [rewrite (bool_decide_true _ Hacc)|rewrite (bool_decide_false _ Hacc)].
  - rewrite !bool_decide_false by lia. cbn [orb].
    assert (is_u32 from) as Hfrom.
    { unfold from. destruct (st.1.(ackedThrough) !! sid) as [c|] eqn:Hc; [|done].
      rewrite Hat in Hc. by apply (Hau sid). }
    destruct (ackLoop_spec (seqZ from (cum - from)) st.1 l st.2 sid now 0 0 Hi Hsid (seqZ_u32 _ _ Hfrom Hcum))
      as (q' & l' & b & r & -> & Hi' & (Ha & Hat' & Hu) & S).
    pose proof (s_ack_fold sid now (seqZ from (cum - from)) (pending st.1 l) 0 0 []
      (pending_keys _ _ _ Hi) Hnow (List.Forall_nil _) (or_introl (conj eq_refl eq_refl))) as Hf.
    rewrite S in Hf. destruct Hf as (H1 & H2 & H3).
    assert (∀ f, f ∈ pending st.1 l → acked_by sid (seqZ from (cum - from)) f ↔ f.(p_streamID) = sid ∧ f.(p_seq) < cum) as Hiff.
    { intros f Hf. rewrite Forall_forall in Hswept. specialize (Hswept f Hf). unfold acked_by.
      rewrite elem_of_seqZ. split; [lia|]. intros [? ?]. split; [done|]. specialize (Hswept H). lia. }
    rewrite (filter_ext_in _ _ _ Hiff) in H2, H3.
    rewrite (filter_ext_in (λ f, ¬ acked_by _ _ f) (λ f, ¬ (f.(p_streamID) = sid ∧ f.(p_seq) < cum))) in H1
      by (intros f Hf; by rewrite Hiff).
    simpl in Hat'. rewrite Hat'. split_and!; [done| |done|done].
    exists l'. split; [|by rewrite <- H1]. destruct Hi' as [[] ???????]. split; done.
  - destruct (decide (cum ≤ from)); [by rewrite (bool_decide_true (cum ≤ from))|].
    rewrite (bool_decide_true (2 ^ 20 < cum - from)) by lia. by rewrite orb_true_r.
Qed.

Lemma ackCumulative_exact_witness :
  ∃ q', ackCumulative (default (newRetransmitQueue 4, [], []) (rq_run (newRetransmitQueue 4, []) (take 7 witness_ops))).1.1
          7 2 400 = (q', 5, 290) ∧
    q'.(ackedThrough) !! 7 = Some 2.
Proof.
  set (run := rq_run (newRetransmitQueue 4, []) (take 7 witness_ops)).
  set (st := default (newRetransmitQueue 4, [], []) run).
  assert (ops_ok (newRetransmitQueue 4, []) ([], ∅) (take 7 witness_ops)) as H1.
  { vm_compute. repeat split; try discriminate. apply list_elem_of_here. }
  assert (rq_run (newRetransmitQueue 4, []) (take 7 witness_ops) = Some (st.1, st.2)) as H2.
  { vm_compute. reflexivity. }
  assert (default 0 (ackedThrough st.1.1 !! 7) = 0) as H3 by (vm_compute; reflexivity).
  assert ((ackCumulative st.1.1 7 2 400).1.2 = 5) as H4 by (vm_compute; reflexivity).
  assert ((ackCumulative st.1.1 7 2 400).2 = 290) as H5 by (vm_compute; reflexivity).
  assert (is_u32 7 ∧ is_u32 2) as [H6 H7] by (unfold is_u32; lia).
  assert (ackedThrough st.1.1 = ∅) as H8 by (vm_compute; reflexivity).
  assert ((s_run ([], ∅) (take 7 witness_ops)).1.1 =
    [mkPframe 1 7 1 [20; 21] 110 0 false; mkPframe 1 9 0 [30] 120 0 false;
     mkPframe 1 7 0 [10; 11; 12] 210 1 false]) as H9 by (vm_compute; reflexivity).
  pose proof (ackCumulative_exact 4 (take 7 witness_ops) st.1 st.2 7 2 400 ltac:(lia) H1 H2 H6 H7) as Hx.
  clearbody st. cbv zeta in Hx. rewrite H9, H3 in Hx.
  destruct (ackCumulative st.1.1 7 2 400) as [[q' b] r]. simpl in H4, H5. subst b r.
  exists q'. split; [done|]. rewrite bool_decide_true in Hx by lia.
  destruct Hx as [Hx _].
  - repeat constructor.
  - repeat constructor; discriminate.
  - rewrite Hx. apply lookup_insert_eq.
Defined.
