(* ===== verification/StreamRecv.v ===== *)
(** * The receive side of a stream ([stream.go])

    Everything guarded by [readMu]: reassembly, the reorder buffer and its
    buffer pool, FEC reconstruction in both dimensions, acknowledgement
    state, loss detection, and the flow-control grants.  Each definition is
    one function of the source.

    - [rside] is the state; it ends with two components that are not fields
      of the Go struct: [tick], which counts the readings taken from the
      environment (the clock and the connection's RTO and reorder grace,
      which other goroutines change), and [calls], the calls made to the
      connection, oldest first.
    - A buffer that circulates through [reorderPool] is its whole capacity
      with a length ([gbuf]), so that the stale bytes of a recycled buffer
      are there to be overwritten.
    - [deliverLocked] and [tryReconstructLocked] call each other: a rebuilt
      frame is delivered, which may make another group reconstructible.  The
      functions in between take the delivery function as an argument and
      [deliverLocked] ties the knot with fuel; [deliver] supplies one more
      than the number of buffered parities, which [deliver_total] shows to
      suffice.
    - [tryRead] is one pass of the loop of [Read].  Of the condition variable
      [readCond] the state has the number of its broadcasts, which is what a
      goroutine that waits on it can tell ([Waiting]). *)
From S2P Require Import Prelude Errors Frame Options Ring.

Definition initialStreamWindow : Z := 256 * 1024.
Definition rampWindow : Z := 3 * Second.
Definition rampIntervalFraction : Z := 4.
Definition fecPendingCap : Z := 64.
Definition maxNackSeqsPerFire : Z := 1024.

(** ** Buffers *)

(** a slice of length [b_len] at the start of a buffer *)
Record gbuf := mkBuf { b_full : list Z; b_len : Z }.
#[export] Instance eta_gbuf : Eta gbuf := λ b, mkBuf (b_full b) (b_len b).
Definition bytes (b : gbuf) : list Z := slice b.(b_full) 0 b.(b_len).
(** [copy(b, src)] *)
Definition buf_copy (b : gbuf) (src : list Z) : gbuf :=
  b <| b_full := copy_at b.(b_full) 0 (slice src 0 b.(b_len)) |>.

(** [xorInto(dst, src)], [len(src) <= len(dst)] *)
Definition xorInto (dst src : list Z) : list Z :=
  zip_with Z.lxor (slice dst 0 (Zlen src)) src ++ drop (length src) dst.
Definition buf_xor (b : gbuf) (src : list Z) : gbuf := b <| b_full := xorInto b.(b_full) src |>.

(** ** State *)
Record fecAccum := mkAccum {
  a_xor : gbuf;
  a_folded : Z;
  a_lenXor : Z;
  a_maxLen : Z;
}.
#[export] Instance eta_accum : Eta fecAccum := λ a, mkAccum (a_xor a) (a_folded a) (a_lenXor a) (a_maxLen a).

Record fecPendingParity := mkParity { fp_count : Z; fp_xorLen : Z; fp_data : gbuf }.

(** what the stream calls on its connection *)
Inductive conn_call :=
  | CWindowUpdate (offset : Z)
  | CNackFrames (seqs : list Z)
  | CStopSending (code : Z)  (* sendControlFrame(frameStopSending, id, code) *)
  | CStatReorder
  | CStatFecRecovered.

Record rside := mkRside {
  rg : ring;
  readSeq : Z;
  reorder : gmap Z gbuf;
  reorderBytes : Z;
  ackPendingSeqs : list Z;
  ackReplaySeqs : list Z;
  finRecvd : bool;
  finSeq : Z;
  readErr : option go_error;
  readCanceled : bool;
  reorderPool : list (list Z);
  grantPending : Z;
  peerOffset : Z;
  gapSeq : Z;
  gapFirstSeenAt : Z;
  lastNackAt : Z;
  lastArrivalAt : Z;
  maxSeenSeq : Z;
  createdAt : Z;
  lastGrowAt : Z;
  fecAcc : gmap Z fecAccum;
  fecPending : gmap Z fecPendingParity;
  fecAccRow : gmap Z fecAccum;
  fecPendingRow : gmap Z fecPendingParity;
  readDeadline : Z;
  readCond : nat;    (* broadcasts so far *)
  tick : nat;
  calls : list conn_call;
}.
#[export] Instance eta_rside : Eta rside :=
  λ s, mkRside (rg s) (readSeq s) (reorder s) (reorderBytes s) (ackPendingSeqs s) (ackReplaySeqs s)
    (finRecvd s) (finSeq s) (readErr s) (readCanceled s) (reorderPool s) (grantPending s)
    (peerOffset s) (gapSeq s) (gapFirstSeenAt s) (lastNackAt s) (lastArrivalAt s) (maxSeenSeq s)
    (createdAt s) (lastGrowAt s) (fecAcc s) (fecPending s) (fecAccRow s) (fecPendingRow s)
    (readDeadline s) (readCond s) (tick s) (calls s).

(** The environment of a stream: its configuration, the clock and the
    connection's estimates at the n-th reading, and the order in which
    [range] visits an accumulator map. *)
Record renv := mkRenv {
  cfg : config;
  clock : nat → Z;
  currentRTO : nat → Z;
  reorderGrace : nat → Z;
  range_acc : gmap Z fecAccum → list (Z * fecAccum);
}.

Definition maxBufSize (cf : config) : Z :=
  let max := cf.(streamBufSize) in
  let min := 2 * cf.(maxPayload) in
  if max <? min then min else max.

Section recv.
Context (E : renv).
Implicit Types s : rside.

Definition time_Now s : rside * Z := (s <| tick := S s.(tick) |>, E.(clock) s.(tick)).
Definition read_RTO s : rside * Z := (s <| tick := S s.(tick) |>, E.(currentRTO) s.(tick)).
Definition read_grace s : rside * Z := (s <| tick := S s.(tick) |>, E.(reorderGrace) s.(tick)).
(** [s.readCond.Broadcast()] *)
Definition wakeReaders s : rside := s <| readCond := S s.(readCond) |>.
Definition call s (c : conn_call) : rside := s <| calls := s.(calls) ++ [c] |>.

(** the read side of [newStream(id, conn, bufSize)] *)
Definition newStream_read (bufSize now : Z) : rside :=
  let initial := initialStreamWindow in
  let initial := if bufSize <? initial then bufSize else initial in
  let min := 2 * E.(cfg).(maxPayload) in
  let initial := if initial <? min then min else initial in
  mkRside (newRing initial) 0 ∅ 0 [] [] false 0 None false [] 0 initial 0 0 0 0 0 now now
    ∅ ∅ ∅ ∅ 0 0 0 [].

(** ** Flow-control grants and ring growth *)
Definition grantLocked s (delta : Z) : rside :=
  if delta <=? 0 then s
  else
    let s := s <| peerOffset := s.(peerOffset) + delta |> in
    call s (CWindowUpdate s.(peerOffset)).

(** the doubling loop of [growLocked]; a positive capacity reaches the target
    within [log2_up] of it steps ([doubleTo_reaches]) *)
Fixpoint doubleTo (fuel : nat) (newCap target : Z) : Z :=
  match fuel with
  | O => newCap
  | S fuel => if newCap <? target then doubleTo fuel (newCap * 2) target else newCap
  end.

Definition growLocked s (need : Z) : rside * bool :=
  let oldCap := ringCap s.(rg) in
  let max := (maxBufSize E.(cfg)) in
  let target := s.(rg).(readLen) + need in
  let newCap := doubleTo (S (Z.to_nat (Z.log2_up target))) oldCap target in
  let newCap := if newCap >? max then max else newCap in
  if (newCap <=? oldCap) || (s.(rg).(readLen) + need >? newCap) then (s, false)
  else
    let s := s <| rg := reallocRingLocked s.(rg) newCap |> in
    (grantLocked s (newCap - oldCap), true).

Definition maybeGrowLocked s : rside :=
  let oldCap := ringCap s.(rg) in
  if oldCap >=? (maxBufSize E.(cfg)) then s
  else
    let '(s, now) := time_Now s in
    let occupied := s.(rg).(readLen) * 2 >=? oldCap in
    let '(s, ramping) :=
      if time_Sub now s.(createdAt) <? rampWindow then
        let '(s, rto) := read_RTO s in
        (s, time_Sub now s.(lastGrowAt) >=? Z.quot rto rampIntervalFraction)
      else (s, false) in
    if negb occupied && negb ramping then s
    else
      let newCap := oldCap * 2 in
      let newCap := if newCap >? (maxBufSize E.(cfg)) then (maxBufSize E.(cfg)) else newCap in
      let s := s <| lastGrowAt := now |> in
      let s := s <| rg := reallocRingLocked s.(rg) newCap |> in
      grantLocked s (newCap - oldCap).

(** ** The buffer pool *)
Definition reorderGetLocked s (n : Z) : rside * gbuf :=
  if n <=? E.(cfg).(maxPayload) then
    match reverse s.(reorderPool) with
    | buf :: rest => (s <| reorderPool := reverse rest |>, mkBuf buf n)
    | [] => (s, mkBuf (replicate (Z.to_nat E.(cfg).(maxPayload)) 0) n)
    end
  else (s, mkBuf (replicate (Z.to_nat n) 0) n).

Definition reorderPutLocked s (b : gbuf) : rside :=
  if negb (Zlen b.(b_full) =? E.(cfg).(maxPayload)) then s
  else s <| reorderPool := s.(reorderPool) ++ [b.(b_full)] |>.

(** ** FEC groups *)
Definition fecGroupOf (seq : Z) : Z * Z :=
  let g := u32 E.(cfg).(fecGroup) in
  let span := u32 (g * g) in
  (u32 (Z.quot seq span * span + Z.rem seq g), Z.rem (Z.quot seq g) g).
Definition fecRowOf (seq : Z) : Z * Z :=
  let g := u32 E.(cfg).(fecGroup) in
  (u32 (Z.quot seq g * g), Z.rem seq g).

(** [1 << idx] as a [uint32], and the test of that bit *)
Definition bit32 (idx : Z) : Z := u32 (Z.shiftl 1 idx).
Definition has_bit (folded idx : Z) : bool := bool_decide (Z.land folded (bit32 idx) ≠ 0).

Definition fecFoldAccLocked s (accs : gmap Z fecAccum) (base idx : Z) (data : list Z)
    : rside * gmap Z fecAccum :=
  match accs !! base with
  | None =>
      let '(s, buf) := reorderGetLocked s (dataCap E.(cfg)) in
      let buf := buf_copy buf data in
      let n := Z.min (Zlen data) buf.(b_len) in
      let buf := buf <| b_full := copy_at buf.(b_full) n (replicate (Z.to_nat (buf.(b_len) - n)) 0) |> in
      (s, <[base := mkAccum buf (bit32 idx) (u32 (Zlen data)) (Zlen data)]> accs)
  | Some acc =>
      if has_bit acc.(a_folded) idx || (Zlen data >? acc.(a_xor).(b_len)) then (s, accs)
      else
        let acc := acc <| a_folded := Z.lor acc.(a_folded) (bit32 idx) |> in
        let acc := acc <| a_xor := buf_xor acc.(a_xor) data |> in
        let acc := acc <| a_lenXor := Z.lxor acc.(a_lenXor) (u32 (Zlen data)) |> in
        let acc := if Zlen data >? acc.(a_maxLen) then acc <| a_maxLen := Zlen data |> else acc in
        (s, <[base := acc]> accs)
  end.

Fixpoint fecSweepLoop s (accs : gmap Z fecAccum) (last : Z) (order : list (Z * fecAccum))
    : rside * gmap Z fecAccum :=
  match order with
  | [] => (s, accs)
  | (base, acc) :: order =>
      if u32 (base + last) <? s.(readSeq)
      then fecSweepLoop (reorderPutLocked s acc.(a_xor)) (delete base accs) last order
      else fecSweepLoop s accs last order
  end.
Definition fecSweepLocked s : rside :=
  let g := u32 E.(cfg).(fecGroup) in
  let s :=
    if Z.of_nat (size s.(fecAcc)) >? 2 * g then
      let span := u32 (g * g) in
      let '(s', accs) := fecSweepLoop s s.(fecAcc) (span - g) (E.(range_acc) s.(fecAcc)) in
      s' <| fecAcc := accs |>
    else s in
  if Z.of_nat (size s.(fecAccRow)) >? 2 * g then
    let '(s', accs) := fecSweepLoop s s.(fecAccRow) (g - 1) (E.(range_acc) s.(fecAccRow)) in
    s' <| fecAccRow := accs |>
  else s.

Definition fecFoldRecvLocked s (seq : Z) (data : list Z) : rside :=
  if Zlen data >? dataCap E.(cfg) then s
  else
    let '(base, idx) := fecGroupOf seq in
    let '(s, accs) := fecFoldAccLocked s s.(fecAcc) base idx data in
    let s := s <| fecAcc := accs |> in
    let s :=
      if E.(cfg).(fec2D) then
        let '(rowBase, rowIdx) := fecRowOf seq in
        let '(s, accs) := fecFoldAccLocked s s.(fecAccRow) rowBase rowIdx data in
        s <| fecAccRow := accs |>
      else s in
    fecSweepLocked s.

(** ** Reassembly *)
Definition maybeEOFLocked s : rside :=
  if s.(finRecvd) && (s.(readSeq) >=? s.(finSeq)) && bool_decide (s.(readErr) = None)
  then wakeReaders (s <| readErr := Some io_EOF |>) else s.

(** Each pass removes a buffered frame, so their number bounds the loop
    ([drain_no_stall]). *)
Fixpoint drainReorderLoop (fuel : nat) s : rside :=
  match fuel with
  | O => s
  | S fuel =>
      match s.(reorder) !! s.(readSeq) with
      | None => s
      | Some data =>
          let '(s, room) :=
            if ringFitsLocked s.(rg) data.(b_len) then (s, true) else growLocked s data.(b_len) in
          if negb room then s
          else
            let s := s <| rg := ringWrite s.(rg) (bytes data) |> in
            let s := s <| reorder := delete s.(readSeq) s.(reorder) |> in
            let s := s <| reorderBytes := s.(reorderBytes) - data.(b_len) |> in
            let s := if E.(cfg).(fecGroup) >? 0 then fecFoldRecvLocked s s.(readSeq) (bytes data) else s in
            let s := reorderPutLocked s data in
            let s := s <| readSeq := u32 (s.(readSeq) + 1) |> in
            drainReorderLoop fuel (wakeReaders s)
      end
  end.
Definition drainReorderLocked s : rside := drainReorderLoop (size s.(reorder)) s.

(** ** Loss detection *)
Fixpoint nackScan (fuel : nat) s (seq hi max : Z) (gaps : list Z) : list Z :=
  match fuel with
  | O => gaps
  | S fuel =>
      if (seq <=? hi) && (Zlen gaps <? max) then
        nackScan fuel s (u32 (seq + 1)) hi max
          (if bool_decide (s.(reorder) !! seq = None) then gaps ++ [seq] else gaps)
      else gaps
  end.
(** Every pass either lists a gap or skips a buffered frame, so the scan ends
    within [max] plus the number of buffered frames ([nackScan_spec]). *)
Definition fireNackLocked s : rside :=
  let max := maxNackSeqsPerFire in
  let hi := s.(maxSeenSeq) in
  let hi := if s.(finRecvd) && (s.(finSeq) >? 0) && (s.(finSeq) - 1 >? hi) then s.(finSeq) - 1 else hi in
  let gaps := nackScan (S (Z.to_nat max + size s.(reorder))) s s.(readSeq) hi max [] in
  if Zlen gaps >? 0 then call s (CNackFrames gaps) else s.

Definition maybeFastRetransmitLocked s : rside :=
  let '(s, now) := time_Now s in
  let s := s <| lastArrivalAt := now |> in
  let '(s, grace) := read_grace s in
  if negb (s.(readSeq) =? s.(gapSeq)) then
    s <| gapSeq := s.(readSeq) |> <| gapFirstSeenAt := now |>
  else if (time_Sub now s.(gapFirstSeenAt) <? grace) || (time_Sub now s.(lastNackAt) <? grace) then s
  else fireNackLocked (s <| lastNackAt := now |>).

Definition maybeTailNack s (now : Z) : rside :=
  if bool_decide (s.(readErr) ≠ None) || s.(readCanceled) then s
  else
    let gap := (Z.of_nat (size s.(reorder)) >? 0) || (s.(finRecvd) && (s.(readSeq) <? s.(finSeq))) in
    if negb gap || time_IsZero s.(lastArrivalAt) then s
    else
      let '(s, grace) := read_grace s in
      if (time_Sub now s.(lastArrivalAt) <? grace) || (time_Sub now s.(lastNackAt) <? grace) then s
      else fireNackLocked (s <| lastNackAt := now |>).

(** ** Reconstruction and delivery *)
Inductive fec_outcome := fecUseless | fecRecovered | fecPendingMembers.

(** the first loop of [tryReconstructLocked]: [inr missing] if it runs to the end *)
Fixpoint scanMembers s (folded base stride : Z) (missing : Z) (ms : list Z) : fec_outcome + Z :=
  match ms with
  | [] => inr missing
  | i :: ms =>
      if has_bit folded i then scanMembers s folded base stride missing ms
      else
        let seq := u32 (base + i * stride) in
        if bool_decide (s.(reorder) !! seq ≠ None) then scanMembers s folded base stride missing ms
        else if seq <? s.(readSeq) then inl fecUseless
        else if missing >=? 0 then inl fecPendingMembers
        else scanMembers s folded base stride i ms
  end.

(** the second loop: [None] if a buffered member outsizes the parity *)
Fixpoint xorMembers s (folded base stride missing : Z) (buf : gbuf) (length : Z) (ms : list Z)
    : option (gbuf * Z) :=
  match ms with
  | [] => Some (buf, length)
  | i :: ms =>
      if has_bit folded i || (i =? missing) then xorMembers s folded base stride missing buf length ms
      else
        let data := match s.(reorder) !! u32 (base + i * stride) with Some b => bytes b | None => [] end in
        if Zlen data >? buf.(b_len) then None
        else xorMembers s folded base stride missing (buf_xor buf data) (Z.lxor length (u32 (Zlen data))) ms
  end.

Section open_recursion.
Context (deliver_rec : rside → Z → list Z → bool → option (rside * bool)).

Definition tryReconstruct s (row : bool) (base count xorLen : Z) (xorData : list Z)
    : option (rside * fec_outcome) :=
  let stride := if row then 1 else u32 E.(cfg).(fecGroup) in
  let accs := if row then s.(fecAccRow) else s.(fecAcc) in
  if s.(readSeq) >? u32 (base + u32 (count - 1) * stride) then Some (s, fecUseless)
  else
    let acc := accs !! base in
    if match acc with Some acc => acc.(a_maxLen) >? Zlen xorData | None => false end
    then Some (s, fecUseless)
    else
      let folded := match acc with Some acc => acc.(a_folded) | None => 0 end in
      match scanMembers s folded base stride (-1) (seqZ 0 count) with
      | inl o => Some (s, o)
      | inr missing =>
          if missing <? 0 then Some (s, fecUseless)
          else
            let '(s, buf) := reorderGetLocked s (Zlen xorData) in
            let buf := buf_copy buf xorData in
            let length := u32 xorLen in
            let '(buf, length) :=
              match acc with
              | Some acc => (buf_xor buf (slice acc.(a_xor).(b_full) 0 acc.(a_maxLen)), Z.lxor length acc.(a_lenXor))
              | None => (buf, length)
              end in
            match xorMembers s folded base stride missing buf length (seqZ 0 count) with
            | None => Some (reorderPutLocked s buf, fecUseless)
            | Some (buf, length) =>
                if (length =? 0) || (length >? Zlen xorData)
                then Some (reorderPutLocked s buf, fecUseless)
                else
                  '(s, _) ← deliver_rec s (u32 (base + missing * stride)) (slice buf.(b_full) 0 length) false;
                  Some (reorderPutLocked s buf, fecRecovered)
            end
      end.

Definition set_pending (row : bool) (m : gmap Z fecPendingParity) s : rside :=
  if row then s <| fecPendingRow := m |> else s <| fecPending := m |>.
Definition get_pending (row : bool) s : gmap Z fecPendingParity :=
  if row then s.(fecPendingRow) else s.(fecPending).

Definition fecRetryBase s (row : bool) (base : Z) : option rside :=
  match get_pending row s !! base with
  | None => Some s
  | Some p =>
      let s := set_pending row (delete base (get_pending row s)) s in
      '(s, o) ← tryReconstruct s row base p.(fp_count) p.(fp_xorLen) (bytes p.(fp_data));
      Some match o with
           | fecPendingMembers => set_pending row (<[base := p]> (get_pending row s)) s
           | fecRecovered => reorderPutLocked (call s CStatFecRecovered) p.(fp_data)
           | fecUseless => reorderPutLocked s p.(fp_data)
           end
  end.

Definition fecRetrySeq s (seq : Z) : option rside :=
  let '(base, _) := fecGroupOf seq in
  s ← fecRetryBase s false base;
  if E.(cfg).(fec2D) then
    let '(rowBase, _) := fecRowOf seq in
    fecRetryBase s true rowBase
  else Some s.

(** [deliverLocked] without its deferred function *)
Definition deliverBody s (seq : Z) (payload : list Z) (isFin : bool) : option (rside * bool) :=
  let s :=
    if (Z.of_nat (size s.(reorder)) >? 0) || s.(finRecvd) then
      let '(s, now) := time_Now s in s <| lastArrivalAt := now |>
    else s in
  if s.(readCanceled) || bool_decide (s.(readErr) ≠ None) then
    let s := if Zlen payload >? 0 then grantLocked s (Zlen payload) else s in
    let s := if seq >=? s.(readSeq) then s <| readSeq := u32 (seq + 1) |> else s in
    Some (s, true)
  else if isFin then
    if seq <? s.(readSeq) then Some (s, true)
    else Some (maybeEOFLocked (s <| finRecvd := true |> <| finSeq := seq |>), true)
  else
    let s := if seq >? s.(maxSeenSeq) then s <| maxSeenSeq := seq |> else s in
    if seq <? s.(readSeq) then Some (s, true)
    else if bool_decide (s.(reorder) !! seq ≠ None) then Some (s, true)
    else if seq >? s.(readSeq) then
      if s.(reorderBytes) + Zlen payload >? (maxBufSize E.(cfg)) then Some (s, false)
      else
        let '(s, cp) := reorderGetLocked s (Zlen payload) in
        let cp := buf_copy cp payload in
        let s := s <| reorder := <[seq := cp]> s.(reorder) |> in
        let s := s <| reorderBytes := s.(reorderBytes) + Zlen payload |> in
        let s := call s CStatReorder in
        let s := maybeFastRetransmitLocked s in
        if E.(cfg).(fecGroup) >? 0 then s ← fecRetrySeq s seq; Some (s, true)
        else Some (s, true)
    else
      let '(s, room) :=
        if ringFitsLocked s.(rg) (Zlen payload) then (s, true) else growLocked s (Zlen payload) in
      if negb room then Some (s, false)
      else
        let s := if E.(cfg).(fecGroup) >? 0 then fecFoldRecvLocked s seq payload else s in
        let s := s <| rg := ringWrite s.(rg) payload |> in
        let s := s <| readSeq := u32 (s.(readSeq) + 1) |> in
        let s := drainReorderLocked s in
        let s := maybeGrowLocked s in
        let s := maybeEOFLocked s in
        let s := wakeReaders s in
        if E.(cfg).(fecGroup) >? 0 then s ← fecRetrySeq s seq; Some (s, true)
        else Some (s, true).

Definition deliverStep s (seq : Z) (payload : list Z) (isFin : bool) : option (rside * bool) :=
  '(s, ack) ← deliverBody s seq payload isFin;
  Some (if ack && negb isFin && (seq >=? s.(readSeq))
        then s <| ackPendingSeqs := s.(ackPendingSeqs) ++ [seq] |> else s, ack).
End open_recursion.

Fixpoint deliverLocked (fuel : nat) s (seq : Z) (payload : list Z) (isFin : bool)
    : option (rside * bool) :=
  match fuel with
  | O => None
  | S fuel => deliverStep (deliverLocked fuel) s seq payload isFin
  end.

Definition fec_fuel s : nat := S (size s.(fecPending) + size s.(fecPendingRow)).
Definition deliver s (seq : Z) (payload : list Z) (isFin : bool) : option (rside * bool) :=
  deliverLocked (fec_fuel s) s seq payload isFin.
Definition tryReconstructLocked s := tryReconstruct (deliverLocked (fec_fuel s)) s.

Definition oldest_key (m : gmap Z fecPendingParity) : Z :=
  map_fold (λ k _ oldest, if k <? oldest then k else oldest) (2 ^ 32 - 1) m.

Definition applyFec s (row : bool) (base count xorLen : Z) (xorData : list Z) : option (rside * bool) :=
  if s.(readCanceled) || bool_decide (s.(readErr) ≠ None) then Some (s, false)
  else
    let g := u32 E.(cfg).(fecGroup) in
    if if row then negb (Z.rem base g =? 0) else Z.rem base (u32 (g * g)) >=? g then Some (s, false)
    else
      '(s, o) ← tryReconstructLocked s row base count xorLen xorData;
      match o with
      | fecRecovered => Some (s, true)
      | fecUseless => Some (s, false)
      | fecPendingMembers =>
          let pending := get_pending row s in
          let '(s, pending) :=
            match pending !! base with
            | Some old => (reorderPutLocked s old.(fp_data), pending)
            | None =>
                if Z.of_nat (size pending) >=? fecPendingCap then
                  let oldest := oldest_key pending in
                  (match pending !! oldest with Some p => reorderPutLocked s p.(fp_data) | None => s end,
                   delete oldest pending)
                else (s, pending)
            end in
          let '(s, cp) := reorderGetLocked s (Zlen xorData) in
          let cp := buf_copy cp xorData in
          Some (set_pending row (<[base := mkParity count xorLen cp]> pending) s, false)
      end.

(** ** Reading *)
Inductive read_result := ReadBlocked | ReadBytes (p : list Z) | ReadErr (e : go_error).

(** one pass of [Read] over a buffer of [plen] bytes; the result is
    [ReadBlocked] where it waits on the condition variable *)
Definition tryRead s (plen : Z) : rside * read_result :=
  if s.(rg).(readLen) =? 0 then
    match s.(readErr) with
    | Some e => (s, ReadErr e)
    | None =>
        if time_IsZero s.(readDeadline) then (s, ReadBlocked)
        else
          let '(s, now) := time_Now s in
          if negb (time_Before now s.(readDeadline)) then (s, ReadErr errDeadlineExceeded)
          else (s, ReadBlocked)
    end
  else
    let '(r, out) := ringRead s.(rg) plen in
    let s := s <| rg := r |> in
    let s := drainReorderLocked s in
    let s := maybeEOFLocked s in
    let s := s <| grantPending := s.(grantPending) + Zlen out |> in
    if s.(grantPending) >=? Z.quot (ringCap s.(rg)) 4 then
      let credit := s.(grantPending) in
      let s := s <| grantPending := 0 |> in
      (grantLocked s credit, ReadBytes out)
    else (s, ReadBytes out).

Definition discardReadStateLocked s : rside :=
  s <| rg := s.(rg) <| readHead := 0 |> <| readTail := 0 |> <| readLen := 0 |> |>
    <| reorder := ∅ |> <| reorderBytes := 0 |> <| ackPendingSeqs := [] |> <| ackReplaySeqs := [] |>
    <| fecAcc := ∅ |> <| fecPending := ∅ |> <| fecAccRow := ∅ |> <| fecPendingRow := ∅ |>.

Definition CancelRead s (code : Z) : rside :=
  if s.(readCanceled) then s
  else
    let s := s <| readCanceled := true |> in
    let s := if bool_decide (s.(readErr) = None) then s <| readErr := Some ErrStreamReset |> else s in
    let s := discardReadStateLocked s in
    let s := wakeReaders s in
    call s (CStopSending (u32 code)).

Definition deliverReset s : rside :=
  let s := if bool_decide (s.(readErr) = None) then s <| readErr := Some ErrStreamReset |> else s in
  wakeReaders (discardReadStateLocked s).

(** the read halves of [deliverFIN], [deliverClose] and [deliverError] *)
Definition failRead s (e : go_error) : rside :=
  let s := if bool_decide (s.(readErr) = None) then s <| readErr := Some e |> else s in
  wakeReaders s.
Definition deliverFIN s : rside := failRead s io_EOF.

Definition SetReadDeadline s (t : Z) : rside := wakeReaders (s <| readDeadline := t |>).

Definition ackSnapshot s : rside * (Z * list Z * Z) :=
  let cum := s.(readSeq) in
  let granted := s.(peerOffset) in
  let seqs := if s.(finRecvd) && (s.(finSeq) >=? cum) then [s.(finSeq)] else [] in
  let seqs := seqs ++ filter (λ seq, cum ≤ seq) s.(ackReplaySeqs) in
  let seqs := seqs ++ filter (λ seq, cum ≤ seq) s.(ackPendingSeqs) in
  (s <| ackReplaySeqs := s.(ackPendingSeqs) |> <| ackPendingSeqs := [] |>, (cum, seqs, granted)).
End recv.
