(* ===== verification/Xor.v ===== *)
(** * XOR of byte strings

    The algebra behind parity: exclusive-or sums over index lists, and
    [xorInto] read byte by byte, a string being zero past its end. *)
From S2P Require Import Prelude Errors Frame Options Ring StreamRecv.

Definition byteat (l : list Z) (j : nat) : Z := default 0 (l !! j).

Lemma byteat_beyond l j : (length l ≤ j)%nat → byteat l j = 0.
Proof. intros. unfold byteat. by rewrite lookup_ge_None_2. Qed.

Lemma byteat_slice l n j :
  byteat (slice l 0 n) j = if bool_decide (Z.of_nat j < n) then byteat l j else 0.
Proof.
  unfold byteat, slice. rewrite Z.sub_0_r, drop_0. case_bool_decide.
  - rewrite lookup_take_lt by lia. done.
  - by rewrite lookup_take_ge by lia.
Qed.

Lemma byteat_ext l l' : Zlen l = Zlen l' → (∀ j, Z.of_nat j < Zlen l → byteat l j = byteat l' j) → l = l'.
Proof.
  intros Hl Hb. apply list_eq_same_length with (n := length l); [unfold Zlen in *; lia|done|].
  intros i x y Hi Hx Hy. specialize (Hb i ltac:(unfold Zlen; lia)). unfold byteat in Hb.
  by rewrite Hx, Hy in Hb.
Qed.

Lemma byteat_copy_at dst off src j :
  0 ≤ off → off + Zlen src ≤ Zlen dst →
  byteat (copy_at dst off src) j =
    if bool_decide (off ≤ Z.of_nat j < off + Zlen src) then byteat src (j - Z.to_nat off) else byteat dst j.
Proof.
  intros Ho Hl. unfold copy_at, byteat, Zlen in *. rewrite (take_ge src) by lia.
  case_bool_decide as Hj.
  - rewrite lookup_app_r by (rewrite length_take; lia). rewrite length_take, lookup_app_l by lia.
    do 2 f_equal. lia.
  - destruct (decide (Z.of_nat j < off)).
    + rewrite lookup_app_l by (rewrite length_take; lia). by rewrite lookup_take_lt by lia.
    + rewrite !lookup_app_r by (rewrite ?length_take; lia). rewrite lookup_drop, length_take.
      do 2 f_equal. lia.
Qed.

Lemma length_xorInto dst src : (length src ≤ length dst)%nat → length (xorInto dst src) = length dst.
Proof.
  intros. unfold xorInto, slice. rewrite drop_0, length_app, length_zip_with, length_take, length_drop.
  unfold Zlen. lia.
Qed.

Lemma byteat_xorInto dst src j :
  (length src ≤ length dst)%nat → byteat (xorInto dst src) j = Z.lxor (byteat dst j) (byteat src j).
Proof.
  intros Hl. unfold byteat, xorInto, slice, Zlen. rewrite Z.sub_0_r, drop_0, Nat2Z.id.
  destruct (decide (j < length src)%nat) as [Hj|Hj].
  - rewrite lookup_app_l by (rewrite length_zip_with, length_take; lia).
    destruct (lookup_lt_is_Some_2 dst j ltac:(lia)) as [x Hx].
    destruct (lookup_lt_is_Some_2 src j Hj) as [y Hy].
    rewrite lookup_zip_with, lookup_take_lt by done. by rewrite Hx, Hy.
  - rewrite lookup_app_r by (rewrite length_zip_with, length_take; lia).
    rewrite length_zip_with, length_take, lookup_drop.
    rewrite (lookup_ge_None_2 src) by lia. simpl. rewrite Z.lxor_0_r. do 2 f_equal. lia.
Qed.

(** ** Exclusive-or sums *)
Definition xsum (l : list Z) (f : Z → Z) : Z := foldr (λ i a, Z.lxor (f i) a) 0 l.

(** XOR of [k]-bit numbers *)
Lemma lxor_below k a b : 0 ≤ k → 0 ≤ a < 2 ^ k → 0 ≤ b < 2 ^ k → 0 ≤ Z.lxor a b < 2 ^ k.
Proof.
  intros Hk Ha Hb. assert (0 ≤ Z.lxor a b) as H0 by (apply Z.lxor_nonneg; lia). split; [done|].
  destruct (decide (Z.lxor a b = 0)) as [->|Hne]; [lia|]. apply Z.log2_lt_pow2; [lia|].
  destruct (decide (k = 0)) as [->|Hk0]. { assert (a = 0) as -> by lia. assert (b = 0) as -> by lia. done. }
  pose proof (Z.log2_lxor a b ltac:(lia) ltac:(lia)) as Hl.
  assert (∀ x, 0 ≤ x < 2 ^ k → Z.log2 x < k) as Hx.
  { intros x Hx. destruct (decide (x = 0)) as [->|]; [change (Z.log2 0) with 0; lia|]. apply Z.log2_lt_pow2; lia. }
  pose proof (Hx a Ha). pose proof (Hx b Hb). lia.
Qed.
Lemma xsum_below k l f : 0 ≤ k → (∀ i, i ∈ l → 0 ≤ f i < 2 ^ k) → 0 ≤ xsum l f < 2 ^ k.
Proof.
  intros Hk. induction l as [|i l IH]; intros Hf; [cbn; lia|]. simpl. apply lxor_below; [done|apply Hf; by left|].
  apply IH. intros; apply Hf. by right.
Qed.

Lemma xsum_app l1 l2 f : xsum (l1 ++ l2) f = Z.lxor (xsum l1 f) (xsum l2 f).
Proof. induction l1; simpl; [done|]. by rewrite IHl1, Z.lxor_assoc. Qed.
Lemma xsum_ext l f g : (∀ i, i ∈ l → f i = g i) → xsum l f = xsum l g.
Proof.
  induction l as [|i l IH]; intros Hfg; [done|]. simpl. rewrite (Hfg i (list_elem_of_here _ _)).
  f_equal. apply IH. intros; apply Hfg. by right.
Qed.
Lemma xsum_zero l f : (∀ i, i ∈ l → f i = 0) → xsum l f = 0.
Proof. intros Hf. rewrite (xsum_ext l f (λ _, 0)) by done. clear. induction l; simpl; [done|]. by rewrite IHl. Qed.
Lemma xsum_lxor l f g : xsum l (λ i, Z.lxor (f i) (g i)) = Z.lxor (xsum l f) (xsum l g).
Proof.
  induction l as [|i l IH]; simpl; [done|]. rewrite IH, !Z.lxor_assoc. f_equal.
  rewrite <- !Z.lxor_assoc. f_equal. apply Z.lxor_comm.
Qed.
(** a sum with one nonzero term *)
Lemma xsum_single l f m : NoDup l → m ∈ l → (∀ i, i ∈ l → i ≠ m → f i = 0) → xsum l f = f m.
Proof.
  intros Hnd Hm Hf. apply list_elem_of_split in Hm as (l1 & l2 & ->).
  apply NoDup_app in Hnd as (_ & Hd & [Hm2 _]%NoDup_cons).
  rewrite xsum_app. simpl. rewrite !xsum_zero.
  - by rewrite Z.lxor_0_l, Z.lxor_0_r.
  - intros i Hi. apply Hf; [set_solver|]. by intros ->.
  - intros i Hi. apply Hf; [set_solver|]. intros ->. apply (Hd m Hi). by left.
Qed.

Lemma xsum_seqZ_extend f n m :
  0 ≤ n ≤ m → (∀ i, n ≤ i < m → f i = 0) → xsum (seqZ 0 m) f = xsum (seqZ 0 n) f.
Proof.
  intros Hn Hf. replace m with (n + (m - n)) by lia. rewrite seqZ_app, xsum_app by lia.
  rewrite (xsum_zero (seqZ _ (m - n))), Z.lxor_0_r; [done|].
  intros i [??]%elem_of_seqZ. apply Hf. lia.
Qed.

(** The parity identity: a sum known in full, with some terms known one way
    ([p]), all but one of the rest known another way, yields the last term. *)
Lemma xsum_recover l f p m :
  NoDup l → m ∈ l → p m = false →
  Z.lxor (Z.lxor (xsum l f) (xsum l (λ i, if p i : bool then f i else 0)))
    (xsum l (λ i, if p i || bool_decide (i = m) then 0 else f i)) = f m.
Proof.
  intros Hnd Hm Hp. rewrite <- !xsum_lxor.
  rewrite (xsum_ext l _ (λ i, if bool_decide (i = m) then f i else 0)).
  - rewrite (xsum_single _ _ m); [by rewrite bool_decide_true|done..|].
    intros i _ Hi. by rewrite bool_decide_false.
  - intros i _. case_bool_decide as Hi.
    + subst. rewrite Hp. simpl. by rewrite !Z.lxor_0_r.
    + destruct (p i); simpl; by rewrite ?Z.lxor_0_r, ?Z.lxor_nilpotent.
Qed.
