(* ===== verification/RecvLemmas.v ===== *)
(** * Building blocks of the receive side

    What the helpers of [StreamRecv] do, each stated once: the bits of the
    member masks, the group geometry, the buffer pool, ring growth, and which
    fields each helper leaves alone. *)
From S2P Require Import Prelude Errors Frame Options Ring StreamRecv Xor.

(** ** Member masks *)
Lemma bit32_small idx : 0 ≤ idx < 32 → bit32 idx = 2 ^ idx.
Proof.
  intros. unfold bit32, u32. rewrite Z.shiftl_1_l, Z.mod_small; [done|].
  split; [lia|]. apply Z.pow_lt_mono_r; lia.
Qed.
Lemma bit32_large idx : 32 ≤ idx → bit32 idx = 0.
Proof.
  intros. unfold bit32, u32. rewrite Z.shiftl_1_l.
  replace idx with (32 + (idx - 32)) by lia. rewrite Z.pow_add_r by lia. rewrite Z.mul_comm.
  by apply Z.mod_mul.
Qed.
Lemma has_bit_testbit folded idx : 0 ≤ idx < 32 → has_bit folded idx = Z.testbit folded idx.
Proof.
  intros Hi. unfold has_bit. rewrite bit32_small by done.
  assert (∀ n, 0 ≤ n → Z.testbit (Z.land folded (2 ^ idx)) n = Z.testbit folded n && bool_decide (n = idx)) as Hb.
  { intros n Hn. rewrite Z.land_spec, Z.pow2_bits_eqb by lia. f_equal.
    case_bool_decide; [by apply Z.eqb_eq|by apply Z.eqb_neq]. }
  destruct (Z.testbit folded idx) eqn:Ht; case_bool_decide as Hz; try done.
  - specialize (Hb idx ltac:(lia)). rewrite Hz, Z.bits_0, Ht, bool_decide_true in Hb by done. done.
  - exfalso. apply Hz. apply Z.bits_inj_0. intros n. destruct (decide (n < 0)); [by apply Z.testbit_neg_r|].
    rewrite Hb by lia. case_bool_decide; [subst; by rewrite Ht|by rewrite andb_false_r].
Qed.
Lemma has_bit_large folded idx : 32 ≤ idx → has_bit folded idx = false.
Proof. intros. unfold has_bit. by rewrite bit32_large, Z.land_0_r by done. Qed.
Lemma has_bit_0 idx : has_bit 0 idx = false.
Proof. unfold has_bit. by rewrite Z.land_0_l. Qed.
Lemma has_bit_bit32 idx i : 0 ≤ idx < 32 → 0 ≤ i → has_bit (bit32 idx) i = bool_decide (i = idx).
Proof.
  intros Hx Hi. destruct (decide (i < 32)).
  - rewrite has_bit_testbit by lia. rewrite bit32_small by done. rewrite Z.pow2_bits_eqb by lia.
    case_bool_decide; [by apply Z.eqb_eq|by apply Z.eqb_neq].
  - rewrite has_bit_large by lia. rewrite bool_decide_false by lia. done.
Qed.
Lemma has_bit_lor folded idx i :
  0 ≤ idx < 32 → 0 ≤ i → has_bit (Z.lor folded (bit32 idx)) i = has_bit folded i || bool_decide (i = idx).
Proof.
  intros Hx Hi. destruct (decide (i < 32)).
  - rewrite !has_bit_testbit by lia. rewrite Z.lor_spec. f_equal.
    rewrite <- (has_bit_testbit _ i) by lia. by apply has_bit_bit32.
  - rewrite !has_bit_large by lia. by rewrite bool_decide_false by lia.
Qed.

(** ** Buffers *)
Definition wf_buf (b : gbuf) : Prop := 0 ≤ b.(b_len) ≤ Zlen b.(b_full).

Lemma buf_copy_spec b src :
  wf_buf b → Zlen src = b.(b_len) → wf_buf (buf_copy b src) ∧ bytes (buf_copy b src) = src
    ∧ Zlen (buf_copy b src).(b_full) = Zlen b.(b_full).
Proof.
  intros [H1 H2] Hs. unfold buf_copy, bytes, wf_buf. simpl.
  assert (slice src 0 (b_len b) = src) as -> by (rewrite <- Hs; apply slice_all).
  assert (Zlen (copy_at (b_full b) 0 src) = Zlen (b_full b)) as Hl by (apply Zlen_copy_at; lia).
  rewrite Hl. split_and!; [lia..| |done].
  rewrite <- Hs, <- (Z.add_0_l (Zlen src)). apply slice_copy_at_in; lia.
Qed.

Lemma Zlen_bytes b : wf_buf b → Zlen (bytes b) = b.(b_len).
Proof. intros [??]. unfold bytes. rewrite Zlen_slice; lia. Qed.

Section lemmas.
Context (E : renv) (Hcfg : config_wf E.(cfg)).
Implicit Types s : rside.
#[local] Abbreviation G := (fecGroup (cfg E)).

(** ** Group geometry *)
Lemma fecGroupOf_spec seq base idx :
  0 < G → 0 ≤ seq < 2 ^ 32 → fecGroupOf E seq = (base, idx) →
  seq = base + idx * G ∧ 0 ≤ idx < G ∧ 0 ≤ base ∧ base `mod` (G * G) < G.
Proof using Hcfg.
  intros HG Hs. unfold fecGroupOf. pose proof (cw_fec _ Hcfg) as Hf.
  rewrite (u32_id G) by word_lia. rewrite (u32_id (G * G)) by (unfold is_u32; nia).
  set (g := G) in *. clearbody g. intros [= <- <-].
  rewrite !Z.quot_div_nonneg by nia. assert (0 ≤ seq / g) as B0 by (apply Z.div_pos; lia).
  rewrite !Z.rem_mod_nonneg by lia.
  pose proof (Z.div_mod seq g ltac:(lia)) as D1.
  pose proof (Z.mod_pos_bound seq g ltac:(lia)) as B1.
  pose proof (Z.div_mod (seq / g) g ltac:(lia)) as D2.
  pose proof (Z.mod_pos_bound (seq / g) g ltac:(lia)) as B2.
  rewrite Z.div_div in D2 by lia.
  assert (0 ≤ seq / (g * g)) as B3 by (apply Z.div_pos; nia).
  set (q1 := seq / g) in *. set (r1 := seq `mod` g) in *. set (r2 := q1 `mod` g) in *.
  set (q2 := seq / (g * g)) in *. clearbody r1 r2 q2. clearbody q1. subst q1.
  assert (0 ≤ q2 * (g * g) + r1 ≤ seq) as B4 by nia.
  rewrite u32_id by (unfold is_u32; lia). split_and!; [rewrite D1; ring|lia|lia|lia|].
  rewrite Z.add_comm, Z.mod_add by nia. rewrite Z.mod_small by nia. lia.
Qed.

Lemma fecRowOf_spec seq base idx :
  0 < G → 0 ≤ seq < 2 ^ 32 → fecRowOf E seq = (base, idx) →
  seq = base + idx * 1 ∧ 0 ≤ idx < G ∧ 0 ≤ base ∧ base `mod` G = 0.
Proof using Hcfg.
  intros HG Hs. unfold fecRowOf. pose proof (cw_fec _ Hcfg) as Hf.
  rewrite (u32_id G) by word_lia. set (g := G) in *. clearbody g. intros [= <- <-].
  rewrite !Z.quot_div_nonneg, !Z.rem_mod_nonneg by lia.
  pose proof (Z.div_mod seq g ltac:(lia)) as D1.
  pose proof (Z.mod_pos_bound seq g ltac:(lia)) as B1.
  assert (0 ≤ seq / g) as B3 by (apply Z.div_pos; lia).
  rewrite u32_id by (unfold is_u32; nia). split_and!; [nia|lia|lia|nia|]. by apply Z.mod_mul; lia.
Qed.

(** ** The pool *)
Definition pool_ok s : Prop := Forall (λ b, Zlen b = maxPayload (cfg E)) s.(reorderPool).

Lemma reorderGetLocked_spec s n s' b :
  pool_ok s → 0 ≤ n → reorderGetLocked E s n = (s', b) →
  pool_ok s' ∧ wf_buf b ∧ b.(b_len) = n ∧ s' = s <| reorderPool := s'.(reorderPool) |>.
Proof using Hcfg.
  intros Hp Hn. unfold reorderGetLocked, wf_buf. pose proof (cw_payload _ Hcfg) as Hmp. case_bool_decide as Hb.
  - destruct (reverse (reorderPool s)) as [|buf rest] eqn:Hr; intros [= <- <-]; simpl.
    + split_and!; [done|lia| |done|by destruct s]. rewrite Zlen_replicate; lia.
    + unfold pool_ok in *. assert (reorderPool s = reverse rest ++ [buf]) as Hs.
      { rewrite <- (reverse_involutive (reorderPool s)), Hr. by rewrite reverse_cons. }
      rewrite Hs in Hp. apply Forall_app in Hp as [Hp [Hbuf _]%Forall_cons].
      split_and!; simpl; [done|lia|lia|done|done].
  - intros [= <- <-]. simpl. split_and!; [done|lia| |done|by destruct s]. rewrite Zlen_replicate; lia.
Qed.

Lemma reorderPutLocked_spec s b :
  pool_ok s → pool_ok (reorderPutLocked E s b) ∧
  reorderPutLocked E s b = s <| reorderPool := (reorderPutLocked E s b).(reorderPool) |>.
Proof.
  intros Hp. unfold reorderPutLocked. case_bool_decide as Hb; simpl; [|by destruct s].
  split; [|done]. apply Forall_app. split; [done|]. by constructor.
Qed.

(** ** Ring growth *)
Lemma doubleTo_reaches fuel newCap target :
  0 < newCap → target ≤ newCap * 2 ^ Z.of_nat fuel → target ≤ doubleTo fuel newCap target ∧ newCap ≤ doubleTo fuel newCap target.
Proof.
  revert newCap. induction fuel as [|fuel IH]; intros newCap Hc Ht; cbn [doubleTo].
  { rewrite Z.mul_1_r in Ht. lia. }
  case_bool_decide; [|lia]. destruct (IH (newCap * 2)) as [H1 H2]; [lia| |lia].
  rewrite Nat2Z.inj_succ, Z.pow_succ_r in Ht by lia. lia.
Qed.

Lemma grantLocked_eq s delta :
  grantLocked s delta = s <| peerOffset := s.(peerOffset) + Z.max 0 delta |>
                          <| calls := (grantLocked s delta).(calls) |>.
Proof.
  unfold grantLocked. case_bool_decide; simpl.
  - rewrite Z.max_l, Z.add_0_r by lia. by destruct s.
  - by rewrite Z.max_r by lia.
Qed.

Lemma growLocked_spec s need s' ok :
  ring_wf s.(rg) → 0 ≤ need → growLocked E s need = (s', ok) →
  ∃ r' cs, s' = s <| rg := r' |> <| peerOffset := s.(peerOffset) + (ringCap r' - ringCap s.(rg)) |> <| calls := cs |>
    ∧ ring_wf r' ∧ contents r' = contents s.(rg) ∧ r'.(readLen) = s.(rg).(readLen)
    ∧ ringCap s.(rg) ≤ ringCap r' ∧ ringCap r' ≤ Z.max (ringCap s.(rg)) (maxBufSize (cfg E))
    ∧ (ok = true → ringFitsLocked r' need = true).
Proof.
  intros Hwf Hn. pose proof Hwf as [Hc Hh Hl Ht]. unfold growLocked.
  set (newCap := if _ >? maxBufSize (cfg E) then _ else _).
  assert (newCap ≤ maxBufSize (cfg E)) as Hmax by (unfold newCap; case_bool_decide; lia). clearbody newCap.
  destruct (_ || _) eqn:Hb.
  - intros [= <- <-]. exists s.(rg), s.(calls). rewrite Z.sub_diag, Z.add_0_r.
    split_and!; try done; [by destruct s|lia].
  - intros [= <- <-]. bool_simpl.
    destruct (reallocRingLocked_spec s.(rg) newCap Hwf) as (W & C & K & L); [lia..|].
    set (s1 := s <| rg := reallocRingLocked s.(rg) newCap |>).
    rewrite (grantLocked_eq s1). exists (reallocRingLocked s.(rg) newCap), (grantLocked s1 (newCap - ringCap (rg s))).(calls).
    rewrite K, (Z.max_r 0) by lia. split_and!; [done|done|done|done|lia|lia|].
    intros _. unfold ringFitsLocked. apply bool_decide_eq_true. fold (ringCap (reallocRingLocked s.(rg) newCap)).
    rewrite K, L. lia.
Qed.

Lemma maybeGrowLocked_spec s :
  ring_wf s.(rg) →
  ∃ r' cs tk lg, maybeGrowLocked E s =
      s <| rg := r' |> <| peerOffset := s.(peerOffset) + (ringCap r' - ringCap s.(rg)) |> <| calls := cs |>
        <| tick := tk |> <| lastGrowAt := lg |>
    ∧ ring_wf r' ∧ contents r' = contents s.(rg) ∧ ringCap s.(rg) ≤ ringCap r'
    ∧ ringCap r' ≤ Z.max (ringCap s.(rg)) (maxBufSize (cfg E)).
Proof.
  intros Hwf. pose proof Hwf as [Hc Hh Hl Ht]. unfold maybeGrowLocked.
  case_bool_decide as Hmax.
  { exists s.(rg), s.(calls), s.(tick), s.(lastGrowAt). rewrite Z.sub_diag, Z.add_0_r.
    split_and!; try done; [by destruct s|lia]. }
  unfold time_Now. cbn zeta.
  set (s1 := s <| tick := S (tick s) |>). set (now := clock E (tick s)).
  destruct (if time_Sub now (createdAt s1) <? rampWindow then _ else _) as [s2 ramping] eqn:Hr.
  assert (∃ tk, s2 = s <| tick := tk |>) as [tk ->].
  { destruct (bool_decide _); injection Hr as <- <-; by eexists. }
  clear Hr.
  set (newCap := if ringCap (rg s) * 2 >? maxBufSize (cfg E) then _ else _).
  assert (ringCap (rg s) ≤ newCap ≤ maxBufSize (cfg E)) as Hle by (unfold newCap; case_bool_decide; lia). clearbody newCap.
  destruct (_ && _).
  { exists s.(rg), s.(calls), tk, s.(lastGrowAt). rewrite Z.sub_diag, Z.add_0_r.
    split_and!; try done. lia. }
  destruct (reallocRingLocked_spec s.(rg) newCap Hwf) as (W & C & K & L); [lia..|].
  rewrite grantLocked_eq. eexists (reallocRingLocked s.(rg) newCap), _, tk, now.
  rewrite K. simpl. rewrite (Z.max_r 0) by lia. split_and!; [reflexivity|done|done|lia|lia].
Qed.
End lemmas.
