(* ===== verification/RecvInv.v ===== *)
(** * The receive invariant

    A sender has written [chunks], one DATA frame each.  [recv_inv] relates a
    receiver to them: what has been read and what is in the ring is a prefix
    of the chunks, the reorder buffer holds exact copies, accumulators are the
    XOR of the members they have folded, buffered parities are the sender's.
    Every operation preserves it for every order, duplication, loss and
    reconstruction of frames. *)
From S2P Require Import Prelude Errors Frame Options Ring StreamRecv Xor RecvLemmas.

(** How far the application is: what it has read, how much of that [Read] has
    not yet added to [grantPending], and whether the receiver is quiescent.
    Between operations all is counted and the receiver is quiescent. *)
Record progress := mkProgress { pg_read : list Z; pg_uncounted : Z; pg_quiet : bool }.
Definition quiet (l : list Z) : progress := mkProgress l 0 true.
Definition busy (out : progress) : progress := mkProgress out.(pg_read) out.(pg_uncounted) false.

Section inv.
Context (E : renv) (Hcfg : config_wf E.(cfg)).
Context (chunks : list (list Z)).
Implicit Types (s : rside) (out : progress).
#[local] Abbreviation G := (fecGroup (cfg E)).
#[local] Abbreviation N := (Zlen chunks).
Context (HN : Zlen chunks + 1 < 2 ^ 32).
Context (Hchunks : Forall (λ c, 0 < Zlen c ≤ dataCap (cfg E)) chunks).
Context (Hcap32 : maxPayload (cfg E) < 2 ^ 32).

Definition chunk (i : Z) : list Z := default [] (chunks !! Z.to_nat i).
Definition first_chunks (n : Z) : list Z := concat (take (Z.to_nat n) chunks).

Lemma dataCap_bounds : 8 ≤ dataCap (cfg E) ≤ maxPayload (cfg E).
Proof using Hcfg. pose proof (cw_payload _ Hcfg). unfold dataCap, fecMetaLen. case_bool_decide; lia. Qed.

Lemma chunk_bounds i : 0 ≤ i < N → 0 < Zlen (chunk i) ≤ dataCap (cfg E).
Proof using Hchunks.
  intros Hi. unfold chunk. destruct (lookup_lt_is_Some_2 chunks (Z.to_nat i)) as [c Hc]; [unfold Zlen in *; lia|].
  rewrite Hc. simpl. rewrite Forall_lookup in Hchunks. eauto.
Qed.
Lemma prefix_succ i : 0 ≤ i < N → first_chunks (i + 1) = first_chunks i ++ chunk i.
Proof.
  intros Hi. unfold first_chunks, chunk. destruct (lookup_lt_is_Some_2 chunks (Z.to_nat i)) as [c Hc]; [unfold Zlen in *; lia|].
  rewrite Hc. replace (Z.to_nat (i + 1)) with (S (Z.to_nat i)) by lia.
  erewrite take_S_r by done. rewrite concat_app. simpl. by rewrite app_nil_r.
Qed.
Lemma prefix_all n : N ≤ n → first_chunks n = concat chunks.
Proof. intros. unfold first_chunks. rewrite take_ge; [done|]. unfold Zlen in *. lia. Qed.

(** an accumulator of the group [base], [base + stride], ... *)
Record acc_ok (stride base rs : Z) (a : fecAccum) : Prop := mkAccOk {
  ao_base : 0 ≤ base;
  ao_buf : wf_buf a.(a_xor);
  ao_len : a.(a_xor).(b_len) = dataCap (cfg E);
  ao_members : ∀ i, 0 ≤ i → has_bit a.(a_folded) i = true → i < G ∧ base + i * stride < rs ∧ base + i * stride < N;
  ao_xor : ∀ j, Z.of_nat j < dataCap (cfg E) →
    byteat a.(a_xor).(b_full) j
    = xsum (seqZ 0 32) (λ i, if has_bit a.(a_folded) i then byteat (chunk (base + i * stride)) j else 0);
  ao_lenXor : a.(a_lenXor)
    = xsum (seqZ 0 32) (λ i, if has_bit a.(a_folded) i then Zlen (chunk (base + i * stride)) else 0);
  ao_bound : ∀ i, 0 ≤ i → has_bit a.(a_folded) i = true → Zlen (chunk (base + i * stride)) ≤ a.(a_maxLen);
  ao_max : ∃ i, 0 ≤ i ∧ has_bit a.(a_folded) i = true ∧ a.(a_maxLen) = Zlen (chunk (base + i * stride));
}.

(** a parity frame of a sender of [chunks]: a full group, or the last group
    closed early *)
Record parity_ok (stride base count xorLen : Z) (data : list Z) : Prop := mkParityOk {
  po_base : 0 ≤ base;
  po_count : 1 ≤ count ≤ G;
  po_sent : base + (count - 1) * stride < N;
  po_full : count = G ∨ N ≤ base + count * stride;
  po_len : xorLen = xsum (seqZ 0 count) (λ i, Zlen (chunk (base + i * stride)));
  po_bound : ∀ i, 0 ≤ i < count → Zlen (chunk (base + i * stride)) ≤ Zlen data;
  po_max : ∃ i, 0 ≤ i < count ∧ Zlen data = Zlen (chunk (base + i * stride));
  po_xor : ∀ j, Z.of_nat j < Zlen data →
    byteat data j = xsum (seqZ 0 count) (λ i, byteat (chunk (base + i * stride)) j);
}.

Definition stride_of (row : bool) : Z := if row then 1 else G.
Definition buffered_ok (rs : Z) (m : gmap Z gbuf) : Prop :=
  ∀ k b, m !! k = Some b → rs ≤ k < N ∧ wf_buf b ∧ bytes b = chunk k.
Definition accs_ok (stride rs : Z) (m : gmap Z fecAccum) : Prop :=
  ∀ base a, m !! base = Some a → acc_ok stride base rs a.
Definition pending_ok (stride : Z) (m : gmap Z fecPendingParity) : Prop :=
  ∀ base p, m !! base = Some p →
    wf_buf p.(fp_data) ∧ parity_ok stride base p.(fp_count) p.(fp_xorLen) (bytes p.(fp_data)).

(** bytes held in the reorder buffer *)
Definition reorder_sum (m : gmap Z gbuf) : Z := map_fold (λ _ b a, b.(b_len) + a) 0 m.

(** no buffered frame waits behind an empty ring *)
Definition no_stall s : Prop := s.(reorder) !! s.(readSeq) ≠ None → 0 < s.(rg).(readLen).
(** the end of the stream has been noticed *)
Definition eof_seen s : Prop := s.(finRecvd) = true → s.(finSeq) ≤ s.(readSeq) → s.(readErr) ≠ None.

(** frame [q] has been taken in: delivered, or buffered *)
Definition held s (q : Z) : Prop := q < s.(readSeq) ∨ s.(reorder) !! q ≠ None.
(** what is held stays held *)
Definition grows s s' : Prop := s.(readSeq) ≤ s'.(readSeq) ∧ ∀ q, held s q → held s' q.
#[local] Instance grows_preorder : PreOrder grows.
Proof. split; [by split|]. intros s1 s2 s3 [A1 A2] [B1 B2]. split; [lia|auto]. Qed.
Lemma grows_same s s' : s'.(readSeq) = s.(readSeq) → s'.(reorder) = s.(reorder) → grows s s'.
Proof. intros H1 H2. unfold grows, held. rewrite H1, H2. done. Qed.

Record recv_inv (out : progress) s : Prop := mkRecvInv {
  ri_ring : ring_wf s.(rg);
  ri_seq : 0 ≤ s.(readSeq);
  ri_data : out.(pg_read) ++ contents s.(rg) = first_chunks s.(readSeq);
  ri_reorder : buffered_ok s.(readSeq) s.(reorder);
  ri_pool : pool_ok E s;
  ri_acc : accs_ok G s.(readSeq) s.(fecAcc);
  ri_accRow : accs_ok 1 s.(readSeq) s.(fecAccRow);
  ri_pending : pending_ok G s.(fecPending);
  ri_pendingRow : pending_ok 1 s.(fecPendingRow);
  ri_fin : s.(finRecvd) = true → s.(finSeq) = N;
  ri_err : match s.(readErr) with
           | None => s.(readSeq) ≤ N
           | Some e => e = io_EOF ∧ s.(finRecvd) = true ∧ N ≤ s.(readSeq) ≤ N + 1
           end;
  ri_canceled : s.(readCanceled) = false;
  ri_cap : 2 * maxPayload (cfg E) ≤ ringCap s.(rg) ≤ maxBufSize (cfg E);
  ri_bytes : s.(reorderBytes) = reorder_sum s.(reorder) ∧ s.(reorderBytes) ≤ maxBufSize (cfg E);
  ri_credit : 0 ≤ s.(grantPending) ∧
    ringCap s.(rg) + Zlen out.(pg_read) ≤ s.(peerOffset) + s.(grantPending) + out.(pg_uncounted) ∧
    (s.(readErr) = None →
     s.(peerOffset) + s.(grantPending) + out.(pg_uncounted) = ringCap s.(rg) + Zlen out.(pg_read));
  ri_quiet : out.(pg_quiet) = true → no_stall s ∧ eof_seen s;
  ri_acks : ∀ q, q ∈ s.(ackReplaySeqs) ++ s.(ackPendingSeqs) → held s q;
}.

(** the fields the invariant speaks about *)
Definition rview s :=
  (s.(rg), s.(readSeq), s.(reorder), s.(reorderPool), s.(fecAcc), s.(fecAccRow), s.(fecPending),
   s.(fecPendingRow), (s.(finRecvd), s.(finSeq), s.(readErr), s.(readCanceled)),
   (s.(reorderBytes), s.(peerOffset), s.(grantPending), s.(ackReplaySeqs), s.(ackPendingSeqs))).

Lemma recv_inv_view out s s' : rview s' = rview s → recv_inv out s → recv_inv out s'.
Proof.
  intros Hv [A B C D F H I J K L M O P Q R T U]. unfold rview in Hv.
  injection Hv as H1 H2 H3 H4 H5 H6 H7 H8 H9 H10 H11 H12 H13 H14 H15 H16 H17.
  split; unfold pool_ok, no_stall, eof_seen, held in *; rewrite ?H1, ?H2, ?H3, ?H4, ?H5, ?H6, ?H7, ?H8, ?H9, ?H10, ?H11, ?H12, ?H13, ?H14, ?H15, ?H16, ?H17; done.
Qed.

(** waking readers changes nothing *)
Lemma recv_inv_wake out s : recv_inv out s → recv_inv out (wakeReaders s).
Proof. by apply recv_inv_view. Qed.
Lemma recv_inv_busy out s : recv_inv out s → recv_inv (busy out) s.
Proof. intros []. by split. Qed.
Lemma recv_inv_quiet out s : recv_inv (busy out) s → no_stall s → eof_seen s → recv_inv out s.
Proof. intros []. by split. Qed.

Lemma recv_inv_pool out s p :
  recv_inv out s → Forall (λ b, Zlen b = maxPayload (cfg E)) p → recv_inv out (s <| reorderPool := p |>).
Proof. intros [] Hp. by split. Qed.

Lemma recv_inv_put out s b : recv_inv out s → recv_inv out (reorderPutLocked E s b).
Proof.
  intros Hi. destruct (reorderPutLocked_spec E s b (ri_pool _ _ Hi)) as [Hp ->]. by apply recv_inv_pool.
Qed.

Lemma recv_inv_grow out s r :
  recv_inv out s → ring_wf r → contents r = contents s.(rg) → ringCap s.(rg) ≤ ringCap r ≤ maxBufSize (cfg E) →
  recv_inv out (s <| rg := r |> <| peerOffset := s.(peerOffset) + (ringCap r - ringCap s.(rg)) |>).
Proof.
  intros [A B C D F H I J K L M O P Q R T U] Hr Hc Hcap. split; try done; simpl.
  - by rewrite Hc.
  - lia.
  - destruct R as (? & ? & Hx). split_and!; [lia|lia|]. intros Hn. specialize (Hx Hn). lia.
  - intros Hq. destruct (T Hq) as [T1 T2]. split; [|done]. intros Hb.
    simpl. rewrite <- (Zlen_contents r Hr), Hc, (Zlen_contents _ A). by apply T1.
Qed.

Lemma acc_ok_mono stride base rs rs' a : rs ≤ rs' → acc_ok stride base rs a → acc_ok stride base rs' a.
Proof. intros Hr [A B C D F H I J]. split; try done. intros i Hi Hb. destruct (D i Hi Hb) as (?&?&?). lia. Qed.
Lemma accs_ok_mono stride rs rs' m : rs ≤ rs' → accs_ok stride rs m → accs_ok stride rs' m.
Proof. intros Hr Hm base a Ha. eapply acc_ok_mono; [done|by apply Hm]. Qed.

(** ** Folding *)
Lemma xsum_bit idx (f : Z → Z) :
  0 ≤ idx < 32 → xsum (seqZ 0 32) (λ i, if has_bit (bit32 idx) i then f i else 0) = f idx.
Proof.
  intros Hi. rewrite (xsum_single _ _ idx).
  - by rewrite has_bit_bit32, bool_decide_true by lia.
  - apply NoDup_seqZ.
  - apply elem_of_seqZ. lia.
  - intros i [??]%elem_of_seqZ Hne. by rewrite has_bit_bit32, bool_decide_false by lia.
Qed.
Lemma xsum_lor folded idx (f : Z → Z) :
  0 ≤ idx < 32 → has_bit folded idx = false →
  xsum (seqZ 0 32) (λ i, if has_bit (Z.lor folded (bit32 idx)) i then f i else 0)
  = Z.lxor (xsum (seqZ 0 32) (λ i, if has_bit folded i then f i else 0)) (f idx).
Proof.
  intros Hi Hno. rewrite <- (xsum_bit idx f Hi), <- xsum_lxor. apply xsum_ext.
  intros i [??]%elem_of_seqZ. rewrite has_bit_lor, has_bit_bit32 by lia.
  case_bool_decide as He.
  - subst. by rewrite Hno.
  - rewrite Z.lxor_0_r, orb_false_r. done.
Qed.

Section fold.
Context (stride rs base idx seq : Z) (Hseq : seq = base + idx * stride).
Context (Hidx : 0 ≤ idx < G) (Hbase : 0 ≤ base) (Hrs : seq < rs) (HseqN : 0 ≤ seq < N).

Lemma acc_new_ok buf :
  wf_buf buf → buf.(b_len) = dataCap (cfg E) →
  let data := chunk seq in
  let buf := buf_copy buf data in
  let n := Z.min (Zlen data) buf.(b_len) in
  let buf := buf <| b_full := copy_at buf.(b_full) n (replicate (Z.to_nat (buf.(b_len) - n)) 0) |> in
  acc_ok stride base rs (mkAccum buf (bit32 idx) (u32 (Zlen data)) (Zlen data)).
Proof using All.
  intros [Hb1 Hb2] Hlen data buf1 n buf2.
  pose proof (chunk_bounds seq HseqN) as Hd. fold data in Hd.
  pose proof dataCap_bounds as Hdc. pose proof (cw_fec _ Hcfg) as Hf.
  assert (n = Zlen data) as Hn by (unfold n, buf1; simpl; lia).
  assert (b_full buf1 = copy_at (b_full buf) 0 data) as Hf1.
  { unfold buf1, buf_copy. simpl. f_equal. unfold slice. rewrite drop_0. apply take_ge. unfold Zlen in *. lia. }
  assert (Zlen (b_full buf1) = Zlen (b_full buf)) as Hl1 by (rewrite Hf1; apply Zlen_copy_at; lia).
  assert (b_len buf1 = dataCap (cfg E)) as Hlen1 by done.
  clearbody buf1.
  assert (Zlen (replicate (Z.to_nat (b_len buf1 - n)) 0) = dataCap (cfg E) - Zlen data) as Hz.
  { rewrite Zlen_replicate; lia. }
  assert (Zlen (b_full buf2) = Zlen (b_full buf)) as Hl2.
  { unfold buf2. simpl. rewrite Zlen_copy_at; lia. }
  assert (∀ j, Z.of_nat j < dataCap (cfg E) → byteat (b_full buf2) j = byteat data j) as Hbytes.
  { intros j Hj. unfold buf2. simpl. rewrite byteat_copy_at by lia. rewrite Hz. case_bool_decide as Hin.
    - rewrite (byteat_beyond data) by (unfold Zlen in *; lia). unfold byteat.
      destruct (replicate _ _ !! _) eqn:Hr; [|done]. by apply lookup_replicate in Hr as [-> _].
    - rewrite Hf1, byteat_copy_at by lia. rewrite bool_decide_true by lia. f_equal. lia. }
  split; cbn [a_xor a_folded a_lenXor a_maxLen].
  - done.
  - unfold wf_buf. rewrite Hl2. unfold buf2. simpl. lia.
  - done.
  - intros i Hi. rewrite has_bit_bit32 by lia. intros ->%bool_decide_eq_true. rewrite <- Hseq. lia.
  - intros j Hj. rewrite (xsum_bit idx (λ i, byteat (chunk (base + i * stride)) j)) by lia.
    rewrite <- Hseq. by apply Hbytes.
  - rewrite (xsum_bit idx (λ i, Zlen (chunk (base + i * stride)))) by lia. rewrite <- Hseq.
    apply u32_id. unfold is_u32. fold data. lia.
  - intros i Hi. rewrite has_bit_bit32 by lia. intros ->%bool_decide_eq_true. rewrite <- Hseq. done.
  - exists idx. rewrite has_bit_bit32, bool_decide_true, <- Hseq by lia. split_and!; [lia|done|done].
Qed.

Lemma acc_fold_ok a rs0 :
  rs0 ≤ rs → acc_ok stride base rs0 a → has_bit a.(a_folded) idx = false →
  let data := chunk seq in
  let acc := a <| a_folded := Z.lor a.(a_folded) (bit32 idx) |> in
  let acc := acc <| a_xor := buf_xor acc.(a_xor) data |> in
  let acc := acc <| a_lenXor := Z.lxor acc.(a_lenXor) (u32 (Zlen data)) |> in
  acc_ok stride base rs (if Zlen data >? acc.(a_maxLen) then acc <| a_maxLen := Zlen data |> else acc).
Proof using All.
  intros Hrs0 [A1 [A2 A2'] A3 A4 A5 A6 A7 A8] Hno data acc1 acc2 acc3.
  pose proof (chunk_bounds seq HseqN) as Hd. fold data in Hd.
  pose proof dataCap_bounds as Hdc. pose proof (cw_fec _ Hcfg) as Hf.
  assert (length data ≤ length (b_full (a_xor a)))%nat as Hlen by (unfold Zlen in *; lia).
  set (acc := if _ >? _ then _ else _).
  assert (a_xor acc = buf_xor (a_xor a) data ∧ a_folded acc = Z.lor (a_folded a) (bit32 idx)
    ∧ a_lenXor acc = Z.lxor (a_lenXor a) (u32 (Zlen data)) ∧ a_maxLen acc = Z.max (a_maxLen a) (Zlen data))
    as (E1 & E2 & E3 & E4).
  { unfold acc. case_bool_decide as Hm; simpl in *; split_and!; try done; lia. }
  assert (Zlen (b_full (a_xor acc)) = Zlen (b_full (a_xor a))) as Hl.
  { rewrite E1. simpl. unfold Zlen. by rewrite length_xorInto. }
  clearbody acc. clear acc1 acc2 acc3. split.
  - done.
  - unfold wf_buf. rewrite Hl, E1. simpl. lia.
  - by rewrite E1.
  - intros i Hi. rewrite E2, has_bit_lor by lia. intros [Hb| ->%bool_decide_eq_true]%orb_true_iff.
    + destruct (A4 i Hi Hb) as (?&?&?). lia.
    + rewrite <- Hseq. lia.
  - intros j Hj. rewrite E1, E2, (xsum_lor _ idx (λ i, byteat (chunk (base + i * stride)) j)) by (done || lia).
    rewrite <- A5, <- Hseq by done. simpl. by rewrite byteat_xorInto.
  - rewrite E2, E3, (xsum_lor _ idx (λ i, Zlen (chunk (base + i * stride)))) by (done || lia).
    rewrite <- A6, <- Hseq. f_equal. apply u32_id. unfold is_u32. fold data. lia.
  - intros i Hi. rewrite E2, E4, has_bit_lor by lia. intros [Hb| ->%bool_decide_eq_true]%orb_true_iff.
    + specialize (A7 i Hi Hb). lia.
    + rewrite <- Hseq. fold data. lia.
  - rewrite E2, E4. destruct A8 as (i & Hi & Hb & Hm). destruct (decide (a_maxLen a < Zlen data)).
    + exists idx. rewrite has_bit_lor, bool_decide_true, orb_true_r, <- Hseq by lia. fold data. split_and!; [lia|done|lia].
    + exists i. rewrite has_bit_lor, Hb by lia. split_and!; [lia|done|lia].
Qed.
End fold.

Lemma fecFoldAccLocked_spec stride rs rs0 base idx seq s accs s' accs' :
  seq = base + idx * stride → 0 ≤ idx < G → 0 ≤ base → seq < rs → 0 ≤ seq < N → rs0 ≤ rs →
  pool_ok E s → accs_ok stride rs0 accs → fecFoldAccLocked E s accs base idx (chunk seq) = (s', accs') →
  accs_ok stride rs accs' ∧ pool_ok E s' ∧ s' = s <| reorderPool := s'.(reorderPool) |>.
Proof using All.
  intros Hseq Hidx Hbase Hrs HseqN Hrs0 Hpool Hacc. unfold fecFoldAccLocked.
  pose proof dataCap_bounds as Hdc.
  destruct (accs !! base) as [a|] eqn:Ha.
  - destruct (_ || _) eqn:Hskip.
    { intros [= <- <-]. split_and!; [by eapply accs_ok_mono|done|by destruct s]. }
    apply orb_false_iff in Hskip as [Hno _]. intros [= <- <-]. split_and!; [|done|by destruct s].
    intros b0 a0. rewrite lookup_insert_Some. intros [[<- <-]|[_ Hb0]].
    + eapply acc_fold_ok; eauto.
    + eapply acc_ok_mono; [done|by apply Hacc].
  - destruct (reorderGetLocked E s (dataCap (cfg E))) as [s1 buf] eqn:Hget.
    destruct (reorderGetLocked_spec E Hcfg s (dataCap (cfg E)) s1 buf Hpool ltac:(lia) Hget) as (Hp1 & Hw & Hl & Hs1).
    intros [= <- <-]. split_and!; [|done|done].
    intros b0 a0. rewrite lookup_insert_Some. intros [[<- <-]|[_ Hb0]].
    + apply (acc_new_ok stride rs base idx seq); done.
    + eapply acc_ok_mono; [done|by apply Hacc].
Qed.

Lemma fecSweepLoop_spec order s accs last s' accs' :
  pool_ok E s → fecSweepLoop E s accs last order = (s', accs') →
  accs' ⊆ accs ∧ pool_ok E s' ∧ s' = s <| reorderPool := s'.(reorderPool) |>.
Proof.
  revert s accs. induction order as [|[base a] order IH]; intros s accs Hp; cbn [fecSweepLoop].
  { intros [= <- <-]. split_and!; [done|done|by destruct s]. }
  case_bool_decide; [|by apply IH]. intros Hl.
  destruct (reorderPutLocked_spec E s (a_xor a) Hp) as [Hp1 Hs1].
  destruct (IH _ _ Hp1 Hl) as (H1 & H2 & H3). split_and!; [|done|].
  - etrans; [exact H1|apply delete_subseteq].
  - rewrite H3, Hs1. done.
Qed.

Lemma accs_ok_sub stride rs m m' : m' ⊆ m → accs_ok stride rs m → accs_ok stride rs m'.
Proof. intros Hs Hm base a Ha. apply Hm. by eapply lookup_weaken. Qed.

(** only the pool and the accumulators differ *)
Definition fec_frame s s' : Prop :=
  s' = s <| reorderPool := s'.(reorderPool) |> <| fecAcc := s'.(fecAcc) |> <| fecAccRow := s'.(fecAccRow) |>.

Lemma fecSweepLocked_spec s :
  pool_ok E s →
  let s' := fecSweepLocked E s in
  s'.(fecAcc) ⊆ s.(fecAcc) ∧ s'.(fecAccRow) ⊆ s.(fecAccRow) ∧ pool_ok E s' ∧ fec_frame s s'.
Proof.
  intros Hp. unfold fecSweepLocked.
  set (g := u32 G). set (s1 := if _ >? 2 * g then _ else s).
  assert (s1.(fecAcc) ⊆ s.(fecAcc) ∧ s1.(fecAccRow) = s.(fecAccRow) ∧ pool_ok E s1 ∧ fec_frame s s1) as (A1 & A2 & A3 & A4).
  { unfold s1. case_bool_decide; [|split_and!; try done; by destruct s].
    destruct (fecSweepLoop E s _ _ _) as [s' accs] eqn:Hl.
    destruct (fecSweepLoop_spec _ _ _ _ _ _ Hp Hl) as (H1 & H2 & H3). simpl. split_and!; try done.
    - by rewrite H3.
    - unfold fec_frame. simpl. rewrite H3. done. }
  clearbody s1. case_bool_decide; [|split_and!; try done; by rewrite A2].
  destruct (fecSweepLoop E s1 _ _ _) as [s' accs] eqn:Hl.
  destruct (fecSweepLoop_spec _ _ _ _ _ _ A3 Hl) as (H1 & H2 & H3). simpl. split_and!; try done.
  - by rewrite H3.
  - by rewrite <- A2.
  - unfold fec_frame in *. simpl. rewrite H3, A4. done.
Qed.

Lemma fecFoldRecvLocked_spec s seq :
  0 < G → 0 ≤ seq < N → s.(readSeq) ≤ seq + 1 → pool_ok E s →
  accs_ok G s.(readSeq) s.(fecAcc) → accs_ok 1 s.(readSeq) s.(fecAccRow) →
  let s' := fecFoldRecvLocked E s seq (chunk seq) in
  fec_frame s s' ∧ pool_ok E s' ∧ accs_ok G (seq + 1) s'.(fecAcc) ∧ accs_ok 1 (seq + 1) s'.(fecAccRow).
Proof using All.
  intros HG Hseq Hrs Hp Ha Har. unfold fecFoldRecvLocked.
  pose proof (chunk_bounds seq Hseq) as Hd. rewrite bool_decide_false by lia.
  destruct (fecGroupOf E seq) as [base idx] eqn:Hg.
  destruct (fecGroupOf_spec E Hcfg seq base idx HG ltac:(lia) Hg) as (H1 & H2 & H3 & _).
  destruct (fecFoldAccLocked E s (fecAcc s) base idx (chunk seq)) as [s1 accs1] eqn:Hf1.
  destruct (fecFoldAccLocked_spec G (seq + 1) (readSeq s) base idx seq s (fecAcc s) s1 accs1)
    as (A1 & P1 & F1); try done; [lia|].
  set (s2 := s1 <| fecAcc := accs1 |>).
  set (s3 := if fec2D (cfg E) then _ else s2).
  assert (accs_ok 1 (seq + 1) s3.(fecAccRow) ∧ s3.(fecAcc) = accs1 ∧ pool_ok E s3 ∧ fec_frame s s3) as (A3 & A3' & P3 & F3).
  { unfold s3. destruct (fec2D (cfg E)).
    - destruct (fecRowOf E seq) as [rb ri] eqn:Hr.
      destruct (fecRowOf_spec E Hcfg seq rb ri HG ltac:(lia) Hr) as (R1 & R2 & R3 & _).
      destruct (fecFoldAccLocked E s2 (fecAccRow s2) rb ri (chunk seq)) as [s4 accs4] eqn:Hf4.
      assert (accs_ok 1 (readSeq s) (fecAccRow s2)) as Har2 by (unfold s2; simpl; by rewrite F1).
      destruct (fecFoldAccLocked_spec 1 (seq + 1) (readSeq s) rb ri seq s2 (fecAccRow s2) s4 accs4)
        as (A4 & P4 & F4); try done; [lia|].
      simpl. split_and!; [done|by rewrite F4|done|]. unfold fec_frame. simpl. rewrite F4. unfold s2. simpl. rewrite F1. done.
    - unfold s2. simpl. split_and!; try done.
      + rewrite F1. simpl. eapply accs_ok_mono; [|done]. lia.
      + unfold fec_frame. simpl. rewrite F1. done. }
  clearbody s3. destruct (fecSweepLocked_spec s3 P3) as (S1 & S2 & S3 & S4).
  split_and!; [|done| |].
  - unfold fec_frame in *. rewrite S4, F3. done.
  - eapply accs_ok_sub; [exact S1|]. by rewrite A3'.
  - eapply accs_ok_sub; [exact S2|done].
Qed.

(** ** Accepting the next frame *)
Lemma reorder_sum_delete m k b :
  m !! k = Some b → reorder_sum m = b.(b_len) + reorder_sum (delete k m).
Proof.
  intros Hk. unfold reorder_sum. rewrite <- (insert_delete_id m k b Hk) at 1.
  rewrite map_fold_insert_L; [done|intros; lia|by rewrite lookup_delete_eq].
Qed.
Lemma reorder_sum_insert m k b :
  m !! k = None → reorder_sum (<[k := b]> m) = b.(b_len) + reorder_sum m.
Proof. intros Hk. unfold reorder_sum. by rewrite map_fold_insert_L; [|intros; lia|]. Qed.

(** The effect of taking frame [readSeq] into the ring, from either path. *)
Definition accepted s (pool : list (list Z)) (accs accsRow : gmap Z fecAccum) : rside :=
  s <| rg := ringWrite s.(rg) (chunk s.(readSeq)) |> <| readSeq := s.(readSeq) + 1 |>
    <| reorder := delete s.(readSeq) s.(reorder) |>
    <| reorderBytes := reorder_sum (delete s.(readSeq) s.(reorder)) |>
    <| reorderPool := pool |> <| fecAcc := accs |> <| fecAccRow := accsRow |>.

Lemma accepted_grows s pool accs accsRow : grows s (accepted s pool accs accsRow).
Proof.
  split; simpl; [lia|]. intros q [Hq|Hq]; unfold held; simpl; [left; lia|].
  destruct (decide (q = s.(readSeq))); [left; lia|]. right. by rewrite lookup_delete_ne.
Qed.

Lemma accept_spec out s pool accs accsRow :
  recv_inv out s → s.(readSeq) < N → ringFitsLocked s.(rg) (Zlen (chunk s.(readSeq))) = true →
  Forall (λ b, Zlen b = maxPayload (cfg E)) pool →
  accs_ok G (s.(readSeq) + 1) accs → accs_ok 1 (s.(readSeq) + 1) accsRow →
  recv_inv (busy out) (accepted s pool accs accsRow).
Proof.
  intros [A B C D F H I J K L M O P Q R T U] Hlt Hfit Hpool Ha Har.
  destruct (ringWrite_spec _ _ A Hfit) as (W1 & W2 & W3). split; simpl; try done.
  - lia.
  - rewrite W2, app_assoc, C. symmetry. apply prefix_succ. lia.
  - intros k b. rewrite lookup_delete_Some. intros [Hne Hk]. destruct (D k b Hk) as (?&?&?).
    split_and!; try done; lia.
  - destruct (readErr s); [destruct M as (?&?&?); lia|lia].
  - by rewrite W3.
  - split; [done|]. destruct Q as [Q1 Q2].
    destruct (reorder s !! readSeq s) as [b|] eqn:Hb.
    + rewrite (reorder_sum_delete _ _ _ Hb) in Q1. destruct (D _ _ Hb) as (_ & [? ?] & _). lia.
    + rewrite delete_id by done. lia.
  - by rewrite W3.
  - intros q Hq. apply (accepted_grows s pool accs accsRow). by apply U.
Qed.

Lemma reorder_buf_len out s k b : recv_inv out s → s.(reorder) !! k = Some b → b.(b_len) = Zlen (chunk k).
Proof.
  intros Hi Hk. destruct (ri_reorder _ _ Hi k b Hk) as (_ & Hw & <-). symmetry. by apply Zlen_bytes.
Qed.

(** making room *)
Lemma room_spec out s n s' room :
  recv_inv out s → 0 ≤ n →
  (if ringFitsLocked s.(rg) n then (s, true) else growLocked E s n) = (s', room) →
  recv_inv out s' ∧ s' = s <| rg := s'.(rg) |> <| peerOffset := s'.(peerOffset) |> <| calls := s'.(calls) |> ∧
  (room = true → ringFitsLocked s'.(rg) n = true).
Proof.
  intros Hi Hn. destruct (ringFitsLocked (rg s) n) eqn:Hfit.
  { intros [= <- <-]. split_and!; [done|by destruct s|done]. }
  intros Hg. destruct (growLocked_spec E _ _ _ _ (ri_ring _ _ Hi) Hn Hg) as (r & cs & -> & W & C & L & K1 & K2 & Hok).
  split_and!; [|done|done]. eapply recv_inv_view; [|apply (recv_inv_grow out s r Hi W C)].
  - done.
  - pose proof (ri_cap _ _ Hi). lia.
Qed.

(** folding is optional: the accumulators of a receiver without FEC stay as
    they are *)
Lemma fold_opt_spec s seq :
  0 ≤ seq < N → s.(readSeq) = seq → pool_ok E s →
  accs_ok G seq s.(fecAcc) → accs_ok 1 seq s.(fecAccRow) →
  let s' := if G >? 0 then fecFoldRecvLocked E s seq (chunk seq) else s in
  fec_frame s s' ∧ pool_ok E s' ∧ accs_ok G (seq + 1) s'.(fecAcc) ∧ accs_ok 1 (seq + 1) s'.(fecAccRow).
Proof using All.
  intros Hseq Hrs Hp Ha Har. case_bool_decide as HG.
  - apply fecFoldRecvLocked_spec; try done; try lia; by rewrite Hrs.
  - split_and!; [by destruct s|done|..]; (eapply accs_ok_mono; [|done]); lia.
Qed.

(** one pass of the drain loop *)
Lemma drain_step out s data :
  recv_inv out s → s.(reorder) !! s.(readSeq) = Some data → ringFitsLocked s.(rg) data.(b_len) = true →
  let s1 := s <| rg := ringWrite s.(rg) (bytes data) |> in
  let s2 := s1 <| reorder := delete s1.(readSeq) s1.(reorder) |> in
  let s3 := s2 <| reorderBytes := s2.(reorderBytes) - data.(b_len) |> in
  let s4 := if G >? 0 then fecFoldRecvLocked E s3 s3.(readSeq) (bytes data) else s3 in
  let s5 := reorderPutLocked E s4 data in
  let s6 := s5 <| readSeq := u32 (s5.(readSeq) + 1) |> in
  ∃ pool accs accsRow, s6 = accepted s pool accs accsRow ∧ recv_inv (busy out) s6.
Proof using All.
  intros Hi Hdata Hfit. destruct (ri_reorder _ _ Hi _ _ Hdata) as (Hseq & Hw & Hb).
  pose proof (reorder_buf_len _ _ _ _ Hi Hdata) as Hl. rewrite Hb. pose proof (ri_seq _ _ Hi) as Hs0.
  intros s1 s2 s3 s4 s5 s6.
  destruct (fold_opt_spec s3 s.(readSeq)) as (F & P & A & Ar); [lia|done|apply Hi..|].
  change (if G >? 0 then fecFoldRecvLocked E s3 (readSeq s) (chunk (readSeq s)) else s3) with s4 in *.
  clearbody s4. destruct (reorderPutLocked_spec E s4 data P) as [P5 F5].
  fold s5 in P5, F5. clearbody s5.
  assert (s6 = accepted s s5.(reorderPool) s4.(fecAcc) s4.(fecAccRow)) as Heq.
  { unfold s6. rewrite F5, F. unfold accepted, s3, s2, s1. simpl.
    rewrite (proj1 (ri_bytes _ _ Hi)), (reorder_sum_delete _ _ _ Hdata).
    rewrite u32_id by (unfold is_u32; lia). rewrite Z.add_simpl_l. reflexivity. }
  exists s5.(reorderPool), s4.(fecAcc), s4.(fecAccRow). split; [done|]. rewrite Heq.
  apply accept_spec; try done; [lia|]. by rewrite <- Hl.
Qed.

(** the parities and the terminal state are not the drain's business *)
Definition drain_frame s s' : Prop :=
  s'.(fecPending) = s.(fecPending) ∧ s'.(fecPendingRow) = s.(fecPendingRow) ∧ s'.(readErr) = s.(readErr) ∧
  s'.(finRecvd) = s.(finRecvd) ∧ s'.(finSeq) = s.(finSeq) ∧ s'.(grantPending) = s.(grantPending) ∧
  s'.(maxSeenSeq) = s.(maxSeenSeq) ∧ grows s s'.
#[local] Instance drain_frame_preorder : PreOrder drain_frame.
Proof. split; [done|]. intros ? ? ? (?&?&?&?&?&?&?&?) (?&?&?&?&?&?&?&?).
  split_and!; [congruence..|by etrans]. Qed.

Lemma drainReorderLoop_spec fuel out s :
  recv_inv (busy out) s →
  recv_inv (busy out) (drainReorderLoop E fuel s) ∧ drain_frame s (drainReorderLoop E fuel s).
Proof using All.
  revert s. induction fuel as [|fuel IH]; intros s Hi; cbn [drainReorderLoop]; [done|].
  destruct (reorder s !! readSeq s) as [data|] eqn:Hdata; [|done].
  destruct (ri_reorder _ _ Hi _ _ Hdata) as (Hseq & [Hb0 _] & _).
  destruct (if ringFitsLocked (rg s) (b_len data) then _ else _) as [s1 room] eqn:Hr.
  destruct (room_spec (busy out) s (b_len data) s1 room Hi Hb0 Hr) as (Hi1 & Hs1 & Hfit).
  assert (drain_frame s s1) as Hf1 by (rewrite Hs1; split_and!; [done..|by apply grows_same]).
  destruct room; cbn [negb]; [|done]. specialize (Hfit eq_refl).
  assert (reorder s1 !! readSeq s1 = Some data) as Hdata1 by (by rewrite Hs1).
  destruct (drain_step (busy out) s1 data Hi1 Hdata1 Hfit) as (pool & accs & accsRow & Heq & Hi2).
  cbv zeta in Heq, Hi2. rewrite Heq in Hi2. rewrite Heq. destruct (IH _ (recv_inv_wake _ _ Hi2)) as [Hi3 Hf3].
  split; [done|]. etrans; [exact Hf1|]. etrans; [|exact Hf3].
  split_and!; [done..|exact (accepted_grows s1 pool accs accsRow)].
Qed.

(** With as many passes as buffered frames the loop ends at a gap or at a
    ring without room; the ring then holds something, for an empty one has
    room for any frame. *)
Lemma drain_no_stall fuel out s :
  recv_inv (busy out) s → (size s.(reorder) ≤ fuel)%nat → no_stall (drainReorderLoop E fuel s).
Proof using All.
  revert s. induction fuel as [|fuel IH]; intros s Hi Hsz; cbn [drainReorderLoop].
  { assert (reorder s = ∅) as He by (apply map_size_empty_inv; lia). unfold no_stall. by rewrite He, lookup_empty. }
  destruct (reorder s !! readSeq s) as [data|] eqn:Hdata; [|by unfold no_stall; rewrite Hdata].
  destruct (ri_reorder _ _ Hi _ _ Hdata) as (Hseq & [Hb0 _] & _).
  destruct (if ringFitsLocked (rg s) (b_len data) then _ else _) as [s1 room] eqn:Hr.
  destruct (room_spec (busy out) s (b_len data) s1 room Hi Hb0 Hr) as (Hi1 & Hs1 & Hfit).
  destruct room; cbn [negb].
  - assert (reorder s1 !! readSeq s1 = Some data) as Hdata1 by (by rewrite Hs1).
    destruct (drain_step (busy out) s1 data Hi1 Hdata1 (Hfit eq_refl)) as (pool & accs & accsRow & Heq & Hi2).
    cbv zeta in Heq, Hi2. rewrite Heq in Hi2. rewrite Heq. apply IH; [by apply recv_inv_wake|].
    unfold accepted. simpl. rewrite map_size_delete_Some by (by eexists). rewrite Hs1. simpl. lia.
  - intros _. pose proof (reorder_buf_len _ _ _ _ Hi Hdata) as Hl. pose proof (ri_cap _ _ Hi) as Hc.
    pose proof (ri_seq _ _ Hi) as H0. pose proof (chunk_bounds (readSeq s) ltac:(lia)) as Hch.
    pose proof dataCap_bounds as Hdc.
    destruct (ringFitsLocked (rg s) (b_len data)) eqn:Hno; [done|].
    unfold ringFitsLocked in Hno. fold (ringCap (rg s)) in Hno. bool_simpl.
    destruct (growLocked_spec E _ _ _ _ (ri_ring _ _ Hi) Hb0 Hr) as (r & cs & -> & _ & _ & L & _). simpl. lia.
Qed.

Lemma drainReorderLocked_spec out s :
  recv_inv (busy out) s →
  recv_inv (busy out) (drainReorderLocked E s) ∧ drain_frame s (drainReorderLocked E s) ∧ no_stall (drainReorderLocked E s).
Proof using All. intros Hi. destruct (drainReorderLoop_spec (size (reorder s)) out s Hi). split_and!; [done|done|]. by eapply drain_no_stall. Qed.

Lemma maybeEOFLocked_spec out s :
  recv_inv (busy out) s → no_stall s → recv_inv out (maybeEOFLocked s) ∧
  (maybeEOFLocked s = s ∨ (maybeEOFLocked s = wakeReaders (s <| readErr := Some io_EOF |>) ∧ N ≤ s.(readSeq))).
Proof.
  intros Hi Hst. unfold maybeEOFLocked. destruct (_ && _) eqn:Hb.
  - bool_simpl. pose proof (ri_fin _ _ Hi H) as Hfin. rewrite Hfin in *. split; [|right; by split].
    destruct Hi as [A B C D F I0 I J K L M O P Q R T U]. rewrite H0 in *. split; simpl; try done.
    + split_and!; try done; lia.
    + destruct R as (? & ? & _). done.
  - split; [|by left]. apply recv_inv_quiet; [done|done|]. intros Hf Hs. rewrite Hf in Hb. cbn [andb] in Hb.
    rewrite (bool_decide_true _ Hs) in Hb. cbn [andb] in Hb. by bool_simpl.
Qed.

(** ** Reconstruction *)
Lemma scanMembers_spec s folded base stride missing ms m :
  (∀ i, i ∈ ms → 0 ≤ i) → scanMembers s folded base stride missing ms = inr m →
  let avail i := has_bit folded i = true ∨ s.(reorder) !! u32 (base + i * stride) ≠ None in
  (m = missing ∧ ∀ i, i ∈ ms → avail i) ∨
  (missing < 0 ∧ m ∈ ms ∧ has_bit folded m = false ∧ ∀ i, i ∈ ms → i ≠ m → avail i).
Proof.
  intros Hpos Hs avail. revert missing Hs. induction ms as [|i ms IH]; intros missing; cbn [scanMembers].
  { intros [= <-]. left. split; [done|]. intros i Hi. by apply elem_of_nil in Hi. }
  specialize (IH (λ j Hj, Hpos j (list_elem_of_further _ _ _ Hj))).
  destruct (has_bit folded i) eqn:Hb.
  { intros [[-> Ha]|(H1 & H2 & H3 & H4)]%IH; [left|right].
    - split; [done|]. intros j [->|Hj]%elem_of_cons; [by left|auto].
    - split_and!; [done|by right|done|]. intros j [->|Hj]%elem_of_cons; [by left|auto]. }
  case_bool_decide as Hr.
  { intros [[-> Ha]|(H1 & H2 & H3 & H4)]%IH; [left|right].
    - split; [done|]. intros j [->|Hj]%elem_of_cons; [by right|auto].
    - split_and!; [done|by right|done|]. intros j [->|Hj]%elem_of_cons; [by right|auto]. }
  case_bool_decide; [done|]. case_bool_decide; [done|].
  intros [[-> Ha]|(H1 & H2 & H3 & H4)]%IH; right.
  - split_and!; [lia|by left|done|]. intros j [->|Hj]%elem_of_cons Hne; [done|auto].
  - specialize (Hpos i (list_elem_of_here _ _)). lia.
Qed.

Lemma xorMembers_spec s folded base stride m buf len ms :
  wf_buf buf →
  (∀ i, i ∈ ms → has_bit folded i = false → i ≠ m → ∃ b, s.(reorder) !! u32 (base + i * stride) = Some b
     ∧ bytes b = chunk (base + i * stride) ∧ Zlen (chunk (base + i * stride)) ≤ buf.(b_len)
     ∧ Zlen (chunk (base + i * stride)) < 2 ^ 32) →
  let known i := has_bit folded i || bool_decide (i = m) in
  ∃ buf', xorMembers s folded base stride m buf len ms
    = Some (buf', Z.lxor len (xsum ms (λ i, if known i then 0 else Zlen (chunk (base + i * stride)))))
    ∧ buf'.(b_len) = buf.(b_len) ∧ wf_buf buf'
    ∧ ∀ j, byteat buf'.(b_full) j
        = Z.lxor (byteat buf.(b_full) j) (xsum ms (λ i, if known i then 0 else byteat (chunk (base + i * stride)) j)).
Proof.
  intros Hw Hm known. revert buf len Hw Hm.
  induction ms as [|i ms IH]; intros buf len [Hw1 Hw2] Hm; cbn [xorMembers xsum foldr].
  { exists buf. split_and!; [by rewrite Z.lxor_0_r|done|done..|]. intros j. by rewrite Z.lxor_0_r. }
  fold (known i). destruct (known i) eqn:Hk.
  { destruct (IH buf len) as (buf' & H1 & H2 & H3 & H4); [done|intros j Hj; apply Hm; by right|].
    exists buf'. rewrite H1. split_and!; try done. }
  apply orb_false_iff in Hk as [Hb Hne]. apply bool_decide_eq_false in Hne.
  destruct (Hm i (list_elem_of_here _ _) Hb Hne) as (b & -> & -> & Hl & Hl32).
  set (c := chunk (base + i * stride)) in *. pose proof (Zlen_nonneg c).
  rewrite bool_decide_false by lia. rewrite (u32_id (Zlen c)) by (unfold is_u32; lia).
  assert (length c ≤ length (b_full buf))%nat as Hlen by (unfold Zlen in *; lia).
  assert (Zlen (b_full (buf_xor buf c)) = Zlen (b_full buf)) as Hx.
  { simpl. unfold Zlen. by rewrite length_xorInto. }
  destruct (IH (buf_xor buf c) (Z.lxor len (Zlen c))) as (buf' & H1 & H2 & H3 & H4).
  - unfold wf_buf. rewrite Hx. done.
  - intros j Hj. apply Hm. by right.
  - exists buf'. split_and!; [|done|done|].
    + rewrite H1. do 2 f_equal. by rewrite Z.lxor_assoc.
    + intros j. rewrite H4. simpl. rewrite byteat_xorInto by done. by rewrite Z.lxor_assoc.
Qed.

Lemma lxor_u32 a b : is_u32 a → is_u32 b → is_u32 (Z.lxor a b).
Proof. by apply lxor_below. Qed.
Lemma xsum_u32 l f : (∀ i, i ∈ l → is_u32 (f i)) → is_u32 (xsum l f).
Proof. by apply xsum_below. Qed.

Definition acc_folded (acc : option fecAccum) : Z := match acc with Some a => a.(a_folded) | None => 0 end.
(** the buffer and length after XORing in the accumulator *)
Definition xor_acc (acc : option fecAccum) (buf : gbuf) (length : Z) : gbuf * Z :=
  match acc with
  | Some acc => (buf_xor buf (slice acc.(a_xor).(b_full) 0 acc.(a_maxLen)), Z.lxor length acc.(a_lenXor))
  | None => (buf, length)
  end.

Section rebuild.
Context (stride base count xorLen : Z) (data : list Z) (rs : Z) (acc : option fecAccum).
Context (Hpar : parity_ok stride base count xorLen data) (Hstride : 1 ≤ stride).
Context (Hacc : ∀ a, acc = Some a → acc_ok stride base rs a).
#[local] Abbreviation member i := (chunk (base + i * stride)).

Lemma member_bounds i : 0 ≤ i < count → 0 ≤ base + i * stride < N.
Proof using Hpar Hstride. destruct Hpar. intros. nia. Qed.

Lemma folded_lt_count i : 0 ≤ i → has_bit (acc_folded acc) i = true → i < count.
Proof using Hpar Hstride Hacc.
  intros Hi Hb. destruct acc as [a|] eqn:Ha; [|by rewrite has_bit_0 in Hb].
  destruct (ao_members _ _ _ _ (Hacc a eq_refl) i Hi Hb) as (H1 & _ & H3).
  destruct Hpar as [? ? ? [->|Hf] _ _ _ _]; [done|].
  destruct (decide (i < count)); [done|]. nia.
Qed.

Lemma folded_sum (f : Z → Z) :
  xsum (seqZ 0 32) (λ i, if has_bit (acc_folded acc) i then f i else 0)
  = xsum (seqZ 0 count) (λ i, if has_bit (acc_folded acc) i then f i else 0).
Proof using All.
  destruct Hpar. pose proof (cw_fec _ Hcfg). apply xsum_seqZ_extend; [lia|]. intros i Hi.
  destruct (has_bit (acc_folded acc) i) eqn:Hb; [|done]. apply folded_lt_count in Hb; lia.
Qed.

Lemma xor_acc_spec buf :
  wf_buf buf → buf.(b_len) = Zlen data → bytes buf = data →
  (∀ a, acc = Some a → a.(a_maxLen) ≤ Zlen data) →
  let '(buf', len) := xor_acc acc buf xorLen in
  buf'.(b_len) = Zlen data ∧ wf_buf buf' ∧
  len = Z.lxor (xsum (seqZ 0 count) (λ i, Zlen (member i)))
          (xsum (seqZ 0 count) (λ i, if has_bit (acc_folded acc) i then Zlen (member i) else 0)) ∧
  ∀ j, Z.of_nat j < Zlen data → byteat buf'.(b_full) j
    = Z.lxor (xsum (seqZ 0 count) (λ i, byteat (member i) j))
        (xsum (seqZ 0 count) (λ i, if has_bit (acc_folded acc) i then byteat (member i) j else 0)).
Proof using All.
  intros [Hw1 Hw2] Hl Hb Hmax.
  assert (∀ j, Z.of_nat j < Zlen data → byteat buf.(b_full) j = byteat data j) as Hbd.
  { intros j Hj. rewrite <- Hb. unfold bytes. rewrite byteat_slice, bool_decide_true by lia. done. }
  pose proof (folded_sum (λ i, Zlen (member i))) as FL.
  pose proof (λ j, folded_sum (λ i, byteat (member i) j)) as FB.
  rewrite <- FL. clear FL.
  destruct acc as [a|] eqn:Ha; unfold xor_acc; cbn [acc_folded] in *.
  - destruct (Hacc a eq_refl) as [A1 [A2 A2'] A3 A4 A5 A6 A7 (i0 & Hi0 & Hb0 & A8)].
    specialize (Hmax a eq_refl). destruct (A4 i0 Hi0 Hb0) as (_ & _ & HiN).
    pose proof (chunk_bounds (base + i0 * stride) ltac:(destruct Hpar; nia)) as Hc0.
    assert (Zlen (slice (b_full (a_xor a)) 0 (a_maxLen a)) = a_maxLen a) as Hsl by (rewrite Zlen_slice; lia).
    assert (length (slice (b_full (a_xor a)) 0 (a_maxLen a)) ≤ length (b_full buf))%nat as Hle
      by (unfold Zlen in *; lia).
    split_and!; [done| | |].
    + unfold wf_buf. simpl. unfold Zlen in *. rewrite length_xorInto by done. lia.
    + by rewrite (po_len _ _ _ _ _ Hpar), A6.
    + intros j Hj. rewrite <- FB. cbn [buf_xor put b_full]. rewrite byteat_xorInto, Hbd, (po_xor _ _ _ _ _ Hpar) by done. f_equal.
      rewrite byteat_slice. case_bool_decide as Hjm; [apply A5; lia|].
      symmetry. apply xsum_zero. intros i [Hi _]%elem_of_seqZ. destruct (has_bit (a_folded a) i) eqn:Hbi; [|done].
      apply byteat_beyond. specialize (A7 i Hi Hbi). unfold Zlen in *. lia.
  - assert (∀ f : Z → Z, xsum (seqZ 0 32) (λ i, if has_bit 0 i then f i else 0) = 0) as Hz.
    { intros f. apply xsum_zero. intros i _. by rewrite has_bit_0. }
    split_and!; [done|done| |].
    + by rewrite (Hz (λ i, Zlen (member i))), Z.lxor_0_r, (po_len _ _ _ _ _ Hpar).
    + intros j Hj. rewrite <- FB. by rewrite (Hz (λ i, byteat (member i) j)), Z.lxor_0_r, Hbd, (po_xor _ _ _ _ _ Hpar).
Qed.

(** The two loops of [tryReconstructLocked] rebuild exactly the missing
    member. *)
Lemma rebuild_spec s (strideGo m : Z) buf0 :
  strideGo = stride → buffered_ok rs s.(reorder) →
  wf_buf buf0 → buf0.(b_len) = Zlen data → bytes buf0 = data →
  (∀ a, acc = Some a → a.(a_maxLen) ≤ Zlen data) →
  0 ≤ m < count → has_bit (acc_folded acc) m = false →
  (∀ i, i ∈ seqZ 0 count → i ≠ m →
     has_bit (acc_folded acc) i = true ∨ s.(reorder) !! u32 (base + i * strideGo) ≠ None) →
  let '(buf1, len1) := xor_acc acc buf0 (u32 xorLen) in
  ∃ buf2, xorMembers s (acc_folded acc) base strideGo m buf1 len1 (seqZ 0 count) = Some (buf2, Zlen (member m))
    ∧ slice buf2.(b_full) 0 (Zlen (member m)) = member m.
Proof using All.
  intros -> Hbuf Hw Hl Hb Hmax Hm Hmf Hav.
  assert (u32 xorLen = xorLen) as ->.
  { apply u32_id. rewrite (po_len _ _ _ _ _ Hpar). apply xsum_u32. intros i [??]%elem_of_seqZ.
    pose proof (chunk_bounds _ (member_bounds i ltac:(lia))). pose proof dataCap_bounds. unfold is_u32. lia. }
  pose proof (xor_acc_spec buf0 Hw Hl Hb Hmax) as Hx.
  destruct (xor_acc acc buf0 xorLen) as [buf1 len1]. destruct Hx as (L1 & W1 & -> & B1).
  destruct (xorMembers_spec s (acc_folded acc) base stride m buf1
    (Z.lxor (xsum (seqZ 0 count) (λ i, Zlen (member i)))
          (xsum (seqZ 0 count) (λ i, if has_bit (acc_folded acc) i then Zlen (member i) else 0)))
    (seqZ 0 count) W1) as (buf2 & -> & L2 & W2 & B2).
  { intros i [Hi1 Hi2]%elem_of_seqZ Hbi Hne. pose proof (member_bounds i ltac:(lia)) as Hmb.
    destruct (Hav i) as [?|Hr]; [apply elem_of_seqZ; lia|done|congruence|].
    rewrite u32_id in Hr |- * by (unfold is_u32; lia).
    destruct (reorder s !! (base + i * stride)) as [b|] eqn:Hlk; [|done]. exists b.
    destruct (Hbuf _ _ Hlk) as (_ & _ & Hbb). pose proof (chunk_bounds _ Hmb). pose proof dataCap_bounds.
    split_and!; [done|done| |lia]. rewrite L1. apply (po_bound _ _ _ _ _ Hpar). lia. }
  assert (m ∈ seqZ 0 count) as Hmin by (apply elem_of_seqZ; lia).
  rewrite (xsum_recover _ (λ i, Zlen (member i)) (has_bit (acc_folded acc)) m) by (try apply NoDup_seqZ; done).
  exists buf2. split; [done|]. pose proof (po_bound _ _ _ _ _ Hpar m Hm) as Hlm.
  pose proof (Zlen_nonneg (member m)) as Hnn. destruct W2 as [W2 W2'].
  apply byteat_ext; [rewrite Zlen_slice; lia|]. rewrite Zlen_slice by lia.
  intros j Hj. rewrite byteat_slice, bool_decide_true, B2, B1 by lia.
  apply (xsum_recover _ (λ i, byteat (member i) j)); try done. apply NoDup_seqZ.
Qed.
End rebuild.

(** ** Delivery *)
Definition psize s : nat := (size s.(fecPending) + size s.(fecPendingRow))%nat.

(** an operation buffers no new parity and lets go of nothing *)
Definition after s s' : Prop := (psize s' ≤ psize s)%nat ∧ grows s s'.
#[local] Instance after_preorder : PreOrder after.
Proof. split; [by split|]. intros s1 s2 s3 [A1 A2] [B1 B2]. split; [lia|by etrans]. Qed.
Lemma after_same s s' :
  s'.(fecPending) = s.(fecPending) → s'.(fecPendingRow) = s.(fecPendingRow) →
  s'.(readSeq) = s.(readSeq) → s'.(reorder) = s.(reorder) → after s s'.
Proof. intros H1 H2 H3 H4. split; [unfold psize; by rewrite H1, H2|by apply grows_same]. Qed.

(** a DATA frame of the sender, or its FIN *)
Definition frame_ok (seq : Z) (payload : list Z) (isFin : bool) : Prop :=
  if isFin then seq = N ∧ payload = [] else 0 ≤ seq < N ∧ payload = chunk seq.

(** what is assumed of the delivery function inside, and shown of it outside:
    it completes, keeps the invariant and buffers no new parity *)
Definition delivers (n : nat) (f : rside → Z → list Z → bool → option (rside * bool)) : Prop :=
  ∀ out s seq payload isFin, out.(pg_quiet) = true → recv_inv out s → (psize s < n)%nat → frame_ok seq payload isFin →
    ∃ s' ack, f s seq payload isFin = Some (s', ack) ∧ recv_inv out s' ∧ after s s' ∧
      (ack = true → isFin = false → held s' seq).

Section delivery.
Context (n : nat) (rec : rside → Z → list Z → bool → option (rside * bool)) (Hrec : delivers n rec).
Context (HG : 0 < G).

Lemma u32_G : u32 G = G.
Proof using Hcfg. clear HG. pose proof (cw_fec _ Hcfg). apply u32_id. unfold is_u32. lia. Qed.

Lemma tryReconstruct_spec out s row base count xorLen data :
  out.(pg_quiet) = true → recv_inv out s → (psize s < n)%nat → parity_ok (stride_of row) base count xorLen data →
  ∃ s' o, tryReconstruct E rec s row base count xorLen data = Some (s', o) ∧ recv_inv out s' ∧ after s s'.
Proof using All.
  intros Hq Hi Hn Hpar. unfold tryReconstruct. rewrite u32_G. fold (stride_of row).
  assert (1 ≤ stride_of row) as Hst by (unfold stride_of; destruct row; lia).
  set (accs := if row then fecAccRow s else fecAcc s).
  assert (∀ a, accs !! base = Some a → acc_ok (stride_of row) base (readSeq s) a) as Hacc.
  { intros a Ha. unfold accs, stride_of in *. destruct row; by apply Hi. }
  clearbody accs. destruct (readSeq s >? _); [by exists s, fecUseless|].
  destruct (match accs !! base with Some acc => a_maxLen acc >? Zlen data | None => false end) eqn:Hmx;
    [by exists s, fecUseless|].
  assert (∀ a, accs !! base = Some a → a_maxLen a ≤ Zlen data) as Hmax.
  { intros a Ha. rewrite Ha in Hmx. bool_simpl. lia. }
  clear Hmx. fold (acc_folded (accs !! base)).
  destruct (scanMembers _ _ _ _ _ _) as [o|m] eqn:Hscan; [by exists s, o|].
  case_bool_decide as Hm0; [by exists s, fecUseless|].
  apply scanMembers_spec in Hscan as [[-> _]|(_ & Hmin & Hmf & Hav)]; [lia| |by intros i [??]%elem_of_seqZ].
  apply elem_of_seqZ in Hmin as Hmb.
  destruct (reorderGetLocked E s (Zlen data)) as [s1 buf] eqn:Hget.
  destruct (reorderGetLocked_spec E Hcfg s (Zlen data) s1 buf (ri_pool _ _ Hi) (Zlen_nonneg _) Hget) as (P1 & W & L & Hs1).
  assert (recv_inv out s1) as Hi1 by (rewrite Hs1; by apply recv_inv_pool).
  assert (after s s1 ∧ psize s1 = psize s) as [Haf1 Hps1] by (rewrite Hs1; split; [by apply after_same|done]).
  destruct (buf_copy_spec buf data W ltac:(lia)) as (W0 & B0 & _).
  pose proof (rebuild_spec (stride_of row) base count xorLen data (readSeq s) (accs !! base) Hpar Hst Hacc s1 (stride_of row) m
    (buf_copy buf data) eq_refl) as Hre.
  assert (reorder s1 = reorder s) as Hro by (by rewrite Hs1). rewrite Hro in Hre.
  specialize (Hre (ri_reorder _ _ Hi) W0 L B0 Hmax ltac:(lia) Hmf Hav).
  fold (xor_acc (accs !! base) (buf_copy buf data) (u32 xorLen)).
  destruct (xor_acc (accs !! base) (buf_copy buf data) (u32 xorLen)) as [buf1 len1].
  destruct Hre as (buf2 & Hxm & Hsl). rewrite Hxm.
  pose proof (member_bounds (stride_of row) base count xorLen data Hpar Hst m ltac:(lia)) as Hmem.
  pose proof (chunk_bounds _ Hmem) as Hch.
  pose proof (po_bound _ _ _ _ _ Hpar m ltac:(lia)) as Hle.
  rewrite !bool_decide_false by lia. cbn [orb].
  rewrite Hsl, u32_id by (unfold is_u32; lia).
  destruct (Hrec out s1 (base + m * stride_of row) (chunk (base + m * stride_of row)) false Hq Hi1)
    as (s2 & ack & -> & Hi2 & Haf2 & _); [lia|done|].
  cbn [mbind option_bind]. eexists _, _. split; [done|].
  destruct (reorderPutLocked_spec E s2 buf2 (ri_pool _ _ Hi2)) as [_ Heq].
  split; [by apply recv_inv_put|]. rewrite Heq. etrans; [exact Haf1|]. etrans; [exact Haf2|by apply after_same].
Qed.

Lemma recv_inv_set_pending out s row m :
  recv_inv out s → pending_ok (stride_of row) m → recv_inv out (set_pending row m s).
Proof. intros [] Hm. unfold set_pending, stride_of in *. by destruct row; split. Qed.
Lemma get_pending_ok out s row : recv_inv out s → pending_ok (stride_of row) (get_pending row s).
Proof. intros []. unfold get_pending, stride_of. by destruct row. Qed.
Lemma psize_set_pending s row m :
  psize (set_pending row m s) = (size m + (psize s - size (get_pending row s)))%nat.
Proof. unfold psize, set_pending, get_pending. destruct row; simpl; lia. Qed.

Lemma fecRetryBase_spec out s row base :
  out.(pg_quiet) = true → recv_inv out s → (psize s ≤ n)%nat →
  ∃ s', fecRetryBase E rec s row base = Some s' ∧ recv_inv out s' ∧ after s s'.
Proof using All.
  intros Hq Hi Hn. unfold fecRetryBase.
  destruct (get_pending row s !! base) as [p|] eqn:Hp; [|by exists s].
  pose proof (get_pending_ok out s row Hi) as Hpend. destruct (Hpend _ _ Hp) as [Hw Hpar].
  set (s1 := set_pending row (delete base (get_pending row s)) s).
  assert (recv_inv out s1) as Hi1.
  { apply recv_inv_set_pending; [done|]. intros b q Hbq. apply Hpend. by apply lookup_delete_Some in Hbq as [_ ?]. }
  assert (psize s = S (psize s1)) as Hps.
  { unfold s1. rewrite psize_set_pending, map_size_delete_Some by (by eexists).
    assert (size (get_pending row s) ≠ 0)%nat. { intros H0%map_size_empty_inv. by rewrite H0, lookup_empty in Hp. }
    unfold psize, get_pending in *. destruct row; lia. }
  destruct (tryReconstruct_spec out s1 row base _ _ _ Hq Hi1 ltac:(lia) Hpar) as (s2 & o & -> & Hi2 & Haf2).
  assert (after s s1) as Haf1.
  { split; [lia|]. unfold s1, set_pending. by apply grows_same; destruct row. }
  assert (after s s2) as Haf by (by etrans). pose proof (proj1 Haf2) as Hp2.
  cbn [mbind option_bind]. eexists. split; [done|]. destruct o.
  - split; [by apply recv_inv_put|].
    destruct (reorderPutLocked_spec E s2 (fp_data p) (ri_pool _ _ Hi2)) as [_ ->].
    etrans; [exact Haf|by apply after_same].
  - set (s3 := call s2 CStatFecRecovered).
    assert (recv_inv out s3) as Hi3 by (eapply recv_inv_view; [|exact Hi2]; done).
    split; [by apply recv_inv_put|].
    destruct (reorderPutLocked_spec E s3 (fp_data p) (ri_pool _ _ Hi3)) as [_ ->].
    etrans; [exact Haf|by apply after_same].
  - split.
    + apply recv_inv_set_pending; [done|]. intros b q. rewrite lookup_insert_Some.
      intros [[<- <-]|[_ Hbq]]; [done|]. by apply (get_pending_ok out s2 row Hi2).
    + split; [|etrans; [apply Haf|]; unfold set_pending; by apply grows_same; destruct row].
      rewrite psize_set_pending.
      assert (size (<[base := p]> (get_pending row s2)) ≤ S (size (get_pending row s2)))%nat.
      { rewrite map_size_insert. case_match; simpl; lia. }
      assert (size (get_pending row s2) ≤ psize s2)%nat by (unfold psize, get_pending; destruct row; lia).
      lia.
Qed.

Lemma fecRetrySeq_spec out s seq :
  out.(pg_quiet) = true → recv_inv out s → (psize s ≤ n)%nat →
  ∃ s', fecRetrySeq E rec s seq = Some s' ∧ recv_inv out s' ∧ after s s'.
Proof using All.
  intros Hq Hi Hn. unfold fecRetrySeq. destruct (fecGroupOf E seq) as [base ?].
  destruct (fecRetryBase_spec out s false base Hq Hi Hn) as (s1 & -> & Hi1 & Haf1). pose proof (proj1 Haf1) as Hp1. cbn [mbind option_bind].
  destruct (fec2D (cfg E)); [|by exists s1]. destruct (fecRowOf E seq) as [rb ?].
  destruct (fecRetryBase_spec out s1 true rb Hq Hi1 ltac:(lia)) as (s2 & -> & Hi2 & Haf2).
  exists s2. split_and!; [done|done|by etrans].
Qed.
End delivery.

Lemma fireNackLocked_view s : rview (fireNackLocked s) = rview s.
Proof. unfold fireNackLocked. by case_bool_decide. Qed.
Lemma maybeFastRetransmitLocked_view s : rview (maybeFastRetransmitLocked E s) = rview s.
Proof.
  unfold maybeFastRetransmitLocked, time_Now, read_grace. case_bool_decide; simpl; [|done].
  destruct (_ || _); [done|]. by rewrite fireNackLocked_view.
Qed.
Lemma rview_psize s s' : rview s' = rview s → psize s' = psize s.
Proof. unfold rview, psize. intros Hv. injection Hv as _ _ _ _ _ _ H1 H2 _ _ _ _ _ _ _ _ _. by rewrite H1, H2. Qed.

Lemma rview_after s s' : rview s' = rview s → after s s'.
Proof. unfold rview. intros Hv. injection Hv as _ H1 H2 _ _ _ H3 H4 _ _ _ _ _ _ _ _ _. by apply after_same. Qed.

(** buffering an out-of-order frame *)
Lemma buffer_spec out s seq s1 cp :
  recv_inv out s → s.(readSeq) < seq < N → s.(reorder) !! seq = None →
  s.(reorderBytes) + Zlen (chunk seq) ≤ maxBufSize (cfg E) →
  reorderGetLocked E s (Zlen (chunk seq)) = (s1, cp) →
  recv_inv out (s1 <| reorder := <[seq := buf_copy cp (chunk seq)]> s1.(reorder) |>
                   <| reorderBytes := s1.(reorderBytes) + Zlen (chunk seq) |>).
Proof using All.
  intros Hi Hseq Hnone Hroom Hget.
  destruct (reorderGetLocked_spec E Hcfg s _ s1 cp (ri_pool _ _ Hi) (Zlen_nonneg _) Hget) as (P1 & W & L & Hs1).
  destruct (buf_copy_spec cp (chunk seq) W ltac:(lia)) as (W0 & B0 & _).
  rewrite Hs1. destruct Hi as [A B C D F H I J K L0 M O P Q R T U]. split; simpl; try done.
  - intros k b. rewrite lookup_insert_Some. intros [[<- <-]|[_ Hk]]; [|by apply D].
    split_and!; [lia|lia|done|done].
  - rewrite reorder_sum_insert by done. simpl. rewrite L. destruct Q. lia.
  - intros Hq. destruct (T Hq) as [T1 T2]. split; [|done]. unfold no_stall. simpl.
    rewrite lookup_insert_ne by lia. exact T1.
  - intros q Hq. destruct (U q Hq) as [?|Hr]; [by left|right]. simpl.
    rewrite lookup_insert. by case_decide.
Qed.

(** a frame after the end of the stream *)
Lemma discard_spec out s seq (payload : list Z) :
  recv_inv out s → s.(readErr) ≠ None → 0 ≤ seq ≤ N →
  let s1 := if Zlen payload >? 0 then grantLocked s (Zlen payload) else s in
  let s2 := if seq >=? s1.(readSeq) then s1 <| readSeq := u32 (seq + 1) |> else s1 in
  recv_inv out s2 ∧ after s s2 ∧ (seq < N → held s2 seq).
Proof using All.
  intros Hi Herr Hseq s1 s2.
  assert (recv_inv out s1 ∧ after s s1 ∧ s1.(readErr) = s.(readErr)) as (Hi1 & Hp1 & He1).
  { unfold s1. case_bool_decide; [|done]. rewrite grantLocked_eq. split_and!; [|by apply after_same|done].
    destruct Hi as [A B C D F HH I J K L M O P Q R T U]. split; simpl; try done.
    destruct R as (R1 & R2 & R3). split_and!; [done|lia|]. intros; by destruct Herr. }
  clearbody s1. unfold s2. case_bool_decide as Hs; [|split_and!; [done|done|intros; left; lia]].
  destruct Hi1 as [A B C D F H I J K L M O P Q R T U].
  destruct (readErr s1) as [e|] eqn:He; [|congruence]. destruct M as (M1 & M2 & M3).
  assert (seq = N ∧ readSeq s1 = N) as [Hn1 Hn2] by lia.
  assert (∀ q, held s1 q → q < N + 1) as Hall.
  { intros q [Hq|Hq]; [lia|]. destruct (reorder s1 !! q) eqn:Hk; [|done]. destruct (D _ _ Hk). lia. }
  split_and!; [|etrans; [exact Hp1|]; split; [done|]|lia].
  assert (u32 (seq + 1) = N + 1) as Hu by (rewrite u32_id; unfold is_u32; lia).
  2:{ split; simpl; [rewrite u32_id; unfold is_u32; lia|]. intros q Hq%Hall. left. simpl.
      rewrite u32_id; unfold is_u32; lia. }
  split; simpl; try done; rewrite ?Hu.
  - lia.
  - rewrite C, !prefix_all by lia. done.
  - intros k b Hk. destruct (D k b Hk) as (? & _). lia.
  - eapply accs_ok_mono; [|done]. lia.
  - eapply accs_ok_mono; [|done]. lia.
  - rewrite He. split_and!; [done|done|lia|lia].
  - rewrite He. done.
  - intros _. split; [|intros _ _; simpl; by rewrite He]. unfold no_stall. simpl. intros Hb.
    destruct (reorder s1 !! (N + 1)) as [b|] eqn:Hk; [|done]. destruct (D _ _ Hk). lia.
  - intros q Hq. left. simpl. specialize (Hall q (U q Hq)). lia.
Qed.

(** the in-order frame *)
Lemma inorder_spec out s room0 seq :
  recv_inv out s → s.(readSeq) = seq → seq < N → s.(reorder) !! seq = None →
  ringFitsLocked s.(rg) (Zlen (chunk seq)) = room0 → room0 = true →
  let s1 := if G >? 0 then fecFoldRecvLocked E s seq (chunk seq) else s in
  let s2 := s1 <| rg := ringWrite s1.(rg) (chunk seq) |> in
  let s3 := s2 <| readSeq := u32 (s2.(readSeq) + 1) |> in
  let s4 := drainReorderLocked E s3 in
  let s5 := maybeGrowLocked E s4 in
  let s6 := maybeEOFLocked s5 in
  let s7 := wakeReaders s6 in
  recv_inv out s7 ∧ after s s7 ∧ held s7 seq.
Proof using All.
  intros Hi Hrs Hlt Hnone Hfit -> s1 s2 s3 s4 s5 s6 s7. pose proof (ri_seq _ _ Hi) as H0.
  destruct (fold_opt_spec s seq) as (F & P & A & Ar); [lia|done|apply Hi|rewrite <- Hrs; apply Hi..|].
  fold s1 in F, P, A, Ar. clearbody s1.
  assert (s3 = accepted s s1.(reorderPool) s1.(fecAcc) s1.(fecAccRow)) as Heq.
  { unfold s3, s2. rewrite F. unfold accepted. simpl. rewrite Hrs, delete_id by done.
    rewrite <- (proj1 (ri_bytes _ _ Hi)). rewrite u32_id by (unfold is_u32; lia). by destruct s. }
  assert (recv_inv (busy out) s3 ∧ after s s3 ∧ held s3 seq) as (Hi3 & Haf3 & Hh3).
  { rewrite Heq. split_and!; [|split; [done|apply accepted_grows]|left; simpl; lia].
    apply accept_spec; try done; rewrite Hrs; done. }
  clearbody s3. destruct (drainReorderLocked_spec out s3 Hi3) as (Hi4 & (D1 & D2 & _ & _ & _ & _ & _ & D3) & Hns4).
  fold s4 in Hi4, D1, D2, D3, Hns4.
  assert (after s3 s4) as Haf4 by (split; [unfold psize; by rewrite D1, D2|done]). clearbody s4.
  destruct (maybeGrowLocked_spec E s4 (ri_ring _ _ Hi4)) as (r & cs & tk & lg & Hg & W & C & K1 & K2).
  assert (recv_inv (busy out) s5 ∧ after s4 s5 ∧ no_stall s5) as (Hi5 & Haf5 & Hns5).
  { unfold s5. rewrite Hg. split_and!; [|by apply after_same|].
    - eapply recv_inv_view; [|apply (recv_inv_grow (busy out) s4 r Hi4 W C)]; [done|].
      pose proof (ri_cap _ _ Hi4). lia.
    - intros Hb. simpl in *. rewrite <- (Zlen_contents r W), C, (Zlen_contents _ (ri_ring _ _ Hi4)). by apply Hns4. }
  clearbody s5. destruct (maybeEOFLocked_spec out s5 Hi5 Hns5) as [Hi6 Hc6]. fold s6 in Hi6, Hc6.
  assert (after s3 s6) as Haf36.
  { etrans; [exact Haf4|]. etrans; [exact Haf5|]. destruct Hc6 as [->|[-> _]]; by apply after_same. }
  split_and!; [by apply recv_inv_wake| |by apply Haf36]. etrans; [|etrans; [exact Haf36|by apply after_same]]. done.
Qed.

(** the part of [deliverLocked] that handles a DATA frame on an open stream *)
Lemma deliver_data_spec n rec out s seq :
  delivers n rec → out.(pg_quiet) = true → recv_inv out s → (psize s ≤ n)%nat → 0 ≤ seq < N →
  ∃ s' ack,
    (if seq <? s.(readSeq) then Some (s, true)
     else if bool_decide (s.(reorder) !! seq ≠ None) then Some (s, true)
     else if seq >? s.(readSeq) then
      if s.(reorderBytes) + Zlen (chunk seq) >? maxBufSize (cfg E) then Some (s, false)
      else
        let '(s, cp) := reorderGetLocked E s (Zlen (chunk seq)) in
        let cp := buf_copy cp (chunk seq) in
        let s := s <| reorder := <[seq := cp]> s.(reorder) |> in
        let s := s <| reorderBytes := s.(reorderBytes) + Zlen (chunk seq) |> in
        let s := call s CStatReorder in
        let s := maybeFastRetransmitLocked E s in
        if G >? 0 then s ← fecRetrySeq E rec s seq; Some (s, true)
        else Some (s, true)
     else
      let '(s, room) :=
        if ringFitsLocked s.(rg) (Zlen (chunk seq)) then (s, true) else growLocked E s (Zlen (chunk seq)) in
      if negb room then Some (s, false)
      else
        let s := if G >? 0 then fecFoldRecvLocked E s seq (chunk seq) else s in
        let s := s <| rg := ringWrite s.(rg) (chunk seq) |> in
        let s := s <| readSeq := u32 (s.(readSeq) + 1) |> in
        let s := drainReorderLocked E s in
        let s := maybeGrowLocked E s in
        let s := maybeEOFLocked s in
        let s := wakeReaders s in
        if G >? 0 then s ← fecRetrySeq E rec s seq; Some (s, true)
        else Some (s, true)) = Some (s', ack) ∧
    recv_inv out s' ∧ after s s' ∧ (ack = true → held s' seq).
Proof using All.
  intros Hrec Hq Hi1 Hn Hseq. cbv zeta.
  case_bool_decide as Hlt; [exists s, true; split_and!; try done; by left|].
  case_bool_decide as Hdup; [exists s, true; split_and!; try done; by right|].
  case_bool_decide as Hooo.
  - case_bool_decide as Hbud; [by exists s, false|].
    destruct (reorderGetLocked E s (Zlen (chunk seq))) as [s1 cp] eqn:Hget.
    pose proof (buffer_spec out s seq s1 cp Hi1 ltac:(lia) Hdup ltac:(lia) Hget) as Hi2.
    destruct (reorderGetLocked_spec E Hcfg s _ s1 cp (ri_pool _ _ Hi1) (Zlen_nonneg _) Hget) as (_ & _ & _ & Hs1).
    set (s2 := _ <| reorderBytes := _ |>) in *.
    assert (after s s2 ∧ held s2 seq) as [Haf2 Hh2].
    { unfold s2. rewrite Hs1. split; [split; [done|]|right; simpl; by rewrite lookup_insert_eq].
      split; [done|]. intros q [?|Hr]; [by left|right]. simpl. rewrite lookup_insert. by case_decide. }
    clearbody s2. clear Hs1.
    set (s3 := maybeFastRetransmitLocked E (call s2 CStatReorder)).
    assert (rview s3 = rview s2) as Hv3 by (unfold s3; by rewrite maybeFastRetransmitLocked_view).
    assert (recv_inv out s3) as Hi3 by (by eapply recv_inv_view). pose proof (rview_after _ _ Hv3) as Haf3.
    clearbody s3. pose proof (proj1 Haf2). pose proof (proj1 Haf3).
    case_bool_decide as HG; [|eexists _, _; split_and!; [done|done|by etrans|intros _; by apply Haf3]].
    destruct (fecRetrySeq_spec n rec Hrec HG out s3 seq Hq Hi3 ltac:(lia)) as (s4 & -> & Hi4 & Haf4).
    eexists _, _. split_and!; [done|done|etrans; [exact Haf2|by etrans]|intros _; by apply Haf4, Haf3].
  - destruct (if ringFitsLocked (rg s) _ then _ else _) as [s1 room] eqn:Hr.
    destruct (room_spec out s _ s1 room Hi1 (Zlen_nonneg _) Hr) as (Hi2 & Hs1 & Hfit).
    assert (after s s1) as Haf1 by (rewrite Hs1; by apply after_same).
    assert (readSeq s1 = seq ∧ reorder s1 !! seq = None) as [Hrs Hro] by (rewrite Hs1; simpl; split; [lia|done]).
    clear Hs1 Hr. destruct room; cbn [negb]; [|by exists s1, false].
    destruct (inorder_spec out s1 true seq Hi2 Hrs ltac:(lia) Hro (Hfit eq_refl) eq_refl) as (Hi6 & Haf6 & Hh6).
    cbv zeta in Hi6, Haf6, Hh6. set (s6 := wakeReaders _) in *. clearbody s6.
    pose proof (proj1 Haf1). pose proof (proj1 Haf6).
    case_bool_decide as HG; [|eexists _, _; split_and!; [done|done|by etrans|done]].
    destruct (fecRetrySeq_spec n rec Hrec HG out s6 seq Hq Hi6 ltac:(lia)) as (s7 & -> & Hi7 & Haf7).
    eexists _, _. split_and!; [done|done|etrans; [exact Haf1|by etrans]|intros _; by apply Haf7].
Qed.

Lemma deliverBody_spec n rec out s seq payload isFin :
  delivers n rec → out.(pg_quiet) = true → recv_inv out s → (psize s ≤ n)%nat → frame_ok seq payload isFin →
  ∃ s' ack, deliverBody E rec s seq payload isFin = Some (s', ack) ∧ recv_inv out s' ∧ after s s' ∧
    (ack = true → isFin = false → held s' seq).
Proof using All.
  intros Hrec Hq Hi Hn Hfr. unfold deliverBody.
  set (s0 := if _ || finRecvd s then _ else s).
  assert (rview s0 = rview s) as Hv0 by (unfold s0; by destruct (_ || _)).
  assert (recv_inv out s0) as Hi0 by (by eapply recv_inv_view). rewrite <- (rview_psize _ _ Hv0) in *.
  apply rview_after in Hv0 as Haf0. clearbody s0. clear Hi Hv0.
  enough (∃ s' ack, _ = Some (s', ack) ∧ recv_inv out s' ∧ after s0 s' ∧ (ack = true → isFin = false → held s' seq))
    as (s' & ack & H1 & H2 & H3 & H4) by (exists s', ack; split_and!; [exact H1|done|by etrans|done]).
  clear s Haf0. rename s0 into s. rewrite (ri_canceled _ _ Hi0). cbn [orb].
  case_bool_decide as Herr.
  { destruct (discard_spec out s seq payload Hi0 Herr) as (Hd1 & Hd2 & Hd3).
    { destruct isFin; destruct Hfr as [? _]; pose proof (Zlen_nonneg chunks); lia. }
    eexists _, _. split_and!; [done|done|done|]. intros _ ->. apply Hd3. destruct Hfr. lia. }
  destruct isFin.
  { destruct Hfr as [-> ->]. case_bool_decide; [by exists s, true|]. eexists _, _. split; [done|].
    set (s1 := s <| finRecvd := true |> <| finSeq := N |>).
    assert (recv_inv (busy out) s1) as Hi1.
    { destruct Hi0 as [A B C D F HH I J K L M O P Q R T U]. split; try done. simpl in *.
      destruct (readErr s); [|done]. naive_solver. }
    assert (no_stall s1) as Hns1 by (apply (ri_quiet _ _ Hi0 Hq)).
    destruct (maybeEOFLocked_spec out s1 Hi1 Hns1) as [Hi6 [Heq|[Heq _]]]; split; try done;
      rewrite Heq; (split; [by apply after_same|done]). }
  destruct Hfr as [Hseq ->].
  set (s1 := if seq >? maxSeenSeq s then _ else s).
  assert (rview s1 = rview s) as Hv1 by (unfold s1; by case_bool_decide).
  assert (recv_inv out s1) as Hi1 by (by eapply recv_inv_view). rewrite <- (rview_psize _ _ Hv1) in *.
  apply rview_after in Hv1 as Haf1. clearbody s1. clear Hi0 Herr Hv1.
  enough (∃ s' ack, _ = Some (s', ack) ∧ recv_inv out s' ∧ after s1 s' ∧ (ack = true → held s' seq))
    as (s' & ack & H1 & H2 & H3 & H4) by (exists s', ack; split_and!; [exact H1|done|by etrans|auto]).
  clear s Haf1. rename s1 into s. by apply deliver_data_spec with n.
Qed.

Lemma deliverLocked_spec fuel : delivers fuel (deliverLocked E fuel).
Proof using All.
  induction fuel as [|fuel IH]; intros out s seq payload isFin Hq Hi Hn Hfr; [lia|].
  cbn [deliverLocked]. unfold deliverStep.
  destruct (deliverBody_spec fuel _ out s seq payload isFin IH Hq Hi ltac:(lia) Hfr)
    as (s' & ack & -> & Hi' & Haf & Hh).
  cbn [mbind option_bind]. eexists _, _. split; [done|].
  destruct (_ && _) eqn:Hb; [|done]. bool_simpl. split_and!; [|etrans; [exact Haf|by apply after_same]|done].
  destruct Hi' as [A B C D F HH I J K L M O P Q R T U]. split; try done. simpl.
  intros q. rewrite app_assoc, elem_of_app, list_elem_of_singleton. intros [Hx| ->]; [by apply U|].
  destruct isFin; [done|]. by apply Hh.
Qed.

Lemma deliver_spec out s seq payload isFin :
  out.(pg_quiet) = true → recv_inv out s → frame_ok seq payload isFin →
  ∃ s' ack, deliver E s seq payload isFin = Some (s', ack) ∧ recv_inv out s' ∧ grows s s' ∧
    (ack = true → isFin = false → held s' seq).
Proof using All.
  intros Hq Hi Hfr. destruct (deliverLocked_spec (fec_fuel s) out s seq payload isFin Hq Hi)
    as (s' & ack & H1 & H2 & [_ H3] & H4).
  - unfold fec_fuel, psize. lia.
  - done.
  - by exists s', ack.
Qed.

Lemma oldest_spec s row (pending : gmap Z fecPendingParity) out base :
  recv_inv out s → pending_ok (stride_of row) pending →
  let '(s', pending') :=
    match pending !! base with
    | Some old => (reorderPutLocked E s old.(fp_data), pending)
    | None =>
        if Z.of_nat (size pending) >=? fecPendingCap then
          let oldest := oldest_key pending in
          (match pending !! oldest with Some p => reorderPutLocked E s p.(fp_data) | None => s end,
           delete oldest pending)
        else (s, pending)
    end in
  recv_inv out s' ∧ pending_ok (stride_of row) pending'.
Proof.
  intros Hi Hp. destruct (pending !! base) as [old|]; [split; [by apply recv_inv_put|done]|].
  case_bool_decide; [|done]. split.
  - destruct (pending !! oldest_key pending); [by apply recv_inv_put|done].
  - intros b q [_ Hq]%lookup_delete_Some. by apply Hp.
Qed.

Lemma put_grows s b : pool_ok E s → grows s (reorderPutLocked E s b).
Proof. intros Hp. destruct (reorderPutLocked_spec E s b Hp) as [_ ->]. by apply grows_same. Qed.
Lemma applyFec_spec out s row base count xorLen data :
  out.(pg_quiet) = true → recv_inv out s → 0 < G → parity_ok (stride_of row) base count xorLen data →
  ∃ s' b, applyFec E s row base count xorLen data = Some (s', b) ∧ recv_inv out s' ∧ grows s s'.
Proof using All.
  intros Hq Hi HG Hpar. unfold applyFec. destruct (readCanceled s || _); [by exists s, false|].
  match goal with |- context [if (if row then ?a else ?b) then _ else _] => destruct (if row then a else b) end;
    [by exists s, false|].
  unfold tryReconstructLocked.
  destruct (tryReconstruct_spec (fec_fuel s) _ (deliverLocked_spec (fec_fuel s)) HG out s row base count xorLen data Hq Hi)
    as (s1 & o & -> & Hi1 & [_ Hg]); [unfold fec_fuel, psize; lia|done|].
  cbn [mbind option_bind]. destruct o; [by exists s1, false|by exists s1, true|].
  pose proof (oldest_spec s1 row (get_pending row s1) out base Hi1 (get_pending_ok out s1 row Hi1)) as Ho.
  destruct (match get_pending row s1 !! base with Some _ => _ | None => _ end) as [s2 pending] eqn:Hs2.
  destruct Ho as [Hi2 Hp2].
  assert (grows s1 s2) as Hg2.
  { destruct (get_pending row s1 !! base); [injection Hs2 as <- _; apply put_grows, Hi1|]. case_bool_decide; [|by injection Hs2 as <- _].
    injection Hs2 as <- _. destruct (_ !! _); [apply put_grows, Hi1|done]. }
  destruct (reorderGetLocked E s2 (Zlen data)) as [s3 cp] eqn:Hget.
  destruct (reorderGetLocked_spec E Hcfg s2 _ s3 cp (ri_pool _ _ Hi2) (Zlen_nonneg _) Hget) as (P3 & W & L & Hs3).
  destruct (buf_copy_spec cp data W ltac:(lia)) as (W0 & B0 & _).
  eexists _, _. split; [done|]. split; [|etrans; [exact Hg|]; etrans; [exact Hg2|]; rewrite Hs3; apply grows_same; by destruct row].
  apply recv_inv_set_pending.
  - rewrite Hs3. by apply recv_inv_pool.
  - intros b q. rewrite lookup_insert_Some. intros [[<- <-]|[_ Hbq]]; [|by apply Hp2].
    simpl. split; [done|]. by rewrite B0.
Qed.

Lemma maybeTailNack_view s now : rview (maybeTailNack E s now) = rview s.
Proof.
  unfold maybeTailNack. destruct (_ || readCanceled s); [done|]. destruct (_ || time_IsZero _); [done|].
  unfold read_grace. simpl. destruct (_ || _); [done|]. by rewrite fireNackLocked_view.
Qed.

(** the bytes [Read] returns are the next ones *)
Lemma tryRead_spec (out : list Z) s plen :
  recv_inv (quiet out) s → 0 ≤ plen →
  let '(s', r) := tryRead E s plen in
  grows s s' ∧ s'.(finRecvd) = s.(finRecvd) ∧
  match r with
  | ReadBytes p => recv_inv (quiet (out ++ p)) s' ∧ Zlen p = Z.min plen s.(rg).(readLen) ∧ 0 < s.(rg).(readLen)
  | ReadErr e => recv_inv (quiet out) s' ∧ s.(rg).(readLen) = 0 ∧
      (e = io_EOF ∧ s.(readErr) = Some io_EOF ∧ out = concat chunks ∨ e = errDeadlineExceeded ∧ s.(readErr) = None)
  | ReadBlocked => recv_inv (quiet out) s' ∧ s.(rg).(readLen) = 0 ∧ s.(readErr) = None
  end.
Proof using All.
  intros Hi Hp. unfold tryRead. case_bool_decide as Hz.
  { destruct (readErr s) as [e|] eqn:He.
    - split_and!; [done..|]. left. pose proof (ri_err _ _ Hi) as Hm. rewrite He in Hm.
      destruct Hm as (-> & _ & Hm). split_and!; [done|done|].
      pose proof (ri_data _ _ Hi) as Hd. rewrite prefix_all in Hd by lia. simpl in Hd. rewrite <- Hd.
      pose proof (Zlen_contents _ (ri_ring _ _ Hi)) as Hl. rewrite Hz in Hl. apply Zlen_0 in Hl. by rewrite Hl, app_nil_r.
    - destruct (time_IsZero (readDeadline s)); [done|]. unfold time_Now.
      destruct (negb _); [split_and!; [by apply grows_same|done| |done|by right]
                         |split_and!; [by apply grows_same|done| |done|done]];
        (eapply recv_inv_view; [|exact Hi]; done). }
  destruct (ringRead (rg s) plen) as [r p] eqn:Hr.
  destruct (ringRead_spec _ _ _ _ (ri_ring _ _ Hi) Hp Hr) as (W & C & L & K & Hl).
  pose proof (rw_len _ (ri_ring _ _ Hi)) as Hlen. pose proof (Zlen_nonneg p) as Hp0.
  assert (recv_inv (busy (mkProgress (out ++ p) (Zlen p) true)) (s <| rg := r |>)) as Hi1.
  { destruct Hi as [A B CC D F HH I J KK LL M O P Q R T]. split; simpl in *; try done.
    - rewrite <- app_assoc, <- C. done.
    - lia.
    - rewrite K, Zlen_app. destruct R as (R1 & R2 & R3). split_and!; [done|lia|].
      intros Hn. specialize (R3 Hn). lia. }
  destruct (drainReorderLocked_spec _ _ Hi1) as (Hi2 & (_ & _ & _ & Hf2 & _ & _ & _ & Hg2) & Hns2).
  set (s2 := drainReorderLocked E _) in *. clearbody s2.
  destruct (maybeEOFLocked_spec _ _ Hi2 Hns2) as [Hi3 Hc3]. set (s3 := maybeEOFLocked s2) in *.
  assert (grows s s3 ∧ finRecvd s3 = finRecvd s) as [Hg3 Hf3].
  { split; [etrans; [exact Hg2|]; destruct Hc3 as [->|[-> _]]; by apply grows_same|].
    destruct Hc3 as [->|[-> _]]; exact Hf2. }
  clearbody s3.
  assert (recv_inv (quiet (out ++ p)) (s3 <| grantPending := s3.(grantPending) + Zlen p |>)) as Hi4.
  { destruct Hi3 as [A B CC D F HH I J KK LL M O P Q R T]. split; simpl in *; try done.
    destruct R as (R1 & R2 & R3). split_and!; [lia|lia|]. intros Hn. specialize (R3 Hn). lia. }
  set (s4 := s3 <| grantPending := _ |>) in *.
  assert (grows s s4 ∧ finRecvd s4 = finRecvd s) as [Hg4 Hf4].
  { split; [etrans; [exact Hg3|by apply grows_same]|done]. }
  clearbody s4.
  case_bool_decide; [|split_and!; [done|done|done|done|lia]].
  rewrite grantLocked_eq. split_and!; [etrans; [exact Hg4|by apply grows_same]|done| |done|lia]. destruct Hi4 as [A B CC D F HH I J KK LL M O P Q R T]. split; simpl in *; try done.
  destruct R as (R1 & R2 & R3). rewrite Z.max_r by lia. split_and!; [lia|lia|]. intros Hn. specialize (R3 Hn). lia.
Qed.

Lemma newStream_read_inv bufSize now :
  bufSize = streamBufSize (cfg E) → recv_inv (quiet []) (newStream_read E bufSize now).
Proof using All.
  intros ->. unfold newStream_read. pose proof (cw_payload _ Hcfg) as Hmp.
  cbv zeta. match goal with |- context [newRing ?i] => set (initial := i) end.
  assert (0 < initial ≤ maxBufSize (cfg E) ∧ 2 * maxPayload (cfg E) ≤ initial) as Hin.
  { unfold initial, maxBufSize. repeat case_bool_decide; lia. }
  clearbody initial. destruct (newRing_wf initial) as (W & C & K); [lia|].
  set (r := newRing initial) in *. clearbody r.
  split; simpl; try done.
  - by apply Forall_nil.
  - apply Zlen_nonneg.
  - by rewrite K; lia.
  - unfold reorder_sum. rewrite map_fold_empty. lia.
  - rewrite K. change (Zlen (@nil Z)) with 0. split_and!; lia.
  - intros _. split; [|done]. unfold no_stall. simpl. by rewrite lookup_empty.
  - intros q Hq. by apply elem_of_nil in Hq.
Qed.
End inv.
