(* ===== verification/StreamDelivery.v ===== *)
(** * What a stream delivers

    A receiver runs against any schedule of a sender's frames: DATA frames in
    any order, lost, duplicated, parity frames, the FIN, interleaved with
    reads of any size, ACK flushes and tail-loss checks. *)
From S2P Require Import Prelude Errors Frame Options Ring StreamRecv Xor RecvLemmas RecvInv.

(** A sender's stream as the receiver's configuration allows it. *)
Record sender_ok (E : renv) (chunks : list (list Z)) : Prop := mkSenderOk {
  so_cfg : config_wf E.(cfg);
  so_count : Zlen chunks + 1 < 2 ^ 32;
  so_chunks : Forall (λ c, 0 < Zlen c ≤ dataCap (cfg E)) chunks;
  so_payload : maxPayload (cfg E) < 2 ^ 32;
}.

Inductive recv_event :=
  | EvData (seq : Z)
  | EvFin
  | EvParity (row : bool) (base count xorLen : Z) (data : list Z)
  | EvRead (plen : Z)
  | EvTailNack (now : Z)
  | EvAckFlush
  | EvSetDeadline (t : Z).

Inductive recv_obs :=
  | ObsAck (ack : bool)
  | ObsRecovered (recovered : bool)
  | ObsRead (r : read_result)
  | ObsSnapshot (cum : Z) (seqs : list Z) (granted : Z)
  | ObsNone.

Definition recv_step (E : renv) (chunks : list (list Z)) (s : rside) (ev : recv_event)
    : option (rside * recv_obs) :=
  match ev with
  | EvData seq => '(s, ack) ← deliver E s seq (chunk chunks seq) false; Some (s, ObsAck ack)
  | EvFin => '(s, ack) ← deliver E s (Zlen chunks) [] true; Some (s, ObsAck ack)
  | EvParity row base count xorLen data =>
      '(s, r) ← applyFec E s row base count xorLen data; Some (s, ObsRecovered r)
  | EvRead plen => let '(s, r) := tryRead E s plen in Some (s, ObsRead r)
  | EvTailNack now => Some (maybeTailNack E s now, ObsNone)
  | EvAckFlush => let '(s, (cum, seqs, granted)) := ackSnapshot s in Some (s, ObsSnapshot cum seqs granted)
  | EvSetDeadline t => Some (SetReadDeadline s t, ObsNone)
  end.

Fixpoint recv_run (E : renv) (chunks : list (list Z)) (s : rside) (evs : list recv_event)
    : option (rside * list recv_obs) :=
  match evs with
  | [] => Some (s, [])
  | ev :: evs =>
      '(s, o) ← recv_step E chunks s ev;
      '(s, os) ← recv_run E chunks s evs;
      Some (s, o :: os)
  end.

(** only the sender's frames arrive; parity only where FEC is on
    (see [Connection.handleFec]) *)
Definition event_ok (E : renv) (chunks : list (list Z)) (ev : recv_event) : Prop :=
  match ev with
  | EvData seq => 0 ≤ seq < Zlen chunks
  | EvParity row base count xorLen data =>
      0 < fecGroup (cfg E) ∧ parity_ok E chunks (stride_of E row) base count xorLen data
  | EvRead plen => 0 ≤ plen
  | _ => True
  end.

Definition obs_bytes (o : recv_obs) : list Z := match o with ObsRead (ReadBytes p) => p | _ => [] end.
(** everything the application has read *)
Definition bytes_read (os : list recv_obs) : list Z := concat (obs_bytes <$> os).

(** a step from a state in which [out] has been read *)
Definition obs_ok (chunks : list (list Z)) (s s' : rside) (out : list Z) (o : recv_obs) : Prop :=
  match o with
  | ObsRead (ReadErr e) => e = errDeadlineExceeded ∨ e = io_EOF ∧ out = concat chunks
  | ObsSnapshot cum seqs granted =>
      granted = s.(peerOffset) ∧ (∀ q, 0 ≤ q < cum → held s q) ∧
      ∀ q, q ∈ seqs → q = Zlen chunks ∧ s.(finRecvd) = true ∨ held s q
  | _ => True
  end.

Section step.
Context (E : renv) (chunks : list (list Z)) (Hs : sender_ok E chunks).

Lemma recv_step_spec out s ev :
  recv_inv E chunks (quiet out) s → event_ok E chunks ev →
  ∃ s' o, recv_step E chunks s ev = Some (s', o) ∧ recv_inv E chunks (quiet (out ++ obs_bytes o)) s' ∧
    obs_ok chunks s s' out o.
Proof using Hs.
  destruct Hs as [H1 H2 H3 H4]. intros Hi Hev.
  destruct ev as [seq| |row base count xorLen data|plen|now| |t]; cbn [recv_step event_ok] in *.
  - destruct (deliver_spec E H1 chunks H2 H3 H4 (quiet out) s seq (chunk chunks seq) false eq_refl Hi)
      as (s' & ack & -> & Hi' & _); [done|].
    exists s', (ObsAck ack). simpl. by rewrite app_nil_r.
  - destruct (deliver_spec E H1 chunks H2 H3 H4 (quiet out) s (Zlen chunks) [] true eq_refl Hi)
      as (s' & ack & -> & Hi' & _); [done|].
    exists s', (ObsAck ack). simpl. by rewrite app_nil_r.
  - destruct Hev as [HG Hpar].
    destruct (applyFec_spec E H1 chunks H2 H3 H4 (quiet out) s row base count xorLen data eq_refl Hi HG Hpar)
      as (s' & b & -> & Hi' & _).
    exists s', (ObsRecovered b). simpl. by rewrite app_nil_r.
  - pose proof (tryRead_spec E H1 chunks H2 H3 H4 out s plen Hi Hev) as Hr.
    destruct (tryRead E s plen) as [s' r]. destruct Hr as (_ & _ & Hr).
    exists s', (ObsRead r). split; [done|]. destruct r as [|p|e]; simpl.
    + rewrite app_nil_r. naive_solver.
    + naive_solver.
    + rewrite app_nil_r. destruct Hr as (Hi' & _ & Hr). split; [done|]. naive_solver.
  - eexists _, ObsNone. simpl. rewrite app_nil_r. split_and!; [done| |done].
    eapply recv_inv_view; [|exact Hi]. apply maybeTailNack_view.
  - eexists _, (ObsSnapshot _ _ _). simpl. rewrite app_nil_r. split_and!; [done| |done| |].
    + destruct Hi as [A B C D F HH I J K L M O P Q R T U]. split; try done. simpl.
      intros q Hq. rewrite app_nil_r in Hq. apply U. set_solver.
    + intros q Hq. left. lia.
    + intros q [[Hq|Hq]%elem_of_app|Hq]%elem_of_app.
      * destruct (finRecvd s && _) eqn:Hf; [|by apply elem_of_nil in Hq].
        apply list_elem_of_singleton in Hq as ->. bool_simpl. left. split; [by apply (ri_fin _ _ _ _ Hi)|done].
      * right. apply (ri_acks _ _ _ _ Hi). apply list_elem_of_filter in Hq as [_ Hq]. set_solver.
      * right. apply (ri_acks _ _ _ _ Hi). apply list_elem_of_filter in Hq as [_ Hq]. set_solver.
  - eexists _, ObsNone. simpl. rewrite app_nil_r. split_and!; [done| |done].
    eapply recv_inv_view; [|exact Hi]. done.
Qed.

Lemma bytes_read_cons o os : bytes_read (o :: os) = obs_bytes o ++ bytes_read os.
Proof. done. Qed.

Lemma recv_run_spec evs out s :
  recv_inv E chunks (quiet out) s → Forall (event_ok E chunks) evs →
  ∃ s' os, recv_run E chunks s evs = Some (s', os) ∧
    recv_inv E chunks (quiet (out ++ bytes_read os)) s' ∧ length os = length evs ∧
    ∀ k e, os !! k = Some (ObsRead (ReadErr e)) →
      e = errDeadlineExceeded ∨ e = io_EOF ∧ out ++ bytes_read (take k os) = concat chunks.
Proof using Hs.
  revert out s. induction evs as [|ev evs IH]; intros out s Hi Hev.
  { exists s, []. change (bytes_read []) with (@nil Z). rewrite app_nil_r. split_and!; try done. }
  apply Forall_cons in Hev as [Hev Hevs].
  destruct (recv_step_spec out s ev Hi Hev) as (s1 & o & E1 & Hi1 & Ho).
  destruct (IH _ s1 Hi1 Hevs) as (s2 & os & E2 & Hi2 & Hlen & Herr).
  exists s2, (o :: os). cbn [recv_run]. rewrite E1. cbn [mbind option_bind]. rewrite E2.
  split; [done|]. rewrite bytes_read_cons, app_assoc. split; [done|]. split; [simpl; lia|].
  intros [|k] e Hk; simpl in Hk.
  - injection Hk as ->. change (bytes_read (take 0 _)) with (@nil Z). rewrite app_nil_r. exact Ho.
  - cbn [take]. rewrite bytes_read_cons, app_assoc. by apply Herr.
Qed.

Lemma recv_run_new evs now :
  Forall (event_ok E chunks) evs →
  ∃ s os, recv_run E chunks (newStream_read E (streamBufSize (cfg E)) now) evs = Some (s, os) ∧
    recv_inv E chunks (quiet (bytes_read os)) s ∧ length os = length evs ∧
    ∀ k e, os !! k = Some (ObsRead (ReadErr e)) →
      e = errDeadlineExceeded ∨ e = io_EOF ∧ bytes_read (take k os) = concat chunks.
Proof using Hs.
  intros Hev. pose proof Hs as [H1 H2 H3 H4].
  pose proof (newStream_read_inv E H1 chunks H2 H3 H4 _ now eq_refl) as Hi.
  exact (recv_run_spec evs [] _ Hi Hev).
Qed.
End step.

(** ** Parity frames of a given stream *)
Definition parity_of (chunks : list (list Z)) (stride base count : Z) : Z * list Z :=
  let ms := (λ i, chunk chunks (base + i * stride)) <$> seqZ 0 count in
  let maxLen := foldr (λ m a, Z.max (Zlen m) a) 0 ms in
  (foldr (λ m a, Z.lxor (Zlen m) a) 0 ms, foldl xorInto (replicate (Z.to_nat maxLen) 0) ms).

Definition max_len (ms : list (list Z)) : Z := foldr (λ m a, Z.max (Zlen m) a) 0 ms.
Lemma max_len_bound ms m : m ∈ ms → Zlen m ≤ max_len ms.
Proof. unfold max_len. induction ms as [|x ms IH]; [by intros ?%elem_of_nil|]. simpl. intros [->|Hm%IH]%elem_of_cons; lia. Qed.
Lemma max_len_attained ms : ms ≠ [] → ∃ m, m ∈ ms ∧ max_len ms = Zlen m.
Proof.
  induction ms as [|x ms IH]; [done|]. intros _. unfold max_len in *. simpl. pose proof (Zlen_nonneg x).
  destruct (decide (ms = [])) as [->|Hne]; [exists x; simpl; split; [by left|lia]|].
  destruct (IH Hne) as (m & Hm & He). rewrite He.
  destruct (decide (Zlen m ≤ Zlen x)); [exists x|exists m]; (split; [set_solver|lia]).
Qed.

Lemma foldl_xorInto ms z :
  (∀ m, m ∈ ms → (length m ≤ length z)%nat) →
  length (foldl xorInto z ms) = length z ∧
  ∀ j, byteat (foldl xorInto z ms) j = Z.lxor (byteat z j) (foldr (λ m a, Z.lxor (byteat m j) a) 0 ms).
Proof.
  revert z. induction ms as [|m ms IH]; intros z Hm; simpl.
  { split; [done|]. intros j. by rewrite Z.lxor_0_r. }
  assert (length m ≤ length z)%nat as Hlm by (apply Hm; by left).
  destruct (IH (xorInto z m)) as [H1 H2].
  - intros m' Hm'. rewrite length_xorInto by done. apply Hm. by right.
  - split; [by rewrite H1, length_xorInto|]. intros j. by rewrite H2, byteat_xorInto, Z.lxor_assoc.
Qed.

Lemma foldr_fmap_xsum (ms : list Z) (g : Z → list Z) (f : list Z → Z) :
  foldr (λ m a, Z.lxor (f m) a) 0 (g <$> ms) = xsum ms (λ i, f (g i)).
Proof. induction ms as [|i ms IH]; [done|]. cbn. by rewrite IH. Qed.

Lemma parity_of_ok E chunks stride base count :
  0 ≤ base → 1 ≤ count ≤ fecGroup (cfg E) → base + (count - 1) * stride < Zlen chunks →
  count = fecGroup (cfg E) ∨ Zlen chunks ≤ base + count * stride →
  let '(xorLen, data) := parity_of chunks stride base count in
  parity_ok E chunks stride base count xorLen data.
Proof.
  intros Hb Hc Hsent Hfull. unfold parity_of.
  set (g := λ i, chunk chunks (base + i * stride)). fold (max_len (g <$> seqZ 0 count)).
  assert (0 ≤ max_len (g <$> seqZ 0 count)) as Hm0.
  { destruct (max_len_attained (g <$> seqZ 0 count)) as (m & _ & ->); [|apply Zlen_nonneg].
    intros Hnil%fmap_nil_inv. apply (f_equal length) in Hnil. rewrite length_seqZ in Hnil. simpl in Hnil. lia. }
  destruct (foldl_xorInto (g <$> seqZ 0 count) (replicate (Z.to_nat (max_len (g <$> seqZ 0 count))) 0)) as [L B].
  { intros m Hm%max_len_bound. rewrite length_replicate. unfold Zlen in Hm. lia. }
  rewrite length_replicate in L. set (data := foldl xorInto _ _) in *. clearbody data.
  assert (Zlen data = max_len (g <$> seqZ 0 count)) as HL by (unfold Zlen; lia).
  assert (∀ i, 0 ≤ i < count → g i ∈ g <$> seqZ 0 count) as Hin.
  { intros i Hi. apply list_elem_of_fmap. exists i. split; [done|]. apply elem_of_seqZ. lia. }
  split; try done.
  - apply foldr_fmap_xsum.
  - intros i Hi. rewrite HL. apply max_len_bound. by apply Hin.
  - rewrite HL. destruct (max_len_attained (g <$> seqZ 0 count)) as (m & Hm & ->).
    { intros Hnil%fmap_nil_inv. apply (f_equal length) in Hnil. rewrite length_seqZ in Hnil. simpl in Hnil. lia. }
    apply list_elem_of_fmap in Hm as (i & -> & Hi%elem_of_seqZ). exists i. split; [lia|done].
  - intros j Hj. rewrite B, (foldr_fmap_xsum _ g (λ m, byteat m j)).
    replace (byteat (replicate _ 0) j) with 0; [by rewrite Z.lxor_0_l|].
    unfold byteat. destruct (replicate _ 0 !! j) eqn:Hr; [|done]. by apply lookup_replicate in Hr as [-> _].
Qed.

(** ** The delivery theorems *)

(** A stream delivers the sender's bytes, in order, once, and nothing
    else.  Whatever the order of arrival, loss and duplication of the
    sender's DATA frames, whichever of its parity frames arrive (frames
    rebuilt from column or row parity included), and however reads of any
    size interleave, every operation completes, the bytes read so far are a
    prefix of the bytes written, and end-of-file is reported only once all of
    them have been read; the only other read error is an expired deadline. *)
Theorem stream_delivers_prefix E chunks evs now :
  sender_ok E chunks → Forall (event_ok E chunks) evs →
  ∃ s os, recv_run E chunks (newStream_read E (streamBufSize (cfg E)) now) evs = Some (s, os) ∧
    bytes_read os `prefix_of` concat chunks ∧
    ∀ k e, os !! k = Some (ObsRead (ReadErr e)) →
      e = errDeadlineExceeded ∨ e = io_EOF ∧ bytes_read (take k os) = concat chunks.
Proof.
  intros Hs Hev. destruct (recv_run_new E chunks Hs evs now Hev) as (s & os & H1 & Hi & _ & Herr).
  exists s, os. split_and!; [done| |done]. pose proof (ri_data _ _ _ _ Hi) as Hd. simpl in Hd.
  exists (contents s.(rg) ++ concat (drop (Z.to_nat s.(readSeq)) chunks)).
  rewrite app_assoc, Hd. unfold first_chunks. by rewrite <- concat_app, take_drop.
Qed.

(** A receiver with parity groups of two, frames of at most 8 bytes. *)
Definition witness_env : renv :=
  mkRenv (WithFEC2D true (WithFEC 2 (WithStreamBufferSize 24 (WithMaxDatagramSize 25 defaultConfig))))
    (λ n, 1000000 * Z.of_nat n) (λ _, 300 * Millisecond) (λ _, 0) map_to_list.
Definition witness_chunks : list (list Z) := [[1; 2; 3; 4; 5; 6; 7; 8]; [9; 10; 11]; [12]; [13; 14; 15; 16; 17]].
(** Frames 0 and 3 are lost; the row parity of 0 and 1 and the column parity
    of 1 and 3 bring them back.  Frame 2 arrives twice. *)
Definition witness_events : list recv_event :=
  [ EvData 2; EvParity true 0 2 (Z.lxor 8 3) (parity_of witness_chunks 1 0 2).2;
    EvRead 4; EvData 1; EvRead 5; EvAckFlush; EvData 2; EvFin; EvTailNack 5;
    EvParity false 1 2 (Z.lxor 3 5) (parity_of witness_chunks 2 1 2).2; EvRead 7; EvRead 8; EvRead 1; EvRead 1 ].

Lemma witness_sender_ok : sender_ok witness_env witness_chunks.
Proof.
  split.
  - split; simpl; vm_compute; try done. by right.
  - done.
  - apply Forall_forall. intros c Hc. unfold witness_chunks in Hc.
    repeat (apply elem_of_cons in Hc as [->|Hc]; [vm_compute; done|]). by apply elem_of_nil in Hc.
  - done.
Qed.

Lemma witness_events_ok : Forall (event_ok witness_env witness_chunks) witness_events.
Proof.
  repeat apply Forall_cons_2; try done.
  - split; [done|]. apply (parity_of_ok witness_env witness_chunks 1 0 2); vm_compute; try done. by left.
  - split; [done|]. apply (parity_of_ok witness_env witness_chunks 2 1 2); vm_compute; try done. by left.
Qed.

Lemma stream_delivers_prefix_witness :
  ∃ s os, recv_run witness_env witness_chunks (newStream_read witness_env 24 7) witness_events = Some (s, os) ∧
    bytes_read os `prefix_of` concat witness_chunks ∧
    ∀ k e, os !! k = Some (ObsRead (ReadErr e)) →
      e = errDeadlineExceeded ∨ e = io_EOF ∧ bytes_read (take k os) = concat witness_chunks.
Proof.
  apply (stream_delivers_prefix witness_env witness_chunks witness_events 7 witness_sender_ok witness_events_ok).
Defined.

(** what the witness schedule observes *)
Example witness_observations :
  snd <$> recv_run witness_env witness_chunks (newStream_read witness_env 24 7) witness_events
  = Some [ ObsAck true; ObsRecovered false; ObsRead ReadBlocked; ObsAck true;
           ObsRead (ReadBytes [1; 2; 3; 4; 5]); ObsSnapshot 3 [] 24; ObsAck true; ObsAck true; ObsNone;
           ObsRecovered true; ObsRead (ReadBytes [6; 7; 8; 9; 10; 11; 12]);
           ObsRead (ReadBytes [13; 14; 15; 16; 17]); ObsRead (ReadErr io_EOF); ObsRead (ReadErr io_EOF) ].
Proof. vm_compute. reflexivity. Qed.

(** ** Nothing is left behind *)

(** an application that reads [plen] bytes at a time until it gets an error,
    or would block *)
Fixpoint readAll (E : renv) (fuel : nat) (s : rside) (plen : Z) : list Z * option read_result :=
  match fuel with
  | O => ([], None)
  | S fuel =>
      match tryRead E s plen with
      | (s, ReadBytes p) => let '(rest, r) := readAll E fuel s plen in (p ++ rest, r)
      | (s, r) => ([], Some r)
      end
  end.

Lemma readAll_spec E chunks fuel out s plen :
  sender_ok E chunks → recv_inv E chunks (quiet out) s → 0 < plen → s.(finRecvd) = true →
  (∀ i, 0 ≤ i < Zlen chunks → held s i) → Zlen (concat chunks) - Zlen out < Z.of_nat fuel →
  ∃ bs, readAll E fuel s plen = (bs, Some (ReadErr io_EOF)) ∧ out ++ bs = concat chunks.
Proof.
  intros Hs. pose proof Hs as [H1 H2 H3 H4]. revert out s.
  induction fuel as [|fuel IH]; intros out s Hi Hp Hfin Hheld Hfuel.
  { exfalso. pose proof (ri_data _ _ _ _ Hi) as Hd. simpl in Hd.
    assert (Zlen out ≤ Zlen (concat chunks)) as Hle.
    { rewrite <- (take_drop (Z.to_nat s.(readSeq)) chunks), concat_app, Zlen_app.
      change (concat (take _ chunks)) with (first_chunks chunks s.(readSeq)). rewrite <- Hd, Zlen_app.
      pose proof (Zlen_nonneg (contents (rg s))). pose proof (Zlen_nonneg (concat (drop (Z.to_nat s.(readSeq)) chunks))). lia. }
    lia. }
  assert (readLen (rg s) = 0 → readErr s ≠ None) as Hdone.
  { intros Hz Hn. destruct (ri_quiet _ _ _ _ Hi eq_refl) as [Hst Heof].
    assert (readSeq s < Zlen chunks) as Hlt.
    { destruct (decide (readSeq s < Zlen chunks)) as [|Hge]; [done|]. exfalso.
      apply (Heof Hfin); [|done]. rewrite (ri_fin _ _ _ _ Hi Hfin). lia. }
    pose proof (ri_seq _ _ _ _ Hi). destruct (Hheld (readSeq s)) as [?|Hb]; [lia|lia|].
    specialize (Hst Hb). lia. }
  cbn [readAll]. pose proof (tryRead_spec E H1 chunks H2 H3 H4 out s plen Hi ltac:(lia)) as Hr.
  destruct (tryRead E s plen) as [s' r]. destruct Hr as ([_ Hg] & Hf & Hr).
  destruct r as [|p|e].
  - destruct Hr as (_ & Hz & Hn). by destruct (Hdone Hz).
  - destruct Hr as (Hi' & Hl & Hpos).
    destruct (IH (out ++ p) s' Hi' Hp ltac:(congruence)) as (bs & Hbs & Hall).
    + intros i Hi0. by apply Hg, Hheld.
    + rewrite Zlen_app. lia.
    + rewrite Hbs. exists (p ++ bs). split; [done|]. by rewrite app_assoc.
  - destruct Hr as (_ & Hz & [(-> & _ & ->)|[-> Hn]]); [exists []; split; [done|by rewrite app_nil_r]|].
    by destruct (Hdone Hz).
Qed.

(** C5: no byte is stuck.  After any schedule, if the receiver holds every
    DATA frame (delivered or buffered, however it came by it) and has seen the
    FIN, then an application that keeps reading, in pieces of any positive
    size, never blocks: it gets all remaining bytes of the stream and then
    end-of-file, even when the ring is smaller than what is buffered. *)
Theorem stream_reads_to_eof E chunks evs now s os plen :
  sender_ok E chunks → Forall (event_ok E chunks) evs →
  recv_run E chunks (newStream_read E (streamBufSize (cfg E)) now) evs = Some (s, os) →
  s.(finRecvd) = true → (∀ i, 0 ≤ i < Zlen chunks → held s i) → 0 < plen →
  ∃ bs, readAll E (S (length (concat chunks))) s plen = (bs, Some (ReadErr io_EOF)) ∧
    bytes_read os ++ bs = concat chunks.
Proof.
  intros Hs Hev Hrun Hfin Hheld Hp.
  destruct (recv_run_new E chunks Hs evs now Hev) as (s1 & os1 & H1 & Hi & _).
  rewrite Hrun in H1. injection H1 as <- <-.
  apply (readAll_spec E chunks _ (bytes_read os) s plen); try done.
  pose proof (Zlen_nonneg (bytes_read os)). unfold Zlen in *. lia.
Qed.

(** all four frames buffered or delivered, nothing read *)
Definition witness_arrivals : list recv_event := [EvFin; EvData 3; EvData 1; EvData 2; EvData 0].
Lemma witness_arrivals_ok : Forall (event_ok witness_env witness_chunks) witness_arrivals.
Proof. repeat apply Forall_cons_2; done. Qed.
Lemma stream_reads_to_eof_witness :
  ∃ s os, recv_run witness_env witness_chunks (newStream_read witness_env 24 7) witness_arrivals = Some (s, os) ∧
    ∃ bs, readAll witness_env 18 s 5 = (bs, Some (ReadErr io_EOF)) ∧ bytes_read os ++ bs = concat witness_chunks.
Proof.
  set (r := recv_run witness_env witness_chunks (newStream_read witness_env 24 7) witness_arrivals).
  assert (∃ s os, r = Some (s, os) ∧ s.(finRecvd) = true ∧ s.(readSeq) = 4) as (s & os & Hr & Hf & Hq).
  { vm_compute. eexists _, _. split; [reflexivity|]. split; reflexivity. }
  exists s, os. split; [exact Hr|].
  apply (stream_reads_to_eof witness_env witness_chunks witness_arrivals 7 s os 5 witness_sender_ok).
  - exact witness_arrivals_ok.
  - exact Hr.
  - exact Hf.
  - intros i Hi. left. change (Zlen witness_chunks) with 4 in Hi. lia.
  - lia.
Defined.

(** Acknowledgements are truthful.  Every ACK snapshot taken during any
    schedule lists, below the cumulative mark and selectively above it, only
    DATA frames the receiver holds (delivered to the ring or buffered for
    reassembly) and the position of a FIN it has received: a sender that
    drops acknowledged frames loses nothing. *)
Theorem ackSnapshot_truthful E chunks evs now s os s' cum seqs granted :
  sender_ok E chunks → Forall (event_ok E chunks) evs →
  recv_run E chunks (newStream_read E (streamBufSize (cfg E)) now) evs = Some (s, os) →
  ackSnapshot s = (s', (cum, seqs, granted)) →
  (∀ q, 0 ≤ q < cum → q < s.(readSeq)) ∧
  (∀ q, q ∈ seqs → q = Zlen chunks ∧ s.(finRecvd) = true ∨ q < s.(readSeq) ∨ s.(reorder) !! q ≠ None) ∧
  (∀ q b, s.(reorder) !! q = Some b → bytes b = chunk chunks q).
Proof.
  intros Hs Hev Hrun Hsnap.
  destruct (recv_run_new E chunks Hs evs now Hev) as (s1 & os1 & H1 & Hi & _).
  rewrite Hrun in H1. injection H1 as <- <-.
  destruct (recv_step_spec E chunks Hs _ s EvAckFlush Hi I) as (s2 & o & H2 & _ & Ho).
  cbn [recv_step] in H2. rewrite Hsnap in H2. injection H2 as <- <-. destruct Ho as (_ & _ & Ho).
  assert (cum = readSeq s) as -> by (unfold ackSnapshot in Hsnap; congruence).
  split_and!; [lia|exact Ho|]. intros q b Hb. by destruct (ri_reorder _ _ _ _ Hi q b Hb) as (_ & _ & ?).
Qed.

Lemma witness_gapped_ok : Forall (event_ok witness_env witness_chunks) [EvFin; EvData 3; EvData 1].
Proof. repeat apply Forall_cons_2; done. Qed.
Lemma ackSnapshot_truthful_witness :
  ∃ s os, recv_run witness_env witness_chunks (newStream_read witness_env 24 7) [EvFin; EvData 3; EvData 1] = Some (s, os) ∧
    ∃ s' cum seqs granted, ackSnapshot s = (s', (cum, seqs, granted)) ∧ seqs = [4; 3; 1] ∧
    ∀ q, q ∈ seqs → q = Zlen witness_chunks ∧ s.(finRecvd) = true ∨ q < s.(readSeq) ∨ s.(reorder) !! q ≠ None.
Proof.
  set (r := recv_run witness_env witness_chunks (newStream_read witness_env 24 7) [EvFin; EvData 3; EvData 1]).
  assert (∃ s os, r = Some (s, os) ∧ (ackSnapshot s).2.1.2 = [4; 3; 1]) as (s & os & Hr & Hq).
  { vm_compute. eexists _, _. split; reflexivity. }
  exists s, os. split; [exact Hr|]. destruct (ackSnapshot s) as [s' [[cum seqs] granted]] eqn:Hsnap.
  exists s', cum, seqs, granted. split; [done|]. split; [exact Hq|].
  apply (ackSnapshot_truthful witness_env witness_chunks [EvFin; EvData 3; EvData 1] 7 s os s' cum seqs granted
           witness_sender_ok witness_gapped_ok Hr Hsnap).
Defined.

Lemma deliver_inorder_ack E s payload s' ack :
  s.(readErr) = None → s.(readCanceled) = false → s.(reorder) !! s.(readSeq) = None →
  ringFitsLocked s.(rg) (Zlen payload) = true →
  deliver E s s.(readSeq) payload false = Some (s', ack) → ack = true.
Proof.
  intros Hn Hc Hr Hfit. unfold deliver, fec_fuel. cbn [deliverLocked]. unfold deliverStep.
  destruct (deliverBody _ _ _ _ _ _) as [[s1 a]|] eqn:Hb; [|done]. cbn [mbind option_bind]. intros [= _ <-].
  revert Hb. unfold deliverBody. generalize (deliverLocked E (size (fecPending s) + size (fecPendingRow s))). intros rec.
  set (s0 := if _ || finRecvd s then _ else s).
  assert (rview s0 = rview s) as Hv by (unfold s0; by destruct (_ || _)). clearbody s0.
  unfold rview in Hv. injection Hv as H1 H2 H3 _ _ _ _ _ _ _ H4 H5 _ _ _ _ _.
  rewrite H4, H5, Hn, Hc. rewrite bool_decide_false by (intros Hx; by apply Hx). cbn [orb].
  set (s2 := if readSeq s >? maxSeenSeq s0 then _ else s0).
  assert (rview s2 = rview s0) as Hv by (unfold s2; by case_bool_decide). clearbody s2.
  unfold rview in Hv. injection Hv as G1 G2 G3 _ _ _ _ _ _ _ _ _ _ _ _ _ _.
  rewrite G1, G2, G3, H1, H2, H3. rewrite (bool_decide_false (readSeq s < readSeq s)) by lia.
  rewrite bool_decide_false by (rewrite Hr; intros Hx; by apply Hx).
  rewrite Hfit. cbn [negb]. destruct (fecGroup (cfg E) >? 0); [|congruence].
  destruct (fecRetrySeq _ _ _ _); [|done]. cbn [mbind option_bind]. congruence.
Qed.

(** C25: flow control and the ring agree.  The watermark [peerOffset] a
    receiver has granted, counting what it owes for bytes already read, is its
    ring capacity plus what has been read, for as long as the stream is open;
    so the next in-order frame of a sender that stays within the watermark
    always finds room and is acknowledged without the ring having to grow. *)
Theorem granted_frame_fits E chunks evs now s os :
  sender_ok E chunks → Forall (event_ok E chunks) evs →
  recv_run E chunks (newStream_read E (streamBufSize (cfg E)) now) evs = Some (s, os) →
  s.(readErr) = None → s.(readSeq) < Zlen chunks → s.(reorder) !! s.(readSeq) = None →
  Zlen (concat (take (S (Z.to_nat s.(readSeq))) chunks)) ≤ s.(peerOffset) →
  s.(peerOffset) + s.(grantPending) = ringCap s.(rg) + Zlen (bytes_read os) ∧
  ringFitsLocked s.(rg) (Zlen (chunk chunks s.(readSeq))) = true ∧
  ∃ s', deliver E s s.(readSeq) (chunk chunks s.(readSeq)) false = Some (s', true).
Proof.
  intros Hs Hev Hrun Hn Hlt Hnone Hoff.
  destruct (recv_run_new E chunks Hs evs now Hev) as (s1 & os1 & H1 & Hi & _).
  rewrite Hrun in H1. injection H1 as <- <-. pose proof Hs as [C1 C2 C3 C4].
  destruct (ri_credit _ _ _ _ Hi) as (Hg & _ & Hcr). specialize (Hcr Hn). simpl in Hcr.
  pose proof (ri_seq _ _ _ _ Hi) as H0. pose proof (ri_data _ _ _ _ Hi) as Hd. simpl in Hd.
  assert (ringFitsLocked s.(rg) (Zlen (chunk chunks s.(readSeq))) = true) as Hfit.
  { replace (S (Z.to_nat s.(readSeq))) with (Z.to_nat (s.(readSeq) + 1)) in Hoff by lia.
    change (concat (take _ chunks)) with (first_chunks chunks (readSeq s + 1)) in Hoff.
    rewrite prefix_succ in Hoff by lia. rewrite <- Hd, !Zlen_app in Hoff.
    rewrite (Zlen_contents _ (ri_ring _ _ _ _ Hi)) in Hoff.
    unfold ringFitsLocked. fold (ringCap s.(rg)). apply bool_decide_eq_true. lia. }
  split_and!; [lia|done|].
  destruct (deliver_spec E C1 chunks C2 C3 C4 (quiet (bytes_read os)) s s.(readSeq) (chunk chunks s.(readSeq)) false eq_refl Hi)
    as (s' & ack & Hdel & _); [done|].
  exists s'. rewrite Hdel.
  by rewrite (deliver_inorder_ack E s _ s' ack Hn (ri_canceled _ _ _ _ Hi) Hnone Hfit Hdel).
Qed.

Lemma granted_frame_fits_witness :
  ∃ s os, recv_run witness_env witness_chunks (newStream_read witness_env 24 7) [EvData 0; EvData 2; EvRead 5] = Some (s, os) ∧
    ringFitsLocked s.(rg) (Zlen (chunk witness_chunks s.(readSeq))) = true ∧
    ∃ s', deliver witness_env s s.(readSeq) (chunk witness_chunks s.(readSeq)) false = Some (s', true).
Proof.
  set (r := recv_run witness_env witness_chunks (newStream_read witness_env 24 7) [EvData 0; EvData 2; EvRead 5]).
  assert (∃ s os, r = Some (s, os) ∧ s.(readErr) = None ∧ s.(readSeq) = 1 ∧ s.(reorder) !! 1 = None ∧ s.(peerOffset) = 24)
    as (s & os & Hr & H1 & H2 & H3 & H4).
  { vm_compute. eexists _, _. split; [reflexivity|]. repeat split. }
  assert (Forall (event_ok witness_env witness_chunks) [EvData 0; EvData 2; EvRead 5]) as Hev.
  { clear. repeat apply Forall_cons_2; done. }
  exists s, os. split; [exact Hr|].
  refine (proj2 (granted_frame_fits witness_env witness_chunks [EvData 0; EvData 2; EvRead 5] 7 s os
           witness_sender_ok Hev _ H1 _ _ _)).
  - exact Hr.
  - rewrite H2. done.
  - rewrite H2. exact H3.
  - rewrite H2, H4. done.
Defined.

(** Receive memory is bounded.  After any schedule the ring is at least
    two full frames and at most the configured stream buffer, and the reorder
    buffer's byte count is exact and within the same bound, so out-of-order
    data beyond it is refused rather than stored. *)
Theorem recv_memory_bounded E chunks evs now s os :
  sender_ok E chunks → Forall (event_ok E chunks) evs →
  recv_run E chunks (newStream_read E (streamBufSize (cfg E)) now) evs = Some (s, os) →
  2 * maxPayload (cfg E) ≤ ringCap s.(rg) ≤ maxBufSize (cfg E) ∧
  s.(rg).(readLen) ≤ ringCap s.(rg) ∧
  s.(reorderBytes) = map_fold (λ _ b a, Zlen (bytes b) + a) 0 s.(reorder) ∧
  s.(reorderBytes) ≤ maxBufSize (cfg E).
Proof.
  intros Hs Hev Hrun. destruct (recv_run_new E chunks Hs evs now Hev) as (s1 & os1 & H1 & Hi & _).
  rewrite Hrun in H1. injection H1 as <- <-.
  destruct (ri_bytes _ _ _ _ Hi) as [Hb1 Hb2].
  split_and!; [apply Hi..|apply (rw_len _ (ri_ring _ _ _ _ Hi))| |done].
  rewrite Hb1. pose proof (ri_reorder _ _ _ _ Hi) as Hro. revert Hro. generalize (reorder s). clear.
  intros m. unfold reorder_sum. induction m as [|k b m Hk IH] using map_ind; [done|]. intros Hro.
  rewrite !map_fold_insert_L by (done || intros; lia).
  rewrite IH by (intros k' b' Hk'; apply Hro; rewrite lookup_insert_ne; [done|congruence]).
  destruct (Hro k b ltac:(by rewrite lookup_insert_eq)) as (_ & Hw & _). by rewrite (Zlen_bytes _ Hw).
Qed.

Lemma recv_memory_bounded_witness :
  ∃ s os, recv_run witness_env witness_chunks (newStream_read witness_env 24 7) [EvFin; EvData 3; EvData 1] = Some (s, os) ∧
    s.(reorderBytes) = 8 ∧ s.(reorderBytes) = map_fold (λ _ b a, Zlen (bytes b) + a) 0 s.(reorder).
Proof.
  set (r := recv_run witness_env witness_chunks (newStream_read witness_env 24 7) [EvFin; EvData 3; EvData 1]).
  assert (∃ s os, r = Some (s, os) ∧ s.(reorderBytes) = 8) as (s & os & Hr & H1).
  { vm_compute. eexists _, _. split; reflexivity. }
  exists s, os. split; [exact Hr|]. split; [exact H1|].
  apply (recv_memory_bounded witness_env witness_chunks [EvFin; EvData 3; EvData 1] 7 s os
           witness_sender_ok witness_gapped_ok Hr).
Defined.
