(* ===== verification/LossDetection.v ===== *)
(** * Loss detection

    What a NACK names, and two situations in which the arrival-driven and the
    silence-driven detection do not do what their comments say. *)
From S2P Require Import Prelude Errors Frame Options Ring StreamRecv Xor RecvLemmas RecvInv StreamDelivery.

(** the highest sequence number there is evidence for *)
Definition evidence (s : rside) : Z :=
  if s.(finRecvd) && (s.(finSeq) >? 0) && (s.(finSeq) - 1 >? s.(maxSeenSeq)) then s.(finSeq) - 1 else s.(maxSeenSeq).

(** the frames from [a] to [b] that are not buffered *)
Definition gaps_between (s : rside) (a b : Z) : list Z :=
  filter (λ q, s.(reorder) !! q = None) (seqZ a (b + 1 - a)).

(** the frames the receiver knows it lacks *)
Definition missing_frames (s : rside) : list Z := gaps_between s s.(readSeq) (evidence s).

Lemma gaps_step s a b : a ≤ b →
  gaps_between s a b = (if bool_decide (s.(reorder) !! a = None) then [a] else []) ++ gaps_between s (a + 1) b.
Proof.
  intros Hab. unfold gaps_between. rewrite (seqZ_cons a) by lia. rewrite filter_cons.
  replace (Z.pred (b + 1 - a)) with (b + 1 - (a + 1)) by lia. change (Z.succ a) with (a + 1).
  case_decide as Hd; [rewrite bool_decide_true by done|rewrite bool_decide_false by done]; done.
Qed.
Lemma gaps_end s a b : b < a → gaps_between s a b = [].
Proof. intros Hab. unfold gaps_between. by rewrite seqZ_nil by lia. Qed.

(** buffered frames the scan can still meet *)
Definition ahead (s : rside) (a : Z) : nat := size (filter (λ kv, a ≤ kv.1) s.(reorder)).
Lemma ahead_all s a : (ahead s a ≤ size s.(reorder))%nat.
Proof. unfold ahead. apply map_size_filter. Qed.
Lemma ahead_step s a : s.(reorder) !! a ≠ None → (ahead s (a + 1) < ahead s a)%nat.
Proof.
  intros Ha. unfold ahead. destruct (s.(reorder) !! a) as [b|] eqn:Hb; [|done].
  assert (filter (λ kv, a + 1 ≤ kv.1) s.(reorder) = delete a (filter (λ kv, a ≤ kv.1) s.(reorder))) as ->.
  { apply map_eq. intros k. destruct (decide (k = a)) as [->|Hk].
    - rewrite lookup_delete_eq, map_lookup_filter, Hb. cbn. by rewrite option_guard_False by lia.
    - rewrite lookup_delete_ne, !map_lookup_filter by done. destruct (s.(reorder) !! k) as [x|]; [|done]. cbn.
      destruct (decide (a ≤ k)); [rewrite !option_guard_True by lia|rewrite !option_guard_False by lia]; done. }
  assert (filter (λ kv, a ≤ kv.1) s.(reorder) !! a = Some b) as Hin.
  { rewrite map_lookup_filter, Hb. cbn. by rewrite option_guard_True by lia. }
  rewrite map_size_delete_Some by (by eexists).
  assert (size (filter (λ kv, a ≤ kv.1) s.(reorder)) ≠ 0%nat) as Hne by (apply map_size_ne_0_lookup_2 with a; by eexists). lia.
Qed.

(** the scan lists the gaps from [seq] to [hi], up to [max] in all *)
Lemma nackScan_spec fuel s seq hi max gs :
  0 ≤ seq → hi + 1 < 2 ^ 32 → Zlen gs ≤ max → (Z.to_nat (max - Zlen gs) + ahead s seq < fuel)%nat →
  nackScan fuel s seq hi max gs = take (Z.to_nat max) (gs ++ gaps_between s seq hi).
Proof.
  revert seq gs. induction fuel as [|fuel IH]; intros seq gs Hseq Hhi Hgs Hfuel; [lia|]. cbn [nackScan].
  pose proof (Zlen_nonneg gs).
  destruct (decide (seq ≤ hi)) as [Hle|Hgt].
  2:{ rewrite (bool_decide_false (seq ≤ hi)) by done. cbn [andb]. rewrite gaps_end, app_nil_r by lia.
      rewrite take_ge; [done|]. unfold Zlen in Hgs. lia. }
  rewrite (bool_decide_true (seq ≤ hi)) by done. cbn [andb].
  destruct (decide (Zlen gs < max)) as [Hlt|Hfull].
  2:{ rewrite (bool_decide_false (Zlen gs < max)) by done. rewrite take_app_le, take_ge; [done| |]; unfold Zlen in *; lia. }
  rewrite (bool_decide_true (Zlen gs < max)) by done. rewrite (gaps_step s seq hi Hle), u32_id by word_lia.
  destruct (decide (s.(reorder) !! seq = None)) as [Hn|Hb].
  - rewrite !bool_decide_true by done. rewrite IH; [by rewrite <- app_assoc|lia|done| |];
      rewrite Zlen_app; change (Zlen [seq]) with 1; [lia|].
    assert (ahead s (seq + 1) ≤ ahead s seq)%nat; [|lia].
    unfold ahead. rewrite <- !size_dom. apply subseteq_size. apply subseteq_dom.
    apply map_subseteq_spec. intros k x [Hk Hge]%map_lookup_filter_Some. apply map_lookup_filter_Some. cbn in *. split; [done|lia].
  - rewrite !bool_decide_false by done. pose proof (ahead_step s seq Hb). apply IH; (done || lia).
Qed.

Lemma fireNack_spec s :
  0 ≤ s.(readSeq) → evidence s + 1 < 2 ^ 32 →
  fireNackLocked s =
    if bool_decide (missing_frames s = []) then s
    else call s (CNackFrames (take (Z.to_nat maxNackSeqsPerFire) (missing_frames s))).
Proof.
  intros Hr Hev. unfold fireNackLocked. fold (evidence s).
  rewrite nackScan_spec; [|done|done|done|].
  2:{ pose proof (ahead_all s s.(readSeq)). change (Zlen []) with 0. rewrite Z.sub_0_r. lia. }
  rewrite app_nil_l. fold (missing_frames s). destruct (missing_frames s) as [|q qs]; [done|].
  rewrite (bool_decide_false (q :: qs = [])) by done. rewrite bool_decide_true; [done|].
  change (Z.to_nat maxNackSeqsPerFire) with 1024%nat. cbn [take]. rewrite Zlen_cons. pose proof (Zlen_nonneg (take 1023 qs)). lia.
Qed.

(** C31: a NACK names exactly what is missing.  Firing one lists, in order,
    the frames from the delivery point up to the last one there is evidence
    for (the highest frame seen, or the frame before a FIN) that are neither
    delivered nor buffered, as many as one firing may ask for; the scan ends;
    and nothing is sent when nothing is missing. *)
Theorem nack_names_missing s :
  0 ≤ s.(readSeq) → evidence s + 1 < 2 ^ 32 →
  fireNackLocked s =
    if bool_decide (missing_frames s = []) then s
    else call s (CNackFrames (take (Z.to_nat maxNackSeqsPerFire) (missing_frames s))).
Proof. apply fireNack_spec. Qed.

(** frames 1 and 3 of five are buffered, and the FIN is in *)
Lemma nack_names_missing_witness :
  ∃ s os, recv_run witness_env witness_chunks (newStream_read witness_env 24 7) [EvFin; EvData 3; EvData 1] = Some (s, os) ∧
    missing_frames s = [0; 2] ∧ fireNackLocked s = call s (CNackFrames [0; 2]).
Proof.
  assert (∃ s os, recv_run witness_env witness_chunks (newStream_read witness_env 24 7) [EvFin; EvData 3; EvData 1] = Some (s, os) ∧
    s.(readSeq) = 0 ∧ evidence s = 3 ∧ missing_frames s = [0; 2]) as (s & os & Hrun & Hr & He & Hm).
  { vm_compute. eexists _, _. split_and!; reflexivity. }
  exists s, os. split; [exact Hrun|]. split; [exact Hm|].
  rewrite (nack_names_missing s) by (rewrite ?Hr, ?He; lia). by rewrite Hm.
Defined.

(** ** Where the code and its comments part *)

(** the state in which a first out-of-order frame of a stream leaves the
    buffers, just before loss detection looks at it *)
Definition buffered_first E now seq payload : rside :=
  let s := newStream_read E (streamBufSize (cfg E)) now <| maxSeenSeq := seq |> in
  let '(s, cp) := reorderGetLocked E s (Zlen payload) in
  call (s <| reorder := <[seq := buf_copy cp payload]> s.(reorder) |>
          <| reorderBytes := s.(reorderBytes) + Zlen payload |>) CStatReorder.

Lemma deliver_first_gap E now seq payload :
  0 < seq → Zlen payload ≤ maxBufSize (cfg E) → fecGroup (cfg E) = 0 →
  deliver E (newStream_read E (streamBufSize (cfg E)) now) seq payload false =
    let s := maybeFastRetransmitLocked E (buffered_first E now seq payload) in
    Some (if bool_decide (s.(readSeq) ≤ seq) then s <| ackPendingSeqs := s.(ackPendingSeqs) ++ [seq] |> else s, true).
Proof.
  intros Hseq Hlen Hfec. unfold deliver, fec_fuel. cbn [deliverLocked]. unfold deliverStep, deliverBody, buffered_first.
  set (s0 := newStream_read _ _ _). cbn [newStream_read reorder finRecvd readCanceled readErr maxSeenSeq readSeq s0 orb].
  change (size ∅) with 0%nat. rewrite (bool_decide_false (0 < Z.of_nat 0)) by lia. cbn [orb].
  change (readCanceled s0) with false. change (readErr s0) with (@None go_error). rewrite (bool_decide_false (None ≠ None)) by congruence.
  cbn [orb]. change (maxSeenSeq s0) with 0. rewrite (bool_decide_true (0 < seq)) by lia.
  change (readSeq (s0 <| maxSeenSeq := seq |>)) with 0. rewrite (bool_decide_false (seq < 0)), (bool_decide_true (0 < seq)) by lia.
  change (reorder (s0 <| maxSeenSeq := seq |>)) with (∅ : gmap Z gbuf). rewrite lookup_empty.
  rewrite (bool_decide_false (None ≠ None)) by congruence.
  change (reorderBytes (s0 <| maxSeenSeq := seq |>)) with 0. rewrite (bool_decide_false (maxBufSize _ < _)) by lia.
  rewrite Hfec, (bool_decide_false (0 < 0)) by lia. by destruct (reorderGetLocked _ _ _) as [s cp].
Qed.

Lemma buffered_first_fields E now seq payload :
  let s := buffered_first E now seq payload in
  s.(readSeq) = 0 ∧ s.(gapSeq) = 0 ∧ s.(gapFirstSeenAt) = 0 ∧ s.(lastNackAt) = 0 ∧ s.(maxSeenSeq) = seq ∧
  s.(finRecvd) = false ∧ dom s.(reorder) = {[seq]} ∧ s.(calls) = [CStatReorder].
Proof.
  unfold buffered_first, reorderGetLocked. case_bool_decide; cbn -[newRing dom]; split_and!; try done; set_solver.
Qed.

(** the first frame of a stream to arrive *)
Definition first_arrival (E : renv) (bufSize now seq : Z) (payload : list Z) (isFin : bool) : option (rside * bool) :=
  deliver E (newStream_read E bufSize now) seq payload isFin.

(** The first gap of a stream is NACKed at once.  [gapSeq] starts at 0,
    the first sequence number, so that the first out-of-order arrival of a
    stream looks like the second sign of a gap at 0 that has been open since
    the zero time: a NACK of frame 0 goes out although nothing but that one
    arrival speaks for a loss, whatever the reorder grace. *)
Theorem first_gap_nacks_at_once E now seq payload :
  0 < seq → seq + 1 < 2 ^ 32 → Zlen payload ≤ maxBufSize (cfg E) → fecGroup (cfg E) = 0 →
  (∀ n, maxInt64 ≤ clock E n) → (∀ n, reorderGrace E n ≤ maxInt64) →
  ∃ s gaps, first_arrival E (streamBufSize (cfg E)) now seq payload false = Some (s, true) ∧
    s.(calls) = [CStatReorder; CNackFrames (0 :: gaps)].
Proof.
  intros Hseq Hhi Hlen Hfec Hclk Hgr. unfold first_arrival. rewrite deliver_first_gap by done. cbv zeta.
  pose proof (buffered_first_fields E now seq payload) as Hf. cbv zeta in Hf.
  set (s := buffered_first E now seq payload) in *. destruct Hf as (Hr & Hg & Hgf & Hln & Hms & Hfin & Hdom & Hc).
  assert (∀ n, time_Sub (clock E n) 0 = maxInt64) as Hsub.
  { intros n. pose proof (Hclk n). unfold time_Sub, maxInt64, minInt64 in *. repeat case_decide; lia. }
  assert (∀ n m, bool_decide (time_Sub (clock E n) 0 < reorderGrace E m) = false) as Hlate.
  { intros n m. rewrite Hsub. apply bool_decide_false. pose proof (Hgr m). lia. }
  unfold maybeFastRetransmitLocked, time_Now, read_grace. cbn -[fireNackLocked Z.lt Z.le time_Sub buffered_first s].
  rewrite Hr, Hg, Hgf, Hln, !Hlate, (bool_decide_true (0 = 0)) by done. cbn [negb orb].
  match goal with |- context [fireNackLocked ?x] => set (s' := x) end.
  assert (evidence s' = seq) as Hev.
  { unfold evidence. change (finRecvd s') with (finRecvd s). rewrite Hfin. exact Hms. }
  assert (missing_frames s' = 0 :: gaps_between s' 1 seq) as Hm.
  { unfold missing_frames. rewrite Hev. change (readSeq s') with (readSeq s). rewrite Hr, gaps_step by lia.
    rewrite bool_decide_true; [done|]. apply not_elem_of_dom. change (reorder s') with (reorder s). rewrite Hdom. set_solver by lia. }
  rewrite fireNack_spec; [|change (readSeq s') with (readSeq s); lia|rewrite Hev; lia].
  rewrite Hm, (bool_decide_false (_ :: _ = [])) by done. change (Z.to_nat maxNackSeqsPerFire) with (S 1023). cbn [take].
  eexists _, (take 1023 (gaps_between s' 1 seq)). split; [reflexivity|].
  case_bool_decide; change (calls s ++ [CNackFrames (0 :: take 1023 (gaps_between s' 1 seq))] = [CStatReorder; CNackFrames (0 :: take 1023 (gaps_between s' 1 seq))]);
    by rewrite Hc.
Qed.

(** frame 3 is the first to arrive; the grace is an hour *)
Definition impatient_env : renv :=
  mkRenv (WithFEC 0 defaultConfig) (λ n, maxInt64 + Z.of_nat n) (λ _, 300 * Millisecond) (λ _, 3600 * Second) map_to_list.
Lemma first_gap_nacks_at_once_witness :
  ∃ s gaps, first_arrival impatient_env (streamBufSize (cfg impatient_env)) 7 3 [1; 2] false = Some (s, true) ∧
    s.(calls) = [CStatReorder; CNackFrames (0 :: gaps)].
Proof.
  apply (first_gap_nacks_at_once impatient_env 7 3 [1; 2]); [lia|lia|by vm_compute|done| |].
  - intros n. cbn -[maxInt64]. lia.
  - intros n. by vm_compute.
Defined.

(** A FIN that arrives first is never followed by a tail NACK.  The
    documented case of a FIN whose preceding data was lost, with nothing
    buffered, finds [lastArrivalAt] at the zero time: the FIN itself does not
    set it.  However long the silence, [maybeTailNack] does nothing. *)
Theorem fin_first_never_tail_nacks E bufSize now seq :
  0 < seq →
  ∃ s, first_arrival E bufSize now seq [] true = Some (s, true) ∧
    s.(finRecvd) = true ∧ s.(readSeq) < s.(finSeq) ∧ ∀ later, maybeTailNack E s later = s.
Proof.
  intros Hseq. unfold first_arrival.
  assert (deliver E (newStream_read E bufSize now) seq [] true =
    Some (newStream_read E bufSize now <| finRecvd := true |> <| finSeq := seq |>, true)) as ->.
  { unfold deliver, fec_fuel, deliverLocked, deliverStep, deliverBody, maybeEOFLocked. cbn -[newRing Z.lt Z.le].
    rewrite (bool_decide_false (seq < 0)) by lia. cbn -[newRing Z.lt Z.le]. rewrite (bool_decide_false (seq ≤ 0)) by lia. done. }
  eexists. split; [reflexivity|]. split_and!; [done|cbn; lia|]. intros later. unfold maybeTailNack.
  cbn -[newRing Z.lt Z.le]. by rewrite orb_true_r.
Qed.

Lemma fin_first_never_tail_nacks_witness :
  ∃ s, deliver witness_env (newStream_read witness_env 24 7) 4 [] true = Some (s, true) ∧
    s.(finRecvd) = true ∧ s.(readSeq) < s.(finSeq) ∧ ∀ later, maybeTailNack witness_env s later = s.
Proof. apply (fin_first_never_tail_nacks witness_env 24 7 4). lia. Defined.
