(* ===== verification/StreamSend.v ===== *)
(** * The write side of a stream ([stream.go])

    Everything guarded by [writeMu]: the [Write] loop with its flow-control
    and in-flight limits, the parity lanes, and the ways a write direction
    ends.

    - [SendPath] is what a stream uses of its connection.  The definitions
      are written against it, and hold for whatever connection implements
      it; [SendPathLaws] says what the proofs rely on: the connection keeps a
      record of the frames it was handed, in order.  Errors, the in-flight
      cap and the clock are the connection's to choose at every call, since
      other goroutines change them.
    - [Write] blocks on a condition variable when it lacks credit, and lets
      other operations in.  [writeLoop] runs it up to that point and returns
      [WBlocked] with what is left to write; calling it again with that is
      the wake-up.
    - Indexing [fecLanes] out of range would panic; [fecFoldLocked] and
      [writeLoop] return [None] there. *)
From S2P Require Import Prelude Errors Frame Options StreamRecv.

(** ** The connection, as a stream sees it *)
Class SendPath (C : Type) := {
  sendDataFrame : C → Z → Z → list Z → C * option go_error;
  sendFecFrame : C → Z → Z → Z → Z → Z → list Z → C * option go_error;
  sendReliableFrame : C → Z → Z → Z → list Z → C * option go_error;
  flushSend : C → C * option go_error;
  purge : C → Z → C;
  conn_inFlightCap : C → C * Z;
  conn_now : C → C * Z;
}.

(** a frame a stream handed to the connection, and for a DATA frame the error
    the call returned *)
Inductive sent :=
  | SentData (seq : Z) (p : list Z) (err : option go_error)
  | SentFec (ftype base count xorLen : Z) (data : list Z)
  | SentReliable (ftype seq : Z) (p : list Z).

(** [log c sid] is what stream [sid] handed over.  Nothing is said of other
    streams, which use the connection at the same time. *)
Class SendPathLaws (C : Type) `{SendPath C} := {
  log : C → Z → list sent;
  log_data c sid seq p :
    log (sendDataFrame c sid seq p).1 sid = log c sid ++ [SentData seq p (sendDataFrame c sid seq p).2];
  log_fec c ftype sid base count xorLen data :
    log (sendFecFrame c ftype sid base count xorLen data).1 sid = log c sid ++ [SentFec ftype base count xorLen data];
  log_reliable c ftype sid seq p :
    log (sendReliableFrame c ftype sid seq p).1 sid = log c sid ++ [SentReliable ftype seq p];
  log_flush c sid : log (flushSend c).1 sid = log c sid;
  log_purge c sid : log (purge c sid) sid = log c sid;
  log_cap c sid : log (conn_inFlightCap c).1 sid = log c sid;
  log_now c sid : log (conn_now c).1 sid = log c sid;
}.

(** ** State *)
Record fecLane := mkLane {
  ln_xor : list Z;
  ln_maxLen : Z;
  ln_lenXor : Z;
  ln_count : Z;
  ln_base : Z;
}.
#[export] Instance eta_lane : Eta fecLane :=
  λ l, mkLane (ln_xor l) (ln_maxLen l) (ln_lenXor l) (ln_count l) (ln_base l).
(** [fecLane{}] *)
Definition zeroLane : fecLane := mkLane [] 0 0 0 0.

Record wside := mkWside {
  writeSeq : Z;
  writeFIN : bool;
  writeErr : option go_error;
  maxSendOffset : Z;
  sentOffset : Z;
  ackedBytes : Z;
  writeDeadline : Z;
  fecLanes : list fecLane;
  fecRowLane : fecLane;
  writeCond : nat;    (* broadcasts so far *)
}.
#[export] Instance eta_wside : Eta wside :=
  λ w, mkWside (writeSeq w) (writeFIN w) (writeErr w) (maxSendOffset w) (sentOffset w) (ackedBytes w)
    (writeDeadline w) (fecLanes w) (fecRowLane w) (writeCond w).

(** the write side of [newStream(id, conn, bufSize)] *)
Definition newStream_write (cf : config) (bufSize : Z) : wside :=
  let initial := initialStreamWindow in
  let initial := if bufSize <? initial then bufSize else initial in
  let min := 2 * cf.(maxPayload) in
  let initial := if initial <? min then min else initial in
  mkWside 0 false None initial 0 0 0 [] zeroLane 0.

(** what a call of [Write] comes to: its result, or a wait with [n] bytes
    written and [rest] to go *)
Inductive write_outcome :=
  | WDone (n : Z) (err : option go_error)
  | WBlocked (n : Z) (rest : list Z).

Section send.
Context {C : Type} `{SendPath C}.
Context (cf : config) (id : Z).
Implicit Types (w : wside) (c : C) (ln : fecLane).

(** ** Parity lanes *)
Definition emitLaneLocked c ln (ftype : Z) : C * fecLane :=
  if ln.(ln_count) =? 0 then (c, ln)
  else
    let '(c, _) := sendFecFrame c ftype id ln.(ln_base) ln.(ln_count) ln.(ln_lenXor)
                     (slice ln.(ln_xor) 0 ln.(ln_maxLen)) in
    let ln := ln <| ln_xor := copy_at ln.(ln_xor) 0 (replicate (Z.to_nat ln.(ln_maxLen)) 0) |> in
    (c, ln <| ln_maxLen := 0 |> <| ln_lenXor := 0 |> <| ln_count := 0 |>).

Definition foldLaneLocked c ln (seq : Z) (chunk : list Z) (ftype : Z) : C * fecLane :=
  let ln := if Zlen ln.(ln_xor) =? 0 then ln <| ln_xor := replicate (Z.to_nat (dataCap cf)) 0 |> else ln in
  let ln := if ln.(ln_count) =? 0 then ln <| ln_base := seq |> else ln in
  let ln := ln <| ln_xor := xorInto ln.(ln_xor) chunk |> in
  let ln := if Zlen chunk >? ln.(ln_maxLen) then ln <| ln_maxLen := Zlen chunk |> else ln in
  let ln := ln <| ln_lenXor := Z.lxor ln.(ln_lenXor) (u32 (Zlen chunk)) |> in
  let ln := ln <| ln_count := ln.(ln_count) + 1 |> in
  if ln.(ln_count) >=? cf.(fecGroup) then emitLaneLocked c ln ftype else (c, ln).

Definition fecFoldLocked w c (seq : Z) (chunk : list Z) : option (wside * C) :=
  let g := cf.(fecGroup) in
  if g <=? 0 then Some (w, c)
  else
    let w := if Zlen w.(fecLanes) =? 0 then w <| fecLanes := replicate (Z.to_nat g) zeroLane |> else w in
    let i := Z.to_nat (Z.rem seq (u32 g)) in
    ln ← w.(fecLanes) !! i;
    let '(c, ln) := foldLaneLocked c ln seq chunk frameFEC in
    let w := w <| fecLanes := <[i := ln]> w.(fecLanes) |> in
    if cf.(fec2D) then
      let '(c, rl) := foldLaneLocked c w.(fecRowLane) seq chunk frameFECRow in
      Some (w <| fecRowLane := rl |>, c)
    else Some (w, c).

(** [s.writeCond.Broadcast()] *)
Definition wakeWriters w : wside := w <| writeCond := S w.(writeCond) |>.

(** ** Limits *)
Definition bytesInFlightLocked w : Z := w.(sentOffset) - w.(ackedBytes).

(** [Stream.inFlightCap] *)
Definition stream_inFlightCap c : C * Z :=
  let '(c, cap) := conn_inFlightCap c in
  let max := maxBufSize cf in
  (c, if cap >? max then max else cap).

Definition setMaxSendOffset w (offset : Z) : wside :=
  if offset >? w.(maxSendOffset) then wakeWriters (w <| maxSendOffset := offset |>) else w.

Definition creditAcked w (n : Z) : wside :=
  if n <=? 0 then w else wakeWriters (w <| ackedBytes := w.(ackedBytes) + n |>).

Definition SetWriteDeadline w (t : Z) : wside := wakeWriters (w <| writeDeadline := t |>).

(** ** Write *)

(** the condition of the wait loop; the cap is read only when the tests
    before it do not decide *)
Definition mustWait w c (chunkLen : Z) : C * bool :=
  if bool_decide (w.(writeErr) ≠ None) || w.(writeFIN) then (c, false)
  else if w.(maxSendOffset) - w.(sentOffset) <? chunkLen then (c, true)
  else let '(c, cap) := stream_inFlightCap c in (c, bytesInFlightLocked w + chunkLen >? cap).

(** The loop of [Write] with [n] bytes of the caller's slice written and [p]
    left.  Every pass that sends shortens [p], so the length of [p] bounds
    the number of passes ([writeLoop_spec]). *)
Fixpoint writeLoop (fuel : nat) w c (p : list Z) (n : Z) : option (wside * C * write_outcome) :=
  match fuel with
  | O => None
  | S fuel =>
      if Zlen p =? 0 then
        let '(c, ferr) := flushSend c in Some (w, c, WDone n ferr)
      else
        let maxChunk := dataCap cf in
        let chunkLen := if Zlen p >? maxChunk then maxChunk else Zlen p in
        let '(c, wait) := mustWait w c chunkLen in
        if wait then
          let '(c, _) := flushSend c in
          if negb (time_IsZero w.(writeDeadline)) then
            let '(c, now) := conn_now c in
            if negb (time_Before now w.(writeDeadline)) then Some (w, c, WDone n (Some errDeadlineExceeded))
            else Some (w, c, WBlocked n p)
          else Some (w, c, WBlocked n p)
        else if bool_decide (w.(writeErr) ≠ None) then
          let '(c, _) := flushSend c in Some (w, c, WDone n w.(writeErr))
        else if w.(writeFIN) then
          let '(c, _) := flushSend c in Some (w, c, WDone n (Some ErrStreamFIN))
        else
          let chunk := slice p 0 chunkLen in
          let w := w <| sentOffset := w.(sentOffset) + chunkLen |> in
          let seq := w.(writeSeq) in
          let w := w <| writeSeq := u32 (w.(writeSeq) + 1) |> in
          let '(c, err) := sendDataFrame c id seq chunk in
          match err with
          | Some e => let '(c, _) := flushSend c in Some (w, c, WDone n (Some e))
          | None =>
              '(w, c) ← fecFoldLocked w c seq chunk;
              writeLoop fuel w c (slice p (Zlen chunk) (Zlen p)) (n + Zlen chunk)
          end
  end.

Definition Write w c (p : list Z) : option (wside * C * write_outcome) :=
  writeLoop (S (length p)) w c p 0.

(** ** Closing *)
Fixpoint emitLanes c (lanes : list fecLane) : C * list fecLane :=
  match lanes with
  | [] => (c, [])
  | ln :: lanes =>
      let '(c, ln) := emitLaneLocked c ln frameFEC in
      let '(c, lanes) := emitLanes c lanes in
      (c, ln :: lanes)
  end.

Definition CloseWrite w c : wside * C * option go_error :=
  if w.(writeFIN) || bool_decide (w.(writeErr) ≠ None) then (w, c, None)
  else
    let w := w <| writeFIN := true |> in
    let seq := w.(writeSeq) in
    let '(c, lanes) := emitLanes c w.(fecLanes) in
    let w := w <| fecLanes := lanes |> in
    let '(c, rl) := emitLaneLocked c w.(fecRowLane) frameFECRow in
    let w := wakeWriters (w <| fecRowLane := rl |>) in
    let '(c, err) := sendReliableFrame c frameStreamFIN id seq [] in
    (w, c, err).

(** [Stream.Close] *)
Definition stream_Close w c : wside * C * option go_error := CloseWrite w c.

Definition abortWriteLocked w c (code : Z) (sendReset : bool) : wside * C :=
  if w.(writeFIN) || bool_decide (w.(writeErr) ≠ None) then (w, c)
  else
    let w := w <| writeErr := Some ErrStreamReset |> <| writeFIN := true |> in
    let seq := w.(writeSeq) in
    let w := wakeWriters (w <| fecLanes := [] |> <| fecRowLane := zeroLane |>) in
    let c := purge c id in
    if sendReset then (w, (sendReliableFrame c frameStreamReset id seq (resetPayload code)).1) else (w, c).

Definition CancelWrite w c (code : Z) : wside * C := abortWriteLocked w c code true.
Definition onStopSending w c (code : Z) : wside * C := abortWriteLocked w c code true.

(** the write halves of [deliverClose] and [deliverError] *)
Definition failWrite w (err : go_error) : wside :=
  let w := if bool_decide (w.(writeErr) = None) then w <| writeErr := Some err |> else w in
  wakeWriters (w <| writeFIN := true |>).

End send.

(** ** The stream as a whole *)
Record Stream := mkStream { st_read : rside; st_write : wside }.

Definition newStream (E : renv) (bufSize now : Z) : Stream :=
  mkStream (newStream_read E bufSize now) (newStream_write (cfg E) bufSize).

Definition deliverClose (st : Stream) : Stream :=
  mkStream (failRead st.(st_read) ErrStreamClosed) (failWrite st.(st_write) ErrStreamClosed).
Definition deliverError (st : Stream) (err : go_error) : Stream :=
  mkStream (failRead st.(st_read) err) (failWrite st.(st_write) err).
Definition SetDeadline (st : Stream) (t : Z) : Stream :=
  mkStream (SetReadDeadline st.(st_read) t) (SetWriteDeadline st.(st_write) t).
Definition finished (st : Stream) : bool :=
  bool_decide (st.(st_read).(readErr) ≠ None)
  && (st.(st_write).(writeFIN) || bool_decide (st.(st_write).(writeErr) ≠ None)).
