(* ===== verification/SendRule.v ===== *)
(** * A proof rule for the write side

    To show that a property [I] of a stream's write side and its connection
    survives [Write], [CloseWrite] and an abort, it is enough to show that it
    survives what these do to the connection: DATA frames with the next
    number, parity frames that fit a datagram, flushes, and one FIN or
    RESET. *)
From S2P Require Import Prelude Errors Frame Options StreamRecv StreamSend.

(** a lane is empty without FEC, and its parity fits a frame *)
Definition lane_small (cf : config) (ln : fecLane) : Prop :=
  0 ≤ ln.(ln_maxLen) ≤ dataCap cf ∧ (ln.(ln_count) ≠ 0 → 0 < cf.(fecGroup)).
Definition lanes_small (cf : config) (w : wside) : Prop :=
  (Forall (lane_small cf) w.(fecLanes) ∧ (Zlen w.(fecLanes) = 0 ∨ Zlen w.(fecLanes) = cf.(fecGroup))) ∧ lane_small cf w.(fecRowLane).

Lemma Zlen_slice_le {A} (l : list A) k : 0 ≤ k → Zlen (slice l 0 k) ≤ k.
Proof. intros. unfold Zlen, slice. rewrite length_take. lia. Qed.

Section rule.
Context {C : Type} `{SendPath C} (cf : config) (id : Z) (I : wside → C → Prop).
Context (Hcap : 0 < dataCap cf) (Hmod : 0 < cf.(fecGroup) → 0 < u32 cf.(fecGroup)).
Context (I_flush : ∀ w c, I w c → I w (flushSend c).1).
Context (I_cap : ∀ w c, I w c → I w (conn_inFlightCap c).1).
Context (I_now : ∀ w c, I w c → I w (conn_now c).1).
Context (I_fec : ∀ w c ft base count xl data, I w c → ft = frameFEC ∨ ft = frameFECRow → 0 < cf.(fecGroup) →
  Zlen data ≤ dataCap cf → I w (sendFecFrame c ft id base count xl data).1).
Context (I_lanes : ∀ w c ls rl, I w c → I (w <| fecLanes := ls |> <| fecRowLane := rl |>) c).
Context (I_data : ∀ w c p, I w c → w.(writeErr) = None → w.(writeFIN) = false → 0 < Zlen p ≤ dataCap cf →
  0 ≤ w.(writeSeq) → w.(writeSeq) + 1 < 2 ^ 32 →
  I (w <| sentOffset := w.(sentOffset) + Zlen p |> <| writeSeq := u32 (w.(writeSeq) + 1) |>) (sendDataFrame c id w.(writeSeq) p).1).
Implicit Types (w : wside) (c : C) (ln : fecLane).

Lemma emitLane_rule w c ln ft : I w c → ft = frameFEC ∨ ft = frameFECRow → lane_small cf ln →
  let '(c', ln') := emitLaneLocked id c ln ft in I w c' ∧ lane_small cf ln'.
Proof using All.
  intros Hi Hft Hl. unfold emitLaneLocked. case_test; [done|].
  match goal with |- context [sendFecFrame c ft id ?b ?n ?x ?d] =>
    pose proof (I_fec w c ft b n x d Hi Hft) as Hf; destruct (sendFecFrame c ft id b n x d) as [c1 e] end.
  destruct Hl as [[Hl1 Hl2] Hl3]. split; [|unfold lane_small; cbn; split; [lia|done]].
  apply Hf; [auto|]. pose proof (Zlen_slice_le (ln_xor ln) (ln_maxLen ln)). lia.
Qed.

Lemma foldLane_rule w c ln seq chunk ft : 0 < cf.(fecGroup) → I w c → ft = frameFEC ∨ ft = frameFECRow → lane_small cf ln → Zlen chunk ≤ dataCap cf →
  let '(c', ln') := foldLaneLocked cf id c ln seq chunk ft in I w c' ∧ lane_small cf ln'.
Proof using All.
  intros Hg Hi Hft Hl Hc. unfold foldLaneLocked. pose proof (Zlen_nonneg chunk).
  match goal with |- context [emitLaneLocked id c ?l ft] => set (ln' := l) end.
  assert (lane_small cf ln') as Hl'.
  { unfold lane_small in *. unfold ln'. split; [|done]. cbn [ln_maxLen]. repeat case_test; cbn in *; lia. }
  case_test; [by apply emitLane_rule|done].
Qed.

Lemma fecFold_rule w c seq chunk : I w c → lanes_small cf w → is_u32 seq → Zlen chunk ≤ dataCap cf →
  ∃ w' c', fecFoldLocked cf id w c seq chunk = Some (w', c') ∧ I w' c' ∧ lanes_small cf w' ∧ w'.(writeSeq) = w.(writeSeq).
Proof using All.
  intros Hi Hl Hseq Hc. unfold fecFoldLocked.
  destruct (decide (fecGroup cf ≤ 0)) as [Hg|Hg]; [rewrite bool_decide_true by done; by eauto 10|].
  rewrite bool_decide_false by done. assert (0 < fecGroup cf) as Hg' by lia.
  set (w0 := if bool_decide (Zlen (fecLanes w) = 0) then _ else w).
  assert (w0 = w <| fecLanes := fecLanes w0 |> <| fecRowLane := fecRowLane w |>) as Hw0.
  { unfold w0. case_bool_decide; by destruct w. }
  assert (lanes_small cf w0 ∧ Zlen (fecLanes w0) = fecGroup cf) as [Hl0 Hn0].
  { unfold w0. destruct Hl as [[Hl1 Hl2] Hl3]. case_bool_decide as Hz; [|split; [done|by destruct Hl2]].
    assert (Zlen (replicate (Z.to_nat (fecGroup cf)) zeroLane) = fecGroup cf) as Hr by (rewrite Zlen_replicate; lia).
    split; [split; [split|done]|done]; [|by right]. cbn. apply Forall_replicate. unfold lane_small. cbn. split; [lia|done]. }
  set (i := Z.to_nat (seq `rem` u32 (fecGroup cf))) in *.
  destruct (lookup_lt_is_Some_2 (fecLanes w0) i) as [ln Hln].
  { unfold i. assert (0 < u32 (fecGroup cf) ≤ fecGroup cf) as Hu.
    { split; [by apply Hmod|]. apply Z.mod_le; lia. }
    pose proof (Z.rem_bound_pos seq (u32 (fecGroup cf))). unfold Zlen, is_u32 in *. lia. }
  rewrite Hln. cbn [mbind option_bind].
  assert (lane_small cf ln) as Hls by (eapply Forall_lookup_1; [exact (proj1 (proj1 Hl0))|exact Hln]).
  pose proof (foldLane_rule w c ln seq chunk frameFEC Hg' Hi (or_introl eq_refl) Hls Hc) as Hf.
  destruct (foldLaneLocked cf id c ln seq chunk frameFEC) as [c1 ln1]. destruct Hf as [Hi1 Hl1].
  set (ls := <[i := ln1]> (fecLanes w0)).
  assert (Forall (lane_small cf) ls ∧ (Zlen ls = 0 ∨ Zlen ls = fecGroup cf)) as Hls1.
  { split; [apply Forall_insert; [exact (proj1 (proj1 Hl0))|done]|]. right. unfold Zlen, ls. by rewrite length_insert. }
  destruct (fec2D cf).
  - change (fecRowLane (w0 <| fecLanes := ls |>)) with (fecRowLane w0).
    pose proof (foldLane_rule w c1 (fecRowLane w0) seq chunk frameFECRow Hg' Hi1 (or_intror eq_refl) (proj2 Hl0) Hc) as Hf.
    destruct (foldLaneLocked cf id c1 (fecRowLane w0) seq chunk frameFECRow) as [c2 rl]. destruct Hf as [Hi2 Hl2].
    eexists _, _. split_and!; [done| |done|by rewrite Hw0].
    rewrite Hw0. apply (I_lanes w c2 ls rl Hi2).
  - eexists _, _. split_and!; [done| |split; [done|exact (proj2 Hl0)]|by rewrite Hw0].
    rewrite Hw0. exact (I_lanes w c1 ls (fecRowLane w) Hi1).
Qed.

Lemma mustWait_rule w c n : I w c → I w (mustWait cf w c n).1.
Proof using All.
  intros Hi. unfold mustWait, stream_inFlightCap. destruct (_ || _); [done|]. case_test; [done|].
  pose proof (I_cap w c Hi) as Hi'. by destruct (conn_inFlightCap c).
Qed.

Lemma writeLoop_rule fuel w c p n : I w c → lanes_small cf w → 0 ≤ w.(writeSeq) → w.(writeSeq) + Zlen p < 2 ^ 32 → (length p < fuel)%nat →
  ∃ w' c' o, writeLoop cf id fuel w c p n = Some (w', c', o) ∧ I w' c' ∧ lanes_small cf w'.
Proof using All.
  revert w c p n. induction fuel as [|fuel IH]; intros w c p n Hi Hl Hs0 Hs Hf; [lia|]. cbn [writeLoop].
  assert (∀ c (o : write_outcome), I w c → ∃ w' c' o', (let '(c, _) := flushSend c in Some (w, c, o)) = Some (w', c', o') ∧
    I w' c' ∧ lanes_small cf w') as Hend.
  { intros c1 o' Hi1. pose proof (I_flush w c1 Hi1). destruct (flushSend c1). by eauto 10. }
  destruct (decide (Zlen p = 0)) as [Hp|Hp]; [rewrite bool_decide_true by done|rewrite bool_decide_false by done].
  { pose proof (I_flush w c Hi) as Hfl. destruct (flushSend c) as [c1 fe]. by eauto 10. }
  set (k := if bool_decide (dataCap cf < Zlen p) then dataCap cf else Zlen p).
  pose proof (Zlen_nonneg p). assert (0 < k ≤ dataCap cf ∧ k ≤ Zlen p) as Hk by (unfold k; case_bool_decide; lia).
  pose proof (mustWait_rule w c k Hi) as Hi1. destruct (mustWait cf w c k) as [c1 wait]. cbn [fst] in Hi1.
  destruct wait.
  { pose proof (I_flush w c1 Hi1) as Hi2. destruct (flushSend c1) as [c2 fe]. cbn [fst] in Hi2.
    destruct (negb _); [|by eauto 10]. pose proof (I_now w c2 Hi2) as Hi3. destruct (conn_now c2) as [c3 now].
    destruct (negb _); by eauto 10. }
  destruct (bool_decide (writeErr w ≠ None)) eqn:He; [by apply Hend|]. destruct (writeFIN w) eqn:Hfin; [by apply Hend|].
  apply bool_decide_eq_false in He. assert (writeErr w = None) as He' by (destruct (writeErr w); [exfalso; by apply He|done]).
  assert (Zlen (slice p 0 k) = k) as Hz by (rewrite Zlen_slice; lia).
  pose proof (I_data w c1 (slice p 0 k) Hi1 He' Hfin ltac:(lia) Hs0 ltac:(lia)) as Hi2. rewrite Hz in Hi2.
  change (writeSeq (w <| sentOffset := sentOffset w + k |>)) with (writeSeq w).
  destruct (sendDataFrame c1 id (writeSeq w) (slice p 0 k)) as [c2 [e|]]; cbn [fst] in Hi2.
  { pose proof (I_flush _ _ Hi2) as Hi3. destruct (flushSend c2). by eauto 10. }
  set (w2 := w <| sentOffset := _ |> <| writeSeq := _ |>) in *.
  destruct (fecFold_rule w2 c2 (writeSeq w) (slice p 0 k) Hi2 Hl ltac:(unfold is_u32; lia) ltac:(lia)) as (w3 & c3 & -> & Hi3 & Hl3 & Hs3).
  cbn [mbind option_bind].
  assert (writeSeq w3 = writeSeq w + 1) as Hs3' by (rewrite Hs3; apply u32_id; unfold is_u32; lia).
  assert (Zlen (slice p k (Zlen p)) = Zlen p - k) as Hrest by (apply Zlen_slice; lia).
  rewrite Hz. apply IH; [done|done|lia|lia|]. unfold Zlen in Hrest |- *. lia.
Qed.

Lemma emitLanes_rule w c ls : I w c → Forall (lane_small cf) ls →
  let '(c', ls') := emitLanes id c ls in I w c' ∧ Forall (lane_small cf) ls' ∧ Zlen ls' = Zlen ls.
Proof using All.
  intros Hi Hl. revert c Hi. induction Hl as [|ln ls Hl _ IH]; intros c Hi; [done|]. cbn [emitLanes].
  pose proof (emitLane_rule w c ln frameFEC Hi (or_introl eq_refl) Hl) as H1.
  destruct (emitLaneLocked id c ln frameFEC) as [c1 ln1]. destruct H1 as [H1 H1'].
  pose proof (IH c1 H1) as H2. destruct (emitLanes id c1 ls) as [c2 ls2].
  destruct H2 as (H2 & H3 & H4). split_and!; [done|by constructor|]. by rewrite !Zlen_cons, H4.
Qed.

Lemma CloseWrite_rule w c : I w c → lanes_small cf w →
  (∀ w c ls rl, I w c → w.(writeErr) = None → w.(writeFIN) = false →
     I (wakeWriters (w <| writeFIN := true |> <| fecLanes := ls |> <| fecRowLane := rl |>)) (sendReliableFrame c frameStreamFIN id w.(writeSeq) []).1) →
  let '(w', c', _) := CloseWrite id w c in I w' c' ∧ lanes_small cf w'.
Proof using All.
  intros Hi Hl I_fin. unfold CloseWrite. destruct (writeFIN w) eqn:Hfin; [done|]. cbn [orb].
  destruct (bool_decide (writeErr w ≠ None)) eqn:He; [done|]. apply bool_decide_eq_false in He.
  assert (writeErr w = None) as He' by (destruct (writeErr w); [exfalso; by apply He|done]).
  change (fecLanes (w <| writeFIN := true |>)) with (fecLanes w).
  pose proof (emitLanes_rule w c (fecLanes w) Hi (proj1 (proj1 Hl))) as H1. destruct (emitLanes id c (fecLanes w)) as [c1 ls].
  destruct H1 as (Hi1 & Hl1 & Hn1).
  change (fecRowLane (w <| writeFIN := true |> <| fecLanes := ls |>)) with (fecRowLane w).
  pose proof (emitLane_rule w c1 (fecRowLane w) frameFECRow Hi1 (or_intror eq_refl) (proj2 Hl)) as H2.
  destruct (emitLaneLocked id c1 (fecRowLane w) frameFECRow) as [c2 rl]. destruct H2 as [Hi2 Hl2].
  change (writeSeq (w <| writeFIN := true |>)) with (writeSeq w).
  pose proof (I_fin w c2 ls rl Hi2 He' Hfin) as Hi3. destruct (sendReliableFrame c2 frameStreamFIN id (writeSeq w) []) as [c3 e].
  split; [exact Hi3|]. split; [split; [done|]|done]. cbn. rewrite Hn1. exact (proj2 (proj1 Hl)).
Qed.

Lemma abort_rule w c code : I w c → lanes_small cf w →
  (∀ w c, I w c → w.(writeErr) = None → w.(writeFIN) = false →
     I (wakeWriters (w <| writeErr := Some ErrStreamReset |> <| writeFIN := true |> <| fecLanes := [] |> <| fecRowLane := zeroLane |>))
       (sendReliableFrame (purge c id) frameStreamReset id w.(writeSeq) (resetPayload code)).1) →
  let '(w', c') := abortWriteLocked id w c code true in I w' c' ∧ lanes_small cf w'.
Proof using All.
  intros Hi Hl I_reset. unfold abortWriteLocked. destruct (writeFIN w) eqn:Hfin; [done|]. cbn [orb].
  destruct (bool_decide (writeErr w ≠ None)) eqn:He; [done|]. apply bool_decide_eq_false in He.
  assert (writeErr w = None) as He' by (destruct (writeErr w); [exfalso; by apply He|done]).
  split; [exact (I_reset w c Hi He' Hfin)|]. split; [split; [constructor|by left]|]. unfold lane_small. cbn. split; [lia|done].
Qed.
End rule.
