(* ===== verification/SendLanes.v ===== *)
(** * Parity lanes

    What a lane holds after any number of folds, and that the parity frame it
    emits is a parity frame in the sense of the receiver's theorems
    ([parity_ok]). *)
From S2P Require Import Prelude Errors Frame Options Ring StreamRecv Xor RecvLemmas RecvInv StreamSend.

Section lanes.
Context {C : Type} `{SendPathLaws C}.
Context (E : renv) (Hcfg : config_wf E.(cfg)) (id : Z).
Context (Hcap32 : maxPayload (cfg E) < 2 ^ 32).
Implicit Types (c : C) (ln : fecLane) (chunks : list (list Z)).
#[local] Abbreviation G := (fecGroup (cfg E)).
#[local] Abbreviation cap := (dataCap (cfg E)).

(** The lane whose next member is [next]: its [count] latest members,
    [stride] apart, are folded. *)
Record lane_ok chunks (stride next : Z) ln : Prop := mkLaneOk {
  lo_count : 0 ≤ ln.(ln_count) ≤ G;
  lo_base : 0 < ln.(ln_count) → ln.(ln_base) = next - ln.(ln_count) * stride ∧ 0 ≤ ln.(ln_base);
  lo_len : ln.(ln_xor) = [] ∧ ln.(ln_count) = 0 ∨ Zlen ln.(ln_xor) = cap;
  lo_xor : ∀ j, byteat ln.(ln_xor) j
    = xsum (seqZ 0 ln.(ln_count)) (λ i, byteat (chunk chunks (next - ln.(ln_count) * stride + i * stride)) j);
  lo_lenXor : ln.(ln_lenXor)
    = xsum (seqZ 0 ln.(ln_count)) (λ i, Zlen (chunk chunks (next - ln.(ln_count) * stride + i * stride)));
  lo_bound : ∀ i, 0 ≤ i < ln.(ln_count) →
    Zlen (chunk chunks (next - ln.(ln_count) * stride + i * stride)) ≤ ln.(ln_maxLen);
  lo_max : ln.(ln_count) = 0 ∧ ln.(ln_maxLen) = 0 ∨
    ∃ i, 0 ≤ i < ln.(ln_count) ∧ ln.(ln_maxLen) = Zlen (chunk chunks (next - ln.(ln_count) * stride + i * stride));
}.

Lemma chunk_app_l chunks x i : 0 ≤ i < Zlen chunks → chunk (chunks ++ [x]) i = chunk chunks i.
Proof. intros Hi. unfold chunk. rewrite lookup_app_l; [done|]. unfold Zlen in Hi. lia. Qed.
Lemma chunk_app_r chunks x : chunk (chunks ++ [x]) (Zlen chunks) = x.
Proof. unfold chunk. rewrite lookup_app_r; unfold Zlen; [|lia]. by rewrite Nat2Z.id, Nat.sub_diag. Qed.

(** an empty lane is as good at any position *)
Lemma lane_empty chunks chunks' stride next next' ln :
  ln.(ln_count) = 0 → lane_ok chunks stride next ln → lane_ok chunks' stride next' ln.
Proof.
  intros Hz [A B D F I J K]. split; try done; rewrite ?Hz in *; try (intros; lia).
  - intros j. rewrite F. done.
  - by rewrite I.
  - left. split; [done|]. destruct K as [[_ K]|(i & ? & _)]; [done|lia].
Qed.
Lemma zeroLane_ok chunks stride next : 0 < G → lane_ok chunks stride next zeroLane.
Proof. intros HG. split; simpl; try done; try (intros; lia); auto. Qed.

(** the members are among the frames sent, so that later frames do not matter *)
Lemma lane_extend chunks x stride next ln :
  0 < stride → next - stride < Zlen chunks →
  lane_ok chunks stride next ln → lane_ok (chunks ++ [x]) stride next ln.
Proof.
  intros Hs Hn Hl. pose proof Hl as [A B D F I J K].
  assert (∀ i, 0 ≤ i < ln.(ln_count) →
    chunk (chunks ++ [x]) (next - ln.(ln_count) * stride + i * stride)
    = chunk chunks (next - ln.(ln_count) * stride + i * stride)) as Hc.
  { intros i Hi. apply chunk_app_l. destruct B as [B1 B2]; [lia|]. nia. }
  split; try done.
  - intros j. rewrite F. apply xsum_ext. intros i Hi%elem_of_seqZ. by rewrite Hc by lia.
  - rewrite I. apply xsum_ext. intros i Hi%elem_of_seqZ. by rewrite Hc by lia.
  - intros i Hi. rewrite Hc by lia. by apply J.
  - destruct K as [K|(i & Hi & K)]; [by left|right]. exists i. by rewrite Hc by lia.
Qed.

(** ** Emission *)
Lemma byteat_zeros n j : byteat (replicate n 0) j = 0.
Proof. unfold byteat. destruct (replicate n 0 !! j) eqn:Hr; [|done]. by apply lookup_replicate in Hr as [-> _]. Qed.

Lemma byteat_lane_beyond chunks stride next ln j :
  lane_ok chunks stride next ln → ln.(ln_maxLen) ≤ Z.of_nat j → byteat ln.(ln_xor) j = 0.
Proof.
  intros [A B D F I J K] Hj. rewrite F. apply xsum_zero. intros i Hi%elem_of_seqZ.
  apply byteat_beyond. specialize (J i ltac:(lia)). unfold Zlen in *. lia.
Qed.

Lemma lane_maxLen chunks stride next ln :
  (∀ i, 0 ≤ i < Zlen chunks → Zlen (chunk chunks i) ≤ cap) → 0 < stride → next - stride < Zlen chunks →
  lane_ok chunks stride next ln → 0 ≤ ln.(ln_maxLen) ≤ cap.
Proof using Hcfg.
  intros Hcs Hs Hn [A B D F I J K]. pose proof (dataCap_bounds E Hcfg).
  destruct K as [[_ ->]|(i & Hi & ->)]; [lia|].
  destruct B as [B1 B2]; [lia|]. split; [apply Zlen_nonneg|]. apply Hcs. nia.
Qed.

(** the parity frame a lane stands for *)
Lemma lane_parity chunks stride next ln :
  (∀ i, 0 ≤ i < Zlen chunks → Zlen (chunk chunks i) ≤ cap) → 0 < stride → next - stride < Zlen chunks →
  lane_ok chunks stride next ln → 0 < ln.(ln_count) → ln.(ln_count) = G ∨ Zlen chunks ≤ next →
  parity_ok E chunks stride ln.(ln_base) ln.(ln_count) ln.(ln_lenXor) (slice ln.(ln_xor) 0 ln.(ln_maxLen)).
Proof using Hcfg.
  intros Hcs Hs Hn Hl Hpos Hfull. pose proof (lane_maxLen _ _ _ _ Hcs Hs Hn Hl) as Hm.
  pose proof Hl as [A B D F I J K]. destruct (B Hpos) as [B1 B2].
  destruct K as [[? _]|(m & Hm1 & Hm2)]; [lia|].
  destruct D as [[_ ?]|D]; [lia|].
  assert (∀ j, Z.of_nat j < ln.(ln_maxLen) → byteat (slice ln.(ln_xor) 0 ln.(ln_maxLen)) j = byteat ln.(ln_xor) j) as Hb.
  { intros j Hj. by rewrite byteat_slice, bool_decide_true by lia. }
  assert (Zlen (slice ln.(ln_xor) 0 ln.(ln_maxLen)) = ln.(ln_maxLen)) as Hsl by (rewrite Zlen_slice; lia).
  rewrite B1 in *. split; rewrite ?Hsl; try done; try lia; try nia.
  - exists m. split; [lia|done].
  - intros j Hj. rewrite Hb, F by done. done.
Qed.

Lemma emitLaneLocked_empty c ln ftype : ln.(ln_count) = 0 → emitLaneLocked id c ln ftype = (c, ln).
Proof. intros Hz. unfold emitLaneLocked. by rewrite Hz, bool_decide_true. Qed.

(** after an emission the lane is empty and its buffer clean *)
Lemma emitLaneLocked_spec c chunks stride next ln ftype :
  (∀ i, 0 ≤ i < Zlen chunks → Zlen (chunk chunks i) ≤ cap) → 0 < stride → next - stride < Zlen chunks →
  lane_ok chunks stride next ln → 0 < ln.(ln_count) → ln.(ln_count) = G ∨ Zlen chunks ≤ next →
  ∃ base xorLen data ln',
    emitLaneLocked id c ln ftype = ((sendFecFrame c ftype id base ln.(ln_count) xorLen data).1, ln') ∧
    parity_ok E chunks stride base ln.(ln_count) xorLen data ∧
    ln'.(ln_count) = 0 ∧ ∀ chunks' stride' next', lane_ok chunks' stride' next' ln'.
Proof using Hcfg.
  intros Hcs Hs Hn Hl Hpos Hfull. pose proof (lane_parity _ _ _ _ Hcs Hs Hn Hl Hpos Hfull) as Hpar.
  pose proof (lane_maxLen _ _ _ _ Hcs Hs Hn Hl) as Hm.
  unfold emitLaneLocked. rewrite bool_decide_false by lia.
  exists (ln_base ln), (ln_lenXor ln), (slice (ln_xor ln) 0 (ln_maxLen ln)).
  destruct (sendFecFrame c ftype id _ _ _ _) as [c' e] eqn:Hsend.
  eexists _. split_and!; [reflexivity|exact Hpar|done|].
  intros chunks' stride' next'. pose proof (lo_len _ _ _ _ Hl) as [[_ ?]|Hlen]; [lia|].
  pose proof (lo_count _ _ _ _ Hl).
  split; cbn; try done; try (intros; lia); auto.
  - right. rewrite Zlen_copy_at; [done|]. lia.
  - intros j. rewrite byteat_copy_at by (rewrite ?Zlen_replicate; lia).
    rewrite Zlen_replicate by lia. case_bool_decide as Hj.
    + by rewrite byteat_zeros.
    + eapply byteat_lane_beyond; [exact Hl|lia].
Qed.

(** ** Folding *)

(** the lane after a fold, before a full group is emitted *)
Definition folded ln (seq : Z) (x : list Z) : fecLane :=
  mkLane (xorInto (if Zlen ln.(ln_xor) =? 0 then replicate (Z.to_nat cap) 0 else ln.(ln_xor)) x)
    (Z.max ln.(ln_maxLen) (Zlen x)) (Z.lxor ln.(ln_lenXor) (u32 (Zlen x))) (ln.(ln_count) + 1)
    (if ln.(ln_count) =? 0 then seq else ln.(ln_base)).

Lemma foldLaneLocked_eq c ln seq x ftype :
  foldLaneLocked (cfg E) id c ln seq x ftype
  = if ln.(ln_count) + 1 >=? G then emitLaneLocked id c (folded ln seq x) ftype else (c, folded ln seq x).
Proof.
  unfold foldLaneLocked, folded. destruct ln as [xs m lx cnt b]. cbn.
  destruct (decide (Zlen xs = 0)) as [H1|H1]; [rewrite (bool_decide_true _ H1)|rewrite (bool_decide_false _ H1)]; cbn;
  (destruct (decide (cnt = 0)) as [H2|H2]; [rewrite (bool_decide_true _ H2)|rewrite (bool_decide_false _ H2)]; cbn);
  (destruct (decide (m < Zlen x)) as [H3|H3];
    [rewrite (bool_decide_true (m < Zlen x)), Z.max_r by lia|rewrite (bool_decide_false (m < Zlen x)), Z.max_l by lia]; done).
Qed.

Lemma xsum_snoc n (f : Z → Z) : 0 ≤ n → xsum (seqZ 0 (n + 1)) f = Z.lxor (xsum (seqZ 0 n) f) (f n).
Proof.
  intros Hn. rewrite seqZ_app by lia. rewrite xsum_app. f_equal. simpl. by rewrite Z.lxor_0_r.
Qed.

Lemma folded_ok chunks x stride ln :
  0 < G → 0 < stride → Zlen x ≤ cap → lane_ok chunks stride (Zlen chunks) ln → ln.(ln_count) < G →
  lane_ok (chunks ++ [x]) stride (Zlen chunks + stride) (folded ln (Zlen chunks) x).
Proof using Hcap32 Hcfg.
  intros HG Hs Hx Hl Hlt.
  pose proof (lane_extend chunks x stride (Zlen chunks) ln Hs ltac:(lia) Hl) as [A B D F I J K].
  pose proof (dataCap_bounds E Hcfg). pose proof (Zlen_nonneg x). pose proof (Zlen_nonneg chunks).
  assert (Zlen chunks + stride - (ln.(ln_count) + 1) * stride = Zlen chunks - ln.(ln_count) * stride) as He by lia.
  assert (chunk (chunks ++ [x]) (Zlen chunks - ln.(ln_count) * stride + ln.(ln_count) * stride) = x) as Hnew.
  { replace (_ + _) with (Zlen chunks) by lia. apply chunk_app_r. }
  set (xs := if Zlen ln.(ln_xor) =? 0 then replicate (Z.to_nat cap) 0 else ln.(ln_xor)).
  assert (Zlen xs = cap ∧ ∀ j, byteat xs j = byteat ln.(ln_xor) j) as [Hxs Hb].
  { unfold xs. destruct D as [[-> _]|D].
    - rewrite bool_decide_true by done. rewrite Zlen_replicate by lia. split; [done|]. intros j. by rewrite byteat_zeros.
    - rewrite bool_decide_false by lia. done. }
  unfold folded. fold xs. clearbody xs. split; cbn [ln_xor ln_maxLen ln_lenXor ln_count ln_base]; rewrite ?He.
  - lia.
  - intros _. destruct (decide (ln.(ln_count) = 0)) as [Hz|Hz].
    + rewrite bool_decide_true by done. lia.
    + rewrite bool_decide_false by done. destruct B; [lia|]. lia.
  - right. rewrite <- Hxs. unfold Zlen in *. rewrite length_xorInto by lia. done.
  - intros j. rewrite byteat_xorInto by (unfold Zlen in *; lia). rewrite xsum_snoc by lia. by rewrite Hnew, Hb, F.
  - rewrite xsum_snoc by lia. rewrite Hnew, <- I. rewrite u32_id; [done|]. split; [done|lia].
  - intros i Hi. destruct (decide (i = ln.(ln_count))) as [->|]; [rewrite Hnew; lia|]. specialize (J i ltac:(lia)). lia.
  - right. destruct (decide (ln.(ln_maxLen) ≤ Zlen x)).
    + exists ln.(ln_count). rewrite Hnew. lia.
    + destruct K as [[_ ?]|(i & ? & ?)]; [lia|]. exists i. lia.
Qed.

(** a fold: nothing is sent, or the parity of a full group *)
Lemma foldLaneLocked_spec c chunks x stride ln ftype :
  0 < G → 0 < stride → (∀ i, 0 ≤ i < Zlen chunks → Zlen (chunk chunks i) ≤ cap) → Zlen x ≤ cap →
  lane_ok chunks stride (Zlen chunks) ln → ln.(ln_count) < G →
  ∃ c' ln' fs, foldLaneLocked (cfg E) id c ln (Zlen chunks) x ftype = (c', ln') ∧
    log c' id = log c id ++ fs ∧
    Forall (λ e, ∃ base xorLen data, e = SentFec ftype base G xorLen data ∧
                   parity_ok E (chunks ++ [x]) stride base G xorLen data) fs ∧
    lane_ok (chunks ++ [x]) stride (Zlen chunks + stride) ln' ∧ ln'.(ln_count) < G.
Proof using Hcap32 Hcfg.
  intros HG Hs Hcs Hx Hl Hlt. pose proof (folded_ok chunks x stride ln HG Hs Hx Hl Hlt) as Hf.
  rewrite foldLaneLocked_eq. case_bool_decide as Hfull.
  - destruct (emitLaneLocked_spec c (chunks ++ [x]) stride (Zlen chunks + stride) (folded ln (Zlen chunks) x) ftype)
      as (base & xl & data & ln' & -> & Hpar & Hz & Hany); [|done|rewrite Zlen_app; change (Zlen [x]) with 1; lia|done
        |pose proof (lo_count _ _ _ _ Hl); cbn; lia|cbn; pose proof (lo_count _ _ _ _ Hf) as Hc; cbn in Hc; lia|].
    { intros i Hi. rewrite Zlen_app in Hi. change (Zlen [x]) with 1 in Hi.
      destruct (decide (i = Zlen chunks)) as [->|]; [by rewrite chunk_app_r|]. rewrite chunk_app_l by lia. apply Hcs. lia. }
    pose proof (lo_count _ _ _ _ Hf) as Hc. cbn in Hc. assert (ln_count ln + 1 = G) as Hg by lia. cbn in Hpar.
    rewrite Hg in Hpar. cbn. rewrite Hg.
    eexists _, ln', [_]. split_and!; [done|apply log_fec| |done|lia].
    constructor; [|done]. eexists _, _, _. done.
  - eexists c, _, []. split_and!; [done|by rewrite app_nil_r|done|done|cbn; lia].
Qed.

End lanes.
