(* ===== verification/SendInv.v ===== *)
(** * The invariant of the write side

    [send_inv] relates a write side to the frames it has handed to its
    connection.  Its first half ([win_inv]) holds whatever errors the
    connection returns; the second ([fec_inv]), which says that the lanes and
    the parity frames sent agree with the DATA frames, holds as long as no
    DATA frame was refused. *)
From S2P Require Import Prelude Errors Frame Options Ring StreamRecv Xor RecvLemmas RecvInv StreamSend SendLanes.

(** the DATA frames among the frames sent *)
Definition data_of (e : sent) : option (Z * list Z) :=
  match e with SentData seq p _ => Some (seq, p) | _ => None end.
Definition frames (L : list sent) : list (Z * list Z) := omap data_of L.
Definition payloads (L : list sent) : list (list Z) := (frames L).*2.

Definition is_fec (e : sent) : Prop := match e with SentFec _ _ _ _ _ => True | _ => False end.
Definition not_reliable (e : sent) : Prop := match e with SentReliable _ _ _ => False | _ => True end.
Definition accepted (e : sent) : Prop := match e with SentData _ _ (Some _) => False | _ => True end.

(** every DATA frame was taken, and sequence numbers have not wrapped *)
Definition good (L : list sent) : Prop := Forall accepted L ∧ Zlen (payloads L) + 1 < 2 ^ 32.

Lemma frames_app L1 L2 : frames (L1 ++ L2) = frames L1 ++ frames L2.
Proof. apply omap_app. Qed.
Lemma payloads_app L1 L2 : payloads (L1 ++ L2) = payloads L1 ++ payloads L2.
Proof. unfold payloads. by rewrite frames_app, fmap_app. Qed.
Lemma frames_fec fs : Forall is_fec fs → frames fs = [].
Proof. induction 1 as [|e fs He _ IH]; [done|]. by destruct e. Qed.
Lemma frames_app_fec L fs : Forall is_fec fs → frames (L ++ fs) = frames L.
Proof. intros Hf. by rewrite frames_app, (frames_fec fs Hf), app_nil_r. Qed.
Lemma payloads_app_fec L fs : Forall is_fec fs → payloads (L ++ fs) = payloads L.
Proof. intros Hf. unfold payloads. by rewrite frames_app_fec. Qed.
Lemma Zlen_payloads L : Zlen (payloads L) = Zlen (frames L).
Proof. unfold payloads, Zlen. by rewrite length_fmap. Qed.
Lemma good_app L1 L2 : good (L1 ++ L2) → good L1.
Proof.
  intros [H1 H2]. split; [by apply Forall_app in H1 as [? _]|].
  rewrite payloads_app, Zlen_app in H2. pose proof (Zlen_nonneg (payloads L2)). lia.
Qed.

(** how a write direction ends: at most once, with a FIN or a RESET at the
    position after the last DATA frame, and nothing after it *)
Definition ending (L : list sent) : Prop :=
  Forall not_reliable L ∨
  ∃ L1 ft p, L = L1 ++ [SentReliable ft (u32 (Zlen (frames L1))) p] ∧ Forall not_reliable L1 ∧
    (ft = frameStreamFIN ∧ p = [] ∨ ft = frameStreamReset ∧ ∃ code, p = resetPayload code).

Record win_inv (cf : config) (B : Z) (w : wside) (L : list sent) : Prop := mkWinInv {
  wi_seqs : ∀ k f, frames L !! k = Some f → f.1 = u32 (Z.of_nat k);
  wi_next : w.(writeSeq) = u32 (Zlen (frames L));
  wi_sizes : Forall (λ p, 0 < Zlen p ≤ dataCap cf) (payloads L);
  wi_sent : w.(sentOffset) = Zlen (concat (payloads L));
  wi_credit : w.(sentOffset) ≤ w.(maxSendOffset);
  wi_flight : bytesInFlightLocked w ≤ B;
  wi_lanes : w.(fecLanes) = [] ∨ Zlen w.(fecLanes) = cf.(fecGroup);
  wi_err : w.(writeErr) ≠ None → w.(writeFIN) = true;
  wi_open : w.(writeFIN) = false → Forall not_reliable L;
  wi_end : ending L;
}.

Section fec.
Context (E : renv).
#[local] Abbreviation G := (fecGroup (cfg E)).

(** the next member of column lane [r] when [N] frames have been sent *)
Definition next_col (r : nat) (N : Z) : Z := N + (Z.of_nat r - N) `mod` G.

Definition parity_sent (chunks : list (list Z)) (closed : bool) (e : sent) : Prop :=
  match e with
  | SentFec ftype base count xorLen data =>
      (ftype = frameFEC ∨ ftype = frameFECRow) ∧
      parity_ok E chunks (stride_of E (bool_decide (ftype = frameFECRow))) base count xorLen data ∧
      (count = G ∨ closed = true)
  | _ => True
  end.

Record fec_inv (w : wside) (L : list sent) : Prop := mkFecInv {
  fi_off : G ≤ 0 → w.(fecLanes) = [] ∧ w.(fecRowLane).(ln_count) = 0;
  fi_lanes : 0 < G → ∀ r ln, w.(fecLanes) !! r = Some ln →
    lane_ok E (payloads L) G (next_col r (Zlen (payloads L))) ln ∧ ln.(ln_count) < G;
  fi_row : 0 < G → lane_ok E (payloads L) 1 (Zlen (payloads L)) w.(fecRowLane) ∧ w.(fecRowLane).(ln_count) < G;
  fi_row2D : (cfg E).(fec2D) = false → w.(fecRowLane).(ln_count) = 0;
  fi_par : Forall (parity_sent (payloads L) w.(writeFIN)) L;
}.

Definition send_inv (B : Z) (w : wside) (L : list sent) : Prop :=
  win_inv (cfg E) B w L ∧ (good L → fec_inv w L).
End fec.

Lemma newStream_send_inv E B bufSize : config_wf (cfg E) → 0 ≤ B → send_inv E B (newStream_write (cfg E) bufSize) [].
Proof.
  intros Hcfg HB. pose proof (dataCap_bounds E Hcfg). split.
  - split; try done; [cbn; repeat case_bool_decide; lia|by left|by left].
  - intros _. split; try done.
    intros HG. split; [|cbn; lia]. by apply zeroLane_ok.
Qed.

Section sender.
Context {C : Type} `{SendPathLaws C}.
Context (E : renv) (Hcfg : config_wf E.(cfg)) (id : Z).
Context (Hcap32 : maxPayload (cfg E) < 2 ^ 32).
Implicit Types (w : wside) (c : C) (ln : fecLane) (chunks : list (list Z)).
#[local] Abbreviation G := (fecGroup (cfg E)).
#[local] Abbreviation cap := (dataCap (cfg E)).

(** ** What folding sends *)
Lemma emitLaneLocked_log c ln ftype :
  ∃ fs, log (emitLaneLocked id c ln ftype).1 id = log c id ++ fs ∧ Forall is_fec fs.
Proof.
  unfold emitLaneLocked. case_bool_decide; [exists []; by rewrite app_nil_r|].
  exists [SentFec ftype ln.(ln_base) ln.(ln_count) ln.(ln_lenXor) (slice ln.(ln_xor) 0 ln.(ln_maxLen))].
  split; [|by apply Forall_singleton]. rewrite <- log_fec. by destruct (sendFecFrame _ _ _ _ _ _ _).
Qed.
Lemma foldLaneLocked_log c ln seq x ftype :
  ∃ fs, log (foldLaneLocked (cfg E) id c ln seq x ftype).1 id = log c id ++ fs ∧ Forall is_fec fs.
Proof.
  rewrite foldLaneLocked_eq. case_bool_decide; [apply emitLaneLocked_log|]. exists []. by rewrite app_nil_r.
Qed.

Definition lanes_ok w : Prop := w.(fecLanes) = [] ∨ Zlen w.(fecLanes) = G.

(** the lanes a fold works on *)
Definition made w : list fecLane :=
  if Zlen w.(fecLanes) =? 0 then replicate (Z.to_nat G) zeroLane else w.(fecLanes).
Lemma Zlen_made w : 0 < G → lanes_ok w → Zlen (made w) = G.
Proof using.
  intros HG [Hl|Hl]; unfold made.
  - rewrite Hl, bool_decide_true by done. apply Zlen_replicate. lia.
  - by rewrite bool_decide_false by lia.
Qed.

Lemma group_u32 : 0 < G → u32 G = G.
Proof using Hcfg. intros HG. apply u32_id. pose proof (cw_fec _ Hcfg). split; [lia|]. naive_solver lia. Qed.

(** the fold of frame [seq], with the lane it goes to *)
Lemma fecFoldLocked_eq w c seq x : 0 < G → 0 ≤ seq → lanes_ok w →
  ∃ ln, made w !! Z.to_nat (seq `mod` G) = Some ln ∧
    fecFoldLocked (cfg E) id w c seq x =
      let '(c1, ln1) := foldLaneLocked (cfg E) id c ln seq x frameFEC in
      let w1 := w <| fecLanes := <[Z.to_nat (seq `mod` G) := ln1]> (made w) |> in
      if (cfg E).(fec2D) then
        let '(c2, rl) := foldLaneLocked (cfg E) id c1 w.(fecRowLane) seq x frameFECRow in
        Some (w1 <| fecRowLane := rl |>, c2)
      else Some (w1, c1).
Proof using Hcfg.
  intros HG Hseq Hl. pose proof (Zlen_made w HG Hl) as Hm.
  pose proof (Z.mod_pos_bound seq G HG) as Hmod.
  destruct (lookup_lt_is_Some_2 (made w) (Z.to_nat (seq `mod` G))) as [ln Hln]; [unfold Zlen in Hm; lia|].
  exists ln. split; [done|]. unfold fecFoldLocked. rewrite bool_decide_false by lia.
  rewrite group_u32, Z.rem_mod_nonneg by lia.
  set (w0 := if Zlen w.(fecLanes) =? 0 then _ else w).
  assert (w0 = w <| fecLanes := made w |>) as ->.
  { unfold w0, made. destruct w; cbn. by case_bool_decide. }
  cbn. rewrite Hln. cbn. by destruct (foldLaneLocked _ _ _ _ _ _ _).
Qed.

(** whatever is folded, the fold completes, changes only the lanes and sends
    only parity frames *)
Lemma fecFoldLocked_basic w c seq x : 0 ≤ seq → lanes_ok w →
  ∃ w' c' fs, fecFoldLocked (cfg E) id w c seq x = Some (w', c') ∧
    log c' id = log c id ++ fs ∧ Forall is_fec fs ∧ lanes_ok w' ∧
    w' = w <| fecLanes := w'.(fecLanes) |> <| fecRowLane := w'.(fecRowLane) |>.
Proof using Hcfg.
  intros Hseq Hl. destruct (decide (0 < G)) as [HG|HG].
  - destruct (fecFoldLocked_eq w c seq x HG Hseq Hl) as (ln & Hln & ->).
    destruct (foldLaneLocked_log c ln seq x frameFEC) as (fs1 & Hf1 & Hi1).
    destruct (foldLaneLocked (cfg E) id c ln seq x frameFEC) as [c1 ln1].
    assert (Zlen (<[Z.to_nat (seq `mod` G) := ln1]> (made w)) = G) as Hlen.
    { pose proof (Zlen_made w HG Hl). unfold Zlen in *. by rewrite length_insert. }
    destruct (fec2D (cfg E)).
    + destruct (foldLaneLocked_log c1 w.(fecRowLane) seq x frameFECRow) as (fs2 & Hf2 & Hi2).
      destruct (foldLaneLocked (cfg E) id c1 w.(fecRowLane) seq x frameFECRow) as [c2 rl].
      cbn in *. eexists _, c2, (fs1 ++ fs2). split_and!; [done| |by apply Forall_app|by right|done].
      by rewrite Hf2, Hf1, app_assoc.
    + cbn in *. eexists _, c1, fs1. split_and!; [done|done|done|by right|done].
  - unfold fecFoldLocked. rewrite bool_decide_true by lia. eexists w, c, [].
    rewrite app_nil_r. split_and!; [done..|]. by destruct w.
Qed.

(** ** The parity invariant *)
Lemma parity_extend chunks x stride base xorLen data :
  0 < stride → parity_ok E chunks stride base G xorLen data → parity_ok E (chunks ++ [x]) stride base G xorLen data.
Proof using.
  intros Hs [P1 P2 P3 P4 P5 P6 P7 P8].
  assert (∀ i, 0 ≤ i < G → chunk (chunks ++ [x]) (base + i * stride) = chunk chunks (base + i * stride)) as Hc.
  { intros i Hi. apply chunk_app_l. nia. }
  split; try done.
  - rewrite Zlen_app. pose proof (Zlen_nonneg [x]). lia.
  - by left.
  - rewrite P5. apply xsum_ext. intros i Hi%elem_of_seqZ. by rewrite Hc by lia.
  - intros i Hi. rewrite Hc by lia. by apply P6.
  - destruct P7 as (i & Hi & P7). exists i. by rewrite Hc by lia.
  - intros j Hj. rewrite (P8 j Hj). apply xsum_ext. intros i Hi%elem_of_seqZ. by rewrite Hc by lia.
Qed.

Lemma parity_sent_extend chunks x e : parity_sent E chunks false e → parity_sent E (chunks ++ [x]) false e.
Proof using.
  destruct e as [|ft base count xl data|]; [done| |done]. intros (Hft & Hp & [->|?]); [|done].
  split_and!; [done| |by left]. pose proof (po_count _ _ _ _ _ _ _ Hp).
  apply parity_extend; [|done]. unfold stride_of. case_bool_decide; lia.
Qed.

Lemma next_col_here N : 0 < G → 0 ≤ N →
  next_col E (Z.to_nat (N `mod` G)) N = N ∧ next_col E (Z.to_nat (N `mod` G)) (N + 1) = N + G.
Proof using.
  intros HG HN. unfold next_col. pose proof (Z.mod_pos_bound N G HG). rewrite Z2Nat.id by lia. split.
  - rewrite Zminus_mod_idemp_l, Z.sub_diag, Zmod_0_l. lia.
  - replace (N `mod` G - (N + 1)) with (N `mod` G - N + -1) by lia.
    rewrite <- Zplus_mod_idemp_l, Zminus_mod_idemp_l, Z.sub_diag, Zmod_0_l.
    rewrite <- (Z_mod_plus_full (0 + -1) 1 G), Z.mod_small by lia. lia.
Qed.
Lemma next_col_other r N : 0 < G → 0 ≤ N → Z.of_nat r < G → r ≠ Z.to_nat (N `mod` G) →
  next_col E r (N + 1) = next_col E r N.
Proof using.
  intros HG HN Hr Hne. unfold next_col.
  pose proof (Z.mod_pos_bound N G HG). pose proof (Z.mod_pos_bound (Z.of_nat r - N) G HG).
  assert ((Z.of_nat r - N) `mod` G ≠ 0) as Hnz.
  { intros Hz. apply Hne. rewrite <- (Z.mod_small (Z.of_nat r) G) in Hz by lia.
    rewrite Zminus_mod_idemp_l in Hz. apply Z.mod_divide in Hz as [q Hq]; [|lia].
    replace (N `mod` G) with (Z.of_nat r); [lia|]. replace N with (Z.of_nat r + (- q) * G) by lia.
    rewrite Z_mod_plus_full. symmetry. apply Z.mod_small. lia. }
  replace (Z.of_nat r - (N + 1)) with (Z.of_nat r - N + -1) by lia.
  rewrite <- Zplus_mod_idemp_l, (Z.mod_small (_ + -1)) by lia. lia.
Qed.

Lemma made_ok w L : 0 < G → fec_inv E w L → ∀ r ln, made w !! r = Some ln →
  lane_ok E (payloads L) G (next_col E r (Zlen (payloads L))) ln ∧ ln.(ln_count) < G.
Proof using.
  intros HG Hf r ln. unfold made. case_bool_decide; [|by apply (fi_lanes _ _ _ Hf HG)].
  intros [-> _]%lookup_replicate. split; [by apply zeroLane_ok|done].
Qed.

(** the payloads of a stream fit the lanes *)
Definition fits chunks : Prop := ∀ i, 0 ≤ i < Zlen chunks → Zlen (chunk chunks i) ≤ cap.
Lemma sizes_fit chunks : Forall (λ p, 0 < Zlen p ≤ cap) chunks → fits chunks.
Proof using. intros Hs i Hi. destruct (chunk_bounds E chunks Hs i Hi). lia. Qed.

Lemma lanes_fold L x w ln1 seq : 0 < G → fec_inv E w L → lanes_ok w → seq = Zlen (payloads L) →
  lane_ok E (payloads L ++ [x]) G (seq + G) ln1 → ln1.(ln_count) < G →
  ∀ r ln, <[Z.to_nat (seq `mod` G) := ln1]> (made w) !! r = Some ln →
  lane_ok E (payloads L ++ [x]) G (next_col E r (Zlen (payloads L ++ [x]))) ln ∧ ln.(ln_count) < G.
Proof using Hcfg.
  intros HG Hf Hl -> Hl1 Hc1 r ln Hr. pose proof (Zlen_nonneg (payloads L)) as Hn.
  rewrite Zlen_app. change (Zlen [x]) with 1.
  destruct (next_col_here (Zlen (payloads L)) HG Hn) as [_ Hhere].
  apply list_lookup_insert_Some in Hr as [(<- & <- & _)|(Hne & Hr)]; [by rewrite Hhere|].
  destruct (made_ok w L HG Hf r ln Hr) as [Hok Hlt]. split; [|done].
  apply lookup_lt_Some in Hr. pose proof (Zlen_made w HG Hl) as Hm. unfold Zlen in Hm.
  rewrite next_col_other by (done || lia).
  apply lane_extend; [done| |done]. unfold next_col.
  pose proof (Z.mod_pos_bound (Z.of_nat r - Zlen (payloads L)) G HG). lia.
Qed.

Lemma fecFoldLocked_inv w c L x w' c' :
  fec_inv E w L → w.(writeFIN) = false → lanes_ok w → fits (payloads L) → Zlen x ≤ cap →
  log c id = L ++ [SentData (Zlen (payloads L)) x None] →
  fecFoldLocked (cfg E) id w c (Zlen (payloads L)) x = Some (w', c') → fec_inv E w' (log c' id).
Proof using Hcfg Hcap32.
  intros Hf Hopen Hl Hfit Hx Hlog Hfold. pose proof (Zlen_nonneg (payloads L)) as Hn.
  assert (Forall (parity_sent E (payloads L ++ [x]) false) (log c id)) as Hpar.
  { rewrite Hlog. apply Forall_app. split; [|by apply Forall_singleton].
    pose proof (fi_par _ _ _ Hf) as Hp. rewrite Hopen in Hp. eapply Forall_impl; [exact Hp|]. apply parity_sent_extend. }
  assert (payloads (log c id) = payloads L ++ [x]) as Hpl by (by rewrite Hlog, payloads_app).
  destruct (decide (0 < G)) as [HG|HG].
  2:{ unfold fecFoldLocked in Hfold. rewrite bool_decide_true in Hfold by lia. injection Hfold as <- <-.
      split; try (intros; lia); [apply (fi_off _ _ _ Hf)|apply (fi_row2D _ _ _ Hf)|by rewrite Hpl, Hopen]. }
  destruct (fecFoldLocked_eq w c (Zlen (payloads L)) x HG Hn Hl) as (ln & Hln & Heq). rewrite Heq in Hfold. clear Heq.
  destruct (made_ok w L HG Hf _ _ Hln) as [Hlok Hlc].
  destruct (next_col_here (Zlen (payloads L)) HG Hn) as [Hhere _]. rewrite Hhere in Hlok.
  destruct (foldLaneLocked_spec E Hcfg id Hcap32 c (payloads L) x G ln frameFEC HG HG Hfit Hx Hlok Hlc)
    as (c1 & ln1 & fs1 & Hf1 & Hlog1 & Hp1 & Hln1 & Hc1). rewrite Hf1 in Hfold.
  assert (Forall is_fec fs1 ∧ Forall (parity_sent E (payloads L ++ [x]) false) fs1) as [Hfec1 Hps1].
  { split; (eapply Forall_impl; [exact Hp1|]); intros e (b & xl & d & -> & Hp); [done|]. split_and!; auto. }
  assert (payloads (log c1 id) = payloads L ++ [x]) as Hpl1 by (by rewrite Hlog1, payloads_app_fec).
  pose proof (lanes_fold L x w ln1 (Zlen (payloads L)) HG Hf Hl eq_refl Hln1 Hc1) as Hlanes.
  destruct (fec2D (cfg E)) eqn:H2D.
  - destruct (fi_row _ _ _ Hf HG) as [Hrow Hrc].
    destruct (foldLaneLocked_spec E Hcfg id Hcap32 c1 (payloads L) x 1 w.(fecRowLane) frameFECRow HG ltac:(lia) Hfit Hx Hrow Hrc)
      as (c2 & rl & fs2 & Hf2 & Hlog2 & Hp2 & Hrl & Hrlc). rewrite Hf2 in Hfold. injection Hfold as <- <-.
    assert (Forall is_fec fs2 ∧ Forall (parity_sent E (payloads L ++ [x]) false) fs2) as [Hfec2 Hps2].
    { split; (eapply Forall_impl; [exact Hp2|]); intros e (b & xl & d & -> & Hp); [done|]. split_and!; auto. }
    assert (payloads (log c2 id) = payloads L ++ [x]) as Hpl2 by (by rewrite Hlog2, payloads_app_fec).
    split; rewrite ?Hpl2; cbn; try (intros; lia).
    + intros _. by apply Hlanes.
    + intros _. rewrite Zlen_app. by change (Zlen [x]) with 1.
    + congruence.
    + rewrite Hopen, Hlog2, Hlog1. by rewrite !Forall_app.
  - injection Hfold as <- <-. pose proof (fi_row2D _ _ _ Hf H2D) as Hz.
    split; rewrite ?Hpl1; cbn; try (intros; lia).
    + intros _. by apply Hlanes.
    + intros _. destruct (fi_row _ _ _ Hf HG). split; [|done]. by eapply lane_empty.
    + rewrite Hopen, Hlog1. by rewrite Forall_app.
Qed.

End sender.
