(* ===== verification/SendRun.v ===== *)
(** * What a stream sends

    A write side runs against any sequence of calls: writes of any size,
    several of them blocked at a time, credit and acknowledgements from the
    peer, closing, cancelling, tear-down, and other streams using the same
    connection, whatever errors the connection returns. *)
From S2P Require Import Prelude Errors Frame Options Ring StreamRecv Xor RecvLemmas RecvInv StreamSend SendLanes SendInv.

Definition written (o : write_outcome) : Z := match o with WDone n _ => n | WBlocked n _ => n end.

Section write.
Context {C : Type} `{SendPathLaws C}.
Context (E : renv) (Hcfg : config_wf E.(cfg)) (id : Z).
Context (Hcap32 : maxPayload (cfg E) < 2 ^ 32).
Implicit Types (w : wside) (c : C).
(** the bound the connection's in-flight caps obey *)
Context (B : Z) (HB : ∀ c : C, (stream_inFlightCap (cfg E) c).2 ≤ B).
#[local] Abbreviation cap := (dataCap (cfg E)).

Lemma stream_inFlightCap_log c : log (stream_inFlightCap (cfg E) c).1 id = log c id.
Proof. unfold stream_inFlightCap. pose proof (log_cap c id) as Hl. by destruct (conn_inFlightCap c) as [c' k]. Qed.
Lemma stream_inFlightCap_le c : (stream_inFlightCap (cfg E) c).2 ≤ maxBufSize (cfg E).
Proof. unfold stream_inFlightCap. destruct (conn_inFlightCap c) as [c' k]. cbn. case_bool_decide; lia. Qed.

Lemma mustWait_spec w c n : ∃ c' b, mustWait (cfg E) w c n = (c', b) ∧ log c' id = log c id ∧
  (w.(writeFIN) = false → w.(writeErr) = None → b = false →
   w.(sentOffset) + n ≤ w.(maxSendOffset) ∧ bytesInFlightLocked w + n ≤ B).
Proof using HB.
  unfold mustWait. destruct (bool_decide _ || _) eqn:Hb.
  { exists c, false. split_and!; [done..|]. intros Hf He _. exfalso.
    rewrite Hf, He, orb_false_r in Hb. by apply bool_decide_eq_true in Hb. }
  destruct (_ <? n) eqn:Hcr; [by exists c, true|]. apply bool_decide_eq_false in Hcr.
  pose proof (stream_inFlightCap_log c) as Hl. pose proof (HB c) as Hm.
  destruct (stream_inFlightCap (cfg E) c) as [c' k]. cbn in *. eexists c', _. split_and!; [reflexivity|done|].
  intros _ _ Hk. apply bool_decide_eq_false in Hk. lia.
Qed.

(** ** One DATA frame *)
Definition advance w (n : Z) : wside :=
  w <| sentOffset := w.(sentOffset) + n |> <| writeSeq := u32 (w.(writeSeq) + 1) |>.

Lemma win_inv_data w L x err :
  win_inv (cfg E) B w L → w.(writeFIN) = false → 0 < Zlen x ≤ cap →
  w.(sentOffset) + Zlen x ≤ w.(maxSendOffset) → bytesInFlightLocked w + Zlen x ≤ B →
  win_inv (cfg E) B (advance w (Zlen x)) (L ++ [SentData w.(writeSeq) x err]).
Proof using.
  intros [W1 W2 W3 W4 W5 W6 W7 W8 W9 W10] Hopen Hx Hcr Hfl. unfold bytesInFlightLocked in *.
  split; cbn; try done; rewrite ?frames_app, ?payloads_app, ?concat_app, ?Zlen_app; cbn.
  - intros k f Hk. apply lookup_app_Some in Hk as [Hk|[Hlen Hk]]; [by apply W1|].
    apply list_lookup_singleton_Some in Hk as [Hz <-]. cbn. rewrite W2. f_equal. unfold Zlen. lia.
  - rewrite W2. change (Zlen [(_, x)]) with 1. word_lia.
  - apply Forall_app. split; [done|]. by apply Forall_singleton.
  - rewrite app_nil_r. lia.
  - unfold bytesInFlightLocked; cbn. lia.
  - intros Hf. apply Forall_app. split; [by apply W9|]. by apply Forall_singleton.
  - left. apply Forall_app. split; [by apply W9|]. by apply Forall_singleton.
Qed.

Lemma win_inv_fec w L fs lanes rl :
  win_inv (cfg E) B w L → w.(writeFIN) = false → Forall is_fec fs → lanes = [] ∨ Zlen lanes = fecGroup (cfg E) →
  win_inv (cfg E) B (w <| fecLanes := lanes |> <| fecRowLane := rl |>) (L ++ fs).
Proof using.
  intros [W1 W2 W3 W4 W5 W6 W7 W8 W9 W10] Hopen Hfec Hl.
  assert (Forall not_reliable fs) as Hnr.
  { eapply Forall_impl; [exact Hfec|]. by intros []. }
  split; cbn; rewrite ?frames_app_fec, ?payloads_app_fec by done; try done.
  - intros Hf. apply Forall_app. auto.
  - left. apply Forall_app. auto.
Qed.

Lemma fec_inv_view w w' L :
  w'.(fecLanes) = w.(fecLanes) → w'.(fecRowLane) = w.(fecRowLane) → w'.(writeFIN) = w.(writeFIN) →
  fec_inv E w L → fec_inv E w' L.
Proof using. intros H1 H2 H3 [F1 F2 F3 F4 F5]. split; rewrite ?H1, ?H2, ?H3; done. Qed.

(** a DATA frame the connection takes, with its fold *)
Lemma send_inv_data w c x c1 :
  send_inv E B w (log c id) → w.(writeFIN) = false → 0 < Zlen x ≤ cap →
  w.(sentOffset) + Zlen x ≤ w.(maxSendOffset) → bytesInFlightLocked w + Zlen x ≤ B →
  sendDataFrame c id w.(writeSeq) x = (c1, None) →
  ∃ w' c' L', fecFoldLocked (cfg E) id (advance w (Zlen x)) c1 w.(writeSeq) x = Some (w', c') ∧
    log c' id = log c id ++ L' ∧ payloads L' = [x] ∧ send_inv E B w' (log c' id).
Proof using Hcap32 Hcfg.
  intros [Hw Hf] Hopen Hx Hcr Hfl Hsend.
  pose proof (log_data c id w.(writeSeq) x) as Hlog. rewrite Hsend in Hlog. cbn in Hlog.
  pose proof (win_inv_data w _ x None Hw Hopen Hx Hcr Hfl) as Hw1. rewrite <- Hlog in Hw1.
  assert (0 ≤ w.(writeSeq)) as Hseq by (rewrite (wi_next _ _ _ _ Hw); word_lia).
  destruct (fecFoldLocked_basic E Hcfg id (advance w (Zlen x)) c1 w.(writeSeq) x Hseq (wi_lanes _ _ _ _ Hw1))
    as (w' & c' & fs & Hfold & Hlog' & Hfec & Hlanes & Hw').
  exists w', c', (SentData w.(writeSeq) x None :: fs). split_and!; [done| | |split].
  - rewrite Hlog', Hlog. by rewrite <- app_assoc.
  - unfold payloads. cbn. fold (frames fs). by rewrite frames_fec.
  - rewrite Hlog', Hw'. by apply win_inv_fec.
  - intros Hgood. rewrite Hlog', Hlog in Hgood. pose proof (good_app _ _ Hgood) as Hgood1.
    pose proof (good_app _ _ Hgood1) as Hgood0. destruct Hgood1 as [_ Hnum].
    rewrite payloads_app, Zlen_app in Hnum. change (Zlen (payloads [_])) with 1 in Hnum.
    assert (w.(writeSeq) = Zlen (payloads (log c id))) as Hnext.
    { rewrite (wi_next _ _ _ _ Hw), Zlen_payloads. apply u32_id. rewrite <- Zlen_payloads.
      split; [apply Zlen_nonneg|lia]. }
    rewrite Hnext in Hlog, Hfold.
    eapply (fecFoldLocked_inv E Hcfg id Hcap32 (advance w (Zlen x)) c1 (log c id) x w' c'); try done.
    + eapply fec_inv_view; [..|by apply Hf]; done.
    + apply (wi_lanes _ _ _ _ Hw1).
    + apply sizes_fit. apply (wi_sizes _ _ _ _ Hw).
    + lia.
Qed.

(** ** The loop *)

(** What a run of the loop leaves behind: the frames [L'], which carry the
    bytes counted in the outcome, unless the last one was refused; no error
    only when everything is written; a blocked call keeps what is left. *)
Record wrote (p : list Z) (n : Z) (o : write_outcome) (L' : list sent) : Prop := mkWrote {
  wr_count : n ≤ written o ≤ n + Zlen p;
  wr_bytes : Forall accepted L' → concat (payloads L') = slice p 0 (written o - n);
  wr_all : ∀ k, o = WDone k None → k = n + Zlen p;
  wr_rest : ∀ k rest, o = WBlocked k rest → rest = slice p (k - n) (Zlen p);
}.

Lemma wrote_nothing p n o : written o = n → (∀ rest, o = WBlocked n rest → rest = p) →
  (o = WDone n None → Zlen p = 0) → wrote p n o [].
Proof using.
  intros Hn Hb Hd. pose proof (Zlen_nonneg p). split.
  - lia.
  - rewrite Hn, Z.sub_diag. by rewrite slice_nil.
  - intros k ->. cbn in Hn. subst. rewrite Hd by done. lia.
  - intros k rest ->. cbn in Hn. subst. rewrite Z.sub_diag, slice_all. by apply Hb.
Qed.

Lemma wrote_cons p n o L1 L2 m :
  0 ≤ m ≤ Zlen p → payloads L1 = [slice p 0 m] → wrote (slice p m (Zlen p)) (n + m) o L2 → wrote p n o (L1 ++ L2).
Proof using.
  intros Hm HL1 [R1 R2 R3 R4]. rewrite Zlen_slice in * by lia. split.
  - lia.
  - intros [_ Ha]%Forall_app. rewrite payloads_app, concat_app, HL1, (R2 Ha). cbn. rewrite app_nil_r.
    rewrite (slice_split p 0 m (written o - n)) by lia. f_equal. rewrite slice_slice by lia. f_equal; lia.
  - intros k ->. specialize (R3 k eq_refl). lia.
  - intros k rest ->. cbn in R1. rewrite (R4 k rest eq_refl), slice_slice by lia. f_equal; lia.
Qed.

Lemma writeLoop_spec fuel w c p n : (length p < fuel)%nat → send_inv E B w (log c id) →
  ∃ w' c' o L', writeLoop (cfg E) id fuel w c p n = Some (w', c', o) ∧
    log c' id = log c id ++ L' ∧ send_inv E B w' (log c' id) ∧ wrote p n o L'.
Proof using Hcap32 Hcfg HB.
  revert w c p n. induction fuel as [|fuel IH]; intros w c p n Hfuel Hinv; [lia|].
  cbn [writeLoop]. pose proof (dataCap_bounds E Hcfg) as Hcap. pose proof (Zlen_nonneg p) as Hp0.
  assert (∀ c1, log c1 id = log c id → log (flushSend c1).1 id = log c id) as Hflush.
  { intros c1 <-. apply log_flush. }
  assert (∀ o, written o = n → (∀ rest, o = WBlocked n rest → rest = p) → (o = WDone n None → Zlen p = 0) →
    ∀ c1, log c1 id = log c id → ∃ w' c' o' L', Some (w, c1, o) = Some (w', c', o') ∧
    log c' id = log c id ++ L' ∧ send_inv E B w' (log c' id) ∧ wrote p n o' L') as Hstop.
  { intros o H1 H2 H3 c1 Hc1. eexists w, c1, o, []. rewrite app_nil_r, Hc1. split_and!; [done..|]. by apply wrote_nothing. }
  destruct (decide (Zlen p = 0)) as [Hz|Hz]; [rewrite (bool_decide_true _ Hz)|rewrite (bool_decide_false _ Hz)].
  { pose proof (Hflush c eq_refl) as Hf. destruct (flushSend c) as [c1 ferr]. by apply Hstop. }
  set (chunkLen := if Zlen p >? cap then cap else Zlen p).
  assert (0 < chunkLen ≤ Zlen p ∧ chunkLen ≤ cap) as [Hcl1 Hcl2] by (unfold chunkLen; case_bool_decide; lia).
  clearbody chunkLen.
  destruct (mustWait_spec w c chunkLen) as (c1 & wait & -> & Hc1 & Hgo). destruct wait.
  { pose proof (Hflush c1 Hc1) as Hf. destruct (flushSend c1) as [c2 ferr]. cbn in Hf.
    destruct (negb (time_IsZero _)).
    - pose proof (log_now c2 id) as Hnow. destruct (conn_now c2) as [c3 now]. cbn in Hnow. rewrite Hf in Hnow.
      destruct (negb (time_Before _ _)); apply Hstop; first [done | by intros ? [= ->] | congruence].
    - apply Hstop; first [done | by intros ? [= ->] | congruence]. }
  destruct (bool_decide (writeErr w ≠ None)) eqn:Herr.
  { apply bool_decide_eq_true in Herr. pose proof (Hflush c1 Hc1) as Hf. destruct (flushSend c1) as [c2 ferr].
    apply Hstop; try done. congruence. }
  destruct (writeFIN w) eqn:Hfin.
  { pose proof (Hflush c1 Hc1) as Hf. destruct (flushSend c1) as [c2 ferr]. by apply Hstop. }
  apply bool_decide_eq_false, dec_stable in Herr. destruct (Hgo eq_refl Herr eq_refl) as [Hcr Hfl].
  assert (Zlen (slice p 0 chunkLen) = chunkLen) as Hlen by (rewrite Zlen_slice; lia).
  cbv zeta. change (w <| sentOffset := _ |> <| writeSeq := _ |>) with (advance w chunkLen).
  change (writeSeq (w <| sentOffset := _ |>)) with (writeSeq w).
  destruct (sendDataFrame c1 id (writeSeq w) (slice p 0 chunkLen)) as [c2 [e|]] eqn:Hsend.
  - pose proof (log_data c1 id (writeSeq w) (slice p 0 chunkLen)) as Hlog. rewrite Hsend in Hlog. cbn in Hlog.
    pose proof (log_flush c2 id) as Hf. destruct (flushSend c2) as [c3 ferr]. cbn in Hf. rewrite Hlog, Hc1 in Hf.
    eexists _, c3, _, [_]. split_and!; [reflexivity|exact Hf| |].
    + rewrite Hf. split; [|intros [Ha _]; rewrite Forall_app, Forall_singleton in Ha; by destruct Ha].
      rewrite <- Hlen at 1. apply win_inv_data; rewrite ?Hlen; try done; [by destruct Hinv|lia].
    + split; cbn; try done; try lia. by rewrite Forall_singleton.
  - rewrite <- Hc1 in Hinv.
    destruct (send_inv_data w c1 (slice p 0 chunkLen) c2 Hinv Hfin) as (w3 & c3 & L3 & Hfold & Hlog3 & Hpl3 & Hinv3);
      [rewrite Hlen; lia|by rewrite Hlen|by rewrite Hlen|done|]. rewrite Hlen in Hfold. rewrite Hfold. cbn [mbind option_bind]. rewrite Hlen.
    destruct (IH w3 c3 (slice p chunkLen (Zlen p)) (n + chunkLen)) as (w4 & c4 & o & L4 & Hrun & Hlog4 & Hinv4 & Hwr).
    { apply Nat2Z.inj_lt. change (Zlen (slice p chunkLen (Zlen p)) < Z.of_nat fuel). rewrite Zlen_slice by lia.
      unfold Zlen in *. lia. }
    { done. }
    exists w4, c4, o, (L3 ++ L4). split_and!; [done| |done|].
    + by rewrite Hlog4, Hlog3, Hc1, app_assoc.
    + by apply (wrote_cons p n o L3 L4 chunkLen ltac:(lia) Hpl3).
Qed.


(** ** Closing *)
#[local] Abbreviation G := (fecGroup (cfg E)).

(** what an operation that sends no DATA frame does *)
Definition quietly c c' w' : Prop :=
  ∃ L', log c' id = log c id ++ L' ∧ payloads L' = [] ∧ send_inv E B w' (log c' id).

Lemma quietly_intro c c' w' L' :
  log c' id = log c id ++ L' → payloads L' = [] → send_inv E B w' (log c id ++ L') → quietly c c' w'.
Proof using. intros Hl Hp Hi. exists L'. by rewrite Hl. Qed.

Lemma win_inv_end w L fs w' ft p :
  win_inv (cfg E) B w L → w.(writeFIN) = false → Forall is_fec fs →
  w' = w <| writeErr := w'.(writeErr) |> <| writeFIN := true |> <| fecLanes := w'.(fecLanes) |> <| fecRowLane := w'.(fecRowLane) |> <| writeCond := w'.(writeCond) |> →
  lanes_ok E w' →
  (ft = frameStreamFIN ∧ p = [] ∨ ft = frameStreamReset ∧ ∃ code, p = resetPayload code) →
  win_inv (cfg E) B w' (L ++ fs ++ [SentReliable ft w.(writeSeq) p]).
Proof using.
  intros [W1 W2 W3 W4 W5 W6 W7 W8 W9 W10] Hopen Hfec Hw' Hl Hft.
  assert (frames (L ++ fs ++ [SentReliable ft w.(writeSeq) p]) = frames L) as Hfr.
  { rewrite app_assoc, frames_app, frames_app_fec by done. apply app_nil_r. }
  assert (payloads (L ++ fs ++ [SentReliable ft w.(writeSeq) p]) = payloads L) as Hpl by (unfold payloads; by rewrite Hfr).
  rewrite Hw'. split; cbn; rewrite ?Hfr, ?Hpl; try done.
  right. exists (L ++ fs), ft, p. split_and!; [|apply Forall_app; split; [by apply W9|]|done].
  - rewrite W2, frames_app_fec, <- app_assoc by done. done.
  - eapply Forall_impl; [exact Hfec|]. by intros [].
Qed.

(** emission of a lane, full or not, once no frame can follow *)
Lemma emit_last c chunks row next ln :
  fits E chunks → 0 < G → Zlen chunks ≤ next → next - stride_of E row < Zlen chunks →
  lane_ok E chunks (stride_of E row) next ln →
  ∃ c' ln' fs, emitLaneLocked id c ln (if row then frameFECRow else frameFEC) = (c', ln') ∧
    log c' id = log c id ++ fs ∧ Forall is_fec fs ∧ Forall (parity_sent E chunks true) fs ∧ ln'.(ln_count) = 0 ∧
    ∀ chunks' next', lane_ok E chunks' (stride_of E row) next' ln'.
Proof using Hcfg.
  intros Hfit HG Hge Hlt Hl. pose proof (lo_count _ _ _ _ _ Hl).
  destruct (decide (ln.(ln_count) = 0)) as [Hz|Hz].
  { rewrite emitLaneLocked_empty by done. eexists _, _, []. rewrite app_nil_r.
    split_and!; [done..|]. intros. by eapply lane_empty. }
  destruct (emitLaneLocked_spec E Hcfg id c chunks (stride_of E row) next ln (if row then frameFECRow else frameFEC))
    as (base & xl & data & ln' & -> & Hpar & Hz' & Hany); [done|unfold stride_of; destruct row; lia|done|done|lia|by right|].
  eexists _, ln', [_]. split_and!; [reflexivity|apply log_fec| | |done|done]; apply Forall_singleton; [done|].
  destruct row; (split_and!; [by auto| |by auto]); [rewrite bool_decide_true by done|rewrite bool_decide_false by done]; done.
Qed.

Lemma emitLanes_spec c chunks lanes :
  fits E chunks → 0 < G →
  Forall (λ ln, ∃ next, Zlen chunks ≤ next < Zlen chunks + G ∧ lane_ok E chunks G next ln) lanes →
  ∃ c' lanes' fs, emitLanes id c lanes = (c', lanes') ∧
    log c' id = log c id ++ fs ∧ Forall is_fec fs ∧ Forall (parity_sent E chunks true) fs ∧
    length lanes' = length lanes ∧
    Forall (λ ln, ln.(ln_count) = 0 ∧ ∀ chunks' next', lane_ok E chunks' G next' ln) lanes'.
Proof using Hcfg.
  intros Hfit HG Hl. revert c. induction Hl as [|ln lanes (next & Hnext & Hln) _ IH]; intros c.
  { eexists c, [], []. by rewrite app_nil_r. }
  destruct (emit_last c chunks false next ln Hfit HG) as (c1 & ln1 & fs1 & H1 & Hlog1 & Hf1 & Hp1 & Hz & Hany);
    [lia|cbn; lia|done|].
  destruct (IH c1) as (c2 & lanes2 & fs2 & H2 & Hlog2 & Hf2 & Hp2 & Hlen & Hall).
  cbn [emitLanes]. rewrite H1, H2. eexists c2, _, (fs1 ++ fs2).
  split_and!; [done|by rewrite Hlog2, Hlog1, app_assoc|by apply Forall_app|by apply Forall_app|cbn; lia|].
  constructor; [|done]. done.
Qed.

Lemma emitLanes_log c lanes : ∃ c' lanes' fs, emitLanes id c lanes = (c', lanes') ∧
  log c' id = log c id ++ fs ∧ Forall is_fec fs ∧ length lanes' = length lanes.
Proof using.
  revert c. induction lanes as [|ln lanes IH]; intros c; [eexists c, [], []; by rewrite app_nil_r|].
  cbn [emitLanes]. destruct (emitLaneLocked_log id c ln frameFEC) as (fs1 & Hlog1 & Hf1).
  destruct (emitLaneLocked id c ln frameFEC) as [c1 ln1]. cbn in Hlog1.
  destruct (IH c1) as (c2 & lanes2 & fs2 & -> & Hlog2 & Hf2 & Hlen).
  eexists c2, _, (fs1 ++ fs2). split_and!; [done|by rewrite Hlog2, Hlog1, app_assoc|by apply Forall_app|cbn; lia].
Qed.

Lemma parity_sent_closed chunks b e : parity_sent E chunks b e → parity_sent E chunks true e.
Proof using. destruct e; cbn; naive_solver. Qed.

(** the lanes of an open stream, as closing finds them *)
Lemma lanes_to_close w L : 0 < G → fec_inv E w L → lanes_ok E w →
  Forall (λ ln, ∃ next, Zlen (payloads L) ≤ next < Zlen (payloads L) + G ∧ lane_ok E (payloads L) G next ln) w.(fecLanes).
Proof using.
  intros HG Hf Hl. apply Forall_lookup_2. intros r ln Hr. destruct (fi_lanes _ _ _ Hf HG r ln Hr) as [Hok _].
  eexists. split; [|exact Hok]. unfold next_col. pose proof (Z.mod_pos_bound (Z.of_nat r - Zlen (payloads L)) G HG). lia.
Qed.

Lemma CloseWrite_fec w L c c1 lanes c2 rl fs1 fs2 w' :
  fec_inv E w L → lanes_ok E w → fits E (payloads L) → Forall is_fec fs1 → Forall is_fec fs2 →
  emitLanes id c w.(fecLanes) = (c1, lanes) → log c1 id = log c id ++ fs1 →
  emitLaneLocked id c1 w.(fecRowLane) frameFECRow = (c2, rl) → log c2 id = log c1 id ++ fs2 →
  w'.(fecLanes) = lanes → w'.(fecRowLane) = rl → w'.(writeFIN) = true →
  fec_inv E w' (L ++ fs1 ++ fs2 ++ [SentReliable frameStreamFIN w.(writeSeq) []]).
Proof using Hcfg.
  intros Hf Hl Hfit Hi1 Hi2 H1 Hlog1 H2 Hlog2 Hw1 Hw2 Hw3.
  assert (payloads (L ++ fs1 ++ fs2 ++ [SentReliable frameStreamFIN w.(writeSeq) []]) = payloads L) as Hpl.
  { rewrite !app_assoc, payloads_app, !payloads_app_fec by done. apply app_nil_r. }
  assert (Forall (parity_sent E (payloads L) true) L) as Hp0.
  { eapply Forall_impl; [exact (fi_par _ _ _ Hf)|]. intros e. apply parity_sent_closed. }
  destruct (decide (0 < G)) as [HG|HG].
  - destruct (emitLanes_spec c (payloads L) w.(fecLanes) Hfit HG (lanes_to_close w L HG Hf Hl))
      as (c1' & lanes' & fs1' & H1' & Hlog1' & _ & Hp1 & _ & Hall).
    rewrite H1 in H1'. injection H1' as <- <-. rewrite Hlog1 in Hlog1'. apply app_inv_head in Hlog1' as <-.
    destruct (fi_row _ _ _ Hf HG) as [Hrow _].
    destruct (emit_last c1 (payloads L) true (Zlen (payloads L)) w.(fecRowLane) Hfit HG)
      as (c2' & rl' & fs2' & H2' & Hlog2' & _ & Hp2 & Hz & Hany); [lia|cbn; lia|done|].
    rewrite H2 in H2'. injection H2' as <- <-. rewrite Hlog2 in Hlog2'. apply app_inv_head in Hlog2' as <-.
    split; rewrite ?Hpl, ?Hw1, ?Hw2, ?Hw3; try (intros; lia).
    + intros _ r ln Hr. rewrite Forall_lookup in Hall. destruct (Hall r ln Hr) as [Hc Hok]. split; [apply Hok|lia].
    + intros _. split; [apply Hany|lia].
    + rewrite !Forall_app. split_and!; try done. by apply Forall_singleton.
  - destruct (fi_off _ _ _ Hf ltac:(lia)) as [Ho1 Ho2]. rewrite Ho1 in H1. cbn in H1. injection H1 as <- <-.
    rewrite emitLaneLocked_empty in H2 by done. injection H2 as <- <-.
    assert (fs1 = []) as -> by (apply (app_inv_head (log c id)); by rewrite app_nil_r).
    assert (fs2 = []) as -> by (apply (app_inv_head (log c id)); by rewrite app_nil_r).
    split; rewrite ?Hpl, ?Hw1, ?Hw2, ?Hw3; try (intros; lia); try done.
    rewrite !Forall_app. split_and!; try done. by apply Forall_singleton.
Qed.

Lemma CloseWrite_spec w c : send_inv E B w (log c id) →
  let '(w', c', _) := CloseWrite id w c in quietly c c' w' ∧ w'.(writeFIN) = true.
Proof using Hcfg.
  intros Hinv. unfold CloseWrite. destruct (_ || _) eqn:Hb.
  { split; [exists []; by rewrite app_nil_r|]. apply orb_true_iff in Hb as [?|Hb%bool_decide_eq_true]; [done|].
    by apply (wi_err _ _ _ _ (proj1 Hinv)). }
  apply orb_false_iff in Hb as [Hopen _]. destruct Hinv as [Hw Hf].
  destruct (emitLanes_log c w.(fecLanes)) as (c1 & lanes & fs1 & H1 & Hlog1 & Hi1 & Hlen).
  cbn. rewrite H1. destruct (emitLaneLocked_log id c1 w.(fecRowLane) frameFECRow) as (fs2 & Hlog2 & Hi2).
  destruct (emitLaneLocked id c1 w.(fecRowLane) frameFECRow) as [c2 rl] eqn:H2. cbn in Hlog2.
  pose proof (log_reliable c2 frameStreamFIN id w.(writeSeq) []) as Hlog3.
  destruct (sendReliableFrame c2 frameStreamFIN id w.(writeSeq) []) as [c3 err]. cbn in Hlog3. cbn.
  split; [|done]. exists (fs1 ++ fs2 ++ [SentReliable frameStreamFIN w.(writeSeq) []]).
  rewrite Hlog3, Hlog2, Hlog1, <- !app_assoc. split_and!; [done| |split].
  - rewrite !payloads_app. unfold payloads. by rewrite !frames_fec by done.
  - rewrite (app_assoc fs1). apply (win_inv_end w); try done; [by apply Forall_app| |by left].
    destruct (wi_lanes _ _ _ _ Hw) as [Hl|Hl]; [left|right]; cbn.
    + rewrite Hl in Hlen. by destruct lanes.
    + unfold Zlen in *. congruence.
  - intros Hgood%good_app. eapply (CloseWrite_fec w (log c id) c c1 lanes c2 rl fs1 fs2); try done.
    + by apply Hf.
    + apply (wi_lanes _ _ _ _ Hw).
    + apply sizes_fit, (wi_sizes _ _ _ _ Hw).
Qed.

Lemma abortWriteLocked_spec w c code : send_inv E B w (log c id) →
  let '(w', c') := abortWriteLocked id w c code true in quietly c c' w' ∧ w'.(writeFIN) = true.
Proof using.
  intros Hinv. unfold abortWriteLocked. destruct (_ || _) eqn:Hb.
  { split; [exists []; by rewrite app_nil_r|]. apply orb_true_iff in Hb as [?|Hb%bool_decide_eq_true]; [done|].
    by apply (wi_err _ _ _ _ (proj1 Hinv)). }
  apply orb_false_iff in Hb as [Hopen _]. destruct Hinv as [Hw Hf].
  cbv beta iota zeta. split; [|done].
  pose proof (log_reliable (purge c id) frameStreamReset id w.(writeSeq) (resetPayload code)) as Hlog.
  rewrite log_purge in Hlog. apply (quietly_intro _ _ _ _ Hlog); [done|]. split.
  - apply (win_inv_end w _ []); try done; [by left|]. right. eauto.
  - intros Hgood%good_app. destruct (Hf Hgood) as [F1 F2 F3 F4 F5].
    assert (payloads (log c id ++ [SentReliable frameStreamReset w.(writeSeq) (resetPayload code)]) = payloads (log c id)) as Hpl.
    { rewrite payloads_app. apply app_nil_r. }
    split; rewrite ?Hpl; try done.
    + intros HG. split; [by apply zeroLane_ok|done].
    + cbn [writeFIN put]. apply Forall_app. split; [|by apply Forall_singleton]. eapply Forall_impl; [exact F5|]. intros e. apply parity_sent_closed.
Qed.

End write.
