(* ===== verification/StreamWriting.v ===== *)
(** * The write side at work

    Runs of a write side, what they guarantee, and the two sides of a stream
    put together. *)
From S2P Require Import Prelude Errors Frame Options Ring StreamRecv Xor RecvLemmas RecvInv StreamDelivery.
From S2P Require Import StreamSend SendLanes SendInv SendRun.

(** ** Runs *)

(** A stream's write side, its connection, and the [Write] calls that wait
    for credit: bytes written so far and bytes left. *)
Record sender (C : Type) := mkSender { sd_w : wside; sd_c : C; sd_waiting : list (Z * list Z) }.
Arguments mkSender {C}. Arguments sd_w {C}. Arguments sd_c {C}. Arguments sd_waiting {C}.

Inductive send_op (C : Type) :=
  | OpWrite (p : list Z)
  | OpWake (k : nat)            (** the k-th waiting [Write] runs again *)
  | OpWindow (offset : Z)
  | OpAcked (n : Z)
  | OpClose
  | OpCancel (code : Z)
  | OpStopSending (code : Z)
  | OpFail (err : go_error)     (** [deliverClose], [deliverError] *)
  | OpDeadline (t : Z)
  | OpOthers (g : C → C).       (** other goroutines use the connection *)
Arguments OpWrite {C}. Arguments OpWake {C}. Arguments OpWindow {C}. Arguments OpAcked {C}. Arguments OpClose {C}.
Arguments OpCancel {C}. Arguments OpStopSending {C}. Arguments OpFail {C}. Arguments OpDeadline {C}. Arguments OpOthers {C}.

(** a pass of a [Write] call: what it had to write, the count it started
    from, how it ended *)
Definition send_obs : Type := option (list Z * Z * write_outcome).

(** the bytes a pass took from its caller *)
Definition taken (o : send_obs) : list Z :=
  match o with Some (p, n, o) => slice p 0 (written o - n) | None => [] end.

Section run.
Context {C : Type} `{SendPathLaws C}.
Context (cf : config) (id : Z).
Implicit Types (sd : sender C).

Definition after_pass (waiting : list (Z * list Z)) (o : write_outcome) : list (Z * list Z) :=
  match o with WBlocked n rest => waiting ++ [(n, rest)] | WDone _ _ => waiting end.

Definition send_step sd (op : send_op C) : option (sender C * send_obs) :=
  let '(mkSender w c ws) := sd in
  match op with
  | OpWrite p =>
      '(w, c, o) ← Write cf id w c p; Some (mkSender w c (after_pass ws o), Some (p, 0, o))
  | OpWake k =>
      match ws !! k with
      | None => Some (sd, None)
      | Some (n, p) =>
          '(w, c, o) ← writeLoop cf id (S (length p)) w c p n;
          Some (mkSender w c (after_pass (delete k ws) o), Some (p, n, o))
      end
  | OpWindow offset => Some (mkSender (setMaxSendOffset w offset) c ws, None)
  | OpAcked n => Some (mkSender (creditAcked w n) c ws, None)
  | OpClose => let '(w, c, _) := stream_Close id w c in Some (mkSender w c ws, None)
  | OpCancel code => let '(w, c) := CancelWrite id w c code in Some (mkSender w c ws, None)
  | OpStopSending code => let '(w, c) := onStopSending id w c code in Some (mkSender w c ws, None)
  | OpFail err => Some (mkSender (failWrite w err) c ws, None)
  | OpDeadline t => Some (mkSender (SetWriteDeadline w t) c ws, None)
  | OpOthers g => Some (mkSender w (g c) ws, None)
  end.

Fixpoint send_run sd (ops : list (send_op C)) : option (sender C * list send_obs) :=
  match ops with
  | [] => Some (sd, [])
  | op :: ops =>
      '(sd, o) ← send_step sd op;
      '(sd, os) ← send_run sd ops;
      Some (sd, o :: os)
  end.

(** other goroutines leave the stream's own frames alone *)
Definition op_ok (op : send_op C) : Prop :=
  match op with OpOthers g => ∀ c, log (g c) id = log c id | _ => True end.
End run.

(** a new stream on connection [c] *)
Definition opened {C} (cf : config) (c : C) : sender C := mkSender (newStream_write cf (streamBufSize cf)) c [].

(** the watermark after the updates of a run *)
Definition watermark {C} (w0 : Z) (ops : list (send_op C)) : Z :=
  foldl (λ m op, match op with OpWindow offset => Z.max m offset | _ => m end) w0 ops.

Section runs.
Context {C : Type} `{SendPathLaws C}.
Context (E : renv) (Hcfg : config_wf E.(cfg)) (id : Z).
Context (Hcap32 : maxPayload (cfg E) < 2 ^ 32).
Context (B : Z) (HB : ∀ c : C, (stream_inFlightCap (cfg E) c).2 ≤ B).
Implicit Types (sd : sender C).

Lemma send_inv_keep w w' L : send_inv E B w L →
  w' = w <| writeErr := w'.(writeErr) |> <| writeFIN := w'.(writeFIN) |> <| maxSendOffset := w'.(maxSendOffset) |>
         <| ackedBytes := w'.(ackedBytes) |> <| writeDeadline := w'.(writeDeadline) |> <| writeCond := w'.(writeCond) |> →
  w.(maxSendOffset) ≤ w'.(maxSendOffset) → w.(ackedBytes) ≤ w'.(ackedBytes) →
  (w.(writeFIN) = true → w'.(writeFIN) = true) → (w'.(writeErr) ≠ None → w'.(writeFIN) = true) → send_inv E B w' L.
Proof using.
  intros [[W1 W2 W3 W4 W5 W6 W7 W8 W9 W10] Hf] Hw Hm Ha Hfin Herr. unfold bytesInFlightLocked in *.
  destruct w as [ws wf we wm wo wa wd wl wr wk], w' as [ws' wf' we' wm' wo' wa' wd' wl' wr' wk']. cbn in *.
  injection Hw as -> -> -> ->. split.
  - split; try done; cbn; [lia|unfold bytesInFlightLocked; cbn; lia|].
    intros ->. apply W9. destruct wf; [|done]. symmetry. by apply Hfin.
  - intros [F1 F2 F3 F4 F5]%Hf. split; try done. cbn in *. destruct wf; [by rewrite Hfin|].
    destruct wf'; [|done]. eapply Forall_impl; [exact F5|]. intros e. apply parity_sent_closed.
Qed.

Lemma send_step_spec sd op : send_inv E B sd.(sd_w) (log sd.(sd_c) id) → op_ok id op →
  ∃ sd' o L', send_step (cfg E) id sd op = Some (sd', o) ∧ log sd'.(sd_c) id = log sd.(sd_c) id ++ L' ∧
    send_inv E B sd'.(sd_w) (log sd'.(sd_c) id) ∧ (Forall accepted L' → concat (payloads L') = taken o).
Proof using Hcap32 Hcfg HB.
  destruct sd as [w c ws]. cbn [sd_w sd_c]. intros Hi Hop.
  assert (∀ w', send_inv E B w' (log c id) → ∃ sd' o L', Some (mkSender w' c ws, None) = Some (sd', o) ∧
    log sd'.(sd_c) id = log c id ++ L' ∧ send_inv E B sd'.(sd_w) (log sd'.(sd_c) id) ∧
    (Forall accepted L' → concat (payloads L') = taken o)) as Hkeep.
  { intros w' Hi'. eexists _, None, []. rewrite app_nil_r. done. }
  assert (∀ w' c', quietly E id B c c' w' → ∃ sd' o L', Some (mkSender w' c' ws, None) = Some (sd', o) ∧
    log sd'.(sd_c) id = log c id ++ L' ∧ send_inv E B sd'.(sd_w) (log sd'.(sd_c) id) ∧
    (Forall accepted L' → concat (payloads L') = taken o)) as Hquiet.
  { intros w' c' (L' & Hl & Hp & Hi'). eexists _, None, L'. split_and!; [done..|]. by rewrite Hp. }
  destruct op as [p|k|offset|n| |code|code|err|t|g]; cbn [send_step].
  - destruct (writeLoop_spec E Hcfg id Hcap32 B HB (S (length p)) w c p 0 ltac:(lia) Hi)
      as (w' & c' & o & L' & Hw & Hl & Hi' & Hwr).
    unfold Write. rewrite Hw. eexists _, _, L'. split_and!; [done..|]. apply (wr_bytes _ _ _ _ Hwr).
  - destruct (ws !! k) as [[n p]|]; [|by apply Hkeep].
    destruct (writeLoop_spec E Hcfg id Hcap32 B HB (S (length p)) w c p n ltac:(lia) Hi)
      as (w' & c' & o & L' & Hw & Hl & Hi' & Hwr).
    rewrite Hw. eexists _, _, L'. split_and!; [done..|]. apply (wr_bytes _ _ _ _ Hwr).
  - apply Hkeep. unfold setMaxSendOffset. case_bool_decide; [|done].
    eapply send_inv_keep; [exact Hi|..]; try done; [cbn; lia|]. apply (wi_err _ _ _ _ (proj1 Hi)).
  - apply Hkeep. unfold creditAcked. case_bool_decide; [done|].
    eapply send_inv_keep; [exact Hi|..]; try done; [cbn; lia|]. apply (wi_err _ _ _ _ (proj1 Hi)).
  - pose proof (CloseWrite_spec E Hcfg id B w c Hi) as Hc. unfold stream_Close.
    destruct (CloseWrite id w c) as [[w' c'] e]. apply Hquiet, Hc.
  - pose proof (abortWriteLocked_spec E id B w c code Hi) as Hc. unfold CancelWrite.
    destruct (abortWriteLocked id w c code true) as [w' c']. apply Hquiet, Hc.
  - pose proof (abortWriteLocked_spec E id B w c code Hi) as Hc. unfold onStopSending.
    destruct (abortWriteLocked id w c code true) as [w' c']. apply Hquiet, Hc.
  - apply Hkeep. unfold failWrite. eapply send_inv_keep; [exact Hi|..]; case_bool_decide; done.
  - apply Hkeep. eapply send_inv_keep; [exact Hi|..]; try done. apply (wi_err _ _ _ _ (proj1 Hi)).
  - apply Hquiet. exists []. cbn in Hop. rewrite Hop, app_nil_r. done.
Qed.

Lemma send_run_spec sd ops : send_inv E B sd.(sd_w) (log sd.(sd_c) id) → Forall (op_ok id) ops →
  ∃ sd' os L', send_run (cfg E) id sd ops = Some (sd', os) ∧ log sd'.(sd_c) id = log sd.(sd_c) id ++ L' ∧
    send_inv E B sd'.(sd_w) (log sd'.(sd_c) id) ∧ (Forall accepted L' → concat (payloads L') = concat (taken <$> os)).
Proof using Hcap32 Hcfg HB.
  intros Hi Hops. revert sd Hi. induction Hops as [|op ops Hop _ IH]; intros sd Hi.
  { eexists _, _, []. rewrite app_nil_r. done. }
  destruct (send_step_spec sd op Hi Hop) as (sd1 & o & L1 & H1 & Hl1 & Hi1 & Hb1).
  destruct (IH sd1 Hi1) as (sd2 & os & L2 & H2 & Hl2 & Hi2 & Hb2).
  cbn [send_run]. rewrite H1. cbn [mbind option_bind]. rewrite H2.
  eexists sd2, _, (L1 ++ L2). split_and!; [done|by rewrite Hl2, Hl1, app_assoc|done|].
  intros [Ha1 Ha2]%Forall_app. rewrite payloads_app, concat_app, (Hb1 Ha1), (Hb2 Ha2). done.
Qed.

End runs.

(** A connection that records what it is handed and answers from a script:
    the errors of successive DATA frames, the in-flight cap, the clock. *)
Record traced := mkTraced { tr_log : list (Z * sent); tr_errs : list (option go_error); tr_cap : Z; tr_now : Z }.
Definition tr_add (c : traced) (sid : Z) (f : sent) : traced :=
  mkTraced (c.(tr_log) ++ [(sid, f)]) c.(tr_errs) c.(tr_cap) c.(tr_now).
Definition tr_err (c : traced) : option go_error := default None (head c.(tr_errs)).
Definition tr_pop (c : traced) : traced := mkTraced c.(tr_log) (tail c.(tr_errs)) c.(tr_cap) c.(tr_now).
(** its caps are at most this *)
Definition tr_limit : Z := 100.
#[export] Instance traced_path : SendPath traced := {|
  sendDataFrame c sid seq p := (tr_pop (tr_add c sid (SentData seq p (tr_err c))), tr_err c);
  sendFecFrame c ftype sid base count xorLen data := (tr_add c sid (SentFec ftype base count xorLen data), None);
  sendReliableFrame c ftype sid seq p := (tr_add c sid (SentReliable ftype seq p), None);
  flushSend c := (c, None);
  purge c sid := c;
  conn_inFlightCap c := (c, Z.min c.(tr_cap) tr_limit);
  conn_now c := (c, c.(tr_now));
|}.
Definition tr_frames (c : traced) (sid : Z) : list sent :=
  omap (λ f, if bool_decide (f.1 = sid) then Some f.2 else None) c.(tr_log).
Lemma tr_frames_add c sid f : tr_frames (tr_add c sid f) sid = tr_frames c sid ++ [f].
Proof. unfold tr_frames, tr_add. cbn. rewrite omap_app. cbn. by rewrite bool_decide_true. Qed.
#[export] Instance traced_laws : SendPathLaws traced.
Proof. refine {| log := tr_frames |}; intros; cbn; try done; apply tr_frames_add. Defined.

(** ** What is sent *)

Lemma opened_inv {C} `{SendPathLaws C} E id B (c : C) :
  config_wf (cfg E) → 0 ≤ B → log c id = [] →
  send_inv E B (opened (cfg E) c).(sd_w) (log (opened (cfg E) c).(sd_c) id).
Proof. intros Hcfg HB Hc. cbn. rewrite Hc. by apply newStream_send_inv. Qed.

(** a whole run from a new stream; the stream buffer bounds what is in flight *)
Lemma send_run_new {C} `{SendPathLaws C} E id (c : C) ops :
  config_wf (cfg E) → maxPayload (cfg E) < 2 ^ 32 → log c id = [] → Forall (op_ok id) ops →
  ∃ sd os, send_run (cfg E) id (opened (cfg E) c) ops = Some (sd, os) ∧
    send_inv E (maxBufSize (cfg E)) sd.(sd_w) (log sd.(sd_c) id) ∧
    (Forall accepted (log sd.(sd_c) id) → concat (payloads (log sd.(sd_c) id)) = concat (taken <$> os)).
Proof.
  intros Hcfg H32 Hc Hops. pose proof (dataCap_bounds E Hcfg).
  destruct (send_run_spec E Hcfg id H32 (maxBufSize (cfg E)) (stream_inFlightCap_le E) (opened (cfg E) c) ops)
    as (sd & os & L' & R1 & R2 & R3 & R4); [|done|].
  { apply opened_inv; [done| |done]. unfold maxBufSize. case_bool_decide; lia. }
  cbn in R2. rewrite Hc in R2. cbn in R2. exists sd, os. split_and!; [done|done|]. by rewrite R2.
Qed.

Lemma ending_fin L seq p : ending L → SentReliable frameStreamFIN seq p ∈ L → seq = u32 (Zlen (frames L)) ∧ p = [].
Proof.
  intros [Hn|(L1 & ft & q & -> & Hn & Hft)] Hin.
  - rewrite Forall_forall in Hn. by apply Hn in Hin.
  - rewrite frames_app. cbn. rewrite app_nil_r. rewrite Forall_forall in Hn.
    apply elem_of_app in Hin as [Hin|Hin%list_elem_of_singleton]; [by apply Hn in Hin|].
    injection Hin as <- -> ->. by destruct Hft as [[_ ->]|[? _]].
Qed.

(** what a good run has sent *)
Record sent_ok (E : renv) (L : list sent) (bytes : list Z) : Prop := mkSentOk {
  sk_sender : sender_ok E (payloads L);
  sk_bytes : concat (payloads L) = bytes;
  sk_seqs : ∀ k f, frames L !! k = Some f → f.1 = Z.of_nat k;
  sk_fin : ∀ seq p, SentReliable frameStreamFIN seq p ∈ L → seq = Zlen (payloads L) ∧ p = [];
  sk_parity : ∀ ftype base count xorLen data, SentFec ftype base count xorLen data ∈ L →
    (ftype = frameFEC ∨ ftype = frameFECRow) ∧
    parity_ok E (payloads L) (stride_of E (bool_decide (ftype = frameFECRow))) base count xorLen data;
}.

Lemma send_inv_sent_ok E B w L bytes : config_wf (cfg E) → maxPayload (cfg E) < 2 ^ 32 →
  send_inv E B w L → good L → concat (payloads L) = bytes → sent_ok E L bytes.
Proof.
  intros Hcfg H32 [Hw Hf] Hgood Hb. pose proof (proj2 Hgood) as Hnum. pose proof (Zlen_payloads L) as Hz.
  split; [split| | | |]; try done.
  - apply (wi_sizes _ _ _ _ Hw).
  - intros k f Hk. rewrite (wi_seqs _ _ _ _ Hw k f Hk). apply lookup_lt_Some in Hk. apply u32_id.
    unfold Zlen in *. split; lia.
  - intros seq p Hin. destruct (ending_fin L seq p (wi_end _ _ _ _ Hw) Hin) as [-> ->]. split; [|done].
    rewrite Hz. apply u32_id. rewrite <- Hz. split; [apply Zlen_nonneg|lia].
  - intros ft base count xl data Hin. pose proof (fi_par _ _ _ (Hf Hgood)) as Hp.
    rewrite Forall_forall in Hp. destruct (Hp _ Hin) as (? & ? & _). done.
Qed.

(** C8: what goes on the wire is what was written.  After any sequence of
    operations on a new stream, as long as the connection refused no DATA
    frame: the DATA frames are numbered consecutively from 0 and carry,
    concatenated, exactly the bytes the [Write] calls counted as written; each
    fits a frame; a FIN sits right after the last of them; and every column
    or row parity frame covers full groups of these frames, or the last group
    closed early. *)
Theorem sent_frames_consistent {C} `{SendPathLaws C} E id (c : C) ops :
  config_wf (cfg E) → maxPayload (cfg E) < 2 ^ 32 → log c id = [] → Forall (op_ok id) ops →
  ∃ sd os, send_run (cfg E) id (opened (cfg E) c) ops = Some (sd, os) ∧
    (good (log sd.(sd_c) id) → sent_ok E (log sd.(sd_c) id) (concat (taken <$> os))).
Proof.
  intros Hcfg H32 Hc Hops. destruct (send_run_new E id c ops Hcfg H32 Hc Hops) as (sd & os & R1 & R2 & R3).
  exists sd, os. split; [done|]. intros Hgood. eapply send_inv_sent_ok; try done. apply R3, Hgood.
Qed.

(** Two writes, the second of which waits for the peer's window, then a
    close, with parity groups of two. *)
Definition witness_conn : traced := mkTraced [] [] 100 0.
Definition witness_ops : list (send_op traced) :=
  [ OpWrite [1; 2; 3; 4; 5; 6; 7; 8; 9; 10; 11]; OpWrite [12; 13; 14; 15; 16; 17; 18; 19; 20; 21; 22; 23; 24; 25; 26];
    OpOthers (λ c, tr_add c 7 (SentData 0 [99] None)); OpWindow 40; OpAcked 8; OpWake 0; OpClose ].
Definition witness_sent : list sent :=
  [ SentData 0 [1; 2; 3; 4; 5; 6; 7; 8] None; SentData 1 [9; 10; 11] None;
    SentFec frameFECRow 0 2 11 [8; 8; 8; 4; 5; 6; 7; 8];
    SentData 2 [12; 13; 14; 15; 16; 17; 18; 19] None;
    SentFec frameFEC 0 2 0 [13; 15; 13; 11; 21; 23; 21; 27];
    SentData 3 [20; 21; 22; 23; 24; 25; 26] None;
    SentFec frameFEC 1 2 4 [29; 31; 29; 23; 24; 25; 26];
    SentFec frameFECRow 2 2 15 [24; 24; 24; 24; 8; 8; 8; 19];
    SentReliable frameStreamFIN 4 [] ].

Lemma witness_ops_ok : Forall (op_ok 5) witness_ops.
Proof.
  repeat apply Forall_cons_2; try done. intros c. unfold log, tr_frames, tr_add. cbn.
  rewrite omap_app. cbn. by rewrite app_nil_r.
Qed.
Lemma witness_cfg : config_wf (cfg witness_env) ∧ maxPayload (cfg witness_env) < 2 ^ 32.
Proof. destruct witness_sender_ok. done. Qed.
Lemma witness_conn_new : log witness_conn 5 = [].
Proof. reflexivity. Qed.
Lemma witness_good : good witness_sent.
Proof. split; [repeat apply Forall_cons_2; done|done]. Qed.

Lemma witness_run : ∃ sd os,
  send_run (cfg witness_env) 5 (opened (cfg witness_env) witness_conn) witness_ops = Some (sd, os) ∧
  log sd.(sd_c) 5 = witness_sent ∧ concat (taken <$> os) = seqZ 1 26 ∧
  sd.(sd_w).(maxSendOffset) = 40 ∧ sd.(sd_w).(writeFIN) = true ∧ sd.(sd_w).(writeErr) = None.
Proof.
  destruct (send_run (cfg witness_env) 5 (opened (cfg witness_env) witness_conn) witness_ops) as [[sd os]|] eqn:Hrun;
    vm_compute in Hrun; [|done].
  injection Hrun as <- <-. eexists _, _. split; [reflexivity|]. split_and!; reflexivity.
Qed.

Lemma sent_frames_consistent_witness :
  ∃ sd os, send_run (cfg witness_env) 5 (opened (cfg witness_env) witness_conn) witness_ops = Some (sd, os) ∧
    log sd.(sd_c) 5 = witness_sent ∧ sent_ok witness_env witness_sent (seqZ 1 26).
Proof.
  destruct (sent_frames_consistent witness_env 5 witness_conn witness_ops (proj1 witness_cfg) (proj2 witness_cfg)
              witness_conn_new witness_ops_ok) as (sd & os & Hrun & Hok).
  destruct witness_run as (sd' & os' & Hrun' & Hlog & Hb & _). rewrite Hrun in Hrun'. injection Hrun' as <- <-.
  exists sd, os. rewrite Hlog, Hb in Hok. split_and!; [done|done|]. apply Hok, witness_good.
Defined.

(** ** End to end *)

(** The network hands a receiver what the sender sent: any of its frames, any
    number of times, in any order. *)
Definition arrives (E : renv) (L : list sent) (ev : recv_event) : Prop :=
  match ev with
  | EvData seq => ∃ p, (seq, p) ∈ frames L
  | EvFin => ∃ seq, SentReliable frameStreamFIN seq [] ∈ L
  | EvParity row base count xorLen data =>
      0 < fecGroup (cfg E) ∧ SentFec (if row then frameFECRow else frameFEC) base count xorLen data ∈ L
  | EvRead plen => 0 ≤ plen
  | _ => True
  end.

Lemma arrives_ok E L bytes ev : sent_ok E L bytes → arrives E L ev → event_ok E (payloads L) ev.
Proof.
  intros [S1 S2 S3 S4 S5]. destruct ev as [seq| |row base count xl data|plen|now| |t]; cbn; try done.
  - intros [p Hp]. apply list_elem_of_lookup in Hp as [k Hk]. specialize (S3 k _ Hk). cbn in S3. subst.
    apply lookup_lt_Some in Hk. rewrite Zlen_payloads. unfold Zlen. lia.
  - intros [HG Hin]. split; [done|]. destruct (S5 _ _ _ _ _ Hin) as [_ Hp]. by destruct row.
Qed.

(** End to end, at the level of one stream: a sender's stream, run through
    any operations, and a receiver that gets the sender's frames through a
    network that loses, duplicates and reorders them at will, parity
    included.  The bytes the receiving application reads are a prefix of the
    bytes the sending application wrote, and end-of-file is reported only
    after all of them have been read. *)
Theorem end_to_end {C} `{SendPathLaws C} E id (c : C) ops evs now sd os :
  config_wf (cfg E) → maxPayload (cfg E) < 2 ^ 32 → log c id = [] → Forall (op_ok id) ops →
  send_run (cfg E) id (opened (cfg E) c) ops = Some (sd, os) → good (log sd.(sd_c) id) →
  Forall (arrives E (log sd.(sd_c) id)) evs →
  ∃ s obs, recv_run E (payloads (log sd.(sd_c) id)) (newStream_read E (streamBufSize (cfg E)) now) evs = Some (s, obs) ∧
    bytes_read obs `prefix_of` concat (taken <$> os) ∧
    ∀ k e, obs !! k = Some (ObsRead (ReadErr e)) →
      e = errDeadlineExceeded ∨ e = io_EOF ∧ bytes_read (take k obs) = concat (taken <$> os).
Proof.
  intros Hcfg H32 Hc Hops Hrun Hgood Hev.
  destruct (send_run_new E id c ops Hcfg H32 Hc Hops) as (sd' & os' & R1 & R2 & R3).
  rewrite Hrun in R1. injection R1 as <- <-.
  assert (sent_ok E (log sd.(sd_c) id) (concat (taken <$> os))) as Hs.
  { eapply send_inv_sent_ok; try done. apply R3, Hgood. }
  destruct (recv_run_new E _ (sk_sender _ _ _ Hs) evs now) as (s & obs & Hr & Hi & _ & Herr).
  { eapply Forall_impl; [exact Hev|]. intros ev. by eapply arrives_ok. }
  exists s, obs. split; [done|]. rewrite <- (sk_bytes _ _ _ Hs). split; [|done].
  pose proof (ri_data _ _ _ _ Hi) as Hd. cbn in Hd.
  exists (contents s.(rg) ++ concat (drop (Z.to_nat s.(readSeq)) (payloads (log sd.(sd_c) id)))).
  rewrite app_assoc, Hd. unfold first_chunks. by rewrite <- concat_app, take_drop.
Qed.

(** Frame 2 is lost for good; the column parity of 0 and 2 stands in. *)
Definition witness_network : list recv_event :=
  [ EvData 3; EvFin; EvData 0; EvParity false 0 2 0 [13; 15; 13; 11; 21; 23; 21; 27]; EvRead 5; EvData 3; EvData 1;
    EvRead 24; EvRead 24; EvRead 1 ].
Lemma witness_network_ok : Forall (arrives witness_env witness_sent) witness_network.
Proof.
  unfold witness_network. repeat apply Forall_cons_2; try done; cbn [arrives].
  - exists [20; 21; 22; 23; 24; 25; 26]. repeat first [apply list_elem_of_here|apply list_elem_of_further].
  - exists 4. repeat first [apply list_elem_of_here|apply list_elem_of_further].
  - exists [1; 2; 3; 4; 5; 6; 7; 8]. repeat first [apply list_elem_of_here|apply list_elem_of_further].
  - split; [done|]. repeat first [apply list_elem_of_here|apply list_elem_of_further].
  - exists [20; 21; 22; 23; 24; 25; 26]. repeat first [apply list_elem_of_here|apply list_elem_of_further].
  - exists [9; 10; 11]. repeat first [apply list_elem_of_here|apply list_elem_of_further].
Qed.
Lemma end_to_end_witness : ∃ s obs,
  recv_run witness_env (payloads witness_sent) (newStream_read witness_env 24 7) witness_network = Some (s, obs) ∧
  bytes_read obs `prefix_of` seqZ 1 26 ∧
  ∀ k e, obs !! k = Some (ObsRead (ReadErr e)) →
    e = errDeadlineExceeded ∨ e = io_EOF ∧ bytes_read (take k obs) = seqZ 1 26.
Proof.
  destruct witness_run as (sd & os & Hrun & Hlog & Hb & _). rewrite <- Hb, <- Hlog.
  apply (end_to_end witness_env 5 witness_conn witness_ops witness_network 7 sd os (proj1 witness_cfg) (proj2 witness_cfg)
           witness_conn_new witness_ops_ok Hrun).
  - rewrite Hlog. exact witness_good.
  - rewrite Hlog. exact witness_network_ok.
Defined.

(** the network above in full: everything is read, then end-of-file *)
Example witness_network_reads :
  bytes_read <$> (snd <$> recv_run witness_env (payloads witness_sent) (newStream_read witness_env 24 7) witness_network)
  = Some (seqZ 1 26).
Proof. vm_compute. reflexivity. Qed.

(** ** Limits *)

Lemma fecFoldLocked_frame {C} `{SendPathLaws C} cf id w (c : C) seq x w' c' :
  fecFoldLocked cf id w c seq x = Some (w', c') →
  w'.(maxSendOffset) = w.(maxSendOffset) ∧ w'.(writeFIN) = w.(writeFIN) ∧ w'.(writeErr) = w.(writeErr) ∧
  w'.(sentOffset) = w.(sentOffset) ∧ w'.(ackedBytes) = w.(ackedBytes).
Proof.
  unfold fecFoldLocked. case_bool_decide; [by intros [= <- <-]|].
  set (w0 := if Zlen w.(fecLanes) =? 0 then _ else w).
  assert (w0 = w <| fecLanes := w0.(fecLanes) |>) as Hw0 by (unfold w0; destruct w; cbn; by case_bool_decide).
  rewrite Hw0. clearbody w0. cbn. destruct (fecLanes w0 !! _) as [ln|]; [|done]. cbn.
  destruct (foldLaneLocked _ _ _ _ _ _ _) as [c1 l1]. destruct (fec2D cf).
  - destruct (foldLaneLocked _ _ _ _ _ _ _) as [c2 l2]. by intros [= <- <-].
  - by intros [= <- <-].
Qed.

Lemma writeLoop_frame {C} `{SendPathLaws C} cf id fuel w (c : C) p n w' c' o :
  writeLoop cf id fuel w c p n = Some (w', c', o) →
  w'.(maxSendOffset) = w.(maxSendOffset) ∧ w'.(writeFIN) = w.(writeFIN) ∧ w'.(writeErr) = w.(writeErr).
Proof.
  revert w c p n. induction fuel as [|fuel IH]; intros w c p n; cbn [writeLoop]; [done|].
  destruct (Zlen p =? 0); [destruct (flushSend c); by intros [= <- <- <-]|].
  set (m := if Zlen p >? dataCap cf then dataCap cf else Zlen p). clearbody m.
  destruct (mustWait cf w c m) as [c1 wait]. destruct wait.
  { destruct (flushSend c1) as [c2 ?]. destruct (negb (time_IsZero _)); [|by intros [= <- <- <-]].
    destruct (conn_now c2). destruct (negb (time_Before _ _)); by intros [= <- <- <-]. }
  destruct (bool_decide _); [destruct (flushSend c1); by intros [= <- <- <-]|].
  destruct (writeFIN w) eqn:Hfin; [destruct (flushSend c1); by intros [= <- <- <-]|].
  cbv zeta. destruct (sendDataFrame _ _ _ _) as [c2 [e|]]; [destruct (flushSend c2); by intros [= <- <- <-]|].
  destruct (fecFoldLocked cf id _ c2 _ _) as [[w3 c3]|] eqn:Hfold; [|done]. cbn [mbind option_bind].
  apply fecFoldLocked_frame in Hfold as (F1 & F2 & F3 & _). intros (G1 & G2 & G3)%IH.
  rewrite G1, G2, G3, F1, F2, F3. cbn. by rewrite Hfin.
Qed.

Lemma abortWriteLocked_frame {C} `{SendPathLaws C} id w (c : C) code sr :
  (abortWriteLocked id w c code sr).1.(maxSendOffset) = w.(maxSendOffset).
Proof. unfold abortWriteLocked. destruct (_ || _); [done|]. by destruct sr. Qed.

Lemma CloseWrite_frame {C} `{SendPathLaws C} id w (c : C) :
  (CloseWrite id w c).1.1.(maxSendOffset) = w.(maxSendOffset).
Proof.
  unfold CloseWrite. destruct (_ || _); [done|]. cbn. destruct (emitLanes _ _ _). cbn.
  destruct (emitLaneLocked _ _ _ _). by destruct (sendReliableFrame _ _ _ _ _).
Qed.

Lemma send_run_watermark {C} `{SendPathLaws C} cf id (sd : sender C) ops sd' os :
  send_run cf id sd ops = Some (sd', os) → sd'.(sd_w).(maxSendOffset) = watermark sd.(sd_w).(maxSendOffset) ops.
Proof.
  revert sd os. induction ops as [|op ops IH]; intros sd os; cbn [send_run]; [by intros [= <- <-]|].
  destruct (send_step cf id sd op) as [[sd1 o]|] eqn:Hstep; [|done]. cbn [mbind option_bind].
  destruct (send_run cf id sd1 ops) as [[sd2 os2]|] eqn:Hrun; [|done]. intros [= <- <-]. rewrite (IH _ _ Hrun).
  unfold watermark. cbn [foldl]. f_equal. revert Hstep. destruct sd as [w c ws].
  destruct op as [p|k|offset|n| |code|code|err|t|g]; cbn [send_step].
  - unfold Write. destruct (writeLoop _ _ _ _ _ _ _) as [[[w1 c1] o1]|] eqn:Hw; [|done]. intros [= <- <-].
    apply writeLoop_frame in Hw as (? & _). done.
  - destruct (ws !! k) as [[n p]|]; [|by intros [= <- <-]].
    destruct (writeLoop _ _ _ _ _ _ _) as [[[w1 c1] o1]|] eqn:Hw; [|done]. intros [= <- <-].
    apply writeLoop_frame in Hw as (? & _). done.
  - intros [= <- <-]. cbn. unfold setMaxSendOffset. case_bool_decide; cbn; lia.
  - intros [= <- <-]. cbn. unfold creditAcked. by case_bool_decide.
  - pose proof (CloseWrite_frame id w c) as Hc. unfold stream_Close. destruct (CloseWrite id w c) as [[w1 c1] e]. by intros [= <- <-].
  - pose proof (abortWriteLocked_frame id w c code true) as Hc. unfold CancelWrite. destruct (abortWriteLocked _ _ _ _ _). by intros [= <- <-].
  - pose proof (abortWriteLocked_frame id w c code true) as Hc. unfold onStopSending. destruct (abortWriteLocked _ _ _ _ _). by intros [= <- <-].
  - intros [= <- <-]. cbn. unfold failWrite. by case_bool_decide.
  - by intros [= <- <-].
  - by intros [= <- <-].
Qed.

(** C26: a sender stays within its limits.  Whatever happens, refused frames
    included: the bytes handed to the connection never exceed the highest
    watermark the peer has granted, counting from the initial window; the
    watermark only moves up, however updates are reordered or repeated; and
    the bytes sent and not acknowledged never exceed a bound on the
    connection's in-flight cap, nor the stream buffer. *)
Theorem send_within_limits {C} `{SendPathLaws C} E id (c : C) ops sd os B :
  config_wf (cfg E) → maxPayload (cfg E) < 2 ^ 32 → log c id = [] → Forall (op_ok id) ops →
  0 ≤ B → (∀ c, (conn_inFlightCap c).2 ≤ B) →
  send_run (cfg E) id (opened (cfg E) c) ops = Some (sd, os) →
  let w := sd.(sd_w) in
  Zlen (concat (payloads (log sd.(sd_c) id))) = w.(sentOffset) ∧
  w.(sentOffset) ≤ w.(maxSendOffset) ∧
  w.(maxSendOffset) = watermark (newStream_write (cfg E) (streamBufSize (cfg E))).(maxSendOffset) ops ∧
  bytesInFlightLocked w ≤ Z.min B (maxBufSize (cfg E)).
Proof.
  intros Hcfg H32 Hc Hops HB Hcap Hrun. pose proof (dataCap_bounds E Hcfg).
  assert (0 ≤ Z.min B (maxBufSize (cfg E))) as HB' by (unfold maxBufSize; case_bool_decide; lia).
  destruct (send_run_spec E Hcfg id H32 (Z.min B (maxBufSize (cfg E)))) with (sd := opened (cfg E) c) (ops := ops)
    as (sd' & os' & L' & R1 & _ & [Hw _] & _); [|by apply opened_inv|done|].
  { intros c1. pose proof (stream_inFlightCap_le E c1). unfold stream_inFlightCap in *. specialize (Hcap c1).
    destruct (conn_inFlightCap c1) as [c2 k]. cbn in *. case_bool_decide; lia. }
  rewrite Hrun in R1. injection R1 as <- <-. cbv zeta. split_and!.
  - by rewrite (wi_sent _ _ _ _ Hw).
  - apply (wi_credit _ _ _ _ Hw).
  - apply (send_run_watermark _ _ _ _ _ _ Hrun).
  - apply (wi_flight _ _ _ _ Hw).
Qed.

(** the second frame is refused, and the in-flight cap stops the second write *)
Definition witness_lossy : traced := mkTraced [] [None; Some (ErrErrno 105)] 18 0.
Lemma send_within_limits_witness : ∃ sd os,
  send_run (cfg witness_env) 5 (opened (cfg witness_env) witness_lossy) witness_ops = Some (sd, os) ∧
  sd.(sd_w).(sentOffset) ≤ sd.(sd_w).(maxSendOffset) ∧ bytesInFlightLocked sd.(sd_w) ≤ 24.
Proof.
  assert (∃ sd os, send_run (cfg witness_env) 5 (opened (cfg witness_env) witness_lossy) witness_ops = Some (sd, os))
    as (sd & os & Hrun).
  { vm_compute. eexists _, _. reflexivity. }
  exists sd, os. split; [done|].
  destruct (send_within_limits witness_env 5 witness_lossy witness_ops sd os tr_limit (proj1 witness_cfg) (proj2 witness_cfg))
    as (_ & H1 & _ & H2); [reflexivity|exact witness_ops_ok|done|intros c; cbn; lia|exact Hrun|].
  split; [exact H1|]. etransitivity; [exact H2|]. done.
Defined.

(** ** The end of a write direction *)

(** the error a closed write direction reports *)
Definition closed_error (w : wside) : go_error := default ErrStreamFIN w.(writeErr).

Lemma writeLoop_closed {C} `{SendPathLaws C} cf id w (c : C) p n : p ≠ [] → w.(writeFIN) = true →
  ∃ c', writeLoop cf id (S (length p)) w c p n = Some (w, c', WDone n (Some (closed_error w))) ∧ log c' id = log c id.
Proof.
  intros Hp Hfin. cbn [writeLoop]. rewrite bool_decide_false by (intros ?%Zlen_0; done).
  set (m := if Zlen p >? dataCap cf then dataCap cf else Zlen p). clearbody m.
  unfold mustWait. rewrite Hfin, orb_true_r. pose proof (log_flush c id) as Hl. destruct (flushSend c) as [c1 e1]. exists c1.
  unfold closed_error. destruct (writeErr w) as [e|]; [rewrite bool_decide_true by done|rewrite bool_decide_false by congruence]; done.
Qed.
Lemma writeLoop_empty {C} `{SendPathLaws C} cf id w (c : C) n :
  ∃ c' e, writeLoop cf id 1 w c [] n = Some (w, c', WDone n e) ∧ log c' id = log c id.
Proof.
  cbn [writeLoop]. rewrite bool_decide_true by done. pose proof (log_flush c id) as Hl.
  destruct (flushSend c) as [c1 e1]. by exists c1, e1.
Qed.

(** a pass of [Write] on a closed direction *)
Definition refused (w : wside) (o : send_obs) : Prop :=
  match o with Some (p, n, o) => p ≠ [] → o = WDone n (Some (closed_error w)) | None => True end.

Lemma send_step_closed {C} `{SendPathLaws C} cf id (sd : sender C) op :
  sd.(sd_w).(writeFIN) = true → op_ok id op →
  ∃ sd' o, send_step cf id sd op = Some (sd', o) ∧ log sd'.(sd_c) id = log sd.(sd_c) id ∧
    sd'.(sd_w).(writeFIN) = true ∧ refused sd.(sd_w) o.
Proof.
  destruct sd as [w c ws]. cbn [sd_w sd_c]. intros Hfin Hop.
  assert (∀ p n, ∃ c' o, writeLoop cf id (S (length p)) w c p n = Some (w, c', o) ∧ log c' id = log c id ∧
    refused w (Some (p, n, o))) as Hpass.
  { intros p n. destruct (decide (p = [])) as [->|Hp].
    - destruct (writeLoop_empty cf id w c n) as (c' & e & Hw & Hl). eexists _, _. split_and!; [done|done|]. by intros ?.
    - destruct (writeLoop_closed cf id w c p n Hp Hfin) as (c' & Hw & Hl). eexists _, _. split_and!; [done|done|]. by intros _. }
  destruct op as [p|k|offset|n| |code|code|err|t|g]; cbn [send_step].
  - destruct (Hpass p 0) as (c' & o & Hw & Hl & Hr). unfold Write. rewrite Hw. by eexists _, _.
  - destruct (ws !! k) as [[n p]|]; [|by eexists _, _].
    destruct (Hpass p n) as (c' & o & Hw & Hl & Hr). rewrite Hw. by eexists _, _.
  - eexists _, _. split_and!; try done. cbn. unfold setMaxSendOffset. by case_bool_decide.
  - eexists _, _. split_and!; try done. cbn. unfold creditAcked. by case_bool_decide.
  - unfold stream_Close, CloseWrite. rewrite Hfin. by eexists _, _.
  - unfold CancelWrite, abortWriteLocked. rewrite Hfin. by eexists _, _.
  - unfold onStopSending, abortWriteLocked. rewrite Hfin. by eexists _, _.
  - eexists _, _. split_and!; done.
  - eexists _, _. split_and!; done.
  - cbn in Hop. eexists _, _. split; [done|]. cbn. by rewrite Hop.
Qed.

(** C27: a write direction ends once.  In any run, refused frames included, at
    most one of FIN and RESET is sent, its sequence number is that of the
    next DATA frame, and no DATA or parity frame follows it.  From then on
    (or from a tear-down on) nothing more is sent whatever is called, and
    every [Write] of at least a byte fails at once, with the error that ended
    the direction, without counting a byte. *)
Theorem write_ends_once {C} `{SendPathLaws C} E id (c : C) ops sd os op :
  config_wf (cfg E) → maxPayload (cfg E) < 2 ^ 32 → log c id = [] → Forall (op_ok id) ops → op_ok id op →
  send_run (cfg E) id (opened (cfg E) c) ops = Some (sd, os) →
  ending (log sd.(sd_c) id) ∧
  (¬ Forall not_reliable (log sd.(sd_c) id) → sd.(sd_w).(writeFIN) = true) ∧
  (sd.(sd_w).(writeFIN) = true →
   ∃ sd' o, send_step (cfg E) id sd op = Some (sd', o) ∧ log sd'.(sd_c) id = log sd.(sd_c) id ∧
     sd'.(sd_w).(writeFIN) = true ∧ refused sd.(sd_w) o).
Proof.
  intros Hcfg H32 Hc Hops Hop Hrun.
  destruct (send_run_new E id c ops Hcfg H32 Hc Hops) as (sd' & os' & R1 & [Hw _] & _).
  rewrite Hrun in R1. injection R1 as <- <-. split_and!.
  - apply (wi_end _ _ _ _ Hw).
  - intros Hnr. destruct (writeFIN (sd_w sd)) eqn:Hfin; [done|]. by destruct Hnr; apply (wi_open _ _ _ _ Hw).
  - intros Hfin. by apply send_step_closed.
Qed.

Lemma write_ends_once_witness : ∃ sd os,
  send_run (cfg witness_env) 5 (opened (cfg witness_env) witness_conn) witness_ops = Some (sd, os) ∧
  ∃ sd' o, send_step (cfg witness_env) 5 sd (OpWrite [1]) = Some (sd', o) ∧ log sd'.(sd_c) 5 = witness_sent ∧
    refused sd.(sd_w) o.
Proof.
  destruct witness_run as (sd & os & Hrun & Hlog & _ & _ & Hfin & _). exists sd, os. split; [done|].
  destruct (write_ends_once witness_env 5 witness_conn witness_ops sd os (OpWrite [1]) (proj1 witness_cfg) (proj2 witness_cfg)
              witness_conn_new witness_ops_ok I Hrun) as (_ & _ & Hend).
  destruct (Hend Hfin) as (sd' & o & H1 & H2 & _ & H3). exists sd', o. rewrite Hlog in H2. split_and!; [exact H1|exact H2|exact H3].
Defined.

(** ** The results of [Write] *)

(** how a pass of [Write] over [p], from [n] bytes written, may end *)
Definition outcome_ok {C} `{SendPathLaws C} (cf : config) (id : Z) (w' : wside) (c' : C) (p : list Z) (n : Z)
    (o : write_outcome) : Prop :=
  match o with
  | WDone k None => k = n + Zlen p
  | WDone k (Some e) =>
      n ≤ k ≤ n + Zlen p ∧
      (k = n + Zlen p ∨
       e = errDeadlineExceeded ∧ w'.(writeDeadline) ≠ 0 ∧
         (∃ c0 : C, c' = (conn_now c0).1 ∧ w'.(writeDeadline) ≤ (conn_now c0).2) ∨    (* the last thing done: the clock was read *)
       w'.(writeFIN) = true ∧ e = closed_error w' ∨
       ∃ seq x, SentData seq x (Some e) ∈ log c' id)
  | WBlocked k rest =>
      n ≤ k ≤ n + Zlen p ∧ rest = slice p (k - n) (Zlen p) ∧ rest ≠ [] ∧ w'.(writeFIN) = false ∧
      let m := Z.min (dataCap cf) (Zlen rest) in
      w'.(maxSendOffset) - w'.(sentOffset) < m ∨ ∃ c : C, (stream_inFlightCap cf c).2 < bytesInFlightLocked w' + m
  end.

Lemma writeLoop_outcome {C} `{SendPathLaws C} cf id fuel w (c : C) p n w' c' o :
  0 < dataCap cf → (w.(writeErr) ≠ None → w.(writeFIN) = true) →
  writeLoop cf id fuel w c p n = Some (w', c', o) → outcome_ok cf id w' c' p n o.
Proof.
  intros Hcap. revert w c p n. induction fuel as [|fuel IH]; intros w c p n Hce; cbn [writeLoop]; [done|].
  pose proof (Zlen_nonneg p) as Hp.
  destruct (decide (Zlen p = 0)) as [Hz|Hz]; [rewrite (bool_decide_true _ Hz)|rewrite (bool_decide_false _ Hz)].
  { destruct (flushSend c) as [c1 e]. intros [= <- <- <-]. destruct e; cbn; [split; [lia|]|]; lia. }
  set (m := if Zlen p >? dataCap cf then dataCap cf else Zlen p).
  assert (m = Z.min (dataCap cf) (Zlen p)) as Hm by (unfold m; case_bool_decide; lia). clearbody m.
  destruct (mustWait cf w c m) as [c1 wait] eqn:Hmw. destruct wait.
  { assert (w.(writeFIN) = false ∧
            (w.(maxSendOffset) - w.(sentOffset) < m ∨ ∃ c : C, (stream_inFlightCap cf c).2 < bytesInFlightLocked w + m)) as [Hfin Hwhy].
    { revert Hmw. unfold mustWait. destruct (_ || _) eqn:Hb; [done|]. apply orb_false_iff in Hb as [_ Hfin].
      destruct (_ <? m) eqn:Hcr; [apply bool_decide_eq_true in Hcr; by auto|].
      destruct (stream_inFlightCap cf c) as [c2 k] eqn:Hk. intros [= _ Hgt]. apply bool_decide_eq_true in Hgt.
      split; [done|]. right. exists c. rewrite Hk. cbn. lia. }
    assert (outcome_ok cf id w c1 p n (WBlocked n p)) as Hblk.
    { cbn. rewrite Z.sub_diag, slice_all, <- Hm. split_and!; [lia|lia|done| |done|done]. intros ->. done. }
    destruct (flushSend c1) as [c2 e]. destruct (negb (time_IsZero (writeDeadline w))) eqn:Hdl; [|by intros [= <- <- <-]].
    destruct (conn_now c2) as [c3 now] eqn:Hcn. destruct (negb (time_Before _ _)) eqn:Hlate; [|by intros [= <- <- <-]].
    intros [= <- <- <-]. cbn. split; [lia|]. right. left. split; [done|].
    unfold time_IsZero, time_Before in *. apply negb_true_iff, bool_decide_eq_false in Hdl, Hlate. split; [done|].
    exists c2. rewrite Hcn. cbn. split; [done|lia]. }
  destruct (bool_decide (writeErr w ≠ None)) eqn:He.
  { apply bool_decide_eq_true in He. destruct (flushSend c1) as [c2 e]. intros [= <- <- <-].
    unfold outcome_ok. destruct (writeErr w) as [e'|] eqn:Hwe; [|done]. split; [lia|]. right; right; left.
    unfold closed_error. rewrite Hwe. auto. }
  apply bool_decide_eq_false, dec_stable in He.
  destruct (writeFIN w) eqn:Hfin.
  { destruct (flushSend c1) as [c2 e]. intros [= <- <- <-]. cbn. split; [lia|]. right; right; left.
    unfold closed_error. by rewrite He. }
  assert (Zlen (slice p 0 m) = m) as Hlen by (rewrite Zlen_slice; lia).
  cbv zeta. pose proof (log_data c1 id (writeSeq w) (slice p 0 m)) as Hlog.
  change (writeSeq (w <| sentOffset := _ |>)) with (writeSeq w).
  destruct (sendDataFrame c1 id (writeSeq w) (slice p 0 m)) as [c2 [e|]]; cbn in Hlog.
  { pose proof (log_flush c2 id) as Hl. destruct (flushSend c2) as [c3 e3]. intros [= <- <- <-]. cbn in Hl. cbn.
    split; [lia|]. right; right; right. eexists _, _.
    rewrite Hl, Hlog. apply elem_of_app. right. by apply list_elem_of_singleton. }
  destruct (fecFoldLocked cf id _ c2 _ _) as [[w3 c3]|] eqn:Hfold; [|done]. cbn [mbind option_bind].
  apply fecFoldLocked_frame in Hfold as (F1 & F2 & F3 & F4 & F5). cbn in F1, F2, F3.
  intros Hrest. apply IH in Hrest; [|rewrite F2, F3; congruence]. rewrite Hlen in Hrest.
  assert (Zlen (slice p m (Zlen p)) = Zlen p - m) as Hrl by (rewrite Zlen_slice; lia).
  destruct o as [k [e|]|k rest]; cbn in *.
  - rewrite Hrl in Hrest. destruct Hrest as [Hb Hr]. split; [lia|]. destruct Hr as [?|Hr]; [left; lia|right; exact Hr].
  - lia.
  - destruct Hrest as (Hk & Hrest & Hne & Hf & Hr). rewrite Hrl in Hk, Hrest.
    split_and!; [lia|lia| |done|done|done]. rewrite Hrest, slice_slice by lia. f_equal; lia.
Qed.

(** C28: the contract of [Write].  Whatever the connection does, a [Write]
    call always comes to an end or to a wait, and: it returns no error only
    when every byte has been written; it returns an error with fewer bytes
    only because its deadline has passed, the direction is closed, or the
    connection refused a frame; and it waits only while the direction is open
    and the next frame does not fit the peer's window or the in-flight cap,
    with the rest of its bytes to write. *)
Theorem Write_contract {C} `{SendPathLaws C} E id (c : C) ops sd os p :
  config_wf (cfg E) → maxPayload (cfg E) < 2 ^ 32 → log c id = [] → Forall (op_ok id) ops →
  send_run (cfg E) id (opened (cfg E) c) ops = Some (sd, os) →
  ∃ w' c' o, Write (cfg E) id sd.(sd_w) sd.(sd_c) p = Some (w', c', o) ∧ outcome_ok (cfg E) id w' c' p 0 o.
Proof.
  intros Hcfg H32 Hc Hops Hrun. pose proof (dataCap_bounds E Hcfg).
  destruct (send_run_new E id c ops Hcfg H32 Hc Hops) as (sd' & os' & R1 & Hi & _).
  rewrite Hrun in R1. injection R1 as <- <-.
  destruct (writeLoop_spec E Hcfg id H32 _ (stream_inFlightCap_le E) (S (length p)) sd.(sd_w) sd.(sd_c) p 0 ltac:(lia) Hi)
    as (w' & c' & o & L' & Hw & _). exists w', c', o. split; [done|].
  eapply writeLoop_outcome; [lia| |exact Hw]. apply (wi_err _ _ _ _ (proj1 Hi)).
Qed.

Lemma Write_contract_witness : ∃ sd os,
  send_run (cfg witness_env) 5 (opened (cfg witness_env) witness_conn) [OpWrite [1; 2; 3]] = Some (sd, os) ∧
  ∃ w' c' o, Write (cfg witness_env) 5 sd.(sd_w) sd.(sd_c) [4; 5] = Some (w', c', o) ∧
    outcome_ok (cfg witness_env) 5 w' c' [4; 5] 0 o.
Proof.
  assert (∃ sd os, send_run (cfg witness_env) 5 (opened (cfg witness_env) witness_conn) [OpWrite [1; 2; 3]] = Some (sd, os))
    as (sd & os & Hrun).
  { vm_compute. eexists _, _. reflexivity. }
  exists sd, os. split; [exact Hrun|].
  apply (Write_contract witness_env 5 witness_conn [OpWrite [1; 2; 3]] sd os [4; 5] (proj1 witness_cfg) (proj2 witness_cfg)
           witness_conn_new).
  - by apply Forall_singleton.
  - exact Hrun.
Defined.

(** ** A refused frame *)

(** C40: the hypothesis that no DATA frame was refused is needed.  [Write]
    leaves a frame the connection refused (a failed [sendmmsg]) out of its
    parity lane, although the frame has its sequence number and waits in the
    retransmission queue.  The lane's next parity then covers other frames
    than its header says.  Here frame 2 is refused and the application writes
    on; a receiver that gets frames 0, 1 and 3 and that parity rebuilds
    frame 4's bytes as frame 2 and delivers them. *)
Theorem refused_frame_corrupts :
  let cf := cfg witness_env in
  let c := mkTraced [] [None; None; Some (ErrErrno 105)] 100 0 in
  let ops := [OpWindow 1000; OpWrite [10]; OpWrite [11]; OpWrite [12]; OpAcked 3; OpWrite [13]; OpWrite [14]] in
  let evs := [EvData 0; EvData 1; EvData 3; EvParity false 0 2 0 [Z.lxor 10 14]; EvRead 8] in
  ∃ sd os s obs,
    send_run cf 5 (opened cf c) ops = Some (sd, os) ∧
    payloads (log sd.(sd_c) 5) = [[10]; [11]; [12]; [13]; [14]] ∧
    Forall (arrives witness_env (log sd.(sd_c) 5)) evs ∧
    recv_run witness_env (payloads (log sd.(sd_c) 5)) (newStream_read witness_env 24 7) evs = Some (s, obs) ∧
    bytes_read obs = [10; 11; 14; 13].
Proof.
  intros cf c ops evs.
  set (L := [ SentData 0 [10] None; SentData 1 [11] None; SentFec frameFECRow 0 2 0 [1];
              SentData 2 [12] (Some (ErrErrno 105)); SentData 3 [13] None;
              SentFec frameFEC 1 2 0 [6]; SentData 4 [14] None; SentFec frameFEC 0 2 0 [4];
              SentFec frameFECRow 3 2 0 [3] ]).
  assert (∃ sd os, send_run cf 5 (opened cf c) ops = Some (sd, os) ∧ log sd.(sd_c) 5 = L) as (sd & os & Hrun & Hlog).
  { vm_compute. eexists _, _. split; reflexivity. }
  assert (∃ s obs, recv_run witness_env (payloads L) (newStream_read witness_env 24 7) evs = Some (s, obs) ∧
    bytes_read obs = [10; 11; 14; 13]) as (s & obs & Hrecv & Hread).
  { vm_compute. eexists _, _. split; reflexivity. }
  exists sd, os, s, obs. rewrite Hlog. split_and!; [exact Hrun|reflexivity| |exact Hrecv|exact Hread].
  unfold evs. clear. repeat apply Forall_cons_2; try done; cbn [arrives].
  - exists [10]. apply list_elem_of_here.
  - exists [11]. apply list_elem_of_further, list_elem_of_here.
  - exists [13]. do 3 apply list_elem_of_further. apply list_elem_of_here.
  - split; [done|]. do 7 apply list_elem_of_further. apply list_elem_of_here.
Qed.
