(* ===== verification/Estimator.v ===== *)
(** * Round-trip estimation ([connection.go])

    The retransmission timeout (RFC 6298), the reorder grace derived from it
    and the choice of the in-flight cap.  [recvMu] guards [srtt] and
    [rttvar]; [rtoNs], [rttvarNs] and [srttNs] are the copies other
    goroutines read.  Durations are signed 64-bit nanosecond counts: sums and
    products wrap ([i64]), divisions truncate ([Z.quot]). *)
From S2P Require Import Prelude Options.

Definition reorderGraceFraction : Z := 4.
Definition wanRTT : Z := 10 * Millisecond.

Record estimator := mkEstimator {
  srtt : Z;
  rttvar : Z;
  rtoNs : Z;
  rttvarNs : Z;
  srttNs : Z;
}.
#[export] Instance eta_estimator : Eta estimator :=
  λ e, mkEstimator (srtt e) (rttvar e) (rtoNs e) (rttvarNs e) (srttNs e).

(** the estimator of [newConnection] *)
Definition newEstimator (cf : config) : estimator := mkEstimator 0 0 cf.(retransmitTmout) 0 0.

Definition updateRTO (cf : config) (e : estimator) (sample : Z) : estimator :=
  if sample <=? 0 then e
  else
    let e :=
      if e.(srtt) =? 0 then e <| srtt := sample |> <| rttvar := Z.quot sample 2 |>
      else
        let diff := i64 (e.(srtt) - sample) in
        let diff := if diff <? 0 then i64 (- diff) else diff in
        let e := e <| rttvar := i64 (e.(rttvar) + Z.quot (i64 (diff - e.(rttvar))) 4) |> in
        e <| srtt := i64 (e.(srtt) + Z.quot (i64 (sample - e.(srtt))) 8) |> in
    let rto := i64 (e.(srtt) + i64 (4 * e.(rttvar))) in
    let rto := if rto <? cf.(minRetransmitTmout) then cf.(minRetransmitTmout) else rto in
    e <| rtoNs := rto |> <| rttvarNs := e.(rttvar) |> <| srttNs := e.(srtt) |>.

Definition currentRTO (e : estimator) : Z := e.(rtoNs).

(** [Connection.reorderGrace] *)
Definition conn_reorderGrace (e : estimator) : Z :=
  let rv := e.(rttvarNs) in
  let max := Z.quot (currentRTO e) reorderGraceFraction in
  if rv =? 0 then max
  else
    let g := i64 (2 * rv) in
    let min := 2 * Millisecond in
    let g := if g <? min then min else g in
    if g >? max then max else g.

(** the in-flight caps of [newConnection]; [granted] is the receive buffer
    size the kernel reports, if it does *)
Definition resolveCaps (cf : config) (granted : option Z) : Z * Z :=
  let lan := effectiveMaxInFlight cf in
  let wan := lan in
  if cf.(maxInFlight) =? 0 then
    let '(lan, wan) :=
      match granted with
      | Some g => if g >? 0 then (Z.quot g 2, g - Z.quot g 4) else (lan, wan)
      | None => (lan, wan)
      end in
    (lan, if pacingEnabled cf then Z.shiftl 1 62 else wan)
  else (lan, wan).

(** [Connection.inFlightCap] *)
Definition conn_inFlightCap_of (e : estimator) (caps : Z * Z) : Z :=
  if e.(srttNs) >=? wanRTT then caps.2 else caps.1.

(** ** The estimates follow the samples *)

(** what [n] samples between [lo] and [hi] leave *)
Record est_ok (cf : config) (lo hi : Z) (e : estimator) : Prop := mkEstOk {
  eo_srtt : lo ≤ e.(srtt) ≤ hi;
  eo_rttvar : 0 ≤ e.(rttvar) ≤ hi;
  eo_rto : e.(rtoNs) = Z.max cf.(minRetransmitTmout) (e.(srtt) + 4 * e.(rttvar));
  eo_published : e.(rttvarNs) = e.(rttvar) ∧ e.(srttNs) = e.(srtt);
}.

(** a truncated step towards a target stays between the two *)
Lemma quot_between a b k : 0 < k → Z.min a b ≤ a + Z.quot (b - a) k ≤ Z.max a b.
Proof.
  intros Hk. destruct (decide (a ≤ b)).
  - pose proof (Z.quot_pos (b - a) k ltac:(lia) Hk). pose proof (Z.quot_le_upper_bound (b - a) k (b - a) Hk ltac:(nia)). lia.
  - replace (b - a) with (- (a - b)) by lia. rewrite Z.quot_opp_l by lia.
    pose proof (Z.quot_pos (a - b) k ltac:(lia) Hk). pose proof (Z.quot_le_upper_bound (a - b) k (a - b) Hk ltac:(nia)). lia.
Qed.

(** samples short enough for the sums not to overflow (58 years) *)
Definition maxSample : Z := 2 ^ 60.

Lemma updateRTO_ok cf lo hi e sample :
  0 < lo → hi ≤ maxSample → lo ≤ sample ≤ hi → e.(srtt) = 0 ∨ est_ok cf lo hi e → est_ok cf lo hi (updateRTO cf e sample).
Proof.
  intros Hlo Hhi Hs He. unfold maxSample in Hhi.
  assert (∀ x, - 2 ^ 63 ≤ x < 2 ^ 63 → i64 x = x) as Hid by (intros; apply i64_id; word_lia).
  unfold updateRTO. rewrite bool_decide_false by lia. cbv zeta.
  set (e1 := if e.(srtt) =? 0 then _ else _).
  assert (lo ≤ e1.(srtt) ≤ hi ∧ 0 ≤ e1.(rttvar) ≤ hi) as [H1 H2].
  { unfold e1. destruct He as [He|[[E1 E1'] [E2 E2'] _ _]].
    - rewrite (bool_decide_true _ He). cbn. pose proof (Z.quot_pos sample 2 ltac:(lia) ltac:(lia)).
      pose proof (Z.quot_le_upper_bound sample 2 sample ltac:(lia) ltac:(lia)). lia.
    - rewrite bool_decide_false by lia. cbn.
      set (d := if i64 (e.(srtt) - sample) <? 0 then _ else _).
      assert (0 ≤ d ≤ hi) as Hd.
      { unfold d. rewrite (Hid (e.(srtt) - sample)) by lia. case_bool_decide; [rewrite Hid by lia|]; lia. }
      clearbody d. pose proof (quot_between e.(rttvar) d 4 ltac:(lia)) as Hq1.
      pose proof (quot_between e.(srtt) sample 8 ltac:(lia)) as Hq2.
      rewrite (Hid (d - _)), (Hid (sample - _)) by lia. rewrite !Hid by lia. lia. }
  clearbody e1. rewrite (Hid (4 * _)), (Hid (_ + 4 * _)) by lia. split; cbn; try done.
  case_bool_decide; lia.
Qed.

(** C33: the estimator is sane.  After any number of round-trip samples
    between [lo] and [hi], the smoothed round-trip time lies between [lo] and
    [hi], the variance between 0 and [hi], none of the 64-bit sums has
    wrapped, and the timeout is the RFC 6298 value with the configured
    minimum: never below that minimum, at most five times [hi] otherwise.
    The reorder grace is then positive, and at most a quarter of the
    timeout. *)
Theorem estimates_bounded cf lo hi samples :
  config_wf cf → 4 ≤ cf.(minRetransmitTmout) → samples ≠ [] → 0 < lo → hi ≤ maxSample →
  Forall (λ s, lo ≤ s ≤ hi) samples →
  let e := foldl (updateRTO cf) (newEstimator cf) samples in
  lo ≤ e.(srtt) ≤ hi ∧ 0 ≤ e.(rttvar) ≤ hi ∧
  currentRTO e = Z.max cf.(minRetransmitTmout) (e.(srtt) + 4 * e.(rttvar)) ∧
  cf.(minRetransmitTmout) ≤ currentRTO e ≤ Z.max cf.(minRetransmitTmout) (5 * hi) ∧
  0 < conn_reorderGrace e ≤ Z.quot (currentRTO e) 4.
Proof.
  intros Hcfg Hmin Hne Hlo Hhi Hall e.
  assert (est_ok cf lo hi e) as [H1 H2 H3 [H4 H5]].
  { unfold e. destruct samples as [|s ss]; [done|]. apply Forall_cons in Hall as [Hs Hall]. cbn [foldl].
    assert (est_ok cf lo hi (updateRTO cf (newEstimator cf) s)) as He by (apply updateRTO_ok; auto).
    revert He. generalize (updateRTO cf (newEstimator cf) s). clear Hne.
    induction Hall as [|s' ss Hs' _ IH]; intros e0 He0; [done|]. cbn [foldl]. apply IH. apply updateRTO_ok; auto. }
  clearbody e. unfold conn_reorderGrace, currentRTO, reorderGraceFraction, Millisecond, Microsecond, maxSample in *. rewrite H4.
  assert (0 < Z.quot (rtoNs e) 4) as Hq by (apply Z.quot_str_pos; lia).
  split_and!; try lia; destruct (decide (rttvar e = 0)) as [Hz|Hz];
    [by rewrite bool_decide_true|rewrite (bool_decide_false _ Hz)|by rewrite bool_decide_true|rewrite (bool_decide_false _ Hz)];
    rewrite (i64_id (2 * _)) by word_lia; repeat case_bool_decide; lia.
Qed.

Lemma estimates_bounded_witness :
  let e := foldl (updateRTO defaultConfig) (newEstimator defaultConfig) [30000000; 45000000; 20000000] in
  20000000 ≤ e.(srtt) ≤ 45000000 ∧ currentRTO e = 150000000 ∧ 0 < conn_reorderGrace e ≤ 37500000.
Proof.
  pose proof (estimates_bounded defaultConfig 20000000 45000000 [30000000; 45000000; 20000000] defaultConfig_wf) as H.
  destruct H as (H1 & H2 & H3 & H4 & H5); [done|done|done|done|repeat apply Forall_cons_2; done|].
  split; [exact H1|]. split; [reflexivity|exact H5].
Defined.
