(* ===== verification/SendBatch.v ===== *)
(** * The send batch of a connection ([connection.go])

    Frames are collected in message slots and handed to the kernel in one
    [sendmmsg]; full-size DATA frames are packed several to a message, which
    the kernel cuts into datagrams (UDP GSO).

    - A slot ([msg]) has its own buffer and a vector of iovecs; an iovec
      points into that buffer, or at a payload in the retransmission arena.
      The arena keeps such a payload unchanged until the batch is handed over
      (theorem [zero_copy_stable] of [RetransmitRefine.v]), so that here it is
      the payload's bytes.
    - [T] is a state monad with Go's two ways out: a returned error ([Err])
      and a run-time panic ([None]).
    - The environment ([txenv]) holds what the connection is set up with and
      answers, at the n-th question, whether the socket is shut down, whether
      the pacer granted the batch and with which error [sendmmsg] came back.
    - [wire] records every batch that left the slots, with its outcome.
      Of the two hand-over paths this is the [sendmmsg] one ([c.uring] nil). *)
From S2P Require Import Prelude Errors Frame Float64 Pacer Options.

(** ** State *)
Inductive iovbase :=
  | BaseNil
  | BaseBuf (off : Z)
  | BaseData (p : list Z).
Record iovec := mkIov { iov_Base : iovbase; iov_Len : Z }.
#[export] Instance eta_iovec : Eta iovec := λ v, mkIov (iov_Base v) (iov_Len v).

Record msg := mkMsg { m_buf : list Z; m_iov : list iovec; m_iovlen : Z }.
#[export] Instance eta_msg : Eta msg := λ m, mkMsg (m_buf m) (m_iov m) (m_iovlen m).

(** what the kernel gathers *)
Definition iov_bytes (buf : list Z) (v : iovec) : list Z :=
  match v.(iov_Base) with
  | BaseNil => []
  | BaseBuf off => slice buf off (off + v.(iov_Len))
  | BaseData p => slice p 0 v.(iov_Len)
  end.
Definition msg_bytes (m : msg) : list Z :=
  concat (iov_bytes m.(m_buf) <$> take (Z.to_nat m.(m_iovlen)) m.(m_iov)).

Inductive handover := HShutdown | HCancelled | HSent (errno : Z).
Record batch := mkBatch {
  b_msgs : list (list Z);
  b_wireBytes : Z;
  b_udpBytes : Z;
  b_datagrams : Z;
  b_class : paceClass;
  b_result : handover;
}.

Record tx := mkTx {
  slots : list msg;
  sendLens : list Z;
  sendN : Z;
  sendWireBytes : Z;
  sendUDPBytes : Z;
  sendDatagrams : Z;
  sendPaceClass : paceClass;
  packIdx : Z;
  packFrames : Z;
  packBytes : Z;
  packHdrOff : Z;
  tx_tick : nat;
  wire : list batch;
}.
#[export] Instance eta_tx : Eta tx :=
  λ s, mkTx (slots s) (sendLens s) (sendN s) (sendWireBytes s) (sendUDPBytes s) (sendDatagrams s) (sendPaceClass s)
    (packIdx s) (packFrames s) (packBytes s) (packHdrOff s) (tx_tick s) (wire s).

Record txenv := mkTxenv {
  tx_cfg : config;
  tx_pacer : option WirePacer;
  gsoSize : Z;
  gsoMaxFrames : Z;
  isShutdown : nat → bool;
  granted : nat → bool;
  sendErrno : nat → Z;
}.

Definition maxGSOBytes : Z := 60000.
(** the GSO parameters of [newConnection]; the kernel supports UDP_SEGMENT, UDP_GRO *)
Definition resolveGSO (cf : config) (segment gro : bool) : Z * Z :=
  let frames := Z.quot maxGSOBytes (maxDatagram cf) in
  let '(size, max) :=
    if cf.(enableGSO) && (frames >=? 2) && segment
    then (maxDatagram cf, if frames >? 8 then 8 else frames)
    else (0, 1) in
  if gro then (size, max) else (0, 1).

(** the slots of [newConnection] *)
Definition iovsPer (E : txenv) : Z := 2 * E.(gsoMaxFrames).
Definition newTx (E : txenv) : tx :=
  let slot := mkMsg (replicate (Z.to_nat (maxDatagram E.(tx_cfg))) 0)
                (mkIov (BaseBuf 0) 0 :: replicate (Z.to_nat (iovsPer E - 1)) (mkIov BaseNil 0)) 0 in
  mkTx (replicate (Z.to_nat E.(tx_cfg).(batchSize)) slot) (replicate (Z.to_nat E.(tx_cfg).(batchSize)) 0)
    0 0 0 0 paceBulk (-1) 0 0 0 0 [].

(** ** The monad *)
Definition T (A : Type) : Type := tx → option (tx * result A).
#[export] Instance T_ret : MRet T := λ A a s, Some (s, Ok a).
#[export] Instance T_bind : MBind T := λ A B k m s,
  match m s with
  | Some (s, Ok a) => k a s
  | Some (s, Err e) => Some (s, Err e)
  | None => None
  end.
Definition get : T tx := λ s, Some (s, Ok s).
Definition modify (f : tx → tx) : T unit := λ s, Some (f s, Ok ()).
Definition throw {A} (e : go_error) : T A := λ s, Some (s, Err e).
(** a computation that can panic *)
Definition lift {A} (o : option A) : T A := λ s, match o with Some a => Some (s, Ok a) | None => None end.
Definition when (b : bool) (m : T unit) : T unit := if b then m else mret ().

Section tx.
Context (E : txenv).
#[local] Abbreviation cf := (tx_cfg E).
Implicit Types s : tx.

Definition set_slot (idx : Z) (f : msg → msg) s : tx := s <| slots := alter f (Z.to_nat idx) s.(slots) |>.
Definition set_iov (k : Z) (v : iovec) (m : msg) : msg := m <| m_iov := <[Z.to_nat k := v]> m.(m_iov) |>.

(** ** Headers and accounting *)
Definition frameHdrLen (ftype : Z) : Z :=
  if (ftype =? frameData) && (cf.(fecGroup) >? 0) then frameHeaderSize + fecMetaLen else frameHeaderSize.

Definition writeFrameHdr (buf : list Z) (ftype streamID seq dataLen : Z) : option (list Z * Z) :=
  let hdrLen := frameHdrLen ftype in
  buf ← encodeHeader buf ftype streamID seq (u32 (hdrLen - frameHeaderSize + dataLen));
  buf ← put_bytes buf frameHeaderSize (replicate (Z.to_nat (hdrLen - frameHeaderSize)) 0);
  Some (buf, hdrLen).

Definition class_rank (c : paceClass) : Z := match c with paceCritical => 0 | paceRecovery => 1 | paceBulk => 2 end.

Definition accountDatagramLocked (udpBytes : Z) (class : paceClass) s : tx :=
  match E.(tx_pacer) with
  | None => s
  | Some p =>
      let s := if s.(sendDatagrams) =? 0 then s <| sendPaceClass := class |>
               else if class_rank class >? class_rank s.(sendPaceClass) then s <| sendPaceClass := class |> else s in
      let s := s <| sendUDPBytes := s.(sendUDPBytes) + udpBytes |> in
      let s := s <| sendWireBytes := s.(sendWireBytes) + Cost p.(accounting) udpBytes |> in
      s <| sendDatagrams := s.(sendDatagrams) + 1 |>
  end.

Definition pacingBatchFullLocked s : bool :=
  match E.(tx_pacer) with None => false | Some p => s.(sendWireBytes) >=? p.(burstBytes) end.

Definition resetBatchAccountingLocked s : tx :=
  s <| sendWireBytes := 0 |> <| sendUDPBytes := 0 |> <| sendDatagrams := 0 |> <| sendPaceClass := paceBulk |>.

Definition closePackLocked s : tx :=
  if s.(packIdx) <? 0 then s
  else
    let idx := s.(packIdx) in
    let s := set_slot idx (λ m, m <| m_iovlen := 2 * s.(packFrames) |>) s in
    let s := s <| sendLens := <[Z.to_nat idx := s.(packBytes)]> s.(sendLens) |> in
    s <| packIdx := -1 |>.

(** ** Flushing *)

(** the first [n] slots leave, one way or another *)
Definition emit (n : Z) (r : handover) s0 s : tx :=
  s <| wire := s.(wire) ++ [mkBatch (msg_bytes <$> take (Z.to_nat n) s0.(slots)) s0.(sendWireBytes) s0.(sendUDPBytes)
                             s0.(sendDatagrams) s0.(sendPaceClass) r] |>.
(** the next answer of the environment *)
Definition ask {A} (f : nat → A) : T A := λ s, Some (s <| tx_tick := S s.(tx_tick) |>, Ok (f s.(tx_tick))).

Definition flushSendLocked : T unit :=
  _ ← modify closePackLocked;
  s0 ← get;
  if s0.(sendN) =? 0 then modify resetBatchAccountingLocked
  else
    shut ← ask E.(isShutdown);
    if (shut : bool) then
      _ ← modify (λ s, emit s0.(sendN) HShutdown s0 (resetBatchAccountingLocked (s <| sendN := 0 |>)));
      throw ErrClosed
    else
      let n := s0.(sendN) in
      ok ← match E.(tx_pacer) with Some _ => ask E.(granted) | None => mret true end;
      if negb (ok : bool) then
        _ ← modify (λ s, emit n HCancelled s0 (resetBatchAccountingLocked (s <| sendN := 0 |>)));
        throw ErrClosed
      else
        errno ← ask E.(sendErrno);
        _ ← modify (λ s, emit n (HSent errno) s0 (resetBatchAccountingLocked (s <| sendN := 0 |>)));
        if negb (errno =? 0) then throw (ErrErrno errno) else mret ().

Definition flushSend : T unit := flushSendLocked.

Definition splitPacingClassLocked (class : paceClass) : T unit :=
  s ← get;
  when (bool_decide (E.(tx_pacer) ≠ None) && (s.(sendDatagrams) >? 0) && bool_decide (s.(sendPaceClass) ≠ class))
    flushSendLocked.

(** ** Slots *)

(** the reserved slot's index; its buffer is reached through it *)
Definition acquireSendSlot (class : paceClass) : T Z :=
  _ ← modify closePackLocked;
  _ ← splitPacingClassLocked class;
  s ← get;
  _ ← when (s.(sendN) >=? cf.(batchSize)) flushSendLocked;
  s ← get;
  mret s.(sendN).

(** [buf := c.sendBufs[idx]], written by [f] *)
Definition write_slot (idx : Z) (f : list Z → option (list Z * Z)) : T Z :=
  s ← get;
  m ← lift (s.(slots) !! Z.to_nat idx);
  '(buf, n) ← lift (f m.(m_buf));
  _ ← modify (set_slot idx (λ m, m <| m_buf := buf |>));
  mret n.

Definition flush_if_full : T unit :=
  s ← get;
  when ((s.(sendN) >=? cf.(batchSize)) || pacingBatchFullLocked s) flushSendLocked.

Definition commitSendSlot (idx n : Z) (class : paceClass) : T unit :=
  _ ← modify (set_slot idx (λ m, let v := default (mkIov BaseNil 0) (m.(m_iov) !! 0%nat) in
                                 set_iov 0 (v <| iov_Len := n |>) m <| m_iovlen := 1 |>));
  _ ← modify (λ s, s <| sendLens := <[Z.to_nat idx := n]> s.(sendLens) |> <| sendN := idx + 1 |>);
  _ ← modify (accountDatagramLocked n class);
  flush_if_full.

Definition payload_iov (payload : list Z) : iovec :=
  mkIov (if Zlen payload >? 0 then BaseData payload else BaseNil) (Zlen payload).

Definition commitSendSlotZeroCopy (idx hdrLen : Z) (payload : list Z) (class : paceClass) : T unit :=
  _ ← modify (set_slot idx (λ m, let v := default (mkIov BaseNil 0) (m.(m_iov) !! 0%nat) in
                                 set_iov 1 (payload_iov payload) (set_iov 0 (v <| iov_Len := hdrLen |>) m)
                                   <| m_iovlen := 2 |>));
  _ ← modify (λ s, s <| sendLens := <[Z.to_nat idx := hdrLen + Zlen payload]> s.(sendLens) |> <| sendN := idx + 1 |>);
  _ ← modify (accountDatagramLocked (hdrLen + Zlen payload) class);
  flush_if_full.

(** ** GSO packing *)
Definition openPack : T unit :=
  s ← get;
  when (s.(packIdx) <? 0)
    (_ ← when (s.(sendN) >=? cf.(batchSize)) flushSendLocked;
     modify (λ s, s <| packIdx := s.(sendN) |> <| sendN := s.(sendN) + 1 |>
                    <| packFrames := 0 |> <| packBytes := 0 |> <| packHdrOff := 0 |>)).

Definition queueFrameGSOLocked (ftype streamID seq : Z) (payload : list Z) : T unit :=
  s ← get;
  _ ← when (bool_decide (E.(tx_pacer) ≠ None) && (s.(sendDatagrams) >? 0) && bool_decide (s.(sendPaceClass) ≠ paceBulk))
        (_ ← modify closePackLocked; splitPacingClassLocked paceBulk);
  _ ← openPack;
  s ← get;
  let idx := s.(packIdx) in
  let off := s.(packHdrOff) in
  hdrLen ← write_slot idx (λ buf,
    '(hdr, hdrLen) ← writeFrameHdr (slice buf off (Zlen buf)) ftype streamID seq (Zlen payload);
    Some (slice buf 0 off ++ hdr, hdrLen));
  let k := 2 * s.(packFrames) in
  _ ← modify (set_slot idx (λ m, set_iov (k + 1) (payload_iov payload) (set_iov k (mkIov (BaseBuf off) hdrLen) m)));
  _ ← modify (λ s, s <| packFrames := s.(packFrames) + 1 |> <| packHdrOff := s.(packHdrOff) + hdrLen |>
                     <| packBytes := s.(packBytes) + (hdrLen + Zlen payload) |>);
  _ ← modify (accountDatagramLocked (hdrLen + Zlen payload) paceBulk);
  s ← get;
  let full := hdrLen + Zlen payload >=? E.(gsoSize) in
  when ((s.(packFrames) >=? E.(gsoMaxFrames)) || negb full || pacingBatchFullLocked s)
    (_ ← modify closePackLocked; flush_if_full).

(** ** The frames a connection sends

    [sendDataFrame] and [sendReliableFrame] are given the payload as the
    retransmission queue holds it (they enter it there first). *)
Definition sendDataFrame (streamID seq : Z) (data : list Z) : T unit :=
  if E.(gsoMaxFrames) >=? 2 then queueFrameGSOLocked frameData streamID seq data
  else
    idx ← acquireSendSlot paceBulk;
    hdrLen ← write_slot idx (λ buf, writeFrameHdr buf frameData streamID seq (Zlen data));
    commitSendSlotZeroCopy idx hdrLen data paceBulk.

Definition sendFecFrame (ftype streamID base count xorLen : Z) (xorData : list Z) : T unit :=
  idx ← acquireSendSlot paceBulk;
  let meta := Z.lor (u32 (Z.shiftl (u32 count) 16)) (u32 xorLen) in
  n ← write_slot idx (λ buf,
    buf ← encodeHeader buf ftype streamID base (u32 (fecMetaLen + Zlen xorData));
    buf ← put_bytes buf frameHeaderSize (PutUint32 meta);
    Some (copy_at buf (frameHeaderSize + fecMetaLen) xorData, frameHeaderSize + fecMetaLen + Zlen xorData));
  commitSendSlot idx n paceBulk.

Definition sendReliableFrame (ftype streamID seq : Z) (data : list Z) : T unit :=
  idx ← acquireSendSlot paceCritical;
  hdrLen ← write_slot idx (λ buf, writeFrameHdr buf ftype streamID seq (Zlen data));
  _ ← commitSendSlotZeroCopy idx hdrLen data paceCritical;
  flushSend.

Definition queueWindowUpdate (streamID offset : Z) : T unit :=
  idx ← acquireSendSlot paceCritical;
  n ← write_slot idx (λ buf,
    buf ← encodeHeader buf frameWindowUpdate streamID 0 8;
    buf ← put_bytes buf frameHeaderSize (PutUint64 offset);
    Some (buf, frameHeaderSize + 8));
  commitSendSlot idx n paceCritical.
Definition sendWindowUpdate (streamID offset : Z) : T unit :=
  _ ← queueWindowUpdate streamID offset; flushSend.

Definition sendControlFrame (ftype streamID seq : Z) : T unit :=
  idx ← acquireSendSlot paceCritical;
  n ← write_slot idx (λ buf, buf ← encodeHeader buf ftype streamID seq 0; Some (buf, frameHeaderSize));
  _ ← commitSendSlot idx n paceCritical;
  flushSend.

Definition queueACKFrame (streamID cumulative : Z) (seqs : list Z) : T unit :=
  idx ← acquireSendSlot paceCritical;
  n ← write_slot idx (λ buf, encodeAckFrame buf streamID cumulative seqs);
  commitSendSlot idx n paceCritical.
Definition sendACKFrame (streamID cumulative : Z) (seqs : list Z) : T unit :=
  _ ← queueACKFrame streamID cumulative seqs; flushSend.

Definition queueNackFrame (streamID : Z) (seqs : list Z) : T unit :=
  idx ← acquireSendSlot paceCritical;
  n ← write_slot idx (λ buf, encodeSeqListFrame buf frameNack streamID 0 seqs);
  commitSendSlot idx n paceCritical.
Definition sendNackFrame (streamID : Z) (seqs : list Z) : T unit :=
  _ ← queueNackFrame streamID seqs; flushSend.

Definition sendNackFrames (streamID : Z) (seqs : list Z) : T unit := λ s,
  let visit (chunk : list Z) (st : option tx) : option tx * option go_error :=
    match st with
    | None => (None, None)
    | Some s =>
        match queueNackFrame streamID chunk s with
        | None => (None, None)
        | Some (s, Ok _) => (Some s, None)
        | Some (s, Err e) => (Some s, Some e)
        end
    end in
  match forEachSeqListChunk visit seqs cf.(maxPayload) (Some s) with
  | Some (Some s, None) => flushSend s
  | Some (Some s, Some e) => Some (s, Err e)
  | _ => None
  end.

Definition queueResendCopy (ftype streamID seq : Z) (data : list Z) : T unit :=
  idx ← acquireSendSlot paceRecovery;
  n ← write_slot idx (λ buf,
    '(buf, hdrLen) ← writeFrameHdr buf ftype streamID seq (Zlen data);
    Some (copy_at buf hdrLen data, hdrLen + Zlen data));
  commitSendSlot idx n paceRecovery.

Definition sendResetNoQueue (streamID code : Z) : T unit :=
  idx ← acquireSendSlot paceCritical;
  n ← write_slot idx (λ buf, encodeFrame buf frameStreamReset streamID 0 (resetPayload code));
  _ ← commitSendSlot idx n paceCritical;
  flushSend.

Definition sendHandshake (connID : Z) : T unit :=
  let payload := handshakePayload connID in
  idx ← acquireSendSlot paceCritical;
  n ← write_slot idx (λ buf, encodeFrame buf frameHandshake 0 0 payload);
  _ ← commitSendSlot idx n paceCritical;
  flushSend.

End tx.
