(* ===== verification/BatchInv.v ===== *)
(** * The invariant of the send batch

    What the kernel is given cuts, segment by segment, into the frames that
    were queued: [queued] is the sequence of datagrams that have left or wait
    in the slots, and every operation appends at most its own frame to it. *)
From S2P Require Import Prelude Errors Frame Float64 Pacer Options SendBatch.

(** ** Segmentation *)

(** What the kernel makes of a message on a socket with UDP_SEGMENT set to
    [g] (0 if not set): pieces of [g] bytes and a last one, possibly
    shorter. *)
Fixpoint chop (fuel : nat) (g : Z) (l : list Z) : list (list Z) :=
  match fuel with
  | O => [l]
  | S fuel => if Zlen l <=? g then [l] else slice l 0 g :: chop fuel g (slice l g (Zlen l))
  end.
Definition segments (g : Z) (l : list Z) : list (list Z) := if g <=? 0 then [l] else chop (length l) g l.

Lemma chop_small fuel g l : Zlen l ≤ g → chop fuel g l = [l].
Proof. intros Hl. destruct fuel; [done|]. cbn [chop]. by rewrite bool_decide_true. Qed.

Lemma segments_one g l : g ≤ 0 ∨ Zlen l ≤ g → segments g l = [l].
Proof.
  intros Hg. unfold segments. destruct (decide (g ≤ 0)); [by rewrite bool_decide_true|].
  rewrite bool_decide_false by done. apply chop_small. lia.
Qed.

Lemma slice_front {A} (a b : list A) g : g = Zlen a → slice (a ++ b) 0 g = a ∧ slice (a ++ b) g (Zlen (a ++ b)) = b.
Proof.
  intros ->. split; [by apply slice_pre|]. pose proof (Zlen_nonneg b).
  rewrite slice_app_r by (rewrite ?Zlen_app; lia). rewrite Zlen_app, Z.sub_diag.
  replace (Zlen a + Zlen b - Zlen a) with (Zlen b) by lia. apply slice_all.
Qed.

(** full pieces, then one more *)
Lemma chop_app fuel g (fs : list (list Z)) f :
  0 < g → Forall (λ x, Zlen x = g) fs → 0 < Zlen f ≤ g → (length fs ≤ fuel)%nat →
  chop fuel g (concat fs ++ f) = fs ++ [f].
Proof.
  intros Hg Hfs. revert fuel. induction Hfs as [|x fs Hx _ IH]; intros fuel Hf Hfuel; [apply chop_small; cbn; lia|].
  destruct fuel as [|fuel]; [cbn in Hfuel; lia|]. cbn [chop concat]. rewrite <- app_assoc.
  pose proof (Zlen_nonneg (concat fs)). pose proof (Zlen_nonneg f).
  rewrite bool_decide_false by (rewrite !Zlen_app; lia).
  destruct (slice_front x (concat fs ++ f) g) as [H1 H2]; [done|]. rewrite H1, H2.
  rewrite IH; [done|done|]. cbn in Hfuel. lia.
Qed.

Lemma length_concat_ge (fs : list (list Z)) : Forall (λ x, 0 < Zlen x) fs → (length fs ≤ length (concat fs))%nat.
Proof.
  induction 1 as [|x fs Hx _ IH]; [done|]. cbn [concat length]. rewrite length_app. unfold Zlen in Hx. lia.
Qed.

Lemma segments_app g (fs : list (list Z)) f :
  0 < g → Forall (λ x, Zlen x = g) fs → 0 < Zlen f ≤ g → segments g (concat fs ++ f) = fs ++ [f].
Proof.
  intros Hg Hfs Hf. unfold segments. rewrite bool_decide_false by lia. apply chop_app; try done.
  rewrite length_app. pose proof (length_concat_ge fs) as Hl.
  assert (Forall (λ x, 0 < Zlen x) fs) as Hp by (eapply Forall_impl; [exact Hfs|]; cbn; lia). specialize (Hl Hp). lia.
Qed.

(** ** Triples *)

(** [m] does not panic from a state of [P], and ends as [Q] says *)
Definition triple {A} (P : tx → Prop) (m : T A) (Q : result A → tx → Prop) : Prop :=
  ∀ s, P s → ∃ s' r, m s = Some (s', r) ∧ Q r s'.

Lemma triple_bind {A B} P (m : T A) (k : A → T B) Q (R : A → tx → Prop) :
  triple P m (λ r s, match r with Ok a => R a s | Err e => Q (Err e) s end) →
  (∀ a, triple (R a) (k a) Q) → triple P (mbind k m) Q.
Proof.
  intros Hm Hk s Hs. destruct (Hm s Hs) as (s1 & r & H1 & Hr). unfold mbind, T_bind. rewrite H1.
  destruct r as [a|e]; [by apply Hk|]. by exists s1, (Err e).
Qed.
Lemma triple_ret {A} (P : tx → Prop) (a : A) Q : (∀ s, P s → Q (Ok a) s) → triple P (mret a) Q.
Proof. intros H s Hs. exists s, (Ok a). split; [done|auto]. Qed.
Lemma triple_get P Q : (∀ s, P s → Q (Ok s) s) → triple P get Q.
Proof. intros H s Hs. exists s, (Ok s). split; [done|auto]. Qed.
Lemma triple_modify (P : tx → Prop) f Q : (∀ s, P s → Q (Ok ()) (f s)) → triple P (modify f) Q.
Proof. intros H s Hs. exists (f s), (Ok ()). split; [done|auto]. Qed.
Lemma triple_throw {A} (P : tx → Prop) e (Q : result A → tx → Prop) : (∀ s, P s → Q (Err e) s) → triple P (throw e) Q.
Proof. intros H s Hs. exists s, (Err e). split; [done|auto]. Qed.
Lemma triple_lift {A} (P : tx → Prop) (o : option A) Q :
  (∀ s, P s → ∃ a, o = Some a ∧ Q (Ok a) s) → triple P (lift o) Q.
Proof. intros H s Hs. destruct (H s Hs) as (a & -> & HQ). exists s, (Ok a). done. Qed.
Lemma triple_ask {A} (P : tx → Prop) (f : nat → A) Q :
  (∀ s, P s → ∀ a, Q (Ok a) (s <| tx_tick := S s.(tx_tick) |>)) → triple P (ask f) Q.
Proof. intros H s Hs. eexists _, _. split; [done|auto]. Qed.
Lemma triple_when (P : tx → Prop) b m Q :
  (b = true → triple P m Q) → (b = false → ∀ s, P s → Q (Ok ()) s) → triple P (when b m) Q.
Proof. intros H1 H2. destruct b; [by apply H1|]. apply triple_ret. by apply H2. Qed.
Lemma triple_conseq {A} (P P' : tx → Prop) (m : T A) (Q Q' : result A → tx → Prop) :
  triple P' m Q' → (∀ s, P s → P' s) → (∀ r s, Q' r s → Q r s) → triple P m Q.
Proof. intros Hm HP HQ s Hs. destruct (Hm s (HP s Hs)) as (s' & r & H1 & H2). eauto. Qed.
(** what does not depend on the state can be had first *)
Lemma triple_pure {A} (φ : Prop) (P : tx → Prop) (m : T A) Q :
  (∀ s, P s → φ) → (φ → triple P m Q) → triple P m Q.
Proof. intros H1 H2 s Hs. exact (H2 (H1 s Hs) s Hs). Qed.

(** ** Well-formed states *)
Record tx_env_ok (E : txenv) : Prop := mkTxEnvOk {
  te_cfg : config_wf E.(tx_cfg);
  te_batch : 0 < E.(tx_cfg).(batchSize);
  te_max : 1 ≤ E.(gsoMaxFrames);
  te_off : E.(gsoMaxFrames) < 2 → E.(gsoSize) = 0;
  te_on : 2 ≤ E.(gsoMaxFrames) → E.(gsoSize) = maxDatagram E.(tx_cfg);
  (** the headers of a full pack fit the slot's buffer *)
  te_strip : 2 ≤ E.(gsoMaxFrames) → E.(gsoMaxFrames) * frameHdrLen E frameData ≤ maxDatagram E.(tx_cfg);
}.

Section inv.
Context (E : txenv) (HE : tx_env_ok E).
#[local] Abbreviation cf := (tx_cfg E).
#[local] Abbreviation g := (gsoSize E).
#[local] Abbreviation dgram := (maxDatagram (tx_cfg E)).
#[local] Abbreviation hdr := (frameHdrLen E frameData).
Implicit Types (s : tx) (m : msg) (f : list Z).

Definition slot_ok m : Prop :=
  Zlen m.(m_buf) = dgram ∧ Zlen m.(m_iov) = iovsPer E ∧ ∃ n, m.(m_iov) !! 0%nat = Some (mkIov (BaseBuf 0) n).

(** a message of the frames [fs], whose headers lie one after the other at
    the start of the buffer *)
Definition packed m (fs : list (list Z)) : Prop :=
  ∀ k f, fs !! k = Some f → ∃ p,
    m.(m_iov) !! (2 * k)%nat = Some (mkIov (BaseBuf (Z.of_nat k * hdr)) hdr) ∧
    m.(m_iov) !! (2 * k + 1)%nat = Some (payload_iov p) ∧
    f = slice m.(m_buf) (Z.of_nat k * hdr) (Z.of_nat k * hdr + hdr) ++ p.

Definition all_full (fs : list (list Z)) : Prop := Forall (λ f, Zlen f = g) fs.

Definition pack_ok s : Prop :=
  s.(packIdx) = -1 ∨
  2 ≤ E.(gsoMaxFrames) ∧ 1 ≤ s.(sendN) ∧ s.(packIdx) = s.(sendN) - 1 ∧ 1 ≤ s.(packFrames) < E.(gsoMaxFrames) ∧
  s.(packHdrOff) = s.(packFrames) * hdr ∧ s.(packBytes) = s.(packFrames) * g ∧
  ∃ m fs, s.(slots) !! Z.to_nat s.(packIdx) = Some m ∧ packed m fs ∧ all_full fs ∧ Zlen fs = s.(packFrames).

Definition dgrams (msgs : list (list Z)) : list (list Z) := concat (segments g <$> msgs).
Definition pending_msgs s : list (list Z) := msg_bytes <$> take (Z.to_nat s.(sendN)) (closePackLocked s).(slots).
Definition pending s : list (list Z) := dgrams (pending_msgs s).
Definition queued s : list (list Z) := concat (dgrams ∘ b_msgs <$> s.(wire)) ++ pending s.

(** the accounting of a set of datagrams *)
Definition acct (fs : list (list Z)) (wireBytes udpBytes n : Z) : Prop :=
  match E.(tx_pacer) with
  | None => True
  | Some p => wireBytes = foldr Z.add 0 (Cost p.(accounting) ∘ Zlen <$> fs) ∧
              udpBytes = foldr Z.add 0 (Zlen <$> fs) ∧ n = Zlen fs
  end.

(** the size of a message: a datagram, or a pack *)
Definition msg_size : Z := Z.max dgram (E.(gsoMaxFrames) * g).
Record batch_ok (b : batch) : Prop := mkBatchOk {
  bo_count : 1 ≤ Zlen b.(b_msgs) ≤ cf.(batchSize);
  bo_size : Forall (λ x, Zlen x ≤ msg_size) b.(b_msgs);
  bo_acct : acct (dgrams b.(b_msgs)) b.(b_wireBytes) b.(b_udpBytes) b.(b_datagrams);
}.

Record tx_ok s : Prop := mkTxOk {
  tk_len : Zlen s.(slots) = cf.(batchSize);
  tk_slots : Forall slot_ok s.(slots);
  tk_n : 0 ≤ s.(sendN) ≤ cf.(batchSize);
  tk_pack : pack_ok s;
  tk_size : Forall (λ x, Zlen x ≤ msg_size) (pending_msgs s);
  tk_acct : acct (pending s) s.(sendWireBytes) s.(sendUDPBytes) s.(sendDatagrams);
  tk_wire : Forall batch_ok s.(wire);
}.

(** [D] is what has been queued *)
Definition st (D : list (list Z)) s : Prop := tx_ok s ∧ queued s = D.
(** no message is open *)
Definition st0 (D : list (list Z)) s : Prop := st D s ∧ s.(packIdx) = -1.

(** ** Closing a pack, flushing *)
Lemma closed_pack s : s.(packIdx) = -1 → closePackLocked s = s.
Proof using. intros Hp. unfold closePackLocked. by rewrite Hp, bool_decide_true. Qed.

Lemma Forall_alter_slot (P : msg → Prop) h i l : Forall P l → (∀ m, P m → P (h m)) → Forall P (alter h i l).
Proof using.
  intros Hl Hh. apply Forall_lookup_2. intros j m Hj. rewrite Forall_lookup in Hl.
  destruct (decide (i = j)) as [->|Hne].
  - rewrite list_lookup_alter_eq in Hj. destruct (l !! j) eqn:Hlj; [|done]. injection Hj as <-. eauto.
  - rewrite list_lookup_alter_ne in Hj by done. eauto.
Qed.

Lemma closePack_slots s : tx_ok s → Forall slot_ok (closePackLocked s).(slots) ∧ Zlen (closePackLocked s).(slots) = cf.(batchSize).
Proof using.
  intros Hs. unfold closePackLocked. case_bool_decide; [split; [apply (tk_slots _ Hs)|apply (tk_len _ Hs)]|]. cbn. split.
  - apply Forall_alter_slot; [apply (tk_slots _ Hs)|]. done.
  - unfold Zlen. rewrite length_alter. apply (tk_len _ Hs).
Qed.

Lemma closePack_fields s : let s' := closePackLocked s in
  s'.(sendN) = s.(sendN) ∧ s'.(sendWireBytes) = s.(sendWireBytes) ∧ s'.(sendUDPBytes) = s.(sendUDPBytes) ∧
  s'.(sendDatagrams) = s.(sendDatagrams) ∧ s'.(sendPaceClass) = s.(sendPaceClass) ∧ s'.(wire) = s.(wire).
Proof using. cbv zeta. unfold closePackLocked. by case_bool_decide. Qed.

Lemma closePack_idx s : tx_ok s → (closePackLocked s).(packIdx) = -1.
Proof using.
  intros Hs. unfold closePackLocked. case_bool_decide as Hp; [|done].
  destruct (tk_pack _ Hs) as [?|(_ & ? & ? & _)]; [done|lia].
Qed.

Lemma closePack_pending s : tx_ok s → pending_msgs (closePackLocked s) = pending_msgs s.
Proof using.
  intros Hs. unfold pending_msgs. rewrite (closed_pack (closePackLocked s)) by (by apply closePack_idx).
  destruct (closePack_fields s) as (-> & _). done.
Qed.

Lemma closePack_st D s : st D s → st0 D (closePackLocked s).
Proof using.
  intros [Hs HD]. pose proof (closePack_pending s Hs) as Hp. pose proof (closePack_idx s Hs) as Hi.
  destruct (closePack_slots s Hs) as [Hsl Hlen]. destruct (closePack_fields s) as (F1 & F2 & F3 & F4 & F5 & F6).
  split; [split|done].
  - split; unfold pending; rewrite ?Hp, ?F1, ?F2, ?F3, ?F4, ?F6; try apply Hs; try done. by left.
  - unfold queued, pending. by rewrite Hp, F6.
Qed.

(** an empty batch *)
Lemma empty_st D s' s : st D s → s.(packIdx) = -1 → s'.(slots) = s.(slots) → s'.(packIdx) = -1 → s'.(sendN) = 0 →
  s'.(sendWireBytes) = 0 → s'.(sendUDPBytes) = 0 → s'.(sendDatagrams) = 0 →
  Forall batch_ok s'.(wire) → concat (dgrams ∘ b_msgs <$> s'.(wire)) = D → st0 D s'.
Proof using HE.
  intros [Hs _] Hp Hsl Hp' Hn H1 H2 H3 Hw HD. pose proof (te_batch _ HE).
  assert (pending_msgs s' = []) as Hpm by (unfold pending_msgs; by rewrite Hn).
  split; [split|done].
  - split; unfold pending; rewrite ?Hpm, ?Hsl, ?Hn; try apply Hs; try done; [lia|by left|].
    unfold acct. rewrite H1, H2, H3. by destruct (tx_pacer E).
  - unfold queued, pending. rewrite Hpm, HD. apply app_nil_r.
Qed.

(** a hand-over of the whole batch *)
Lemma emit_st D s0 s' r : st0 D s0 → 0 < s0.(sendN) → s'.(slots) = s0.(slots) → s'.(wire) = s0.(wire) →
  s'.(packIdx) = -1 → st0 D (emit s0.(sendN) r s0 (resetBatchAccountingLocked (s' <| sendN := 0 |>))).
Proof using HE.
  intros [Hst Hp] Hn Hsl Hw Hp'. pose proof Hst as [Hs HD].
  assert (pending_msgs s0 = msg_bytes <$> take (Z.to_nat s0.(sendN)) s0.(slots)) as Hpm.
  { unfold pending_msgs. by rewrite closed_pack. }
  eapply empty_st; [exact Hst|done|done..|cbn; rewrite Hw; apply Forall_app; split; [apply (tk_wire _ Hs)|]|].
  - apply Forall_singleton. pose proof (tk_size _ Hs) as Hsz. pose proof (tk_acct _ Hs) as Hac. unfold pending in Hac.
    rewrite Hpm in Hsz, Hac. split; cbn; [|done|done].
    pose proof (tk_n _ Hs). pose proof (tk_len _ Hs) as Hl. unfold Zlen in *. rewrite length_fmap, length_take. lia.
  - cbn. rewrite Hw, fmap_app, concat_app. cbn. rewrite app_nil_r. rewrite <- Hpm. exact HD.
Qed.

Lemma flushSendLocked_spec D :
  triple (st D) (flushSendLocked E) (λ r s, st0 D s ∧ s.(sendN) = 0).
Proof using HE.
  unfold flushSendLocked. eapply triple_bind with (R := λ _, st0 D); [apply triple_modify; apply closePack_st|]. intros _.
  eapply triple_bind with (R := λ s0 s, s = s0 ∧ st0 D s); [by apply triple_get|]. intros s0.
  case_bool_decide as Hz.
  { apply triple_modify. intros s [-> [Hst Hp]]. pose proof Hst as [Hs HD]. split; [|done].
    eapply (empty_st D _ s0); try done; [apply (tk_wire _ Hs)|].
    unfold queued, pending, pending_msgs in HD. rewrite Hz in HD. cbn in HD. by rewrite app_nil_r in HD. }
  apply (triple_pure (st0 D s0)); [by intros s [-> ?]|]. intros H0.
  assert (0 < s0.(sendN)) as Hpos by (pose proof (tk_n _ (proj1 (proj1 H0))); lia).
  set (like := λ s : tx, s.(slots) = s0.(slots) ∧ s.(wire) = s0.(wire) ∧ s.(packIdx) = -1).
  assert (∀ r s, like s → st0 D (emit s0.(sendN) r s0 (resetBatchAccountingLocked (s <| sendN := 0 |>))) ∧
    (emit s0.(sendN) r s0 (resetBatchAccountingLocked (s <| sendN := 0 |>))).(sendN) = 0) as Hemit.
  { intros r s (L1 & L2 & L3). split; [|done]. by apply emit_st. }
  eapply triple_bind with (R := λ _, like).
  { apply triple_ask. intros s [-> [_ Hp]] shut. by split_and!. }
  intros shut. destruct shut.
  { eapply triple_bind with (R := λ _ s, st0 D s ∧ s.(sendN) = 0); [apply triple_modify; apply Hemit|]. intros _. by apply triple_throw. }
  eapply triple_bind with (R := λ _, like).
  { destruct (tx_pacer E); [apply triple_ask; by intros s Hs|by apply triple_ret]. }
  intros ok. destruct (negb ok).
  { eapply triple_bind with (R := λ _ s, st0 D s ∧ s.(sendN) = 0); [apply triple_modify; apply Hemit|]. intros _. by apply triple_throw. }
  eapply triple_bind with (R := λ _, like); [by apply triple_ask|]. intros errno.
  eapply triple_bind with (R := λ _ s, st0 D s ∧ s.(sendN) = 0); [apply triple_modify; apply Hemit|]. intros _.
  destruct (negb _); [by apply triple_throw|by apply triple_ret].
Qed.

Lemma flush_if_full_spec D : triple (st D) (flush_if_full E) (λ r s, st D s).
Proof using HE.
  unfold flush_if_full. eapply triple_bind with (R := λ _, st D); [by apply triple_get|]. intros s0.
  apply triple_when; [intros _|done]. eapply triple_conseq; [apply (flushSendLocked_spec D)|done|]. by intros r s [[? _] _].
Qed.

(** ** Single-frame messages *)

(** [idx] is the next slot to fill *)
Definition ready D (idx : Z) s : Prop := st0 D s ∧ s.(sendN) = idx ∧ idx < cf.(batchSize).

Lemma splitPacingClassLocked_spec D class : triple (st0 D) (splitPacingClassLocked E class) (λ r s, st0 D s).
Proof using HE.
  unfold splitPacingClassLocked. eapply triple_bind with (R := λ _, st0 D); [by apply triple_get|]. intros s0.
  apply triple_when; [intros _|done].
  eapply triple_conseq; [apply (flushSendLocked_spec D)|by intros s []|]. by intros r s [? _].
Qed.

Lemma acquireSendSlot_spec D class :
  triple (st D) (acquireSendSlot E class) (λ r s, match r with Ok idx => ready D idx s | Err _ => st D s end).
Proof using HE.
  unfold acquireSendSlot. eapply triple_bind with (R := λ _, st0 D); [apply triple_modify; apply closePack_st|]. intros _.
  eapply triple_bind with (R := λ _, st0 D).
  { eapply triple_conseq; [apply splitPacingClassLocked_spec|done|]. intros [] s []; [done|]. done. }
  intros _. eapply triple_bind with (R := λ s0 s, s = s0 ∧ st0 D s); [by apply triple_get|]. intros s0.
  eapply triple_bind with (R := λ _ s, st0 D s ∧ s.(sendN) < cf.(batchSize)).
  { apply triple_when.
    - intros _. eapply triple_conseq; [apply (flushSendLocked_spec D)|by intros s [-> []]|].
      pose proof (te_batch _ HE). intros [] s [[? ?] ?]; [|done]. split; [done|lia].
    - intros Hb%bool_decide_eq_false s [-> ?]. split; [done|lia]. }
  intros _. eapply triple_bind with (R := λ s0 s, s = s0 ∧ st0 D s ∧ s.(sendN) < cf.(batchSize)); [by apply triple_get|].
  intros s1. apply triple_ret. intros s (-> & ? & ?). done.
Qed.

Lemma set_slot_st D idx h s :
  st0 D s → s.(sendN) ≤ idx → (∀ m, slot_ok m → slot_ok (h m)) → st0 D (set_slot idx h s).
Proof using.
  intros [[Hs HD] Hp] Hi Hh. pose proof (tk_n _ Hs).
  assert (pending_msgs (set_slot idx h s) = pending_msgs s) as Hpm.
  { unfold pending_msgs. rewrite !closed_pack by done. cbn. by rewrite take_alter_ge by lia. }
  split; [split|done].
  - split; unfold pending; rewrite ?Hpm; try apply Hs.
    + cbn. unfold Zlen. rewrite length_alter. apply (tk_len _ Hs).
    + cbn. apply Forall_alter_slot; [apply (tk_slots _ Hs)|done].
    + by left.
  - unfold queued, pending. by rewrite Hpm.
Qed.

Lemma write_slot_spec D idx wr bytes n :
  (∀ buf, Zlen buf = dgram → ∃ rest, wr buf = Some (bytes ++ rest, n) ∧ Zlen (bytes ++ rest) = dgram) →
  triple (ready D idx) (write_slot idx wr)
    (λ r s, r = Ok n ∧ ready D idx s ∧ ∃ m rest, s.(slots) !! Z.to_nat idx = Some m ∧ slot_ok m ∧ m.(m_buf) = bytes ++ rest).
Proof using.
  intros Hf s Hr. pose proof Hr as ([[Hs HD] Hp] & Hn & Hlt). pose proof (tk_n _ Hs). pose proof (tk_len _ Hs) as Hl.
  destruct (lookup_lt_is_Some_2 s.(slots) (Z.to_nat idx)) as [m Hm]; [unfold Zlen in Hl; lia|].
  pose proof (tk_slots _ Hs) as Hsl. rewrite Forall_lookup in Hsl. destruct (Hsl _ _ Hm) as (Hb & Hiv & H0).
  destruct (Hf m.(m_buf) Hb) as (rest & Hfb & Hlen).
  unfold write_slot, mbind, T_bind, get, lift, modify. rewrite Hm, Hfb.
  eexists _, _. split; [reflexivity|]. split; [done|]. split.
  - split; [|done]. apply set_slot_st; [done|lia|]. intros m' (_ & ? & ?). done.
  - exists (m <| m_buf := bytes ++ rest |>), rest. split_and!; [|done|done]. cbn. rewrite list_lookup_alter_eq, Hm. done.
Qed.

Lemma foldr_add_snoc (l : list Z) x : foldr Z.add 0 (l ++ [x]) = foldr Z.add 0 l + x.
Proof using. rewrite foldr_app. cbn. induction l; cbn; lia. Qed.

Lemma acct_snoc fs f class s :
  acct fs s.(sendWireBytes) s.(sendUDPBytes) s.(sendDatagrams) →
  let s' := accountDatagramLocked E (Zlen f) class s in
  acct (fs ++ [f]) s'.(sendWireBytes) s'.(sendUDPBytes) s'.(sendDatagrams) ∧
  s'.(slots) = s.(slots) ∧ s'.(sendN) = s.(sendN) ∧ s'.(packIdx) = s.(packIdx) ∧ s'.(wire) = s.(wire) ∧
  s'.(packFrames) = s.(packFrames) ∧ s'.(packBytes) = s.(packBytes) ∧ s'.(packHdrOff) = s.(packHdrOff) ∧
  s'.(sendLens) = s.(sendLens).
Proof using.
  unfold acct, accountDatagramLocked. destruct (tx_pacer E) as [p|]; [|done]. intros (H1 & H2 & H3). cbv zeta.
  set (s1 := if _ =? 0 then _ else _).
  assert (s1 = s <| sendPaceClass := s1.(sendPaceClass) |>) as Hs1.
  { unfold s1. case_bool_decide; [done|]. case_bool_decide; [done|]. by destruct s. }
  rewrite Hs1. clearbody s1. cbn. split; [|done]. rewrite !fmap_app. cbn.
  rewrite !foldr_add_snoc, Zlen_app, H1, H2, H3. done.
Qed.

Lemma dgrams_app l1 l2 : dgrams (l1 ++ l2) = dgrams l1 ++ dgrams l2.
Proof using. unfold dgrams. by rewrite fmap_app, concat_app. Qed.
Lemma dgrams_one f : Zlen f ≤ dgram → dgrams [f] = [f].
Proof using HE.
  intros Hf. unfold dgrams. cbn. rewrite segments_one; [done|].
  destruct (decide (gsoMaxFrames E < 2)); [left; rewrite (te_off _ HE); lia|right; rewrite (te_on _ HE); lia].
Qed.

(** a frame of its own in the next slot *)
Lemma append_st D s idx h f lens class m :
  ready D idx s → s.(slots) !! Z.to_nat idx = Some m → (∀ m, slot_ok m → slot_ok (h m)) →
  msg_bytes (h m) = f → Zlen f ≤ dgram →
  st0 (D ++ [f]) (accountDatagramLocked E (Zlen f) class (set_slot idx h s <| sendLens := lens |> <| sendN := idx + 1 |>)).
Proof using HE.
  intros ([[Hs HD] Hp] & Hn & Hlt) Hm Hh Hf Hlen. pose proof (tk_n _ Hs).
  set (s1 := set_slot idx h s <| sendLens := lens |> <| sendN := idx + 1 |>).
  assert (pending_msgs s1 = pending_msgs s ++ [f]) as Hpm.
  { unfold pending_msgs. rewrite !closed_pack by done. cbn. replace (Z.to_nat (idx + 1)) with (S (Z.to_nat idx)) by lia.
    erewrite take_S_r by (by rewrite list_lookup_alter_eq, Hm). rewrite take_alter_ge by lia. rewrite fmap_app, Hn. cbn. by rewrite Hf. }
  assert (pending s1 = pending s ++ [f]) as Hpd by (unfold pending; by rewrite Hpm, dgrams_app, dgrams_one).
  pose proof (tk_acct _ Hs) as Hac.
  destruct (acct_snoc (pending s) f class s1 Hac) as (A1 & A2 & A3 & A4 & A5 & _).
  set (s2 := accountDatagramLocked E (Zlen f) class s1) in *. clearbody s2.
  assert (pending_msgs s2 = pending_msgs s ++ [f]) as Hpm2.
  { rewrite <- Hpm. unfold pending_msgs. rewrite !closed_pack by (rewrite ?A4; done). by rewrite A2, A3. }
  split; [split|by rewrite A4].
  - split; unfold pending; rewrite ?Hpm2, ?A2, ?A3, ?A5.
    + cbn. unfold Zlen. rewrite length_alter. apply (tk_len _ Hs).
    + cbn. apply Forall_alter_slot; [apply (tk_slots _ Hs)|done].
    + cbn. lia.
    + left. by rewrite A4.
    + apply Forall_app. split; [apply (tk_size _ Hs)|]. apply Forall_singleton. unfold msg_size. lia.
    + rewrite dgrams_app, dgrams_one by done. exact A1.
    + apply (tk_wire _ Hs).
  - unfold queued, pending. rewrite Hpm2, A5, dgrams_app, dgrams_one by done. cbn. rewrite app_assoc.
    unfold queued, pending in HD. by rewrite HD.
Qed.

(** the next slot's buffer starts with [bytes] *)
Definition filled D (idx : Z) (bytes : list Z) s : Prop :=
  ready D idx s ∧ ∃ m rest, s.(slots) !! Z.to_nat idx = Some m ∧ slot_ok m ∧ m.(m_buf) = bytes ++ rest.

Lemma iov_payload buf p : iov_bytes buf (payload_iov p) = p.
Proof using.
  unfold payload_iov, iov_bytes. case_bool_decide as Hp; cbn; [apply slice_all|].
  symmetry. apply Zlen_0. pose proof (Zlen_nonneg p). lia.
Qed.

Lemma slot_ok_iov0 m n : slot_ok m →
  set_iov 0 (default (mkIov BaseNil 0) (m.(m_iov) !! 0%nat) <| iov_Len := n |>) m
  = m <| m_iov := mkIov (BaseBuf 0) n :: tail m.(m_iov) |>.
Proof using.
  intros (_ & _ & k & H0). unfold set_iov. rewrite H0. cbn. destruct m as [b [|v vs] l]; [done|]. done.
Qed.

Lemma slot_ok_set_iov m k v : slot_ok m → 0 < k → slot_ok (set_iov k v m).
Proof using.
  intros (H1 & H2 & n & H0) Hk. split_and!; [done| |].
  - unfold Zlen in *. cbn. by rewrite length_insert.
  - exists n. cbn. rewrite list_lookup_insert_ne by lia. done.
Qed.

Lemma commitSendSlot_spec D idx bytes class :
  Zlen bytes ≤ dgram →
  triple (filled D idx bytes) (commitSendSlot E idx (Zlen bytes) class) (λ r s, st (D ++ [bytes]) s).
Proof using HE.
  intros Hlen s (Hr & m & rest & Hm & Hok & Hb).
  set (h := λ m : msg, set_iov 0 (default (mkIov BaseNil 0) (m.(m_iov) !! 0%nat) <| iov_Len := Zlen bytes |>) m <| m_iovlen := 1 |>).
  change (commitSendSlot E idx (Zlen bytes) class s) with
    (flush_if_full E (accountDatagramLocked E (Zlen bytes) class
       (set_slot idx h s <| sendLens := <[Z.to_nat idx := Zlen bytes]> (set_slot idx h s).(sendLens) |> <| sendN := idx + 1 |>))).
  apply (flush_if_full_spec (D ++ [bytes])). eapply append_st; try done.
  - intros m' Hm'. unfold h. rewrite slot_ok_iov0 by done. destruct Hm' as (H1 & H2 & n & H0).
    split_and!; [done| |by eexists]. cbn. destruct (m_iov m'); [done|]. cbn. by rewrite Zlen_cons in *.
  - unfold h. rewrite slot_ok_iov0 by done. unfold msg_bytes. cbn [m_buf m_iov m_iovlen put].
    change (Z.to_nat 1) with 1%nat. cbn. rewrite take_0. cbn. rewrite Hb, app_nil_r. by apply slice_pre.
Qed.

Lemma commitSendSlotZeroCopy_spec D idx bytes payload class :
  Zlen (bytes ++ payload) ≤ dgram →
  triple (filled D idx bytes) (commitSendSlotZeroCopy E idx (Zlen bytes) payload class) (λ r s, st (D ++ [bytes ++ payload]) s).
Proof using HE.
  intros Hlen s (Hr & m & rest & Hm & Hok & Hb).
  set (h := λ m : msg, set_iov 1 (payload_iov payload)
    (set_iov 0 (default (mkIov BaseNil 0) (m.(m_iov) !! 0%nat) <| iov_Len := Zlen bytes |>) m) <| m_iovlen := 2 |>).
  assert (Zlen bytes + Zlen payload = Zlen (bytes ++ payload)) as Hsum by (by rewrite Zlen_app).
  change (commitSendSlotZeroCopy E idx (Zlen bytes) payload class s) with
    (flush_if_full E (accountDatagramLocked E (Zlen bytes + Zlen payload) class
       (set_slot idx h s <| sendLens := <[Z.to_nat idx := Zlen bytes + Zlen payload]> (set_slot idx h s).(sendLens) |>
          <| sendN := idx + 1 |>))).
  rewrite Hsum. apply (flush_if_full_spec (D ++ [bytes ++ payload])). eapply append_st; try done.
  - intros m' Hm'. unfold h. rewrite slot_ok_iov0 by done.
    change (slot_ok (set_iov 1 (payload_iov payload) (m' <| m_iov := mkIov (BaseBuf 0) (Zlen bytes) :: tail m'.(m_iov) |>))).
    apply slot_ok_set_iov; [|lia]. destruct Hm' as (H1 & H2 & n & H0). split_and!; [done| |by eexists].
    cbn. destruct (m_iov m'); [done|]. cbn. by rewrite Zlen_cons in *.
  - unfold h. rewrite slot_ok_iov0 by done. unfold msg_bytes. cbn [m_buf m_iov m_iovlen put set_iov].
    change (Z.to_nat 2) with 2%nat. destruct Hok as (_ & Hiv & n & H0).
    destruct (m_iov m) as [|v0 [|v1 vs]]; [done| |].
    { exfalso. change (Zlen [v0]) with 1 in Hiv. unfold iovsPer in Hiv. lia. }
    change (Z.to_nat 1) with 1%nat. cbn -[payload_iov]. rewrite take_0, fmap_nil, iov_payload. cbn. rewrite app_nil_r, Hb. f_equal. by apply slice_pre.
Qed.

(** A frame that gets its own message: the slot's part [bytes], written by
    [wr], and a payload by reference. *)
Definition appended D f : result () → tx → Prop := λ r s,
  match r with Ok _ => st (D ++ [f]) s | Err _ => st D s ∨ st (D ++ [f]) s end.

Lemma own_slot_spec D class wr bytes :
  Zlen bytes ≤ dgram →
  (∀ buf, Zlen buf = dgram → ∃ rest, wr buf = Some (bytes ++ rest, Zlen bytes) ∧ Zlen (bytes ++ rest) = dgram) →
  triple (st D) (idx ← acquireSendSlot E class; n ← write_slot idx wr; commitSendSlot E idx n class) (appended D bytes).
Proof using HE.
  intros Hlen Hwr. eapply triple_bind.
  { eapply triple_conseq; [apply (acquireSendSlot_spec D)|done|]. intros [idx|e] s Hs; [exact Hs|by left]. }
  intros idx. eapply triple_bind with (R := λ n s, n = Zlen bytes ∧ filled D idx bytes s).
  { eapply triple_conseq; [apply (write_slot_spec D idx wr bytes (Zlen bytes) Hwr)|done|]. by intros r s (-> & H1 & H2). }
  intros n. apply (triple_pure (n = Zlen bytes)); [by intros s [-> _]|]. intros ->.
  eapply triple_conseq; [apply (commitSendSlot_spec D idx bytes class Hlen)|by intros s []|].
  intros [] s Hs; [done|by right].
Qed.

Lemma own_slot_zc_spec D class wr bytes payload :
  Zlen (bytes ++ payload) ≤ dgram →
  (∀ buf, Zlen buf = dgram → ∃ rest, wr buf = Some (bytes ++ rest, Zlen bytes) ∧ Zlen (bytes ++ rest) = dgram) →
  triple (st D) (idx ← acquireSendSlot E class; n ← write_slot idx wr; commitSendSlotZeroCopy E idx n payload class)
    (appended D (bytes ++ payload)).
Proof using HE.
  intros Hlen Hwr. eapply triple_bind.
  { eapply triple_conseq; [apply (acquireSendSlot_spec D)|done|]. intros [idx|e] s Hs; [exact Hs|by left]. }
  intros idx. eapply triple_bind with (R := λ n s, n = Zlen bytes ∧ filled D idx bytes s).
  { eapply triple_conseq; [apply (write_slot_spec D idx wr bytes (Zlen bytes) Hwr)|done|]. by intros r s (-> & H1 & H2). }
  intros n. apply (triple_pure (n = Zlen bytes)); [by intros s [-> _]|]. intros ->.
  eapply triple_conseq; [apply (commitSendSlotZeroCopy_spec D idx bytes payload class Hlen)|by intros s []|].
  intros [] s Hs; [done|by right].
Qed.

(** ... and is flushed at once *)
Lemma then_flush_spec D f (m : T unit) : triple (st D) m (appended D f) →
  triple (st D) (_ ← m; flushSend E) (appended D f).
Proof using HE.
  intros Hm. eapply triple_bind with (R := λ _, st (D ++ [f])).
  { eapply triple_conseq; [exact Hm|done|]. by intros [] s Hs. }
  intros _. eapply triple_conseq; [apply (flushSendLocked_spec (D ++ [f]))|done|].
  intros [] s [[Hs _] _]; [done|by right].
Qed.

(** ** Packed messages *)
Lemma hdr_bounds : 0 < hdr.
Proof using. unfold frameHdrLen, frameHeaderSize, fecMetaLen. destruct (_ && _); lia. Qed.

Lemma packed_bytes m fs : packed m fs → msg_bytes (m <| m_iovlen := 2 * Zlen fs |>) = concat fs.
Proof using.
  intros Hp. unfold msg_bytes. cbn [m_buf m_iov m_iovlen put].
  replace (Z.to_nat (2 * Zlen fs)) with (2 * length fs)%nat by (unfold Zlen; lia).
  assert (∀ k, (k ≤ length fs)%nat → concat (iov_bytes m.(m_buf) <$> take (2 * k) m.(m_iov)) = concat (take k fs)) as Hk.
  { induction k as [|k IH]; intros Hk; [by rewrite take_0|].
    destruct (lookup_lt_is_Some_2 fs k) as [f Hf]; [lia|]. destruct (Hp k f Hf) as (p & H1 & H2 & H3).
    replace (2 * S k)%nat with (S (S (2 * k))) by lia.
    rewrite (take_S_r _ _ _ Hf), concat_app.
    erewrite take_S_r by (by replace (S (2 * k)) with (2 * k + 1)%nat by lia).
    erewrite take_S_r by exact H1. rewrite !fmap_app, !concat_app, IH by lia.
    cbn -[payload_iov]. rewrite iov_payload, !app_nil_r, <- app_assoc, H3. done. }
  rewrite Hk by lia. by rewrite take_ge.
Qed.

(** the messages before the one being packed *)
Definition before s : list (list Z) := msg_bytes <$> take (Z.to_nat (s.(sendN) - 1)) s.(slots).

(** [fs] is being packed in the last reserved slot *)
Record packing (D fs : list (list Z)) s : Prop := mkPacking {
  pg_on : 2 ≤ E.(gsoMaxFrames);
  pg_len : Zlen s.(slots) = cf.(batchSize);
  pg_slots : Forall slot_ok s.(slots);
  pg_n : 1 ≤ s.(sendN) ≤ cf.(batchSize);
  pg_idx : s.(packIdx) = s.(sendN) - 1;
  pg_frames : s.(packFrames) = Zlen fs;
  pg_off : s.(packHdrOff) = Zlen fs * hdr;
  pg_bytes : s.(packBytes) = Zlen (concat fs);
  pg_slot : ∃ m, s.(slots) !! Z.to_nat s.(packIdx) = Some m ∧ packed m fs;
  pg_size : Forall (λ x, Zlen x ≤ msg_size) (before s);
  pg_acct : acct (dgrams (before s) ++ fs) s.(sendWireBytes) s.(sendUDPBytes) s.(sendDatagrams);
  pg_wire : Forall batch_ok s.(wire);
  pg_queued : concat (dgrams ∘ b_msgs <$> s.(wire)) ++ dgrams (before s) ++ fs = D;
}.

Lemma packing_msgs D fs s : packing D fs s → pending_msgs s = before s ++ [concat fs].
Proof using.
  intros [P1 P2 P3 P4 P5 P6 P7 P8 (m & P9 & P9') P10 P11 P12 P13]. unfold pending_msgs, before, closePackLocked.
  rewrite bool_decide_false by lia. cbn. replace (Z.to_nat (sendN s)) with (S (Z.to_nat (sendN s - 1))) by lia.
  rewrite P5 in *. erewrite take_S_r by (by rewrite list_lookup_alter_eq, P9).
  rewrite take_alter_ge by lia. rewrite fmap_app. cbn. rewrite P6. by rewrite (packed_bytes m fs P9').
Qed.

Lemma all_full_size fs : all_full fs → Zlen (concat fs) = Zlen fs * g.
Proof using.
  induction 1 as [|f fs Hf _ IH]; [done|]. cbn [concat]. rewrite Zlen_app, Zlen_cons, IH, Hf. lia.
Qed.

Lemma dgrams_pack fs f : 0 < g → all_full fs → 0 < Zlen f ≤ g → dgrams [concat (fs ++ [f])] = fs ++ [f].
Proof using.
  intros Hg Hfs Hf. unfold dgrams. cbn. rewrite app_nil_r, concat_app. cbn. rewrite app_nil_r. by apply segments_app.
Qed.

(** a pack of at least a frame is a well-formed pending message *)
Lemma packing_tx_ok D fs f s : packing D (fs ++ [f]) s → all_full fs → 0 < Zlen f ≤ g →
  Zlen (fs ++ [f]) ≤ E.(gsoMaxFrames) → pack_ok s → st D s.
Proof using.
  intros Hp Hfs Hf Hmax Hpk. pose proof (packing_msgs _ _ _ Hp) as Hm. pose proof Hp as [P1 P2 P3 P4 P5 P6 P7 P8 P9 P10 P11 P12 P13].
  assert (dgrams (pending_msgs s) = dgrams (before s) ++ fs ++ [f]) as Hd.
  { rewrite Hm, dgrams_app, dgrams_pack by (done || lia). done. }
  split.
  - split; unfold pending; rewrite ?Hd; try done; [lia|]. rewrite Hm. apply Forall_app. split; [done|].
    apply Forall_singleton. rewrite concat_app, Zlen_app. cbn. rewrite app_nil_r, (all_full_size fs Hfs).
    rewrite Zlen_app in Hmax. change (Zlen [f]) with 1 in Hmax. unfold msg_size. nia.
  - unfold queued, pending. by rewrite Hd.
Qed.

Lemma packing_open D fs f s : packing D (fs ++ [f]) s → all_full (fs ++ [f]) → 0 < g →
  Zlen (fs ++ [f]) < E.(gsoMaxFrames) → st D s.
Proof using.
  intros Hp Hfull Hg Hmax. pose proof Hp as [P1 P2 P3 P4 P5 P6 P7 P8 (m & P9 & P9') P10 P11 P12 P13].
  pose proof Hfull as Hfull'. unfold all_full in Hfull'. rewrite Forall_app, Forall_singleton in Hfull'. destruct Hfull' as [Hfs Hf].
  pose proof (Zlen_nonneg fs). assert (Zlen (fs ++ [f]) = Zlen fs + 1) as Hl by (by rewrite Zlen_app).
  eapply packing_tx_ok; [exact Hp|done|lia|lia|]. right. split_and!; try done; [lia|lia|lia|by rewrite P6| |].
  - rewrite P8, P6. by apply all_full_size.
  - exists m, (fs ++ [f]). done.
Qed.

Lemma packing_close D fs f s : packing D (fs ++ [f]) s → all_full fs → 0 < Zlen f ≤ g →
  Zlen (fs ++ [f]) ≤ E.(gsoMaxFrames) → st0 D (closePackLocked s).
Proof using.
  intros Hp Hfs Hf Hmax. pose proof (packing_msgs _ _ _ Hp) as Hm. pose proof Hp as [P1 P2 P3 P4 P5 P6 P7 P8 P9 P10 P11 P12 P13].
  assert ((closePackLocked s).(packIdx) = -1) as Hi by (unfold closePackLocked; rewrite bool_decide_false by lia; done).
  assert (pending_msgs (closePackLocked s) = pending_msgs s) as Hpm.
  { unfold pending_msgs. rewrite (closed_pack (closePackLocked s)) by done. destruct (closePack_fields s) as (-> & _). done. }
  assert (dgrams (pending_msgs s) = dgrams (before s) ++ fs ++ [f]) as Hd.
  { rewrite Hm, dgrams_app, dgrams_pack by (done || lia). done. }
  destruct (closePack_fields s) as (F1 & F2 & F3 & F4 & F5 & F6).
  split; [split|done].
  - split; unfold pending; rewrite ?Hpm, ?Hd, ?F1, ?F2, ?F3, ?F4, ?F6; try done; [| |lia|by left|].
    + unfold closePackLocked. rewrite bool_decide_false by lia. cbn. unfold Zlen. rewrite length_alter. exact P2.
    + unfold closePackLocked. rewrite bool_decide_false by lia. cbn. by apply Forall_alter_slot.
    + rewrite Hm. apply Forall_app. split; [done|].
      apply Forall_singleton. rewrite concat_app, Zlen_app. cbn. rewrite app_nil_r, (all_full_size fs Hfs).
      rewrite Zlen_app in Hmax. change (Zlen [f]) with 1 in Hmax. unfold msg_size. nia.
  - unfold queued, pending. by rewrite Hpm, Hd, F6.
Qed.

(** the pack an open state is building *)
Lemma st_packing D s : st D s → s.(packIdx) ≠ -1 → 0 < g →
  ∃ fs, packing D fs s ∧ all_full fs ∧ Zlen fs < E.(gsoMaxFrames).
Proof using.
  intros [Hs HD] Hne Hg. destruct (tk_pack _ Hs) as [?|(H1 & H2 & H3 & H4 & H5 & H6 & m & fs & H7 & H8 & H9 & H10)]; [done|].
  assert (pending_msgs s = before s ++ [concat fs]) as Hm.
  { unfold pending_msgs, before, closePackLocked. rewrite bool_decide_false by lia. cbn.
    replace (Z.to_nat (sendN s)) with (S (Z.to_nat (sendN s - 1))) by lia. rewrite H3 in *.
    erewrite take_S_r by (by rewrite list_lookup_alter_eq, H7). rewrite take_alter_ge by lia. rewrite fmap_app. cbn.
    rewrite <- H10. by rewrite (packed_bytes m fs H8). }
  assert (dgrams [concat fs] = fs) as Hd.
  { destruct fs as [|f fs _] using rev_ind; [change (Zlen []) with 0 in H10; lia|].
    unfold all_full in H9. rewrite Forall_app, Forall_singleton in H9. destruct H9. apply dgrams_pack; [done|done|lia]. }
  exists fs. split_and!; [|done|lia]. pose proof (tk_size _ Hs) as Hsz. pose proof (tk_acct _ Hs) as Hac. unfold pending in Hac.
  rewrite Hm in Hsz, Hac. rewrite dgrams_app, Hd in Hac. apply Forall_app in Hsz as [Hsz _]. pose proof (tk_n _ Hs).
  split; try done; try apply Hs; [lia|congruence| | |].
  - rewrite all_full_size, H10 by done. done.
  - by exists m.
  - unfold queued, pending in HD. by rewrite Hm, dgrams_app, Hd in HD.
Qed.

(** a new pack *)
Lemma new_packing D s : 2 ≤ E.(gsoMaxFrames) → st0 D s → s.(sendN) < cf.(batchSize) →
  packing D [] (s <| packIdx := s.(sendN) |> <| sendN := s.(sendN) + 1 |>
                  <| packFrames := 0 |> <| packBytes := 0 |> <| packHdrOff := 0 |>).
Proof using.
  intros Hon [[Hs HD] Hp] Hlt. pose proof (tk_n _ Hs). pose proof (tk_len _ Hs) as Hl.
  assert (pending_msgs s = msg_bytes <$> take (Z.to_nat s.(sendN)) s.(slots)) as Hpm.
  { unfold pending_msgs. by rewrite closed_pack. }
  set (s' := s <| packIdx := s.(sendN) |> <| sendN := s.(sendN) + 1 |> <| packFrames := 0 |> <| packBytes := 0 |> <| packHdrOff := 0 |>).
  assert (before s' = pending_msgs s) as Hb.
  { rewrite Hpm. unfold before, s'. cbn. replace (sendN s + 1 - 1) with (sendN s) by lia. done. }
  split; rewrite ?Hb; try done; try apply Hs.
  - cbn. lia.
  - cbn. lia.
  - destruct (lookup_lt_is_Some_2 s.(slots) (Z.to_nat s.(sendN))) as [m Hm]; [unfold Zlen in Hl; lia|]. by exists m.
  - rewrite app_nil_r. apply Hs.
  - rewrite app_nil_r. exact HD.
Qed.

Lemma openPack_spec D : 2 ≤ E.(gsoMaxFrames) →
  triple (st D) (openPack E) (λ r s, match r with
    | Ok _ => ∃ fs, packing D fs s ∧ all_full fs ∧ Zlen fs < E.(gsoMaxFrames)
    | Err _ => st D s
    end).
Proof using HE.
  intros Hon. pose proof (te_on _ HE Hon) as Hg. pose proof (cw_payload _ (te_cfg _ HE)).
  assert (0 < g) as Hpos by (rewrite Hg; unfold maxDatagram, frameHeaderSize; lia).
  unfold openPack. eapply triple_bind with (R := λ s0 s, s = s0 ∧ st D s); [by apply triple_get|]. intros s0.
  apply triple_when.
  - intros Hb%bool_decide_eq_true.
    apply (triple_pure (s0.(packIdx) = -1 ∧ st0 D s0)).
    { intros s [-> Hst]. destruct (tk_pack _ (proj1 Hst)) as [?|(_ & ? & ? & _)]; [done|lia]. }
    intros [Hp Hst0]. eapply triple_bind with (R := λ _ s, st0 D s ∧ s.(sendN) < cf.(batchSize)).
    { apply triple_when.
      - intros _. eapply triple_conseq; [apply (flushSendLocked_spec D)|by intros s [-> ?]|].
        pose proof (te_batch _ HE). intros [] s [Hs Hz]; [split; [done|lia]|by destruct Hs].
      - intros Hlt%bool_decide_eq_false s [-> _]. split; [done|lia]. }
    intros _. apply triple_modify. intros s [Hs Hlt]. exists []. split_and!; [by apply new_packing|by apply Forall_nil|].
    change (Zlen []) with 0. lia.
  - intros Hb%bool_decide_eq_false s [-> Hst]. apply st_packing; [done|lia|done].
Qed.

(** ** Adding a frame to a pack *)

(** the header of a DATA frame, with its FEC prefix *)
Definition data_hdr (ftype sid seq len : Z) : list Z :=
  header_bytes ftype sid seq (u32 (frameHdrLen E ftype - frameHeaderSize + len))
  ++ replicate (Z.to_nat (frameHdrLen E ftype - frameHeaderSize)) 0.

Lemma Zlen_data_hdr ftype sid seq len : Zlen (data_hdr ftype sid seq len) = frameHdrLen E ftype.
Proof using.
  unfold data_hdr. rewrite Zlen_app, Zlen_header_bytes. unfold frameHdrLen, frameHeaderSize, fecMetaLen.
  destruct (_ && _); rewrite Zlen_replicate; lia.
Qed.

Lemma writeFrameHdr_ok buf ftype sid seq len : frameHdrLen E ftype ≤ Zlen buf →
  ∃ rest, writeFrameHdr E buf ftype sid seq len = Some (data_hdr ftype sid seq len ++ rest, frameHdrLen E ftype) ∧
    Zlen (data_hdr ftype sid seq len ++ rest) = Zlen buf.
Proof using.
  intros Hb. assert (frameHeaderSize ≤ frameHdrLen E ftype ≤ frameHeaderSize + fecMetaLen) as Hh.
  { unfold frameHdrLen, frameHeaderSize, fecMetaLen. destruct (_ && _); lia. }
  unfold writeFrameHdr. rewrite encodeHeader_ok by lia. cbn [mbind option_bind].
  set (h := header_bytes _ _ _ _). set (n := frameHdrLen E ftype - frameHeaderSize).
  assert (Zlen h = frameHeaderSize) as Hl by done. rewrite <- Hl.
  assert (Zlen (drop 13 buf) = Zlen buf - 13) as Hd by (unfold frameHeaderSize in *; unfold Zlen in *; rewrite length_drop; lia).
  rewrite put_bytes_app by (rewrite Zlen_replicate; unfold n, frameHeaderSize in *; lia). cbn [mbind option_bind].
  eexists. unfold data_hdr. fold h n. rewrite <- app_assoc. split; [done|].
  rewrite !Zlen_app, Hl. unfold Zlen in *. rewrite length_drop, length_replicate. unfold frameHeaderSize in *. lia.
Qed.

(** the slot after frame number [length fs] has been added to it *)
Definition add_frame (fs : list (list Z)) (buf payload : list Z) m : msg :=
  set_iov (2 * Zlen fs + 1) (payload_iov payload)
    (set_iov (2 * Zlen fs) (mkIov (BaseBuf (Zlen fs * hdr)) hdr) (m <| m_buf := buf |>)).

Lemma add_frame_slot_ok fs buf payload m : Zlen buf = dgram → slot_ok m → slot_ok (add_frame fs buf payload m).
Proof using.
  intros Hb (_ & H2 & n & H0). unfold add_frame. apply slot_ok_set_iov; [|pose proof (Zlen_nonneg fs); lia].
  split_and!; [done| |].
  - cbn. unfold Zlen in *. by rewrite length_insert.
  - cbn. destruct (decide (Zlen fs = 0)) as [->|Hz].
    + change (Z.to_nat (2 * 0)) with 0%nat. destruct (m_iov m) as [|v vs]; [done|]. cbn. by eexists.
    + pose proof (Zlen_nonneg fs). rewrite list_lookup_insert_ne by lia. by exists n.
Qed.

Lemma add_frame_packed fs H0 rest payload m :
  packed m fs → slot_ok m → Zlen fs < E.(gsoMaxFrames) → Zlen H0 = hdr → Zlen fs * hdr ≤ dgram →
  packed (add_frame fs (slice m.(m_buf) 0 (Zlen fs * hdr) ++ H0 ++ rest) payload m) (fs ++ [H0 ++ payload]).
Proof using.
  intros Hp (Hb & Hiv & _) Hmax HH Hle k f Hk. pose proof hdr_bounds as Hh. unfold iovsPer in Hiv.
  assert (Zlen (slice m.(m_buf) 0 (Zlen fs * hdr)) = Zlen fs * hdr) as Hpre by (pose proof (Zlen_nonneg fs); rewrite Zlen_slice; nia).
  apply lookup_app_Some in Hk as [Hk|[Hlen Hk]].
  - destruct (Hp k f Hk) as (p & H1 & H2 & H3). pose proof (lookup_lt_Some _ _ _ Hk) as Hlt. exists p. split_and!.
    + cbn. rewrite !list_lookup_insert_ne by (unfold Zlen; lia). done.
    + cbn. rewrite !list_lookup_insert_ne by (unfold Zlen; lia). done.
    + cbn. rewrite H3. f_equal. assert (Z.of_nat k + 1 ≤ Zlen fs) by (unfold Zlen; lia).
      rewrite slice_app_l by nia. rewrite slice_slice by nia. f_equal; lia.
  - apply list_lookup_singleton_Some in Hk as [Hz <-]. assert (k = length fs) as -> by lia. exists payload. cbn. split_and!.
    + rewrite list_lookup_insert_ne by (unfold Zlen; lia).
      replace (length fs + (length fs + 0))%nat with (Z.to_nat (2 * Zlen fs)) by (unfold Zlen; lia).
      rewrite list_lookup_insert_eq by (unfold Zlen in *; lia). done.
    + replace (length fs + (length fs + 0) + 1)%nat with (Z.to_nat (2 * Zlen fs + 1)) by (unfold Zlen; lia).
      rewrite list_lookup_insert_eq by (rewrite length_insert; unfold Zlen in *; lia). done.
    + f_equal. change (Z.of_nat (length fs)) with (Zlen fs). pose proof (Zlen_nonneg rest).
      rewrite slice_app_r by (rewrite ?Zlen_app; lia). rewrite Hpre, Z.sub_diag.
      replace (Zlen fs * hdr + hdr - Zlen fs * hdr) with (Zlen H0) by lia. by rewrite slice_pre.
Qed.

Lemma packing_add D fs s m H0 rest payload class :
  packing D fs s → Zlen fs < E.(gsoMaxFrames) → s.(slots) !! Z.to_nat s.(packIdx) = Some m →
  Zlen H0 = hdr → Zlen (slice m.(m_buf) 0 (Zlen fs * hdr) ++ H0 ++ rest) = dgram → Zlen fs * hdr ≤ dgram →
  let f := H0 ++ payload in
  packing (D ++ [f]) (fs ++ [f])
    (accountDatagramLocked E (Zlen f) class
      (set_slot s.(packIdx) (add_frame fs (slice m.(m_buf) 0 (Zlen fs * hdr) ++ H0 ++ rest) payload) s
        <| packFrames := s.(packFrames) + 1 |> <| packHdrOff := s.(packHdrOff) + hdr |>
        <| packBytes := s.(packBytes) + Zlen f |>)).
Proof using.
  intros [P1 P2 P3 P4 P5 P6 P7 P8 (m' & P9 & P9') P10 P11 P12 P13] Hmax Hm HH Hbuf Hle f.
  rewrite P9 in Hm. injection Hm as ->. set (h := add_frame _ _ _). set (s1 := _ <| packBytes := _ |>).
  destruct (acct_snoc (dgrams (before s) ++ fs) f class s1 P11) as (A1 & A2 & A3 & A4 & A5 & A6 & A7 & A8 & A9).
  set (s2 := accountDatagramLocked E (Zlen f) class s1) in *. clearbody s2.
  assert (before s2 = before s) as Hb.
  { unfold before. rewrite A2, A3. cbn. by rewrite take_alter_ge by lia. }
  assert (Zlen (fs ++ [f]) = Zlen fs + 1) as Hl by (by rewrite Zlen_app).
  pose proof P3 as P3'. rewrite Forall_lookup in P3'. specialize (P3' _ _ P9).
  split; rewrite ?Hb, ?A2, ?A3, ?A4, ?A5, ?A6, ?A7, ?A8; try done; cbn.
  - unfold Zlen. rewrite length_alter. exact P2.
  - apply Forall_alter_slot; [done|]. intros m0 Hm0. by apply add_frame_slot_ok.
  - lia.
  - rewrite Hl. lia.
  - rewrite concat_app, Zlen_app, P8. cbn. by rewrite app_nil_r.
  - exists (h m). rewrite list_lookup_alter_eq, P9. split; [done|]. by apply add_frame_packed.
  - by rewrite app_assoc.
  - rewrite <- P13. by rewrite !app_assoc.
Qed.

Lemma triple_get' (P : tx → Prop) : triple P get (λ r s, r = Ok s ∧ P s).
Proof using. by apply triple_get. Qed.

(** writing one frame into an open pack *)
Definition packed_state (s : tx) m fs H0 rest payload : tx :=
  accountDatagramLocked E (Zlen (H0 ++ payload)) paceBulk
    (set_slot s.(packIdx) (add_frame fs (slice m.(m_buf) 0 (Zlen fs * hdr) ++ H0 ++ rest) payload) s
      <| packFrames := s.(packFrames) + 1 |> <| packHdrOff := s.(packHdrOff) + hdr |>
      <| packBytes := s.(packBytes) + Zlen (H0 ++ payload) |>).
Lemma pack_write_run D fs s m sid seq payload rest (kont : Z → T ()) :
  let H0 := data_hdr frameData sid seq (Zlen payload) in
  packing D fs s → s.(slots) !! Z.to_nat s.(packIdx) = Some m →
  writeFrameHdr E (slice m.(m_buf) (Zlen fs * hdr) (Zlen m.(m_buf))) frameData sid seq (Zlen payload) = Some (H0 ++ rest, hdr) →
  (s ← get;
   let idx := s.(packIdx) in
   let off := s.(packHdrOff) in
   hdrLen ← write_slot idx (λ buf,
     '(hdr, hdrLen) ← writeFrameHdr E (slice buf off (Zlen buf)) frameData sid seq (Zlen payload);
     Some (slice buf 0 off ++ hdr, hdrLen));
   let k := 2 * s.(packFrames) in
   _ ← modify (set_slot idx (λ m, set_iov (k + 1) (payload_iov payload) (set_iov k (mkIov (BaseBuf off) hdrLen) m)));
   _ ← modify (λ s, s <| packFrames := s.(packFrames) + 1 |> <| packHdrOff := s.(packHdrOff) + hdrLen |>
                      <| packBytes := s.(packBytes) + (hdrLen + Zlen payload) |>);
   _ ← modify (accountDatagramLocked E (hdrLen + Zlen payload) paceBulk);
   kont hdrLen) s = kont hdr (packed_state s m fs H0 rest payload).
Proof using.
  intros H0 Hp Hm Hwr. assert (hdr + Zlen payload = Zlen (H0 ++ payload)) as Hf by (by unfold H0; rewrite Zlen_app, Zlen_data_hdr).
  unfold write_slot, mbind, T_bind, get, lift, modify, mret, T_ret. rewrite Hm, (pg_off _ _ _ Hp), Hwr. cbn [option_bind].
  rewrite (pg_frames _ _ _ Hp), Hf. unfold packed_state. do 2 f_equal. unfold set_slot. cbn.
  rewrite list_alter_alter_eq. rewrite (pg_frames _ _ _ Hp), (pg_off _ _ _ Hp). reflexivity.
Qed.

Lemma queueFrameGSOLocked_spec D sid seq payload :
  2 ≤ E.(gsoMaxFrames) → Zlen payload + hdr ≤ dgram →
  triple (st D) (queueFrameGSOLocked E frameData sid seq payload)
    (appended D (data_hdr frameData sid seq (Zlen payload) ++ payload)).
Proof using HE.
  intros Hon Hlen. pose proof (te_on _ HE Hon) as Hg. pose proof hdr_bounds as Hh. pose proof (te_strip _ HE Hon) as Hstrip.
  set (H0 := data_hdr frameData sid seq (Zlen payload)). set (f := H0 ++ payload).
  assert (Zlen H0 = hdr) as HH by apply Zlen_data_hdr.
  assert (hdr + Zlen payload = Zlen f) as Hf by (unfold f; by rewrite Zlen_app, HH).
  pose proof (Zlen_nonneg payload).
  unfold queueFrameGSOLocked. eapply triple_bind with (R := λ _, st D); [by apply triple_get|]. intros s00.
  eapply triple_bind with (R := λ _, st D).
  { apply triple_when; [intros _|done].
    eapply triple_bind with (R := λ _, st0 D); [apply triple_modify; apply closePack_st|]. intros _.
    eapply triple_conseq; [apply (splitPacingClassLocked_spec D)|done|]. intros [] s [Hs _]; [done|by left]. }
  intros _. eapply triple_bind with (R := λ _ s, ∃ fs, packing D fs s ∧ all_full fs ∧ Zlen fs < E.(gsoMaxFrames)).
  { eapply triple_conseq; [by apply (openPack_spec D)|done|]. intros [] s Hs; [done|by left]. }
  intros _ s (fs & Hp & Hfull & Hmax). pose proof (pg_slot _ _ _ Hp) as (m & Hm & Hpk).
  pose proof (pg_slots _ _ _ Hp) as Hsl. rewrite Forall_lookup in Hsl. pose proof (Hsl _ _ Hm) as Hok. pose proof Hok as (Hb & _).
  pose proof (Zlen_nonneg fs). assert (Zlen fs * hdr + hdr ≤ dgram) as Hroom by nia.
  destruct (writeFrameHdr_ok (slice m.(m_buf) (Zlen fs * hdr) (Zlen m.(m_buf))) frameData sid seq (Zlen payload))
    as (rest & Hwr & Hwl); [rewrite Zlen_slice; nia|]. fold H0 in Hwr, Hwl.
  rewrite Zlen_slice in Hwl by nia.
  assert (Zlen (slice m.(m_buf) 0 (Zlen fs * hdr) ++ H0 ++ rest) = dgram) as Hbuf.
  { rewrite Zlen_app, Zlen_slice, Hwl by nia. lia. }
  pose proof (packing_add D fs s m H0 rest payload paceBulk Hp Hmax Hm HH Hbuf ltac:(lia)) as Hadd. cbv zeta in Hadd. fold f in Hadd.
  pose proof (pack_write_run D fs s m sid seq payload rest) as Hrun. cbv zeta in Hrun. fold H0 in Hrun.
  change (packing (D ++ [f]) (fs ++ [f]) (packed_state s m fs H0 rest payload)) in Hadd. set (s4 := packed_state _ _ _ _ _ _) in *.
  specialize (λ k, Hrun k Hp Hm Hwr) as Hrun'. specialize (Hrun' (λ hdrLen, s ← get;
    let full := hdrLen + Zlen payload >=? E.(gsoSize) in
    when ((s.(packFrames) >=? E.(gsoMaxFrames)) || negb full || pacingBatchFullLocked E s)
      (_ ← modify closePackLocked; flush_if_full E))).
  match type of Hrun' with _ = ?rhs =>
    enough (∃ s' r, rhs = Some (s', r) ∧ appended D f r s') as (s' & r & Hk & Hq);
      [exists s', r; split; [rewrite <- Hk; exact Hrun'|exact Hq]|] end.
  clear Hrun Hrun'. clearbody s4. cbv beta zeta. rewrite Hf. unfold mbind at 1, T_bind at 1, get, when.
  assert (Zlen (fs ++ [f]) = Zlen fs + 1) as Hl by (by rewrite Zlen_app).
  destruct (_ || _ || _) eqn:Hc.
  - eapply (triple_bind (λ s, s = s4) (modify closePackLocked) (λ _, flush_if_full E) _ (λ _, st0 (D ++ [f]))); [| |done].
    + apply triple_modify. intros ? ->. eapply packing_close; [exact Hadd|done|lia|lia].
    + intros _. eapply triple_conseq; [apply (flush_if_full_spec (D ++ [f]))|by intros ? []|].
      intros [] ? Hs; [done|by right].
  - eexists s4, (Ok ()). split; [done|]. apply orb_false_iff in Hc as [Hc _]. apply orb_false_iff in Hc as [Hc1 Hc2].
    apply bool_decide_eq_false in Hc1. apply negb_false_iff, bool_decide_eq_true in Hc2.
    rewrite (pg_frames _ _ _ Hadd) in Hc1.
    eapply packing_open; [exact Hadd| |lia|lia]. unfold all_full. apply Forall_app. split; [done|].
    apply Forall_singleton. lia.
Qed.

End inv.
