(* ===== verification/SendFifo.v ===== *)
(** * What a connection puts on the wire

    Runs of the send batch: the datagrams the kernel makes of the batches are
    the frames that were queued, whole, in order. *)
From S2P Require Import Prelude Errors Frame Float64 Pacer Options SendBatch BatchInv.

(** ** Operations *)
Inductive tx_op :=
  | TxData (sid seq : Z) (p : list Z)
  | TxFec (ftype sid base count xorLen : Z) (data : list Z)
  | TxReliable (ftype sid seq : Z) (p : list Z)
  | TxWindow (sid offset : Z)
  | TxWindowNow (sid offset : Z)
  | TxControl (ftype sid seq : Z)
  | TxAck (sid cumulative : Z) (seqs : list Z)
  | TxAckNow (sid cumulative : Z) (seqs : list Z)
  | TxNack (sid : Z) (seqs : list Z)
  | TxNackNow (sid : Z) (seqs : list Z)
  | TxResend (ftype sid seq : Z) (p : list Z)
  | TxReset (sid code : Z)
  | TxHandshake (connID : Z)
  | TxFlush.

Definition tx_exec (E : txenv) (op : tx_op) : T unit :=
  match op with
  | TxData sid seq p => sendDataFrame E sid seq p
  | TxFec ftype sid base count xorLen data => sendFecFrame E ftype sid base count xorLen data
  | TxReliable ftype sid seq p => sendReliableFrame E ftype sid seq p
  | TxWindow sid offset => queueWindowUpdate E sid offset
  | TxWindowNow sid offset => sendWindowUpdate E sid offset
  | TxControl ftype sid seq => sendControlFrame E ftype sid seq
  | TxAck sid cum seqs => queueACKFrame E sid cum seqs
  | TxAckNow sid cum seqs => sendACKFrame E sid cum seqs
  | TxNack sid seqs => queueNackFrame E sid seqs
  | TxNackNow sid seqs => sendNackFrame E sid seqs
  | TxResend ftype sid seq p => queueResendCopy E ftype sid seq p
  | TxReset sid code => sendResetNoQueue E sid code
  | TxHandshake connID => sendHandshake E connID
  | TxFlush => flushSend E
  end.

(** the metadata word of a parity frame *)
Definition fec_meta (count xorLen : Z) : Z := Z.lor (u32 (Z.shiftl (u32 count) 16)) (u32 xorLen).

(** the datagram of a frame, as [frame.go] encodes it *)
Definition frame_of (E : txenv) (op : tx_op) : list (list Z) :=
  match op with
  | TxData sid seq p => [data_hdr E frameData sid seq (Zlen p) ++ p]
  | TxFec ftype sid base count xorLen data =>
      [header_bytes ftype sid base (u32 (fecMetaLen + Zlen data)) ++ PutUint32 (fec_meta count xorLen) ++ data]
  | TxReliable ftype sid seq p | TxResend ftype sid seq p => [data_hdr E ftype sid seq (Zlen p) ++ p]
  | TxWindow sid offset | TxWindowNow sid offset => [header_bytes frameWindowUpdate sid 0 8 ++ windowUpdatePayload offset]
  | TxControl ftype sid seq => [header_bytes ftype sid seq 0]
  | TxAck sid cum seqs | TxAckNow sid cum seqs =>
      [header_bytes frameACK sid 0 (8 + 4 * Zlen seqs) ++ seqlist_payload cum seqs]
  | TxNack sid seqs | TxNackNow sid seqs => [header_bytes frameNack sid 0 (8 + 4 * Zlen seqs) ++ seqlist_payload 0 seqs]
  | TxReset sid code => [header_bytes frameStreamReset sid 0 8 ++ resetPayload code]
  | TxHandshake connID => [header_bytes frameHandshake 0 0 8 ++ handshakePayload connID]
  | TxFlush => []
  end.

(** the payload sizes the callers keep to *)
Definition op_fits (E : txenv) (op : tx_op) : Prop :=
  match op with
  | TxData sid seq p => Zlen p ≤ dataCap E.(tx_cfg)
  | TxFec _ _ _ _ _ data => Zlen data ≤ maxPayload E.(tx_cfg) - fecMetaLen
  | TxReliable ftype _ _ p | TxResend ftype _ _ p => frameHdrLen E ftype + Zlen p ≤ maxDatagram E.(tx_cfg)
  | TxAck _ _ seqs | TxAckNow _ _ seqs | TxNack _ seqs | TxNackNow _ seqs =>
      Zlen seqs ≤ maxAckSeqsPerFrame (maxPayload E.(tx_cfg)) ∧ 8 + 4 * Zlen seqs < 2 ^ 32
  | _ => True
  end.

Fixpoint tx_run (E : txenv) (s : tx) (ops : list tx_op) : option (tx * list (result unit)) :=
  match ops with
  | [] => Some (s, [])
  | op :: ops =>
      '(s, r) ← tx_exec E op s;
      '(s, rs) ← tx_run E s ops;
      Some (s, r :: rs)
  end.

(** [fs] has the frames of the operations that returned no error, in order,
    and possibly those of the others *)
Inductive kept (E : txenv) : list tx_op → list (result unit) → list (list Z) → Prop :=
  | kept_nil : kept E [] [] []
  | kept_in op r ops rs fs : kept E ops rs fs → kept E (op :: ops) (r :: rs) (frame_of E op ++ fs)
  | kept_out op e ops rs fs : kept E ops rs fs → kept E (op :: ops) (Err e :: rs) fs.

Lemma kept_all E ops rs fs : kept E ops rs fs → Forall (λ r, r = Ok ()) rs → fs = concat (frame_of E <$> ops).
Proof. induction 1; intros Hr; [done| |]; apply Forall_cons in Hr as [? Hr]; [|done]. cbn. by rewrite IHkept. Qed.

Section fifo.
Context (E : txenv) (HE : tx_env_ok E).
#[local] Abbreviation dgram := (maxDatagram (tx_cfg E)).

Lemma newTx_st : st E [] (newTx E).
Proof using HE.
  pose proof (te_cfg _ HE) as Hc. pose proof (cw_payload _ Hc). pose proof (te_batch _ HE). pose proof (te_max _ HE).
  assert (0 ≤ dgram) by (unfold maxDatagram, frameHeaderSize; lia).
  split; [split|]; try done.
  - apply Zlen_replicate. lia.
  - apply Forall_replicate. split_and!.
    + apply Zlen_replicate. done.
    + cbn. rewrite Zlen_cons, Zlen_replicate; unfold iovsPer; lia.
    + by eexists.
  - cbn. lia.
  - by left.
  - unfold acct. by destruct (tx_pacer E).
Qed.

(** ** The encoders as slot writers *)
Definition writes (wr : list Z → option (list Z * Z)) (bytes : list Z) : Prop :=
  ∀ buf, Zlen buf = dgram → ∃ rest, wr buf = Some (bytes ++ rest, Zlen bytes) ∧ Zlen (bytes ++ rest) = dgram.

Lemma drop_len (buf : list Z) n : Z.of_nat n ≤ Zlen buf → Zlen (drop n buf) = Zlen buf - Z.of_nat n.
Proof using. intros Hn. unfold Zlen in *. rewrite length_drop. lia. Qed.

Lemma dgram_bounds : 25 ≤ dgram.
Proof using HE. pose proof (cw_payload _ (te_cfg _ HE)). unfold maxDatagram, frameHeaderSize. lia. Qed.

Lemma writes_hdr ftype sid seq len : frameHdrLen E ftype ≤ dgram →
  writes (λ buf, writeFrameHdr E buf ftype sid seq len) (data_hdr E ftype sid seq len).
Proof using.
  intros Hh buf Hb. destruct (writeFrameHdr_ok E buf ftype sid seq len) as (rest & H1 & H2); [lia|].
  exists rest. rewrite Zlen_data_hdr. split; [done|lia].
Qed.

Lemma writes_control ftype sid seq :
  writes (λ buf, buf ← encodeHeader buf ftype sid seq 0; Some (buf, frameHeaderSize)) (header_bytes ftype sid seq 0).
Proof using HE.
  intros buf Hb. pose proof dgram_bounds. rewrite encodeHeader_ok by (unfold frameHeaderSize; lia). eexists. split; [done|].
  rewrite Zlen_app, drop_len by lia. change (Zlen (header_bytes ftype sid seq 0)) with 13. lia.
Qed.

Lemma writes_window sid offset :
  writes (λ buf, buf ← encodeHeader buf frameWindowUpdate sid 0 8; buf ← put_bytes buf frameHeaderSize (PutUint64 offset);
                 Some (buf, frameHeaderSize + 8)) (header_bytes frameWindowUpdate sid 0 8 ++ windowUpdatePayload offset).
Proof using HE.
  intros buf Hb. pose proof dgram_bounds. rewrite encodeHeader_ok by (unfold frameHeaderSize; lia). cbn [mbind option_bind].
  set (h := header_bytes _ _ _ _). change frameHeaderSize with (Zlen h).
  rewrite put_bytes_app by (rewrite drop_len, Zlen_PutUint64; lia). cbn [mbind option_bind].
  eexists. rewrite <- app_assoc. split; [done|]. rewrite !Zlen_app, drop_drop, drop_len by (cbn; lia).
  change (Zlen h) with 13. change (Zlen (windowUpdatePayload offset)) with 8. change (length (PutUint64 offset)) with 8%nat. lia.
Qed.

Lemma writes_seqs ftype sid cum seqs :
  Zlen seqs ≤ maxAckSeqsPerFrame (maxPayload (tx_cfg E)) → 8 + 4 * Zlen seqs < 2 ^ 32 →
  writes (λ buf, encodeSeqListFrame buf ftype sid cum seqs)
    (header_bytes ftype sid 0 (8 + 4 * Zlen seqs) ++ seqlist_payload cum seqs) ∧
  Zlen (header_bytes ftype sid 0 (8 + 4 * Zlen seqs) ++ seqlist_payload cum seqs) ≤ dgram.
Proof using HE.
  intros Hn H32. pose proof (cw_payload _ (te_cfg _ HE)). unfold maxAckSeqsPerFrame in Hn.
  assert (8 + 4 * Zlen seqs ≤ maxPayload (tx_cfg E)) as Hfit.
  { rewrite Z.quot_div_nonneg in Hn by lia. pose proof (Z.mul_div_le (maxPayload (tx_cfg E) - 8) 4 ltac:(lia)). lia. }
  assert (Zlen (header_bytes ftype sid 0 (8 + 4 * Zlen seqs) ++ seqlist_payload cum seqs) = 21 + 4 * Zlen seqs) as Hl.
  { rewrite Zlen_app. unfold seqlist_payload. rewrite !Zlen_app, Zlen_concat_seqs, !Zlen_PutUint32, Zlen_header_bytes.
    unfold frameHeaderSize. lia. }
  split; [|unfold maxDatagram, frameHeaderSize; lia].
  intros buf Hb. rewrite encodeSeqListFrame_ok by (unfold maxDatagram, frameHeaderSize in *; lia).
  eexists. rewrite Hl, <- app_assoc. split; [do 2 f_equal; unfold frameHeaderSize; lia|].
  rewrite app_assoc, Zlen_app, Hl, drop_len by (unfold maxDatagram, frameHeaderSize, Zlen in *; lia). unfold Zlen in *. lia.
Qed.

Lemma copy_at_app (pre rest src : list Z) : Zlen src ≤ Zlen rest →
  copy_at (pre ++ rest) (Zlen pre) src = pre ++ src ++ drop (length src) rest.
Proof using.
  intros Hl. pose proof (put_bytes_app pre rest src Hl) as Hp. unfold put_bytes in Hp.
  rewrite bool_decide_true in Hp by (rewrite Zlen_app; lia). congruence.
Qed.

Lemma writes_fec ftype sid base meta data : Zlen data ≤ maxPayload (tx_cfg E) - fecMetaLen →
  writes (λ buf, buf ← encodeHeader buf ftype sid base (u32 (fecMetaLen + Zlen data));
                 buf ← put_bytes buf frameHeaderSize (PutUint32 meta);
                 Some (copy_at buf (frameHeaderSize + fecMetaLen) data, frameHeaderSize + fecMetaLen + Zlen data))
    (header_bytes ftype sid base (u32 (fecMetaLen + Zlen data)) ++ PutUint32 meta ++ data).
Proof using HE.
  intros Hd buf Hb. pose proof dgram_bounds. unfold fecMetaLen, maxDatagram, frameHeaderSize in *.
  rewrite encodeHeader_ok by (unfold frameHeaderSize; lia). cbn [mbind option_bind].
  set (h := header_bytes _ _ _ _). change 13 with (Zlen h) at 1.
  rewrite put_bytes_app by (rewrite drop_len, Zlen_PutUint32; lia). cbn [mbind option_bind]. rewrite drop_drop, app_assoc.
  set (h2 := h ++ PutUint32 meta). set (buf2 := drop _ buf).
  assert (Zlen buf2 = Zlen buf - 17) as Hl2 by (unfold buf2; rewrite drop_len; cbn; lia).
  change (13 + 4) with (Zlen h2). rewrite copy_at_app by lia. clearbody buf2.
  exists (drop (length data) buf2). rewrite (app_assoc h). fold h2. rewrite <- app_assoc. rewrite (Zlen_app h2). split; [done|].
  rewrite !Zlen_app, drop_len by (unfold Zlen in *; lia). change (Zlen h2) with 17. unfold Zlen in *. lia.
Qed.

Lemma hdr_small ftype : frameHdrLen E ftype ≤ 17.
Proof using. unfold frameHdrLen, frameHeaderSize, fecMetaLen. destruct (_ && _); lia. Qed.

Lemma writes_resend ftype sid seq p : frameHdrLen E ftype + Zlen p ≤ dgram →
  writes (λ buf, '(buf, hdrLen) ← writeFrameHdr E buf ftype sid seq (Zlen p); Some (copy_at buf hdrLen p, hdrLen + Zlen p))
    (data_hdr E ftype sid seq (Zlen p) ++ p).
Proof using.
  intros Hp buf Hb. pose proof (Zlen_nonneg p).
  destruct (writeFrameHdr_ok E buf ftype sid seq (Zlen p)) as (rest & -> & H2); [lia|]. cbn [mbind option_bind].
  rewrite <- (Zlen_data_hdr E ftype sid seq (Zlen p)). set (h := data_hdr _ _ _ _ _) in *.
  assert (Zlen h = frameHdrLen E ftype) as Hh by apply Zlen_data_hdr. rewrite Zlen_app in H2.
  rewrite copy_at_app by lia. exists (drop (length p) rest). rewrite <- app_assoc, Zlen_app. split; [done|].
  rewrite !Zlen_app, drop_len by (unfold Zlen in *; lia). unfold Zlen in *. lia.
Qed.

Lemma writes_fixed ftype sid seq r : Zlen r = 8 →
  writes (λ buf, encodeFrame buf ftype sid seq r) (header_bytes ftype sid seq 8 ++ r).
Proof using HE.
  intros Hr buf Hb. pose proof dgram_bounds. unfold encodeFrame. rewrite Hr. change (u32 8) with 8.
  rewrite encodeHeader_ok by (unfold frameHeaderSize; lia). cbn [mbind option_bind].
  set (h := header_bytes _ _ _ _). change frameHeaderSize with (Zlen h). rewrite copy_at_app by (rewrite drop_len; lia).
  eexists. rewrite <- app_assoc, Zlen_app, Hr. split; [done|]. rewrite !Zlen_app, drop_drop, drop_len by (unfold Zlen in *; lia).
  change (Zlen h) with 13. unfold Zlen in *. lia.
Qed.

Lemma fixed_frame_fits ftype sid seq len p : Zlen p = 8 → Zlen (header_bytes ftype sid seq len ++ p) ≤ dgram.
Proof using HE. intros Hp. pose proof dgram_bounds. rewrite Zlen_app, Zlen_header_bytes. unfold frameHeaderSize. lia. Qed.

(** ** The operations *)
Lemma triple_ext {A} P (m m' : T A) Q : (∀ s, m s = m' s) → triple P m Q → triple P m' Q.
Proof using. intros He Hm s Hs. destruct (Hm s Hs) as (s' & r & H1 & H2). exists s', r. by rewrite <- He. Qed.
Lemma T_bind_assoc {A B C} (m : T A) (h : A → T B) (k : B → T C) s :
  (b ← (a ← m; h a); k b) s = (a ← m; b ← h a; k b) s.
Proof using. unfold mbind, T_bind. by destruct (m s) as [[s1 [a|e]]|]. Qed.

Lemma T_bind_cong {A B} (m : T A) (h h' : A → T B) s : (∀ a s, h a s = h' a s) → mbind h m s = mbind h' m s.
Proof using. intros Hh. unfold mbind, T_bind. destruct (m s) as [[s1 [a|e]]|]; [apply Hh|done|done]. Qed.

(** a message of its own, flushed at once *)
Lemma own_slot_flush_spec D class wr bytes :
  Zlen bytes ≤ dgram → writes wr bytes →
  triple (st E D) (idx ← acquireSendSlot E class; n ← write_slot idx wr; _ ← commitSendSlot E idx n class; flushSend E)
    (appended E D bytes).
Proof using HE.
  intros Hl Hw. eapply triple_ext; [|apply (then_flush_spec E HE D bytes), (own_slot_spec E HE D class wr bytes Hl Hw)].
  intros s. rewrite T_bind_assoc. apply T_bind_cong. intros idx s1. apply T_bind_assoc.
Qed.
Lemma own_slot_zc_flush_spec D class wr bytes payload :
  Zlen (bytes ++ payload) ≤ dgram → writes wr bytes →
  triple (st E D) (idx ← acquireSendSlot E class; n ← write_slot idx wr; _ ← commitSendSlotZeroCopy E idx n payload class; flushSend E)
    (appended E D (bytes ++ payload)).
Proof using HE.
  intros Hl Hw. eapply triple_ext; [|apply (then_flush_spec E HE D (bytes ++ payload)), (own_slot_zc_spec E HE D class wr bytes payload Hl Hw)].
  intros s. rewrite T_bind_assoc. apply T_bind_cong. intros idx s1. apply T_bind_assoc.
Qed.

Lemma sendDataFrame_spec D sid seq p : Zlen p ≤ dataCap (tx_cfg E) →
  triple (st E D) (sendDataFrame E sid seq p) (appended E D (data_hdr E frameData sid seq (Zlen p) ++ p)).
Proof using HE.
  intros Hp. assert (frameHdrLen E frameData + Zlen p ≤ dgram) as Hfit.
  { unfold frameHdrLen, dataCap, maxDatagram, frameHeaderSize, fecMetaLen in *.
    rewrite (bool_decide_true (frameData = frameData)) by done. cbn [andb]. destruct (fecGroup (tx_cfg E) >? 0); lia. }
  unfold sendDataFrame. case_bool_decide.
  - apply queueFrameGSOLocked_spec; [done|lia|lia].
  - pose proof (Zlen_nonneg p). apply own_slot_zc_spec; [done|rewrite Zlen_app, Zlen_data_hdr; lia|]. apply writes_hdr. lia.
Qed.

Lemma tx_exec_spec D op : op_fits E op → triple (st E D) (tx_exec E op) (λ r s,
  st E (D ++ frame_of E op) s ∨ (∃ e, r = Err e) ∧ st E D s).
Proof using HE.
  intros Hop. pose proof dgram_bounds as Hdg.
  assert (∀ m f, triple (st E D) m (appended E D f) → triple (st E D) m (λ r s, st E (D ++ [f]) s ∨ (∃ e, r = Err e) ∧ st E D s)) as Happ.
  { intros m f Hm. eapply triple_conseq; [exact Hm|done|]. intros [[]|e] s; cbn; [by left|]. naive_solver. }
  destruct op as [sid seq p|ft sid base count xl data|ft sid seq p|sid off|sid off|ft sid seq|sid cum seqs|sid cum seqs
                 |sid seqs|sid seqs|ft sid seq p|sid code|connID|]; cbn [tx_exec frame_of op_fits] in *; try apply Happ.
  - by apply sendDataFrame_spec.
  - apply own_slot_spec; [done| |by apply writes_fec].
    rewrite !Zlen_app, Zlen_header_bytes, Zlen_PutUint32. unfold maxDatagram, fecMetaLen in *. lia.
  - pose proof (Zlen_nonneg p). apply own_slot_zc_flush_spec; [rewrite Zlen_app, Zlen_data_hdr; lia|]. apply writes_hdr. lia.
  - apply own_slot_spec; [done|by apply fixed_frame_fits|apply writes_window].
  - apply then_flush_spec; [done|]. apply own_slot_spec; [done|by apply fixed_frame_fits|apply writes_window].
  - apply own_slot_flush_spec; [rewrite Zlen_header_bytes; unfold frameHeaderSize; lia|apply writes_control].
  - destruct (writes_seqs frameACK sid cum seqs (proj1 Hop) (proj2 Hop)). by apply own_slot_spec.
  - destruct (writes_seqs frameACK sid cum seqs (proj1 Hop) (proj2 Hop)). apply then_flush_spec; [done|]. by apply own_slot_spec.
  - destruct (writes_seqs frameNack sid 0 seqs (proj1 Hop) (proj2 Hop)). by apply own_slot_spec.
  - destruct (writes_seqs frameNack sid 0 seqs (proj1 Hop) (proj2 Hop)). apply then_flush_spec; [done|]. by apply own_slot_spec.
  - apply own_slot_spec; [done|rewrite Zlen_app, Zlen_data_hdr; lia|by apply writes_resend].
  - apply own_slot_flush_spec; [by apply fixed_frame_fits|by apply writes_fixed].
  - apply own_slot_flush_spec; [by apply fixed_frame_fits|by apply writes_fixed].
  - eapply triple_conseq; [apply (flushSendLocked_spec E HE D)|done|]. intros r s [[Hs _] _]. rewrite app_nil_r. by left.
Qed.

Lemma tx_run_spec D s ops : st E D s → Forall (op_fits E) ops →
  ∃ s' rs fs, tx_run E s ops = Some (s', rs) ∧ st E (D ++ fs) s' ∧ kept E ops rs fs.
Proof using HE.
  intros Hs Hops. revert D s Hs. induction Hops as [|op ops Hop _ IH]; intros D s Hs.
  { exists s, [], []. rewrite app_nil_r. split_and!; [done|done|constructor]. }
  destruct (tx_exec_spec D op Hop s Hs) as (s1 & r & H1 & Hr). cbn [tx_run]. rewrite H1. cbn [mbind option_bind].
  destruct Hr as [Hr|[(e & ->) Hr]]; destruct (IH _ _ Hr) as (s2 & rs & fs & -> & H2 & H3); cbn [mbind option_bind].
  - eexists s2, _, (frame_of E op ++ fs). rewrite app_assoc. split_and!; [done|done|by constructor].
  - eexists s2, _, fs. split_and!; [done|done|by constructor].
Qed.

End fifo.

(** ** The theorems *)

(** The send side of a connection with configuration [cf], on a kernel that
    supports UDP_SEGMENT and UDP_GRO or not. *)
Definition tx_setup (cf : config) (pacer : option WirePacer) (segment gro : bool) (shut granted : nat → bool) (errno : nat → Z) : txenv :=
  let '(size, max) := resolveGSO cf segment gro in mkTxenv cf pacer size max shut granted errno.

(** the headers of eight DATA frames fit one datagram, or GSO is off *)
Definition headers_fit (cf : config) : Prop := cf.(enableGSO) = true → 8 * (frameHeaderSize + fecMetaLen) ≤ maxDatagram cf.

Lemma resolveGSO_spec cf segment gro : config_wf cf →
  let '(size, max) := resolveGSO cf segment gro in
  1 ≤ max ≤ 8 ∧ (max < 2 → size = 0) ∧ (2 ≤ max → size = maxDatagram cf ∧ max * size ≤ maxGSOBytes ∧ cf.(enableGSO) = true).
Proof.
  intros Hc. pose proof (cw_payload _ Hc). assert (0 < maxDatagram cf) by (unfold maxDatagram, frameHeaderSize; lia).
  unfold resolveGSO. set (q := Z.quot maxGSOBytes (maxDatagram cf)).
  assert (q * maxDatagram cf ≤ maxGSOBytes) as Hq.
  { unfold q. rewrite Z.quot_div_nonneg by (unfold maxGSOBytes; lia). rewrite Z.mul_comm. apply Z.mul_div_le. done. }
  clearbody q. destruct (enableGSO cf && (q >=? 2) && segment) eqn:Hb.
  - apply andb_true_iff in Hb as [Hb _]. apply andb_true_iff in Hb as [He Hb%bool_decide_eq_true].
    destruct gro; [|split_and!; intros; lia]. destruct (decide (8 < q)).
    + rewrite bool_decide_true by done. split_and!; [lia..|]. intros _. split_and!; [done|nia|done].
    + rewrite bool_decide_false by done. split_and!; [lia..|]. intros _. split_and!; [done|nia|done].
  - destruct gro; split_and!; intros; lia.
Qed.

Lemma tx_setup_ok cf pacer segment gro shut granted errno :
  config_wf cf → 0 < cf.(batchSize) → headers_fit cf → tx_env_ok (tx_setup cf pacer segment gro shut granted errno).
Proof.
  intros Hc Hb Hh. unfold tx_setup. pose proof (resolveGSO_spec cf segment gro Hc) as Hr.
  destruct (resolveGSO cf segment gro) as [size max]. destruct Hr as (R1 & R2 & R3).
  split; try done; [cbn; lia|apply R3|]. cbn [gsoMaxFrames tx_cfg]. intros Hon. destruct (R3 Hon) as (_ & _ & He). specialize (Hh He).
  pose proof (hdr_small (mkTxenv cf pacer size max shut granted errno) frameData). unfold frameHeaderSize, fecMetaLen in Hh. nia.
Qed.

(** C9: the send path is a FIFO of whole frames.  Whatever mix of frames a
    connection sends, through shared batches, class splits, GSO packs,
    zero-copy payloads and reused slots, nothing panics, and the datagrams
    the kernel cuts from the messages, batch after batch, followed by those
    still waiting, are the frames handed in, each whole and correctly
    encoded, in order.  A frame can be missing only if its own call returned
    an error. *)
Theorem send_fifo cf pacer segment gro shut granted errno ops :
  config_wf cf → 0 < cf.(batchSize) → headers_fit cf →
  let E := tx_setup cf pacer segment gro shut granted errno in
  Forall (op_fits E) ops →
  ∃ s rs, tx_run E (newTx E) ops = Some (s, rs) ∧ kept E ops rs (queued E s) ∧
    (Forall (λ r, r = Ok ()) rs → queued E s = concat (frame_of E <$> ops)).
Proof.
  intros Hc Hb Hh E Hops. pose proof (tx_setup_ok cf pacer segment gro shut granted errno Hc Hb Hh) as HE. fold E in HE.
  destruct (tx_run_spec E HE [] (newTx E) ops (newTx_st E HE) Hops) as (s & rs & fs & H1 & [_ H2] & H3).
  exists s, rs. cbn in H2. subst fs. split_and!; [done|done|]. by apply kept_all.
Qed.

Definition witness_tx_cfg : config := WithBatchSize 2 (WithMaxDatagramSize 140 defaultConfig).
Definition witness_tx : txenv := tx_setup witness_tx_cfg None true true (λ _, false) (λ _, true) (λ _, 0).
(** three full frames share a message, a short one closes the next *)
Definition witness_tx_ops : list tx_op :=
  [ TxData 1 0 (replicate 123 7); TxData 1 1 (replicate 123 8); TxData 1 2 (replicate 123 9);
    TxFec frameFEC 1 0 3 0 (replicate 123 6); TxData 3 0 [1; 2; 3]; TxAck 1 5 [7; 8]; TxControl framePing 0 0; TxData 3 1 [4] ].
Lemma witness_tx_fits : config_wf witness_tx_cfg ∧ headers_fit witness_tx_cfg ∧ Forall (op_fits witness_tx) witness_tx_ops.
Proof.
  split_and!; [split; vm_compute; naive_solver|by intros _|]. repeat apply Forall_cons_2; done.
Qed.
Lemma send_fifo_witness : ∃ s rs,
  tx_run witness_tx (newTx witness_tx) witness_tx_ops = Some (s, rs) ∧ kept witness_tx witness_tx_ops rs (queued witness_tx s) ∧
  (Forall (λ r, r = Ok ()) rs → queued witness_tx s = concat (frame_of witness_tx <$> witness_tx_ops)).
Proof.
  destruct witness_tx_fits as (H1 & H2 & H3).
  apply (send_fifo witness_tx_cfg None true true (λ _, false) (λ _, true) (λ _, 0) witness_tx_ops H1); [done|done|exact H3].
Defined.
(** the messages of that run: the packed one, the parity, and so on *)
Example witness_tx_messages :
  (λ r, (λ b, Zlen <$> b.(b_msgs)) <$> r.1.(wire)) <$> tx_run witness_tx (newTx witness_tx) witness_tx_ops
  = Some [[420; 140]; [20; 29]; [13]].
Proof. vm_compute. reflexivity. Qed.

(** C32: batches are bounded and charged exactly.  Every batch that leaves has
    at least one and at most [batchSize] messages; a message is a datagram or
    a pack below the 64 KB limit of an IP packet; and when the connection is
    paced, the pacer is asked for exactly the wire cost, UDP bytes and number
    of the datagrams the kernel makes of the batch. *)
Theorem batches_bounded cf pacer segment gro shut granted errno ops s rs b :
  config_wf cf → 0 < cf.(batchSize) → headers_fit cf →
  let E := tx_setup cf pacer segment gro shut granted errno in
  Forall (op_fits E) ops → tx_run E (newTx E) ops = Some (s, rs) → b ∈ s.(wire) →
  1 ≤ Zlen b.(b_msgs) ≤ cf.(batchSize) ∧
  Forall (λ m, Zlen m ≤ Z.max (maxDatagram cf) maxGSOBytes) b.(b_msgs) ∧
  match pacer with
  | None => True
  | Some p =>
      let ds := dgrams E b.(b_msgs) in
      b.(b_wireBytes) = foldr Z.add 0 (Cost p.(accounting) ∘ Zlen <$> ds) ∧
      b.(b_udpBytes) = foldr Z.add 0 (Zlen <$> ds) ∧ b.(b_datagrams) = Zlen ds
  end.
Proof.
  intros Hc Hb Hh E Hops Hrun Hin. pose proof (tx_setup_ok cf pacer segment gro shut granted errno Hc Hb Hh) as HE. fold E in HE.
  destruct (tx_run_spec E HE [] (newTx E) ops (newTx_st E HE) Hops) as (s' & rs' & fs & H1 & [H2 _] & _).
  rewrite Hrun in H1. injection H1 as <- <-. pose proof (tk_wire _ _ H2) as Hw. rewrite Forall_forall in Hw.
  destruct (Hw b Hin) as [B1 B2 B3]. pose proof (resolveGSO_spec cf segment gro Hc) as Hr.
  unfold E, tx_setup in *. destruct (resolveGSO cf segment gro) as [size max]. cbn in *. destruct Hr as (R1 & R2 & R3).
  split_and!; [lia|lia| |by destruct pacer].
  eapply Forall_impl; [exact B2|]. cbn. intros m Hm. unfold msg_size in Hm. cbn in Hm.
  destruct (decide (2 ≤ max)) as [Hon|Hoff]; [destruct (R3 Hon) as (_ & Hle & _); lia|]. rewrite R2, Z.mul_0_r in Hm by lia.
  unfold maxGSOBytes. lia.
Qed.

Definition witness_pacer : WirePacer :=
  mkPacer 1000000 300 (mkAccounting 28 64) 300 0 0 0 (mkStats 0 0 0 0 0 0 0 0).
Lemma batches_bounded_witness :
  let E := tx_setup witness_tx_cfg (Some witness_pacer) true true (λ _, false) (λ _, true) (λ _, 0) in
  ∃ s rs b, tx_run E (newTx E) witness_tx_ops = Some (s, rs) ∧ b ∈ s.(wire) ∧
    b.(b_datagrams) = Zlen (dgrams E b.(b_msgs)) ∧ b.(b_wireBytes) = 336.
Proof.
  intros E. destruct witness_tx_fits as (H1 & H2 & _).
  assert (Forall (op_fits E) witness_tx_ops) as H3 by (repeat apply Forall_cons_2; done).
  assert (∃ s rs b bs, tx_run E (newTx E) witness_tx_ops = Some (s, rs) ∧ s.(wire) = b :: bs ∧ b.(b_wireBytes) = 336)
    as (s & rs & b & bs & Hrun & Hw & Hcost).
  { vm_compute. eexists _, _, _, _. split_and!; reflexivity. }
  exists s, rs, b. assert (b ∈ s.(wire)) as Hin by (rewrite Hw; apply list_elem_of_here).
  pose proof (batches_bounded witness_tx_cfg (Some witness_pacer) true true (λ _, false) (λ _, true) (λ _, 0) witness_tx_ops
                s rs b H1 ltac:(done) H2 H3 Hrun Hin) as (_ & _ & _ & _ & Hn).
  split_and!; [exact Hrun|exact Hin|exact Hn|exact Hcost].
Defined.

(** Why [headers_fit] is needed.  [WithMaxDatagramSize] accepts datagrams
    too small for the headers of a pack: with 30-byte datagrams (GSO is on by
    default) the second full-size DATA frame of a pack writes its header past
    the end of the slot's buffer, and the process panics. *)
Theorem gso_small_datagram_panics :
  let cf := WithMaxDatagramSize 30 defaultConfig in
  let E := tx_setup cf None true true (λ _, false) (λ _, true) (λ _, 0) in
  config_wf cf ∧ Forall (op_fits E) [TxData 1 0 (replicate 13 0); TxData 1 1 (replicate 13 0)] ∧
  tx_run E (newTx E) [TxData 1 0 (replicate 13 0); TxData 1 1 (replicate 13 0)] = None.
Proof.
  split_and!; [split; vm_compute; naive_solver|repeat apply Forall_cons_2; done|]. vm_compute. reflexivity.
Qed.

(** Why the batch size has to be positive.  [WithBatchSize] takes any number:
    with 0 there is no slot to write the first frame into, and the first
    send, a HANDSHAKE or any other, panics. *)
Theorem zero_batch_panics :
  let cf := WithBatchSize 0 defaultConfig in
  let E := tx_setup cf None true true (λ _, false) (λ _, true) (λ _, 0) in
  config_wf cf ∧ tx_run E (newTx E) [TxHandshake 5] = None.
Proof. split; [split; vm_compute; naive_solver|]. vm_compute. reflexivity. Qed.
