(* ===== verification/Connection.v ===== *)
(** * A connection ([connection.go])

    The stream table, the handlers of incoming frames, acknowledgements, the
    resend worker and the lifecycle, on top of the send batch
    ([SendBatch.v]), the retransmission queue ([Retransmit.v]), the estimator
    ([Estimator.v]) and the two sides of every stream.

    - The connection is one record ([Connection]); an operation is a function
      of it, as it runs under its mutexes.  [removeStream] holds them one
      after the other and is given as its three critical sections.
    - [conn_path] is the connection as a stream's write side sees it (an
      instance of [SendPath]).  [cn_log] is a history variable: the frames
      the streams handed over, in order.
    - What a read side asks of the connection while it holds [readMu] (NACKs,
      window updates, statistics) is carried out, in order, when the stream
      operation is done ([run_call]); the stream does not see the results.
    - All clock readings of a connection and its streams come from one
      clock, [cn_tick] counting them.
    - [cn_tx] is [None] once a send operation has panicked; the process is
      then gone, and every later operation of the connection leaves it so.
    - The batch is handed over by [sendmmsg], after which [flushSendLocked]
      drains the freed payload buffers: [tx_do] does so when its operation
      handed a batch to the kernel.
    - Go ranges over maps in an unspecified order: [ce_range_acc],
      [ce_range_entries] and [ce_range_ids] are that order. *)
From S2P Require Import Prelude Errors Frame Float64 Pacer Options Ring Retransmit StreamRecv StreamSend Estimator SendBatch.

Definition stubbornResendThreshold : Z := 2.
Definition tombstoneTTL : Z := 10 * Second.
Definition maxMissedPongs : Z := 3.

(** [t.UnixMilli()]; times count nanoseconds from the zero time *)
Definition unixEpoch : Z := 62135596800 * Second.
Definition UnixMilli (t : Z) : Z := (t - unixEpoch) / Millisecond.

Record cenv := mkCenv {
  ce_tx : txenv;
  ce_isClient : bool;
  ce_caps : Z * Z;
  ce_clock : nat → Z;
  ce_range_acc : gmap Z fecAccum → list (Z * fecAccum);
  ce_range_entries : gmap Z positive → list (Z * positive);
  ce_range_ids : gset Z → list Z;
}.

(** ** State *)
Record Connection := mkConn {
  cn_streams : gmap Z Stream;
  cn_nil : bool;                        (* [c.streams == nil] *)
  cn_nextStream : Z;
  cn_acceptCh : list Z;
  cn_sReadIdsToAck : gmap Z (list Z);
  cn_sAckDirty : gset Z;
  cn_deadStreams : gmap Z Z;
  cn_streamFreed : bool;                (* a token in [streamFreedCh] *)
  cn_rq : retransmitQueue;
  cn_resendQueue : list retransmitRequest;
  cn_resendHead : Z;
  cn_resendWake : bool;
  cn_est : estimator;
  cn_established : bool;
  cn_closed : bool;
  cn_closing : bool;                    (* [go c.Close()] has been started *)
  cn_sendPingMs : Z;
  cn_rttMs : Z;
  cn_missedPongs : Z;
  cn_statResends : Z;
  cn_statReorder : Z;
  cn_statFecRecovered : Z;
  cn_tx : option tx;
  cn_tick : nat;
  cn_log : list (Z * sent);
}.
#[export] Instance eta_conn : Eta Connection :=
  λ c, mkConn (cn_streams c) (cn_nil c) (cn_nextStream c) (cn_acceptCh c) (cn_sReadIdsToAck c) (cn_sAckDirty c)
    (cn_deadStreams c) (cn_streamFreed c) (cn_rq c) (cn_resendQueue c) (cn_resendHead c) (cn_resendWake c) (cn_est c)
    (cn_established c) (cn_closed c) (cn_closing c) (cn_sendPingMs c) (cn_rttMs c) (cn_missedPongs c)
    (cn_statResends c) (cn_statReorder c) (cn_statFecRecovered c) (cn_tx c) (cn_tick c) (cn_log c).

Section conn.
Context (E : cenv).
#[local] Abbreviation cf := (tx_cfg (ce_tx E)).
Implicit Types (c : Connection) (f : frame).

Definition newConnection : Connection :=
  mkConn ∅ false (if E.(ce_isClient) then 1 else 2) [] ∅ ∅ ∅ false (newRetransmitQueue cf.(maxPayload)) [] 0 false
    (newEstimator cf) (negb E.(ce_isClient)) false false 0 (-1) 0 0 0 0 (Some (newTx E.(ce_tx))) 0 [].

(** [time.Now()] *)
Definition conn_time c : Connection * Z := (c <| cn_tick := S c.(cn_tick) |>, E.(ce_clock) c.(cn_tick)).

(** ** Sending *)
Definition err_of {A} (r : result A) : option go_error := match r with Ok _ => None | Err e => Some e end.
Definition handed (b : batch) : bool := match b.(b_result) with HSent _ => true | _ => false end.

Definition tx_do (m : T unit) c : Connection * option go_error :=
  match c.(cn_tx) with
  | None => (c, Some ErrClosed)
  | Some s =>
      match m s with
      | None => (c <| cn_tx := None |>, Some ErrClosed)
      | Some (s', r) =>
          let c := c <| cn_tx := Some s' |> in
          let c := if existsb handed (drop (length s.(wire)) s'.(wire))
                   then c <| cn_rq := drainPendingFree c.(cn_rq) |> else c in
          (c, err_of r)
      end
  end.
Definition tx_do' (m : T unit) c : Connection := (tx_do m c).1.

(** a frame of stream [sid] was handed over *)
Definition conn_log c (sid : Z) (x : sent) : Connection := c <| cn_log := c.(cn_log) ++ [(sid, x)] |>.

Definition conn_sendDataFrame c (sid seq : Z) (payload : list Z) : Connection * option go_error :=
  let '(c, now) := conn_time c in
  let '(q, data) := add c.(cn_rq) frameData sid seq payload now in
  let c := c <| cn_rq := q |> in
  let '(c, err) := tx_do (SendBatch.sendDataFrame E.(ce_tx) sid seq (slice_bytes q.(arena) data)) c in
  (conn_log c sid (SentData seq payload err), err).

Definition conn_sendFecFrame c (ftype sid base count xorLen : Z) (xorData : list Z) : Connection * option go_error :=
  let '(c, err) := tx_do (SendBatch.sendFecFrame E.(ce_tx) ftype sid base count xorLen xorData) c in
  (conn_log c sid (SentFec ftype base count xorLen xorData), err).

Definition conn_sendReliableFrame c (ftype sid seq : Z) (payload : list Z) : Connection * option go_error :=
  let '(c, now) := conn_time c in
  let '(q, data) := add c.(cn_rq) ftype sid seq payload now in
  let c := c <| cn_rq := q |> in
  let '(c, err) := tx_do (SendBatch.sendReliableFrame E.(ce_tx) ftype sid seq (slice_bytes q.(arena) data)) c in
  (conn_log c sid (SentReliable ftype seq payload), err).

Definition conn_purge c (sid : Z) : Connection :=
  c <| cn_rq := purgeStream c.(cn_rq) sid (E.(ce_range_entries) c.(cn_rq).(entries)) |>.

(** the connection as its streams' write sides see it *)
Definition conn_path : SendPath Connection := {|
  StreamSend.sendDataFrame := conn_sendDataFrame;
  StreamSend.sendFecFrame := conn_sendFecFrame;
  StreamSend.sendReliableFrame := conn_sendReliableFrame;
  StreamSend.flushSend := tx_do (SendBatch.flushSend E.(ce_tx));
  purge := conn_purge;
  conn_inFlightCap c := (c, conn_inFlightCap_of c.(cn_est) E.(ce_caps));
  conn_now := conn_time;
|}.
#[local] Existing Instance conn_path.

(** ** The streams *)

(** the connection as its streams' read sides see it *)
Definition renv_of c : renv :=
  mkRenv cf E.(ce_clock) (λ _, currentRTO c.(cn_est)) (λ _, conn_reorderGrace c.(cn_est)) E.(ce_range_acc).

Definition run_call (sid : Z) c (k : conn_call) : Connection :=
  match k with
  | CWindowUpdate offset => tx_do' (sendWindowUpdate E.(ce_tx) sid (u64 offset)) c
  | CNackFrames seqs => tx_do' (sendNackFrames E.(ce_tx) sid seqs) c
  | CStopSending code => tx_do' (sendControlFrame E.(ce_tx) frameStopSending sid code) c
  | CStatReorder => c <| cn_statReorder := c.(cn_statReorder) + 1 |>
  | CStatFecRecovered => c <| cn_statFecRecovered := c.(cn_statFecRecovered) + 1 |>
  end.

(** run an operation of the read side of stream [st], number [sid] *)
Definition on_read {A} c (sid : Z) (st : Stream) (op : renv → rside → option (rside * A)) : option (Connection * A) :=
  '(s, a) ← op (renv_of c) (st.(st_read) <| tick := c.(cn_tick) |> <| calls := [] |>);
  let c := c <| cn_tick := s.(tick) |>
             <| cn_streams := <[sid := mkStream (s <| calls := [] |>) st.(st_write)]> c.(cn_streams) |> in
  Some (foldl (run_call sid) c s.(calls), a).

(** run an operation of its write side *)
Definition on_write {A} c (sid : Z) (st : Stream) (op : wside → Connection → option (wside * Connection * A))
    : option (Connection * A) :=
  '(w, c, a) ← op st.(st_write) c;
  Some (c <| cn_streams := <[sid := mkStream st.(st_read) w]> c.(cn_streams) |>, a).

(** [s := newStream(sid, c, c.cfg.streamBufSize); c.streams[sid] = s] *)
Definition insert_stream c (sid : Z) : Connection * Stream :=
  let '(c, now) := conn_time c in
  let s := newStream (renv_of c) cf.(streamBufSize) now in
  (c <| cn_streams := <[sid := s]> c.(cn_streams) |>, s).

Definition OpenStream c : Connection * result Z :=
  if c.(cn_closed) then (c, Err ErrClosed)
  else if c.(cn_closed) || c.(cn_nil) then (c, Err ErrClosed)
  else if Z.of_nat (size c.(cn_streams)) >=? cf.(maxStreams) then (c, Err ErrMaxStreams)
  else
    let id := c.(cn_nextStream) in
    let c := c <| cn_nextStream := u32 (c.(cn_nextStream) + 2) |> in
    ((insert_stream c id).1, Ok id).

(** one pass of [OpenStreamSync]: [None] where it waits for a free slot *)
Definition OpenStreamSync c : Connection * option (result Z) :=
  match OpenStream c with
  | (c, Err ErrMaxStreams) =>
      if c.(cn_closed) then (c, Some (Err ErrClosed)) else (c <| cn_streamFreed := false |>, None)
  | (c, r) => (c, Some r)
  end.

(** [AcceptStream] with a live context; [None] where it waits *)
Definition AcceptStream c : Connection * option (result Z) :=
  if c.(cn_closed) then (c, Some (Err ErrClosed))
  else match c.(cn_acceptCh) with
       | [] => (c, None)
       | id :: rest => (c <| cn_acceptCh := rest |>, Some (Ok id))
       end.

(** The three critical sections of [removeStream]: the stream table, the
    retransmission queue, and the tombstone. *)
Definition removeStream_table c (id : Z) : Connection := c <| cn_streams := delete id c.(cn_streams) |>.
Definition removeStream_purge c (id : Z) : Connection := conn_purge c id.
Definition removeStream_bury c (id : Z) : Connection :=
  let '(c, now) := conn_time c in
  let c := c <| cn_deadStreams := <[id := now]> c.(cn_deadStreams) |> in
  let c := c <| cn_sReadIdsToAck := delete id c.(cn_sReadIdsToAck) |> in
  let c := c <| cn_sAckDirty := c.(cn_sAckDirty) ∖ {[id]} |> in
  c <| cn_streamFreed := true |>.
Definition removeStream c (id : Z) : Connection :=
  removeStream_bury (removeStream_purge (removeStream_table c id) id) id.

(** the streams [gcStreams] will remove *)
Definition collectable c : list Z :=
  filter (λ id, match c.(cn_streams) !! id with Some st => finished st && negb (hasStream c.(cn_rq) id) | None => false end = true)
    (E.(ce_range_ids) (dom c.(cn_streams))).
Definition gcStreams c : Connection :=
  let c := foldl removeStream c (collectable c) in
  let '(c, now) := conn_time c in
  c <| cn_deadStreams := filter (λ kv, ¬ tombstoneTTL < time_Sub now kv.2) c.(cn_deadStreams) |>.

(** ** Acknowledgements *)
Definition queueAck c (sid seq : Z) : Connection :=
  c <| cn_sReadIdsToAck := <[sid := default [] (c.(cn_sReadIdsToAck) !! sid) ++ [seq]]> c.(cn_sReadIdsToAck) |>.
Definition markAckDirty c (sid : Z) : Connection := c <| cn_sAckDirty := {[sid]} ∪ c.(cn_sAckDirty) |>.

(** the loop over a snapshot: at least one ACK frame, [maxAcks] numbers each;
    every further pass takes [maxAcks > 0] numbers off [rest] *)
Fixpoint ackSnapLoop (fuel : nat) c (sid cum maxAcks : Z) (rest : list Z) : option Connection :=
  match fuel with
  | O => None
  | S fuel =>
      let n := Zlen rest in
      let n := if n >? maxAcks then maxAcks else n in
      let c := tx_do' (queueACKFrame E.(ce_tx) sid cum (slice rest 0 n)) c in
      let rest := slice rest n (Zlen rest) in
      if Zlen rest =? 0 then Some c else ackSnapLoop fuel c sid cum maxAcks rest
  end.

(** the loop over an explicit list: no frame for an empty one *)
Fixpoint ackListLoop (fuel : nat) c (sid maxAcks : Z) (rest : list Z) : option Connection :=
  match fuel with
  | O => if Zlen rest >? 0 then None else Some c
  | S fuel =>
      if Zlen rest >? 0 then
        let n := Zlen rest in
        let n := if n >? maxAcks then maxAcks else n in
        let c := tx_do' (queueACKFrame E.(ce_tx) sid 0 (slice rest 0 n)) c in
        ackListLoop fuel c sid maxAcks (slice rest n (Zlen rest))
      else Some c
  end.

Definition ackDirtyStep (maxAcks : Z) (st : option (Connection * bool)) (sid : Z) : option (Connection * bool) :=
  '(c, queued) ← st;
  '(c, queued) ←
    match c.(cn_streams) !! sid with
    | Some s =>
        '(c, (cum, seqs, granted)) ← on_read c sid s (λ _ r, Some (ackSnapshot r));
        c ← ackSnapLoop (S (length seqs)) c sid cum maxAcks seqs;
        Some (tx_do' (queueWindowUpdate E.(ce_tx) sid (u64 granted)) c, true)
    | None => Some (c, queued)
    end;
  Some (c <| cn_sAckDirty := c.(cn_sAckDirty) ∖ {[sid]} |>, queued).

Definition ackListStep (maxAcks : Z) (st : option (Connection * bool)) (sid : Z) : option (Connection * bool) :=
  '(c, queued) ← st;
  let seqs := default [] (c.(cn_sReadIdsToAck) !! sid) in
  if Zlen seqs =? 0 then Some (c, queued)
  else
    c ← ackListLoop (length seqs) c sid maxAcks seqs;
    Some (c <| cn_sReadIdsToAck := <[sid := []]> c.(cn_sReadIdsToAck) |>, true).

Definition flushPendingAcksLocked c : option Connection :=
  let maxAcks := maxAckSeqsPerFrame cf.(maxPayload) in
  if maxAcks <=? 0 then Some c
  else
    st ← foldl (ackDirtyStep maxAcks) (Some (c, false)) (E.(ce_range_ids) c.(cn_sAckDirty));
    '(c, queued) ← foldl (ackListStep maxAcks) (Some st) (E.(ce_range_ids) (dom st.1.(cn_sReadIdsToAck)));
    Some (if (queued : bool) then tx_do' (SendBatch.flushSend E.(ce_tx)) c else c).
Definition flushPendingAcks c : option Connection := if c.(cn_closed) then Some c else flushPendingAcksLocked c.

(** ** Incoming frames *)

(** the stream of a DATA or FIN frame: it, or [inr ackDiscard] *)
Definition streamForFrame c (sid : Z) : Connection * (Stream + bool) :=
  if c.(cn_closed) then (c, inr false)
  else match c.(cn_streams) !! sid with
  | Some s => (c, inl s)
  | None =>
      if bool_decide (c.(cn_deadStreams) !! sid ≠ None) then (c, inr true)
      else
        let peerInitiated := negb (Bool.eqb (Z.rem sid 2 =? 1) E.(ce_isClient)) in
        if negb peerInitiated then (c, inr true)
        else if c.(cn_closed) || c.(cn_nil) then (c, inr false)
        else if Z.of_nat (size c.(cn_streams)) >=? cf.(maxStreams) then
          let c := tx_do' (sendControlFrame E.(ce_tx) frameStopSending sid 0) c in
          (tx_do' (sendResetNoQueue E.(ce_tx) sid 0) c, inr false)
        else
          let '(c, s) := insert_stream c sid in
          let c := if Zlen c.(cn_acceptCh) <? cf.(maxStreams)
                   then c <| cn_acceptCh := c.(cn_acceptCh) ++ [sid] |> else c in
          (c, inl s)
  end.

(** [handleData] and [handleStreamFIN]; [isFin] tells them apart *)
Definition handleArrival c f (payload : list Z) (isFin : bool) : option Connection :=
  match streamForFrame c f.(f_streamID) with
  | (c, inr ackDiscard) => Some (if ackDiscard then queueAck c f.(f_streamID) f.(f_seq) else c)
  | (c, inl s) =>
      '(c, _) ← on_read c f.(f_streamID) s (λ e r, deliver e r f.(f_seq) payload isFin);
      Some (markAckDirty c f.(f_streamID))
  end.
Definition handleData c f : option Connection := handleArrival c f f.(f_payload) false.
Definition handleStreamFIN c f : option Connection := handleArrival c f [] true.

Definition handleFec c f (row : bool) : option Connection :=
  if (cf.(fecGroup) =? 0) || (Zlen f.(f_payload) <? fecMetaLen) then Some c
  else
    let meta := Uint32 (slice f.(f_payload) 0 fecMetaLen) in
    let count := Z.shiftr meta 16 in
    let xorLen := Z.land meta 65535 in
    if (count <=? 0) || (count >? cf.(fecGroup)) then Some c
    else match c.(cn_streams) !! f.(f_streamID) with
    | None => Some c
    | Some s =>
        '(c, recovered) ← on_read c f.(f_streamID) s (λ e r,
           applyFec e r row f.(f_seq) count xorLen (slice f.(f_payload) fecMetaLen (Zlen f.(f_payload))));
        Some (if (recovered : bool)
              then markAckDirty (c <| cn_statFecRecovered := c.(cn_statFecRecovered) + 1 |>) f.(f_streamID) else c)
    end.

Definition handleStreamReset c f : option Connection :=
  let c := queueAck c f.(f_streamID) f.(f_seq) in
  match c.(cn_streams) !! f.(f_streamID) with
  | Some s => '(c, _) ← on_read c f.(f_streamID) s (λ _ r, Some (deliverReset r, ())); Some c
  | None => Some c
  end.

Definition handleStopSending c f : option Connection :=
  match c.(cn_streams) !! f.(f_streamID) with
  | Some s => '(c, _) ← on_write c f.(f_streamID) s (λ w c, Some (onStopSending f.(f_streamID) w c f.(f_seq), ())); Some c
  | None => Some c
  end.

Definition handleWindowUpdate c f : option Connection :=
  match decodeWindowUpdatePayload f.(f_payload) with
  | Err _ => Some c
  | Ok offset =>
      match c.(cn_streams) !! f.(f_streamID) with
      | Some s => '(c, _) ← on_write c f.(f_streamID) s (λ w c, Some (setMaxSendOffset w (i64 offset), c, ())); Some c
      | None => Some c
      end
  end.

Definition handleHandshake c : Connection :=
  if c.(cn_closed) then c
  else if E.(ce_isClient) then c <| cn_established := true |>
  else tx_do' (sendControlFrame E.(ce_tx) frameHandshake 0 0) c.

Definition handleACK c f : option Connection :=
  match decodeSeqListFrame f [] with
  | Err _ => Some c
  | Ok (cum, seqs) =>
      let '(c, now1) := conn_time c in
      let '(q, freedCum, sampleCum) := ackCumulative c.(cn_rq) f.(f_streamID) cum now1 in
      let '(c, now2) := conn_time c in
      let '(q, freedList, sampleList) := ackMany q f.(f_streamID) seqs now2 in
      let c := c <| cn_rq := q |> in
      let sample := if (sampleCum =? 0) || ((sampleList >? 0) && (sampleList <? sampleCum)) then sampleList else sampleCum in
      let c := if sample >? 0 then c <| cn_est := updateRTO cf c.(cn_est) sample |> else c in
      let freed := freedCum + freedList in
      if freed =? 0 then Some c
      else match c.(cn_streams) !! f.(f_streamID) with
           | Some s => '(c, _) ← on_write c f.(f_streamID) s (λ w c, Some (creditAcked w freed, c, ())); Some c
           | None => Some c
           end
  end.

(** ** Retransmission *)
Definition enqueueResends c (reqs : list retransmitRequest) : Connection :=
  if Zlen reqs =? 0 then c
  else c <| cn_resendQueue := c.(cn_resendQueue) ++ reqs |> <| cn_resendWake := true |>.

Fixpoint nackRequests c (sid minAge : Z) (seqs : list Z) : Connection * list retransmitRequest :=
  match seqs with
  | [] => (c, [])
  | seq :: seqs =>
      let '(c, now) := conn_time c in
      let '(q, r) := requestForResend c.(cn_rq) sid seq minAge now in
      let '(c, rs) := nackRequests (c <| cn_rq := q |>) sid minAge seqs in
      (c, option_list r ++ rs)
  end.
Definition handleNack c f : Connection :=
  match decodeSeqListFrame f [] with
  | Err _ => c
  | Ok (_, seqs) =>
      let minAge := Z.quot (i64 (c.(cn_est).(srtt) * 3)) 4 in
      let '(c, requests) := nackRequests c f.(f_streamID) minAge seqs in
      enqueueResends c requests
  end.

(** [retransmitRequest{}] *)
Definition zeroRequest : retransmitRequest := mkRequest 0 0.
Definition popResend c : Connection * option retransmitRequest :=
  match c.(cn_resendQueue) !! Z.to_nat c.(cn_resendHead) with
  | None => (c <| cn_resendQueue := [] |> <| cn_resendHead := 0 |>, None)
  | Some req =>
      let c := c <| cn_resendQueue := <[Z.to_nat c.(cn_resendHead) := zeroRequest]> c.(cn_resendQueue) |> in
      let c := c <| cn_resendHead := c.(cn_resendHead) + 1 |> in
      let c :=
        if (c.(cn_resendHead) >=? 1024) && (c.(cn_resendHead) * 2 >=? Zlen c.(cn_resendQueue)) then
          let moved := copy_at c.(cn_resendQueue) 0 (slice c.(cn_resendQueue) c.(cn_resendHead) (Zlen c.(cn_resendQueue))) in
          c <| cn_resendQueue := slice moved 0 (Zlen c.(cn_resendQueue) - c.(cn_resendHead)) |> <| cn_resendHead := 0 |>
        else c in
      (c, Some req)
  end.

(** [copies] copies of a frame, up to the first error; whether one was queued *)
Fixpoint queueCopies (copies : nat) c (e : retransmitEntry) (data : list Z) (queued : bool) : Connection * bool :=
  match copies with
  | O => (c, queued)
  | S copies =>
      match tx_do (queueResendCopy E.(ce_tx) e.(e_ftype) e.(e_streamID) e.(e_seq) data) c with
      | (c, Some _) => (c, queued)
      | (c, None) => queueCopies copies c e data true
      end
  end.

Definition resendOne c (req : retransmitRequest) (queued : bool) : Connection * bool :=
  match peekForResend c.(cn_rq) req with
  | None => (c, queued)
  | Some _ =>
      let '(c, now) := conn_time c in
      match takeForResend c.(cn_rq) req now with
      | (q, None) => (c <| cn_rq := q |>, queued)
      | (q, Some e) =>
          let c := c <| cn_rq := q |> in
          let copies := if e.(e_retries) >=? stubbornResendThreshold then 2%nat else 1%nat in
          let '(c, queued) :=
            match e.(e_data) with
            | Some d =>
                let '(c, queued) := queueCopies copies c e (slice_bytes c.(cn_rq).(arena) d) queued in
                (c <| cn_rq := releaseResendCopy c.(cn_rq) d |>, queued)
            | None => queueCopies copies c e [] queued
            end in
          (c <| cn_statResends := c.(cn_statResends) + 1 |>, queued)
      end
  end.

(** every pass takes a request off the queue *)
Fixpoint serviceLoop (fuel : nat) c (queued : bool) : option (Connection * bool) :=
  match fuel with
  | O => None
  | S fuel =>
      match popResend c with
      | (c, None) => Some (c, queued)
      | (c, Some req) => let '(c, queued) := resendOne c req queued in serviceLoop fuel c queued
      end
  end.
Definition serviceResends c : option (Connection * bool) :=
  '(c, queued) ← serviceLoop (S (length c.(cn_resendQueue))) c false;
  Some (if (queued : bool) then tx_do' (SendBatch.flushSend E.(ce_tx)) c else c, queued).

Definition tailNackStep (now : Z) (c : option Connection) (sid : Z) : option Connection :=
  c ← c;
  match c.(cn_streams) !! sid with
  | Some st => '(c, _) ← on_read c sid st (λ e s, Some (maybeTailNack e s now, ())); Some c
  | None => Some c
  end.
Definition tailNackScan c : option Connection :=
  let '(c, now) := conn_time c in
  foldl (tailNackStep now) (Some c) (E.(ce_range_ids) (dom c.(cn_streams))).

(** what [retransmitLoop] does when its ticker fires *)
Definition retransmitTick c : option Connection :=
  let '(c, now) := conn_time c in
  '(q, reqs) ← due c.(cn_rq) (currentRTO c.(cn_est)) now;
  let c := enqueueResends (c <| cn_rq := q |>) reqs in
  c ← tailNackScan c;
  Some (gcStreams c).

(** ** Dispatch *)
Definition handlePong c : Connection :=
  let sentAt := c.(cn_sendPingMs) in
  if sentAt >? 0 then
    let '(c, now) := conn_time c in
    let rttMs := i64 (UnixMilli now - sentAt) in
    let c := c <| cn_rttMs := rttMs |> <| cn_sendPingMs := 0 |> in
    c <| cn_est := updateRTO cf c.(cn_est) (i64 (rttMs * Millisecond)) |>
  else c.

Definition dispatchFrameLocked c f : option Connection :=
  let c := c <| cn_missedPongs := 0 |> in
  let t := f.(f_ftype) in
  if t =? frameData then
    if cf.(fecGroup) >? 0 then
      if Zlen f.(f_payload) <? fecMetaLen then Some c
      else handleData c (f <| f_payload := slice f.(f_payload) fecMetaLen (Zlen f.(f_payload)) |>)
    else handleData c f
  else if t =? frameFEC then handleFec c f false
  else if t =? frameFECRow then if cf.(fec2D) then handleFec c f true else Some c
  else if t =? frameStreamFIN then handleStreamFIN c f
  else if t =? frameStreamReset then handleStreamReset c f
  else if t =? frameStopSending then handleStopSending c f
  else if t =? frameWindowUpdate then handleWindowUpdate c f
  else if t =? framePing then Some (tx_do' (sendControlFrame E.(ce_tx) framePong f.(f_streamID) f.(f_seq)) c)
  else if t =? framePong then Some (handlePong c)
  else if t =? frameGoAway then Some (c <| cn_closing := true |>)
  else if t =? frameACK then handleACK c f
  else if t =? frameNack then Some (handleNack c f)
  else if t =? frameHandshake then Some (handleHandshake c)
  else Some c.

(** every frame takes at least its header off the buffer *)
Fixpoint parseLoop (fuel : nat) c (buf : list Z) : option Connection :=
  match fuel with
  | O => None
  | S fuel =>
      if Zlen buf >=? frameHeaderSize then
        match decodeFrame buf with
        | Err _ => Some c
        | Ok f =>
            c ← dispatchFrameLocked c f;
            parseLoop fuel c (slice buf (frameHeaderSize + f.(f_length)) (Zlen buf))
        end
      else Some c
  end.
Definition handleDatagramLocked c (buf : list Z) : option Connection :=
  if c.(cn_closed) then Some c else parseLoop (S (length buf)) c buf.
Definition handleDatagram c (buf : list Z) : option Connection :=
  if c.(cn_closed) then Some c else handleDatagramLocked c buf.
Definition handleDatagramAndFlush c (buf : list Z) : option Connection :=
  if c.(cn_closed) then Some c else c ← handleDatagramLocked c buf; flushPendingAcksLocked c.

(** what [readLoop] does with the messages of one [recvmmsg] *)
Fixpoint readMessages c (msgs : list (list Z)) : option Connection :=
  match msgs with
  | [] => Some c
  | m :: msgs =>
      if Zlen m <? frameHeaderSize then readMessages c msgs
      else c ← handleDatagramLocked c m; readMessages c msgs
  end.
Definition readBatch c (msgs : list (list Z)) : option Connection :=
  if c.(cn_closed) then Some c else c ← readMessages c msgs; flushPendingAcksLocked c.

(** ** Lifecycle *)
Definition SendPing c (sid seq : Z) : Connection * option go_error :=
  let '(c, now) := conn_time c in
  let c := c <| cn_sendPingMs := UnixMilli now |> in
  match tx_do (sendControlFrame E.(ce_tx) framePing sid seq) c with
  | (c, Some e) => (c <| cn_sendPingMs := 0 |>, Some e)
  | (c, None) => (c, None)
  end.
Definition GetRtt c : Z := c.(cn_rttMs).

(** what [keepAliveLoop] does when its ticker fires; it ends when it gives up *)
Definition keepAliveTick c : Connection :=
  let c := c <| cn_missedPongs := c.(cn_missedPongs) + 1 |> in
  if c.(cn_missedPongs) >? maxMissedPongs then c <| cn_closing := true |> else (SendPing c 0 0).1.

Definition conn_sendHandshake c (connID : Z) : Connection * option go_error := tx_do (sendHandshake E.(ce_tx) connID) c.

(** The winner's critical sections of [Close], up to the wait for the
    goroutines: the transition of [closed], the GOAWAY, and the fence, which
    takes the streams off the table and leaves the nil map. *)
Definition Close_begin c : Connection := c <| cn_closed := true |>.
Definition Close_goaway c : Connection := tx_do' (sendControlFrame E.(ce_tx) frameGoAway 0 0) c.
Definition Close_fence c : Connection * list Stream :=
  (c <| cn_streams := ∅ |> <| cn_nil := true |>,
   omap (λ id, c.(cn_streams) !! id) (E.(ce_range_ids) (dom c.(cn_streams)))).
(** [Close] run without interruption, with the streams it tears down *)
Definition conn_Close c : Connection * list Stream :=
  if c.(cn_closed) then (c, [])
  else let '(c, streams) := Close_fence (Close_goaway (Close_begin c)) in (c, deliverClose <$> streams).

End conn.
