(* ===== verification/ConnLemmas.v ===== *)
(** * What a connection's operations leave alone

    [sends c c']: [c'] differs from [c] only by what sending touches, the
    batch, the retransmission queue, the clock, the history and the
    statistics.  Every operation of the send path is of this kind. *)
From S2P Require Import Prelude Errors Frame Float64 Pacer Options Ring Retransmit StreamRecv StreamSend Estimator SendBatch SendFifo Connection.

Definition sends (c c' : Connection) : Prop :=
  c' = c <| cn_tx := c'.(cn_tx) |> <| cn_rq := c'.(cn_rq) |> <| cn_tick := c'.(cn_tick) |> <| cn_log := c'.(cn_log) |>
         <| cn_statReorder := c'.(cn_statReorder) |> <| cn_statFecRecovered := c'.(cn_statFecRecovered) |>.

#[export] Instance sends_preorder : PreOrder sends.
Proof.
  split.
  - intros c. by destruct c.
  - intros c1 c2 c3 H1 H2. unfold sends in *. etrans; [exact H2|]. by rewrite H1.
Qed.

(** the fields a send keeps *)
Lemma sends_fields c c' : sends c c' →
  cn_streams c' = cn_streams c ∧ cn_nil c' = cn_nil c ∧ cn_nextStream c' = cn_nextStream c ∧ cn_acceptCh c' = cn_acceptCh c ∧
  cn_sReadIdsToAck c' = cn_sReadIdsToAck c ∧ cn_sAckDirty c' = cn_sAckDirty c ∧ cn_deadStreams c' = cn_deadStreams c ∧
  cn_resendQueue c' = cn_resendQueue c ∧ cn_resendHead c' = cn_resendHead c ∧ cn_est c' = cn_est c ∧
  cn_closed c' = cn_closed c ∧ cn_closing c' = cn_closing c.
Proof. unfold sends. intros ->. done. Qed.

Create HintDb conn.
#[export] Hint Extern 1 (sends ?c ?c) => reflexivity : conn.

Section lemmas.
Context (E : cenv).
Implicit Types (c : Connection).

Lemma sends_step c c1 c2 : sends c1 c2 → sends c c1 → sends c c2.
Proof. intros H1 H2. by trans c1. Qed.

Lemma conn_time_sends c : sends c (conn_time E c).1.
Proof. by destruct c. Qed.
Lemma sends_rq c q : sends c (c <| cn_rq := q |>).
Proof. by destruct c. Qed.
Lemma sends_tx c x : sends c (c <| cn_tx := x |>).
Proof. by destruct c. Qed.
Lemma conn_log_sends c sid x : sends c (conn_log c sid x).
Proof. by destruct c. Qed.

Lemma tx_do_sends m c : sends c (tx_do m c).1.
Proof.
  unfold tx_do. destruct (cn_tx c) as [s|]; [|reflexivity]. destruct (m s) as [[s' r]|]; [|apply sends_tx].
  cbn [fst]. destruct (existsb _ _); [|apply sends_tx]. eapply sends_step; [apply sends_rq|apply sends_tx].
Qed.
Lemma run_call_sends sid c k : sends c (run_call E sid c k).
Proof.
  destruct k; try apply tx_do_sends; by destruct c.
Qed.
Lemma run_calls_sends sid c ks : sends c (foldl (run_call E sid) c ks).
Proof.
  revert c. induction ks as [|k ks IH]; intros c; [reflexivity|]. cbn [foldl].
  eapply sends_step; [apply IH|apply run_call_sends].
Qed.

Lemma conn_sendDataFrame_sends c sid seq p : sends c (conn_sendDataFrame E c sid seq p).1.
Proof.
  unfold conn_sendDataFrame, conn_time. cbn [fst snd]. destruct (add _ _ _ _ _ _) as [q d].
  match goal with |- context [tx_do ?m ?c] => pose proof (tx_do_sends m c) as Ht; destruct (tx_do m c) as [c1 e] end.
  cbn [fst] in *. eapply sends_step; [apply conn_log_sends|]. eapply sends_step; [exact Ht|].
  eapply sends_step; [apply sends_rq|]. apply (conn_time_sends c).
Qed.
Lemma conn_sendReliableFrame_sends c ft sid seq p : sends c (conn_sendReliableFrame E c ft sid seq p).1.
Proof.
  unfold conn_sendReliableFrame, conn_time. cbn [fst snd]. destruct (add _ _ _ _ _ _) as [q d].
  match goal with |- context [tx_do ?m ?c] => pose proof (tx_do_sends m c) as Ht; destruct (tx_do m c) as [c1 e] end.
  cbn [fst] in *. eapply sends_step; [apply conn_log_sends|]. eapply sends_step; [exact Ht|].
  eapply sends_step; [apply sends_rq|]. apply (conn_time_sends c).
Qed.
Lemma conn_sendFecFrame_sends c ft sid base n xl d : sends c (conn_sendFecFrame E c ft sid base n xl d).1.
Proof.
  unfold conn_sendFecFrame.
  match goal with |- context [tx_do ?m ?c] => pose proof (tx_do_sends m c) as Ht; destruct (tx_do m c) as [c1 e] end.
  cbn [fst] in *. eapply sends_step; [apply conn_log_sends|exact Ht].
Qed.
Lemma conn_purge_sends c sid : sends c (conn_purge E c sid).
Proof. apply sends_rq. Qed.

(** ** On behalf of a stream *)

(** [serves sid c c']: [c'] differs from [c] only by what sending touches, and
    the history has grown by frames of stream [sid] *)
Definition serves (sid : Z) c c' : Prop := sends c c' ∧ ∃ l, cn_log c' = cn_log c ++ (pair sid <$> l).
#[export] Instance serves_preorder sid : PreOrder (serves sid).
Proof.
  split; [intros c; split; [reflexivity|exists []; by rewrite app_nil_r]|].
  intros c1 c2 c3 [H1 [l1 L1]] [H2 [l2 L2]]. split; [by trans c2|]. exists (l1 ++ l2). by rewrite L2, L1, fmap_app, app_assoc.
Qed.
Lemma serves_step sid c c1 c2 : serves sid c1 c2 → serves sid c c1 → serves sid c c2.
Proof. intros H1 H2. by trans c1. Qed.
Lemma serves_quiet sid c c' : sends c c' → cn_log c' = cn_log c → serves sid c c'.
Proof. intros H1 H2. split; [done|]. exists []. by rewrite app_nil_r. Qed.
Lemma tx_do_keeps_log m c : cn_log (tx_do m c).1 = cn_log c.
Proof. unfold tx_do. destruct (cn_tx c) as [s|]; [|done]. destruct (m s) as [[s' r]|]; [|done]. by destruct (existsb _ _). Qed.
Lemma logged_once sid c c' x : sends c c' → cn_log c' = cn_log c ++ [(sid, x)] → serves sid c c'.
Proof. intros H1 H2. split; [done|]. by exists [x]. Qed.
Lemma data_serves c sid seq p : serves sid c (conn_sendDataFrame E c sid seq p).1 ∧
  cn_log (conn_sendDataFrame E c sid seq p).1 = cn_log c ++ [(sid, SentData seq p (conn_sendDataFrame E c sid seq p).2)].
Proof.
  pose proof (conn_sendDataFrame_sends c sid seq p) as Hs.
  assert (cn_log (conn_sendDataFrame E c sid seq p).1 = cn_log c ++ [(sid, SentData seq p (conn_sendDataFrame E c sid seq p).2)]) as Hl.
  { unfold conn_sendDataFrame, conn_time. cbn [fst snd]. destruct (add _ _ _ _ _ _) as [q d].
    match goal with |- context [tx_do ?m ?c] => pose proof (tx_do_keeps_log m c) as Hl; destruct (tx_do m c) as [c1 e1] end.
    cbn in Hl |- *. by rewrite Hl. }
  split; [by eapply logged_once|done].
Qed.
Lemma reliable_serves c ft sid seq p : serves sid c (conn_sendReliableFrame E c ft sid seq p).1 ∧
  cn_log (conn_sendReliableFrame E c ft sid seq p).1 = cn_log c ++ [(sid, SentReliable ft seq p)].
Proof.
  pose proof (conn_sendReliableFrame_sends c ft sid seq p) as Hs. assert (cn_log (conn_sendReliableFrame E c ft sid seq p).1 = cn_log c ++ [(sid, SentReliable ft seq p)]) as Hl.
  { unfold conn_sendReliableFrame, conn_time. cbn [fst snd]. destruct (add _ _ _ _ _ _) as [q d].
    match goal with |- context [tx_do ?m ?c] => pose proof (tx_do_keeps_log m c) as Hl; destruct (tx_do m c) as [c1 e1] end.
    cbn in Hl |- *. by rewrite Hl. }
  split; [by eapply logged_once|done].
Qed.
Lemma fec_serves c ft sid base n xl d : serves sid c (conn_sendFecFrame E c ft sid base n xl d).1 ∧
  cn_log (conn_sendFecFrame E c ft sid base n xl d).1 = cn_log c ++ [(sid, SentFec ft base n xl d)].
Proof.
  pose proof (conn_sendFecFrame_sends c ft sid base n xl d) as Hs. assert (cn_log (conn_sendFecFrame E c ft sid base n xl d).1 = cn_log c ++ [(sid, SentFec ft base n xl d)]) as Hl.
  { unfold conn_sendFecFrame.
    match goal with |- context [tx_do ?m ?c] => pose proof (tx_do_keeps_log m c) as Hl; destruct (tx_do m c) as [c1 e1] end.
    cbn in Hl |- *. by rewrite Hl. }
  split; [by eapply logged_once|done].
Qed.

(** an operation on the read side of a stream changes that stream, and sends *)
Lemma on_read_eq {A} c sid st (op : renv → rside → option (rside * A)) c' a :
  on_read E c sid st op = Some (c', a) →
  ∃ s, op (renv_of E c) (st.(st_read) <| tick := c.(cn_tick) |> <| calls := [] |>) = Some (s, a) ∧
    sends (c <| cn_streams := <[sid := mkStream (s <| calls := [] |>) st.(st_write)]> c.(cn_streams) |>) c'.
Proof.
  unfold on_read. destruct (op _ _) as [[s a']|] eqn:Hop; [|done]. cbn [mbind option_bind].
  intros [= <- <-]. exists s. split; [done|]. eapply sends_step; [apply run_calls_sends|].
  by destruct c.
Qed.
Lemma on_read_total {A} c sid st (op : renv → rside → option (rside * A)) :
  (∀ e s, ∃ s' a, op e s = Some (s', a)) → ∃ c' a, on_read E c sid st op = Some (c', a).
Proof.
  intros Hop. unfold on_read. destruct (Hop (renv_of E c) (st_read st <| tick := cn_tick c |> <| calls := [] |>)) as (s & a & ->).
  cbn [mbind option_bind]. by eauto.
Qed.

(** ** The resend queue *)

(** the requests the worker has still to service *)
Definition backlog c : list retransmitRequest := drop (Z.to_nat c.(cn_resendHead)) c.(cn_resendQueue).

Lemma enqueueResends_spec c reqs : 0 ≤ c.(cn_resendHead) ≤ Zlen c.(cn_resendQueue) → backlog (enqueueResends c reqs) = backlog c ++ reqs.
Proof.
  intros Hh. unfold enqueueResends. destruct (decide (Zlen reqs = 0)) as [H|H]; [rewrite bool_decide_true by done|rewrite bool_decide_false by done].
  - destruct reqs; [by rewrite app_nil_r|]. rewrite Zlen_cons in H. pose proof (Zlen_nonneg reqs). lia.
  - unfold backlog. cbn. apply drop_app_le. unfold Zlen in Hh. lia.
Qed.

Definition head_ok c : Prop := 0 ≤ c.(cn_resendHead) ≤ Zlen c.(cn_resendQueue).

(** only the resend queue differs *)
Definition requeued c c' : Prop :=
  c' = c <| cn_resendQueue := c'.(cn_resendQueue) |> <| cn_resendHead := c'.(cn_resendHead) |>.

(** the head index, its zeroed cells and the compaction make a FIFO *)
Lemma popResend_spec c : head_ok c →
  let '(c', r) := popResend c in
  head_ok c' ∧ requeued c c' ∧ backlog c = option_list r ++ backlog c' ∧ (r = None → backlog c' = []).
Proof.
  intros Hh. unfold popResend, head_ok, backlog in *.
  destruct (cn_resendQueue c !! Z.to_nat (cn_resendHead c)) as [req|] eqn:Hl.
  2:{ apply lookup_ge_None in Hl. split_and!; [cbn; lia|done..| |done]. cbn. by rewrite drop_ge. }
  pose proof (lookup_lt_Some _ _ _ Hl) as Hlt.
  assert (drop (Z.to_nat (cn_resendHead c)) (cn_resendQueue c) = req :: drop (Z.to_nat (cn_resendHead c + 1))
    (<[Z.to_nat (cn_resendHead c):=zeroRequest]> (cn_resendQueue c))) as Hd.
  { rewrite (drop_S _ _ _ Hl). f_equal. rewrite drop_insert_lt by lia. f_equal. lia. }
  rewrite Hd. cbn [cn_resendHead cn_resendQueue]. set (l := <[_ := zeroRequest]> _) in *.
  assert (length l = length (cn_resendQueue c)) as Hlen by apply length_insert.
  unfold Zlen in *. cbn. destruct (_ && _); cbn.
  - set (src := slice l _ _). assert (src = drop (Z.to_nat (cn_resendHead c + 1)) l) as Hsrc.
    { unfold src, slice. rewrite take_ge; [done|]. rewrite length_drop. lia. }
    assert (Zlen src = Z.of_nat (length l) - (cn_resendHead c + 1)) as Hz by (rewrite Hsrc; unfold Zlen; rewrite length_drop; lia).
    rewrite <- Hz. replace (Zlen src) with (0 + Zlen src) by lia.
    rewrite slice_copy_at_in by (rewrite ?Hz; unfold Zlen; lia). rewrite drop_0, <- Hsrc. split_and!; (lia || done).
  - split_and!; [lia|lia|done| |done]. done.
Qed.

End lemmas.

(** An environment to run connections in: no pacer, a kernel that takes
    everything, a clock that advances a millisecond per reading. *)
Definition example_env (cf : config) (isClient : bool) : cenv :=
  mkCenv (tx_setup cf None true true (λ _, false) (λ _, true) (λ _, 0)) isClient (resolveCaps cf None)
    (λ n, unixEpoch + Millisecond * Z.of_nat n) map_to_list map_to_list elements.
