(* ===== verification/StreamSlots.v ===== *)
(** * Waiting for a stream slot

    [OpenStreamSync] waits while the connection is at its stream limit.
    [Connection.v] has a pass of it; here any number of calls go through its
    loop, and the channel [streamFreedCh] that wakes them is as in Go: a
    buffer for one token, a sender that gives up when it is full, and hands
    its token directly to a call that is already asleep.

    The table of streams and the token are the connection's own
    ([cn_streams], [cn_streamFreed]); a removal ([removeStream]) first leaves
    the table, and signals when it is done.  What else happens to the
    connection is left open, as long as it neither takes streams out of the
    table nor touches the channel. *)
From S2P Require Import Prelude Errors Frame Float64 Pacer Options Ring StreamRecv Retransmit StreamSend Estimator SendBatch Connection ConnLemmas.

(** a call of [OpenStreamSync]: before [OpenStream]; before its [select];
    asleep in it; returned *)
Inductive opener_pc :=
  | OTry
  | OSelect
  | OParked
  | OBack (r : result Z).
#[export] Instance opener_eq_dec : EqDecision opener_pc.
Proof. solve_decision. Defined.

Record openers := mkOpeners {
  op_conn : Connection;
  op_leaving : list Z;           (* out of the table, not yet signalled *)
  op_calls : list opener_pc;
}.
#[export] Instance eta_openers : Eta openers := λ o, mkOpeners (op_conn o) (op_leaving o) (op_calls o).

Section slots.
Context (E : cenv).
Implicit Types (o : openers) (c : Connection).

Definition call_at o (i : nat) (pc : opener_pc) : Prop := o.(op_calls) !! i = Some pc.
Definition call_to o (i : nat) (pc : opener_pc) : openers := o <| op_calls := <[i := pc]> o.(op_calls) |>.
Definition waits o (i : nat) : Prop := call_at o i OSelect ∨ call_at o i OParked.

(** the rest of [removeStream], up to its signal *)
Definition buried c (id : Z) : Connection := removeStream_bury E (removeStream_purge E c id) id.

(** What runs by itself: the calls, and removals that are under way *)
Inductive opener_step : openers → openers → Prop :=
  | os_opened o i c r :                              (* [err != ErrMaxStreams] *)
      call_at o i OTry → OpenStream E o.(op_conn) = (c, r) → r ≠ Err ErrMaxStreams →
      opener_step o (call_to (o <| op_conn := c |>) i (OBack r))
  | os_full o i c :
      call_at o i OTry → OpenStream E o.(op_conn) = (c, Err ErrMaxStreams) →
      opener_step o (call_to (o <| op_conn := c |>) i OSelect)
  | os_token o i :                                   (* [<-c.streamFreedCh] *)
      call_at o i OSelect → o.(op_conn).(cn_streamFreed) = true →
      opener_step o (call_to (o <| op_conn := o.(op_conn) <| cn_streamFreed := false |> |>) i OTry)
  | os_closed o i :                                  (* [<-c.closeCh] *)
      waits o i → o.(op_conn).(cn_closed) = true →
      opener_step o (call_to o i (OBack (Err ErrClosed)))
  | os_park o i :                                    (* nothing is ready *)
      call_at o i OSelect → o.(op_conn).(cn_streamFreed) = false → o.(op_conn).(cn_closed) = false →
      opener_step o (call_to o i OParked)
  | os_signal o id rest :                            (* nobody is asleep: into the buffer, unless it is full *)
      o.(op_leaving) = id :: rest → OParked ∉ o.(op_calls) →
      opener_step o (o <| op_conn := buried o.(op_conn) id |> <| op_leaving := rest |>)
  | os_handoff o id rest j :
      o.(op_leaving) = id :: rest → call_at o j OParked →
      opener_step o (call_to (o <| op_conn := buried o.(op_conn) id <| cn_streamFreed := false |> |> <| op_leaving := rest |>) j OTry).

(** what the other goroutines may do: frames of the peer open streams, nothing
    is taken out of the table but by the steps below *)
Definition grows c c' : Prop :=
  dom c.(cn_streams) ⊆ dom c'.(cn_streams) ∧ c'.(cn_streamFreed) = c.(cn_streamFreed) ∧
  c'.(cn_closed) = c.(cn_closed) ∧ c'.(cn_nil) = c.(cn_nil).

(** [single]: a call only when all earlier ones have returned *)
Inductive slots_env (single : bool) : openers → openers → Prop :=
  | oe_call o :
      (single = true → Forall (λ pc, ∃ r, pc = OBack r) o.(op_calls)) →
      slots_env single o (o <| op_calls := o.(op_calls) ++ [OTry] |>)
  | oe_cancel o i e :                                (* [<-ctx.Done()] *)
      waits o i → slots_env single o (call_to o i (OBack (Err e)))
  | oe_unlink o id :
      is_Some (o.(op_conn).(cn_streams) !! id) →
      slots_env single o (o <| op_conn := removeStream_table o.(op_conn) id |> <| op_leaving := o.(op_leaving) ++ [id] |>)
  | oe_other o c' :
      grows o.(op_conn) c' → slots_env single o (o <| op_conn := c' |>)
  | oe_close o :
      slots_env single o (o <| op_conn := Close_begin o.(op_conn) |>)
  | oe_fence o :
      o.(op_conn).(cn_closed) = true → slots_env single o (o <| op_conn := (Close_fence E o.(op_conn)).1 |>).

Inductive opens (single : bool) : openers → Prop :=
  | opens_new : opens single (mkOpeners (newConnection E) [] [])
  | opens_own o o' : opens single o → opener_step o o' → opens single o'
  | opens_env o o' : opens single o → slots_env single o o' → opens single o'.

(** ** Invariant *)
Definition has_slot c : Prop := Z.of_nat (size c.(cn_streams)) < maxStreams (tx_cfg E.(ce_tx)).

Record slots_inv (single : bool) o : Prop := mkSlotsInv {
  sl_parked : OParked ∈ o.(op_calls) → o.(op_conn).(cn_streamFreed) = false;
  sl_nil : o.(op_conn).(cn_closed) = false → o.(op_conn).(cn_nil) = false;
  sl_one : single = true → ∀ i j, (∃ pc, call_at o i pc ∧ ∀ r, pc ≠ OBack r) → (∃ pc, call_at o j pc ∧ ∀ r, pc ≠ OBack r) → i = j;
  sl_woken : single = true → o.(op_conn).(cn_closed) = false → has_slot o.(op_conn) →
    ∀ i, waits o i → o.(op_leaving) ≠ [] ∨ o.(op_conn).(cn_streamFreed) = true;
}.

#[local] Abbreviation busy o i := (∃ pc, call_at o i pc ∧ ∀ r, pc ≠ OBack r).

Lemma call_to_at o i j pc pc' : call_at (call_to o i pc) j pc' → (j = i ∧ pc' = pc) ∨ (j ≠ i ∧ call_at o j pc').
Proof.
  unfold call_at, call_to. cbn. intros H. destruct (decide (j = i)) as [->|]; [|right; by rewrite list_lookup_insert_ne in H].
  left. split; [done|]. destruct (decide (i < length (op_calls o))%nat); [rewrite list_lookup_insert_eq in H by done; congruence|].
  rewrite list_insert_ge in H by lia. by apply lookup_lt_Some in H.
Qed.
Lemma parked_at o : OParked ∈ o.(op_calls) ↔ ∃ j, call_at o j OParked.
Proof. apply list_elem_of_lookup. Qed.
Lemma call_to_busy o i j pc : busy (call_to o i pc) j → busy o i → busy o j.
Proof. intros (p & [[-> _]|[_ H]]%call_to_at & Hp) Hi; [done|by exists p]. Qed.
Lemma waits_busy o i : waits o i → busy o i.
Proof. intros [H|H]; by eexists. Qed.
Lemma waits_at o i : waits o i ↔ ∃ pc, call_at o i pc ∧ (pc = OSelect ∨ pc = OParked).
Proof. unfold waits. naive_solver. Qed.

(** of a change to the connection *)
Lemma slots_conn single o c l : slots_inv single o →
  (OParked ∈ o.(op_calls) → c.(cn_streamFreed) = false) → (c.(cn_closed) = false → c.(cn_nil) = false) →
  (single = true → c.(cn_closed) = false → has_slot c → ∀ i, waits o i → l ≠ [] ∨ c.(cn_streamFreed) = true) →
  slots_inv single (o <| op_conn := c |> <| op_leaving := l |>).
Proof. intros [H1 H2 H3 H4] A1 A2 A3. by split. Qed.
(** of a call's step to [pc], where it does not wait *)
Lemma slots_awake single o i pc : slots_inv single o → busy o i → pc ≠ OSelect → pc ≠ OParked → slots_inv single (call_to o i pc).
Proof.
  intros [H1 H2 H3 H4] Hb Hs Hp. split.
  - intros (j & [[-> <-]|[_ Hj]]%call_to_at)%parked_at; [done|]. apply H1, parked_at. by exists j.
  - done.
  - intros Hsg j k Hj Hk. apply (H3 Hsg); by apply (call_to_busy o i _ pc).
  - intros Hsg Hc Hs' j (q & [[-> <-]|[_ Hj]]%call_to_at & Hq)%waits_at; [naive_solver|]. apply (H4 Hsg Hc Hs' j), waits_at. by exists q.
Qed.
(** of a call that takes a token: nobody else waits, or there may be others *)
Lemma slots_taken single o i c l : slots_inv single o → busy o i → c.(cn_streamFreed) = false → (c.(cn_closed) = false → c.(cn_nil) = false) →
  slots_inv single (call_to (o <| op_conn := c |> <| op_leaving := l |>) i OTry).
Proof.
  intros [H1 H2 H3 H4] Hb Ht Hn. split; [done|done| |].
  - intros Hsg j k Hj Hk. apply (H3 Hsg); by apply (call_to_busy o i _ OTry).
  - intros Hsg _ _ j (q & [[-> ->]|[Hji Hj]]%call_to_at & Hq)%waits_at; [naive_solver|]. destruct Hji. apply (H3 Hsg); [|done].
    exists q. split; [exact Hj|naive_solver].
Qed.

Lemma buried_fields c id : (buried c id).(cn_streams) = c.(cn_streams) ∧ (buried c id).(cn_closed) = c.(cn_closed) ∧
  (buried c id).(cn_nil) = c.(cn_nil) ∧ (buried c id).(cn_streamFreed) = true.
Proof. done. Qed.

(** what [OpenStream] does to the table *)
Lemma OpenStream_slots c c' r : OpenStream E c = (c', r) →
  c'.(cn_streamFreed) = c.(cn_streamFreed) ∧ c'.(cn_closed) = c.(cn_closed) ∧ c'.(cn_nil) = c.(cn_nil) ∧
  (has_slot c' → has_slot c) ∧ (r = Err ErrMaxStreams → ¬ has_slot c' ∧ c.(cn_closed) = false) ∧
  (has_slot c → c.(cn_closed) = false → c.(cn_nil) = false → r = Ok c.(cn_nextStream)).
Proof.
  unfold OpenStream, has_slot. destruct (cn_closed c) eqn:Hc; [intros [= <- <-]; naive_solver|]. destruct (cn_nil c) eqn:Hn; [intros [= <- <-]; naive_solver|].
  cbn [orb]. case_test; [intros [= <- <-]; split_and!; try done; [intros _; split; [lia|done]|lia]|]. intros [= <- <-]. cbn. split_and!; try done; lia.
Qed.
Lemma grows_slot c c' : grows c c' → has_slot c' → has_slot c.
Proof.
  unfold grows, has_slot. intros [H _]. pose proof (subseteq_size _ _ H) as Hs. rewrite !size_dom in Hs. lia.
Qed.

Lemma opener_step_inv single o o' : slots_inv single o → opener_step o o' → slots_inv single o'.
Proof.
  intros Ho Hs. pose proof Ho as [H1 H2 H3 H4]. destruct Hs as [o i c r Hi Hop Hr|o i c Hi Hop|o i Hi Ht|o i Hw Hc|o i Hi Ht Hc|o id rest Hl Hp|o id rest j Hl Hj].
  - destruct (OpenStream_slots _ _ _ Hop) as (F1 & F2 & F3 & F4 & _). apply slots_awake; [|by exists OTry|done|done].
    apply (slots_conn single o c (op_leaving o)); [done|by rewrite F1|by rewrite F2, F3|rewrite F1, F2; intros Hsg Hc Hsl; apply (H4 Hsg Hc (F4 Hsl))].
  - destruct (OpenStream_slots _ _ _ Hop) as (F1 & F2 & F3 & F4 & F5 & _). destruct (F5 eq_refl) as [F6 _]. split.
    + intros (k & [[_ ?]|[_ Hk]]%call_to_at)%parked_at; [done|]. change (cn_streamFreed c = false). rewrite F1. apply H1, parked_at. by exists k.
    + change (cn_closed c = false → cn_nil c = false). by rewrite F2, F3.
    + intros Hsg k l Hk Hl. assert (busy o i) as Hb by by exists OTry. apply (H3 Hsg); [exact (call_to_busy _ i k _ Hk Hb)|exact (call_to_busy _ i l _ Hl Hb)].
    + by intros _ _ ?.
  - apply (slots_taken single o i _ (op_leaving o)); [done|by exists OSelect|done|done].
  - apply slots_awake; [done|by apply waits_busy|done|done].
  - split; [done|done| |].
    + intros Hsg k l Hk Hl. assert (busy o i) as Hb by by exists OSelect. apply (H3 Hsg); [exact (call_to_busy _ i k _ Hk Hb)|exact (call_to_busy _ i l _ Hl Hb)].
    + intros Hsg Hc' Hs' k (q & [[-> _]|[_ Hk]]%call_to_at & Hq)%waits_at; [apply (H4 Hsg Hc' Hs' i); by left|]. apply (H4 Hsg Hc' Hs' k), waits_at. by exists q.
  - apply (slots_conn single o (buried (op_conn o) id) rest); [done|done|done|]. intros. by right.
  - apply (slots_taken single o j _ rest); [done|by exists OParked|done|done].
Qed.

Lemma slots_env_inv single o o' : slots_inv single o → slots_env single o o' → slots_inv single o'.
Proof.
  intros Ho Hs. pose proof Ho as [H1 H2 H3 H4]. destruct Hs as [o Hb|o i e Hw|o id Hid|o c' Hg|o|o Hc].
  - assert (∀ i pc, call_at (o <| op_calls := op_calls o ++ [OTry] |>) i pc → call_at o i pc ∨ pc = OTry) as Hat.
    { intros i pc [H|[_ H]]%lookup_app_Some; [by left|]. right. by apply list_lookup_singleton_Some in H as [_ <-]. }
    split; [| done | |].
    + intros (j & [Hj|?]%Hat)%parked_at; [|done]. apply H1, parked_at. by exists j.
    + intros Hsg i j. specialize (Hb Hsg). assert (∀ k, busy (o <| op_calls := op_calls o ++ [OTry] |>) k → k = length (op_calls o)) as Hlast; [|by intros ->%Hlast ->%Hlast].
      intros k (pc & [H|[Hk H]]%lookup_app_Some & Hpc); [|apply list_lookup_singleton_Some in H as [? _]; lia].
      rewrite Forall_lookup in Hb. destruct (Hb _ _ H) as [r ->]. by destruct (Hpc r).
    + intros Hsg Hc Hsl i (pc & [Hi| ->]%Hat & Hq)%waits_at; [|naive_solver]. apply (H4 Hsg Hc Hsl i), waits_at. by exists pc.
  - apply slots_awake; [done|by apply waits_busy|done|done].
  - apply (slots_conn single o (removeStream_table (op_conn o) id) (op_leaving o ++ [id])); [done|done|done|]. intros _ _ _ i _. left. by intros [_ ?]%app_nil.
  - pose proof Hg as (G1 & G2 & G3 & G4). apply (slots_conn single o c' (op_leaving o)); [done|by rewrite G2|by rewrite G3, G4|].
    rewrite G2, G3. intros Hsg Hc Hsl. apply (H4 Hsg Hc). by eapply grows_slot.
  - by apply (slots_conn single o _ (op_leaving o)).
  - apply (slots_conn single o _ (op_leaving o)); [done|done| |]; cbn; rewrite Hc; done.
Qed.
Lemma opens_inv single o : opens single o → slots_inv single o.
Proof.
  induction 1 as [|o o' _ IH Hs|o o' _ IH Hs]; [|by eapply opener_step_inv|by eapply slots_env_inv].
  split; [by intros ?%elem_of_nil|done|intros _ i j (pc & H & _); discriminate H|intros _ _ _ i [H|H]; discriminate H].
Qed.


(** ** Nobody waits beside a free slot *)
#[local] Abbreviation runs := (rtc opener_step).

Lemma call_to_self o i pc : busy o i → call_at (call_to o i pc) i pc.
Proof. intros (q & H & _). apply list_lookup_insert_eq. by apply lookup_lt_Some in H. Qed.
Lemma try_succeeds o i : call_at o i OTry → has_slot o.(op_conn) → o.(op_conn).(cn_closed) = false → o.(op_conn).(cn_nil) = false →
  ∃ o', runs o o' ∧ call_at o' i (OBack (Ok o.(op_conn).(cn_nextStream))).
Proof.
  intros Hi Hs Hc Hn. destruct (OpenStream E (op_conn o)) as [c r] eqn:Hop.
  destruct (OpenStream_slots _ _ _ Hop) as (_ & _ & _ & _ & _ & Hr). specialize (Hr Hs Hc Hn) as ->.
  eexists. split; [eapply rtc_once, os_opened; [exact Hi|exact Hop|done]|]. apply (call_to_self (o <| op_conn := c |>)). by exists OTry.
Qed.
Lemma token_wakes o i : call_at o i OSelect → o.(op_conn).(cn_streamFreed) = true → has_slot o.(op_conn) → o.(op_conn).(cn_closed) = false →
  o.(op_conn).(cn_nil) = false → ∃ o', runs o o' ∧ call_at o' i (OBack (Ok o.(op_conn).(cn_nextStream))).
Proof.
  intros Hi Ht Hs Hc Hn. set (o1 := call_to (o <| op_conn := o.(op_conn) <| cn_streamFreed := false |> |>) i OTry).
  destruct (try_succeeds o1 i) as (o' & Hr & Ho'); [apply (call_to_self (o <| op_conn := _ |>)); by exists OSelect|done|done|done|].
  exists o'. split; [|done]. eapply rtc_l; [by apply os_token|done].
Qed.
End slots.

(** C35: a call of [OpenStreamSync] is not left behind.  (1) However removals,
    the peer's frames, other operations and closing interleave with it: when
    one call at a time is made, a call in progress on an open connection that
    has a free slot returns a stream, by its own steps and those of removals
    that are under way.  (2) With any number of calls, on a connection that is
    closed every call in progress returns. *)
Theorem open_sync_returns E single o i pc :
  opens E single o → call_at o i pc → (∀ r, pc ≠ OBack r) →
  (single = true → o.(op_conn).(cn_closed) = false → has_slot E o.(op_conn) →
     ∃ o', rtc (opener_step E) o o' ∧ call_at o' i (OBack (Ok o.(op_conn).(cn_nextStream)))) ∧
  (o.(op_conn).(cn_closed) = true → ∃ o', rtc (opener_step E) o o' ∧ call_at o' i (OBack (Err ErrClosed))).
Proof.
  intros Ho Hi Hpc. pose proof (opens_inv E single o Ho) as [H1 H2 H3 H4]. split.
  - intros Hsg Hc Hs. specialize (H2 Hc). destruct pc as [| | |r]; [by apply try_succeeds| | |by destruct (Hpc r)].
    + destruct (cn_streamFreed (op_conn o)) eqn:Ht; [by apply token_wakes|].
      destruct (H4 Hsg Hc Hs i) as [Hl|?]; [by left| |done]. destruct (op_leaving o) as [|id rest] eqn:El; [done|].
      assert (OParked ∉ op_calls o) as Hp. { intros (j & Hj)%parked_at. assert (i = j) as <- by (apply (H3 Hsg); by eexists). unfold call_at in *. congruence. }
      destruct (token_wakes E (o <| op_conn := buried E (op_conn o) id |> <| op_leaving := rest |>) i) as (o' & Hr & Ho'); [done..|].
      exists o'. split; [|done]. eapply rtc_l; [by apply os_signal|done].
    + assert (OParked ∈ op_calls o) as Hp by (apply parked_at; by exists i). destruct (H4 Hsg Hc Hs i) as [Hl|Ht]; [by right| |by rewrite H1 in Ht].
      destruct (op_leaving o) as [|id rest] eqn:El; [done|].
      set (o1 := call_to (o <| op_conn := buried E (op_conn o) id <| cn_streamFreed := false |> |> <| op_leaving := rest |>) i OTry).
      destruct (try_succeeds E o1 i) as (o' & Hr & Ho'); [apply (call_to_self (o <| op_conn := _ |> <| op_leaving := _ |>)); by exists OParked|done|done|done|].
      exists o'. split; [|done]. eapply rtc_l; [by apply os_handoff|done].
  - intros Hc. destruct pc as [| | |r]; [| | |by destruct (Hpc r)].
    + destruct (OpenStream E (op_conn o)) as [c r] eqn:Hop. assert (r = Err ErrClosed) as -> by (unfold OpenStream in Hop; rewrite Hc in Hop; congruence).
      eexists. split; [by eapply rtc_once, os_opened|]. apply (call_to_self (o <| op_conn := c |>)). by exists OTry.
    + eexists. split; [apply rtc_once, os_closed; [by left|done]|]. apply call_to_self. by exists OSelect.
    + eexists. split; [apply rtc_once, os_closed; [by right|done]|]. apply call_to_self. by exists OParked.
Qed.

(** ** Runs *)
Inductive slot_move :=
  | MCall
  | MTry (i : nat)
  | MToken (i : nat)
  | MPark (i : nat)
  | MUnlink (id : Z)
  | MSignal.

Section moves.
Context (E : cenv) (single : bool).

Definition all_back (l : list opener_pc) : bool := forallb (λ pc, match pc with OBack _ => true | _ => false end) l.
Lemma all_back_spec l : all_back l = true → Forall (λ pc, ∃ r, pc = OBack r) l.
Proof. intros H. apply Forall_forall. intros pc Hpc. unfold all_back in H. rewrite forallb_forall in H. specialize (H pc). destruct pc; try (by discriminate H; apply list_elem_of_In); eauto. Qed.

Definition move (o : openers) (m : slot_move) : option openers :=
  match m with
  | MCall => if single && negb (all_back o.(op_calls)) then None else Some (o <| op_calls := o.(op_calls) ++ [OTry] |>)
  | MTry i =>
      if decide (o.(op_calls) !! i = Some OTry) then
        let '(c, r) := OpenStream E o.(op_conn) in
        Some (call_to (o <| op_conn := c |>) i (if decide (r = Err ErrMaxStreams) then OSelect else OBack r))
      else None
  | MToken i =>
      if decide (o.(op_calls) !! i = Some OSelect) then
        if o.(op_conn).(cn_streamFreed) then Some (call_to (o <| op_conn := o.(op_conn) <| cn_streamFreed := false |> |>) i OTry) else None
      else None
  | MPark i =>
      if decide (o.(op_calls) !! i = Some OSelect) then
        if o.(op_conn).(cn_streamFreed) || o.(op_conn).(cn_closed) then None else Some (call_to o i OParked)
      else None
  | MUnlink id =>
      match o.(op_conn).(cn_streams) !! id with
      | Some _ => Some (o <| op_conn := removeStream_table o.(op_conn) id |> <| op_leaving := o.(op_leaving) ++ [id] |>)
      | None => None
      end
  | MSignal =>
      match o.(op_leaving) with
      | id :: rest => if decide (OParked ∈ o.(op_calls)) then None else Some (o <| op_conn := buried E o.(op_conn) id |> <| op_leaving := rest |>)
      | [] => None
      end
  end.
Lemma move_opens o m o' : opens E single o → move o m = Some o' → opens E single o'.
Proof.
  intros Ho. destruct m as [|i|i|i|id|]; cbn [move].
  - destruct (single && negb (all_back (op_calls o))) eqn:Hb; [done|]. intros [= <-]. apply (opens_env E single o); [done|]. apply oe_call. intros Hs.
    rewrite Hs in Hb. apply negb_false_iff in Hb. by apply all_back_spec.
  - case_decide as Hi; [|done]. destruct (OpenStream E (op_conn o)) as [c r] eqn:Hop. intros [= <-]. apply (opens_own E single o); [done|].
    case_decide as Hr; [subst r; by apply os_full|by apply os_opened].
  - case_decide as Hi; [|done]. destruct (cn_streamFreed (op_conn o)) eqn:Ht; [|done]. intros [= <-]. apply (opens_own E single o); [done|by apply os_token].
  - case_decide as Hi; [|done]. destruct (_ || _) eqn:Ht; [done|]. apply orb_false_iff in Ht as [Ht Hc]. intros [= <-].
    apply (opens_own E single o); [done|by apply os_park].
  - destruct (cn_streams (op_conn o) !! id) eqn:Hid; [|done]. intros [= <-]. apply (opens_env E single o); [done|]. apply oe_unlink. by eexists.
  - destruct (op_leaving o) as [|id rest] eqn:Hl; [done|]. case_decide as Hp; [done|]. intros [= <-]. apply (opens_own E single o); [done|by apply os_signal].
Qed.
Definition moves (ms : list slot_move) : option openers := foldl (λ o m, o ← o; move o m) (Some (mkOpeners (newConnection E) [] [])) ms.
Lemma moves_opens ms o : moves ms = Some o → opens E single o.
Proof.
  unfold moves. assert (∀ x, (∀ o, x = Some o → opens E single o) → foldl (λ o m, o ← o; move o m) x ms = Some o → opens E single o) as H.
  { induction ms as [|m ms IH]; intros x Hx; cbn; [by apply Hx|]. apply IH. intros o1. destruct x as [o0|]; [|done]. cbn. apply move_opens. by apply Hx. }
  apply H. intros o1 [= <-]. apply opens_new.
Qed.
Definition moves_check (ms : list slot_move) (P : openers → bool) : bool := match moves ms with Some o => P o | None => false end.
Lemma moves_check_spec ms P : moves_check ms P = true → ∃ o, opens E single o ∧ P o = true.
Proof. unfold moves_check. destruct (moves ms) as [o|] eqn:H; [|done]. intros HP. exists o. split; [by eapply moves_opens|done]. Qed.
End moves.

(** A connection with room for two streams: calls 0 and 1 open them, calls 2
    and 3 find it full.  Before these reach their [select], both streams are
    removed: the second removal finds the token of the first in the channel
    and leaves no other.  Call 2 takes it. *)
Definition two_streams : cenv := example_env (WithMaxStreams 2 (WithBatchSize 2 (WithMaxDatagramSize 140 defaultConfig))) true.
Definition race_moves : list slot_move :=
  [ MCall; MTry 0; MCall; MTry 1; MCall; MTry 2; MCall; MTry 3; MUnlink 1; MSignal; MUnlink 3; MSignal; MToken 2; MTry 2; MPark 3 ].

(** With two calls at a time, [OpenStreamSync] can sleep beside a free slot:
    nothing that is under way wakes it, although the connection has room for
    another stream. *)
Theorem open_sync_stranded : ∃ o, opens two_streams false o ∧ call_at o 3 OParked ∧ has_slot two_streams o.(op_conn) ∧
  o.(op_conn).(cn_closed) = false ∧ ∀ o', ¬ opener_step two_streams o o'.
Proof.
  destruct (moves_check_spec two_streams false race_moves (λ o,
    bool_decide (o.(op_calls) = [OBack (Ok 1); OBack (Ok 3); OBack (Ok 5); OParked]) && bool_decide (o.(op_leaving) = []) && bool_decide (size o.(op_conn).(cn_streams) = 1%nat) &&
    negb o.(op_conn).(cn_closed))) as (o & Ho & HP); [vm_compute; reflexivity|].
  rewrite !andb_true_iff in HP. destruct HP as (((H1%bool_decide_eq_true & H2%bool_decide_eq_true) & H3%bool_decide_eq_true) & H4%negb_true_iff).
  exists o. split_and!; [done|unfold call_at; by rewrite H1|unfold has_slot; by rewrite H3|done|].
  assert (∀ i pc, call_at o i pc → pc = OParked ∨ ∃ r, pc = OBack r) as Hpc.
  { unfold call_at. rewrite H1. intros [|[|[|[|i]]]] pc [= <-]; eauto. }
  intros o' Hs. destruct Hs as [o i c r Hi _ _|o i c Hi _|o i Hi _|o i _ Hc|o i Hi _ _|o id rest Hl _|o id rest j Hl _]; try congruence; destruct (Hpc i _ Hi) as [?|[? ?]]; done.
Qed.

(** One call that found the connection full, while a removal is under way: it
    gets the place. *)
Definition lone_moves : list slot_move := [ MCall; MTry 0; MCall; MTry 1; MCall; MTry 2; MPark 2; MUnlink 1 ].
Lemma open_sync_returns_witness : ∃ o o', opens two_streams true o ∧ call_at o 2 OParked ∧ rtc (opener_step two_streams) o o' ∧ call_at o' 2 (OBack (Ok 5)).
Proof.
  destruct (moves_check_spec two_streams true lone_moves (λ o,
    bool_decide (o.(op_calls) = [OBack (Ok 1); OBack (Ok 3); OParked]) && bool_decide (size o.(op_conn).(cn_streams) = 1%nat) &&
    negb o.(op_conn).(cn_closed) && bool_decide (o.(op_conn).(cn_nextStream) = 5))) as (o & Ho & HP); [vm_compute; reflexivity|].
  rewrite !andb_true_iff in HP. destruct HP as (((H1%bool_decide_eq_true & H2%bool_decide_eq_true) & H3%negb_true_iff) & H4%bool_decide_eq_true).
  assert (call_at o 2 OParked) as Hi by (unfold call_at; rewrite H1; reflexivity).
  destruct (open_sync_returns two_streams true o 2 OParked Ho Hi) as [H _]; [discriminate|].
  destruct (H eq_refl H3) as (o' & Hr & Ho'); [unfold has_slot; rewrite H2; reflexivity|]. rewrite H4 in Ho'. exists o, o'. exact (conj Ho (conj Hi (conj Hr Ho'))).
Defined.
