(* ===== verification/Termination.v ===== *)
(** * Input handling ends

    A peer can put any bytes in a datagram.  Whatever they are, and whatever
    state they find, handling them comes to an end: the recursion of FEC
    reconstruction through delivery, the parse loop over coalesced frames,
    and the acknowledgement and resend loops. *)
From S2P Require Import Prelude Errors Frame Float64 Pacer Options Ring Retransmit StreamRecv RecvLemmas StreamSend Estimator SendBatch Connection ConnLemmas.

(** ** Delivery *)

(** the buffered parities, and whether the end of the stream is known *)
Definition parities (s : rside) : gmap Z fecPendingParity * gmap Z fecPendingParity * bool := (s.(fecPending), s.(fecPendingRow), s.(finRecvd)).
Definition n_parities (s : rside) : nat := size s.(fecPending) + size s.(fecPendingRow).
(** a [Read] has nothing to return *)
Definition idle (s : rside) : Prop := s.(rg).(readLen) = 0 ∧ s.(readErr) = None.

(** the ring stays well formed, and nothing a waiting [Read] looks at changes
    without a broadcast *)
Definition stirs (s s' : rside) : Prop := ring_wf s.(rg) →
  ring_wf s'.(rg) ∧ (s.(readCond) ≤ s'.(readCond))%nat ∧
  (s'.(readCond) = s.(readCond) → idle s → idle s' ∧ s'.(readDeadline) = s.(readDeadline)).
#[export] Instance stirs_preorder : PreOrder stirs.
Proof.
  split; [done|]. intros s1 s2 s3 H12 H23 Hw. destruct (H12 Hw) as (W2 & L2 & K2). destruct (H23 W2) as (W3 & L3 & K3).
  split_and!; [done|lia|]. intros Hc Hi. destruct K2 as [I2 D2]; [lia|done|]. destruct K3 as [I3 D3]; [lia|done|]. split; [done|congruence].
Qed.
(** with a broadcast, anything *)
Lemma stirs_wake s s' : (ring_wf s.(rg) → ring_wf s'.(rg) ∧ (s.(readCond) ≤ s'.(readCond))%nat) → stirs s (wakeReaders s').
Proof. intros H Hw. destruct (H Hw). split_and!; [done|cbn; lia|cbn; lia]. Qed.
Lemma stirs_more s s' : stirs s s' → stirs s (wakeReaders s').
Proof. intros H. apply stirs_wake. intros Hw. by destruct (H Hw) as (? & ? & _). Qed.

(** none of the business of buffers, grants and loss detection *)
Definition aside (s : rside) := (parities s, (s.(rg), s.(readErr), s.(readDeadline), s.(readCond))).

Section deliver.
Context (E : renv).
Implicit Types s : rside.

Lemma aside_grant s d : aside (grantLocked s d) = aside s.
Proof. unfold grantLocked. by case_bool_decide. Qed.
Lemma aside_put s b : aside (reorderPutLocked E s b) = aside s.
Proof. unfold reorderPutLocked. by case_bool_decide. Qed.
Lemma aside_get s n : aside (reorderGetLocked E s n).1 = aside s.
Proof. unfold reorderGetLocked. case_bool_decide; [by destruct (reverse (reorderPool s))|done]. Qed.
Lemma aside_foldAcc s accs base idx data : aside (fecFoldAccLocked E s accs base idx data).1 = aside s.
Proof.
  unfold fecFoldAccLocked. destruct (accs !! base); [by destruct (_ || _)|].
  pose proof (aside_get s (dataCap (cfg E))) as Hg. by destruct (reorderGetLocked E s (dataCap (cfg E))).
Qed.
Lemma aside_sweepLoop order s accs last : aside (fecSweepLoop E s accs last order).1 = aside s.
Proof.
  revert s accs. induction order as [|[b a] order IH]; intros s accs; cbn [fecSweepLoop]; [done|].
  case_bool_decide; [|apply IH]. by rewrite IH, aside_put.
Qed.
Lemma aside_sweep s : aside (fecSweepLocked E s) = aside s.
Proof.
  unfold fecSweepLocked.
  assert (∀ s accs last order (k : rside → gmap Z fecAccum → rside), (∀ s a, aside (k s a) = aside s) →
    aside (let '(s', a) := fecSweepLoop E s accs last order in k s' a) = aside s) as Hk.
  { intros s0 accs last order k Hk. pose proof (aside_sweepLoop order s0 accs last) as Hp.
    destruct (fecSweepLoop E s0 accs last order). by rewrite Hk. }
  set (s1 := if bool_decide (_ < Z.of_nat (size (fecAcc s))) then _ else s).
  assert (aside s1 = aside s) as Hs1.
  { unfold s1. case_bool_decide; [|done]. by apply (Hk _ _ _ _ (λ s' a, s' <| fecAcc := a |>)). }
  case_bool_decide; [|done]. rewrite <- Hs1. by apply (Hk _ _ _ _ (λ s' a, s' <| fecAccRow := a |>)).
Qed.
Lemma aside_foldRecv s seq data : aside (fecFoldRecvLocked E s seq data) = aside s.
Proof.
  unfold fecFoldRecvLocked. case_bool_decide; [done|]. destruct (fecGroupOf E seq) as [base idx].
  pose proof (aside_foldAcc s (fecAcc s) base idx data) as H1.
  destruct (fecFoldAccLocked E s (fecAcc s) base idx data) as [s1 a1]. cbn in H1.
  destruct (fec2D (cfg E)); [|by rewrite aside_sweep]. destruct (fecRowOf E seq) as [rb ri].
  match goal with |- context [fecFoldAccLocked E ?s ?a rb ri data] =>
    pose proof (aside_foldAcc s a rb ri data) as H2; destruct (fecFoldAccLocked E s a rb ri data) as [s2 a2] end.
  cbn in H2. rewrite aside_sweep. change (aside s2 = aside s). by rewrite H2.
Qed.
Lemma aside_fire s : aside (fireNackLocked s) = aside s.
Proof. unfold fireNackLocked. by case_bool_decide. Qed.
Lemma aside_fast s : aside (maybeFastRetransmitLocked E s) = aside s.
Proof.
  unfold maybeFastRetransmitLocked, time_Now, read_grace. cbn [fst snd].
  destruct (negb _); [done|]. destruct (_ || _); [done|]. by rewrite aside_fire.
Qed.
Lemma aside_tail s now : aside (maybeTailNack E s now) = aside s.
Proof.
  unfold maybeTailNack, read_grace. destruct (_ || _); [done|]. destruct (_ || _); [done|]. cbn [fst snd].
  destruct (_ || _); [done|]. by rewrite aside_fire.
Qed.

(** ** The recursion ends *)

(** no more parities than before, no word of the end but from a FIN, and
    nothing behind the back of a waiting [Read] *)
Definition settles (fin : bool) s s' : Prop :=
  (n_parities s' ≤ n_parities s)%nat ∧ stirs s s' ∧ (fin = false → s'.(finRecvd) = s.(finRecvd)).
Lemma settles_trans fin s1 s2 s3 : settles fin s1 s2 → settles fin s2 s3 → settles fin s1 s3.
Proof. intros (H1 & H2 & H3) (H4 & H5 & H6). split_and!; [lia|by etrans|]. intros Hf. by rewrite H6, H3. Qed.
Lemma settles_any fin s s' : settles false s s' → settles fin s s'.
Proof. intros (H1 & H2 & H3). split_and!; [done|done|]. intros _. by apply H3. Qed.
Lemma settles_aside fin s s' : aside s' = aside s → settles fin s s'.
Proof.
  intros [= H1 H2 H3 H4 H5 H6 H7]. split_and!; [unfold n_parities; rewrite H1, H2; lia| |done].
  intros Hw. unfold idle. rewrite H4, H5, H7. done.
Qed.
Lemma settles_put fin s s' b : settles fin s s' → settles fin s (reorderPutLocked E s' b).
Proof. intros H. eapply settles_trans; [exact H|]. apply settles_aside, aside_put. Qed.
Lemma settles_eof fin s s' : settles fin s s' → settles fin s (maybeEOFLocked s').
Proof.
  intros (H1 & H2 & H3). unfold maybeEOFLocked. destruct (_ && _); [|done]. split_and!; [done| |done].
  apply stirs_wake. intros Hw. by destruct (H2 Hw) as (? & ? & _).
Qed.

(** making room: what is in the ring stays *)
Definition books (s : rside) := (parities s, s.(readCond)).
Lemma aside_parities s s' : aside s' = aside s → parities s' = parities s.
Proof. by intros [=]; unfold parities; congruence. Qed.
Lemma books_grow s n : books (growLocked E s n).1 = books s.
Proof.
  unfold growLocked. destruct (_ || _); [done|]. cbn [fst]. unfold books. rewrite (aside_parities _ _ (aside_grant _ _)).
  f_equal. unfold grantLocked. by case_test.
Qed.
Lemma parities_maybeGrow s : parities (maybeGrowLocked E s) = parities s.
Proof.
  unfold maybeGrowLocked. case_bool_decide; [done|]. unfold time_Now, read_RTO. cbn [fst snd].
  destruct (bool_decide (time_Sub _ _ < rampWindow)); destruct (_ && _); try done; by rewrite (aside_parities _ _ (aside_grant _ _)).
Qed.
Lemma settles_stirs fin s s' : parities s' = parities s → stirs s s' → settles fin s s'.
Proof. intros [= H1 H2 H3] H. split_and!; [unfold n_parities; rewrite H1, H2; lia|done|done]. Qed.
Lemma empty_contents r r' : ring_wf r → ring_wf r' → contents r' = contents r → r.(readLen) = 0 → r'.(readLen) = 0.
Proof. intros H1 H2 Hc Hz. by rewrite <- (Zlen_contents r' H2), Hc, (Zlen_contents r H1). Qed.
Lemma settles_maybeGrow fin s : settles fin s (maybeGrowLocked E s).
Proof.
  apply settles_stirs; [apply parities_maybeGrow|]. intros Hw.
  destruct (maybeGrowLocked_spec E s Hw) as (r & cs & tk & lg & -> & W & C & _). split_and!; [done|done|]. intros _ [H1 H2].
  split; [|done]. split; [|done]. exact (empty_contents (rg s) r Hw W C H1).
Qed.
Lemma settles_room fin s n s1 ok : (if ringFitsLocked s.(rg) n then (s, true) else growLocked E s n) = (s1, ok) →
  settles fin s s1 ∧ books s1 = books s ∧ (ring_wf s.(rg) → ok = true → ring_wf s1.(rg) ∧ ringFitsLocked s1.(rg) n = true).
Proof.
  destruct (ringFitsLocked (rg s) n) eqn:Hfit; [intros [= <- <-]; split; [by apply settles_aside|done]|]. intros Hg.
  assert (ring_wf (rg s) → 0 ≤ n) as Hn.
  { intros Hw. unfold ringFitsLocked in Hfit. apply bool_decide_eq_false in Hfit. pose proof (rw_len _ Hw). unfold ringCap in *. lia. }
  pose proof (books_grow s n) as Hp. rewrite Hg in Hp. cbn [fst] in Hp. split_and!; [|done|].
  - apply settles_stirs; [exact (f_equal fst Hp)|]. intros Hw. destruct (growLocked_spec E s n s1 ok Hw (Hn Hw) Hg) as (r & cs & -> & W & C & L & _).
    split_and!; [done|done|]. intros _ [H1 H2]. split; [|done]. split; [|done]. exact (eq_trans L H1).
  - intros Hw Hok. destruct (growLocked_spec E s n s1 ok Hw (Hn Hw) Hg) as (r & cs & -> & W & _ & _ & _ & _ & F). by split; [|apply F].
Qed.

(** before the broadcast that follows, only the count of broadcasts counts *)
Lemma settles_from fin s s1 s2 : (ring_wf s.(rg) → ring_wf s1.(rg)) → books s1 = books s → settles fin s1 s2 → settles fin s (wakeReaders s2).
Proof.
  intros Hr [= B1 B2 B3 B4] (H1 & H2 & H3). split_and!; [unfold n_parities in *; cbn; rewrite <- B1, <- B2; exact H1| |].
  - apply stirs_wake. intros Hw. destruct (H2 (Hr Hw)) as (W & L & _). split; [done|lia].
  - intros Hf. cbn. rewrite <- B3. by apply H3.
Qed.
Lemma aside_books s s' : aside s' = aside s → books s' = books s ∧ s'.(rg) = s.(rg).
Proof. intros [=]. unfold books, parities. split; congruence. Qed.
Lemma fold_aside s seq data : aside (if bool_decide (0 < fecGroup (cfg E)) then fecFoldRecvLocked E s seq data else s) = aside s.
Proof. case_bool_decide; [|done]. apply aside_foldRecv. Qed.
(** a frame that fits keeps the ring well formed *)
Lemma ringWrite_wf r data n : ring_wf r → Zlen data ≤ Z.max 0 n → ringFitsLocked r n = true → ring_wf (ringWrite r data).
Proof.
  intros Hw Hl Hf. apply ringWrite_spec; [done|]. unfold ringFitsLocked in *. apply bool_decide_eq_true in Hf. apply bool_decide_eq_true.
  pose proof (rw_len _ Hw). unfold ringCap in *. lia.
Qed.
Lemma Zlen_bytes_max b : Zlen (bytes b) ≤ Z.max 0 b.(b_len).
Proof. unfold bytes, slice, Zlen. rewrite length_take. lia. Qed.

Lemma settles_drainLoop fuel s fin : settles fin s (drainReorderLoop E fuel s).
Proof.
  revert s. induction fuel as [|fuel IH]; intros s; cbn [drainReorderLoop]; [by apply settles_aside|].
  destruct (reorder s !! readSeq s) as [data|]; [|by apply settles_aside].
  destruct (if ringFitsLocked (rg s) _ then _ else _) as [s1 ok] eqn:Hroom.
  destruct (settles_room fin s (b_len data) s1 ok Hroom) as (Hr & Hb & Hfit). destruct ok; cbn [negb]; [|exact Hr].
  eapply settles_trans; [|apply IH].
  match goal with |- settles _ _ (wakeReaders (reorderPutLocked E (if _ then fecFoldRecvLocked E ?x _ _ else _) _ <| readSeq := _ |>)) => set (s2 := x) end.
  destruct (aside_books _ _ (fold_aside s2 (readSeq s2) (bytes data))) as [F1 F2].
  set (s3 := if bool_decide _ then _ else s2) in *. clearbody s3. destruct (aside_books _ _ (aside_put s3 data)) as [P1 P2].
  apply (settles_from fin s (reorderPutLocked E s3 data <| readSeq := u32 (readSeq (reorderPutLocked E s3 data) + 1) |>)); [| |by apply settles_aside].
  - intros Hw. cbn. rewrite P2, F2. destruct (Hfit Hw eq_refl) as [W1 W2]. eapply ringWrite_wf; [done|apply Zlen_bytes_max|done].
  - change (books (reorderPutLocked E s3 data) = books s). rewrite P1, F1. exact Hb.
Qed.

Section rec.
Context (rec : rside → Z → list Z → bool → option (rside * bool)) (n : nat).
Context (Hrec : ∀ s seq p fin, (n_parities s < n)%nat → ∃ s' ok, rec s seq p fin = Some (s', ok) ∧ settles fin s s').

Lemma tryReconstruct_ends s row base count xorLen xorData : (n_parities s < n)%nat →
  ∃ s' o, tryReconstruct E rec s row base count xorLen xorData = Some (s', o) ∧ settles false s s' ∧ (o = fecPendingMembers → s' = s).
Proof using Hrec.
  intros Hn. assert (settles false s s) as Hs by (by apply settles_aside). unfold tryReconstruct. set (stride := if row then 1 else _). set (accs := if row then _ else _).
  case_bool_decide; [by eauto 10|].
  destruct (match accs !! base with Some acc => _ | None => _ end); [by eauto 10|].
  destruct (scanMembers _ _ _ _ _ _) as [o|missing]; [by eauto 10|]. case_bool_decide; [by eauto 10|].
  pose proof (aside_get s (Zlen xorData)) as Hg. destruct (reorderGetLocked E s (Zlen xorData)) as [s1 buf]. cbn [fst] in Hg.
  destruct (match accs !! base with Some acc => _ | None => (buf_copy buf xorData, u32 xorLen) end) as [buf1 len1].
  apply (settles_aside false) in Hg as Hs1.
  destruct (xorMembers _ _ _ _ _ _ _ _) as [[buf2 len2]|].
  2:{ eexists _, _. split; [done|]. split; [by apply settles_put|done]. }
  destruct (_ || _).
  { eexists _, _. split; [done|]. split; [by apply settles_put|done]. }
  destruct (Hrec s1 (u32 (base + missing * stride)) (slice (b_full buf2) 0 len2) false) as (s2 & ok & -> & H2); [destruct Hs1; lia|].
  cbn [mbind option_bind]. eexists _, _. split; [done|]. split; [|done]. apply settles_put. by eapply settles_trans.
Qed.

Lemma get_set_pending row m s : get_pending row (set_pending row m s) = m.
Proof. by destruct row. Qed.
Lemma n_parities_set row m s : (n_parities (set_pending row m s) + size (get_pending row s) = n_parities s + size m)%nat.
Proof. unfold n_parities. destruct row; cbn; lia. Qed.
Lemma settles_set row m s : (n_parities (set_pending row m s) ≤ n_parities s)%nat → settles false s (set_pending row m s).
Proof. intros H. split_and!; [done|by destruct row|by destruct row]. Qed.

Lemma fecRetryBase_ends s row base : (n_parities s ≤ n)%nat →
  ∃ s', fecRetryBase E rec s row base = Some s' ∧ settles false s s'.
Proof using Hrec.
  intros Hn. unfold fecRetryBase. destruct (get_pending row s !! base) as [p|] eqn:Hp; [|by eexists; split; [|apply settles_aside]].
  set (s1 := set_pending row (delete base (get_pending row s)) s).
  assert (n_parities s1 + 1 = n_parities s)%nat as Hs1.
  { pose proof (n_parities_set row (delete base (get_pending row s)) s) as Hset. fold s1 in Hset.
    assert (size (get_pending row s) ≠ 0%nat) by (apply map_size_ne_0_lookup_2 with base; by eexists).
    rewrite map_size_delete_Some in Hset by (by eexists). lia. }
  assert (settles false s s1) as Hse by (apply settles_set; fold s1; lia).
  destruct (tryReconstruct_ends s1 row base (fp_count p) (fp_xorLen p) (bytes (fp_data p))) as (s2 & o & -> & Hle & Hsame); [lia|].
  cbn [mbind option_bind]. eexists. split; [done|]. destruct o.
  - apply settles_put. by eapply settles_trans.
  - apply settles_put. by eapply settles_trans.
  - rewrite (Hsame eq_refl). pose proof (n_parities_set row (<[base:=p]> (get_pending row s1)) s1) as Hset.
    assert (get_pending row s1 = delete base (get_pending row s)) as Hg by apply get_set_pending.
    rewrite Hg, map_size_insert_None in Hset by apply lookup_delete_eq. rewrite Hg. destruct Hse as (_ & H2 & H3).
    split_and!; [lia|etrans; [exact H2|by destruct row]|]. intros Hf. rewrite <- (H3 Hf). by destruct row.
Qed.

Lemma fecRetrySeq_ends s seq : (n_parities s ≤ n)%nat →
  ∃ s', fecRetrySeq E rec s seq = Some s' ∧ settles false s s'.
Proof using Hrec.
  intros Hn. unfold fecRetrySeq. destruct (fecGroupOf E seq) as [base idx].
  destruct (fecRetryBase_ends s false base Hn) as (s1 & -> & H1). cbn [mbind option_bind].
  destruct (fec2D (cfg E)); [|by eexists]. destruct (fecRowOf E seq) as [rb ri].
  destruct (fecRetryBase_ends s1 true rb ltac:(destruct H1; lia)) as (s2 & -> & H2). exists s2. split; [done|by eapply settles_trans].
Qed.

Lemma deliverBody_ends s seq payload isFin : (n_parities s ≤ n)%nat →
  ∃ s' ok, deliverBody E rec s seq payload isFin = Some (s', ok) ∧ settles isFin s s'.
Proof using Hrec.
  intros Hn. unfold deliverBody.
  set (s0 := if _ || finRecvd s then _ else s).
  assert (aside s0 = aside s) as H0 by (unfold s0; by destruct (_ || finRecvd s)). clearbody s0.
  assert (∀ s' (b : bool), aside s' = aside s0 → ∃ s1 ok, Some (s', b) = Some (s1, ok) ∧ settles isFin s s1) as Hsame.
  { intros s' b Hp. eexists _, _. split; [done|]. apply settles_aside. congruence. }
  assert (∀ s' (b : bool), settles isFin s s' → ∃ s1 ok,
    (if bool_decide (0 < fecGroup (cfg E)) then s ← fecRetrySeq E rec s' seq; Some (s, b) else Some (s', b)) = Some (s1, ok) ∧ settles isFin s s1) as Hretry.
  { intros s' b Hp. destruct (bool_decide _); [|by eauto].
    destruct (fecRetrySeq_ends s' seq ltac:(destruct Hp; lia)) as (s1 & -> & H1). cbn [mbind option_bind].
    eexists _, _. split; [done|]. eapply settles_trans; [exact Hp|by apply settles_any]. }
  destruct (_ || _). { apply Hsame. repeat case_test; try done; exact (aside_grant s0 (Zlen payload)). }
  destruct isFin.
  { case_test; [by apply Hsame|]. eexists _, _. split; [done|]. apply settles_eof.
    destruct (settles_aside true s s0 H0) as (H1 & H2 & _). by split_and!. }
  set (s1 := if bool_decide (maxSeenSeq s0 < seq) then _ else s0).
  assert (aside s1 = aside s0) as H1 by (unfold s1; by case_test). clearbody s1.
  case_test; [by apply Hsame|]. case_test; [by apply Hsame|]. case_test.
  - case_test; [by apply Hsame|].
    pose proof (aside_get s1 (Zlen payload)) as Hg. destruct (reorderGetLocked E s1 (Zlen payload)) as [s2 cp].
    apply Hretry, settles_aside. rewrite aside_fast. cbn [fst] in Hg. rewrite <- H0, <- H1, <- Hg. done.
  - destruct (if ringFitsLocked (rg s1) _ then _ else _) as [s2 ok] eqn:Hroom. destruct (settles_room false s1 (Zlen payload) s2 ok Hroom) as (Hr & Hb & Hfit).
    assert (settles false s s1) as Hs1 by (apply settles_aside; congruence).
    destruct ok; cbn [negb]; [|eexists _, _; split; [done|by eapply settles_trans]]. apply Hretry. eapply settles_trans; [exact Hs1|].
    match goal with |- settles _ _ (wakeReaders (maybeEOFLocked (maybeGrowLocked E (drainReorderLocked E ?x)))) => set (s3 := x) end.
    destruct (aside_books _ _ (fold_aside s2 seq payload)) as [F1 F2]. apply (settles_from false s1 s3).
    { intros Hw. unfold s3. cbn. rewrite F2. destruct (Hfit Hw eq_refl). eapply (ringWrite_wf _ _ (Zlen payload)); [done|lia|done]. }
    { unfold s3. match goal with |- books (?x <| rg := _ |> <| readSeq := _ |>) = _ => change (books x = books s1) end. by rewrite F1. }
    apply settles_eof. eapply settles_trans; [apply settles_drainLoop|apply settles_maybeGrow].
Qed.
End rec.

Lemma deliverLocked_ends fuel s seq payload isFin : (n_parities s < fuel)%nat →
  ∃ s' ok, deliverLocked E fuel s seq payload isFin = Some (s', ok) ∧ settles isFin s s'.
Proof.
  revert s seq payload isFin. induction fuel as [|fuel IH]; intros s seq payload isFin Hn; [lia|].
  cbn [deliverLocked]. unfold deliverStep.
  destruct (deliverBody_ends (deliverLocked E fuel) fuel IH s seq payload isFin ltac:(lia)) as (s1 & ok & -> & H1).
  cbn [mbind option_bind]. eexists _, _. split; [done|]. destruct (_ && _); exact H1.
Qed.

Lemma deliver_total s seq payload isFin : ∃ s' ok, deliver E s seq payload isFin = Some (s', ok).
Proof.
  destruct (deliverLocked_ends (fec_fuel s) s seq payload isFin) as (s' & ok & H & _); [unfold n_parities, fec_fuel; lia|].
  by eauto.
Qed.
Lemma deliver_settles s seq payload isFin s' ok : deliver E s seq payload isFin = Some (s', ok) → settles isFin s s'.
Proof.
  intros H. destruct (deliverLocked_ends (fec_fuel s) s seq payload isFin) as (s1 & ok1 & H1 & H2); [unfold n_parities, fec_fuel; lia|].
  unfold deliver in H. rewrite H in H1. by injection H1 as <- <-.
Qed.
(** only a FIN tells of the end *)
Lemma deliver_fin s seq payload s' ok : deliver E s seq payload false = Some (s', ok) → s'.(finRecvd) = s.(finRecvd).
Proof. intros (_ & _ & H)%deliver_settles. by apply H. Qed.
Lemma deliver_stirs s seq payload isFin s' ok : deliver E s seq payload isFin = Some (s', ok) → stirs s s'.
Proof. by intros (_ & H & _)%deliver_settles. Qed.

Lemma applyFec_total s row base count xorLen xorData :
  ∃ s' r, applyFec E s row base count xorLen xorData = Some (s', r) ∧ s'.(finRecvd) = s.(finRecvd) ∧ stirs s s'.
Proof.
  unfold applyFec. destruct (_ || _); [by exists s, false|]. case_match; [by exists s, false|]. unfold tryReconstructLocked.
  destruct (tryReconstruct_ends (deliverLocked E (fec_fuel s)) (fec_fuel s) (deliverLocked_ends (fec_fuel s)) s row base count xorLen xorData)
    as (s1 & o & -> & (_ & Hst & Hs) & _); [unfold n_parities, fec_fuel; lia|]. specialize (Hs eq_refl).
  cbn [mbind option_bind]. destruct o; [by eauto 10..|].
  match goal with |- context [let '(s, pending) := ?x in _] => assert (aside x.1 = aside s1) as Hx; [|destruct x as [s2 pending]] end.
  { destruct (_ !! base); [apply aside_put|]. case_test; [|done]. cbn [fst]. destruct (_ !! _); [apply aside_put|done]. }
  pose proof (aside_get s2 (Zlen xorData)) as Hg. destruct (reorderGetLocked E s2 (Zlen xorData)) as [s3 cp]. cbn [fst] in Hx, Hg.
  rewrite Hx in Hg. destruct (settles_aside false s1 s3 Hg) as (_ & Hst3 & H3). specialize (H3 eq_refl).
  eexists _, _. split; [done|]. split; [rewrite <- Hs, <- H3; by destruct row|]. etrans; [exact Hst|]. etrans; [exact Hst3|]. by destruct row.
Qed.
End deliver.

(** ** The connection *)
Section conn.
Context (E : cenv).
Implicit Types (c : Connection).

Lemma handleArrival_total c f payload isFin : ∃ c', handleArrival E c f payload isFin = Some c'.
Proof.
  unfold handleArrival. destruct (streamForFrame E c (f_streamID f)) as [c1 [s|d]]; [|by eauto].
  destruct (on_read_total E c1 (f_streamID f) s (λ e r, deliver e r (f_seq f) payload isFin)) as (c2 & a & ->);
    [intros; apply deliver_total|]. cbn [mbind option_bind]. by eauto.
Qed.
Lemma handleFec_total c f row : ∃ c', handleFec E c f row = Some c'.
Proof.
  unfold handleFec. destruct (_ || _); [by eauto|]. destruct (_ || _); [by eauto|].
  destruct (cn_streams c !! _) as [s|]; [|by eauto].
  match goal with |- context [on_read E c ?i s ?op] => destruct (on_read_total E c i s op) as (c2 & a & ->) end;
    [intros e r; edestruct applyFec_total as (? & ? & H & _ & _); eexists _, _; exact H|]. cbn [mbind option_bind]. by eauto.
Qed.

Lemma dispatchFrameLocked_total c f : ∃ c', dispatchFrameLocked E c f = Some c'.
Proof.
  unfold dispatchFrameLocked, handleData, handleStreamFIN, handleStreamReset, handleStopSending, handleWindowUpdate, handleACK, on_write.
  repeat case_test; try (by eauto); try apply handleArrival_total; try apply handleFec_total;
    repeat match goal with
    | |- context [match ?x with _ => _ end] =>
        lazymatch x with on_read _ _ _ _ _ => fail | context [match _ with _ => _ end] => fail | _ => destruct x end
    end; try (by eauto); try apply handleFec_total.
  cbn [mbind option_bind]. destruct (onStopSending _ _ _ _). by eauto.
Qed.

Lemma parseLoop_total fuel c buf : Forall is_u8 buf → (length buf < fuel)%nat → ∃ c', parseLoop E fuel c buf = Some c'.
Proof.
  revert c buf. induction fuel as [|fuel IH]; intros c buf Hb Hf; [lia|]. cbn [parseLoop].
  case_test; [|by eauto]. destruct (decodeFrame buf) as [f|e] eqn:Hd; [|by eauto].
  destruct (dispatchFrameLocked_total c f) as [c1 ->]. cbn [mbind option_bind].
  pose proof (decodeFrame_length buf f Hb Hd). apply IH; [unfold slice; by apply Forall_take, Forall_drop|].
  unfold slice. rewrite length_take, length_drop. unfold frameHeaderSize, Zlen in *. lia.
Qed.
Lemma handleDatagramLocked_total c buf : Forall is_u8 buf → ∃ c', handleDatagramLocked E c buf = Some c'.
Proof. intros Hb. unfold handleDatagramLocked. destruct (cn_closed c); [by eauto|]. apply parseLoop_total; [done|lia]. Qed.

Lemma readMessages_total c msgs : Forall (Forall is_u8) msgs → ∃ c', readMessages E c msgs = Some c'.
Proof.
  intros Hb. revert c. induction Hb as [|m msgs Hm _ IH]; intros c; cbn [readMessages]; [by eauto|]. case_test; [done|].
  destruct (handleDatagramLocked_total c m Hm) as [c1 ->]. cbn [mbind option_bind]. done.
Qed.

Lemma ackSnapLoop_total fuel c sid cum maxAcks rest : 0 < maxAcks → (length rest < fuel)%nat →
  ∃ c', ackSnapLoop E fuel c sid cum maxAcks rest = Some c'.
Proof.
  intros Hm. revert c rest. induction fuel as [|fuel IH]; intros c rest Hf; [lia|]. cbn [ackSnapLoop].
  set (n := if bool_decide (maxAcks < Zlen rest) then maxAcks else Zlen rest). case_test; [by eauto|]. apply IH.
  unfold n, slice in *. rewrite length_take, length_drop. unfold Zlen in *. case_bool_decide; [lia|].
  exfalso. apply n0. rewrite drop_ge by lia. by destruct (Z.to_nat _).
Qed.
Lemma ackListLoop_total fuel c sid maxAcks rest : 0 < maxAcks → (length rest ≤ fuel)%nat →
  ∃ c', ackListLoop E fuel c sid maxAcks rest = Some c'.
Proof.
  intros Hm. revert c rest. induction fuel as [|fuel IH]; intros c rest Hf; cbn [ackListLoop].
  { rewrite bool_decide_false by (unfold Zlen; lia). by eauto. }
  case_test; [|by eauto]. apply IH. set (n := if bool_decide (maxAcks < Zlen rest) then maxAcks else Zlen rest).
  assert (0 < n) by (unfold n; case_bool_decide; lia). unfold slice. rewrite length_take, length_drop. unfold Zlen in *. lia.
Qed.

Lemma foldl_total {A B} (g : option A → B → option A) (l : list B) a :
  (∀ a b, ∃ a', g (Some a) b = Some a') → ∃ a', foldl g (Some a) l = Some a'.
Proof. intros Hg. revert a. induction l as [|b l IH]; intros a; [by eauto|]. cbn [foldl]. destruct (Hg a b) as [a' ->]. apply IH. Qed.

Lemma flushPendingAcksLocked_total c : ∃ c', flushPendingAcksLocked E c = Some c'.
Proof.
  unfold flushPendingAcksLocked. set (m := maxAckSeqsPerFrame _). destruct (bool_decide_reflect (m ≤ 0)) as [Hm|Hm]; [by eauto|].
  destruct (foldl_total (ackDirtyStep E m) (ce_range_ids E (cn_sAckDirty c)) (c, false)) as [[c1 q1] ->].
  { intros [c1 q1] sid. unfold ackDirtyStep. cbn [mbind option_bind]. destruct (cn_streams c1 !! sid) as [s|]; [|by eauto].
    destruct (on_read_total E c1 sid s (λ _ r, Some (ackSnapshot r))) as (c2 & [[cum seqs] granted] & ->).
    { intros e r. destruct (ackSnapshot r) as [r' x]. by eauto. }
    cbn [mbind option_bind]. destruct (ackSnapLoop_total (S (length seqs)) c2 sid cum m seqs) as [c3 ->]; [lia|lia|].
    cbn [mbind option_bind]. by eauto. }
  cbn [mbind option_bind].
  destruct (foldl_total (ackListStep E m) (ce_range_ids E (dom (cn_sReadIdsToAck c1))) (c1, q1)) as [[c2 q2] Hf].
  { intros [c2 q2] sid. unfold ackListStep. cbn [mbind option_bind]. case_test; [by eauto|].
    match goal with |- context [ackListLoop E ?f c2 sid m ?l] => destruct (ackListLoop_total f c2 sid m l) as [c3 ->] end;
      [lia|done|]. cbn [mbind option_bind]. by eauto. }
  cbn [fst]. rewrite Hf. cbn [mbind option_bind]. by eauto.
Qed.

Lemma tailNackScan_total c : ∃ c', tailNackScan E c = Some c'.
Proof.
  unfold tailNackScan. destruct (conn_time E c) as [c0 now]. apply foldl_total. intros c1 sid. unfold tailNackStep.
  cbn [mbind option_bind]. destruct (cn_streams c1 !! sid) as [st|]; [|by eauto].
  destruct (on_read_total E c1 sid st (λ e s, Some (maybeTailNack e s now, ()))) as (c2 & a & ->); by eauto.
Qed.

Lemma resendOne_queue c req queued : let c' := (resendOne E c req queued).1 in
  cn_resendQueue c' = cn_resendQueue c ∧ cn_resendHead c' = cn_resendHead c.
Proof.
  assert (∀ n c e d q, sends c (queueCopies E n c e d q).1) as Hq.
  { induction n as [|n IH]; intros c0 e d q; cbn [queueCopies]; [reflexivity|].
    match goal with |- context [tx_do ?m c0] => pose proof (tx_do_sends m c0) as Ht; destruct (tx_do m c0) as [c1 [x|]] end; [done|].
    eapply sends_step; [apply IH|exact Ht]. }
  cbv zeta. unfold resendOne, conn_time. destruct (peekForResend _ _) as [x|]; [|done]. cbn [cn_rq fst snd].
  destruct (takeForResend _ _ _) as [q [e|]]; [|done].
  destruct (e_data e) as [d|];
    match goal with |- context [queueCopies E ?n ?c ?e ?d ?q] =>
      pose proof (sends_fields _ _ (Hq n c e d q)) as (_ & _ & _ & _ & _ & _ & _ & H1 & H2 & _);
      destruct (queueCopies E n c e d q) as [c1 q1] end; done.
Qed.

Lemma serviceLoop_total fuel c queued : head_ok c → (length (backlog c) < fuel)%nat →
  ∃ c' q, serviceLoop E fuel c queued = Some (c', q).
Proof.
  revert c queued. induction fuel as [|fuel IH]; intros c queued Hh Hf; [lia|]. cbn [serviceLoop].
  pose proof (popResend_spec c Hh) as Hp. destruct (popResend c) as [c1 [r|]]; [|by eauto].
  destruct Hp as (Hh1 & _ & Hb & _). rewrite Hb in Hf. cbn in Hf.
  pose proof (resendOne_queue c1 r queued) as [Hq1 Hq2]. destruct (resendOne E c1 r queued) as [c2 q2]. cbn in Hq1, Hq2.
  apply IH; unfold head_ok, backlog in *; rewrite Hq1, Hq2; [done|lia].
Qed.

Lemma serviceResends_total c : head_ok c → ∃ c' queued, serviceResends E c = Some (c', queued).
Proof.
  intros Hh. unfold serviceResends.
  destruct (serviceLoop_total (S (length (cn_resendQueue c))) c false Hh) as (c1 & q & ->).
  { unfold backlog. rewrite length_drop. lia. }
  cbn [mbind option_bind]. by eauto.
Qed.

(** an operation with fuel comes to an end *)
Definition ends {A} (r : option A) : Prop := ∃ a, r = Some a.

(** C20: handling input always ends.  Whatever bytes the messages of a
    [recvmmsg] batch hold and whatever state they meet, the connection
    parses and dispatches them, reconstructs frames from parity (delivery and
    reconstruction call each other), sends the acknowledgements, and is done.
    The loops are run with fuel; this says that the fuel always suffices.  So
    it does for the resend worker. *)
Theorem input_handled c msgs :
  Forall (Forall is_u8) msgs → head_ok c →
  ends (readBatch E c msgs) ∧ ends (serviceResends E c).
Proof.
  intros Hb Hh. unfold ends. split.
  - unfold readBatch. destruct (cn_closed c); [by eauto|]. destruct (readMessages_total c msgs Hb) as [c1 ->].
    cbn [mbind option_bind]. apply flushPendingAcksLocked_total.
  - destruct (serviceResends_total c Hh) as (c' & q & ->). by eauto.
Qed.
End conn.

(** a DATA frame out of order, a parity frame for it, and noise *)
Definition hostile : list (list Z) :=
  [ header_bytes frameData 2 1 5 ++ [0; 0; 0; 0; 7] ++ header_bytes frameFEC 2 0 5 ++ [0; 2; 0; 9; 255];
    header_bytes 77 0 0 4294967295; [1; 2; 3]; replicate 40 255 ].
Lemma input_handled_witness :
  let E := example_env (WithFEC 2 (WithMaxDatagramSize 200 defaultConfig)) true in
  ends (readBatch E (newConnection E) hostile) ∧ ends (serviceResends E (newConnection E)).
Proof.
  apply (input_handled (example_env (WithFEC 2 (WithMaxDatagramSize 200 defaultConfig)) true)
           (newConnection (example_env (WithFEC 2 (WithMaxDatagramSize 200 defaultConfig)) true)) hostile).
  - unfold hostile. repeat (apply Forall_cons_2; [|]); try done; vm_compute; repeat (apply Forall_cons_2; [split; congruence|]); apply Forall_nil_2.
  - done.
Defined.
