(* ===== verification/Monitor.v ===== *)
(** * Goroutines that wait on a condition variable

    [Read] and [Write] have the same shape: under a mutex, a loop that looks
    at the state, returns if it can, and else arms a [deadlineTimer] and
    waits on a [sync.Cond]; everything that changes the state broadcasts.
    [Monitor] says what such a loop and its state are, [MonitorLaws] what is
    to be shown of them; any number of goroutines, their timers and the
    passing of time are put around it here, and it is proved once that no
    wake-up is lost ([Waiting] has the two instances).

    - A goroutine in [Wait] sleeps until the next broadcast, so what it
      needs to know is how many there were when it went to sleep.
    - A timer's function runs in a goroutine of its own: when the timer
      expires the function waits for the mutex ([tm_due]), and [Stop] comes
      too late to keep it from broadcasting.
    - Time does not run backwards: each reading of the clock in a pass is at
      or after the time the pass starts ([m_steady]). *)
From S2P Require Import Prelude.

(** ** Timers *)

(** [deadlineTimer]; the timer is named by a number *)
Record deadlineTimer := mkDT { dt_timer : option nat; armedFor : Z }.
#[export] Instance eta_dt : Eta deadlineTimer := λ d, mkDT (dt_timer d) (armedFor d).
(** the timers of the runtime: those running, with the time they are set
    for, and how many functions of expired ones have yet to run *)
Record timers := mkTimers { tm_set : gmap nat Z; tm_next : nat; tm_due : nat }.
#[export] Instance eta_timers : Eta timers := λ t, mkTimers (tm_set t) (tm_next t) (tm_due t).

(** [var dt deadlineTimer] *)
Definition zeroDT : deadlineTimer := mkDT None 0.
Definition stop (d : deadlineTimer) (tm : timers) : deadlineTimer * timers :=
  match d.(dt_timer) with
  | Some i => (d <| dt_timer := None |>, tm <| tm_set := delete i tm.(tm_set) |>)
  | None => (d, tm)
  end.
Definition arm (d : deadlineTimer) (tm : timers) (deadline : Z) : deadlineTimer * timers :=
  if deadline =? d.(armedFor) then (d, tm)
  else
    let '(d, tm) := stop d tm in
    if negb (time_IsZero deadline) then
      (d <| dt_timer := Some tm.(tm_next) |> <| armedFor := deadline |>,
       tm <| tm_set := <[tm.(tm_next) := deadline]> tm.(tm_set) |> <| tm_next := S tm.(tm_next) |>)
    else (d <| armedFor := 0 |>, tm).

(** ** Monitors *)
Class Monitor (G T R V : Type) := {
  m_cond : G → nat;                           (* broadcasts so far *)
  m_wake : G → G;                             (* [Broadcast] *)
  m_deadline : G → Z;
  m_pass : V → G → T → option (G * (T + R));  (* once through the loop: to [Wait], or out *)
  m_steady : V → G → Z → Prop;                (* the pass reads no time before this *)
  m_call : T → Prop;
  m_side : G → G → Prop;                      (* anything else that happens under the mutex *)
}.

(** whatever happens, a waiting goroutine that is not woken goes on having
    reason to wait *)
Definition stirred {G T R V} `{Monitor G T R V} (waits : G → T → Prop) (s s' : G) : Prop :=
  (m_cond s ≤ m_cond s')%nat ∧
  (m_cond s' = m_cond s → ∀ t, waits s t → waits s' t ∧ m_deadline s' = m_deadline s).

Class MonitorLaws (G T R V : Type) `{Monitor G T R V} := {
  m_inv : G → Prop;
  m_waits : G → T → Prop;                     (* a reason to wait, the deadline apart *)
  ml_wake s : m_inv s → m_inv (m_wake s) ∧ m_cond (m_wake s) = S (m_cond s) ∧ m_deadline (m_wake s) = m_deadline s;
  ml_pass v s t s' o : m_inv s → m_call t → m_pass v s t = Some (s', o) → m_inv s' ∧ stirred m_waits s s';
  ml_blocked v s t s' t' now : m_inv s → m_call t → m_steady v s now → m_pass v s t = Some (s', inl t') →
    m_call t' ∧ m_waits s' t' ∧ (m_deadline s' = 0 ∨ now < m_deadline s');
  ml_side s s' : m_inv s → m_side s s' → m_inv s' ∧ stirred m_waits s s';
}.

Section monitor.
Context {G T R V : Type} {MN : Monitor G T R V} {ML : MonitorLaws G T R V}.
Implicit Types (s : G) (t : T) (d : deadlineTimer) (tm : timers).

Inductive goroutine :=
  | Asleep (seen : nat) (d : deadlineTimer) (t : T)   (* in [Wait], since [seen] broadcasts *)
  | Awake (d : deadlineTimer) (t : T)                 (* about to take the mutex *)
  | Returned (r : R).
Record monitored := mkMon { mo_state : G; mo_timers : timers; mo_now : Z; mo_threads : list goroutine }.
#[export] Instance eta_mon : Eta monitored := λ m, mkMon (mo_state m) (mo_timers m) (mo_now m) (mo_threads m).
Implicit Types (m : monitored) (g : goroutine).

Inductive mon_op :=
  | MSide (s' : G)            (* another operation *)
  | MCall (t : T)             (* a call of the waiting operation *)
  | MPass (k : nat) (v : V)   (* goroutine [k] takes the mutex *)
  | MWake (k : nat)           (* goroutine [k] comes out of [Wait] *)
  | MTime (now : Z)           (* time passes *)
  | MExpire (i : nat)         (* a timer expires *)
  | MCallback.                (* the function of an expired timer runs *)

Definition mon_do m (op : mon_op) : option monitored :=
  match op with
  | MSide s' => Some (m <| mo_state := s' |>)
  | MCall t => Some (m <| mo_threads := m.(mo_threads) ++ [Awake zeroDT t] |>)
  | MPass k v =>
      match m.(mo_threads) !! k with
      | Some (Awake d t) =>
          '(s', o) ← m_pass v m.(mo_state) t;
          let '(g, tm) :=
            match o with
            | inl t' => let '(d, tm) := arm d m.(mo_timers) (m_deadline s') in (Asleep (m_cond s') d t', tm)
            | inr r => let '(_, tm) := stop d m.(mo_timers) in (Returned r, tm)
            end in
          Some (m <| mo_state := s' |> <| mo_timers := tm |> <| mo_threads := <[k := g]> m.(mo_threads) |>)
      | _ => None
      end
  | MWake k =>
      match m.(mo_threads) !! k with
      | Some (Asleep seen d t) =>
          if bool_decide (seen = m_cond m.(mo_state)) then None else Some (m <| mo_threads := <[k := Awake d t]> m.(mo_threads) |>)
      | _ => None
      end
  | MTime now => if m.(mo_now) <=? now then Some (m <| mo_now := now |>) else None
  | MExpire i =>
      match m.(mo_timers).(tm_set) !! i with
      | Some deadline =>
          if deadline <=? m.(mo_now)
          then Some (m <| mo_timers := m.(mo_timers) <| tm_set := delete i m.(mo_timers).(tm_set) |> <| tm_due := S m.(mo_timers).(tm_due) |> |>)
          else None
      | None => None
      end
  | MCallback =>
      match m.(mo_timers).(tm_due) with
      | S n => Some (m <| mo_timers := m.(mo_timers) <| tm_due := n |> |> <| mo_state := m_wake m.(mo_state) |>)
      | O => None
      end
  end.
Definition mop_ok m (op : mon_op) : Prop :=
  match op with
  | MSide s' => m_side m.(mo_state) s'
  | MCall t => m_call t
  | MPass _ v => m_steady v m.(mo_state) m.(mo_now)
  | _ => True
  end.
Inductive mon_reach (s0 : G) (now0 : Z) : monitored → Prop :=
  | mr_start : mon_reach s0 now0 (mkMon s0 (mkTimers ∅ 0 0) now0 [])
  | mr_step m op m' : mon_reach s0 now0 m → mop_ok m op → mon_do m op = Some m' → mon_reach s0 now0 m'.

(** ** The invariant *)

(** the timer a goroutine has armed runs, or its time has come *)
Definition armed d tm (now : Z) : Prop :=
  d.(armedFor) ≠ 0 → (∃ i, d.(dt_timer) = Some i ∧ tm.(tm_set) !! i = Some d.(armedFor)) ∨ d.(armedFor) ≤ now.
(** one that sleeps has reason to; the timer for its deadline runs, or has
    expired and is about to broadcast *)
Definition asleep_ok s tm d t : Prop :=
  m_waits s t ∧ d.(armedFor) = m_deadline s ∧
  (m_deadline s ≠ 0 → (∃ i, d.(dt_timer) = Some i ∧ tm.(tm_set) !! i = Some (m_deadline s)) ∨ (0 < tm.(tm_due))%nat).
Definition thread_ok s tm (now : Z) g : Prop :=
  match g with
  | Asleep seen d t => m_call t ∧ armed d tm now ∧ (seen ≤ m_cond s)%nat ∧ (seen = m_cond s → asleep_ok s tm d t)
  | Awake d t => m_call t ∧ armed d tm now
  | Returned _ => True
  end.
Definition timer_of g : option nat := match g with Asleep _ d _ | Awake d _ => d.(dt_timer) | Returned _ => None end.
(** no two goroutines share a timer *)
Definition timers_ok tm (l : list goroutine) : Prop :=
  (∀ k g i, l !! k = Some g → timer_of g = Some i → (i < tm.(tm_next))%nat) ∧
  (∀ k k' g g' i, l !! k = Some g → l !! k' = Some g' → timer_of g = Some i → timer_of g' = Some i → k = k').
Record mon_ok m : Prop := mkMonOk {
  mk_inv : m_inv m.(mo_state);
  mk_threads k g : m.(mo_threads) !! k = Some g → thread_ok m.(mo_state) m.(mo_timers) m.(mo_now) g;
  mk_timers : timers_ok m.(mo_timers) m.(mo_threads);
}.

(** ** It is kept *)

(** another goroutine's timers are left alone *)
Lemma running_keep tm tm' (d : deadlineTimer) x : (∀ i, d.(dt_timer) = Some i → tm'.(tm_set) !! i = tm.(tm_set) !! i) →
  (∃ i, d.(dt_timer) = Some i ∧ tm.(tm_set) !! i = Some x) → ∃ i, d.(dt_timer) = Some i ∧ tm'.(tm_set) !! i = Some x.
Proof using. intros Hk (i & H1 & H2). exists i. split; [done|]. by rewrite Hk. Qed.
Lemma thread_keep s tm tm' now g : tm.(tm_due) = tm'.(tm_due) → (∀ i, timer_of g = Some i → tm'.(tm_set) !! i = tm.(tm_set) !! i) →
  thread_ok s tm now g → thread_ok s tm' now g.
Proof using.
  intros Hd Hk. assert (∀ d : deadlineTimer, dt_timer d = timer_of g → armed d tm now → armed d tm' now) as Ha.
  { intros d Hdt Ha Hz. destruct (Ha Hz) as [Hr|]; [left|by right]. eapply running_keep; [|exact Hr]. intros i Hi. apply Hk. congruence. }
  destruct g as [seen d t|d t|r]; cbn; [|intros [H1 H2]; split; [done|by apply Ha]|done].
  intros (H1 & H2 & H3 & H4). split_and!; [done|by apply Ha|done|]. intros Hs. destruct (H4 Hs) as (W & D & X).
  split_and!; [done|done|]. intros Hz. destruct (X Hz) as [Hr|]; [left|right; congruence]. by eapply running_keep.
Qed.
(** a goroutine that is not woken sees its reasons stay *)
Lemma thread_stirred s s' tm now g : stirred m_waits s s' → thread_ok s tm now g → thread_ok s' tm now g.
Proof using.
  intros [Hc Hk]. destruct g as [seen d t|d t|r]; cbn; [|done..]. intros (H1 & H2 & H3 & H4). split_and!; [done|done|lia|].
  intros Hs. assert (m_cond s' = m_cond s) as He by lia. destruct (H4 ltac:(lia)) as (W & D & X). destruct (Hk He t W) as [Hw Hd].
  unfold asleep_ok. rewrite Hd. split_and!; done.
Qed.
Lemma stirred_wake s : m_inv s → stirred m_waits s (m_wake s).
Proof using. intros Hi. destruct (ml_wake s Hi) as (_ & Hc & _). split; lia. Qed.

(** ** Arming and stopping *)
Lemma stop_spec d tm d' tm' : stop d tm = (d', tm') → d' = mkDT None d.(armedFor) ∧ tm'.(tm_next) = tm.(tm_next) ∧ tm'.(tm_due) = tm.(tm_due) ∧
  ∀ i, d.(dt_timer) ≠ Some i → tm'.(tm_set) !! i = tm.(tm_set) !! i.
Proof using.
  unfold stop. destruct d as [[i|] a]; cbn; intros [= <- <-]; [|done]. split_and!; [done..|]. intros j Hj. cbn. apply lookup_delete_ne. congruence.
Qed.
Lemma arm_spec d tm deadline d' tm' : arm d tm deadline = (d', tm') →
  d'.(armedFor) = deadline ∧ (tm.(tm_next) ≤ tm'.(tm_next))%nat ∧ tm'.(tm_due) = tm.(tm_due) ∧
  (∀ i, d.(dt_timer) ≠ Some i → (i < tm.(tm_next))%nat → tm'.(tm_set) !! i = tm.(tm_set) !! i) ∧
  (d' = d ∧ tm' = tm ∨ d'.(dt_timer) = None ∧ deadline = 0 ∨
    d'.(dt_timer) = Some tm.(tm_next) ∧ tm'.(tm_set) !! tm.(tm_next) = Some deadline ∧ (tm.(tm_next) < tm'.(tm_next))%nat).
Proof using.
  unfold arm. case_bool_decide as He; [intros [= <- <-]; split_and!; [done|lia|done|done|by left]|].
  destruct (stop d tm) as [d1 tm1] eqn:Hs. destruct (stop_spec _ _ _ _ Hs) as (-> & Hn & Hd & Hk). unfold time_IsZero.
  destruct (bool_decide_reflect (deadline = 0)) as [->|Hz]; cbn; intros [= <- <-].
  - split_and!; [done|cbn; lia|done|intros i Hi _; by apply Hk|right; by left].
  - rewrite Hn. split_and!; [done|cbn; lia|done| |right; right; split_and!; [done|by cbn; rewrite lookup_insert_eq|cbn; lia]].
    intros i Hi Hlt. cbn. rewrite lookup_insert_ne by lia. by apply Hk.
Qed.

Section keep.
Context (m : monitored) (Hm : mon_ok m).

(** a step of goroutine [k] that leaves the timers of the others alone *)
Lemma ok_thread s' tm' k g0 g' : m.(mo_threads) !! k = Some g0 → m_inv s' → stirred m_waits m.(mo_state) s' →
  tm'.(tm_due) = m.(mo_timers).(tm_due) → (m.(mo_timers).(tm_next) ≤ tm'.(tm_next))%nat →
  (∀ i, timer_of g0 ≠ Some i → (i < m.(mo_timers).(tm_next))%nat → tm'.(tm_set) !! i = m.(mo_timers).(tm_set) !! i) →
  (∀ i, timer_of g' = Some i → timer_of g0 = Some i ∨ i = m.(mo_timers).(tm_next) ∧ (i < tm'.(tm_next))%nat) →
  thread_ok s' tm' m.(mo_now) g' →
  mon_ok (m <| mo_state := s' |> <| mo_timers := tm' |> <| mo_threads := <[k := g']> m.(mo_threads) |>).
Proof using Hm.
  intros Hk Hi Hst Hdue Hn Hset Hown Hg. destruct Hm as [I Th [U1 U2]]. split; cbn; [done|..].
  - intros j g Hj. apply list_lookup_insert_Some in Hj as [(-> & <- & _)|[Hne Hj]]; [done|].
    eapply thread_keep; [by symmetry| |by eapply thread_stirred, Th]. intros i Hti. apply Hset; [|by eapply U1].
    intros H0. by destruct (Hne (U2 k j _ _ _ Hk Hj H0 Hti)).
  - assert (∀ j g i, <[k:=g']> m.(mo_threads) !! j = Some g → timer_of g = Some i →
      (j ≠ k ∧ m.(mo_threads) !! j = Some g ∧ (i < m.(mo_timers).(tm_next))%nat) ∨
      (j = k ∧ (timer_of g0 = Some i ∧ (i < m.(mo_timers).(tm_next))%nat ∨ i = m.(mo_timers).(tm_next) ∧ (i < tm'.(tm_next))%nat))) as Hcase.
    { intros j g i Hj Hti. apply list_lookup_insert_Some in Hj as [(-> & <- & _)|[Hne Hj]].
      - right. split; [done|]. destruct (Hown i Hti) as [H0|H0]; [left; split; [done|by eapply U1]|by right].
      - left. split_and!; [done|done|by eapply U1]. }
    split.
    + intros j g i Hj Hti. destruct (Hcase j g i Hj Hti) as [(_ & _ & ?)|(_ & [[_ ?]|[_ ?]])]; lia.
    + intros j j' g g1 i Hj Hj' Hti Hti'.
      destruct (Hcase j g i Hj Hti) as [(Hne & L1 & X1)|(-> & [[O1 X1]|[E1 X1]])], (Hcase j' g1 i Hj' Hti') as [(Hne' & L2 & X2)|(-> & [[O2 X2]|[? X2]])];
        try done; try lia; [by eapply U2|exfalso; eapply Hne, U2; eassumption|exfalso; eapply Hne', U2; eassumption].
Qed.
(** a step that leaves the goroutines where they are *)
Lemma ok_state s' : m_inv s' → stirred m_waits m.(mo_state) s' → mon_ok (m <| mo_state := s' |>).
Proof using Hm. intros Hi Hst. destruct Hm as [I Th U]. split; [done| |done]. intros k g Hk. by eapply thread_stirred, Th. Qed.

Lemma ok_pass k d t v s' o : m.(mo_threads) !! k = Some (Awake d t) → m_steady v m.(mo_state) m.(mo_now) → m_pass v m.(mo_state) t = Some (s', o) →
  let '(g, tm) :=
    match o with
    | inl t' => let '(d, tm) := arm d m.(mo_timers) (m_deadline s') in (Asleep (m_cond s') d t', tm)
    | inr r => let '(_, tm) := stop d m.(mo_timers) in (Returned r, tm)
    end in
  mon_ok (m <| mo_state := s' |> <| mo_timers := tm |> <| mo_threads := <[k := g]> m.(mo_threads) |>).
Proof using Hm.
  intros Hk Hv Hp. destruct (mk_threads _ Hm k _ Hk) as [Hc Ha]. destruct (ml_pass _ _ _ _ _ (mk_inv _ Hm) Hc Hp) as [Hi Hst].
  destruct o as [t'|r].
  - destruct (ml_blocked _ _ _ _ _ _ (mk_inv _ Hm) Hc Hv Hp) as (Hc' & Hw & Hdl).
    destruct (arm d _ _) as [d' tm'] eqn:Harm. destruct (arm_spec _ _ _ _ _ Harm) as (A1 & A2 & A3 & A4 & A5).
    assert (armed d' tm' (mo_now m) ∧ (m_deadline s' ≠ 0 → ∃ i, dt_timer d' = Some i ∧ tm_set tm' !! i = Some (m_deadline s'))) as [B1 B2].
    { assert (m_deadline s' ≠ 0 → ∃ i, dt_timer d' = Some i ∧ tm_set tm' !! i = Some (m_deadline s')) as B2.
      { intros Hz. destruct A5 as [[-> ->]|[[_ ?]|(D1 & D2 & _)]]; [|done|by eexists]. rewrite <- A1. destruct Ha as [Hr|Hle]; [by rewrite A1|done|]. lia. }
      split; [|done]. intros Hz. left. rewrite A1 in *. by apply B2. }
    apply (ok_thread s' tm' k (Awake d t)); try done.
    + intros i Hti. cbn in *. destruct A5 as [[-> ->]|[[D1 _]|(D1 & _ & D3)]]; [by left|congruence|right]. rewrite D1 in Hti. injection Hti as <-. done.
    + cbn. split_and!; [done|done|done|]. intros _. split_and!; [done|done|]. intros Hz. left. by apply B2.
  - destruct (stop d _) as [d' tm'] eqn:Hs. destruct (stop_spec _ _ _ _ Hs) as (_ & S1 & S2 & S3).
    apply (ok_thread s' tm' k (Awake d t)); try done; [by rewrite S1|]. intros i Hi0 _. by apply S3.
Qed.
End keep.

Lemma stirred_refl s : stirred m_waits s s.
Proof using. done. Qed.
Lemma thread_later s tm now now' g : now ≤ now' → thread_ok s tm now g → thread_ok s tm now' g.
Proof using.
  intros Hle. assert (∀ d, armed d tm now → armed d tm now') as Ha by (intros d Ha Hz; destruct (Ha Hz); [by left|right; lia]).
  destruct g as [seen d t|d t|r]; cbn; [|intros [? ?]; split; [done|by apply Ha]|done]. intros (? & ? & ? & ?). split_and!; try done. by apply Ha.
Qed.
(** a timer whose time has come *)
Lemma thread_expire s tm now i x g : tm.(tm_set) !! i = Some x → x ≤ now → thread_ok s tm now g →
  thread_ok s (tm <| tm_set := delete i tm.(tm_set) |> <| tm_due := S tm.(tm_due) |>) now g.
Proof using.
  intros Hi Hx. assert (∀ d, armed d tm now → armed d (tm <| tm_set := delete i tm.(tm_set) |> <| tm_due := S tm.(tm_due) |>) now) as Ha.
  { intros d Ha Hz. destruct (Ha Hz) as [(j & H1 & H2)|]; [|by right]. destruct (decide (i = j)) as [<-|Hne]; [right; congruence|left].
    exists j. split; [done|]. cbn. by rewrite lookup_delete_ne. }
  destruct g as [seen d t|d t|r]; cbn; [|intros [? ?]; split; [done|by apply Ha]|done]. intros (H1 & H2 & H3 & H4).
  split_and!; [done|by apply Ha|done|]. intros Hs. destruct (H4 Hs) as (W & D & X). split_and!; [done|done|]. intros _. right. cbn. lia.
Qed.
(** the broadcast of an expired timer *)
Lemma thread_callback s tm now n g : m_inv s → thread_ok s tm now g → thread_ok (m_wake s) (tm <| tm_due := n |>) now g.
Proof using.
  intros Hi. destruct (ml_wake s Hi) as (_ & Hc & _). destruct g as [seen d t|d t|r]; cbn; [|done..]. intros (H1 & H2 & H3 & H4).
  split_and!; [done|done|lia|]. intros Hs. lia.
Qed.

Lemma mon_do_ok m op m' : mon_ok m → mop_ok m op → mon_do m op = Some m' → mon_ok m'.
Proof using.
  intros Hm. destruct op as [s'|t|k v|k|now|i|]; cbn [mop_ok mon_do].
  - intros Hs [= <-]. destruct (ml_side _ _ (mk_inv _ Hm) Hs). by apply ok_state.
  - intros Hc [= <-]. destruct Hm as [I Th [U1 U2]]. split; [done|..]; cbn.
    + intros k g [Hk|[_ [_ <-]%list_lookup_singleton_Some]]%lookup_app_Some; [by eapply Th|]. split; [done|]. intros Hz. by destruct Hz.
    + assert (∀ k g i, (mo_threads m ++ [Awake zeroDT t]) !! k = Some g → timer_of g = Some i → mo_threads m !! k = Some g) as Hl.
      { intros k g i [Hk|[_ [_ <-]%list_lookup_singleton_Some]]%lookup_app_Some Hi; done. }
      split; [intros k g i Hk Hi; eapply U1; [by eapply Hl|done]|]. intros k k' g g' i Hk Hk' Hi Hi'. by eapply U2; [eapply Hl|eapply Hl|..].
  - intros Hv. destruct (mo_threads m !! k) as [[| d t|]|] eqn:Hk; try done. destruct (m_pass v _ t) as [[s' o]|] eqn:Hp; [|done]. cbn [mbind option_bind].
    pose proof (ok_pass m Hm k d t v s' o Hk Hv Hp) as Hok. destruct o as [t'|r].
    + destruct (arm _ _ _) as [d' tm']. by intros [= <-].
    + destruct (stop _ _) as [d' tm']. by intros [= <-].
  - intros _. destruct (mo_threads m !! k) as [[seen d t| |]|] eqn:Hk; try done. case_bool_decide; [done|]. intros [= <-].
    destruct (mk_threads _ Hm k _ Hk) as (Hc & Ha & _).
    pose proof (ok_thread m Hm (mo_state m) (mo_timers m) k _ (Awake d t) Hk (mk_inv _ Hm) (stirred_refl _) eq_refl (le_n _)) as Ho.
    destruct m as [s0 tm0 now0 l0]. cbn in *. apply Ho; [done|by left|done].
  - intros _. case_bool_decide as Hle; [|done]. intros [= <-]. destruct Hm as [I Th U]. split; [done| |done].
    intros k g Hk. eapply thread_later; [exact Hle|by eapply Th].
  - intros _. destruct (tm_set (mo_timers m) !! i) as [x|] eqn:Hi; [|done]. case_bool_decide as Hle; [|done]. intros [= <-].
    destruct Hm as [I Th U]. split; [done| |done]. intros k g Hk. eapply thread_expire; [done|done|by eapply Th].
  - intros _. destruct (tm_due (mo_timers m)) as [|n]; [done|]. intros [= <-]. destruct Hm as [I Th U]. split; [by apply ml_wake| |done].
    intros k g Hk. apply thread_callback; [done|by eapply Th].
Qed.
Lemma mon_reach_ok s0 now0 m : m_inv s0 → mon_reach s0 now0 m → mon_ok m.
Proof using.
  intros Hi. induction 1 as [|m op m' _ IH Hop Hdo]; [|by eapply mon_do_ok]. split; [done|done|]. by split.
Qed.

(** ** A goroutine with no reason to wait gets to run *)

(** goroutine [k] and the runtime's timers, and nobody else *)
Definition by_itself (k : nat) (op : mon_op) : Prop :=
  match op with MPass k' _ | MWake k' => k' = k | MExpire _ | MCallback => True | _ => False end.
Inductive alone (k : nat) : monitored → monitored → Prop :=
  | al_done m : alone k m m
  | al_step m op m1 m2 : by_itself k op → mop_ok m op → mon_do m op = Some m1 → alone k m1 m2 → alone k m m2.
Lemma alone_trans k m1 m2 m3 : alone k m1 m2 → alone k m2 m3 → alone k m1 m3.
Proof using. induction 1; [done|]. intros. eapply al_step; eauto. Qed.

Lemma wake_up m k seen d t : m.(mo_threads) !! k = Some (Asleep seen d t) → seen ≠ m_cond m.(mo_state) →
  ∃ m', alone k m m' ∧ m'.(mo_threads) !! k = Some (Awake d t) ∧ m'.(mo_state) = m.(mo_state) ∧ m'.(mo_now) = m.(mo_now).
Proof using.
  intros Hk Hs. exists (m <| mo_threads := <[k := Awake d t]> m.(mo_threads) |>). split_and!; [|cbn|done|done].
  - eapply (al_step k m (MWake k)); [done|done|cbn; rewrite Hk; by rewrite bool_decide_false|constructor].
  - rewrite list_lookup_insert_eq; [done|]. by eapply lookup_lt_Some.
Qed.
Lemma callback_wakes m k seen d t n : mon_ok m → m.(mo_threads) !! k = Some (Asleep seen d t) → m.(mo_timers).(tm_due) = S n →
  ∃ m', alone k m m' ∧ m'.(mo_threads) !! k = Some (Awake d t) ∧ m'.(mo_state) = m_wake m.(mo_state) ∧ m'.(mo_now) = m.(mo_now).
Proof using.
  intros Hm Hk Hd. destruct (mk_threads _ Hm k _ Hk) as (_ & _ & Hle & _). destruct (ml_wake _ (mk_inv _ Hm)) as (_ & Hc & _).
  destruct (wake_up (m <| mo_timers := m.(mo_timers) <| tm_due := n |> |> <| mo_state := m_wake m.(mo_state) |>) k seen d t) as (m' & A & Hr);
    [done|cbn; lia|]. exists m'. split; [|done]. by eapply (al_step k m MCallback); [..|cbn; rewrite Hd|exact A].
Qed.
Lemma gets_to_run m k g d t : mon_ok m → m.(mo_threads) !! k = Some g → (∃ seen, g = Asleep seen d t) ∨ g = Awake d t →
  (¬ m_waits m.(mo_state) t ∨ m_deadline m.(mo_state) ≠ 0 ∧ m_deadline m.(mo_state) ≤ m.(mo_now)) →
  ∃ m', alone k m m' ∧ m'.(mo_threads) !! k = Some (Awake d t) ∧ m'.(mo_now) = m.(mo_now) ∧
    (m'.(mo_state) = m.(mo_state) ∨ m'.(mo_state) = m_wake m.(mo_state)).
Proof using.
  intros Hm Hk [(seen & ->)| ->] Hgo; [|by exists m; split_and!; [constructor|done|done|left]].
  destruct (mk_threads _ Hm k _ Hk) as (_ & _ & Hle & Hs). destruct (decide (seen = m_cond (mo_state m))) as [He|Hne].
  2:{ destruct (wake_up m k seen d t Hk Hne) as (m' & A & R1 & R2 & R3). exists m'. split_and!; try done. by left. }
  destruct (Hs He) as (W & D & X). destruct Hgo as [Hw|[Hz Hd]]; [done|]. destruct (X Hz) as [(i & _ & Hi)|Hdue].
  - assert (mon_do m (MExpire i) = Some (m <| mo_timers := m.(mo_timers) <| tm_set := delete i m.(mo_timers).(tm_set) |> <| tm_due := S m.(mo_timers).(tm_due) |> |>)) as Hx.
    { cbn. rewrite Hi. by rewrite bool_decide_true. }
    pose proof (mon_do_ok m (MExpire i) _ Hm I Hx) as Hm1. edestruct (callback_wakes _ k seen d t _ Hm1 Hk eq_refl) as (m' & A & R1 & R2 & R3).
    exists m'. split_and!; [|done|done|by right]. by eapply (al_step k m (MExpire i)); [..|exact Hx|exact A].
  - destruct (tm_due (mo_timers m)) as [|n] eqn:Hn; [lia|]. destruct (callback_wakes m k seen d t n Hm Hk Hn) as (m' & A & R1 & R2 & R3).
    exists m'. split_and!; [done|done|done|by right].
Qed.
(** and through the loop *)
Lemma pass_through m k d t v s' o : m.(mo_threads) !! k = Some (Awake d t) → m_steady v m.(mo_state) m.(mo_now) → m_pass v m.(mo_state) t = Some (s', o) →
  ∃ m', alone k m m' ∧ m'.(mo_state) = s' ∧
    m'.(mo_threads) !! k = Some match o with inl t' => Asleep (m_cond s') (arm d m.(mo_timers) (m_deadline s')).1 t' | inr r => Returned r end.
Proof using.
  intros Hk Hv Hp. assert (k < length m.(mo_threads))%nat as Hlt by (by eapply lookup_lt_Some).
  assert (∃ m', mon_do m (MPass k v) = Some m' ∧ m'.(mo_state) = s' ∧
    m'.(mo_threads) !! k = Some match o with inl t' => Asleep (m_cond s') (arm d m.(mo_timers) (m_deadline s')).1 t' | inr r => Returned r end) as (m' & H1 & H2 & H3).
  { cbn. rewrite Hk, Hp. cbn [mbind option_bind]. destruct o as [t'|r]; [destruct (arm _ _ _)|destruct (stop _ _)];
      (eexists; split_and!; [done|done|]; cbn; by rewrite list_lookup_insert_eq). }
  exists m'. split_and!; [|done|done]. by eapply (al_step k m (MPass k v)); [..|constructor].
Qed.

(** ** Scripts, to exhibit reachable states *)
Fixpoint mon_script m (ops : list mon_op) (P : monitored → Prop) : Prop :=
  match ops with
  | [] => P m
  | op :: ops => mop_ok m op ∧ match mon_do m op with Some m' => mon_script m' ops P | None => False end
  end.
Lemma mon_script_reach s0 now0 m ops P : mon_reach s0 now0 m → mon_script m ops P → ∃ m', mon_reach s0 now0 m' ∧ P m'.
Proof using.
  revert m. induction ops as [|op ops IH]; intros m Hm; cbn [mon_script]; [by exists m|]. intros [Hop Hs].
  destruct (mon_do m op) as [m1|] eqn:Hd; [|done]. apply (IH m1); [|done]. by eapply mr_step.
Qed.
End monitor.
