(* ===== verification/Waiting.v ===== *)
(** * Blocked reads and writes are woken

    [Read] and [Write] of a stream as the waiting loops of [Monitor], with
    everything else that runs under [readMu] and [writeMu]: frames, parity,
    resets, closing, deadlines, credit and acknowledgements.  A call that
    could go on has been woken, or its timer is about to; and it gets to run
    without the help of anybody else. *)
From S2P Require Import Prelude Errors Frame Options Ring StreamRecv RecvLemmas StreamSend SendRule StreamWriting Termination Monitor.

(** ** Reading *)

(** what happens under [readMu], apart from [Read] *)
Inductive read_side : rside → rside → Prop :=
  | sd_deliver e s seq p fin s' ack : deliver e s seq p fin = Some (s', ack) → read_side s s'
  | sd_fec e s row base count xl data s' b : applyFec e s row base count xl data = Some (s', b) → read_side s s'
  | sd_reset s : read_side s (deliverReset s)
  | sd_cancel s code : read_side s (CancelRead s code)
  | sd_fail s err : read_side s (failRead s err)        (* [deliverFIN], [deliverClose], [deliverError] *)
  | sd_deadline s t : read_side s (SetReadDeadline s t)
  | sd_tail e s now : read_side s (maybeTailNack e s now)
  | sd_snapshot s : read_side s (ackSnapshot s).1.

(** a pass of [Read]'s loop *)
Definition read_pass (e : renv) (s : rside) (plen : Z) : option (rside * (Z + read_result)) :=
  let '(s, r) := tryRead e s plen in
  Some (s, match r with ReadBlocked => inl plen | r => inr r end).

#[export] Instance read_monitor : Monitor rside Z read_result renv := {
  m_cond := readCond;
  m_wake := wakeReaders;
  m_deadline := readDeadline;
  m_pass := read_pass;
  m_steady e s now := now ≤ e.(clock) s.(tick);
  m_call plen := 0 ≤ plen;
  m_side := read_side;
}.

Lemma discard_wf s : ring_wf s.(rg) → ring_wf (discardReadStateLocked s).(rg).
Proof. intros [H1 H2 H3 H4]. split; cbn; unfold ringCap in *; cbn; [done|lia|lia|by rewrite Z.mod_0_l by lia]. Qed.
Lemma read_side_stirs s s' : read_side s s' → stirs s s'.
Proof.
  destruct 1 as [e s seq p fin s' ack Hd|e s row base count xl data s' b Hd|s|s code|s err|s t|e s now|s].
  - by eapply deliver_stirs.
  - destruct (applyFec_total e s row base count xl data) as (s1 & r & H1 & _ & H2). rewrite Hd in H1. by injection H1 as <- <-.
  - apply stirs_wake. intros Hw. split; [case_test; exact (discard_wf _ Hw)|by case_test].
  - unfold CancelRead. destruct (readCanceled s); [done|]. set (s1 := discardReadStateLocked _).
    assert ((ring_wf (rg s) → ring_wf (rg s1)) ∧ readCond s1 = readCond s) as [H1 H2].
    { unfold s1. case_test; (split; [exact (discard_wf s)|done]). }
    clearbody s1. intros Hw. split_and!; [by apply H1|cbn; lia|cbn; lia].
  - apply stirs_wake. intros Hw. split; by case_test.
  - apply stirs_wake. by intros Hw.
  - destruct (settles_aside false s _ (aside_tail e s now)) as (_ & H & _). exact H.
  - done.
Qed.
(** the rest of a [Read] that has something to return *)
Lemma returns_stirs e s d : stirs s (let s := maybeEOFLocked (drainReorderLocked e s) in
  let s := s <| grantPending := s.(grantPending) + d |> in
  if s.(grantPending) >=? Z.quot (ringCap s.(rg)) 4 then
    let credit := s.(grantPending) in let s := s <| grantPending := 0 |> in grantLocked s credit else s).
Proof.
  assert (settles false s (maybeEOFLocked (drainReorderLocked e s))) as (_ & H1 & _) by apply settles_eof, settles_drainLoop.
  set (s1 := maybeEOFLocked _) in *. clearbody s1. etrans; [exact H1|]. cbv zeta. case_test; [|done].
  match goal with |- stirs s1 (grantLocked ?s2 ?x) => destruct (settles_aside false s2 _ (aside_grant s2 x)) as (_ & H2 & _); exact H2 end.
Qed.
Lemma tryRead_stirs e s plen s' r : ring_wf s.(rg) → 0 ≤ plen → tryRead e s plen = (s', r) →
  ring_wf s'.(rg) ∧ (s.(readCond) ≤ s'.(readCond))%nat ∧
  (s'.(readCond) = s.(readCond) → idle s → idle s' ∧ s'.(readDeadline) = s.(readDeadline)).
Proof.
  intros Hw Hp. unfold tryRead. destruct (bool_decide_reflect (readLen (rg s) = 0)) as [Hz|Hz].
  { destruct (readErr s) as [err|]; [by intros [= <- <-]|]. destruct (time_IsZero _); [by intros [= <- <-]|].
    unfold time_Now. cbn [fst snd]. destruct (negb _); by intros [= <- <-]. }
  destruct (ringRead (rg s) plen) as [r1 out] eqn:Hr. destruct (ringRead_spec _ _ _ _ Hw Hp Hr) as (W & _).
  intros Heq. assert (stirs (s <| rg := r1 |>) s') as Hst.
  { pose proof (returns_stirs e (s <| rg := r1 |>) (Zlen out)) as Hst. cbv zeta in *. revert Heq Hst. case_test; intros [= <- _]; done. }
  destruct (Hst W) as (H1 & H2 & _). split_and!; [done|done|]. by intros _ [? _].
Qed.
Lemma tryRead_blocked e s plen s' now : tryRead e s plen = (s', ReadBlocked) → now ≤ e.(clock) s.(tick) →
  idle s' ∧ (s'.(readDeadline) = 0 ∨ now < s'.(readDeadline)).
Proof.
  unfold tryRead. destruct (bool_decide_reflect (readLen (rg s) = 0)) as [Hz|Hz].
  2:{ destruct (ringRead (rg s) plen). cbv zeta. by case_test. }
  destruct (readErr s) as [err|] eqn:He; [done|]. unfold time_IsZero. destruct (bool_decide_reflect (readDeadline s = 0)) as [Hd|Hd].
  { intros [= <-] _. split; [done|by left]. }
  unfold time_Now, time_Before. cbn [fst snd]. case_test; [|done].
  intros [= <-] Hn. split; [done|]. right. cbn in *. lia.
Qed.

#[export] Instance read_laws : MonitorLaws rside Z read_result renv.
Proof.
  refine {| m_inv := λ s, ring_wf s.(rg); m_waits := λ s _, idle s |}.
  - done.
  - intros e s plen s' o Hw Hp. cbn. unfold read_pass. destruct (tryRead e s plen) as [s1 r] eqn:Hr. intros [= <- _].
    destruct (tryRead_stirs e s plen s1 r Hw Hp Hr) as (H1 & H2 & H3). split; [done|]. split; [done|]. intros Hc _. by apply H3.
  - intros e s plen s' t' now Hw Hp Hs. cbn in *. unfold read_pass. destruct (tryRead e s plen) as [s1 r] eqn:Hr.
    destruct r; try done. intros [= <- <-]. destruct (tryRead_blocked e s plen s1 now Hr Hs). by split.
  - intros s s' Hw Hs. destruct (read_side_stirs s s' Hs Hw) as (H1 & H2 & H3). split; [done|]. split; [done|]. intros Hc _. by apply H3.
Defined.

(** a [Read] that can return does *)
Lemma tryRead_returns e s plen now : now ≤ e.(clock) s.(tick) →
  s.(rg).(readLen) ≠ 0 ∨ s.(readErr) ≠ None ∨ s.(readDeadline) ≠ 0 ∧ s.(readDeadline) ≤ now → (tryRead e s plen).2 ≠ ReadBlocked.
Proof.
  intros Hn Hgo Hb. destruct (tryRead e s plen) as [s' r] eqn:Ht. cbn in Hb. subst r.
  destruct (tryRead_blocked e s plen s' (clock e (tick s)) Ht ltac:(lia)) as [[I1 I2] Hd]. revert Ht. unfold tryRead.
  destruct (bool_decide_reflect (readLen (rg s) = 0)) as [Hz|Hz].
  2:{ destruct (ringRead (rg s) plen). cbv zeta. by case_test. }
  destruct (readErr s) as [err|]; [done|]. unfold time_IsZero. destruct (bool_decide_reflect (readDeadline s = 0)) as [Hx|Hx].
  { intros [= <-]. naive_solver. }
  unfold time_Now, time_Before. cbn [fst snd]. case_test; [|done]. intros [= <-]. cbn in *. destruct Hgo as [?|[?|[_ ?]]]; [done|done|lia].
Qed.
Lemma tryRead_wake e s plen : (tryRead e (wakeReaders s) plen).2 = (tryRead e s plen).2.
Proof.
  unfold tryRead. cbn [wakeReaders]. change (readLen (rg (wakeReaders s))) with (readLen (rg s)). destruct (bool_decide _).
  - change (readErr (wakeReaders s)) with (readErr s). destruct (readErr s); [done|]. change (readDeadline (wakeReaders s)) with (readDeadline s).
    destruct (time_IsZero _); [done|]. unfold time_Now. cbn [fst snd]. change (tick (wakeReaders s)) with (tick s).
    change (readDeadline (wakeReaders s <| tick := S (tick s) |>)) with (readDeadline s). change (readDeadline (s <| tick := S (tick s) |>)) with (readDeadline s).
    by destruct (negb _).
  - change (rg (wakeReaders s)) with (rg s). destruct (ringRead (rg s) plen). cbv zeta. by repeat case_test.
Qed.

(** any number of goroutines in [Read] of a new stream *)
Definition readers_reach (E : renv) (bufSize now0 : Z) : monitored → Prop := mon_reach (G := rside) (newStream_read E bufSize now0) now0.
Lemma newStream_ring_wf E bufSize now0 : 0 < maxPayload (cfg E) → ring_wf (newStream_read E bufSize now0).(rg).
Proof. intros Hp. unfold newStream_read. cbn [rg]. apply newRing_wf. case_test; lia. Qed.

(** C6: a blocked [Read] is woken.  Any number of goroutines call [Read] of a
    stream, deadlines are set and changed, timers are armed, stopped and
    expire, and frames, parity, resets and closing happen, in any order.
    Whenever there are bytes to read, or an error or the end of the file to
    report, or the read deadline has passed, each goroutine still inside
    [Read] can return: no further frame or call is needed, only its own steps
    and the runtime's timers; and it returns what a [Read] at that moment
    would. *)
Theorem blocked_read_returns E bufSize now0 m k g d plen e :
  0 < maxPayload (cfg E) → readers_reach E bufSize now0 m →
  m.(mo_threads) !! k = Some g → (∃ seen, g = Asleep seen d plen) ∨ g = Awake d plen →
  m.(mo_now) ≤ e.(clock) m.(mo_state).(tick) →
  m.(mo_state).(rg).(readLen) ≠ 0 ∨ m.(mo_state).(readErr) ≠ None ∨ m.(mo_state).(readDeadline) ≠ 0 ∧ m.(mo_state).(readDeadline) ≤ m.(mo_now) →
  ∃ m', alone k m m' ∧ m'.(mo_threads) !! k = Some (Returned (tryRead e m.(mo_state) plen).2) ∧ (tryRead e m.(mo_state) plen).2 ≠ ReadBlocked.
Proof.
  intros Hp Hr Hk Hg He Hgo. pose proof (mon_reach_ok _ _ _ (newStream_ring_wf E bufSize now0 Hp) Hr) as Hm.
  assert (¬ idle m.(mo_state) ∨ m.(mo_state).(readDeadline) ≠ 0 ∧ m.(mo_state).(readDeadline) ≤ m.(mo_now)) as Hgo'.
  { destruct Hgo as [H|[H|H]]; [left; by intros []|left; by intros []|by right]. }
  destruct (gets_to_run m k g d plen Hm Hk Hg Hgo') as (m1 & A1 & K1 & N1 & S1).
  assert ((tryRead e m1.(mo_state) plen).2 = (tryRead e m.(mo_state) plen).2 ∧ m1.(mo_state).(tick) = m.(mo_state).(tick)) as [Hres Htick].
  { destruct S1 as [->| ->]; [done|]. split; [apply tryRead_wake|done]. }
  pose proof (tryRead_returns e _ plen _ He Hgo) as Hnb.
  destruct (tryRead e m1.(mo_state) plen) as [s' r] eqn:Ht. cbn in Hres. rewrite <- Hres in *.
  destruct (pass_through m1 k d plen e s' (inr r) K1) as (m2 & A2 & _ & K2).
  - cbn. rewrite Htick, N1. done.
  - cbn. unfold read_pass. rewrite Ht. by destruct r.
  - exists m2. split_and!; [by eapply alone_trans|done|done].
Qed.
(** Two goroutines read an empty stream and block.  A deadline is set: both
    wake, and one goes back to sleep with a timer.  The deadline passes. *)
Definition wait_env : renv := mkRenv (WithMaxDatagramSize 140 defaultConfig) (λ _, 7) (λ _, Millisecond) (λ _, Millisecond) map_to_list.
Definition late_env : renv := mkRenv (WithMaxDatagramSize 140 defaultConfig) (λ _, 250) (λ _, Millisecond) (λ _, Millisecond) map_to_list.
Definition wait_start : rside := newStream_read wait_env 1024 5.
Definition wait_script : list mon_op :=
  [ MCall 16; MCall 16; MPass 0 wait_env; MPass 1 wait_env; MSide (SetReadDeadline wait_start 100); MWake 1; MPass 1 wait_env; MTime 200 ].
Lemma wait_script_ok : mon_script (mkMon wait_start (mkTimers ∅ 0 0) 5 []) wait_script (λ m,
  m.(mo_threads) !! 0%nat = Some (Asleep 0 zeroDT 16) ∧ m.(mo_threads) !! 1%nat = Some (Asleep 1 (mkDT (Some 0%nat) 100) 16) ∧
  m.(mo_now) = 200 ∧ m.(mo_state).(readDeadline) = 100 ∧ m.(mo_state).(readCond) = 1%nat ∧ m.(mo_state).(rg).(readLen) = 0 ∧ m.(mo_state).(readErr) = None).
Proof.
  vm_compute. split_and!; try done. exact (sd_deadline wait_start 100).
Qed.
Lemma blocked_read_returns_witness : ∃ m m', readers_reach wait_env 1024 5 m ∧
  m.(mo_threads) !! 1%nat = Some (Asleep m.(mo_state).(readCond) (mkDT (Some 0%nat) 100) 16) ∧
  alone 1 m m' ∧ m'.(mo_threads) !! 1%nat = Some (Returned (ReadErr errDeadlineExceeded)).
Proof.
  destruct (mon_script_reach wait_start 5 _ wait_script _ (mr_start _ _) wait_script_ok) as (m & Hr & H0 & H1 & H2 & H3 & H4 & H5 & H6).
  destruct (blocked_read_returns wait_env 1024 5 m 1 _ _ 16 late_env ltac:(reflexivity) Hr H1 (or_introl (ex_intro _ _ eq_refl))) as (m' & A & K & _).
  - rewrite H2. cbn. lia.
  - right. right. rewrite H2, H3. lia.
  - exists m, m'. split_and!; [done|by rewrite H4|done|]. rewrite K. do 2 f_equal. unfold tryRead. rewrite H5, H6, H3. cbn.
    change (readDeadline (m.(mo_state) <| tick := S m.(mo_state).(tick) |>)) with (readDeadline m.(mo_state)). rewrite H3. reflexivity.
Defined.

(** Time must not run backwards: [arm] does nothing when the deadline is the
    one it was last armed for, although that timer may have fired.  A
    deadline without a monotonic reading is compared by the wall clock; where
    that is set back between the expiry and the next look at it, [Read] goes
    back to sleep with no timer, and sleeps past its deadline. *)
Definition at_time (now : Z) : renv := mkRenv (WithMaxDatagramSize 140 defaultConfig) (λ _, now) (λ _, Millisecond) (λ _, Millisecond) map_to_list.
Definition strand : list mon_op :=
  [ MSide (SetReadDeadline wait_start 100); MCall 16; MPass 0 (at_time 7); MTime 100; MExpire 0; MCallback; MWake 0; MPass 0 (at_time 60); MTime 200 ].
Theorem stepped_clock_strands : ∃ m d,
  foldl (λ m op, m ← m; mon_do m op) (Some (mkMon wait_start (mkTimers ∅ 0 0) 5 [])) strand = Some m ∧
  m.(mo_threads) = [Asleep m.(mo_state).(readCond) d 16] ∧ 0 < m.(mo_state).(readDeadline) < m.(mo_now) ∧
  m.(mo_timers).(tm_set) = ∅ ∧ m.(mo_timers).(tm_due) = 0%nat.
Proof. eexists _, _. split; [vm_compute; reflexivity|]. by vm_compute. Qed.

(** ** Writing *)

(** what a call of [Write] holds while it waits: the bytes written so far and
    the rest; and, for the proofs, why it went to sleep: for want of credit, or
    else for the bytes in flight, and how many these were *)
Record write_wait := mkWait { ww_n : Z; ww_rest : list Z; ww_credit : bool; ww_flight : Z }.

Section writing.
Context {C : Type} `{SendPath C} (cf : config) (id : Z).
Implicit Types (w : wside) (c : C).

(** what happens under [writeMu], apart from [Write] *)
Inductive write_side : wside → wside → Prop :=
  | sw_window w offset : write_side w (setMaxSendOffset w offset)
  | sw_acked w n : write_side w (creditAcked w n)
  | sw_deadline w t : write_side w (SetWriteDeadline w t)
  | sw_close w c : write_side w (CloseWrite id w c).1.1
  | sw_abort w c code sendReset : write_side w (abortWriteLocked id w c code sendReset).1
  | sw_fail w err : write_side w (failWrite w err).      (* [deliverClose], [deliverError] *)

(** the chunk that is next *)
Definition chunk_len (p : list Z) : Z := if Zlen p >? dataCap cf then dataCap cf else Zlen p.
(** the credit does not reach for it *)
Definition short_of_credit w (p : list Z) : bool := w.(maxSendOffset) - w.(sentOffset) <? chunk_len p.

(** a pass of [Write]'s loops, up to its return or its next wait *)
Definition write_pass c w (t : write_wait) : option (wside * (write_wait + Z * option go_error)) :=
  '(w, _, o) ← writeLoop cf id (S (length t.(ww_rest))) w c t.(ww_rest) t.(ww_n);
  Some (w, match o with WBlocked n rest => inl (mkWait n rest (short_of_credit w rest) (bytesInFlightLocked w)) | WDone n err => inr (n, err) end).

(** the clock of the connection is at [now] or later, whatever a [Write] does
    with the connection *)
Definition survives (P : C → Prop) : Prop := ∀ c, P c →
  P (conn_now c).1 ∧ P (conn_inFlightCap c).1 ∧ P (flushSend c).1 ∧
  (∀ seq p, P (sendDataFrame c id seq p).1) ∧ (∀ ft base count xl data, P (sendFecFrame c ft id base count xl data).1).
Definition from_now_on (now : Z) c : Prop := ∃ P : C → Prop, P c ∧ survives P ∧ ∀ c, P c → now ≤ (conn_now c).2.

#[export] Instance write_monitor : Monitor wside write_wait (Z * option go_error) C := {
  m_cond := writeCond;
  m_wake := wakeWriters;
  m_deadline := writeDeadline;
  m_pass := write_pass;
  m_steady c _ now := from_now_on now c;
  m_call _ := True;
  m_side := write_side;
}.

(** the stream is open, and a call that lacked credit still lacks it, one that
    found too many bytes in flight finds no fewer *)
Definition write_waits w (t : write_wait) : Prop :=
  w.(writeErr) = None ∧ w.(writeFIN) = false ∧
  if t.(ww_credit) then w.(maxSendOffset) - w.(sentOffset) < chunk_len t.(ww_rest)
  else t.(ww_flight) ≤ bytesInFlightLocked w ∧ ∃ c, (stream_inFlightCap cf c).2 < t.(ww_flight) + chunk_len t.(ww_rest).
Definition write_wf w : Prop := lanes_small cf w ∧ is_u32 w.(writeSeq).

(** another [Write] only sends *)
Definition sends w w' : Prop :=
  (w'.(writeErr), w'.(writeFIN), w'.(maxSendOffset), w'.(ackedBytes), w'.(writeDeadline), w'.(writeCond)) =
  (w.(writeErr), w.(writeFIN), w.(maxSendOffset), w.(ackedBytes), w.(writeDeadline), w.(writeCond)) ∧ w.(sentOffset) ≤ w'.(sentOffset).
Lemma sends_trans w1 w2 w3 : sends w1 w2 → sends w2 w3 → sends w1 w3.
Proof using. intros [H1 H2] [H3 H4]. split; [congruence|lia]. Qed.
Lemma sends_waits w w' t : sends w w' → write_waits w t → write_waits w' t.
Proof using.
  intros [[= H1 H2 H3 H4 H5 H6] Hs] (W1 & W2 & W3). split_and!; [congruence|congruence|]. unfold bytesInFlightLocked in *. rewrite H3, H4.
  destruct (ww_credit t); [lia|]. destruct W3 as [W3 W4]. split; [lia|done].
Qed.

Context (Hcap : 0 < dataCap cf) (Hmod : 0 < cf.(fecGroup) → 0 < u32 cf.(fecGroup)).

Lemma mustWait_true w c n c' : mustWait cf w c n = (c', true) → w.(writeErr) = None ∧ w.(writeFIN) = false ∧
  (w.(maxSendOffset) - w.(sentOffset) < n ∨ n ≤ w.(maxSendOffset) - w.(sentOffset) ∧ (stream_inFlightCap cf c).2 < bytesInFlightLocked w + n).
Proof using.
  unfold mustWait. destruct (bool_decide_reflect (writeErr w ≠ None)) as [He|He]; [done|]. cbn [orb]. destruct (writeFIN w); [done|].
  assert (writeErr w = None) as He' by (destruct (writeErr w); [by destruct He|done]).
  case_test; [intros _; split_and!; [done|done|by left]|]. destruct (stream_inFlightCap cf c) as [c1 cap]. intros [= _ Hb].
  apply bool_decide_eq_true in Hb. split_and!; [done|done|right; split; [lia|done]].
Qed.

(** a [Write] that blocks has reason to *)
Definition blocks_well (P : C → Prop) w (o : write_outcome) : Prop := ∀ n rest, o = WBlocked n rest →
  write_waits w (mkWait n rest (short_of_credit w rest) (bytesInFlightLocked w)) ∧
  ∀ now, (∀ c, P c → now ≤ (conn_now c).2) → w.(writeDeadline) = 0 ∨ now < w.(writeDeadline).
Lemma writeLoop_waits (P : C → Prop) (HP : survives P) fuel w c p n :
  P c → write_wf w → (length p < fuel)%nat →
  ∃ w' c' o, writeLoop cf id fuel w c p n = Some (w', c', o) ∧ write_wf w' ∧ sends w w' ∧ blocks_well P w' o.
Proof using Hcap Hmod.
  revert w c p n. induction fuel as [|fuel IH]; intros w c p n Hc Hw Hf; [lia|]. cbn [writeLoop].
  assert (sends w w) as Hrefl by (split; [done|lia]).
  assert (∀ c k err, ∃ w' c' o, (let '(c, _) := flushSend c in Some (w, c, WDone k err)) = Some (w', c', o) ∧ write_wf w' ∧ sends w w' ∧ blocks_well P w' o) as Hdone.
  { intros c1 k err. destruct (flushSend c1). eexists _, _, _. split_and!; [done|done|done|]. by intros. }
  destruct (decide (Zlen p = 0)) as [Hp|Hp]; [rewrite bool_decide_true by done|rewrite bool_decide_false by done].
  { destruct (flushSend c). eexists _, _, _. split_and!; [done|done|done|]. by intros. }
  change (if bool_decide (dataCap cf < Zlen p) then dataCap cf else Zlen p) with (chunk_len p). set (k := chunk_len p).
  pose proof (Zlen_nonneg p). assert (0 < k ≤ dataCap cf ∧ k ≤ Zlen p) as Hk by (unfold k, chunk_len; case_bool_decide; lia).
  destruct (mustWait cf w c k) as [c1 wait] eqn:Hmw. assert (P c1) as Hc1.
  { revert Hmw. unfold mustWait, stream_inFlightCap. destruct (HP c Hc) as (_ & HPc & _). destruct (_ || _); [by intros [= <- _]|].
    case_test; [by intros [= <- _]|]. destruct (conn_inFlightCap c). by intros [= <- _]. }
  destruct wait.
  { destruct (mustWait_true _ _ _ _ Hmw) as (He & Hfin & Hwhy). destruct (HP c1 Hc1) as (_ & _ & HPf & _).
    assert (write_waits w (mkWait n p (short_of_credit w p) (bytesInFlightLocked w))) as Hww.
    { split_and!; [done|done|]. cbn [ww_credit ww_flight ww_rest]. unfold short_of_credit. fold k. destruct Hwhy as [?|[? ?]].
      - by rewrite bool_decide_true.
      - rewrite bool_decide_false by lia. split; [lia|by exists c]. }
    destruct (flushSend c1) as [c2 fe]. unfold time_IsZero. destruct (bool_decide_reflect (writeDeadline w = 0)) as [Hd|Hd]; cbn [negb].
    { eexists _, _, _. split_and!; [done|done|done|]. intros n' rest [= <- <-]. split; [done|]. intros. by left. }
    assert (∀ now, (∀ c, P c → now ≤ (conn_now c).2) → now ≤ (conn_now c2).2) as Hnow by (intros now Hall; by apply Hall).
    destruct (conn_now c2) as [c3 t]. unfold time_Before. cbn [snd] in Hnow. case_test; cbn [negb].
    - eexists _, _, _. split_and!; [done|done|done|]. intros n' rest [= <- <-]. split; [done|]. intros now Hall. right. specialize (Hnow now Hall). lia.
    - eexists _, _, _. split_and!; [done|done|done|]. by intros. }
  destruct (bool_decide (writeErr w ≠ None)); [apply Hdone|]. destruct (writeFIN w); [apply Hdone|].
  assert (Zlen (slice p 0 k) = k) as Hz by (rewrite Zlen_slice; lia).
  change (writeSeq (w <| sentOffset := sentOffset w + k |>)) with (writeSeq w).
  set (w2 := w <| sentOffset := _ |> <| writeSeq := _ |>). assert (sends w w2) as Hs2 by (split; [done|cbn; lia]).
  assert (write_wf w2) as Hw2 by (split; [exact (proj1 Hw)|apply u32_range]).
  destruct (HP c1 Hc1) as (_ & _ & _ & HPd & _). specialize (HPd (writeSeq w) (slice p 0 k)).
  destruct (sendDataFrame c1 id (writeSeq w) (slice p 0 k)) as [c2 [err|]]; cbn [fst] in HPd.
  { destruct (flushSend c2). eexists _, _, _. split_and!; [done|done|done|]. by intros. }
  destruct (fecFold_rule cf id (λ w c, sends w2 w ∧ P c) Hcap Hmod) with (w := w2) (c := c2) (seq := writeSeq w) (chunk := slice p 0 k)
    as (w3 & c3 & -> & [Hs3 Hc3] & Hl3 & Hq3); try (intros ? ? [? ?]; split; [done|by apply HP]); try done.
  - intros w4 c4 ft base count xl data [H1 H2] _ _ _. split; [done|by apply HP].
  - intros w4 c4 q [H1 H2] _ _ Hq _ _. split; [|by apply HP]. eapply sends_trans; [exact H1|]. split; [done|cbn; lia].
  - apply Hw2.
  - apply (proj2 Hw).
  - lia.
  - cbn [mbind option_bind]. assert (write_wf w3) as Hw3 by (split; [done|rewrite Hq3; apply u32_range]).
    destruct (IH w3 c3 (slice p (Zlen (slice p 0 k)) (Zlen p)) (n + Zlen (slice p 0 k)) Hc3 Hw3) as (w' & c' & o & H1 & H2 & H3 & H4).
    { assert (Zlen (slice p k (Zlen p)) = Zlen p - k) as Hrest by (apply Zlen_slice; lia). rewrite Hz. unfold Zlen in Hrest |- *. lia. }
    exists w', c', o. split_and!; [done|done| |done]. eapply sends_trans; [exact Hs2|]. by eapply sends_trans.
Qed.

(** everything else leaves the write side as it is, or broadcasts *)
Lemma write_side_ok w w' : write_wf w → write_side w w' → write_wf w' ∧ (w' = w ∨ w'.(writeCond) = S w.(writeCond)).
Proof using Hcap Hmod.
  intros [Hl Hs] Hw. destruct Hw as [w offset|w n|w t|w c|w c code sendReset|w err].
  - unfold setMaxSendOffset. case_test; (split; [done|by auto]).
  - unfold creditAcked. case_test; (split; [done|by auto]).
  - split; [done|by right].
  - pose proof (CloseWrite_rule cf id (λ _ _, True) Hcap Hmod ltac:(done) ltac:(done) ltac:(done) ltac:(done) ltac:(done) ltac:(done) w c I Hl ltac:(done)) as Hr.
    assert (((CloseWrite id w c).1.1 = w ∨ writeCond (CloseWrite id w c).1.1 = S (writeCond w)) ∧ writeSeq (CloseWrite id w c).1.1 = writeSeq w) as [Hc Hq].
    { unfold CloseWrite. destruct (_ || _); [by split; [left|]|]. destruct (emitLanes id c _) as [c1 ls]. cbn [fecRowLane].
      destruct (emitLaneLocked id c1 _ _) as [c2 rl]. destruct (sendReliableFrame c2 _ _ _ _). by split; [right|]. }
    destruct (CloseWrite id w c) as [[w' c'] e]. destruct Hr as (_ & H1). split; [|done]. split; [done|]. cbn in *. by rewrite Hq.
  - unfold abortWriteLocked. destruct (_ || _); [by split; [|left]|]. destruct sendReset; cbn [fst]; (split; [|by right]); (split; [|done]);
      (split; [split; [constructor|by left]|]); unfold lane_small; cbn; (split; [lia|done]).
  - unfold failWrite. split; [by case_test|right; by case_test].
Qed.

Lemma write_pass_total (P : C → Prop) c w t : survives P → P c → write_wf w →
  ∃ w' o, write_pass c w t = Some (w', o) ∧ write_wf w' ∧ sends w w' ∧
    ∀ t', o = inl t' → write_waits w' t' ∧ ∀ now, (∀ c, P c → now ≤ (conn_now c).2) → w'.(writeDeadline) = 0 ∨ now < w'.(writeDeadline).
Proof using Hcap Hmod.
  intros HP Hc Hw. unfold write_pass.
  destruct (writeLoop_waits P HP (S (length t.(ww_rest))) w c t.(ww_rest) t.(ww_n) Hc Hw ltac:(lia)) as (w' & c' & o & -> & H1 & H2 & H3).
  cbn [mbind option_bind]. eexists _, _. split_and!; [done|done|done|]. intros t' Ho. destruct o as [n err|n rest]; [done|]. injection Ho as <-. by apply H3.
Qed.
Definition write_laws : MonitorLaws wside write_wait (Z * option go_error) C.
Proof using Hcap Hmod.
  refine {| m_inv := write_wf; m_waits := write_waits |}.
  - done.
  - intros c w t w' o Hw _ Hp. destruct (write_pass_total (λ _, True) c w t ltac:(done) I Hw) as (w1 & o1 & H1 & H2 & H3 & _).
    pose proof (eq_trans (eq_sym Hp) H1) as Heq. injection Heq as <- <-. split; [done|]. pose proof H3 as [[= E1 E2 E3 E4 E5 E6] _].
    split; [cbn; lia|]. intros _ x Hx. split; [by eapply sends_waits|done].
  - intros c w t w' t' now Hw _ (P & HPc & HPs & HPn) Hp. destruct (write_pass_total P c w t HPs HPc Hw) as (w1 & o1 & H1 & H2 & H3 & H4).
    pose proof (eq_trans (eq_sym Hp) H1) as Heq. injection Heq as <- <-. destruct (H4 t' eq_refl) as [H5 H6]. split_and!; [done|done|by apply H6].
  - intros w w' Hw Hs. destruct (write_side_ok w w' Hw Hs) as [H1 H2]. split; [done|]. destruct H2 as [->|H2]; [done|]. split; cbn; lia.
Defined.
End writing.

(** any number of goroutines in [Write] of a new stream *)
Definition writers_reach {C} `{SendPath C} (cf : config) (id bufSize now0 : Z) : @monitored wside write_wait (Z * option go_error) → Prop :=
  @mon_reach _ _ _ _ (write_monitor cf id) (newStream_write cf bufSize) now0.

(** C7: a blocked [Write] is woken.  Any number of goroutines call [Write] of
    a stream, while credit and acknowledgements arrive, deadlines change,
    timers expire and the stream is closed, reset or fails, in any order.
    Whenever a [Write] that waits for credit has credit for its next chunk, or
    one that waits for the bytes in flight has some of them acknowledged, or
    the stream has ended, or the write deadline has passed, it gets to run, by
    its own steps and the runtime's timers alone, and goes through its loop
    again, to its return or to a new wait with a reason of its own. *)
Theorem blocked_write_resumes {C} `{SendPath C} cf id bufSize now0 m k g d t (c : C) :
  config_wf cf → writers_reach cf id bufSize now0 m →
  m.(mo_threads) !! k = Some g → (∃ seen, g = Asleep seen d t) ∨ g = Awake d t → from_now_on id m.(mo_now) c →
  let w := m.(mo_state) in
  w.(writeErr) ≠ None ∨ w.(writeFIN) = true ∨
  (t.(ww_credit) = true ∧ chunk_len cf t.(ww_rest) ≤ w.(maxSendOffset) - w.(sentOffset)) ∨
  (t.(ww_credit) = false ∧ bytesInFlightLocked w < t.(ww_flight)) ∨
  (w.(writeDeadline) ≠ 0 ∧ w.(writeDeadline) ≤ m.(mo_now)) →
  ∃ m' w1 w' o, @alone _ _ _ _ (write_monitor cf id) k m m' ∧ (w1 = w ∨ w1 = wakeWriters w) ∧
    write_pass cf id c w1 t = Some (w', o) ∧ m'.(mo_state) = w' ∧
    match o with
    | inr r => m'.(mo_threads) !! k = Some (Returned r)
    | inl t' => write_waits cf w' t' ∧ ∃ d', m'.(mo_threads) !! k = Some (Asleep w'.(writeCond) d' t')
    end.
Proof.
  intros Hcf Hr Hk Hg Hc w Hgo. pose proof (cw_payload _ Hcf) as Hp.
  assert (0 < dataCap cf) as Hcap by (unfold dataCap, fecMetaLen; case_bool_decide; lia).
  assert (0 < fecGroup cf → 0 < u32 (fecGroup cf)) as Hmod.
  { intros Hfg. destruct (cw_fec _ Hcf); [lia|]. rewrite u32_id; [done|]. unfold is_u32. lia. }
  pose (ML := write_laws cf id Hcap Hmod).
  assert (write_wf cf (newStream_write cf bufSize)) as Hw0.
  { split; [|by unfold is_u32; cbn]. split; [split; [constructor|by left]|]. unfold lane_small. cbn. split; [lia|done]. }
  pose proof (@mon_reach_ok _ _ _ _ _ ML _ _ _ Hw0 Hr) as Hm.
  assert (¬ write_waits cf w t ∨ w.(writeDeadline) ≠ 0 ∧ w.(writeDeadline) ≤ m.(mo_now)) as Hgo'.
  { destruct Hgo as [He|[Hf|[[H1 H2]|[[H1 H2]|Hd]]]]; [left..|by right].
    - by intros (? & _).
    - intros (_ & ? & _). congruence.
    - intros (_ & _ & Hx). rewrite H1 in Hx. lia.
    - intros (_ & _ & Hx). rewrite H1 in Hx. lia. }
  destruct (@gets_to_run _ _ _ _ _ ML m k g d t Hm Hk Hg Hgo') as (m1 & A1 & K1 & N1 & S1). pose proof Hc as (P & HPc & HPs & HPn).
  assert (write_wf cf m1.(mo_state)) as Hw1.
  { pose proof (mk_inv _ Hm) as Hi. destruct S1 as [->| ->]; exact Hi. }
  destruct (write_pass_total cf id Hcap Hmod P c m1.(mo_state) t HPs HPc Hw1) as (w' & o & Hpass & _ & _ & Hb).
  destruct (@pass_through _ _ _ _ (write_monitor cf id) m1 k d t c w' o K1) as (m2 & A2 & S2 & K2); [by cbn; rewrite N1|exact Hpass|].
  exists m2, m1.(mo_state), w', o. split_and!; [by eapply alone_trans|exact S1|exact Hpass|exact S2|].
  destruct o as [t'|r]; [|done]. split; [by apply Hb|]. by eexists.
Qed.
(** Two goroutines write 60 bytes each under an in-flight cap of 100: the
    second waits, until half of what is in flight is acknowledged. *)
Definition wait_cfg : config := WithMaxDatagramSize 140 defaultConfig.
Definition wait_conn : traced := mkTraced [] [] 100 5.
Definition wait_call : write_wait := mkWait 0 (replicate 60 7) false 0.
Definition wait_sent : wside := match write_pass wait_cfg 3 wait_conn (newStream_write wait_cfg 1024) wait_call with Some (w, _) => w | None => newStream_write wait_cfg 1024 end.
Definition wait_writes : list mon_op :=
  [ MCall wait_call; MCall wait_call; MPass 0 wait_conn; MPass 1 wait_conn; MSide (creditAcked wait_sent 30) ].
Lemma wait_writes_ok : @mon_script _ _ _ _ (write_monitor wait_cfg 3) (mkMon (newStream_write wait_cfg 1024) (mkTimers ∅ 0 0) 5 []) wait_writes (λ m,
  m.(mo_threads) !! 0%nat = Some (Returned (60, None)) ∧ m.(mo_threads) !! 1%nat = Some (Asleep 0 zeroDT (mkWait 0 (replicate 60 7) false 60)) ∧
  m.(mo_now) = 5 ∧ m.(mo_state) = creditAcked wait_sent 30).
Proof.
  assert (from_now_on 3 5 wait_conn) as Hs.
  { exists (λ c, c.(tr_now) = 5). split_and!; [done| |]; [by intros c Hc; split_and!|by intros c Hc; cbn; rewrite Hc]. }
  split; [done|]. split; [done|]. split; [exact Hs|]. split; [exact Hs|]. vm_compute. split; [|done]. exact (sw_acked 3 wait_sent 30).
Qed.
Lemma blocked_write_resumes_witness : ∃ m m', writers_reach (C := traced) wait_cfg 3 1024 5 m ∧
  m.(mo_threads) !! 1%nat = Some (Asleep 0 zeroDT (mkWait 0 (replicate 60 7) false 60)) ∧
  @alone _ _ _ _ (write_monitor wait_cfg 3) 1 m m' ∧ m'.(mo_threads) !! 1%nat = Some (Returned (60, None)).
Proof.
  destruct (@mon_script_reach _ _ _ _ (write_monitor wait_cfg 3) (newStream_write wait_cfg 1024) 5 _ wait_writes _ (@mr_start _ _ _ _ (write_monitor wait_cfg 3) _ _) wait_writes_ok)
    as (m & Hr & H0 & H1 & H2 & H3).
  destruct (blocked_write_resumes wait_cfg 3 1024 5 m 1 _ _ _ wait_conn ltac:(split; vm_compute; naive_solver) Hr H1 (or_introl (ex_intro _ _ eq_refl)))
    as (m' & w1 & w' & o & A & W1 & Hp & _ & K).
  - rewrite H2. exists (λ c, c.(tr_now) = 5). split_and!; [done| |]; [by intros c Hc; split_and!|by intros c Hc; cbn; rewrite Hc].
  - rewrite H3. right. right. right. left. by vm_compute.
  - exists m, m'. split_and!; [done|done|done|]. rewrite H3 in W1.
    destruct W1 as [->| ->]; vm_compute in Hp; injection Hp as <- <-; exact K.
Defined.
