(* ===== verification/ConnBooks.v ===== *)
(** * The books of a connection

    How the pending frames of the retransmission queue relate to the streams
    that sent them: every pending frame belongs to a stream of the table, and
    what a stream counts as in flight is what the queue holds of it. *)
From S2P Require Import Prelude Errors Frame Options Ring StreamRecv Retransmit RetransmitSpec RetransmitRefine StreamSend.

(** ** The queue as a list of frames *)
Definition rq_holds (q : retransmitQueue) (loans : list bslice) (L : list pframe) : Prop :=
  ∃ l, rq_inv q l loans ∧ pending q l = L ∧ acked_u32 q.(ackedThrough).

(** what of a frame a resend keeps *)
Definition frame_key (f : pframe) : Z * Z * Z * list Z := (f.(p_ftype), f.(p_streamID), f.(p_seq), f.(p_bytes)).
Definition same_frames (L L' : list pframe) : Prop := frame_key <$> L' ≡ₚ frame_key <$> L.
#[export] Instance same_frames_preorder : PreOrder same_frames.
Proof.
  split; unfold same_frames; [intros L; reflexivity|]. intros L1 L2 L3 H1 H2. etrans; [exact H2|exact H1].
Qed.

Lemma same_frames_elem L L' f : same_frames L L' → f ∈ L' → ∃ g, g ∈ L ∧ frame_key g = frame_key f.
Proof.
  unfold same_frames. intros Hs Hf. assert (frame_key f ∈ frame_key <$> L) as Hk by (rewrite <- Hs; by apply list_elem_of_fmap_2).
  apply list_elem_of_fmap in Hk as (g & Hg & Hin). by exists g.
Qed.

(** frames are marked for a resend only if they are among the requests [R] *)
Definition resend_marks (R : list retransmitRequest) (L L' : list pframe) : Prop := ∀ f, f ∈ L' → f.(p_queued) = true →
  (∃ g, g ∈ L ∧ g.(p_queued) = true ∧ request_of g = request_of f) ∨ request_of f ∈ R.
Lemma resend_marks_sub R L L' : L' ⊆ L → resend_marks R L L'.
Proof. intros Hs f Hf Hq. left. exists f. split_and!; [by apply Hs|done|done]. Qed.
(** the mark of request [r] is taken off *)
Definition resend_unmarks (r : retransmitRequest) (L L' : list pframe) : Prop :=
  (∀ f, f ∈ L' → f.(p_queued) = true → f ∈ L ∧ request_of f ≠ r) ∧ (∀ f, f ∈ L → request_of f ≠ r → f ∈ L').

Definition of_stream (sid : Z) (L : list pframe) : list pframe := filter (λ f, f.(p_streamID) = sid) L.
(** the bytes of stream [sid] awaiting acknowledgement *)
Definition in_queue (sid : Z) (L : list pframe) : Z := sum_len (of_stream sid L).

Lemma in_queue_cons sid f L : in_queue sid (f :: L) = (if decide (f.(p_streamID) = sid) then Zlen f.(p_bytes) else 0) + in_queue sid L.
Proof. unfold in_queue, of_stream. rewrite filter_cons. case_decide; done. Qed.
Lemma in_queue_app sid L1 L2 : in_queue sid (L1 ++ L2) = in_queue sid L1 + in_queue sid L2.
Proof. induction L1 as [|f L1 IH]; [done|]. cbn [app]. rewrite !in_queue_cons, IH. lia. Qed.
Lemma in_queue_perm sid L L' : L ≡ₚ L' → in_queue sid L = in_queue sid L'.
Proof. induction 1; rewrite ?in_queue_cons; lia. Qed.
Lemma in_queue_nonneg sid L : 0 ≤ in_queue sid L.
Proof.
  induction L as [|f L IH]; [done|]. rewrite in_queue_cons. pose proof (Zlen_nonneg (p_bytes f)). case_decide; lia.
Qed.
Lemma in_queue_keys sid L :
  in_queue sid L = foldr (λ k a, (if decide (k.1.1.2 = sid) then Zlen k.2 else 0) + a) 0 (frame_key <$> L).
Proof. induction L as [|f L IH]; [done|]. rewrite in_queue_cons, IH. done. Qed.
Lemma in_queue_same sid L L' : same_frames L L' → in_queue sid L' = in_queue sid L.
Proof.
  unfold same_frames. rewrite !in_queue_keys. generalize (frame_key <$> L') (frame_key <$> L).
  induction 1; cbn [foldr]; lia.
Qed.
Lemma in_queue_purge sid sid' L : sid' ≠ sid → in_queue sid' (filter (λ f, f.(p_streamID) ≠ sid) L) = in_queue sid' L.
Proof.
  intros Hne. induction L as [|f L IH]; [done|]. rewrite filter_cons. case_decide as Hd; rewrite !in_queue_cons, IH; [done|].
  rewrite decide_False by congruence. done.
Qed.
Lemma in_queue_none sid L : (∀ f, f ∈ L → f.(p_streamID) ≠ sid) → in_queue sid L = 0.
Proof.
  intros Hn. induction L as [|f L IH]; [done|]. rewrite in_queue_cons, decide_False, IH; [done| |].
  - intros g Hg. apply Hn. by right.
  - apply Hn. by left.
Qed.

(** [b] bytes of stream [sid], in frames numbered in [N], were acknowledged *)
Definition acknowledged (sid : Z) (N : Z → Prop) (L L' : list pframe) (b : Z) : Prop :=
  (∀ f, f ∈ L' → f ∈ L) ∧ (∀ f, f ∈ L → f ∈ L' ∨ f.(p_streamID) = sid ∧ N f.(p_seq)) ∧
  0 ≤ b ∧ ∀ id, in_queue id L = in_queue id L' + (if decide (id = sid) then b else 0).

Lemma acknowledged_trans sid N L1 L2 L3 b1 b2 :
  acknowledged sid N L1 L2 b1 → acknowledged sid N L2 L3 b2 → acknowledged sid N L1 L3 (b1 + b2).
Proof.
  intros (H1 & K1 & H2 & H3) (H4 & K2 & H5 & H6). split_and!; [auto| |lia|].
  - intros f Hf. destruct (K1 f Hf) as [Hf2|?]; [auto|by right].
  - intros id. rewrite H3, H6. case_decide; lia.
Qed.
Lemma acknowledged_refl sid N L : acknowledged sid N L L 0.
Proof. split_and!; [done|by left|lia|]. intros id. case_decide; lia. Qed.
Lemma acknowledged_mono sid (N N' : Z → Prop) L L' b : (∀ s, N s → N' s) → acknowledged sid N L L' b → acknowledged sid N' L L' b.
Proof. intros HN (H1 & K1 & H2 & H3). split_and!; try done. intros f Hf. destruct (K1 f Hf) as [?|[? ?]]; auto. Qed.

Lemma s_ack_acknowledged sid now seqs L b r : keys_unique L →
  let '(L', b', _) := foldl (λ st seq, s_ack sid seq now st) (L, b, r) seqs in
  acknowledged sid (λ s, s ∈ seqs) L L' (b' - b).
Proof.
  revert L b r. induction seqs as [|seq seqs IH]; intros L b r Hu; cbn [foldl].
  { rewrite Z.sub_diag. apply acknowledged_refl. }
  assert (∀ s, s ∈ seqs → s ∈ seq :: seqs) as Hin by (intros; by right).
  cbn [s_ack]. destruct (s_lookup sid seq L) as [f|] eqn:Hl.
  2:{ specialize (IH L b r Hu). destruct (foldl _ _ seqs) as [[L' b'] r']. eapply acknowledged_mono; [exact Hin|exact IH]. }
  destruct (s_lookup_split _ _ _ _ Hu Hl) as [Hp [Hs Hq]].
  match goal with |- context [foldl _ (?L1, ?b1, ?r1) seqs] => specialize (IH L1 b1 r1 (keys_unique_filter _ _ Hu));
    destruct (foldl (λ st seq, s_ack sid seq now st) (L1, b1, r1) seqs) as [[L' b'] r'] end.
  replace (b' - b) with (Zlen (p_bytes f) + (b' - (b + Zlen (p_bytes f)))) by lia.
  eapply acknowledged_trans; [|eapply acknowledged_mono; [exact Hin|exact IH]]. split_and!.
  - intros g Hg. rewrite Hp. by right.
  - intros g Hg. rewrite Hp in Hg. apply elem_of_cons in Hg as [->|Hg]; [right|by left]. rewrite Hq. split; [done|by left].
  - apply Zlen_nonneg.
  - intros id. rewrite (in_queue_perm id _ _ Hp), in_queue_cons, Hs.
    destruct (decide (sid = id)), (decide (id = sid)); (congruence || lia).
Qed.

(** ** Operations of the queue *)
Section ops.
Context (q : retransmitQueue) (loans : list bslice) (L : list pframe) (HL : rq_holds q loans L).

Lemma holds_keys : keys_unique L.
Proof using HL. destruct HL as (l & Hi & <- & _). by eapply pending_keys. Qed.
Lemma holds_ids f : f ∈ L → is_u32 f.(p_streamID) ∧ is_u32 f.(p_seq).
Proof using HL.
  destruct HL as (l & Hi & <- & _). unfold pending. intros (p & -> & Hp)%list_elem_of_fmap. apply (ri_ids _ _ _ Hi p Hp).
Qed.

(** the entry map tells what is pending *)
Lemma holds_elem loans' L' f : rq_holds q loans' L' → f ∈ L → f ∈ L'.
Proof using HL.
  destruct HL as (l & Hi & <- & _). intros (l' & Hi' & <- & _). unfold pending. intros (p & -> & Hp)%list_elem_of_fmap.
  apply list_elem_of_fmap. exists p. split; [done|]. apply (ri_entries _ _ _ Hi' (key_of (node q p))). by apply (ri_entries _ _ _ Hi).
Qed.
Lemma holds_hasStream sid : hasStream q sid = false → ∀ f, f ∈ L → f.(p_streamID) ≠ sid.
Proof using HL.
  destruct HL as (l & Hi & <- & _). unfold pending. intros Hh f (p & -> & Hp)%list_elem_of_fmap Hs.
  assert (hasStream q sid = true) as Ht; [|congruence]. apply existsb_exists. exists (key_of (node q p), p).
  split; [|by apply bool_decide_true]. apply list_elem_of_In, elem_of_map_to_list. by apply (ri_entries _ _ _ Hi).
Qed.

Lemma holds_add ft sid seq p now : is_u32 sid → is_u32 seq → (∀ f, f ∈ L → f.(p_streamID) = sid → f.(p_seq) ≠ seq) →
  let '(q', s) := add q ft sid seq p now in
  rq_holds q' loans (s_add ft sid seq p now L) ∧ slice_bytes q'.(arena) s = p.
Proof using HL.
  intros Hsid Hseq Hno. destruct HL as (l & Hi & HpL & Ha). subst L.
  destruct (add_spec q l loans ft sid seq p now Hi Hsid Hseq) as (q' & e & s & -> & Hi' & Hp & Hb & _ & _ & Hat & _).
  { unfold s_lookup. rewrite filter_none; [done|]. intros f Hf [H1 H2]. by eapply Hno. }
  split; [|done]. exists (l ++ [e]). by rewrite Hp, Hat.
Qed.

Lemma holds_purge sid order : map_order q order →
  rq_holds (purgeStream q sid order) loans (filter (λ f, f.(p_streamID) ≠ sid) L).
Proof using HL.
  intros Ho. destruct HL as (l & Hi & HpL & Ha). subst L.
  destruct (purgeStream_spec q l loans sid order Hi Ho) as (l' & Hi' & Hp & _ & Hat & _).
  exists l'. rewrite Hp, Hat. split_and!; [done|done|by apply map_Forall_delete].
Qed.

Lemma holds_drain : rq_holds (drainPendingFree q) loans L.
Proof using HL.
  destruct HL as (l & Hi & HpL & Ha). subst L. destruct (drainPendingFree_spec q l loans Hi) as (Hi' & Hp & _). by exists l.
Qed.

Lemma holds_ackMany sid seqs now : is_u32 sid → Forall is_u32 seqs →
  let '(q', b, _) := ackMany q sid seqs now in ∃ L', rq_holds q' loans L' ∧ acknowledged sid (λ s, s ∈ seqs) L L' b.
Proof using HL.
  intros Hsid Hseqs. destruct HL as (l & Hi & HpL & Ha). pose proof holds_keys as Hu. subst L.
  destruct (ackLoop_spec seqs q l loans sid now 0 0 Hi Hsid Hseqs) as (q' & l' & b & r & E1 & Hi' & (_ & Hat & _) & E2).
  unfold ackMany. rewrite E1. exists (pending q' l'). cbn in Hat. split; [exists l'; by rewrite Hat|].
  pose proof (s_ack_acknowledged sid now seqs (pending q l) 0 0 Hu) as Hk. rewrite E2, Z.sub_0_r in Hk. done.
Qed.

Lemma holds_ackCumulative sid cum now : is_u32 sid → is_u32 cum →
  let '(q', b, _) := ackCumulative q sid cum now in ∃ L', rq_holds q' loans L' ∧ acknowledged sid (λ s, s < cum) L L' b.
Proof using HL.
  intros Hsid Hcum. unfold ackCumulative. destruct (_ || _).
  { exists L. split; [done|apply acknowledged_refl]. }
  destruct HL as (l & Hi & HpL & Ha). pose proof holds_keys as Hu. subst L. set (from := default 0 _).
  assert (is_u32 from) as Hf. { unfold from. destruct (ackedThrough q !! sid) eqn:Hx; [by apply (Ha sid)|done]. }
  destruct (ackLoop_spec (seqZ from (cum - from)) q l loans sid now 0 0 Hi Hsid (seqZ_u32 _ _ Hf Hcum))
    as (q' & l' & b & r & E1 & Hi' & (_ & Hat & _) & E2).
  rewrite E1. exists (pending q' l'). cbn in Hat. split.
  - exists l'. split_and!; [|done|cbn; rewrite Hat; by apply map_Forall_insert_2].
    destruct Hi' as [[] ???????]. split; done.
  - pose proof (s_ack_acknowledged sid now (seqZ from (cum - from)) (pending q l) 0 0 Hu) as Hk. rewrite E2, Z.sub_0_r in Hk.
    eapply acknowledged_mono; [|exact Hk]. intros s [_ Hs]%elem_of_seqZ. lia.
Qed.

Lemma s_mark_same sid seq K : same_frames K (s_mark sid seq K).
Proof.
  unfold same_frames, s_mark. rewrite <- list_fmap_compose. apply Permutation_refl'. apply list_fmap_ext.
  intros i f _. cbn. by case_decide.
Qed.

Lemma s_mark_marks sid seq K : resend_marks [mkRequest sid seq] K (s_mark sid seq K).
Proof.
  intros f (g & -> & Hg)%list_elem_of_fmap. case_decide as Hd; [|left; by exists g]. intros _. right. destruct Hd as [<- <-]. by left.
Qed.

Lemma holds_request sid seq minAge now : is_u32 sid → is_u32 seq →
  let '(q', r) := requestForResend q sid seq minAge now in
  (∃ L', rq_holds q' loans L' ∧ same_frames L L' ∧ resend_marks (option_list r) L L') ∧ (r = None ∨ r = Some (mkRequest sid seq)).
Proof using HL.
  intros Hsid Hseq. destruct HL as (l & Hi & HpL & Ha). subst L.
  pose proof (requestForResend_spec q l loans sid seq minAge now Hi Hsid Hseq) as Hr.
  destruct (requestForResend q sid seq minAge now) as [q' r]. destruct Hr as (Hi' & (_ & Hat & _) & Hr). cbn in Hat.
  assert (r = None ∧ q' = q ∨ r = Some (mkRequest sid seq) ∧ pending q' l = s_mark sid seq (pending q l)) as [[-> ->]|[-> Hp]].
  { destruct (s_lookup sid seq (pending q l)); [destruct (_ || _)|]; tauto. }
  - split; [|by left]. exists (pending q l). split_and!; [by exists l|done|by apply resend_marks_sub].
  - split; [|by right]. exists (pending q' l). split; [exists l; by rewrite Hat|]. rewrite Hp. split; [apply s_mark_same|apply s_mark_marks].
Qed.

Lemma s_due_same rto now K : same_frames K (s_due rto now K).1 ∧
  Forall (λ r, ∃ f, f ∈ K ∧ f.(p_streamID) = r.(req_streamID) ∧ f.(p_seq) = r.(req_seq)) (s_due rto now K).2.
Proof.
  unfold same_frames. induction K as [|f K IH]; cbn [s_due]; [done|]. case_bool_decide; [done|].
  destruct (s_due rto now K) as [K' rs]. cbn [fst snd] in *. destruct IH as [IH1 IH2]. split.
  - rewrite !fmap_cons. by rewrite IH1.
  - assert (Forall (λ r, ∃ g, g ∈ f :: K ∧ g.(p_streamID) = r.(req_streamID) ∧ g.(p_seq) = r.(req_seq)) rs) as Hrs.
    { eapply Forall_impl; [exact IH2|]. intros r (g & Hg & ?). exists g. split; [by right|done]. }
    destruct (p_queued f); [done|]. constructor; [|done]. exists f. split; [by left|done].
Qed.

Lemma s_due_marks rto now K : resend_marks (s_due rto now K).2 K (s_due rto now K).1.
Proof.
  induction K as [|f K IH]; cbn [s_due]; [by apply resend_marks_sub|]. case_bool_decide; [by apply resend_marks_sub|].
  destruct (s_due rto now K) as [K' rs]. cbn [fst snd] in *. intros g [->|Hg]%elem_of_cons Hq.
  - destruct (p_queued f) eqn:Hf; [left; exists f; by split_and!; [left|..]|right; by left].
  - destruct (IH g Hg Hq) as [(h & Hh & ?)|?]; [left; exists h; split; [by right|done]|right]. destruct (p_queued f); [done|by right].
Qed.
(** frames that are old, behind nothing younger, are marked *)
Lemma s_due_old rto now K1 f K2 : Forall (λ g, rto ≤ time_Sub now g.(p_sentAt)) (K1 ++ [f]) →
  ∃ g, g ∈ (s_due rto now (K1 ++ f :: K2)).1 ∧ frame_key g = frame_key f ∧ g.(p_queued) = true.
Proof.
  induction K1 as [|h K1 IH]; cbn [app]; intros [H1 H2]%Forall_cons; cbn [s_due]; rewrite bool_decide_false by lia.
  - destruct (s_due rto now K2) as [K' rs]. cbn. eexists. split_and!; [by left|done|done].
  - destruct (IH H2) as (g & Hg & ?). destruct (s_due rto now (K1 ++ f :: K2)) as [K' rs]. cbn in *. exists g. split; [by right|done].
Qed.

Lemma holds_due rto now : ∃ q' rs L', due q rto now = Some (q', rs) ∧ rq_holds q' loans L' ∧ same_frames L L' ∧ resend_marks rs L L' ∧
  L' = (s_due rto now L).1 ∧ Forall (λ r, is_u32 r.(req_streamID) ∧ is_u32 r.(req_seq)) rs.
Proof using HL.
  destruct HL as (l & Hi & HpL & Ha). pose proof holds_ids as Hids. subst L.
  destruct (due_spec q l loans rto now Hi) as (q' & E1 & Hi' & (_ & Hat & _) & Hp). cbn in Hat.
  destruct (s_due_same rto now (pending q l)) as [Hs Hr].
  eexists q', _, (pending q' l). split_and!; [exact E1|exists l; by rewrite Hat|by rewrite Hp|rewrite Hp; apply s_due_marks|done|].
  eapply Forall_impl; [exact Hr|]. intros r (f & Hf & <- & <-). by apply Hids.
Qed.

Lemma s_resend_same sid seq now K f : keys_unique K → s_lookup sid seq K = Some f → same_frames K (s_resend sid seq now K).
Proof.
  intros Hu Hl. destruct (s_lookup_split _ _ _ _ Hu Hl) as [Hp _]. unfold same_frames, s_resend. rewrite Hl.
  rewrite Hp at 2. rewrite fmap_app. cbn. by rewrite Permutation_app_comm.
Qed.

Lemma s_resend_unmarks sid seq now K : s_lookup sid seq K ≠ None → resend_unmarks (mkRequest sid seq) K (s_resend sid seq now K).
Proof.
  unfold s_resend, s_remove. destruct (s_lookup sid seq K) as [f|]; [|done]. intros _. split.
  - intros g [[Hn Hg]%list_elem_of_filter|Hg%list_elem_of_singleton]%elem_of_app Hq; [|by subst g]. split; [done|]. intros [= H1 H2]. by apply Hn.
  - intros g Hg Hn. apply elem_of_app. left. apply list_elem_of_filter. split; [|done]. intros [<- <-]. by apply Hn.
Qed.
Lemma unmarked_lookup req K : keys_unique K →
  match s_lookup req.(req_streamID) req.(req_seq) K with Some f => f.(p_queued) = false | None => True end →
  ∀ f, f ∈ K → f.(p_queued) = true → request_of f ≠ req.
Proof.
  intros Hu Hl f Hf Hq <-. cbn in Hl. destruct (s_lookup (p_streamID f) (p_seq f) K) as [g|] eqn:Hg.
  - destruct (s_lookup_split _ _ _ _ Hu Hg) as [Hp _]. rewrite Hp in Hf. apply elem_of_cons in Hf as [->|Hf]; [congruence|].
    unfold s_remove in Hf. apply list_elem_of_filter in Hf as [Hn _]. by apply Hn.
  - apply s_lookup_None in Hg. rewrite <- Hg in Hf. unfold s_remove in Hf. apply list_elem_of_filter in Hf as [Hn _]. by apply Hn.
Qed.
Lemma holds_peek req : is_u32 req.(req_streamID) → is_u32 req.(req_seq) → peekForResend q req = None →
  ∀ f, f ∈ L → f.(p_queued) = true → request_of f ≠ req.
Proof using HL.
  intros Hsid Hseq. destruct HL as (l & Hi & HpL & Ha). pose proof holds_keys as Hu. subst L.
  rewrite (peekForResend_spec q l loans req Hi Hsid Hseq). intros Hp. apply unmarked_lookup; [done|].
  destruct (s_lookup _ _ _) as [f|]; [|done]. by destruct (p_queued f).
Qed.

Lemma holds_take req now : is_u32 req.(req_streamID) → is_u32 req.(req_seq) →
  match takeForResend q req now with
  | (q', None) => q' = q ∧ ∀ f, f ∈ L → f.(p_queued) = true → request_of f ≠ req
  | (q', Some x) => ∃ s L' f, x.(e_data) = Some s ∧ rq_holds q' (s :: loans) L' ∧ same_frames L L' ∧ resend_unmarks req L L' ∧ f ∈ L ∧ request_of f = req ∧
      frame_key f = (x.(e_ftype), x.(e_streamID), x.(e_seq), slice_bytes q'.(arena) s)
  end.
Proof using HL.
  intros Hsid Hseq. destruct HL as (l & Hi & HpL & Ha). pose proof holds_keys as Hu. subst L.
  pose proof (takeForResend_spec q l loans req now Hi Hsid Hseq) as Ht.
  destruct (s_lookup _ _ (pending q l)) as [f|] eqn:Hl; [|rewrite Ht; split; [done|by apply (unmarked_lookup req (pending q l) Hu); rewrite Hl]].
  destruct (p_queued f) eqn:Hqf; [|rewrite Ht; split; [done|by apply (unmarked_lookup req (pending q l) Hu); rewrite Hl]].
  destruct Ht as (q' & l' & x & s & -> & Hd & Hi' & Hp & Hv & _ & Hat & _).
  exists s, (pending q' l'), f. split_and!; [done| | | | | |].
  - exists l'. by rewrite Hat.
  - rewrite Hp. by eapply s_resend_same.
  - rewrite Hp. destruct req as [rsid rseq]. cbn in *. apply s_resend_unmarks. by rewrite Hl.
  - unfold s_lookup in Hl. assert (f ∈ filter (is_frame (req_streamID req) (req_seq req)) (pending q l)) as Hf.
    { destruct (filter _ _); [done|]. injection Hl as ->. by left. }
    by apply list_elem_of_filter in Hf as [_ Hf].
  - destruct (s_lookup_split _ _ _ _ Hu Hl) as [_ [Hf1 Hf2]]. unfold request_of. destruct req. cbn in *. congruence.
  - apply (f_equal frame_key) in Hv. unfold view, frame_key in *. cbn in Hv. rewrite Hd in Hv. done.
Qed.
End ops.

Lemma holds_release q s loans L : rq_holds q (s :: loans) L → rq_holds (releaseResendCopy q s) loans L.
Proof.
  intros (l & Hi & HpL & Ha). subst L. destruct (releaseResendCopy_spec q l loans s Hi) as (Hi' & Hp & _). by exists l.
Qed.
Lemma holds_new maxPayload : 0 ≤ maxPayload → rq_holds (newRetransmitQueue maxPayload) [] [].
Proof. intros Hm. exists []. split_and!; [by apply rq_inv_new|done|apply map_Forall_empty]. Qed.

(** ** The books *)

(** frame [f] is one of write side [w]'s *)
Definition owned (w : wside) (f : pframe) : Prop :=
  f.(p_seq) < w.(writeSeq) ∨ w.(writeFIN) = true ∧ f.(p_seq) = w.(writeSeq).

Record books (S : gmap Z Stream) (L : list pframe) : Prop := mkBooks {
  bk_owner f : f ∈ L → ∃ st, S !! f.(p_streamID) = Some st ∧ owned st.(st_write) f;
  bk_ids id st : S !! id = Some st → is_u32 id ∧ is_u32 st.(st_write).(writeSeq);
  bk_bytes id st : S !! id = Some st → st.(st_write).(writeErr) = None → bytesInFlightLocked st.(st_write) = in_queue id L;
}.

Lemma books_same S L L' : same_frames L L' → books S L → books S L'.
Proof.
  intros Hs [B1 B2 B3]. split; [|done|].
  - intros f Hf. destruct (same_frames_elem L L' f Hs Hf) as (g & Hg & Hk).
    destruct (B1 g Hg) as (st & Hst & Ho). unfold frame_key in Hk. injection Hk as _ <- Hseq _. exists st. unfold owned in *. by rewrite <- Hseq.
  - intros id st Hst He. rewrite (in_queue_same id L L' Hs). auto.
Qed.

(** the read side of a stream does not matter *)
Lemma books_read S L id st r : S !! id = Some st → books S L → books (<[id := mkStream r st.(st_write)]> S) L.
Proof.
  intros Hst [B1 B2 B3]. split.
  - intros f Hf. destruct (B1 f Hf) as (st' & Hst' & Ho). destruct (decide (p_streamID f = id)) as [Hid|Hid].
    + exists (mkStream r (st_write st)). rewrite Hid, lookup_insert_eq. split; [done|]. rewrite Hid in Hst'. by simplify_eq.
    + exists st'. by rewrite lookup_insert_ne.
  - intros id' st' [[<- <-]|[_ H]]%lookup_insert_Some; [exact (B2 id st Hst)|exact (B2 id' st' H)].
  - intros id' st' [[<- <-]|[_ H]]%lookup_insert_Some; [exact (B3 id st Hst)|exact (B3 id' st' H)].
Qed.

(** a change of the write side that keeps its numbers *)
Lemma books_write S L id st r w :
  S !! id = Some st → books S L → w.(writeSeq) = st.(st_write).(writeSeq) →
  (st.(st_write).(writeFIN) = true → w.(writeFIN) = true) →
  (w.(writeErr) = None → st.(st_write).(writeErr) = None ∧ bytesInFlightLocked w = bytesInFlightLocked st.(st_write)) →
  books (<[id := mkStream r w]> S) L.
Proof.
  intros Hst [B1 B2 B3] Hseq Hfin Herr. split.
  - intros f Hf. destruct (B1 f Hf) as (st' & Hst' & Ho). destruct (decide (p_streamID f = id)) as [Hid|Hid].
    + exists (mkStream r w). rewrite Hid, lookup_insert_eq. split; [done|]. rewrite Hid in Hst'. simplify_eq.
      unfold owned in *. cbn. rewrite Hseq. destruct Ho as [?|[? ?]]; [by left|right; auto].
    + exists st'. by rewrite lookup_insert_ne.
  - intros id' st' [[<- <-]|[_ H]]%lookup_insert_Some; [cbn; rewrite Hseq; exact (B2 id st Hst)|exact (B2 id' st' H)].
  - intros id' st' [[<- <-]|[_ H]]%lookup_insert_Some He; [|by apply B3]. cbn in *.
    destruct (Herr He) as [He' ->]. exact (B3 id st Hst He').
Qed.

(** a new stream owes nothing *)
Lemma books_open S L id st : S !! id = None → is_u32 id → is_u32 st.(st_write).(writeSeq) →
  bytesInFlightLocked st.(st_write) = 0 → books S L → books (<[id := st]> S) L.
Proof.
  intros Hno Hid Hseq Hz [B1 B2 B3].
  assert (∀ f, f ∈ L → p_streamID f ≠ id) as Hn. { intros f Hf Hid'. destruct (B1 f Hf) as (? & Hx & _). rewrite Hid' in Hx. congruence. }
  split.
  - intros f Hf. destruct (B1 f Hf) as (st' & Hst' & Ho). exists st'. rewrite lookup_insert_ne; [done|]. by apply not_eq_sym, Hn.
  - intros id' st' [[<- <-]|[_ H]]%lookup_insert_Some; [done|by apply B2].
  - intros id' st' [[<- <-]|[_ H]]%lookup_insert_Some He; [|by apply B3]. by rewrite in_queue_none.
Qed.

(** a removed stream's frames are purged *)
Lemma books_remove S L id : books S L → books (delete id S) (filter (λ f, f.(p_streamID) ≠ id) L).
Proof.
  intros [B1 B2 B3]. split.
  - intros f [Hne Hf]%list_elem_of_filter. destruct (B1 f Hf) as (st & Hst & Ho). exists st. by rewrite lookup_delete_ne.
  - intros id' st' [_ H]%lookup_delete_Some. by apply B2.
  - intros id' st' [Hne H]%lookup_delete_Some He. rewrite in_queue_purge by done. by apply B3.
Qed.

Definition fresh_seq (id seq : Z) (L : list pframe) : Prop := ∀ f, f ∈ L → f.(p_streamID) = id → f.(p_seq) ≠ seq.
Lemma books_fresh S L id st : books S L → S !! id = Some st → st.(st_write).(writeFIN) = false → fresh_seq id st.(st_write).(writeSeq) L.
Proof.
  intros [B1 _ _] Hst Hfin f Hf <- Heq. destruct (B1 f Hf) as (st' & Hst' & Ho). simplify_eq.
  destruct Ho as [?|[? _]]; [lia|congruence].
Qed.

(** one more frame of stream [id], whose write side becomes [w] *)
Lemma books_sent S L id st r w ft seq p now :
  S !! id = Some st → books S L → is_u32 w.(writeSeq) → st.(st_write).(writeSeq) ≤ w.(writeSeq) →
  (st.(st_write).(writeFIN) = true → w.(writeFIN) = true ∧ w.(writeSeq) = st.(st_write).(writeSeq)) →
  owned w (mkPframe ft id seq p now 0 false) →
  (w.(writeErr) = None → st.(st_write).(writeErr) = None ∧ bytesInFlightLocked w = bytesInFlightLocked st.(st_write) + Zlen p) →
  books (<[id := mkStream r w]> S) (s_add ft id seq p now L).
Proof.
  intros Hst [B1 B2 B3] Hu Hle Hfin Hown Herr. unfold s_add. split.
  - intros f [Hf|Hf%list_elem_of_singleton]%elem_of_app; [|subst f; exists (mkStream r w); by rewrite lookup_insert_eq].
    destruct (B1 f Hf) as (st' & Hst' & Ho). destruct (decide (p_streamID f = id)) as [Hid|Hid].
    + exists (mkStream r w). rewrite Hid, lookup_insert_eq. split; [done|]. rewrite Hid in Hst'. simplify_eq.
      unfold owned in *. cbn. destruct Ho as [?|[Hf1 Hf2]]; [left; lia|]. destruct (Hfin Hf1) as [? ?]. right. split; [done|lia].
    + exists st'. by rewrite lookup_insert_ne.
  - intros id' st' [[<- <-]|[_ H]]%lookup_insert_Some; [split; [by apply (B2 id st)|done]|by apply B2].
  - intros id' st' [[<- <-]|[Hne H]]%lookup_insert_Some He; rewrite in_queue_app, in_queue_cons; cbn [p_streamID p_bytes]; cbn in He.
    + rewrite decide_True by done. destruct (Herr He) as [He' Hb]. cbn [st_write]. rewrite Hb, (B3 id st Hst He'). unfold in_queue at 3. cbn. lia.
    + rewrite decide_False by done. rewrite (B3 id' st' H He). unfold in_queue at 3. cbn. lia.
Qed.

(** acknowledged bytes are credited *)
Lemma books_acked S L L' id N b : books S L → acknowledged id N L L' b →
  (∀ st, S !! id = Some st → books (<[id := mkStream st.(st_read) (creditAcked st.(st_write) b)]> S) L') ∧
  (S !! id = None ∨ b = 0 → books S L').
Proof.
  intros [B1 B2 B3] (Hsub & _ & Hb & Hq). split.
  - intros st Hst. split.
    + intros f Hf. destruct (B1 f (Hsub f Hf)) as (st' & Hst' & Ho). destruct (decide (p_streamID f = id)) as [Hid|Hid].
      * eexists. rewrite Hid, lookup_insert_eq. split; [done|]. rewrite Hid in Hst'. simplify_eq.
        unfold creditAcked. cbn. by case_bool_decide.
      * exists st'. by rewrite lookup_insert_ne.
    + intros id' st' [[<- <-]|[_ H]]%lookup_insert_Some; [|by apply B2]. unfold creditAcked. cbn. case_bool_decide; by apply (B2 id st).
    + intros id' st' [[<- <-]|[Hne H]]%lookup_insert_Some He.
      * specialize (Hq id). rewrite decide_True in Hq by done. unfold creditAcked in *. cbn in *.
        case_bool_decide; unfold bytesInFlightLocked in *; cbn in *; pose proof (B3 id st Hst He) as Hx; unfold bytesInFlightLocked in Hx; lia.
      * specialize (Hq id'). rewrite decide_False in Hq by done. rewrite (B3 id' st' H He). lia.
  - intros Hno. split; [|done|].
    + intros f Hf. by apply B1, Hsub.
    + intros id' st' H He. rewrite (B3 id' st' H He), Hq. case_decide as Hd; [|lia]. subst id'. destruct Hno; [congruence|lia].
Qed.
