(* ===== verification/ConnInv.v ===== *)
(** * The invariant of a connection

    [conn_ok]: the retransmission queue holds exactly what the streams count
    as in flight; every datagram on the wire carries what a stream handed
    over under that number, or is a control frame; the send path has not
    panicked; the stream table keeps to its limit and to the two halves of
    the id space.

    The proofs are about [ok_with], which adds what the peer makes of it: the
    ACK frames say only what they may ([cl_ack]), and every frame a stream
    handed over is in the queue until it is settled ([cl_settled]) or its
    stream reset.  [conn_ok] is the case in which nothing is claimed. *)
From S2P Require Import Prelude Errors Frame Float64 Pacer Options Ring StreamRecv Retransmit RetransmitSpec RetransmitRefine.
From S2P Require Import StreamSend SendRule Estimator SendBatch BatchInv SendFifo Connection ConnLemmas ConnBooks.

(** what the theorems ask of the environment *)
Record env_ok (E : cenv) : Prop := mkEnvOk {
  eo_tx : tx_env_ok E.(ce_tx);
  eo_payload : maxPayload (tx_cfg E.(ce_tx)) < 2 ^ 32;
  eo_entries m : E.(ce_range_entries) m ≡ₚ map_to_list m;
}.

(** ** What acknowledgements claim *)
Record claims := mkClaims {
  cl_ack : Z → Z → list Z → Prop;   (* what an ACK frame of a stream may say *)
  cl_settled : Z → Z → Prop;        (* the frames that need not be sent again *)
  cl_hand : list retransmitRequest; (* the requests on their way to or from the queue of requests *)
}.
Definition no_claims : claims := mkClaims (λ _ _ _, True) (λ _ _, True) [].

(** the frame a resend needs, if one is owed *)
Definition owed (x : sent) : option (Z * Z * list Z) :=
  match x with
  | SentData seq p _ => Some (frameData, seq, p)
  | SentReliable ft seq p => Some (ft, seq, p)
  | SentFec _ _ _ _ _ => None
  end.
(** stream [sid] was reset *)
Definition aborted (log : list (Z * sent)) (sid : Z) : Prop := ∃ seq p, (sid, SentReliable frameStreamReset seq p) ∈ log.
Lemma aborted_mono log log' sid : log ⊆ log' → aborted log sid → aborted log' sid.
Proof. intros Hl (seq & p & Hx). exists seq, p. by apply Hl. Qed.

Section inv.
Context (E : cenv) (HE : env_ok E) {Cl : claims}.
#[local] Abbreviation X := (ce_tx E).
#[local] Abbreviation cf := (tx_cfg (ce_tx E)).
Implicit Types (c : Connection) (log : list (Z * sent)) (L : list pframe) (S : gmap Z Stream).

(** ** The wire *)
Definition control_type (t : Z) : Prop :=
  t ∈ [frameWindowUpdate; framePing; framePong; frameGoAway; frameACK; frameHandshake; frameStopSending; frameNack].

(** parity, and the frames that end a direction *)
Definition parity_type (t : Z) : Prop := t = frameFEC ∨ t = frameFECRow.
Definition last_type (t : Z) : Prop := t = frameStreamFIN ∨ t = frameStreamReset.

(** ids this side allots *)
Definition own (id : Z) : bool := Bool.eqb (Z.rem id 2 =? 1) E.(ce_isClient).

(** a stream handed over DATA frame [seq] with payload [p] *)
Definition sent_data log (sid seq : Z) (p : list Z) : Prop := ∃ e, (sid, SentData seq p e) ∈ log.
Definition op_logged log (op : tx_op) : Prop :=
  match op with
  | TxData sid seq p => sent_data log sid seq p
  | TxFec ft sid base count xl data => parity_type ft ∧ (sid, SentFec ft base count xl data) ∈ log
  | TxReliable ft sid seq p => last_type ft ∧ (sid, SentReliable ft seq p) ∈ log
  | TxResend ft sid seq p => ft = frameData ∧ sent_data log sid seq p ∨ last_type ft ∧ (sid, SentReliable ft seq p) ∈ log
  | TxControl ft _ _ => control_type ft
  | TxReset sid _ => is_u32 sid ∧ own sid = false         (* only streams the peer opened are refused *)
  | _ => True
  end.
Definition from_streams log (d : list Z) : Prop := ∃ op, d ∈ frame_of X op ∧ op_fits X op ∧ op_logged log op.
Definition op_claims (op : tx_op) : Prop :=
  match op with TxAck sid cum seqs | TxAckNow sid cum seqs => cl_ack Cl sid cum seqs | _ => True end.
Definition told_by log (d : list Z) : Prop := ∃ op, d ∈ frame_of X op ∧ op_fits X op ∧ op_logged log op ∧ op_claims op.
Definition wire_inv log (x : option tx) : Prop := ∃ s D, x = Some s ∧ BatchInv.st X D s ∧ Forall (told_by log) D.

Lemma told_from log D : Forall (told_by log) D → Forall (from_streams log) D.
Proof. intros HD. eapply Forall_impl; [exact HD|]. intros d (op & H1 & H2 & H3 & _). by exists op. Qed.

Lemma sent_data_mono log log' sid seq p : log ⊆ log' → sent_data log sid seq p → sent_data log' sid seq p.
Proof. intros Hl (e & He). exists e. by apply Hl. Qed.
Lemma op_logged_mono log log' op : log ⊆ log' → op_logged log op → op_logged log' op.
Proof.
  intros Hl. destruct op; cbn; try done; [by apply sent_data_mono|intros [? ?]; split; [done|by apply Hl]..|].
  intros [[? ?]|[? ?]]; [left; split; [done|by eapply sent_data_mono]|right; split; [done|by apply Hl]].
Qed.
Lemma wire_inv_mono log log' x : log ⊆ log' → wire_inv log x → wire_inv log' x.
Proof.
  intros Hl (s & D & Hx & Hs & HD). exists s, D. split_and!; [done..|]. eapply Forall_impl; [exact HD|].
  intros d (op & Hd & Hf & Ho & Hc). exists op. split_and!; [done..|by eapply op_logged_mono|done].
Qed.

(** a send operation whose datagrams, if they are queued, are accounted for *)
Definition wire_safe log (m : T unit) : Prop :=
  ∀ s D, BatchInv.st X D s → Forall (told_by log) D →
    ∃ s' r D', m s = Some (s', r) ∧ BatchInv.st X D' s' ∧ Forall (told_by log) D'.

Lemma wire_safe_op log op : op_fits X op → op_logged log op → op_claims op → wire_safe log (tx_exec X op).
Proof using HE.
  intros Hfit Hlog Hcl s D Hs HD. destruct (tx_exec_spec X (eo_tx _ HE) D op Hfit s Hs) as (s' & r & Hx & Hr).
  destruct Hr as [Hr|[_ Hr]]; [exists s', r, (D ++ frame_of X op)|exists s', r, D]; split_and!; try done.
  apply Forall_app. split; [done|]. apply Forall_forall. intros d Hd. by exists op.
Qed.

Lemma wire_safe_nacks log sid seqs : wire_safe log (sendNackFrames X sid seqs).
Proof using HE.
  intros s D Hs HD. unfold sendNackFrames, forEachSeqListChunk.
  set (visit := λ chunk st, _). set (m := maxAckSeqsPerFrame (maxPayload cf)).
  destruct (decide (m ≤ 0)) as [Hm|Hm]; [rewrite bool_decide_true by done; by eexists _, _, D|]. rewrite bool_decide_false by done.
  destruct (chunk_loop_ok visit m ltac:(lia) (length seqs) seqs ltac:(lia)) as (chunks & _ & Hb & ->).
  pose proof (eo_payload _ HE) as H32.
  assert (∀ s D, BatchInv.st X D s → Forall (told_by log) D → ∃ s' e D',
    visit_all visit chunks (Some s) = (Some s', e) ∧ BatchInv.st X D' s' ∧ Forall (told_by log) D') as Hv.
  { clear Hs HD s D. induction Hb as [|ch chunks Hch _ IH]; intros s D Hs HD; [by exists s, None, D|]. cbn [visit_all].
    assert (op_fits X (TxNack sid ch)) as Hfit.
    { cbn. unfold m, maxAckSeqsPerFrame in *. Z.to_euclidean_division_equations; lia. }
    destruct (wire_safe_op log (TxNack sid ch) Hfit I I s D Hs HD) as (s1 & r & D1 & H1 & Hs1 & HD1). cbn [tx_exec] in H1.
    unfold visit at 1. rewrite H1. destruct r as [[]|e]; [by eapply IH|by exists s1, (Some e), D1]. }
  destruct (Hv s D Hs HD) as (s1 & e & D1 & -> & Hs1 & HD1). destruct e as [e|]; [by eexists _, _, D1|].
  exact (wire_safe_op log TxFlush I I I s1 D1 Hs1 HD1).
Qed.

(** ** The invariant *)

(** a pending frame: a stream's, and small enough to be sent again *)
Definition kept_frame log (f : pframe) : Prop :=
  op_logged log (TxResend f.(p_ftype) f.(p_streamID) f.(p_seq) f.(p_bytes)) ∧
  frameHdrLen X f.(p_ftype) + Zlen f.(p_bytes) ≤ maxDatagram cf.

(** every frame that is owed is pending, settled, or of a stream that was reset *)
Definition covered log L : Prop := ∀ sid x ft seq p, (sid, x) ∈ log → owed x = Some (ft, seq, p) →
  (ft, sid, seq, p) ∈ frame_key <$> L ∨ cl_settled Cl sid seq ∨ aborted log sid.

(** every frame marked as waiting for the worker is among the requests [B] *)
Definition waited (B : list retransmitRequest) L : Prop := ∀ f, f ∈ L → f.(p_queued) = true → request_of f ∈ B ++ cl_hand Cl.

(** a queue [q] with the history [log], the requests [B] and the streams [S] *)
Definition accounted log (B : list retransmitRequest) L : Prop := covered log L ∧ waited B L.
Definition queue_books q (loans : list bslice) log B S (nil : bool) : Prop :=
  ∃ L, rq_holds q loans L ∧ Forall (kept_frame log) L ∧ accounted log B L ∧ (nil = false → books S L).
Definition queue_inv c : Prop := queue_books c.(cn_rq) [] c.(cn_log) (backlog c) c.(cn_streams) c.(cn_nil).
Record table_inv c : Prop := mkTableInv {
  ti_nil : c.(cn_nil) = true → c.(cn_streams) = ∅;
  ti_lanes : map_Forall (λ _ st, lanes_small cf st.(st_write)) c.(cn_streams);
  ti_size : Z.of_nat (size c.(cn_streams)) ≤ Z.max 0 cf.(maxStreams);
  ti_next : is_u32 c.(cn_nextStream) ∧ own c.(cn_nextStream) = true;
  ti_own id : id ∈ dom c.(cn_streams) → own id = true → id < c.(cn_nextStream);
  ti_head : head_ok c;
  ti_backlog : Forall (λ r, is_u32 r.(req_streamID) ∧ is_u32 r.(req_seq)) (backlog c);
}.
Record ok_with c : Prop := mkConnOk {
  ck_queue : queue_inv c;
  ck_wire : wire_inv c.(cn_log) c.(cn_tx);
  ck_table : table_inv c;
}.

Lemma kept_frame_key log f g : frame_key f = frame_key g → kept_frame log f → kept_frame log g.
Proof. unfold frame_key. intros [= H1 H2 H3 H4]. unfold kept_frame. by rewrite H1, H2, H3, H4. Qed.
Lemma kept_same log L L' : same_frames L L' → Forall (kept_frame log) L → Forall (kept_frame log) L'.
Proof.
  intros Hs HL. apply Forall_forall. intros f Hf. destruct (same_frames_elem L L' f Hs Hf) as (g & Hg & Hk).
  eapply kept_frame_key; [exact Hk|]. rewrite Forall_forall in HL. auto.
Qed.
Lemma kept_mono log log' L : log ⊆ log' → Forall (kept_frame log) L → Forall (kept_frame log') L.
Proof. intros Hl HL. eapply Forall_impl; [exact HL|]. intros f [H1 H2]. split; [by eapply op_logged_mono|done]. Qed.

Lemma covered_same log L L' : same_frames L L' → covered log L → covered log L'.
Proof. intros Hs Hc sid x ft seq p Hx Ho. destruct (Hc sid x ft seq p Hx Ho) as [Hin|?]; [left|by right]. unfold same_frames in Hs. by rewrite Hs. Qed.
(** one more frame, which enters the queue if it is owed *)
Lemma covered_snoc log L L' sid x : (∀ k, k ∈ frame_key <$> L → k ∈ frame_key <$> L') →
  (∀ ft seq p, owed x = Some (ft, seq, p) → (ft, sid, seq, p) ∈ frame_key <$> L') → covered log L → covered (log ++ [(sid, x)]) L'.
Proof.
  intros HL Hx Hc sid' y ft seq p [Hy|Hy%list_elem_of_singleton]%elem_of_app Ho.
  - destruct (Hc sid' y ft seq p Hy Ho) as [?|[?|?]]; [left; by apply HL|by right; left|right; right]. eapply aborted_mono; [|done]. intros z Hz. apply elem_of_app. by left.
  - injection Hy as -> ->. left. by apply Hx.
Qed.
(** frames leave the queue when they are settled *)
Lemma accounted_settled log B L L' : accounted log B L → L' ⊆ L → (∀ f, f ∈ L → f ∈ L' ∨ cl_settled Cl f.(p_streamID) f.(p_seq) ∨ aborted log f.(p_streamID)) → accounted log B L'.
Proof.
  intros [Hc Hw] Hsub HL. split; [|intros f Hf; by apply Hw, Hsub]. intros sid x ft seq p Hx Ho. destruct (Hc sid x ft seq p Hx Ho) as [Hin|?]; [|by right].
  apply list_elem_of_fmap in Hin as (f & [= -> -> -> ->] & Hf). destruct (HL f Hf) as [?|?]; [left|by right].
  apply list_elem_of_fmap. by exists f.
Qed.

(** the table does not see sends *)
Lemma table_sends c c' : sends c c' → table_inv c → table_inv c'.
Proof.
  intros (H1 & H2 & H3 & H4 & H5 & H6 & H7 & H8 & H9 & _)%sends_fields [T1 T2 T3 T4 T5 T6 T7].
  split; unfold head_ok, backlog in *; rewrite ?H1, ?H2, ?H3, ?H8, ?H9; done.
Qed.

(** ** Sending *)
Lemma tx_do_spec m c : wire_inv c.(cn_log) c.(cn_tx) → wire_safe c.(cn_log) m → queue_inv c →
  let c' := (tx_do m c).1 in wire_inv c'.(cn_log) c'.(cn_tx) ∧ queue_inv c'.
Proof.
  intros (s & D & Hx & Hs & HD) Hm (L & HL & Hk & Hcv & Hb). destruct (Hm s D Hs HD) as (s' & r & D' & H1 & H2 & H3).
  unfold tx_do. rewrite Hx, H1. cbn [fst]. destruct (existsb _ _); (split; [by exists s', D'|]).
  - exists L. split_and!; [by apply holds_drain|done..].
  - exists L. done.
Qed.
Lemma tx_do_ok m c : wire_safe c.(cn_log) m → ok_with c → ok_with (tx_do m c).1.
Proof.
  intros Hm [Hq Hw Ht]. destruct (tx_do_spec m c Hw Hm Hq). split; [done..|]. eapply table_sends; [apply tx_do_sends|done].
Qed.
Lemma tx_op_ok op c : op_fits X op → op_logged c.(cn_log) op → op_claims op → ok_with c → ok_with (tx_do (tx_exec X op) c).1.
Proof using HE. intros Hf Hl Hcl. apply tx_do_ok. by apply wire_safe_op. Qed.

Lemma run_call_ok sid c k : ok_with c → ok_with (run_call E sid c k).
Proof using HE.
  intros Hc. destruct k; cbn [run_call]; unfold tx_do'.
  - by apply (tx_op_ok (TxWindowNow sid _)).
  - apply tx_do_ok; [apply wire_safe_nacks|done].
  - apply (tx_op_ok (TxControl frameStopSending sid _)); [done|cbn; set_solver|done|done].
  - destruct Hc as [Hq Hw Ht]. split; [done|done|]. destruct Ht. split; done.
  - destruct Hc as [Hq Hw Ht]. split; [done|done|]. destruct Ht. split; done.
Qed.
Lemma run_calls_ok sid c ks : ok_with c → ok_with (foldl (run_call E sid) c ks).
Proof using HE. revert c. induction ks as [|k ks IH]; intros c Hc; [done|]. cbn. by apply IH, run_call_ok. Qed.

(** ** Streams *)

(** the table with another write side, for a stream whose frames may grow *)
Lemma table_write c id st r w : cn_streams c !! id = Some st → lanes_small cf w → table_inv c →
  table_inv (c <| cn_streams := <[id := mkStream r w]> c.(cn_streams) |>).
Proof.
  intros Hst Hl [T1 T2 T3 T4 T5 T6 T7]. split; try done; cbn.
  - intros Hn. rewrite (T1 Hn) in Hst. done.
  - by apply map_Forall_insert_2.
  - by rewrite map_size_insert_Some.
  - intros id'. rewrite dom_insert_lookup_L by (by eexists). apply T5.
Qed.
Lemma table_live c id st : table_inv c → cn_streams c !! id = Some st → c.(cn_nil) = false.
Proof. intros [T1 _ _ _ _ _ _] Hst. destruct (cn_nil c); [|done]. rewrite T1 in Hst; done. Qed.

Lemma ok_read c id st r t : cn_streams c !! id = Some st → ok_with c →
  ok_with (c <| cn_tick := t |> <| cn_streams := <[id := mkStream r st.(st_write)]> c.(cn_streams) |>).
Proof.
  intros Hst [(L & HL & Hk & Hcv & Hb) Hw Ht]. split.
  - exists L. split_and!; [done|done|done|]. intros Hn. by apply books_read, Hb.
  - done.
  - pose (c1 := c <| cn_tick := t |>). assert (table_inv c1) as Ht' by (destruct Ht; split; done).
    exact (table_write c1 id st r (st_write st) Hst (ti_lanes _ Ht id st Hst) Ht').
Qed.

Lemma on_read_ok {A} c sid st (op : renv → rside → option (rside * A)) c' a :
  cn_streams c !! sid = Some st → ok_with c → on_read E c sid st op = Some (c', a) → ok_with c'.
Proof using HE.
  intros Hst Hc. unfold on_read. destruct (op _ _) as [[s a']|]; [|done]. cbn [mbind option_bind].
  intros [= <- _]. by apply run_calls_ok, ok_read.
Qed.

(** ** The write side *)

(** sending does not look at the table *)
Lemma tx_do_streams m c S : tx_do m (c <| cn_streams := S |>) = ((tx_do m c).1 <| cn_streams := S |>, (tx_do m c).2).
Proof.
  unfold tx_do. cbn [cn_tx]. change (cn_tx (c <| cn_streams := S |>)) with (cn_tx c). destruct (cn_tx c) as [s|]; [|done].
  destruct (m s) as [[s' r]|]; [|done]. by destruct (existsb _ _).
Qed.
Lemma tx_do_log m c l : (tx_do m (c <| cn_log := l |>)).1 = (tx_do m c).1 <| cn_log := l |>.
Proof.
  unfold tx_do. change (cn_tx (c <| cn_log := l |>)) with (cn_tx c). destruct (cn_tx c) as [s|]; [|done].
  destruct (m s) as [[s' r]|]; [|done]. by destruct (existsb _ _).
Qed.

(** a change of the write side that keeps its numbers *)
Lemma ok_write c id st r w : cn_streams c !! id = Some st → lanes_small cf w →
  w.(writeSeq) = st.(st_write).(writeSeq) → (st.(st_write).(writeFIN) = true → w.(writeFIN) = true) →
  (w.(writeErr) = None → st.(st_write).(writeErr) = None ∧ bytesInFlightLocked w = bytesInFlightLocked st.(st_write)) →
  ok_with c → ok_with (c <| cn_streams := <[id := mkStream r w]> c.(cn_streams) |>).
Proof.
  intros Hst Hl H1 H2 H3 [(L & HL & Hk & Hcv & Hb) Hw Ht]. split; [|done|by eapply table_write].
  exists L. split_and!; [done|done|done|]. intros Hn. eapply books_write; eauto.
Qed.

Definition with_write c id (r : rside) S (w : wside) : Connection := c <| cn_streams := <[id := mkStream r w]> S |>.
Definition erase (w : wside) : wside := w <| fecLanes := [] |> <| fecRowLane := zeroLane |>.

(** the invariant with [w] as the write side of stream [id], its lanes left out *)
Definition write_inv (id : Z) (r : rside) S (w : wside) c : Prop := ok_with (with_write c id r S (erase w)).

Lemma dataCap_pos : 0 < dataCap cf.
Proof using HE.
  pose proof (te_cfg _ (eo_tx _ HE)) as Hc. unfold dataCap, fecMetaLen. pose proof (cw_payload _ Hc). case_bool_decide; lia.
Qed.
Lemma fecGroup_u32 : 0 < cf.(fecGroup) → 0 < u32 cf.(fecGroup).
Proof using HE.
  intros Hg. destruct (cw_fec _ (te_cfg _ (eo_tx _ HE))); [lia|]. rewrite u32_id; [done|]. unfold is_u32. lia.
Qed.
Lemma lanes_small_erase w : lanes_small cf (erase w).
Proof using HE. pose proof dataCap_pos. split; [split; [constructor|by left]|]. split; [cbn; lia|done]. Qed.

Lemma with_write_change c id r S w w' : lanes_small cf w' → erase w' = erase w → ok_with (with_write c id r S w) → ok_with (with_write c id r S w').
Proof.
  intros Hl He Hc. destruct w as [w1 w2 w3 w4 w5 w6 w7 w8 w9 w10], w' as [v1 v2 v3 v4 v5 v6 v7 v8 v9 v10]. cbv in He. injection He as -> -> -> -> -> -> -> ->.
  unfold with_write in *.
  match type of Hc with ok_with ?c1 => pose proof (ok_write c1 id (mkStream r (mkWside w1 w2 w3 w4 w5 w6 w7 w8 w9 w10)) r (mkWside w1 w2 w3 w4 w5 w6 w7 v8 v9 w10)) as Ho end.
  cbn in Ho. rewrite insert_insert_eq in Ho. apply Ho; try done. by rewrite lookup_insert_eq.
Qed.
Lemma write_inv_intro id st c : cn_streams c !! id = Some st → ok_with c → write_inv id st.(st_read) c.(cn_streams) st.(st_write) c.
Proof using HE.
  intros Hst Hc. unfold write_inv, with_write. eapply ok_write; [done|apply lanes_small_erase|done..].
Qed.
Lemma write_inv_elim id r S w c : lanes_small cf w → write_inv id r S w c → ok_with (with_write c id r S w).
Proof. intros Hl. by apply with_write_change. Qed.

Lemma write_inv_tx id r S w c m : wire_safe c.(cn_log) m → write_inv id r S w c → write_inv id r S w (tx_do m c).1.
Proof.
  intros Hm Hc. unfold write_inv, with_write in *.
  match type of Hc with ok_with ?c1 => pose proof (tx_do_ok m c1 Hm Hc) as H end. by rewrite tx_do_streams in H.
Qed.

(** a send operation, followed by the entry in the history *)
Lemma write_inv_logged id r S w c m sid x :
  wire_safe (c.(cn_log) ++ [(sid, x)]) m → write_inv id r S w (conn_log c sid x) → write_inv id r S w (conn_log (tx_do m c).1 sid x).
Proof.
  intros Hm Hc. unfold write_inv, with_write, conn_log in *. rewrite tx_do_keeps_log.
  match type of Hc with ok_with ?c1 => pose proof (tx_do_ok m c1 Hm Hc) as H end. by rewrite tx_do_streams, tx_do_log in H.
Qed.
Lemma write_inv_log id r S w c sid x : owed x = None → write_inv id r S w c → write_inv id r S w (conn_log c sid x).
Proof using HE.
  intros Ho [(L & HL & Hk & Hcv & Hb) Hw Ht]. assert (cn_log c ⊆ cn_log c ++ [(sid, x)]) as Hsub by set_solver.
  split; [exists L; split_and!; [done|by eapply kept_mono|split; [apply (covered_snoc _ L); [done|by rewrite Ho|apply Hcv]|apply Hcv]|done]|by eapply wire_inv_mono|]. destruct Ht. split; done.
Qed.

Lemma write_inv_fec id r S w c ft base count xl data : parity_type ft → 0 < cf.(fecGroup) → Zlen data ≤ dataCap cf →
  write_inv id r S w c → write_inv id r S w (conn_sendFecFrame E c ft id base count xl data).1.
Proof using HE.
  intros Hft Hg Hd Hi. unfold conn_sendFecFrame.
  change (SendBatch.sendFecFrame X ft id base count xl data) with (tx_exec X (TxFec ft id base count xl data)).
  pose proof (write_inv_logged id r S w c (tx_exec X (TxFec ft id base count xl data)) id (SentFec ft base count xl data)) as H.
  destruct (tx_do _ c) as [c1 e]. apply H; [|by apply write_inv_log].
  apply wire_safe_op; cbn; [|split; [done|set_solver]|done]. unfold dataCap, fecMetaLen in *. rewrite bool_decide_true in Hd by lia. lia.
Qed.

(** ** New frames *)

(** a frame enters the queue and the history; the write side becomes [w'] *)
Lemma write_inv_add id r S w w' c ft p now x q d :
  add c.(cn_rq) ft id w.(writeSeq) p now = (q, d) →
  write_inv id r S w c → w.(writeFIN) = false → is_u32 w'.(writeSeq) → w.(writeSeq) ≤ w'.(writeSeq) →
  owned w' (mkPframe ft id w.(writeSeq) p now 0 false) →
  (w'.(writeErr) = None → w.(writeErr) = None ∧ bytesInFlightLocked w' = bytesInFlightLocked w + Zlen p) →
  op_logged (cn_log c ++ [(id, x)]) (TxResend ft id w.(writeSeq) p) → owed x = Some (ft, w.(writeSeq), p) → frameHdrLen X ft + Zlen p ≤ maxDatagram cf →
  write_inv id r S w' (conn_log (c <| cn_rq := q |>) id x) ∧ slice_bytes q.(arena) d = p.
Proof using HE.
  intros Hadd Hi Hfin Hu Hle Hown Hbytes Hlog Hx Hsz.
  destruct Hi as [(L & HL & Hk & Hcv & Hb) Hw Ht]. set (st := mkStream r (erase w)) in *.
  assert (cn_streams (with_write c id r S (erase w)) !! id = Some st) as Hst by apply lookup_insert_eq.
  specialize (Hb (table_live _ _ _ Ht Hst)).
  pose proof (bk_ids _ _ Hb id st Hst) as [Hid Hseq]. pose proof (books_fresh _ _ id st Hb Hst Hfin) as Hfresh.
  pose proof (holds_add _ _ L HL ft id (writeSeq w) p now Hid Hseq Hfresh) as Ha.
  change (cn_rq (with_write c id r S (erase w))) with (cn_rq c) in Ha. rewrite Hadd in Ha. destruct Ha as [HL' Hd].
  split; [|done]. split.
  - exists (s_add ft id (writeSeq w) p now L). split_and!; [done| | |].
    + apply Forall_app. split; [|by apply Forall_singleton].
      eapply kept_mono; [|exact Hk]. cbn. set_solver.
    + unfold s_add. split; [apply (covered_snoc _ L); [|rewrite Hx; intros ? ? ? [= <- <- <-]|apply Hcv]; rewrite fmap_app; set_solver|].
      intros f [Hf|Hf%list_elem_of_singleton]%elem_of_app Hq; [by apply Hcv|by subst f].
    + intros _. pose proof (books_sent _ L id st r (erase w') ft (writeSeq w) p now Hst Hb Hu Hle) as Hbs.
      cbn [cn_streams with_write] in Hbs. unfold with_write in Hbs. cbn in Hbs. rewrite insert_insert_eq in Hbs.
      apply Hbs; [|done|done]. intros Ht1. change (writeFIN w = true) in Ht1. congruence.
  - eapply wire_inv_mono; [|exact Hw]. cbn. set_solver.
  - pose proof (table_write _ id st r (erase w') Hst (lanes_small_erase w') Ht) as Ht'. unfold with_write in Ht'. cbn in Ht'.
    rewrite insert_insert_eq in Ht'. destruct Ht'. split; done.
Qed.

Lemma write_inv_time id r S w c : write_inv id r S w c → write_inv id r S w (conn_time E c).1.
Proof. intros [Hq Hw Ht]. split; [done|done|]. destruct Ht. split; done. Qed.

Lemma dataCap_datagram : frameHdrLen X frameData + dataCap cf = maxDatagram cf.
Proof.
  unfold frameHdrLen, dataCap, maxDatagram, frameHeaderSize, fecMetaLen. rewrite (bool_decide_true (frameData = frameData)) by done.
  cbn [andb]. destruct (fecGroup cf >? 0); lia.
Qed.

Lemma write_inv_data id r S w c p :
  write_inv id r S w c → w.(writeErr) = None → w.(writeFIN) = false → 0 < Zlen p ≤ dataCap cf →
  0 ≤ w.(writeSeq) → w.(writeSeq) + 1 < 2 ^ 32 →
  write_inv id r S (w <| sentOffset := w.(sentOffset) + Zlen p |> <| writeSeq := u32 (w.(writeSeq) + 1) |>)
    (conn_sendDataFrame E c id w.(writeSeq) p).1.
Proof using HE.
  intros Hi He Hfin Hp Hs0 Hs1. unfold conn_sendDataFrame. apply write_inv_time in Hi.
  destruct (conn_time E c) as [c1 now]. cbn [fst] in Hi.
  destruct (add (cn_rq c1) frameData id (writeSeq w) p now) as [q d] eqn:Hadd.
  set (w' := w <| sentOffset := _ |> <| writeSeq := _ |>).
  assert (writeSeq w' = writeSeq w + 1) as Hw' by (apply u32_id; unfold is_u32; lia).
  set (m := SendBatch.sendDataFrame X id (writeSeq w) (slice_bytes (arena q) d)).
  set (c2 := c1 <| cn_rq := q |>). set (x := SentData (writeSeq w) p (tx_do m c2).2).
  destruct (write_inv_add id r S w w' c1 frameData p now x q d Hadd Hi Hfin) as [Hi' Hd].
  - rewrite Hw'. unfold is_u32. lia.
  - rewrite Hw'. lia.
  - left. rewrite Hw'. cbn. lia.
  - intros _. split; [done|]. unfold bytesInFlightLocked. cbn. lia.
  - left. split; [done|]. eexists. apply elem_of_app. right. by apply list_elem_of_singleton.
  - done.
  - pose proof dataCap_datagram. lia.
  - assert (wire_safe (cn_log c1 ++ [(id, x)]) m) as Hm.
    { unfold m. rewrite Hd. apply (wire_safe_op _ (TxData id (writeSeq w) p)); [apply Hp| |done].
      eexists. apply elem_of_app. right. by apply list_elem_of_singleton. }
    pose proof (write_inv_logged id r S w' c2 m id x Hm Hi') as Hend. unfold x in *. by destruct (tx_do m c2) as [c3 e].
Qed.

Lemma write_inv_reliable id r S w w' c ft p :
  write_inv id r S w c → w.(writeFIN) = false → w'.(writeFIN) = true → w'.(writeSeq) = w.(writeSeq) → is_u32 w.(writeSeq) →
  (w'.(writeErr) = None → w.(writeErr) = None ∧ bytesInFlightLocked w' = bytesInFlightLocked w + Zlen p) →
  last_type ft → frameHdrLen X ft + Zlen p ≤ maxDatagram cf →
  write_inv id r S w' (conn_sendReliableFrame E c ft id w.(writeSeq) p).1.
Proof using HE.
  intros Hi Hfin Hfin' Hseq Hu He Hft Hsz. unfold conn_sendReliableFrame. apply write_inv_time in Hi.
  destruct (conn_time E c) as [c1 now]. cbn [fst] in Hi.
  destruct (add (cn_rq c1) ft id (writeSeq w) p now) as [q d] eqn:Hadd.
  set (c2 := c1 <| cn_rq := q |>). set (x := SentReliable ft (writeSeq w) p).
  assert (op_logged (cn_log c1 ++ [(id, x)]) (TxReliable ft id (writeSeq w) p)) as Hlog.
  { cbn. split; [done|]. apply elem_of_app. right. by apply list_elem_of_singleton. }
  destruct (write_inv_add id r S w w' c1 ft p now x q d Hadd Hi Hfin) as [Hi' Hd]; [by rewrite Hseq|lia| |done|by right|done|done|].
  { right. split; [done|]. cbn. lia. }
  set (m := SendBatch.sendReliableFrame X ft id (writeSeq w) (slice_bytes (arena q) d)).
  assert (wire_safe (cn_log c1 ++ [(id, x)]) m) as Hm.
  { unfold m. rewrite Hd. by apply (wire_safe_op _ (TxReliable ft id (writeSeq w) p)). }
  pose proof (write_inv_logged id r S w' c2 m id x Hm Hi') as Hend. by destruct (tx_do m c2) as [c3 e].
Qed.

(** the frames of stream [id] leave the queue as its write side fails *)
Lemma write_inv_purge id r S w c : write_inv id r S w c → w.(writeErr) ≠ None → (∀ seq, cl_settled Cl id seq) → write_inv id r S w (conn_purge E c id).
Proof using HE.
  intros [(L & HL & Hk & Hcv & Hb) Hw Ht] He Hs. split; [|done|destruct Ht; split; done].
  exists (filter (λ f, f.(p_streamID) ≠ id) L). split_and!.
  - apply holds_purge; [done|]. apply (eo_entries _ HE).
  - apply Forall_forall. intros f [_ Hf]%list_elem_of_filter. rewrite Forall_forall in Hk. by apply Hk.
  - eapply accounted_settled; [exact Hcv|intros f [_ Hf]%list_elem_of_filter; done|]. intros f Hf. destruct (decide (p_streamID f = id)) as [->|Hne]; [right; by left|left].
    by apply list_elem_of_filter.
  - intros Hn. destruct (Hb Hn) as [B1 B2 B3]. split; [|exact B2|].
    + intros f [_ Hf]%list_elem_of_filter. by apply B1.
    + intros id' st Hst He'. destruct (decide (id' = id)) as [->|Hne].
      * cbn in Hst. rewrite lookup_insert_eq in Hst. injection Hst as <-. done.
      * rewrite in_queue_purge by done. by apply B3.
Qed.

Lemma write_inv_change id r S w w' c : write_inv id r S w c → w'.(writeSeq) = w.(writeSeq) →
  (w.(writeFIN) = true → w'.(writeFIN) = true) →
  (w'.(writeErr) = None → w.(writeErr) = None ∧ bytesInFlightLocked w' = bytesInFlightLocked w) → write_inv id r S w' c.
Proof using HE.
  intros Hi H1 H2 H3. unfold write_inv in *. set (c1 := with_write c id r S (erase w)) in *.
  assert (cn_streams c1 !! id = Some (mkStream r (erase w))) as Hst by apply lookup_insert_eq.
  pose proof (ok_write c1 id (mkStream r (erase w)) r (erase w') Hst (lanes_small_erase w') H1 H2 H3 Hi) as H.
  unfold c1, with_write in H. cbn in H. by rewrite insert_insert_eq in H.
Qed.

Lemma seq_u32 id r S w c : write_inv id r S w c → is_u32 w.(writeSeq).
Proof.
  intros [(L & HL & Hk & Hcv & Hb) Hw Ht].
  assert (cn_streams (with_write c id r S (erase w)) !! id = Some (mkStream r (erase w))) as Hst by apply lookup_insert_eq.
  exact (proj2 (bk_ids _ _ (Hb (table_live _ _ _ Ht Hst)) _ _ Hst)).
Qed.

End inv.

(** ** Other claims *)
Section claims.
Context (E : cenv) (HE : env_ok E).
Implicit Types (c : Connection).

(** claims may be weakened, and what is covered anyway need not be claimed *)
Lemma ok_weaken (C C' : claims) c : cl_hand C = cl_hand C' → (∀ sid cum seqs, cl_ack C sid cum seqs → cl_ack C' sid cum seqs) →
  (∀ sid seq, cl_settled C sid seq → cl_settled C' sid seq ∨ aborted c.(cn_log) sid) → ok_with E (Cl:=C) c → ok_with E (Cl:=C') c.
Proof.
  intros Hh Ha Hs [(L & HL & Hk & [Hcv Hwt] & Hb) (s & D & Hx & Hst & HD) Ht]. split; [| |done].
  - exists L. split_and!; [done|done| |done]. split; [|unfold waited in *; by rewrite <- Hh]. intros sid x ft seq p H1 H2. destruct (Hcv sid x ft seq p H1 H2) as [?|[Hq|?]]; [by left| |by right; right].
    right. by apply Hs.
  - exists s, D. split_and!; [done|done|]. eapply Forall_impl; [exact HD|]. intros d (op & D1 & D2 & D3 & D4). exists op. split_and!; [done..|].
    destruct op; try done; by apply Ha.
Qed.
(** everything of stream [id] is settled besides *)
Definition also_settled (C : claims) (id : Z) : claims := mkClaims (cl_ack C) (λ sid seq, sid = id ∨ cl_settled C sid seq) (cl_hand C).
(** the requests [R] are in hand besides *)
Definition in_hand (C : claims) (R : list retransmitRequest) : claims := mkClaims (cl_ack C) (cl_settled C) (cl_hand C ++ R).
Lemma ok_in_hand_nil C c : ok_with E (Cl := in_hand C []) c ↔ ok_with E (Cl := C) c.
Proof. split; apply ok_weaken; try done; try (by left); cbn; by rewrite app_nil_r. Qed.
End claims.
Arguments ck_queue E {Cl} c _.
Arguments ck_wire E {Cl} c _.
Arguments ck_table E {Cl} c _.

Definition conn_ok (E : cenv) (c : Connection) : Prop := ok_with E (Cl := no_claims) c.
Lemma ok_conn_ok E (C : claims) c : cl_hand C = [] → ok_with E (Cl := C) c → conn_ok E c.
Proof. intros Hh. apply ok_weaken; [done|done|]. by left. Qed.

(** ** The write side's operations *)
Section writes.
Context (E : cenv) (HE : env_ok E) {Cl : claims}.
#[local] Abbreviation X := (ce_tx E).
#[local] Abbreviation cf := (tx_cfg (ce_tx E)).
#[local] Existing Instance conn_path.
Context (id : Z) (r : rside) (S : gmap Z Stream).
#[local] Abbreviation winv := (write_inv E (Cl := Cl)).
Implicit Types (c : Connection).

Lemma small_fits ft : frameHdrLen X ft + 8 ≤ maxDatagram cf.
Proof using HE.
  pose proof (te_cfg _ (eo_tx _ HE)) as Hc. pose proof (cw_payload _ Hc). pose proof (hdr_small X ft).
  unfold maxDatagram, frameHeaderSize. lia.
Qed.
Lemma writeLoop_ok fuel w c p n : winv id r S w c → lanes_small cf w → w.(writeSeq) + Zlen p < 2 ^ 32 → (length p < fuel)%nat →
  ∃ w' c' o, @writeLoop _ (conn_path E) cf id fuel w c p n = Some (w', c', o) ∧ winv id r S w' c' ∧ lanes_small cf w'.
Proof using HE.
  intros Hi Hl Hs Hf. pose proof (seq_u32 E id r S w c Hi) as Hu.
  apply (writeLoop_rule cf id (winv id r S) (dataCap_pos E HE) (fecGroup_u32 E HE)); try done.
  - intros w1 c1 Hi1. apply write_inv_tx; [|done]. by apply (wire_safe_op E HE _ TxFlush).
  - intros. by apply write_inv_time.
  - intros w1 c1 ft base count xl data Hi1 Hft Hg Hd. by apply (write_inv_fec E HE).
  - intros w1 c1 p1 Hi1. by apply (write_inv_data E HE).
  - apply Hu.
Qed.

Lemma CloseWrite_ok w c : winv id r S w c → lanes_small cf w →
  let '(w', c', _) := @CloseWrite _ (conn_path E) id w c in winv id r S w' c' ∧ lanes_small cf w'.
Proof using HE.
  intros Hi Hl. apply (CloseWrite_rule cf id (winv id r S) (dataCap_pos E HE) (fecGroup_u32 E HE)); try done.
  - intros w1 c1 Hi1. apply write_inv_tx; [|done]. by apply (wire_safe_op E HE _ TxFlush).
  - intros. by apply write_inv_time.
  - intros w1 c1 ft base count xl data Hi1 Hft Hg Hd. by apply (write_inv_fec E HE).
  - intros w1 c1 p1 Hi1. by apply (write_inv_data E HE).
  - intros w1 c1 ls rl Hi1 He Hfin. set (w2 := wakeWriters (w1 <| writeFIN := true |> <| fecLanes := ls |> <| fecRowLane := rl |>)).
    apply (write_inv_reliable E HE id r S w1 w2 c1 frameStreamFIN [] Hi1 Hfin eq_refl eq_refl (seq_u32 E id r S w1 c1 Hi1)).
    + intros _. split; [done|]. change (Zlen []) with 0. unfold bytesInFlightLocked, w2. cbn. lia.
    + by left.
    + pose proof (small_fits frameStreamFIN). change (Zlen []) with 0. lia.
Qed.

Lemma abort_ok w c code : winv id r S w c → lanes_small cf w →
  let '(w', c') := @abortWriteLocked _ (conn_path E) id w c code true in winv id r S w' c' ∧ lanes_small cf w'.
Proof using HE.
  intros Hi Hl. apply (abort_rule cf id (winv id r S) (dataCap_pos E HE) (fecGroup_u32 E HE)); try done.
  - intros w1 c1 Hi1. apply write_inv_tx; [|done]. by apply (wire_safe_op E HE _ TxFlush).
  - intros. by apply write_inv_time.
  - intros w1 c1 ft base count xl data Hi1 Hft Hg Hd. by apply (write_inv_fec E HE).
  - intros w1 c1 p1 Hi1. by apply (write_inv_data E HE).
  - intros w1 c1 Hi1 He Hfin. set (w2 := w1 <| writeErr := Some ErrStreamReset |>). set (C := also_settled Cl id).
    assert (write_inv E (Cl := C) id r S w2 c1) as Hi2.
    { eapply (ok_weaken E Cl C); [done|done|by left; right|]. by eapply (write_inv_change E HE). }
    apply (write_inv_purge E HE) in Hi2; [|done|by left].
    set (w3 := wakeWriters (w2 <| writeFIN := true |> <| fecLanes := [] |> <| fecRowLane := zeroLane |>)).
    pose proof (small_fits frameStreamReset). pose proof (write_inv_reliable E HE id r S w2 w3 _
      frameStreamReset (resetPayload code) Hi2 Hfin eq_refl eq_refl (seq_u32 E id r S w2 _ Hi2) ltac:(done) ltac:(by right)
      ltac:(change (Zlen (resetPayload code)) with 8; lia)) as Hi3.
    eapply (ok_weaken E C Cl); [done|done| |exact Hi3]. intros sid seq [->|?]; [right|by left]. eexists _, _.
    refine (eq_ind_r (λ l, (id, SentReliable frameStreamReset (writeSeq w1) (resetPayload code)) ∈ l) _
      (proj2 (reliable_serves E (conn_purge E c1 id) frameStreamReset id (writeSeq w1) (resetPayload code)))).
    apply elem_of_app. right. by apply list_elem_of_singleton.
Qed.
End writes.
