(* ===== verification/ConnOps.v ===== *)
(** * The operations of a connection preserve its invariant *)
From S2P Require Import Prelude Errors Frame Float64 Pacer Options Ring StreamRecv Retransmit RetransmitSpec RetransmitRefine.
From S2P Require Import StreamSend SendRule Estimator SendBatch BatchInv SendFifo Connection ConnLemmas Termination ConnBooks ConnInv.

(** fields the invariant does not mention *)
Ltac ok_same Hc :=
  let Hq := fresh in let Hw := fresh in let Ht := fresh in
  destruct Hc as [Hq Hw Ht]; split; [exact Hq|exact Hw|destruct Ht; split; assumption].

Section ops.
Context (E : cenv) (HE : env_ok E) {Cl : claims}.
#[local] Abbreviation X := (ce_tx E).
#[local] Abbreviation cf := (tx_cfg (ce_tx E)).
#[local] Abbreviation ok := (ok_with E (Cl := Cl)).
Implicit Types (c : Connection).

Lemma new_ok : ok (newConnection E).
Proof using HE.
  pose proof (te_cfg _ (eo_tx _ HE)) as Hcf. pose proof (cw_payload _ Hcf). split.
  - exists []. split_and!; [apply holds_new; lia|constructor|split; [by intros ? ? ? ? ? ?%elem_of_nil|by intros f ?%elem_of_nil]|]. intros _.
    split; [intros f Hf; by apply elem_of_nil in Hf|intros id st Hst; cbn in Hst; by rewrite lookup_empty in Hst..].
  - exists (newTx X), []. split_and!; [done|apply newTx_st, HE|constructor].
  - split; cbn; try done.
    + rewrite map_size_empty. lia.
    + unfold own. destruct (ce_isClient E); done.
Qed.

(** ** The stream table *)
Lemma own_next n : 0 ≤ n → own E (n + 2) = own E n.
Proof.
  intros Hn. unfold own. f_equal. apply bool_decide_ext.
  rewrite !Z.rem_mod_nonneg by lia. replace (n + 2) with (n + 1 * 2) by lia. by rewrite Z.mod_add.
Qed.

Lemma insert_stream_ok c sid : ok c → cn_streams c !! sid = None → cn_nil c = false → is_u32 sid →
  Z.of_nat (size (cn_streams c)) < cf.(maxStreams) → (own E sid = true → sid < cn_nextStream c) →
  ok (insert_stream E c sid).1 ∧ cn_streams (insert_stream E c sid).1 !! sid = Some (insert_stream E c sid).2.
Proof using HE.
  intros Hc Hno Hn Hsid Hsz Hown. unfold insert_stream, conn_time. cbn [fst snd].
  set (st := newStream _ _ _). split; [|apply lookup_insert_eq].
  destruct Hc as [(L & HL & Hk & Hcv & Hb) Hw [T1 T2 T3 T4 T5 T6 T7]]. pose proof (dataCap_pos E HE). split; [|done|].
  - exists L. split_and!; [done|done|done|]. intros _. by apply books_open, Hb.
  - split; try done; cbn.
    + congruence.
    + apply map_Forall_insert_2; [|done]. apply (lanes_small_erase E HE (st_write st)).
    + rewrite map_size_insert_None by done. lia.
    + intros id. rewrite dom_insert_L. intros [->%elem_of_singleton|Hin]%elem_of_union; [done|auto].
Qed.

Lemma OpenStream_ok c : ok c → c.(cn_nextStream) + 2 < 2 ^ 32 → ok (OpenStream E c).1.
Proof using HE.
  intros Hc Hnext. unfold OpenStream. destruct (cn_closed c); [done|]. cbn [orb].
  destruct (cn_nil c) eqn:Hn; [done|]. destruct (bool_decide_reflect (cf.(maxStreams) ≤ Z.of_nat (size (cn_streams c)))) as [|Hsz]; [done|].
  destruct (ck_table _ _ Hc) as [T1 T2 T3 [T4 T4'] T5 T6 T7]. cbn [fst].
  set (c1 := c <| cn_nextStream := u32 (cn_nextStream c + 2) |>).
  assert (cn_nextStream c1 = cn_nextStream c + 2) as Hc1 by (apply u32_id; unfold is_u32 in *; lia).
  apply insert_stream_ok; try done.
  - destruct Hc as [Hq Hw _]. split; [done|done|]. split; try done; rewrite ?Hc1.
    + rewrite own_next by apply T4. unfold is_u32 in *. split; [lia|done].
    + intros id Hid Ho. specialize (T5 id Hid Ho). lia.
  - destruct (cn_streams c !! cn_nextStream c) eqn:Hx; [|exact Hx]. exfalso.
    assert (cn_nextStream c < cn_nextStream c); [|lia]. apply T5; [|done]. by apply elem_of_dom_2 in Hx.
  - cbn. lia.
  - rewrite Hc1. lia.
Qed.

Lemma streamForFrame_ok c sid : ok c → is_u32 sid →
  ok (streamForFrame E c sid).1 ∧ ∀ s, (streamForFrame E c sid).2 = inl s → cn_streams (streamForFrame E c sid).1 !! sid = Some s.
Proof using HE.
  intros Hc Hsid. unfold streamForFrame. destruct (cn_closed c); [done|].
  destruct (cn_streams c !! sid) as [s|] eqn:Hs; [split; [done|by intros s' [= <-]]|].
  destruct (bool_decide _); [done|]. fold (own E sid). destruct (own E sid) eqn:Hown; [done|]. cbn [negb orb].
  destruct (cn_nil c) eqn:Hn; [done|]. destruct (bool_decide_reflect (cf.(maxStreams) ≤ Z.of_nat (size (cn_streams c)))) as [|Hsz].
  - cbn [fst snd]. split; [|done]. unfold tx_do'. apply (tx_op_ok E HE (TxReset sid 0)); [done|done|done|].
    apply (tx_op_ok E HE (TxControl frameStopSending sid 0)); [done| |done|done]. cbn. set_solver.
  - destruct (insert_stream_ok c sid) as [Hc1 Hl]; try done; [lia|congruence|].
    destruct (insert_stream E c sid) as [c1 s1]. cbn [fst snd] in *. case_bool_decide; (split; [|by intros s' [= <-]]); [|done].
    ok_same Hc1.
Qed.

(** ** Frames of a peer *)
Record frame_wf (f : frame) : Prop := mkFrameWf {
  fw_sid : is_u32 f.(f_streamID);
  fw_seq : is_u32 f.(f_seq);
  fw_payload : Forall is_u8 f.(f_payload);
}.

Lemma handleArrival_ok c f payload isFin c' : ok c → frame_wf f → handleArrival E c f payload isFin = Some c' → ok c'.
Proof using HE.
  intros Hc Hf. unfold handleArrival. destruct (streamForFrame_ok c (f_streamID f) Hc (fw_sid _ Hf)) as [Hc1 Hs].
  destruct (streamForFrame E c (f_streamID f)) as [c1 [s|d]]; cbn [fst snd] in *.
  - destruct (on_read E c1 _ s _) as [[c2 a]|] eqn:Ho; [|done]. cbn [mbind option_bind]. intros [= <-].
    apply (on_read_ok E HE (Cl := Cl)) in Ho; [|by apply Hs|done]. unfold markAckDirty. ok_same Ho.
  - intros [= <-]. destruct d; [|done]. unfold queueAck. ok_same Hc1.
Qed.

Lemma handleFec_ok c f row c' : ok c → handleFec E c f row = Some c' → ok c'.
Proof using HE.
  intros Hc. unfold handleFec. destruct (_ || _); [by intros [= <-]|]. destruct (_ || _); [by intros [= <-]|].
  destruct (cn_streams c !! _) as [s|] eqn:Hs; [|by intros [= <-]].
  destruct (on_read E c _ s _) as [[c2 a]|] eqn:Ho; [|done]. cbn [mbind option_bind]. intros [= <-].
  apply (on_read_ok E HE (Cl := Cl)) in Ho; [|done|done]. destruct a; [|done]. unfold markAckDirty. ok_same Ho.
Qed.

Lemma handleStreamReset_ok c f c' : ok c → handleStreamReset E c f = Some c' → ok c'.
Proof using HE.
  intros Hc. unfold handleStreamReset. set (c1 := queueAck c _ _).
  assert (ok c1) as Hc1 by (unfold c1, queueAck; ok_same Hc).
  destruct (cn_streams c1 !! _) as [s|] eqn:Hs; [|by intros [= <-]].
  destruct (on_read E c1 _ s _) as [[c2 a]|] eqn:Ho; [|done]. cbn [mbind option_bind]. intros [= <-].
  by eapply (on_read_ok E HE); [| |exact Ho].
Qed.

(** a write side's operations touch nothing else of the connection *)
Section write_sends.
Context (id : Z) (c0 : Connection).
#[local] Abbreviation served := (serves id c0).

Lemma served_flush c : served c → served (tx_do (SendBatch.flushSend X) c).1.
Proof. apply serves_step, serves_quiet; [apply tx_do_sends|apply tx_do_keeps_log]. Qed.
Lemma served_time c : served c → served (conn_time E c).1.
Proof. apply serves_step, serves_quiet; [apply conn_time_sends|done]. Qed.
Lemma served_fec c ft base n xl d : served c → served (conn_sendFecFrame E c ft id base n xl d).1.
Proof. apply serves_step, fec_serves. Qed.
Lemma served_data c seq p : served c → served (conn_sendDataFrame E c id seq p).1.
Proof. apply serves_step, data_serves. Qed.

Lemma abort_serves w code : lanes_small cf w → served (@abortWriteLocked _ (conn_path E) id w c0 code true).2.
Proof using HE.
  intros Hl.
  pose proof (@abort_rule Connection (conn_path E) cf id (λ _ c, served c) (dataCap_pos E HE) (fecGroup_u32 E HE)
    (λ _, served_flush) (λ _ _ H, H) (λ _, served_time) (λ _ c ft b n x d H _ _ _, served_fec c ft b n x d H) (λ _ _ _ _ H, H)
    (λ w c p H _ _ _ _ _, served_data c (writeSeq w) p H) w c0 code) as Hr.
  destruct (@abortWriteLocked _ (conn_path E) id w c0 code true) as [w1 c1]. apply Hr; [reflexivity|done|].
  intros w2 c2 H2 _ _. eapply serves_step; [apply reliable_serves|]. eapply serves_step; [apply serves_quiet; [apply conn_purge_sends|done]|done].
Qed.
Lemma CloseWrite_serves w : lanes_small cf w → served (@CloseWrite _ (conn_path E) id w c0).1.2.
Proof using HE.
  intros Hl.
  pose proof (@CloseWrite_rule Connection (conn_path E) cf id (λ _ c, served c) (dataCap_pos E HE) (fecGroup_u32 E HE)
    (λ _, served_flush) (λ _ _ H, H) (λ _, served_time) (λ _ c ft b n x d H _ _ _, served_fec c ft b n x d H) (λ _ _ _ _ H, H)
    (λ w c p H _ _ _ _ _, served_data c (writeSeq w) p H) w c0) as Hr.
  destruct (@CloseWrite _ (conn_path E) id w c0) as [[w1 c1] e]. apply Hr; [reflexivity|done|].
  intros w2 c2 ls rl H2 _ _. eapply serves_step; [apply reliable_serves|done].
Qed.
Lemma writeLoop_serves fuel w p n w' c' o : lanes_small cf w → is_u32 w.(writeSeq) → w.(writeSeq) + Zlen p < 2 ^ 32 → (length p < fuel)%nat →
  @writeLoop _ (conn_path E) cf id fuel w c0 p n = Some (w', c', o) → served c'.
Proof using HE.
  intros Hl Hu Hs Hf Hw.
  destruct (@writeLoop_rule Connection (conn_path E) cf id (λ _ c, served c) (dataCap_pos E HE) (fecGroup_u32 E HE)
    (λ _, served_flush) (λ _ _ H, H) (λ _, served_time) (λ _ c ft b n x d H _ _ _, served_fec c ft b n x d H) (λ _ _ _ _ H, H)
    (λ w c p H _ _ _ _ _, served_data c (writeSeq w) p H) fuel w c0 p n) as (w1 & c1 & o1 & H1 & H2 & _); [reflexivity|done|apply Hu|done|done|].
  rewrite H1 in Hw. injection Hw as <- <- <-. done.
Qed.
End write_sends.

(** what an operation on a write side leaves *)
Lemma write_done c c1 sid st w : cn_streams c1 = cn_streams c → lanes_small cf w →
  write_inv E (Cl := Cl) sid st.(st_read) (cn_streams c) w c1 → ok (c1 <| cn_streams := <[sid := mkStream st.(st_read) w]> c1.(cn_streams) |>).
Proof. intros Hs Hl Hi. rewrite Hs. by apply (write_inv_elim E sid (st_read st) (cn_streams c) w c1). Qed.

Lemma handleStopSending_ok c f c' : ok c → handleStopSending E c f = Some c' → ok c'.
Proof using HE.
  intros Hc. unfold handleStopSending, on_write. destruct (cn_streams c !! _) as [s|] eqn:Hs; [|by intros [= <-]].
  pose proof (abort_ok E HE (Cl := Cl) (f_streamID f) (st_read s) (cn_streams c) (st_write s) c (f_seq f)) as Ha.
  pose proof (proj1 (abort_serves (f_streamID f) c (st_write s) (f_seq f) (ti_lanes _ _ (ck_table _ _ Hc) _ _ Hs))) as Hsend.
  unfold onStopSending. cbn [mbind option_bind].
  destruct (@abortWriteLocked _ (conn_path E) (f_streamID f) (st_write s) c (f_seq f) true) as [w1 c1].
  cbn [mbind option_bind]. intros [= <-]. cbn [snd] in Hsend. destruct Ha as [Hi Hl].
  - by apply (write_inv_intro E HE).
  - exact (ti_lanes _ _ (ck_table _ _ Hc) _ _ Hs).
  - apply sends_fields in Hsend as (Hsame & _). by eapply write_done.
Qed.

Lemma handleWindowUpdate_ok c f c' : ok c → handleWindowUpdate c f = Some c' → ok c'.
Proof using HE.
  intros Hc. unfold handleWindowUpdate, on_write. destruct (decodeWindowUpdatePayload _) as [off|e]; [|by intros [= <-]].
  destruct (cn_streams c !! _) as [s|] eqn:Hs; [|by intros [= <-]]. cbn [mbind option_bind]. intros [= <-].
  pose proof (ti_lanes _ _ (ck_table _ _ Hc) _ _ Hs) as Hl. cbn beta in Hl.
  unfold setMaxSendOffset. case_bool_decide; (eapply (ok_write E); [exact Hs|exact Hl|done..]).
Qed.

(** the decoded numbers of an ACK or NACK frame *)
Lemma Uint32_u32 l : Forall is_u8 l → is_u32 (Uint32 l).
Proof.
  intros Hl. unfold Uint32. pose proof (be_val_nonneg (take 4 l) (Forall_take _ _ _ Hl)) as Hb.
  assert (Zlen (take 4 l) ≤ 4) by (unfold Zlen; rewrite length_take; lia). pose proof (Zlen_nonneg (take 4 l)).
  assert (256 ^ Zlen (take 4 l) ≤ 256 ^ 4) by (apply Z.pow_le_mono_r; lia). unfold is_u32. lia.
Qed.
Lemma decodeSeqList_u32 f scratch cum seqs : frame_wf f → decodeSeqListFrame f scratch = Ok (cum, seqs) → is_u32 cum ∧ Forall is_u32 seqs.
Proof.
  intros [_ _ Hf]. assert (∀ a b, is_u32 (Uint32 (slice (f_payload f) a b))) as Hu.
  { intros a b. apply Uint32_u32. unfold slice. by apply Forall_take, Forall_drop. }
  unfold decodeSeqListFrame. case_bool_decide; [done|]. case_bool_decide; [done|]. intros [= <- <-]. split; [apply Hu|].
  apply Forall_lookup. intros i x. rewrite list_lookup_imap. intros (y & _ & ->)%fmap_Some. apply Hu.
Qed.

(** an ACK frame names only frames that are settled *)
Definition heeded (f : frame) : Prop := f.(f_ftype) = frameACK → ∀ cum seqs seq, decodeSeqListFrame f [] = Ok (cum, seqs) →
  seq < cum ∨ seq ∈ seqs → cl_settled Cl f.(f_streamID) seq.

Lemma handleACK_ok c f c' : ok c → frame_wf f → f.(f_ftype) = frameACK → heeded f → handleACK E c f = Some c' → ok c'.
Proof using HE.
  intros Hc Hf Hft Hh. unfold handleACK, conn_time. destruct (decodeSeqListFrame f []) as [[cum seqs]|e] eqn:Hd; [|by intros [= <-]].
  destruct (decodeSeqList_u32 f [] cum seqs Hf Hd) as [Hcum Hseqs]. destruct Hf as [Hsid _ _].
  destruct Hc as [(L & HL & Hk & Hcv & Hb) Hw Ht]. cbn [fst snd cn_rq].
  change (cn_rq (c <| cn_tick := S (cn_tick c) |>)) with (cn_rq c).
  pose proof (holds_ackCumulative _ _ L HL (f_streamID f) cum (ce_clock E (cn_tick c)) Hsid Hcum) as H1.
  destruct (ackCumulative (cn_rq c) (f_streamID f) cum (ce_clock E (cn_tick c))) as [[q1 b1] r1]. destruct H1 as (L1 & HL1 & Ha1).
  cbn [cn_tick]. match goal with |- context [ackMany q1 ?s seqs ?n] => pose proof (holds_ackMany _ _ L1 HL1 s seqs n Hsid Hseqs) as H2;
    destruct (ackMany q1 s seqs n) as [[q2 b2] r2] end. destruct H2 as (L2 & HL2 & Ha2).
  set (N := λ s, s < cum ∨ s ∈ seqs).
  pose proof (acknowledged_trans _ N _ _ _ _ _ (acknowledged_mono _ _ N _ _ _ (λ s, @or_introl _ _) Ha1)
    (acknowledged_mono _ _ N _ _ _ (λ s, @or_intror _ _) Ha2)) as Ha.
  assert (Forall (kept_frame E (cn_log c)) L2) as Hk2.
  { apply Forall_forall. intros g Hg. rewrite Forall_forall in Hk. apply Hk. by apply (proj1 Ha). }
  assert (accounted (Cl := Cl) (cn_log c) (backlog c) L2) as Hcv2.
  { eapply accounted_settled; [exact Hcv|exact (proj1 Ha)|]. intros g Hg. destruct (proj1 (proj2 Ha) g Hg) as [?|[-> Hn]]; [by left|right; left]. by eapply Hh. }
  match goal with |- context [if ?b then r2 else r1] => set (sample := if b then r2 else r1) end.
  match goal with |- context [if bool_decide (0 < sample) then ?a else ?b] =>
    set (c2 := if bool_decide (0 < sample) then a else b) end.
  assert (cn_streams c2 = cn_streams c ∧ cn_nil c2 = cn_nil c ∧ cn_rq c2 = q2 ∧ cn_log c2 = cn_log c ∧ cn_tx c2 = cn_tx c ∧ table_inv E c2 ∧ backlog c2 = backlog c)
    as (S1 & S2 & S3 & S4 & S5 & S6 & S7).
  { unfold c2. case_bool_decide; split_and!; try done; destruct Ht; split; assumption. }
  clearbody c2. clear sample.
  assert (∀ S : gmap Z Stream, (cn_nil c = false → books S L2) → table_inv E (c2 <| cn_streams := S |>) → ok (c2 <| cn_streams := S |>)) as Hfin.
  { intros S HbS HtS. split; [|by cbn; rewrite S4, S5|done]. exists L2. change (backlog (c2 <| cn_streams := S |>)) with (backlog c2). cbn. rewrite S2, S3, S4, S7. done. }
  destruct (bool_decide_reflect (b1 + b2 = 0)) as [Hz|Hz].
  { intros [= <-]. replace c2 with (c2 <| cn_streams := cn_streams c |>) by (destruct c2; cbn in *; by subst).
    apply Hfin; [|by rewrite <- S1; destruct c2]. intros Hn. apply (proj2 (books_acked _ _ _ _ _ _ (Hb Hn) Ha)). by right. }
  rewrite S1. unfold on_write. destruct (cn_streams c !! f_streamID f) as [s|] eqn:Hs.
  - cbn [mbind option_bind]. intros [= <-]. rewrite S1.
    apply Hfin; [intros Hn; by apply (proj1 (books_acked _ _ _ _ _ _ (Hb Hn) Ha))|].
    rewrite <- S1. eapply table_write; [by rewrite S1| |done].
    pose proof (ti_lanes _ _ Ht _ _ Hs) as Hl. unfold creditAcked. by case_bool_decide.
  - intros [= <-]. replace c2 with (c2 <| cn_streams := cn_streams c |>) by (destruct c2; cbn in *; by subst).
    apply Hfin; [|by rewrite <- S1; destruct c2]. intros Hn. apply (proj2 (books_acked _ _ _ _ _ _ (Hb Hn) Ha)). by left.
Qed.

(** ** Retransmission *)
Definition req_u32 (r : retransmitRequest) : Prop := is_u32 r.(req_streamID) ∧ is_u32 r.(req_seq).

(** the queue is reordered or marked; the requests are in hand *)
Lemma ok_queue c q R : ok c → (∀ L, rq_holds (cn_rq c) [] L → ∃ L', rq_holds q [] L' ∧ same_frames L L' ∧ resend_marks R L L') →
  ok_with E (Cl := in_hand Cl R) (c <| cn_rq := q |>).
Proof.
  intros [(L & HL & Hk & [Hcv Hwt] & Hb) Hw Ht] Hq. destruct (Hq L HL) as (L' & HL' & Hs & Hm). split; [|done|destruct Ht; split; assumption].
  exists L'. split_and!; [done|by eapply kept_same|split; [exact (covered_same _ _ _ Hs Hcv)|]|]; [|intros Hn; eapply books_same; [exact Hs|by apply Hb]].
  intros f Hf Hqf. cbn [cl_hand in_hand]. rewrite app_assoc. apply elem_of_app. destruct (Hm f Hf Hqf) as [(g & Hg & Hqg & <-)|?]; [left|by right]. by apply Hwt.
Qed.

Lemma enqueueResends_ok c reqs : ok_with E (Cl := in_hand Cl reqs) c → Forall req_u32 reqs → ok (enqueueResends c reqs).
Proof.
  intros Hc Hr. destruct (ck_table _ _ Hc) as [T1 T2 T3 T4 T5 T6 T7].
  pose proof (enqueueResends_spec c reqs T6) as Hb. unfold enqueueResends in *. case_bool_decide as Hz.
  { assert (reqs = []) as -> by (destruct reqs; [done|by unfold Zlen in Hz; cbn in Hz; lia]). by apply ok_in_hand_nil. }
  destruct Hc as [(L & HL & Hk & [Hcv Hwt] & Hbk) Hw _]. split; [|done|].
  - exists L. split_and!; [done|done|split; [exact Hcv|]|done]. intros f Hf Hq. rewrite Hb. specialize (Hwt f Hf Hq). cbn [cl_hand in_hand] in Hwt.
    rewrite !elem_of_app in *. tauto.
  - split; try done.
    + unfold head_ok in *. cbn. rewrite Zlen_app. pose proof (Zlen_nonneg reqs). lia.
    + rewrite Hb. by apply Forall_app.
Qed.
End ops.

Section worker.
Context (E : cenv) (HE : env_ok E) {Cl : claims}.
#[local] Abbreviation X := (ce_tx E).
#[local] Abbreviation cf := (tx_cfg (ce_tx E)).
#[local] Abbreviation ok := (ok_with E (Cl := Cl)).
Implicit Types (c : Connection).

Lemma in_hand_app R R' c : ok_with E (Cl := in_hand (in_hand Cl R) R') c → ok_with E (Cl := in_hand Cl (R ++ R')) c.
Proof. apply ok_weaken; [cbn; by rewrite app_assoc|done|by left]. Qed.

Lemma nackRequests_ok R c sid minAge seqs : ok_with E (Cl := in_hand Cl R) c → is_u32 sid → Forall is_u32 seqs →
  ok_with E (Cl := in_hand Cl (R ++ (nackRequests E c sid minAge seqs).2)) (nackRequests E c sid minAge seqs).1 ∧
  Forall req_u32 (nackRequests E c sid minAge seqs).2.
Proof.
  intros Hc Hsid Hseqs. revert R c Hc. induction Hseqs as [|seq seqs Hseq _ IH]; intros R c Hc; [by rewrite app_nil_r|].
  cbn [nackRequests]. unfold conn_time. cbn [fst snd]. change (cn_rq (c <| cn_tick := S (cn_tick c) |>)) with (cn_rq c).
  set (now := ce_clock E (cn_tick c)). set (c0 := c <| cn_tick := S (cn_tick c) |>).
  assert (ok_with E (Cl := in_hand Cl R) c0) as Hc0 by (unfold c0; ok_same Hc).
  destruct (requestForResend (cn_rq c) sid seq minAge now) as [q r] eqn:Hr.
  assert (ok_with E (Cl := in_hand (in_hand Cl R) (option_list r)) (c0 <| cn_rq := q |>) ∧ (r = None ∨ r = Some (mkRequest sid seq))) as [Hc1 Hr1].
  { destruct (ck_queue _ _ Hc) as (L0 & HL0 & _). pose proof (holds_request _ _ L0 HL0 sid seq minAge now Hsid Hseq) as H0.
    rewrite Hr in H0. split; [|apply H0]. apply ok_queue; [done|]. intros L HL.
    pose proof (holds_request _ _ L HL sid seq minAge now Hsid Hseq) as H1. change (cn_rq c0) with (cn_rq c) in H1. rewrite Hr in H1. apply H1. }
  apply in_hand_app in Hc1. specialize (IH _ _ Hc1). destruct (nackRequests E (c0 <| cn_rq := q |>) sid minAge seqs) as [c2 rs]. destruct IH as [IH1 IH2].
  cbn [fst snd] in *. split; [destruct r; cbn [option_list] in *; by rewrite <- app_assoc in IH1|]. apply Forall_app. split; [|done]. destruct Hr1 as [-> | ->]; [done|]. by apply Forall_cons_2.
Qed.
Lemma handleNack_ok c f : ok c → frame_wf f → ok (handleNack E c f).
Proof.
  intros Hc Hf. unfold handleNack. destruct (decodeSeqListFrame f []) as [[cum seqs]|e] eqn:Hd; [|done].
  destruct (decodeSeqList_u32 f [] cum seqs Hf Hd) as [_ Hseqs]. destruct Hf as [Hsid _ _]. apply ok_in_hand_nil in Hc.
  match goal with |- context [nackRequests E c ?s ?m seqs] => pose proof (nackRequests_ok [] c s m seqs Hc Hsid Hseqs) as Hn;
    destruct (nackRequests E c s m seqs) as [c1 rs] end. destruct Hn. by apply enqueueResends_ok.
Qed.

Lemma popResend_ok c : ok c → ok_with E (Cl := in_hand Cl (option_list (popResend c).2)) (popResend c).1 ∧ ∀ r, (popResend c).2 = Some r → req_u32 r.
Proof.
  intros Hc. destruct (ck_table _ _ Hc) as [T1 T2 T3 T4 T5 T6 T7].
  pose proof (popResend_spec c T6) as Hp. destruct (popResend c) as [c1 r]. destruct Hp as (Hh & Hrq & Hb & _). cbn [fst snd].
  rewrite Hb in T7. apply Forall_app in T7 as [T7a T7b]. split.
  - destruct Hc as [(L & HL & Hk & [Hcv Hwt] & Hbk) Hw _]. rewrite Hrq in *. split; [|done|by split].
    exists L. split_and!; [done|done|split; [exact Hcv|]|done]. intros f Hf Hq. specialize (Hwt f Hf Hq). rewrite Hb in Hwt. cbn [cl_hand in_hand].
    rewrite !elem_of_app in *. tauto.
  - intros r0 ->. by apply Forall_cons in T7a as [? _].
Qed.

(** the worker sends a copy of a pending frame while it holds a loan *)
Definition lending c (d : bslice) : Prop :=
  queue_books E (Cl := Cl) c.(cn_rq) [d] c.(cn_log) (backlog c) c.(cn_streams) c.(cn_nil) ∧ wire_inv E (Cl := Cl) c.(cn_log) c.(cn_tx) ∧ table_inv E c.
Lemma queueCopies_ok n c e data queued d : lending c d → op_fits X (TxResend e.(e_ftype) e.(e_streamID) e.(e_seq) data) →
  op_logged E c.(cn_log) (TxResend e.(e_ftype) e.(e_streamID) e.(e_seq) data) → lending (queueCopies E n c e data queued).1 d.
Proof using HE.
  revert c queued. induction n as [|n IH]; intros c queued Hl Hf Hlog; cbn [queueCopies]; [done|].
  set (m := queueResendCopy X (e_ftype e) (e_streamID e) (e_seq e) data).
  assert (wire_safe E (Cl := Cl) (cn_log c) m) as Hm by (by apply (wire_safe_op E HE _ (TxResend _ _ _ data))).
  assert (lending (tx_do m c).1 d ∧ cn_log (tx_do m c).1 = cn_log c) as [Hl1 Hlog1].
  { split; [|apply tx_do_keeps_log]. destruct Hl as ((L & HL & Hk & Hcv & Hb) & (s & D & Hx & Hs & HD) & Ht).
    split; [|split; [|eapply table_sends; [apply tx_do_sends|done]]].
    - destruct (Hm s D Hs HD) as (s' & r & D' & H1 & _). unfold tx_do. rewrite Hx, H1. cbn [fst].
      exists L. destruct (existsb _ _); split_and!; try done. by apply holds_drain.
    - destruct (Hm s D Hs HD) as (s' & r & D' & H1 & H2 & H3). unfold tx_do. rewrite Hx, H1. cbn [fst].
      destruct (existsb _ _); by exists s', D'. }
  destruct (tx_do m c) as [c1 [err|]]; [done|]. cbn [fst] in *. apply IH; [done|done|]. by rewrite Hlog1.
Qed.

Lemma resendOne_ok c req queued : ok_with E (Cl := in_hand Cl [req]) c → req_u32 req → ok (resendOne E c req queued).1.
Proof using HE.
  intros Hc [Hsid Hseq]. unfold resendOne.
  assert (∀ L, waited (Cl := in_hand Cl [req]) (backlog c) L → (∀ f, f ∈ L → f.(p_queued) = true → request_of f ≠ req) → waited (Cl := Cl) (backlog c) L) as Hdone.
  { intros L Hw Hn f Hf Hq. specialize (Hw f Hf Hq). specialize (Hn f Hf Hq). cbn [cl_hand in_hand] in Hw.
    rewrite app_assoc in Hw. apply elem_of_app in Hw as [?|?%list_elem_of_singleton]; done. }
  destruct (peekForResend _ _) as [x|] eqn:Hpk.
  2:{ destruct Hc as [(L & HL & Hk & [Hcv Hwt] & Hb) Hw Ht]. split; [|done|done]. exists L. split_and!; [done|done|split; [exact Hcv|]|done].
      apply Hdone; [done|]. exact (holds_peek _ _ L HL req Hsid Hseq Hpk). }
  unfold conn_time. cbn [fst snd]. change (cn_rq (c <| cn_tick := S (cn_tick c) |>)) with (cn_rq c). set (now := ce_clock E (cn_tick c)).
  set (c0 := c <| cn_tick := S (cn_tick c) |>). assert (ok_with E (Cl := in_hand Cl [req]) c0) as Hc0 by (unfold c0; ok_same Hc).
  destruct Hc0 as [(L & HL & Hk & [Hcv Hwt] & Hb) Hw Ht]. pose proof (holds_take _ _ L HL req now Hsid Hseq) as Htk.
  change (cn_rq c0) with (cn_rq c) in Htk. destruct (takeForResend (cn_rq c) req now) as [q [e|]].
  2:{ destruct Htk as [-> Hn]. split; [|done|destruct Ht; split; assumption]. exists L. split_and!; [done|done|split; [exact Hcv|]|done]. by apply Hdone. }
  destruct Htk as (d & L' & f & Hd & HL' & Hs & Hum & Hf & _ & Hkey). set (c1 := c0 <| cn_rq := q |>). rewrite Hd.
  assert (lending c1 d) as Hl1.
  { split; [exists L'; split_and!; [done|by eapply kept_same|split; [exact (covered_same _ _ _ Hs Hcv)|]|intros Hn; by eapply books_same, Hb]|].
    - intros g Hg Hq. destruct (proj1 Hum g Hg Hq) as [Hg' Hne]. specialize (Hwt g Hg' Hq). cbn [cl_hand in_hand] in Hwt.
      rewrite app_assoc in Hwt. apply elem_of_app in Hwt as [?|?%list_elem_of_singleton]; done.
    - split; [done|destruct Ht; split; assumption]. }
  assert (kept_frame E (cn_log c) f) as [Hf1 Hf2] by (rewrite Forall_forall in Hk; by apply Hk).
  unfold frame_key in Hkey. injection Hkey as K1 K2 K3 K4. rewrite K1, K2, K3, K4 in Hf1. rewrite K1, K4 in Hf2.
  match goal with |- context [queueCopies E ?n c1 e ?data queued] =>
    pose proof (queueCopies_ok n c1 e data queued d Hl1 Hf2 Hf1) as Hl2; destruct (queueCopies E n c1 e data queued) as [c2 q2] end.
  cbn [fst] in *. destruct Hl2 as ((L2 & HL2 & Hk2 & Hcv2 & Hb2) & Hw2 & Ht2).
  split; [exists L2; split_and!; [by apply holds_release|done|done|done]|done|destruct Ht2; split; assumption].
Qed.

Lemma flush_ok c : ok c → ok (tx_do' (SendBatch.flushSend X) c).
Proof using HE. by apply (tx_op_ok E HE TxFlush). Qed.

Lemma serviceLoop_ok fuel c queued c' q' : ok c → serviceLoop E fuel c queued = Some (c', q') → ok c'.
Proof using HE.
  revert c queued. induction fuel as [|fuel IH]; intros c queued Hc; [done|]. cbn [serviceLoop].
  destruct (popResend_ok c Hc) as [Hp Hr]. destruct (popResend c) as [c1 [r|]]; cbn [fst snd option_list] in *; [|intros [= <- _]; by apply ok_in_hand_nil].
  pose proof (resendOne_ok c1 r queued Hp (Hr r eq_refl)) as H1. destruct (resendOne E c1 r queued) as [c2 q2]. by apply IH.
Qed.
Lemma serviceResends_ok c c' q : ok c → serviceResends E c = Some (c', q) → ok c'.
Proof using HE.
  intros Hc. unfold serviceResends. destruct (serviceLoop _ _ c false) as [[c1 q1]|] eqn:Hs; [|done]. cbn [mbind option_bind].
  apply (serviceLoop_ok _ _ _ _ _ Hc) in Hs. intros [= <- _]. destruct q1; [by apply flush_ok|done].
Qed.

(** ** Garbage collection and the ticker *)

(** no frame of stream [id] is pending *)
Definition settled_all c (id : Z) : Prop := ∃ L, rq_holds c.(cn_rq) [] L ∧ ∀ f, f ∈ L → f.(p_streamID) ≠ id.
Lemma removeStream_ok c id : ok c → settled_all c id → ok (removeStream E c id).
Proof using HE.
  intros [(L & HL & Hk & Hcv & Hb) Hw [T1 T2 T3 T4 T5 T6 T7]] Hs. unfold removeStream, removeStream_bury, removeStream_purge, removeStream_table, conn_purge, conn_time.
  split; [|done|split; try done; cbn].
  - exists (filter (λ f, f.(p_streamID) ≠ id) L). split_and!.
    + apply holds_purge; [done|]. apply (eo_entries _ HE).
    + apply Forall_forall. intros f [_ Hf]%list_elem_of_filter. rewrite Forall_forall in Hk. by apply Hk.
    + eapply accounted_settled; [exact Hcv|by intros f [_ Hf]%list_elem_of_filter|]. intros f Hf. left. apply list_elem_of_filter. split; [|done].
      destruct Hs as (L0 & HL0 & Hn). apply Hn. by eapply (holds_elem _ _ _ HL).
    + intros Hn. by apply books_remove, Hb.
  - intros Hn. by rewrite (T1 Hn), delete_empty.
  - by apply map_Forall_delete.
  - rewrite map_size_delete. destruct (cn_streams c !! id); cbn; lia.
  - intros id'. rewrite dom_delete_L. set_solver.
Qed.
Lemma removeStream_settled c id id' : settled_all c id' → settled_all (removeStream E c id) id'.
Proof using HE.
  intros (L & HL & Hn). exists (filter (λ f, f.(p_streamID) ≠ id) L). split.
  - apply holds_purge; [done|]. apply (eo_entries _ HE).
  - intros f [_ Hf]%list_elem_of_filter. by apply Hn.
Qed.
Lemma collectable_settled c id : ok c → id ∈ collectable E c → settled_all c id.
Proof.
  intros [(L & HL & _) _ _] [Hc _]%list_elem_of_filter. exists L. split; [done|]. destruct (cn_streams c !! id) as [st|]; [|done].
  apply andb_true_iff in Hc as [_ Hh%negb_true_iff]. by apply (holds_hasStream _ _ _ HL).
Qed.
Lemma gcStreams_ok c : ok c → ok (gcStreams E c).
Proof using HE.
  intros Hc. unfold gcStreams.
  assert (Forall (settled_all c) (collectable E c)) as Hs by (apply Forall_forall; intros id; by apply collectable_settled).
  revert Hs. generalize (collectable E c). intros ids Hs. assert (ok (foldl (removeStream E) c ids)) as H1.
  { revert c Hc Hs. induction ids as [|id ids IH]; intros c Hc Hs; [done|]. apply Forall_cons in Hs as [H1 H2]. apply IH; [by apply removeStream_ok|].
    eapply Forall_impl; [exact H2|]. intros id'. apply removeStream_settled. }
  unfold conn_time. ok_same H1.
Qed.

Lemma tailNackScan_ok c c' : ok c → tailNackScan E c = Some c' → ok c'.
Proof using HE.
  intros Hc. unfold tailNackScan, conn_time. set (c0 := c <| cn_tick := _ |>). assert (ok c0) as Hc0 by (unfold c0; ok_same Hc).
  clearbody c0. clear Hc. set (now := ce_clock E (cn_tick c)). generalize (ce_range_ids E (dom (cn_streams c0))). intros ids.
  revert c0 Hc0. induction ids as [|id ids IH]; intros c0 Hc0; [by intros [= <-]|]. cbn [foldl].
  unfold tailNackStep at 2. cbn [mbind option_bind]. destruct (cn_streams c0 !! id) as [st|] eqn:Hst; [|by apply IH].
  destruct (on_read E c0 id st _) as [[c1 a]|] eqn:Ho; cbn [mbind option_bind].
  - apply IH. by eapply (on_read_ok E HE).
  - intros Hx. exfalso. clear -Hx. induction ids; [done|]. auto.
Qed.

Lemma retransmitTick_ok c : ok c → ∃ c', retransmitTick E c = Some c' ∧ ok c'.
Proof using HE.
  intros Hc. unfold retransmitTick, conn_time. change (cn_rq (c <| cn_tick := S (cn_tick c) |>)) with (cn_rq c).
  set (c0 := c <| cn_tick := _ |>). assert (ok c0) as Hc0 by (unfold c0; ok_same Hc).
  destruct (ck_queue _ _ Hc) as (L & HL & _). set (now := ce_clock E (cn_tick c)).
  destruct (holds_due _ _ L HL (currentRTO (cn_est c0)) now) as (q & rs & L' & Hd & _ & _ & _ & _ & Hrs).
  rewrite Hd. cbn [mbind option_bind].
  assert (ok_with E (Cl := in_hand Cl rs) (c0 <| cn_rq := q |>)) as Hc1.
  { apply ok_queue; [done|]. intros L0 HL0. destruct (holds_due _ _ L0 HL0 (currentRTO (cn_est c0)) now) as (q0 & rs0 & L0' & Hd0 & H0 & H0' & H0'' & _).
    change (cn_rq c0) with (cn_rq c) in Hd0. rewrite Hd in Hd0. injection Hd0 as <- <-. by exists L0'. }
  apply (enqueueResends_ok E) in Hc1; [|done]. set (c2 := enqueueResends _ rs) in *.
  destruct (tailNackScan_total E c2) as [c3 H3]. rewrite H3. cbn [mbind option_bind]. eexists. split; [done|].
  apply gcStreams_ok. by eapply tailNackScan_ok.
Qed.

(** ** Acknowledgements *)
Lemma ack_ok c sid cum seqs : ok c → Zlen seqs ≤ maxAckSeqsPerFrame cf.(maxPayload) → cl_ack Cl sid cum seqs → ok (tx_do' (queueACKFrame X sid cum seqs) c).
Proof using HE.
  intros Hc Hs Hcl. apply (tx_op_ok E HE (TxAck sid cum seqs)); [|done|done|done]. cbn. split; [done|].
  pose proof (eo_payload _ HE). unfold maxAckSeqsPerFrame in Hs. Z.to_euclidean_division_equations; lia.
Qed.
Lemma chunk_le (rest : list Z) m : 0 ≤ m → Zlen (slice rest 0 (if bool_decide (m < Zlen rest) then m else Zlen rest)) ≤ m.
Proof. intros Hm. pose proof (Zlen_nonneg rest). case_bool_decide; rewrite Zlen_slice; lia. Qed.
Lemma slice_subseteq {A} (l : list A) a b : slice l a b ⊆ l.
Proof. unfold slice. intros x [n Hn]%list_elem_of_lookup. apply lookup_take_Some in Hn as [Hn _]. rewrite lookup_drop in Hn. by eapply list_elem_of_lookup_2. Qed.

(** an ACK frame may name some of [seqs] *)
Definition may_ack (sid cum : Z) (seqs : list Z) : Prop := ∀ sub, sub ⊆ seqs → cl_ack Cl sid cum sub.
Lemma may_ack_sub sid cum seqs seqs' : seqs' ⊆ seqs → may_ack sid cum seqs → may_ack sid cum seqs'.
Proof. intros Hs Hm sub Hsub. apply Hm. by etrans. Qed.

Lemma ackSnapLoop_ok fuel c sid cum rest c' : ok c → may_ack sid cum rest → 0 < maxAckSeqsPerFrame cf.(maxPayload) →
  ackSnapLoop E fuel c sid cum (maxAckSeqsPerFrame cf.(maxPayload)) rest = Some c' → ok c'.
Proof using HE.
  intros Hc Ha Hm. revert c rest Hc Ha. induction fuel as [|fuel IH]; intros c rest Hc Ha; [done|]. cbn [ackSnapLoop].
  pose proof (ack_ok c sid cum _ Hc (chunk_le rest (maxAckSeqsPerFrame cf.(maxPayload)) ltac:(lia)) (Ha _ (slice_subseteq _ _ _))) as H1.
  destruct (bool_decide (Zlen (slice rest _ (Zlen rest)) = 0)); [by intros [= <-]|]. apply IH; [done|]. eapply may_ack_sub, Ha. apply slice_subseteq.
Qed.
Lemma ackListLoop_ok fuel c sid rest c' : ok c → may_ack sid 0 rest → 0 < maxAckSeqsPerFrame cf.(maxPayload) →
  ackListLoop E fuel c sid (maxAckSeqsPerFrame cf.(maxPayload)) rest = Some c' → ok c'.
Proof using HE.
  intros Hc Ha Hm. revert c rest Hc Ha. induction fuel as [|fuel IH]; intros c rest Hc Ha; cbn [ackListLoop].
  { destruct (bool_decide _); [done|]. by intros [= <-]. }
  pose proof (ack_ok c sid 0 _ Hc (chunk_le rest (maxAckSeqsPerFrame cf.(maxPayload)) ltac:(lia)) (Ha _ (slice_subseteq _ _ _))) as H1.
  destruct (bool_decide (0 < Zlen rest)); [|by intros [= <-]]. apply IH; [done|]. eapply may_ack_sub, Ha. apply slice_subseteq.
Qed.
Lemma ackSnapLoop_sends fuel c sid cum m rest c' : ackSnapLoop E fuel c sid cum m rest = Some c' → sends c c'.
Proof.
  revert c rest. induction fuel as [|fuel IH]; intros c rest; cbn [ackSnapLoop]; [done|].
  destruct (_ =? 0); [intros [= <-]; apply tx_do_sends|]. intros H1%IH. etrans; [apply tx_do_sends|exact H1].
Qed.
Lemma ackListLoop_sends fuel c sid m rest c' : ackListLoop E fuel c sid m rest = Some c' → sends c c'.
Proof.
  revert c rest. induction fuel as [|fuel IH]; intros c rest; cbn [ackListLoop]; (destruct (_ >? 0); [|by intros [= <-]]); [done|].
  intros H1%IH. etrans; [apply tx_do_sends|exact H1].
Qed.

(** everything a flush would acknowledge may be *)
Definition snap_ok (sid : Z) (r : rside) : Prop := may_ack sid (ackSnapshot r).2.1.1 (ackSnapshot r).2.1.2.
Definition may_flush c : Prop :=
  (∀ sid st, c.(cn_streams) !! sid = Some st → snap_ok sid st.(st_read)) ∧ (∀ sid l, c.(cn_sReadIdsToAck) !! sid = Some l → may_ack sid 0 l).
Lemma may_flush_same c c' : cn_streams c' = cn_streams c → cn_sReadIdsToAck c' = cn_sReadIdsToAck c → may_flush c → may_flush c'.
Proof. unfold may_flush. by intros -> ->. Qed.
Lemma may_flush_sends c c' : sends c c' → may_flush c → may_flush c'.
Proof. intros (H1 & _ & _ & _ & H2 & _)%sends_fields. by apply may_flush_same. Qed.

(** a second snapshot says no more than the first *)
Lemma snap_again sid r k t : snap_ok sid r → snap_ok sid ((ackSnapshot r).1 <| tick := t |> <| calls := k |>).
Proof using. clear. apply may_ack_sub. cbn. set_solver. Qed.

Lemma ackDirtyStep_ok c q sid c' q' : 0 < maxAckSeqsPerFrame cf.(maxPayload) → ok c → may_flush c →
  ackDirtyStep E (maxAckSeqsPerFrame cf.(maxPayload)) (Some (c, q)) sid = Some (c', q') → ok c' ∧ may_flush c'.
Proof using HE.
  intros Hm Hc Hf. unfold ackDirtyStep. cbn [mbind option_bind]. destruct (cn_streams c !! sid) as [st|] eqn:Hs.
  2:{ intros [= <- _]. split; [ok_same Hc|done]. }
  destruct (on_read E c sid st _) as [[c1 [[cum seqs] granted]]|] eqn:Ho; [|done]. cbn [mbind option_bind].
  pose proof (on_read_ok E HE c sid st _ _ _ Hs Hc Ho) as Hc1. apply on_read_eq in Ho as (s & [= <- <- <- <-] & Hsd).
  pose proof (proj1 Hf _ _ Hs) as Ha. apply may_flush_sends in Hsd.
  2:{ destruct Hf as [F1 F2]. split; [|done]. intros sid' st'. cbn. intros [[<- <-]|[_ Hst]]%lookup_insert_Some; [|by apply F1].
      by apply (snap_again sid (st_read st) []). }
  destruct (ackSnapLoop _ _ _ _ _ _ _) as [c2|] eqn:Hl; [|done]. cbn [mbind option_bind].
  intros [= <- _]. apply ackSnapLoop_sends in Hl as Hl'. apply ackSnapLoop_ok in Hl; [|done|done|lia]. apply (may_flush_sends c1) in Hl'; [|done].
  pose proof (tx_op_ok E HE (TxWindow sid (u64 (peerOffset (st_read st)))) c2 I I I Hl) as H2. split; [ok_same H2|].
  apply (may_flush_sends _ _ (tx_do_sends (queueWindowUpdate X sid (u64 (peerOffset (st_read st)))) c2)) in Hl'.
  by eapply may_flush_same, Hl'.
Qed.
Lemma ackListStep_ok c q sid c' q' : 0 < maxAckSeqsPerFrame cf.(maxPayload) → ok c → may_flush c →
  ackListStep E (maxAckSeqsPerFrame cf.(maxPayload)) (Some (c, q)) sid = Some (c', q') → ok c' ∧ may_flush c'.
Proof using HE.
  intros Hm Hc Hf. unfold ackListStep. cbn [mbind option_bind]. destruct (cn_sReadIdsToAck c !! sid) as [l|] eqn:Hl; [|by intros [= <- _]].
  cbn [default]. case_test; [by intros [= <- _]|]. pose proof (proj2 Hf _ _ Hl) as Ha.
  destruct (ackListLoop _ _ _ _ _ _) as [c1|] eqn:H1; [|done]. cbn [mbind option_bind]. intros [= <- _].
  apply ackListLoop_sends in H1 as H1'. apply ackListLoop_ok in H1; [|done|done|lia]. apply (may_flush_sends c) in H1' as [F1 F2]; [|done].
  split; [ok_same H1|]. split; [done|]. cbn. intros sid' l' [[<- <-]|[_ Hl']]%lookup_insert_Some; [|by eapply F2]. eapply may_ack_sub, Ha. set_solver.
Qed.

Lemma foldl_ok {B} (P : Connection → Prop) (g : option (Connection * bool) → B → option (Connection * bool)) (l : list B) c q c' q' :
  (∀ b, g None b = None) → (∀ c q b c' q', P c → g (Some (c, q)) b = Some (c', q') → P c') →
  P c → foldl g (Some (c, q)) l = Some (c', q') → P c'.
Proof.
  intros Hn Hg. revert c q. induction l as [|b l IH]; intros c q Hc; [by intros [= <- _]|]. cbn [foldl].
  destruct (g (Some (c, q)) b) as [[c1 q1]|] eqn:H1; [by apply IH, (Hg c q b c1 q1)|].
  intros Hx. exfalso. clear -Hx Hn. induction l; [done|]. cbn in Hx. rewrite Hn in Hx. auto.
Qed.

Lemma flushPendingAcksLocked_ok c c' : ok c → may_flush c → flushPendingAcksLocked E c = Some c' → ok c'.
Proof using HE.
  intros Hc Hf. unfold flushPendingAcksLocked. destruct (bool_decide_reflect (maxAckSeqsPerFrame cf.(maxPayload) ≤ 0)) as [|Hm]; [by intros [= <-]|].
  destruct (foldl (ackDirtyStep E _) _ _) as [[c1 q1]|] eqn:H1; [|done]. cbn [mbind option_bind].
  apply (foldl_ok (λ c, ok c ∧ may_flush c)) in H1; [|done|intros ? ? ? ? ? []; apply ackDirtyStep_ok; [lia|done|done]|done].
  destruct (foldl (ackListStep E _) _ _) as [[c2 q2]|] eqn:H2; [|done]. cbn [mbind option_bind]. intros [= <-].
  apply (foldl_ok (λ c, ok c ∧ may_flush c)) in H2 as [H2 _]; [|done|intros ? ? ? ? ? []; apply ackListStep_ok; [lia|done|done]|done].
  destruct q2; [by apply flush_ok|done].
Qed.
End worker.

(** nothing need be claimed *)
Lemma no_claims_heeded f : heeded (Cl := no_claims) f.
Proof. done. Qed.
Lemma no_claims_flush c : may_flush (Cl := no_claims) c.
Proof. done. Qed.
