(* ===== verification/ConnRun.v ===== *)
(** * Runs of a connection

    A connection is driven by its application, its peer and its timers.  The
    states it can reach are defined by rule induction over its operations;
    this file shows what holds in all of them. *)
From S2P Require Import Prelude Errors Frame Float64 Pacer Options Ring StreamRecv Retransmit RetransmitSpec RetransmitRefine.
From S2P Require Import StreamSend SendRule Estimator SendBatch BatchInv SendFifo Connection ConnLemmas Termination ConnBooks ConnInv ConnOps.

(** ** Operations *)
Inductive conn_op :=
  | KOpen
  | KOpenSync                               (* a pass of [OpenStreamSync] *)
  | KAccept
  | KWrite (sid : Z) (p : list Z)           (* a [Write], or the rest of a waiting one *)
  | KCloseWrite (sid : Z)
  | KCancelWrite (sid code : Z)
  | KRead (sid plen : Z)
  | KCancelRead (sid code : Z)
  | KSetDeadline (sid t : Z)
  | KReceive (msgs : list (list Z))         (* a [recvmmsg] batch *)
  | KForward (buf : list Z)                 (* a datagram from the listener's socket *)
  | KService                                (* the resend worker *)
  | KWake                                   (* it takes the token of [resendWake] *)
  | KTick                                   (* the retransmission ticker *)
  | KKeepAlive                              (* the keep-alive ticker *)
  | KPing (sid seq : Z)
  | KHandshake (connID : Z)                 (* a client's handshake *)
  | KHandshakeAck                           (* the listener's answer *)
  | KCloseBegin                             (* [Close]'s sections; others may come between *)
  | KCloseGoAway
  | KCloseFence.

Section run.
Context (E : cenv).
#[local] Abbreviation cf := (tx_cfg (ce_tx E)).
Implicit Types (c : Connection).

(** run [k] on stream [sid] of the table *)
Definition on_stream c (sid : Z) (k : Stream → option Connection) : option Connection :=
  match c.(cn_streams) !! sid with Some st => k st | None => Some c end.
(** an operation of the write side *)
Definition do_write c (sid : Z) (op : wside → Connection → option (wside * Connection)) : option Connection :=
  on_stream c sid (λ st, '(c, _) ← on_write c sid st (λ w c, '(w, c) ← op w c; Some (w, c, ())); Some c).
Definition do_read c (sid : Z) (op : renv → rside → rside) : option Connection :=
  on_stream c sid (λ st, '(c, _) ← on_read E c sid st (λ e s, Some (op e s, ())); Some c).

Definition conn_step c (op : conn_op) : option Connection :=
  match op with
  | KOpen => Some (OpenStream E c).1
  | KOpenSync => Some (OpenStreamSync E c).1
  | KAccept => Some (AcceptStream c).1
  | KWrite sid p => do_write c sid (λ w c, '(w, c, _) ← @Write _ (conn_path E) cf sid w c p; Some (w, c))
  | KCloseWrite sid => do_write c sid (λ w c, Some (@stream_Close _ (conn_path E) sid w c).1)
  | KCancelWrite sid code => do_write c sid (λ w c, Some (@CancelWrite _ (conn_path E) sid w c code))
  | KRead sid plen => do_read c sid (λ e s, (tryRead e s plen).1)
  | KCancelRead sid code => do_read c sid (λ _ s, CancelRead s code)
  | KSetDeadline sid t =>
      on_stream c sid (λ st, Some (c <| cn_streams := <[sid := SetDeadline st t]> c.(cn_streams) |>))
  | KReceive msgs => readBatch E c msgs
  | KForward buf => handleDatagramAndFlush E c buf
  | KService => '(c, _) ← serviceResends E c; Some c
  | KWake => Some (c <| cn_resendWake := false |>)
  | KTick => retransmitTick E c
  | KKeepAlive => Some (keepAliveTick E c)
  | KPing sid seq => Some (SendPing E c sid seq).1
  | KHandshake connID => Some (conn_sendHandshake E c connID).1
  | KHandshakeAck => Some (tx_do' (sendControlFrame E.(ce_tx) frameHandshake 0 0) c)
  | KCloseBegin => Some (Close_begin c)
  | KCloseGoAway => Some (Close_goaway E c)
  | KCloseFence => Some (Close_fence E c).1
  end.

(** what is asked of an operation: input is bytes, and the 32-bit counters
    for frames and streams do not run out *)
Definition op_ok c (op : conn_op) : Prop :=
  match op with
  | KWrite sid p => ∀ st, c.(cn_streams) !! sid = Some st → st.(st_write).(writeSeq) + Zlen p < 2 ^ 32
  | KOpen | KOpenSync => c.(cn_nextStream) + 2 < 2 ^ 32
  | KReceive msgs => Forall (Forall is_u8) msgs
  | KForward buf => Forall is_u8 buf
  | _ => True
  end.

(** the states of a connection *)
Inductive reachable : Connection → Prop :=
  | reach_new : reachable (newConnection E)
  | reach_step c op c' : reachable c → op_ok c op → conn_step c op = Some c' → reachable c'.
End run.

(** ** The invariant in every state *)
Section ok.
Context (E : cenv) (HE : env_ok E) {Cl : claims}.
#[local] Abbreviation X := (ce_tx E).
#[local] Abbreviation cf := (tx_cfg (ce_tx E)).
#[local] Abbreviation ok := (ok_with E (Cl := Cl)).
Implicit Types (c : Connection).

Lemma control_ok c ft sid seq : control_type ft → ok c → ok (tx_do' (sendControlFrame X ft sid seq) c).
Proof using HE. intros Hft. by apply (tx_op_ok E HE (TxControl ft sid seq)). Qed.

Lemma dispatch_ok_with c f c' : ok c → frame_wf f → heeded (Cl := Cl) f → dispatchFrameLocked E c f = Some c' → ok c'.
Proof using HE.
  intros Hc Hf Hh. unfold dispatchFrameLocked. set (c0 := c <| cn_missedPongs := 0 |>).
  assert (ok c0) as Hc0 by (unfold c0; ok_same Hc). clearbody c0.
  assert (∀ t, control_type t → ok (tx_do' (sendControlFrame X t (f_streamID f) (f_seq f)) c0)) as Hctl by (intros; by apply control_ok).
  destruct (bool_decide (f_ftype f = frameData)).
  { destruct (bool_decide _); [|by apply handleArrival_ok]. destruct (bool_decide _); [by intros [= <-]|].
    apply handleArrival_ok; [done..|]. destruct Hf as [F1 F2 F3]. split; [done|done|]. cbn. unfold slice. by apply Forall_take, Forall_drop. }
  destruct (bool_decide (f_ftype f = frameFEC)); [by apply handleFec_ok|].
  destruct (bool_decide (f_ftype f = frameFECRow)); [destruct (fec2D cf); [by apply handleFec_ok|by intros [= <-]]|].
  destruct (bool_decide (f_ftype f = frameStreamFIN)); [by apply handleArrival_ok|].
  destruct (bool_decide (f_ftype f = frameStreamReset)); [by apply handleStreamReset_ok|].
  destruct (bool_decide (f_ftype f = frameStopSending)); [by apply handleStopSending_ok|].
  destruct (bool_decide (f_ftype f = frameWindowUpdate)); [by apply handleWindowUpdate_ok|].
  destruct (bool_decide (f_ftype f = framePing)); [intros [= <-]; apply Hctl; set_solver|].
  destruct (bool_decide (f_ftype f = framePong)).
  { intros [= <-]. unfold handlePong, conn_time. destruct (bool_decide _); [|done]. ok_same Hc0. }
  destruct (bool_decide (f_ftype f = frameGoAway)); [intros [= <-]; ok_same Hc0|].
  destruct (bool_decide_reflect (f_ftype f = frameACK)); [by apply handleACK_ok|].
  destruct (bool_decide (f_ftype f = frameNack)); [intros [= <-]; by apply handleNack_ok|].
  destruct (bool_decide (f_ftype f = frameHandshake)); [|by intros [= <-]].
  intros [= <-]. unfold handleHandshake. destruct (cn_closed c0); [done|]. destruct (ce_isClient E); [ok_same Hc0|].
  apply control_ok; [set_solver|done].
Qed.

Lemma decodeFrame_wf buf f : Forall is_u8 buf → decodeFrame buf = Ok f → frame_wf f.
Proof.
  intros Hb. assert (∀ a b, is_u32 (Uint32 (slice buf a b))) as Hu.
  { intros a b. apply Uint32_u32. unfold slice. by apply Forall_take, Forall_drop. }
  unfold decodeFrame, decodeHeader. repeat case_test; try done; intros [= <-]; split; cbn; try done; try apply Hu.
  unfold slice. by apply Forall_take, Forall_drop.
Qed.

(** every frame parsed from [buf] is heeded *)
Fixpoint heeds (fuel : nat) (buf : list Z) : Prop :=
  match fuel with
  | O => True
  | S fuel => if Zlen buf >=? frameHeaderSize then
      match decodeFrame buf with Ok f => heeded (Cl := Cl) f ∧ heeds fuel (slice buf (frameHeaderSize + f.(f_length)) (Zlen buf)) | Err _ => True end
      else True
  end.
(** ... and of a message *)
Definition heeds_all (buf : list Z) : Prop := heeds (S (length buf)) buf.

Lemma parseLoop_ok_with fuel c buf c' : ok c → Forall is_u8 buf → heeds fuel buf → parseLoop E fuel c buf = Some c' → ok c'.
Proof using HE.
  revert c buf. induction fuel as [|fuel IH]; intros c buf Hc Hb; [done|]. cbn [parseLoop heeds]. case_test; [|by intros _ [= <-]].
  destruct (decodeFrame buf) as [f|e] eqn:Hd; [|by intros _ [= <-]]. intros [Hh Hhs].
  destruct (dispatchFrameLocked E c f) as [c1|] eqn:H1; [|done]. cbn [mbind option_bind].
  apply IH; [|unfold slice; by apply Forall_take, Forall_drop|done]. eapply dispatch_ok_with; [exact Hc|by eapply decodeFrame_wf|done|done].
Qed.
Lemma handleDatagramLocked_ok_with c buf c' : ok c → Forall is_u8 buf → heeds_all buf → handleDatagramLocked E c buf = Some c' → ok c'.
Proof using HE. intros Hc Hb Hh. unfold handleDatagramLocked. destruct (cn_closed c); [by intros [= <-]|]. by apply parseLoop_ok_with. Qed.
Lemma readMessages_ok_with c msgs c' : ok c → Forall (Forall is_u8) msgs → Forall heeds_all msgs → readMessages E c msgs = Some c' → ok c'.
Proof using HE.
  intros Hc Hm. revert c Hc. induction Hm as [|m msgs Hm _ IH]; intros c Hc Hh; cbn [readMessages]; [by intros [= <-]|]. apply Forall_cons in Hh as [H1 H2].
  case_test; [by apply IH|]. destruct (handleDatagramLocked E c m) as [c1|] eqn:H3; [|done]. cbn [mbind option_bind].
  apply IH; [|done]. by eapply handleDatagramLocked_ok_with.
Qed.

(** what is asked of an operation for the sake of the claims *)
Definition op_heeded c (op : conn_op) : Prop :=
  match op with
  | KReceive msgs => Forall heeds_all msgs ∧ ∀ c1, readMessages E c msgs = Some c1 → may_flush (Cl := Cl) c1
  | KForward buf => heeds_all buf ∧ ∀ c1, handleDatagramLocked E c buf = Some c1 → may_flush (Cl := Cl) c1
  | _ => True
  end.

(** ** Steps *)
Lemma do_write_ok c sid op : ok c →
  (∀ st, cn_streams c !! sid = Some st → ∃ w' c', op st.(st_write) c = Some (w', c') ∧ sends c c' ∧
     write_inv E (Cl := Cl) sid st.(st_read) (cn_streams c) w' c' ∧ lanes_small cf w') →
  ∃ c', do_write c sid op = Some c' ∧ ok c'.
Proof.
  intros Hc Hop. unfold do_write, on_stream, on_write. destruct (cn_streams c !! sid) as [st|] eqn:Hst; [|by eauto].
  destruct (Hop st eq_refl) as (w' & c' & -> & Hs & Hi & Hl). cbn [mbind option_bind]. eexists. split; [done|].
  eapply write_done; [|done|exact Hi]. by apply sends_fields in Hs as (? & _).
Qed.
Lemma do_read_ok c sid op : ok c → ∃ c', do_read E c sid op = Some c' ∧ ok c'.
Proof using HE.
  intros Hc. unfold do_read, on_stream. destruct (cn_streams c !! sid) as [st|] eqn:Hst; [|by eauto].
  destruct (on_read_total E c sid st (λ e s, Some (op e s, ()))) as (c1 & a & H1); [by eauto|].
  rewrite H1. cbn [mbind option_bind]. eexists. split; [done|]. by eapply (on_read_ok E HE).
Qed.

Lemma SendPing_ok c sid seq : ok c → ok (SendPing E c sid seq).1.
Proof using HE.
  intros Hc. unfold SendPing, conn_time. cbn [fst snd]. set (c1 := c <| cn_tick := _ |> <| cn_sendPingMs := _ |>).
  assert (ok c1) as Hc1 by (unfold c1; ok_same Hc). clearbody c1.
  pose proof (control_ok c1 framePing sid seq ltac:(set_solver) Hc1) as H2. unfold tx_do' in H2.
  destruct (tx_do _ c1) as [c2 [e|]]; cbn [fst] in *; [ok_same H2|done].
Qed.

Lemma OpenStreamSync_ok c : ok c → c.(cn_nextStream) + 2 < 2 ^ 32 → ok (OpenStreamSync E c).1.
Proof using HE.
  intros Hc Hn. pose proof (OpenStream_ok E HE c Hc Hn) as H1. unfold OpenStreamSync. destruct (OpenStream E c) as [c1 [id|[]]]; cbn [fst] in *; try done.
  destruct (cn_closed c1); [done|]. ok_same H1.
Qed.
Lemma Close_fence_ok c : ok c → ok (Close_fence E c).1.
Proof.
  intros [(L & HL & Hk & Hcv & _) Hw [T1 T2 T3 T4 T5 T6 T7]]. split; [by exists L|done|]. split; try done; cbn.
  rewrite map_size_empty. lia.
Qed.

Lemma conn_step_ok_with c op : ok c → op_ok c op → op_heeded c op → ∃ c', conn_step E c op = Some c' ∧ ok c'.
Proof using HE.
  intros Hc Hop Hh. pose proof (ck_table _ _ Hc) as Ht.
  assert (∀ sid st, cn_streams c !! sid = Some st → lanes_small cf st.(st_write)) as Hl by (intros sid st; apply (ti_lanes _ _ Ht)).
  destruct op as [| | |sid p|sid|sid code|sid plen|sid code|sid t|msgs|buf| | | | |sid seq|connID| | | |]; cbn [conn_step op_ok op_heeded] in *.
  - eexists. split; [done|]. by apply OpenStream_ok.
  - eexists. split; [done|]. by apply OpenStreamSync_ok.
  - eexists. split; [done|]. unfold AcceptStream. destruct (cn_closed c); [done|]. destruct (cn_acceptCh c); [done|]. ok_same Hc.
  - apply do_write_ok; [done|]. intros st Hst. specialize (Hop st Hst). unfold Write.
    pose proof (write_inv_intro E HE sid st c Hst Hc) as Hi.
    destruct (writeLoop_ok E HE sid (st_read st) (cn_streams c) (S (length p)) (st_write st) c p 0 Hi (Hl _ _ Hst) Hop ltac:(lia))
      as (w' & c' & o & H1 & H2 & H3).
    rewrite H1. cbn [mbind option_bind]. exists w', c'. split_and!; [done| |done|done].
    eapply proj1, writeLoop_serves; [exact HE|..|exact H1]; [by eapply Hl|by eapply seq_u32|done|lia].
  - apply do_write_ok; [done|]. intros st Hst. pose proof (write_inv_intro E HE sid st c Hst Hc) as Hi. unfold stream_Close.
    pose proof (CloseWrite_ok E HE sid (st_read st) (cn_streams c) (st_write st) c Hi (Hl _ _ Hst)) as H1.
    pose proof (proj1 (CloseWrite_serves E HE sid c (st_write st) (Hl _ _ Hst))) as H2.
    destruct (@CloseWrite _ (conn_path E) sid (st_write st) c) as [[w' c'] e]. destruct H1. by exists w', c'.
  - apply do_write_ok; [done|]. intros st Hst. pose proof (write_inv_intro E HE sid st c Hst Hc) as Hi. unfold CancelWrite.
    pose proof (abort_ok E HE sid (st_read st) (cn_streams c) (st_write st) c code Hi (Hl _ _ Hst)) as H1.
    pose proof (proj1 (abort_serves E HE sid c (st_write st) code (Hl _ _ Hst))) as H2.
    destruct (@abortWriteLocked _ (conn_path E) sid (st_write st) c code true) as [w' c']. destruct H1. by exists w', c'.
  - by apply do_read_ok.
  - by apply do_read_ok.
  - unfold on_stream. destruct (cn_streams c !! sid) as [st|] eqn:Hst; [|by eauto]. eexists. split; [done|].
    unfold SetDeadline. eapply (ok_write E); [exact Hst|exact (Hl _ _ Hst)|done..].
  - unfold readBatch. destruct (cn_closed c); [by eauto|]. destruct (readMessages_total E c msgs Hop) as [c1 H1]. rewrite H1.
    cbn [mbind option_bind]. destruct Hh as [Hh Hf]. specialize (Hf c1 H1). apply (readMessages_ok_with _ _ _ Hc Hop Hh) in H1.
    destruct (flushPendingAcksLocked_total E c1) as [c2 H2]. exists c2. split; [done|]. by eapply flushPendingAcksLocked_ok.
  - unfold handleDatagramAndFlush. destruct (cn_closed c); [by eauto|]. destruct (handleDatagramLocked_total E c buf Hop) as [c1 H1].
    rewrite H1. cbn [mbind option_bind]. destruct Hh as [Hh Hf]. specialize (Hf c1 H1). apply (handleDatagramLocked_ok_with _ _ _ Hc Hop Hh) in H1.
    destruct (flushPendingAcksLocked_total E c1) as [c2 H2]. exists c2. split; [done|]. by eapply flushPendingAcksLocked_ok.
  - destruct (serviceResends_total E c (ti_head _ _ Ht)) as (c1 & q & H1). rewrite H1. cbn [mbind option_bind].
    eexists. split; [done|]. by eapply serviceResends_ok.
  - eexists. split; [done|]. ok_same Hc.
  - by apply retransmitTick_ok.
  - eexists. split; [done|]. unfold keepAliveTick. case_test; [ok_same Hc|]. apply SendPing_ok. ok_same Hc.
  - eexists. split; [done|]. by apply SendPing_ok.
  - eexists. split; [done|]. by apply (tx_op_ok E HE (TxHandshake connID)).
  - eexists. split; [done|]. apply control_ok; [set_solver|done].
  - eexists. split; [done|]. unfold Close_begin. ok_same Hc.
  - eexists. split; [done|]. apply control_ok; [set_solver|done].
  - eexists. split; [done|]. by apply Close_fence_ok.
Qed.

End ok.

(** ** Without claims *)
Section plain.
Context (E : cenv) (HE : env_ok E).
#[local] Abbreviation ok := (conn_ok E).
Implicit Types (c : Connection).

Lemma no_claims_heeds buf : heeds_all (Cl := no_claims) buf.
Proof. unfold heeds_all. generalize (S (length buf)) as n. intros n. revert buf. induction n as [|n IH]; intros buf; [done|]. cbn. case_test; [|done]. by destruct (decodeFrame buf). Qed.
Lemma no_claims_op c op : op_heeded E (Cl := no_claims) c op.
Proof.
  destruct op; try done; (split; [|done]); [|apply no_claims_heeds]. apply Forall_forall. intros m _. apply no_claims_heeds.
Qed.

Lemma dispatch_ok c f c' : ok c → frame_wf f → dispatchFrameLocked E c f = Some c' → ok c'.
Proof using HE. intros. by eapply (dispatch_ok_with E HE (Cl := no_claims)). Qed.
Lemma parseLoop_ok fuel c buf c' : ok c → Forall is_u8 buf → parseLoop E fuel c buf = Some c' → ok c'.
Proof using HE.
  revert c buf. induction fuel as [|fuel IH]; intros c buf Hc Hb; [done|]. cbn [parseLoop]. case_test; [|by intros [= <-]].
  destruct (decodeFrame buf) as [f|e] eqn:Hd; [|by intros [= <-]].
  destruct (dispatchFrameLocked E c f) as [c1|] eqn:H1; [|done]. cbn [mbind option_bind].
  apply IH; [|unfold slice; by apply Forall_take, Forall_drop]. eapply dispatch_ok; [exact Hc|by eapply decodeFrame_wf|done].
Qed.
Lemma handleDatagramLocked_ok c buf c' : ok c → Forall is_u8 buf → handleDatagramLocked E c buf = Some c' → ok c'.
Proof using HE. intros. eapply (handleDatagramLocked_ok_with E HE (Cl := no_claims)); [done|done|apply no_claims_heeds|done]. Qed.
Lemma readMessages_ok c msgs c' : ok c → Forall (Forall is_u8) msgs → readMessages E c msgs = Some c' → ok c'.
Proof using HE.
  intros. eapply (readMessages_ok_with E HE (Cl := no_claims)); [done|done| |done]. apply Forall_forall. intros m _. apply no_claims_heeds.
Qed.
Lemma conn_step_ok c op : ok c → op_ok c op → ∃ c', conn_step E c op = Some c' ∧ ok c'.
Proof using HE. intros. apply (conn_step_ok_with E HE (Cl := no_claims)); [done|done|apply no_claims_op]. Qed.

Lemma reachable_ok c : reachable E c → ok c.
Proof using HE.
  induction 1 as [|c op c' _ IH Hop Hs]; [by apply new_ok|].
  destruct (conn_step_ok c op IH Hop) as (c1 & H1 & H2). rewrite Hs in H1. by injection H1 as <-.
Qed.
End plain.

(** ** Runs, to exhibit reachable states *)

(** an executable form of [op_ok] *)
Definition op_okb (c : Connection) (op : conn_op) : bool :=
  match op with
  | KWrite sid p => match c.(cn_streams) !! sid with Some st => bool_decide (st.(st_write).(writeSeq) + Zlen p < 2 ^ 32) | None => true end
  | KOpen | KOpenSync => bool_decide (c.(cn_nextStream) + 2 < 2 ^ 32)
  | KReceive msgs => forallb (forallb (λ b, (0 <=? b) && (b <? 256))) msgs
  | KForward buf => forallb (λ b, (0 <=? b) && (b <? 256)) buf
  | _ => true
  end.
Fixpoint conn_run (E : cenv) (c : Connection) (ops : list conn_op) : option Connection :=
  match ops with
  | [] => Some c
  | op :: ops => if op_okb c op then c ← conn_step E c op; conn_run E c ops else None
  end.

Lemma bytes_okb l : forallb (λ b, (0 <=? b) && (b <? 256)) l = true → Forall is_u8 l.
Proof.
  intros H. apply Forall_forall. intros b Hb%list_elem_of_In. rewrite forallb_forall in H. apply H in Hb.
  apply andb_true_iff in Hb as [H1%bool_decide_eq_true H2%bool_decide_eq_true]. unfold is_u8. lia.
Qed.
Lemma op_okb_ok c op : op_okb c op = true → op_ok c op.
Proof.
  destruct op; cbn; try done.
  - by intros ?%bool_decide_eq_true.
  - by intros ?%bool_decide_eq_true.
  - intros H st Hst. rewrite Hst in H. by apply bool_decide_eq_true in H.
  - intros H. apply Forall_forall. intros m Hm%list_elem_of_In. rewrite forallb_forall in H. by apply bytes_okb, H.
  - apply bytes_okb.
Qed.
Lemma conn_run_reachable E c ops c' : reachable E c → conn_run E c ops = Some c' → reachable E c'.
Proof.
  revert c. induction ops as [|op ops IH]; intros c Hc; cbn [conn_run]; [by intros [= <-]|].
  destruct (op_okb c op) eqn:Hok; [|done]. destruct (conn_step E c op) as [c1|] eqn:H1; [|done]. cbn [mbind option_bind].
  apply IH. eapply reach_step; [exact Hc|by apply op_okb_ok|done].
Qed.

(** [P] holds after a run from a new connection *)
Definition run_check (E : cenv) (ops : list conn_op) (P : Connection → bool) : bool :=
  match conn_run E (newConnection E) ops with Some c => P c | None => false end.
Lemma run_check_spec E ops P : run_check E ops P = true →
  ∃ c, conn_run E (newConnection E) ops = Some c ∧ reachable E c ∧ P c = true.
Proof.
  unfold run_check. destruct (conn_run E (newConnection E) ops) as [c|] eqn:H; [|done]. intros HP. exists c.
  split_and!; [done|by eapply conn_run_reachable, H; constructor|done].
Qed.

(** A client with two streams: it writes to both, hears a NACK for the first
    frame of one of them and an acknowledgement of the second, resends, reads
    a peer's frames and closes a direction. *)
Definition witness_E : cenv := example_env (WithFEC 2 (WithBatchSize 2 (WithMaxDatagramSize 140 defaultConfig))) true.
Definition seq_list_frame (ft sid : Z) (seqs : list Z) : list Z :=
  header_bytes ft sid 0 (8 + 4 * Zlen seqs) ++ PutUint32 0 ++ PutUint32 (Zlen seqs) ++ concat (PutUint32 <$> seqs).
Definition witness_events : list conn_op :=
  [ KOpen; KOpen; KWrite 1 (replicate 130 7); KWrite 3 [1; 2; 3];
    KReceive [seq_list_frame frameNack 1 [0]; seq_list_frame frameACK 1 [1]; header_bytes frameData 2 0 6 ++ [0; 0; 0; 0; 9; 9]];
    KService; KAccept; KRead 2 10; KTick; KCloseWrite 3; KKeepAlive ].
Lemma witness_env_ok : env_ok witness_E.
Proof.
  split.
  - apply tx_setup_ok; [split; vm_compute; naive_solver|done|by intros _].
  - done.
  - done.
Qed.

(** ** The theorems *)



(** C21: a connection never gets stuck and its stream table stays well formed.
    In every reachable state every operation has an outcome, and the table
    holds at most [maxStreams] streams; the next id is of this side's half
    of the id space and above all ids this side has in use, so that
    [OpenStream] never reuses one; the resend queue's head is in range. *)
Theorem table_well_formed E c op :
  env_ok E → reachable E c → op_ok c op →
  (∃ c', conn_step E c op = Some c') ∧ Z.of_nat (size c.(cn_streams)) ≤ Z.max 0 (maxStreams (tx_cfg E.(ce_tx))) ∧
  own E c.(cn_nextStream) = true ∧ (∀ id, id ∈ dom c.(cn_streams) → own E id = true → id < c.(cn_nextStream)) ∧
  c.(cn_streams) !! c.(cn_nextStream) = None ∧ head_ok c.
Proof.
  intros HE Hc Hop. pose proof (reachable_ok E HE c Hc) as Hok. destruct (conn_step_ok E HE c op Hok Hop) as (c' & H1 & _).
  destruct (ck_table _ _ Hok) as [_ _ T3 [_ T4] T5 T6 _]. split_and!; [by exists c'|done|done|done| |apply T6..].
  destruct (cn_streams c !! cn_nextStream c) as [st|] eqn:Hst; [|done]. apply elem_of_dom_2 in Hst. specialize (T5 _ Hst T4). lia.
Qed.
Lemma table_well_formed_witness : ∃ c,
  conn_run witness_E (newConnection witness_E) witness_events = Some c ∧ dom c.(cn_streams) = {[1; 2; 3]} ∧
  (∃ c', conn_step witness_E c KTick = Some c') ∧ c.(cn_streams) !! c.(cn_nextStream) = None.
Proof.
  destruct (run_check_spec witness_E witness_events (λ c, bool_decide (dom c.(cn_streams) = {[1; 2; 3]})))
    as (c & Hrun & Hc & Hr%bool_decide_eq_true); [vm_compute; reflexivity|].
  destruct (table_well_formed witness_E c KTick witness_env_ok Hc I) as (H1 & _ & _ & _ & H2 & _).
  exists c. exact (conj Hrun (conj Hr (conj H1 H2))).
Defined.
