(* ===== verification/ConnFlags.v ===== *)
(** * What changes a connection's flags

    Only [Close] changes [closed] and drops the stream table; only a
    HANDSHAKE frame establishes a connection. *)
From S2P Require Import Prelude Errors Frame Float64 Pacer Options Ring StreamRecv Retransmit RetransmitSpec RetransmitRefine.
From S2P Require Import StreamSend SendRule Estimator SendBatch BatchInv SendFifo Connection ConnLemmas Termination ConnBooks ConnInv ConnOps ConnRun.

(** [c.closed], and whether [c.streams] is nil *)
Definition flags (c : Connection) : bool * bool := (c.(cn_closed), c.(cn_nil)).

(** and whether the handshake was answered *)
Definition marks (c : Connection) : bool * bool * bool := (c.(cn_closed), c.(cn_nil), c.(cn_established)).

Lemma flags_closed c c' : flags c' = flags c → c'.(cn_closed) = c.(cn_closed).
Proof. by intros [= ? _]. Qed.

Section marks.
Context (E : cenv) (HE : env_ok E).
#[local] Abbreviation X := (ce_tx E).
#[local] Abbreviation cf := (tx_cfg (ce_tx E)).
#[local] Abbreviation ok := (conn_ok E).
Implicit Types (c : Connection).

Lemma sends_marks c c' : sends c c' → marks c' = marks c.
Proof. unfold sends. intros ->. done. Qed.
Lemma tx_marks m c : marks (tx_do' m c) = marks c.
Proof. apply sends_marks, tx_do_sends. Qed.
Lemma on_read_marks {A} c sid st (op : renv → rside → option (rside * A)) c' a :
  on_read E c sid st op = Some (c', a) → marks c' = marks c.
Proof. intros (s & _ & H%sends_marks)%on_read_eq. exact H. Qed.
Lemma streamForFrame_marks c sid : marks (streamForFrame E c sid).1 = marks c.
Proof.
  unfold streamForFrame. destruct (cn_closed c); [done|]. destruct (cn_streams c !! sid); [done|].
  case_test; [done|]. destruct (negb (negb _)); [done|]. destruct (_ || _); [done|]. case_test; cbn [fst].
  - by rewrite !tx_marks.
  - unfold insert_stream, conn_time. cbn. by case_test.
Qed.
Lemma handleArrival_marks c f payload isFin c' : handleArrival E c f payload isFin = Some c' → marks c' = marks c.
Proof.
  unfold handleArrival. pose proof (streamForFrame_marks c (f_streamID f)) as Hs.
  destruct (streamForFrame E c (f_streamID f)) as [c1 [s|b]]; cbn [fst] in Hs.
  - destruct (on_read E c1 _ s _) as [[c2 r]|] eqn:Hr; [|done]. cbn [mbind option_bind]. intros [= <-].
    apply on_read_marks in Hr. etrans; [exact Hr|exact Hs].
  - destruct b; by intros [= <-].
Qed.
Lemma handleFec_marks c f row c' : handleFec E c f row = Some c' → marks c' = marks c.
Proof.
  unfold handleFec. destruct (_ || _); [by intros [= <-]|]. destruct (_ || _); [by intros [= <-]|].
  destruct (cn_streams c !! _) as [s|]; [|by intros [= <-]]. destruct (on_read E c _ s _) as [[c2 r]|] eqn:Hr; [|done].
  cbn [mbind option_bind]. apply on_read_marks in Hr. intros [= <-]. by destruct r.
Qed.
Lemma nackRequests_marks c sid minAge seqs : marks (nackRequests E c sid minAge seqs).1 = marks c.
Proof.
  revert c. induction seqs as [|seq seqs IH]; intros c; [done|]. cbn [nackRequests]. unfold conn_time. cbn [fst snd].
  destruct (requestForResend _ _ _ _ _) as [q r].
  match goal with |- context [nackRequests E ?c ?s ?m seqs] => pose proof (IH c) as H1; destruct (nackRequests E c s m seqs) as [c1 rs] end.
  exact H1.
Qed.

Lemma dispatch_marks c f c' : ok c → f.(f_ftype) ≠ frameHandshake → dispatchFrameLocked E c f = Some c' → marks c' = marks c.
Proof using HE.
  intros Hok Hnh. unfold dispatchFrameLocked. set (c0 := c <| cn_missedPongs := 0 |>).
  assert (ok c0) as Hok0 by (unfold c0; ok_same Hok).
  change (marks c) with (marks c0). clearbody c0. clear Hok c.
  destruct (bool_decide (f_ftype f = frameData)).
  { repeat case_test; try apply handleArrival_marks. by intros [= <-]. }
  destruct (bool_decide (f_ftype f = frameFEC)); [apply handleFec_marks|].
  destruct (bool_decide (f_ftype f = frameFECRow)); [destruct (fec2D cf); [apply handleFec_marks|by intros [= <-]]|].
  destruct (bool_decide (f_ftype f = frameStreamFIN)); [apply handleArrival_marks|].
  destruct (bool_decide (f_ftype f = frameStreamReset)).
  { unfold handleStreamReset. destruct (cn_streams _ !! _) as [s|]; [|by intros [= <-]].
    destruct (on_read E _ _ s _) as [[c2 r]|] eqn:Hr; [|done]. apply on_read_marks in Hr. by intros [= <-]. }
  destruct (bool_decide (f_ftype f = frameStopSending)).
  { unfold handleStopSending, on_write. destruct (cn_streams c0 !! _) as [s|] eqn:Hs; [|by intros [= <-]].
    pose proof (proj1 (abort_serves E HE (f_streamID f) c0 (st_write s) (f_seq f) (ti_lanes _ _ (ck_table _ _ Hok0) _ _ Hs))) as Ha.
    unfold onStopSending. destruct (@abortWriteLocked _ (conn_path E) _ _ _ _ _) as [w1 c1]. cbn in *.
    intros [= <-]. exact (sends_marks _ _ Ha). }
  destruct (bool_decide (f_ftype f = frameWindowUpdate)).
  { unfold handleWindowUpdate, on_write. destruct (decodeWindowUpdatePayload _); [|by intros [= <-]].
    destruct (cn_streams c0 !! _); by intros [= <-]. }
  destruct (bool_decide (f_ftype f = framePing)); [intros [= <-]; apply tx_marks|].
  destruct (bool_decide (f_ftype f = framePong)); [intros [= <-]; unfold handlePong; by case_test|].
  destruct (bool_decide (f_ftype f = frameGoAway)); [by intros [= <-]|].
  destruct (bool_decide (f_ftype f = frameACK)).
  { unfold handleACK, on_write, conn_time. destruct (decodeSeqListFrame f []) as [[cum seqs]|]; [|by intros [= <-]]. cbn.
    destruct (ackCumulative _ _ _ _) as [[q1 f1] s1]. destruct (ackMany _ _ _ _) as [[q2 f2] s2].
    set (sample := if _ || _ then _ else _). clearbody sample. repeat case_test; cbn; try (by intros [= <-]);
      destruct (cn_streams c0 !! _); by intros [= <-]. }
  destruct (bool_decide (f_ftype f = frameNack)).
  { intros [= <-]. unfold handleNack. destruct (decodeSeqListFrame f []) as [[cum seqs]|]; [|done].
    match goal with |- context [nackRequests E ?c ?s ?m ?l] =>
      pose proof (nackRequests_marks c s m l) as H1; destruct (nackRequests E c s m l) as [c1 rs] end.
    unfold enqueueResends. by case_test. }
  rewrite bool_decide_false by done. by intros [= <-].
Qed.

Lemma ackSnapLoop_marks fuel c sid cum maxAcks rest c' : ackSnapLoop E fuel c sid cum maxAcks rest = Some c' → marks c' = marks c.
Proof.
  revert c rest. induction fuel as [|fuel IH]; intros c rest; [done|]. cbn [ackSnapLoop]. set (m := queueACKFrame _ _ _ _).
  case_test; [intros [= <-]; apply tx_marks|]. intros H%IH. rewrite H. apply tx_marks.
Qed.
Lemma ackListLoop_marks fuel c sid maxAcks rest c' : ackListLoop E fuel c sid maxAcks rest = Some c' → marks c' = marks c.
Proof.
  revert c rest. induction fuel as [|fuel IH]; intros c rest; cbn [ackListLoop]; [case_test; by intros [= <-]|].
  set (m := queueACKFrame _ _ _ _). case_test; [|by intros [= <-]]. intros H%IH. rewrite H. apply tx_marks.
Qed.
(** a loop over ids whose every step keeps the flags *)
Lemma foldl_marks {A} (g : option (Connection * A) → Z → option (Connection * A)) l c a c' a' :
  (∀ id, g None id = None) → (∀ c a id c' a', g (Some (c, a)) id = Some (c', a') → marks c' = marks c) →
  foldl g (Some (c, a)) l = Some (c', a') → marks c' = marks c.
Proof.
  intros Hn Hg. revert c a. induction l as [|id l IH]; intros c a; cbn [foldl]; [by intros [= <- <-]|].
  destruct (g (Some (c, a)) id) as [[c1 a1]|] eqn:H1.
  - intros H2%IH. rewrite H2. by eapply Hg.
  - intros Hx. exfalso. clear -Hx Hn. induction l as [|id' l IH]; [done|]. cbn [foldl] in Hx. rewrite Hn in Hx. by apply IH.
Qed.
Lemma ackDirtyStep_marks m c q id c' q' : ackDirtyStep E m (Some (c, q)) id = Some (c', q') → marks c' = marks c.
Proof.
  unfold ackDirtyStep. cbn [mbind option_bind]. destruct (cn_streams c !! id) as [s|]; cbn [mbind option_bind]; [|by intros [= <- <-]].
  destruct (on_read E c id s _) as [[c1 [[cum seqs] granted]]|] eqn:Hr; [|done]. cbn [mbind option_bind].
  destruct (ackSnapLoop _ _ _ _ _ _ _) as [c2|] eqn:Hl; [|done]. cbn [mbind option_bind]. intros [= <- <-].
  apply on_read_marks in Hr. apply ackSnapLoop_marks in Hl. rewrite <- Hr, <- Hl. apply (tx_marks _ c2).
Qed.
Lemma ackListStep_marks m c q id c' q' : ackListStep E m (Some (c, q)) id = Some (c', q') → marks c' = marks c.
Proof.
  unfold ackListStep. cbn [mbind option_bind]. case_test; [by intros [= <- <-]|].
  destruct (ackListLoop _ _ _ _ _ _) as [c2|] eqn:Hl; [|done]. cbn [mbind option_bind]. intros [= <- <-]. by apply ackListLoop_marks in Hl.
Qed.
Lemma flushPendingAcksLocked_marks c c' : flushPendingAcksLocked E c = Some c' → marks c' = marks c.
Proof.
  unfold flushPendingAcksLocked. case_test; [by intros [= <-]|].
  destruct (foldl (ackDirtyStep _ _) _ _) as [[c1 q1]|] eqn:H1; [|done]. cbn [mbind option_bind].
  apply foldl_marks in H1; [|done|apply ackDirtyStep_marks].
  destruct (foldl (ackListStep _ _) _ _) as [[c2 q2]|] eqn:H2; [|done]. cbn [mbind option_bind].
  apply foldl_marks in H2; [|done|apply ackListStep_marks]. intros [= <-]. rewrite <- H1, <- H2. destruct q2; [apply tx_marks|done].
Qed.

Lemma queueCopies_marks n c e data q : marks (queueCopies E n c e data q).1 = marks c.
Proof.
  revert c q. induction n as [|n IH]; intros c q; [done|]. cbn [queueCopies]. set (m := queueResendCopy _ _ _ _ _).
  pose proof (tx_marks m c) as Ht. unfold tx_do' in Ht. destruct (tx_do m c) as [c1 [e1|]]; cbn [fst] in *; [done|]. by rewrite IH.
Qed.
Lemma resendOne_marks c req q : marks (resendOne E c req q).1 = marks c.
Proof.
  unfold resendOne, conn_time. destruct (peekForResend _ _); [|done]. cbn [fst snd]. destruct (takeForResend _ _ _) as [q1 [e|]]; [|done].
  destruct (e_data e) as [d|]; cbn [fst snd].
  - match goal with |- context [queueCopies E ?n ?c ?e ?b ?q] => pose proof (queueCopies_marks n c e b q) as Hq; destruct (queueCopies E n c e b q) end.
    exact Hq.
  - match goal with |- context [queueCopies E ?n ?c ?e ?b ?q] => pose proof (queueCopies_marks n c e b q) as Hq; destruct (queueCopies E n c e b q) end.
    exact Hq.
Qed.
Lemma popResend_marks c : marks (popResend c).1 = marks c.
Proof. unfold popResend. destruct (_ !! _); [|done]. cbn. by destruct (_ && _). Qed.
Lemma serviceLoop_marks fuel c q c' q' : serviceLoop E fuel c q = Some (c', q') → marks c' = marks c.
Proof.
  revert c q. induction fuel as [|fuel IH]; intros c q; [done|]. cbn [serviceLoop]. pose proof (popResend_marks c) as Hp.
  destruct (popResend c) as [c1 [req|]]; cbn [fst] in Hp; [|by intros [= <- <-]].
  pose proof (resendOne_marks c1 req q) as Hr. destruct (resendOne E c1 req q) as [c2 q2]. cbn [fst] in Hr. intros H%IH. congruence.
Qed.
Lemma serviceResends_marks c c' q : serviceResends E c = Some (c', q) → marks c' = marks c.
Proof.
  unfold serviceResends. destruct (serviceLoop _ _ _ _) as [[c1 q1]|] eqn:H1; [|done]. cbn [mbind option_bind].
  apply serviceLoop_marks in H1. intros [= <- <-]. rewrite <- H1. destruct q1; [apply tx_marks|done].
Qed.

Lemma tailNackScan_marks c c' : tailNackScan E c = Some c' → marks c' = marks c.
Proof.
  unfold tailNackScan, conn_time. cbn [fst snd]. set (c0 := c <| cn_tick := _ |>). change (marks c) with (marks c0). clearbody c0.
  generalize (ce_range_ids E (dom (cn_streams c0))). intros ids. set (now := ce_clock E _). clearbody now.
  revert c0. induction ids as [|id ids IH]; intros c0; [by intros [= <-]|]. cbn [foldl].
  unfold tailNackStep at 2. cbn [mbind option_bind]. destruct (cn_streams c0 !! id) as [st|]; [|apply IH].
  destruct (on_read E c0 id st _) as [[c1 a]|] eqn:Ho; cbn [mbind option_bind].
  - intros H%IH. rewrite H. by eapply on_read_marks.
  - intros Hx. exfalso. clear -Hx. induction ids; [done|]. auto.
Qed.
Lemma gcStreams_marks c : marks (gcStreams E c) = marks c.
Proof.
  unfold gcStreams, conn_time. cbn [fst snd]. generalize (collectable E c). intros ids.
  assert (marks (foldl (removeStream E) c ids) = marks c) as H1; [|exact H1].
  revert c. induction ids as [|id ids IH]; intros c; [done|]. cbn [foldl]. by rewrite IH.
Qed.
Lemma retransmitTick_marks c c' : retransmitTick E c = Some c' → marks c' = marks c.
Proof.
  unfold retransmitTick, conn_time. cbn [fst snd]. destruct (due _ _ _) as [[q rs]|]; [|done]. cbn [mbind option_bind].
  destruct (tailNackScan E _) as [c1|] eqn:H1; [|done]. cbn [mbind option_bind]. intros [= <-]. rewrite gcStreams_marks.
  apply tailNackScan_marks in H1. rewrite H1. unfold enqueueResends. by case_test.
Qed.
Lemma SendPing_marks c sid seq : marks (SendPing E c sid seq).1 = marks c.
Proof.
  unfold SendPing, conn_time. cbn [fst snd]. set (c1 := c <| cn_tick := _ |> <| cn_sendPingMs := _ |>). change (marks c) with (marks c1).
  clearbody c1. set (m := sendControlFrame _ _ _ _). pose proof (tx_marks m c1) as Ht. unfold tx_do' in Ht.
  by destruct (tx_do m c1) as [c2 [e|]].
Qed.
Lemma OpenStream_marks c : marks (OpenStream E c).1 = marks c.
Proof. unfold OpenStream. destruct (cn_closed c); [done|]. destruct (_ || _); [done|]. by case_test. Qed.
Lemma OpenStreamSync_marks c : marks (OpenStreamSync E c).1 = marks c.
Proof.
  pose proof (OpenStream_marks c) as H1. unfold OpenStreamSync. destruct (OpenStream E c) as [c1 [id|[]]]; cbn [fst] in *; try done.
  by destruct (cn_closed c1).
Qed.
Lemma AcceptStream_marks c : marks (AcceptStream c).1 = marks c.
Proof. unfold AcceptStream. destruct (cn_closed c); [done|]. by destruct (cn_acceptCh c). Qed.

Lemma do_write_marks c sid op c' :
  (∀ st w1 c1, c.(cn_streams) !! sid = Some st → op st.(st_write) c = Some (w1, c1) → sends c c1) →
  do_write c sid op = Some c' → marks c' = marks c.
Proof.
  intros Hop. unfold do_write, on_stream, on_write. destruct (cn_streams c !! sid) as [st|]; [|by intros [= <-]].
  destruct (op (st_write st) c) as [[w1 c1]|] eqn:H1; [|done]. cbn [mbind option_bind]. intros [= <-].
  apply (sends_marks c c1). by eapply Hop.
Qed.

(** ** The two flags, under every frame *)
Lemma flags_marks c c' : marks c' = marks c → flags c' = flags c.
Proof. unfold marks, flags. by intros [= -> -> _]. Qed.
Lemma tx_flags m c : flags (tx_do' m c) = flags c.
Proof. apply flags_marks, tx_marks. Qed.
Lemma dispatch_flags c f c' : ok c → dispatchFrameLocked E c f = Some c' → flags c' = flags c.
Proof using HE.
  intros Hok Hd. destruct (decide (f.(f_ftype) = frameHandshake)) as [Ht|Ht]; [|by eapply flags_marks, dispatch_marks].
  unfold dispatchFrameLocked in Hd. rewrite Ht in Hd. cbn in Hd. injection Hd as <-. unfold handleHandshake. destruct (cn_closed _); [done|].
  destruct (ce_isClient E); [done|]. by rewrite tx_flags.
Qed.
Lemma parseLoop_flags fuel c buf c' : ok c → Forall is_u8 buf → parseLoop E fuel c buf = Some c' → flags c' = flags c.
Proof using HE.
  revert c buf. induction fuel as [|fuel IH]; intros c buf Hc Hb; [done|]. cbn [parseLoop]. case_test; [|by intros [= <-]].
  destruct (decodeFrame buf) as [f|e] eqn:Hd; [|by intros [= <-]].
  destruct (dispatchFrameLocked E c f) as [c1|] eqn:H1; [|done]. cbn [mbind option_bind]. intros H2.
  rewrite <- (dispatch_flags c f c1 Hc H1). eapply IH; [..|exact H2]; [|unfold slice; by apply Forall_take, Forall_drop].
  eapply (dispatch_ok E HE); [exact Hc|by eapply decodeFrame_wf|done].
Qed.
Lemma handleDatagramLocked_flags c buf c' : ok c → Forall is_u8 buf → handleDatagramLocked E c buf = Some c' → flags c' = flags c.
Proof using HE. intros Hc Hb. unfold handleDatagramLocked. destruct (cn_closed c); [by intros [= <-]|]. by apply parseLoop_flags. Qed.
Lemma readMessages_flags c msgs c' : ok c → Forall (Forall is_u8) msgs → readMessages E c msgs = Some c' → flags c' = flags c.
Proof using HE.
  intros Hc Hm. revert c Hc. induction Hm as [|m msgs Hm _ IH]; intros c Hc; cbn [readMessages]; [by intros [= <-]|].
  case_test; [by apply IH|]. destruct (handleDatagramLocked E c m) as [c1|] eqn:H1; [|done]. cbn [mbind option_bind]. intros H2.
  rewrite <- (handleDatagramLocked_flags _ _ _ Hc Hm H1). eapply IH; [|exact H2]. by eapply (handleDatagramLocked_ok E HE).
Qed.

(** an operation that is not a section of [Close] *)
Definition not_close (op : conn_op) : Prop := op ≠ KCloseBegin ∧ op ≠ KCloseFence.

Lemma conn_step_flags c op c' : ok c → op_ok c op → not_close op → conn_step E c op = Some c' → flags c' = flags c.
Proof using HE.
  intros Hc Hop [Hn1 Hn2].
  assert (∀ sid st, cn_streams c !! sid = Some st → lanes_small cf st.(st_write)) as Hl by (intros sid st; apply (ti_lanes _ _ (ck_table _ _ Hc))).
  destruct op as [| | |sid p|sid|sid code|sid plen|sid code|sid t|msgs|buf| | | | |sid seq|connID| | | |]; cbn [conn_step op_ok] in *.
  - intros [= <-]. apply flags_marks, OpenStream_marks.
  - intros [= <-]. apply flags_marks, OpenStreamSync_marks.
  - intros [= <-]. apply flags_marks, AcceptStream_marks.
  - intros Hx. eapply flags_marks, do_write_marks; [|exact Hx]. intros st w1 c1 Hst. specialize (Hop st Hst). unfold Write.
    destruct (writeLoop _ _ _ _ _ _ _) as [[[w2 c2] o]|] eqn:H1; [|done]. cbn [mbind option_bind]. intros [= <- <-].
    pose proof (write_inv_intro E HE sid st c Hst Hc) as Hi.
    eapply proj1, (writeLoop_serves E HE); [..|exact H1]; [by eapply Hl|by eapply seq_u32|done|lia].
  - intros Hx. eapply flags_marks, do_write_marks; [|exact Hx]. intros st w1 c1 Hst. unfold stream_Close.
    pose proof (proj1 (CloseWrite_serves E HE sid c (st_write st) (Hl _ _ Hst))) as H2.
    destruct (@CloseWrite _ (conn_path E) sid (st_write st) c) as [[w' c2] e]. by intros [= <- <-].
  - intros Hx. eapply flags_marks, do_write_marks; [|exact Hx]. intros st w1 c1 Hst. unfold CancelWrite.
    pose proof (proj1 (abort_serves E HE sid c (st_write st) code (Hl _ _ Hst))) as H2.
    destruct (@abortWriteLocked _ (conn_path E) sid (st_write st) c code true) as [w' c2]. by intros [= <- <-].
  - unfold do_read, on_stream. destruct (cn_streams c !! sid) as [st|]; [|by intros [= <-]].
    destruct (on_read E c sid st _) as [[c1 a]|] eqn:H1; [|done]. intros [= <-]. by apply on_read_marks, flags_marks in H1.
  - unfold do_read, on_stream. destruct (cn_streams c !! sid) as [st|]; [|by intros [= <-]].
    destruct (on_read E c sid st _) as [[c1 a]|] eqn:H1; [|done]. intros [= <-]. by apply on_read_marks, flags_marks in H1.
  - unfold on_stream. destruct (cn_streams c !! sid) as [st|]; by intros [= <-].
  - unfold readBatch. destruct (cn_closed c); [by intros [= <-]|]. destruct (readMessages E c msgs) as [c1|] eqn:H1; [|done].
    cbn [mbind option_bind]. intros H2%flushPendingAcksLocked_marks%flags_marks. apply readMessages_flags in H1; [congruence|done..].
  - unfold handleDatagramAndFlush. destruct (cn_closed c); [by intros [= <-]|]. destruct (handleDatagramLocked E c buf) as [c1|] eqn:H1; [|done].
    cbn [mbind option_bind]. intros H2%flushPendingAcksLocked_marks%flags_marks. apply handleDatagramLocked_flags in H1; [congruence|done..].
  - destruct (serviceResends E c) as [[c1 q]|] eqn:H1; [|done]. intros [= <-]. by apply serviceResends_marks, flags_marks in H1.
  - by intros [= <-].
  - by intros ?%retransmitTick_marks%flags_marks.
  - intros [= <-]. unfold keepAliveTick. case_test; [done|]. by rewrite (flags_marks _ _ (SendPing_marks _ _ _)).
  - intros [= <-]. apply flags_marks, SendPing_marks.
  - intros [= <-]. apply tx_flags.
  - intros [= <-]. apply tx_flags.
  - done.
  - intros [= <-]. apply tx_flags.
  - done.
Qed.
End marks.
