(* ===== verification/ConnInput.v ===== *)
(** * A connection's input and its resend worker

    How datagrams are grouped into messages does not matter; the resend
    worker services its requests in order; and what can happen between the
    critical sections of [removeStream]. *)
From S2P Require Import Prelude Errors Frame Float64 Pacer Options Ring StreamRecv Retransmit RetransmitSpec RetransmitRefine.
From S2P Require Import StreamSend SendRule Estimator SendBatch BatchInv SendFifo Connection ConnLemmas Termination ConnBooks ConnInv ConnOps ConnRun ConnFlags.

(** ** Datagrams and messages *)

(** a datagram that is one frame *)
Definition is_datagram (d : list Z) : Prop :=
  ∃ ft sid sq pl, d = header_bytes ft sid sq (Zlen pl) ++ pl ∧ is_u8 ft ∧ is_u32 sid ∧ is_u32 sq ∧ is_u32 (Zlen pl) ∧ Forall is_u8 pl.

Section input.
Context (E : cenv) (HE : env_ok E).
#[local] Abbreviation X := (ce_tx E).
#[local] Abbreviation cf := (tx_cfg (ce_tx E)).
#[local] Abbreviation ok := (conn_ok E).
Implicit Types (c : Connection) (ds : list (list Z)).

(** the frames of [ds], dispatched one after the other *)
Fixpoint dispatch_all c ds : option Connection :=
  match ds with
  | [] => Some c
  | d :: ds => match decodeFrame d with Ok f => c ← dispatchFrameLocked E c f; dispatch_all c ds | Err _ => Some c end
  end.

Lemma datagram_decodes d rest : is_datagram d → ∃ f,
  decodeFrame (d ++ rest) = Ok f ∧ decodeFrame d = Ok f ∧ frame_wf f ∧ Zlen d = frameHeaderSize + f.(f_length) ∧ frameHeaderSize ≤ Zlen d.
Proof.
  intros (ft & sid & sq & pl & -> & Hft & Hsid & Hsq & Hpl & Hb). exists (mkFrame ft sid sq (Zlen pl) pl). split_and!.
  - rewrite <- app_assoc. by apply decodeFrame_bytes.
  - rewrite <- (app_nil_r pl) at 2. by apply decodeFrame_bytes.
  - done.
  - by rewrite Zlen_app, Zlen_header_bytes.
  - rewrite Zlen_app, Zlen_header_bytes. pose proof (Zlen_nonneg pl). lia.
Qed.

Lemma parseLoop_datagrams fuel c ds : Forall is_datagram ds → (length (concat ds) < fuel)%nat →
  parseLoop E fuel c (concat ds) = dispatch_all c ds.
Proof.
  intros Hds. revert fuel c. induction Hds as [|d ds Hd _ IH]; intros fuel c Hf; (destruct fuel as [|fuel]; [lia|]); cbn [parseLoop dispatch_all concat].
  { done. }
  destruct (datagram_decodes d (concat ds) Hd) as (f & H1 & H2 & _ & Hl & Hh).
  rewrite bool_decide_true by (rewrite Zlen_app; pose proof (Zlen_nonneg (concat ds)); lia). rewrite H1, H2.
  destruct (dispatchFrameLocked E c f) as [c1|]; [|done]. cbn [mbind option_bind].
  assert (slice (d ++ concat ds) (frameHeaderSize + f_length f) (Zlen (d ++ concat ds)) = concat ds) as ->.
  { rewrite <- Hl. unfold slice. unfold Zlen. rewrite take_ge by (rewrite length_drop; lia). by rewrite Nat2Z.id, drop_app_length. }
  apply IH. cbn in Hf. rewrite length_app in Hf. unfold Zlen, frameHeaderSize in Hh. lia.
Qed.

Lemma datagrams_long ds : Forall is_datagram ds → ds ≠ [] → frameHeaderSize ≤ Zlen (concat ds).
Proof.
  intros [|d ds' Hd _]; [done|]. intros _. destruct (datagram_decodes d [] Hd) as (_ & _ & _ & _ & _ & Hl). cbn.
  rewrite Zlen_app. pose proof (Zlen_nonneg (concat ds')). lia.
Qed.

(** messages that hold no, one or several datagrams *)
Lemma readMessages_cons c ds msgs : Forall is_datagram ds →
  readMessages E c (concat ds :: msgs) = c ← (if cn_closed c then Some c else dispatch_all c ds); readMessages E c msgs.
Proof.
  intros Hds. cbn [readMessages]. destruct (decide (ds = [])) as [->|Hne]; [cbn; by destruct (cn_closed c)|].
  pose proof (datagrams_long ds Hds Hne). rewrite bool_decide_false by lia. unfold handleDatagramLocked.
  destruct (cn_closed c); [done|]. by rewrite parseLoop_datagrams by (done || lia).
Qed.
Lemma readMessages_singles c ds rest : ok c → Forall is_datagram ds →
  readMessages E c (ds ++ rest) = c ← (if cn_closed c then Some c else dispatch_all c ds); readMessages E c rest.
Proof using HE.
  intros Hok Hds. revert c Hok. induction Hds as [|d ds Hd Hds IH]; intros c Hok; [cbn; by destruct (cn_closed c)|].
  change ((d :: ds) ++ rest) with (d :: (ds ++ rest)). rewrite <- (app_nil_r d).
  change (d ++ []) with (concat [d]). rewrite readMessages_cons by (by apply Forall_cons_2). cbn [concat].
  rewrite app_nil_r. cbn [dispatch_all]. destruct (cn_closed c) eqn:Hcl.
  { cbn [mbind option_bind]. rewrite IH by done. by rewrite Hcl. }
  destruct (datagram_decodes d [] Hd) as (f & _ & -> & Hf & _).
  destruct (dispatchFrameLocked E c f) as [c1|] eqn:H1; [|done]. cbn [mbind option_bind].
  rewrite IH by (eapply dispatch_ok; [exact HE|exact Hok|exact Hf|exact H1]). by rewrite (flags_closed _ _ (dispatch_flags E HE c f c1 Hok H1)), Hcl.
Qed.

Lemma dispatch_all_ok c ds c' : ok c → Forall is_datagram ds → dispatch_all c ds = Some c' → ok c'.
Proof using HE.
  intros Hok Hds. revert c Hok. induction Hds as [|d ds Hd _ IH]; intros c Hok; cbn [dispatch_all]; [by intros [= <-]|].
  destruct (datagram_decodes d [] Hd) as (f & _ & -> & Hf & _).
  destruct (dispatchFrameLocked E c f) as [c1|] eqn:H1; [|done]. cbn [mbind option_bind]. apply IH. by eapply dispatch_ok.
Qed.

Lemma readMessages_groups c groups : ok c → Forall (Forall is_datagram) groups →
  readMessages E c ((λ ds, concat ds) <$> groups) = readMessages E c (concat groups).
Proof using HE.
  intros Hok Hg. revert c Hok. induction Hg as [|ds groups Hds _ IH]; intros c Hok; [done|]. cbn [fmap list_fmap concat].
  rewrite readMessages_cons, readMessages_singles by done. destruct (cn_closed c); [by apply IH|].
  destruct (dispatch_all c ds) as [c1|] eqn:H1; [|done]. cbn [mbind option_bind]. apply IH. by eapply dispatch_all_ok.
Qed.
End input.

(** C19: how datagrams are grouped into messages does not matter.  With
    UDP_GRO the kernel hands the connection several datagrams as one message
    (and a sender's kernel cuts a GSO pack into datagrams).  In every state a
    connection can reach, reading messages into which datagrams were
    coalesced in any way leaves the same state as reading the datagrams one
    by one: [handleDatagram] stops at no frame boundary and skips none. *)
Theorem gro_transparent E c groups :
  env_ok E → reachable E c → Forall (Forall is_datagram) groups →
  readMessages E c ((λ ds, concat ds) <$> groups) = readMessages E c (concat groups).
Proof. intros HE Hc. apply (readMessages_groups E HE). by apply (reachable_ok E HE). Qed.

Definition coalesced : list (list (list Z)) :=
  [ [header_bytes frameData 2 0 6 ++ [0; 0; 0; 0; 9; 9]; header_bytes frameData 2 1 5 ++ [0; 0; 0; 0; 8]];
    []; [header_bytes framePing 0 0 0 ++ []]; [header_bytes frameStreamFIN 2 2 0 ++ []; seq_list_frame frameACK 1 [0; 1]] ].
Lemma datagram_intro ft sid sq pl : is_u8 ft → is_u32 sid → is_u32 sq → is_u32 (Zlen pl) →
  forallb (λ b, (0 <=? b) && (b <? 256)) pl = true → is_datagram (header_bytes ft sid sq (Zlen pl) ++ pl).
Proof. intros H1 H2 H3 H4 H5%bytes_okb. by exists ft, sid, sq, pl. Qed.
Lemma coalesced_ok : Forall (Forall is_datagram) coalesced.
Proof.
  assert (∀ ft sid sq pl, bool_decide (is_u8 ft ∧ is_u32 sid ∧ is_u32 sq ∧ is_u32 (Zlen pl)) && forallb (λ b, (0 <=? b) && (b <? 256)) pl = true →
    is_datagram (header_bytes ft sid sq (Zlen pl) ++ pl)) as Hd.
  { intros ft sid sq pl [(H1 & H2 & H3 & H4)%bool_decide_eq_true H5]%andb_true_iff. by apply datagram_intro. }
  unfold coalesced. repeat apply Forall_cons_2; try apply Forall_nil_2.
  - exact (Hd frameData 2 0 [0; 0; 0; 0; 9; 9] eq_refl).
  - exact (Hd frameData 2 1 [0; 0; 0; 0; 8] eq_refl).
  - exact (Hd framePing 0 0 [] eq_refl).
  - exact (Hd frameStreamFIN 2 2 [] eq_refl).
  - exact (Hd frameACK 1 0 (PutUint32 0 ++ PutUint32 2 ++ concat (PutUint32 <$> [0; 1])) eq_refl).
Qed.
Lemma gro_transparent_witness :
  readMessages witness_E (newConnection witness_E) ((λ ds, concat ds) <$> coalesced)
  = readMessages witness_E (newConnection witness_E) (concat coalesced).
Proof. apply (gro_transparent witness_E (newConnection witness_E) coalesced witness_env_ok (reach_new _) coalesced_ok). Defined.

(** ** The resend worker *)
Section resend.
Context (E : cenv).
Implicit Types (c : Connection) (l : list retransmitRequest) (h : Z).

Definition requeue c l h : Connection := c <| cn_resendQueue := l |> <| cn_resendHead := h |>.

(** servicing a request does not look at the queue of requests *)
Lemma tx_do_requeue m c l h : tx_do m (requeue c l h) = (requeue (tx_do m c).1 l h, (tx_do m c).2).
Proof.
  unfold tx_do. change (cn_tx (requeue c l h)) with (cn_tx c). destruct (cn_tx c) as [s|]; [|done]. destruct (m s) as [[s' r]|]; [|done].
  by destruct (existsb _ _).
Qed.
Lemma queueCopies_requeue n c l h e d b :
  queueCopies E n (requeue c l h) e d b = (requeue (queueCopies E n c e d b).1 l h, (queueCopies E n c e d b).2).
Proof.
  revert c b. induction n as [|n IH]; intros c b; [done|]. cbn [queueCopies]. rewrite tx_do_requeue.
  destruct (tx_do _ c) as [c1 [err|]]; cbn [fst snd]; [done|apply IH].
Qed.
Lemma resendOne_requeue c l h req b :
  resendOne E (requeue c l h) req b = (requeue (resendOne E c req b).1 l h, (resendOne E c req b).2).
Proof.
  unfold resendOne, conn_time. cbn [requeue cn_rq fst snd]. change (cn_rq (requeue c l h)) with (cn_rq c).
  destruct (peekForResend (cn_rq c) req); [|done]. cbn [fst snd].
  change (cn_rq (requeue c l h <| cn_tick := S (cn_tick (requeue c l h)) |>)) with (cn_rq c).
  change (cn_tick (requeue c l h)) with (cn_tick c). change (cn_rq (c <| cn_tick := S (cn_tick c) |>)) with (cn_rq c).
  destruct (takeForResend (cn_rq c) req _) as [q [e|]]; [|done].
  set (c1 := c <| cn_tick := S (cn_tick c) |> <| cn_rq := q |>).
  change (requeue c l h <| cn_tick := S (cn_tick c) |> <| cn_rq := q |>) with (requeue c1 l h).
  change (cn_rq (requeue c1 l h)) with (cn_rq c1).
  destruct (e_data e) as [d|]; rewrite queueCopies_requeue; by destruct (queueCopies E _ c1 e _ b).
Qed.

(** the requests serviced one after the other *)
Definition service_all c (reqs : list retransmitRequest) (queued : bool) : Connection * bool :=
  foldl (λ st req, resendOne E st.1 req st.2) (c, queued) reqs.

Lemma service_all_cons c r reqs b : service_all c (r :: reqs) b = service_all (resendOne E c r b).1 reqs (resendOne E c r b).2.
Proof. unfold service_all. cbn [foldl fst snd]. by destruct (resendOne E c r b). Qed.
Lemma popResend_end c : (popResend c).2 = None → (popResend c).1 = requeue c [] 0.
Proof. unfold popResend. by destruct (_ !! _). Qed.

Lemma serviceLoop_fold fuel c b : head_ok c → (length (backlog c) < fuel)%nat →
  serviceLoop E fuel c b = Some (service_all (requeue c [] 0) (backlog c) b).
Proof.
  revert c b. induction fuel as [|fuel IH]; intros c b Hh Hf; [lia|]. cbn [serviceLoop].
  pose proof (popResend_spec c Hh) as Hp. pose proof (popResend_end c) as He. destruct (popResend c) as [c1 [r|]]; cbn [fst snd] in He.
  - destruct Hp as (Hh1 & Hr1 & Hb & _). rewrite Hb in *. cbn in Hf.
    change (option_list (Some r) ++ backlog c1) with (r :: backlog c1). rewrite service_all_cons.
    assert (requeue c [] 0 = requeue c1 [] 0) as -> by (unfold requeued in Hr1; by rewrite Hr1).
    rewrite resendOne_requeue. cbn [fst snd].
    pose proof (resendOne_queue E c1 r b) as [Hq1 Hq2]. destruct (resendOne E c1 r b) as [c2 b2]. cbn [fst snd] in *.
    assert (backlog c2 = backlog c1) as Hb2 by (unfold backlog; by rewrite Hq1, Hq2).
    rewrite <- Hb2. apply IH; [unfold head_ok in *; by rewrite Hq1, Hq2|rewrite Hb2; lia].
  - destruct Hp as (_ & _ & Hb & Hn). rewrite (Hn eq_refl) in Hb. rewrite Hb. by rewrite (He eq_refl).
Qed.
End resend.

(** The resend queue is a FIFO, and the worker empties it.  [enqueueResends]
    appends; and the worker, which advances a head index, zeroes the cells
    behind it and moves the rest to the front from time to time, services
    exactly the requests that were waiting, each once and in order, leaves
    the queue empty, and flushes the batch if it queued a frame. *)
Theorem resends_in_order E c reqs :
  head_ok c → let c1 := enqueueResends c reqs in
  backlog c1 = backlog c ++ reqs ∧
  serviceResends E c1 = (let '(c', queued) := service_all E (requeue c1 [] 0) (backlog c ++ reqs) false in
                         Some (if queued then tx_do' (SendBatch.flushSend E.(ce_tx)) c' else c', queued)).
Proof.
  intros Hh c1. assert (backlog c1 = backlog c ++ reqs) as Hb by (by apply enqueueResends_spec).
  assert (head_ok c1) as Hh1.
  { unfold c1, enqueueResends, head_ok in *. case_test; [done|]. cbn. rewrite Zlen_app. pose proof (Zlen_nonneg reqs). lia. }
  split; [done|]. unfold serviceResends. rewrite serviceLoop_fold; [|done|unfold backlog; rewrite length_drop; lia].
  rewrite Hb. cbn [mbind option_bind]. by destruct (service_all _ _ _ _).
Qed.
Lemma resends_in_order_witness :
  let c := newConnection witness_E in
  backlog (enqueueResends c [mkRequest 1 0; mkRequest 3 0]) = [mkRequest 1 0; mkRequest 3 0].
Proof.
  intros c. apply (resends_in_order witness_E c [mkRequest 1 0; mkRequest 3 0]). done.
Defined.

(** ** Between the critical sections of [removeStream] *)

(** A server's connection on which the peer's stream 1 has run its course:
    read to its end, closed and acknowledged. *)
Definition server_E : cenv := example_env (WithMaxDatagramSize 140 defaultConfig) false.
Definition finished_events : list conn_op :=
  [ KReceive [header_bytes frameData 1 0 6 ++ [0; 0; 0; 0; 7; 8]; header_bytes frameStreamFIN 1 1 0]; KAccept; KRead 1 10; KRead 1 10;
    KCloseWrite 1; KReceive [seq_list_frame frameACK 1 [0]] ].
(** the peer's first frame once more, as [dispatchFrameLocked] passes it on *)
Definition late_frame : frame := mkFrame frameData 1 0 2 [7; 8].
(** what the application sees: the streams waiting to be accepted, whether
    stream 1 is in the table, and whether it is marked as dead *)
Definition stream1_view (c : option Connection) : option (list Z * bool * bool) :=
  c ← c; Some (c.(cn_acceptCh), bool_decide (is_Some (c.(cn_streams) !! 1)), bool_decide (is_Some (c.(cn_deadStreams) !! 1))).

(** [removeStream] does not always keep a late retransmission from
    resurrecting the stream.  It deletes the stream from the table under one
    mutex and writes the tombstone under another, later.  If the peer's
    retransmission of a DATA frame is handled after both, it is acknowledged
    and discarded, as intended; if it is handled between them, it opens
    stream 1 anew, hands it to [AcceptStream] a second time, and the stream
    stays in the table beside its own tombstone. *)
Theorem removal_race :
  let run := conn_run server_E (newConnection server_E) finished_events in
  (c ← run; Some (collectable server_E c)) = Some [1] ∧
  stream1_view (c ← run; handleData server_E (removeStream server_E c 1) late_frame) = Some ([], false, true) ∧
  stream1_view (c ← run; c ← handleData server_E (removeStream_table c 1) late_frame;
                Some (removeStream_bury server_E (removeStream_purge server_E c 1) 1)) = Some ([1], true, true).
Proof. split_and!; vm_compute; reflexivity. Qed.
