(* ===== verification/ConnActs.v ===== *)
(** * What a connection does to its streams

    Every operation of a connection comes down to a sequence of acts: an
    operation on one side of one stream, a stream made or dropped, or
    something the streams and the history do not see.  What is proved of
    streams, one at a time, can then be carried over to whole connections:
    it is enough to look at the acts.  [step_acts] is the decomposition. *)
From S2P Require Import Prelude Errors Frame Float64 Pacer Options Ring StreamRecv Retransmit RetransmitSpec RetransmitRefine.
From S2P Require Import StreamSend SendRule Estimator SendBatch BatchInv SendFifo Connection ConnLemmas Termination ConnBooks ConnInv ConnOps ConnRun ConnFlags ConnInput.

(** ** Acts *)
Inductive read_ev :=
  | RvDeliver (seq : Z) (p : list Z) (fin : bool)
  | RvFec (row : bool) (base count xorLen : Z) (data : list Z)
  | RvReset
  | RvRead (plen : Z) (r : read_result)      (* [r] is what [Read] came to *)
  | RvCancel (code : Z)
  | RvTail (now : Z)
  | RvSnapshot
  | RvDeadline (t : Z).
Inductive read_rel (e : renv) (s : rside) : read_ev → rside → Prop :=
  | rr_deliver seq p fin s' ack : deliver e s seq p fin = Some (s', ack) → read_rel e s (RvDeliver seq p fin) s'
  | rr_fec row base count xl data s' b : applyFec e s row base count xl data = Some (s', b) → read_rel e s (RvFec row base count xl data) s'
  | rr_reset : read_rel e s RvReset (deliverReset s)
  | rr_read plen s' r : tryRead e s plen = (s', r) → read_rel e s (RvRead plen r) s'
  | rr_cancel code : read_rel e s (RvCancel code) (CancelRead s code)
  | rr_tail now : read_rel e s (RvTail now) (maybeTailNack e s now)
  | rr_snapshot : read_rel e s RvSnapshot (ackSnapshot s).1
  | rr_deadline t : read_rel e s (RvDeadline t) (SetReadDeadline s t).

Inductive write_ev :=
  | WvWrite (p : list Z) (o : write_outcome) (* [o] is what [Write] came to *)
  | WvClose
  | WvCancel (code : Z)
  | WvStop (code : Z)
  | WvWindow (offset : Z)
  | WvAcked (n : Z)
  | WvDeadline (t : Z).

Inductive act :=
  | AQuiet
  | AOpen (sid : Z)
  | AAccept (sid : Z)
  | ADrop
  | ARead (sid : Z) (ev : read_ev)
  | AWrite (sid : Z) (ev : write_ev).

(** what the acts are about *)
Definition core (c : Connection) : gmap Z Stream * list (Z * sent) * Z := (c.(cn_streams), c.(cn_log), c.(cn_nextStream)).

Section acts.
Context (E : cenv).
#[local] Abbreviation X := (ce_tx E).
#[local] Abbreviation cf := (tx_cfg (ce_tx E)).
Implicit Types (c : Connection) (P Q : act → Prop).

Inductive write_rel (sid : Z) (w : wside) c : write_ev → wside → Connection → Prop :=
  | wr_write p w' c' o : @Write _ (conn_path E) cf sid w c p = Some (w', c', o) → write_rel sid w c (WvWrite p o) w' c'
  | wr_close w' c' e : @stream_Close _ (conn_path E) sid w c = (w', c', e) → write_rel sid w c WvClose w' c'
  | wr_cancel code w' c' : @CancelWrite _ (conn_path E) sid w c code = (w', c') → write_rel sid w c (WvCancel code) w' c'
  | wr_stop code w' c' : @onStopSending _ (conn_path E) sid w c code = (w', c') → write_rel sid w c (WvStop code) w' c'
  | wr_window offset : write_rel sid w c (WvWindow offset) (setMaxSendOffset w offset) c
  | wr_acked n : write_rel sid w c (WvAcked n) (creditAcked w n) c
  | wr_deadline t : write_rel sid w c (WvDeadline t) (SetWriteDeadline w t) c.

Inductive micro c : act → Connection → Prop :=
  | mi_quiet c' : core c' = core c → micro c AQuiet c'
  | mi_open e now c' : cfg e = cf → c.(cn_streams) !! c.(cn_nextStream) = None → is_u32 c.(cn_nextStream) ∧ own E c.(cn_nextStream) = true →
      core c' = (<[c.(cn_nextStream) := newStream e cf.(streamBufSize) now]> c.(cn_streams), c.(cn_log), c.(cn_nextStream) + 2) →
      micro c (AOpen c.(cn_nextStream)) c'
  | mi_accept sid e now c' : cfg e = cf → c.(cn_streams) !! sid = None → is_u32 sid ∧ own E sid = false →
      core c' = (<[sid := newStream e cf.(streamBufSize) now]> c.(cn_streams), c.(cn_log), c.(cn_nextStream)) → micro c (AAccept sid) c'
  | mi_drop c' : c'.(cn_streams) ⊆ c.(cn_streams) → c'.(cn_log) = c.(cn_log) → c'.(cn_nextStream) = c.(cn_nextStream) → micro c ADrop c'
  | mi_read sid st e s s' k ev c' : c.(cn_streams) !! sid = Some st → cfg e = cf →
      s = st.(st_read) <| tick := s.(tick) |> <| calls := s.(calls) |> → read_rel e s ev s' →
      core c' = (<[sid := mkStream (s' <| calls := k |>) st.(st_write)]> c.(cn_streams), c.(cn_log), c.(cn_nextStream)) →
      micro c (ARead sid ev) c'
  | mi_write sid st w' c1 ev c' : c.(cn_streams) !! sid = Some st → write_rel sid st.(st_write) c ev w' c1 → serves sid c c1 →
      core c' = (<[sid := mkStream st.(st_read) w']> c.(cn_streams), c1.(cn_log), c.(cn_nextStream)) → micro c (AWrite sid ev) c'.

Inductive micros c : list act → Connection → Prop :=
  | ms_nil : micros c [] c
  | ms_snoc l c1 a c2 : micros c l c1 → micro c1 a c2 → micros c (l ++ [a]) c2.

(** [c'] comes of [c] by acts of [P] *)
Definition does P c c' : Prop := ∃ l, micros c l c' ∧ Forall P l.

#[export] Instance does_refl P : Reflexive (does P).
Proof. intros c. exists []. split; constructor. Qed.
Lemma micros_app c l1 c1 l2 c2 : micros c l1 c1 → micros c1 l2 c2 → micros c (l1 ++ l2) c2.
Proof.
  intros H1. induction 1 as [|l c2 a c3 _ IH Ha]; [by rewrite app_nil_r|]. rewrite app_assoc. by econstructor.
Qed.
#[export] Instance does_trans P : Transitive (does P).
Proof. intros c1 c2 c3 (l1 & H1 & P1) (l2 & H2 & P2). exists (l1 ++ l2). split; [by eapply micros_app|by apply Forall_app]. Qed.
Lemma does_act P c a c' : micro c a c' → P a → does P c c'.
Proof. intros H1 H2. exists ([] ++ [a]). split; [by repeat econstructor|by apply Forall_singleton]. Qed.
Lemma does_weaken P Q c c' : (∀ a, P a → Q a) → does P c c' → does Q c c'.
Proof. intros HPQ (l & H1 & H2). exists l. split; [done|]. by eapply Forall_impl. Qed.

(** acts that neither hear a frame nor serve the application's data nor drop
    a stream *)
Definition background (a : act) : Prop :=
  match a with
  | ADrop => False
  | ARead _ (RvDeliver _ _ _ | RvFec _ _ _ _ _ | RvReset | RvRead _ _) => False
  | AWrite _ (WvWrite _ _) => False
  | _ => True
  end.
#[local] Abbreviation idles := (does background).
(** the acts of a sweep over the streams *)
Definition sweeping (a : act) : Prop := match a with AQuiet | ADrop | ARead _ (RvTail _) => True | _ => False end.
#[local] Abbreviation sweeps := (does sweeping).

Lemma idles_core c c' : core c' = core c → idles c c'.
Proof. intros H. by eapply does_act; [apply mi_quiet|]. Qed.
Lemma sweeps_core c c' : core c' = core c → sweeps c c'.
Proof. intros H. by eapply does_act; [apply mi_quiet|]. Qed.
Lemma core_fields c c' : core c' = core c → cn_streams c' = cn_streams c ∧ cn_log c' = cn_log c ∧ cn_nextStream c' = cn_nextStream c.
Proof. by intros [= -> -> ->]. Qed.

(** the acts of a frame *)
Definition heard_act (f : frame) (a : act) : Prop :=
  match a with
  | ARead sid (RvDeliver seq p false) =>
      f.(f_ftype) = frameData ∧ sid = f.(f_streamID) ∧ seq = f.(f_seq) ∧
      p = (if cf.(fecGroup) >? 0 then slice f.(f_payload) fecMetaLen (Zlen f.(f_payload)) else f.(f_payload))
  | ARead sid (RvDeliver seq p true) => f.(f_ftype) = frameStreamFIN ∧ sid = f.(f_streamID) ∧ seq = f.(f_seq) ∧ p = []
  | ARead sid (RvFec row base count xorLen data) =>
      f.(f_ftype) = (if row then frameFECRow else frameFEC) ∧ sid = f.(f_streamID) ∧ base = f.(f_seq) ∧
      cf.(fecGroup) ≠ 0 ∧ fecMetaLen ≤ Zlen f.(f_payload) ∧
      (let meta := Uint32 (slice f.(f_payload) 0 fecMetaLen) in count = Z.shiftr meta 16 ∧ xorLen = Z.land meta 65535) ∧
      0 < count ≤ cf.(fecGroup) ∧ data = slice f.(f_payload) fecMetaLen (Zlen f.(f_payload))
  | ARead sid RvReset => f.(f_ftype) = frameStreamReset ∧ sid = f.(f_streamID)
  | _ => background a
  end.
Lemma background_heard f a : background a → heard_act f a.
Proof. by destruct a as [| | | |sid []|]. Qed.

(** ** Sending is not seen *)
Lemma tx_do_core m c : core (tx_do m c).1 = core c.
Proof.
  unfold core. rewrite tx_do_keeps_log. by destruct (sends_fields _ _ (tx_do_sends m c)) as (-> & _ & -> & _).
Qed.
Lemma tx_do'_core m c : core (tx_do' m c) = core c.
Proof. apply tx_do_core. Qed.
Lemma run_call_core sid c k : core (run_call E sid c k) = core c.
Proof. destruct k; cbn [run_call]; try apply tx_do_core; done. Qed.
Lemma run_calls_core sid c ks : core (foldl (run_call E sid) c ks) = core c.
Proof. revert c. induction ks as [|k ks IH]; intros c; [done|]. cbn [foldl]. by rewrite IH, run_call_core. Qed.

(** an operation on a read side is an act *)
Lemma on_read_act {A} c sid st (op : renv → rside → option (rside * A)) c' a ev :
  c.(cn_streams) !! sid = Some st → (∀ e s s' a, op e s = Some (s', a) → read_rel e s ev s') →
  on_read E c sid st op = Some (c', a) → micro c (ARead sid ev) c'.
Proof.
  intros Hst Hop. unfold on_read. set (s0 := st_read st <| tick := _ |> <| calls := [] |>).
  destruct (op (renv_of E c) s0) as [[s a']|] eqn:H1; [|done]. cbn [mbind option_bind]. intros [= <- _].
  eapply (mi_read c sid st (renv_of E c) s0 s []); [done|done|done|by eapply Hop|]. by rewrite run_calls_core.
Qed.
Lemma on_write_act c sid st (op : wside → Connection → option (wside * Connection * unit)) c' a ev :
  c.(cn_streams) !! sid = Some st →
  (∀ w' c1 b, op st.(st_write) c = Some (w', c1, b) → write_rel sid st.(st_write) c ev w' c1 ∧ serves sid c c1) →
  on_write c sid st op = Some (c', a) → micro c (AWrite sid ev) c'.
Proof.
  intros Hst Hop. unfold on_write. destruct (op (st_write st) c) as [[[w c1] b]|] eqn:H1; [|done]. cbn [mbind option_bind]. intros [= <- _].
  destruct (Hop _ _ _ eq_refl) as [H2 H3]. eapply mi_write; [done|exact H2|exact H3|].
  destruct (sends_fields _ _ (proj1 H3)) as (Hs & _ & Hn & _). unfold core. cbn. by rewrite Hs, Hn.
Qed.

Lemma conn_time_core c : core (conn_time E c).1 = core c.
Proof. done. Qed.

(** ** Acknowledgements *)
Lemma ackSnapLoop_core fuel c sid cum m rest c' : ackSnapLoop E fuel c sid cum m rest = Some c' → core c' = core c.
Proof.
  revert c rest. induction fuel as [|fuel IH]; intros c rest; cbn [ackSnapLoop]; [done|].
  destruct (_ =? 0); [intros [= <-]; apply tx_do_core|]. intros H%IH. by rewrite H, tx_do'_core.
Qed.
Lemma ackListLoop_core fuel c sid m rest c' : ackListLoop E fuel c sid m rest = Some c' → core c' = core c.
Proof.
  revert c rest. induction fuel as [|fuel IH]; intros c rest; cbn [ackListLoop]; (destruct (_ >? 0); [|by intros [= <-]]); [done|].
  intros H%IH. by rewrite H, tx_do'_core.
Qed.

Lemma ackDirtyStep_idles m c q sid c' q' : ackDirtyStep E m (Some (c, q)) sid = Some (c', q') → idles c c'.
Proof.
  unfold ackDirtyStep. cbn [mbind option_bind]. destruct (cn_streams c !! sid) as [st|] eqn:Hst.
  - destruct (on_read E c sid st _) as [[c1 [[cum seqs] g]]|] eqn:H1; [|done]. cbn [mbind option_bind].
    destruct (ackSnapLoop _ _ _ _ _ _ _) as [c2|] eqn:H2; [|done]. cbn [mbind option_bind]. intros [= <- <-].
    trans c1; [|apply idles_core; transitivity (core (tx_do' (queueWindowUpdate X sid (u64 g)) c2)); [done|]; by rewrite tx_do'_core, (ackSnapLoop_core _ _ _ _ _ _ _ H2)].
    apply (does_act _ _ (ARead sid RvSnapshot)); [|done]. eapply on_read_act; [done| |exact H1].
    intros e s s' a H. assert (s' = (ackSnapshot s).1) as -> by (by injection H as <- _). constructor.
  - intros [= <- <-]. by apply idles_core.
Qed.
Lemma ackListStep_core m c q sid c' q' : ackListStep E m (Some (c, q)) sid = Some (c', q') → core c' = core c.
Proof.
  unfold ackListStep. cbn [mbind option_bind]. destruct (_ =? 0); [by intros [= <- <-]|].
  destruct (ackListLoop _ _ _ _ _ _) as [c1|] eqn:H1; [|done]. cbn [mbind option_bind]. intros [= <- <-].
  by rewrite <- (ackListLoop_core _ _ _ _ _ _ H1).
Qed.
Lemma fold_idles {A} (f : option (Connection * bool) → A → option (Connection * bool)) l c q c' q' :
  (∀ a, f None a = None) → (∀ c q a c' q', f (Some (c, q)) a = Some (c', q') → idles c c') →
  foldl f (Some (c, q)) l = Some (c', q') → idles c c'.
Proof.
  intros Hn Hf. revert c q. induction l as [|a l IH]; intros c q; cbn [foldl]; [by intros [= <- <-]|].
  destruct (f (Some (c, q)) a) as [[c1 q1]|] eqn:H1; [intros H; trans c1; [by eapply Hf|by eapply IH]|].
  assert (foldl f None l = None) as -> by (clear -Hn; induction l as [|b l IH]; [done|]; cbn; by rewrite Hn). done.
Qed.
Lemma flushPendingAcksLocked_idles c c' : flushPendingAcksLocked E c = Some c' → idles c c'.
Proof.
  unfold flushPendingAcksLocked. destruct (_ <=? 0); [by intros [= <-]|].
  destruct (foldl _ _ _) as [[c1 q1]|] eqn:H1; [|done]. cbn [mbind option_bind fst].
  destruct (foldl _ (Some (c1, q1)) _) as [[c2 q2]|] eqn:H2; [|done]. cbn [mbind option_bind]. intros [= <-].
  trans c1; [eapply fold_idles; [..|exact H1]; [done|intros *; apply ackDirtyStep_idles]|].
  trans c2; [eapply fold_idles; [..|exact H2]; [done|intros * H; by eapply idles_core, ackListStep_core]|].
  destruct q2; [|done]. apply idles_core, tx_do_core.
Qed.

(** ** Incoming frames *)
Lemma insert_core c sid : c.(cn_streams) !! sid = None → is_u32 sid ∧ own E sid = false → micro c (AAccept sid) (insert_stream E c sid).1.
Proof. intros Hn Ho. by eapply (mi_accept c sid (renv_of E (conn_time E c).1) (ce_clock E (cn_tick c))). Qed.
Lemma streamForFrame_idles c sid c' r : is_u32 sid → streamForFrame E c sid = (c', r) →
  idles c c' ∧ ∀ s, r = inl s → c'.(cn_streams) !! sid = Some s.
Proof.
  intros Hu. unfold streamForFrame. destruct (cn_closed c); [by intros [= <- <-]|].
  destruct (cn_streams c !! sid) as [s|] eqn:Hs; [intros [= <- <-]; split; [done|by intros s' [= <-]]|].
  destruct (bool_decide _); [by intros [= <- <-]|]. fold (own E sid). destruct (own E sid) eqn:Hown; [by intros [= <- <-]|]. cbn [negb orb].
  destruct (cn_nil c) eqn:Hn; [by intros [= <- <-]|]. case_test.
  { intros [= <- <-]. split; [|done]. apply idles_core. by rewrite !tx_do'_core. }
  pose proof (insert_core c sid Hs (conj Hu Hown)) as Hi. assert (cn_streams (insert_stream E c sid).1 !! sid = Some (insert_stream E c sid).2) as Hl by apply lookup_insert_eq.
  destruct (insert_stream E c sid) as [c1 s1]. cbn [fst snd] in *. intros [= <- <-]. split.
  - trans c1; [by eapply does_act|]. case_test; [by apply idles_core|done].
  - intros s' [= <-]. by case_test.
Qed.

Lemma idles_heard f c c' : idles c c' → does (heard_act f) c c'.
Proof. apply does_weaken, background_heard. Qed.
Lemma heard_core f c c' : core c' = core c → does (heard_act f) c c'.
Proof. intros. by apply idles_heard, idles_core. Qed.

Lemma handleArrival_acts g c f p isFin c' : is_u32 f.(f_streamID) → heard_act g (ARead f.(f_streamID) (RvDeliver f.(f_seq) p isFin)) →
  handleArrival E c f p isFin = Some c' → does (heard_act g) c c'.
Proof.
  intros Hu Hp. unfold handleArrival. destruct (streamForFrame E c (f_streamID f)) as [c1 [s|d]] eqn:Hsf;
    destruct (streamForFrame_idles _ _ _ _ Hu Hsf) as [Hi Hs].
  - destruct (on_read E c1 _ s _) as [[c2 a]|] eqn:Ho; [|done]. cbn [mbind option_bind]. intros [= <-].
    trans c1; [by apply idles_heard|]. trans c2; [|by apply heard_core]. eapply does_act; [|exact Hp].
    eapply on_read_act; [by apply Hs| |exact Ho]. intros e r r' b H. by econstructor.
  - intros [= <-]. trans c1; [by apply idles_heard|]. destruct d; [|done]. by apply heard_core.
Qed.
Lemma handleFec_acts c f (row : bool) c' : f.(f_ftype) = (if row then frameFECRow else frameFEC) →
  handleFec E c f row = Some c' → does (heard_act f) c c'.
Proof.
  intros Hft. unfold handleFec. destruct (_ || _) eqn:H1; [by intros [= <-]|].
  apply orb_false_iff in H1 as [H1%bool_decide_eq_false H1'%bool_decide_eq_false]. destruct (_ || _) eqn:H2; [by intros [= <-]|].
  apply orb_false_iff in H2 as [H2%bool_decide_eq_false H2'%bool_decide_eq_false].
  destruct (cn_streams c !! _) as [s|] eqn:Hs; [|by intros [= <-]].
  destruct (on_read E c _ s _) as [[c2 a]|] eqn:Ho; [|done]. cbn [mbind option_bind]. intros [= <-].
  trans c2; [|destruct a; by apply heard_core]. eapply does_act.
  - eapply on_read_act; [exact Hs| |exact Ho]. intros e r r' b H. by eapply rr_fec, H.
  - cbn. split_and!; try done; lia.
Qed.

(** an operation on a write side that sends nothing *)
Lemma silent_write_act c sid st c' a ev (g : wside → wside) : c.(cn_streams) !! sid = Some st →
  write_rel sid st.(st_write) c ev (g st.(st_write)) c →
  on_write c sid st (λ w c, Some (g w, c, ())) = Some (c', a) → micro c (AWrite sid ev) c'.
Proof. intros Hst Hr. apply on_write_act; [done|]. intros w' c1 b [= <- <- _]. split; [done|reflexivity]. Qed.

Lemma handleACK_acts c f c' : handleACK E c f = Some c' → idles c c'.
Proof.
  unfold handleACK, conn_time. destruct (decodeSeqListFrame f []) as [[cum seqs]|]; [|by intros [= <-]]. cbn [fst snd].
  destruct (ackCumulative _ _ _ _) as [[q1 f1] s1]. destruct (ackMany _ _ _ _) as [[q2 f2] s2].
  set (sample := if _ || _ then _ else _). clearbody sample. set (c1 := if sample >? 0 then _ else _).
  assert (core c1 = core c) as Hc1 by (unfold c1; by case_test). clearbody c1.
  case_test; [intros [= <-]; by apply idles_core|]. destruct (core_fields _ _ Hc1) as (Hst & _).
  destruct (cn_streams c1 !! f_streamID f) as [st|] eqn:Hs; [|intros [= <-]; by apply idles_core].
  destruct (on_write c1 _ st _) as [[c2 a]|] eqn:Ho; [|done]. cbn [mbind option_bind]. intros [= <-].
  trans c1; [by apply idles_core|]. apply (does_act _ _ (AWrite (f_streamID f) (WvAcked (f1 + f2)))); [|done].
  eapply (silent_write_act c1 _ st _ a _ (λ w, creditAcked w (f1 + f2))); [done|constructor|exact Ho].
Qed.
Lemma nackRequests_core c sid m seqs : core (nackRequests E c sid m seqs).1 = core c.
Proof.
  revert c. induction seqs as [|seq seqs IH]; intros c; [done|]. cbn [nackRequests]. unfold conn_time. cbn [fst snd].
  destruct (requestForResend _ _ _ _ _) as [q r]. match goal with |- context [nackRequests E ?c1 sid m seqs] => specialize (IH c1) end.
  destruct (nackRequests E _ sid m seqs) as [c2 rs]. done.
Qed.
Lemma handleWindowUpdate_acts c f c' : handleWindowUpdate c f = Some c' → idles c c'.
Proof.
  unfold handleWindowUpdate. destruct (decodeWindowUpdatePayload _) as [offset|]; [|by intros [= <-]].
  destruct (cn_streams c !! f_streamID f) as [st|] eqn:Hs; [|by intros [= <-]].
  destruct (on_write c _ st _) as [[c2 a]|] eqn:Ho; [|done]. cbn [mbind option_bind]. intros [= <-].
  apply (does_act _ _ (AWrite (f_streamID f) (WvWindow (i64 offset)))); [|done].
  eapply (silent_write_act c _ st _ a _ (λ w, setMaxSendOffset w (i64 offset))); [done|constructor|exact Ho].
Qed.

Lemma handleStopSending_acts c f c' : env_ok E → conn_ok E c → handleStopSending E c f = Some c' → idles c c'.
Proof.
  intros HE Hok. unfold handleStopSending. destruct (cn_streams c !! f_streamID f) as [st|] eqn:Hs; [|by intros [= <-]].
  destruct (on_write c _ st _) as [[c2 a]|] eqn:Ho; [|done]. cbn [mbind option_bind]. intros [= <-].
  apply (does_act _ _ (AWrite (f_streamID f) (WvStop (f_seq f)))); [|done]. eapply on_write_act; [done| |exact Ho].
  intros w' c1 b H1. pose proof (abort_serves E HE (f_streamID f) c (st_write st) (f_seq f) (ti_lanes _ _ (ck_table _ _ Hok) _ _ Hs)) as H2.
  cbn beta in H1. change (@onStopSending _ (conn_path E) (f_streamID f) (st_write st) c (f_seq f)) with
    (@abortWriteLocked _ (conn_path E) (f_streamID f) (st_write st) c (f_seq f) true) in H1.
  destruct (@abortWriteLocked _ (conn_path E) (f_streamID f) (st_write st) c (f_seq f) true) as [w3 c3] eqn:H3.
  injection H1 as <- <- _. split; [by constructor|done].
Qed.

Lemma dispatch_acts c f c' : env_ok E → conn_ok E c → is_u32 f.(f_streamID) → dispatchFrameLocked E c f = Some c' → does (heard_act f) c c'.
Proof.
  intros HE Hok Hu. unfold dispatchFrameLocked. set (c0 := c <| cn_missedPongs := 0 |>).
  assert (conn_ok E c0) as Hok0 by (unfold c0; ok_same Hok). intros Hd. trans c0; [by apply heard_core|]. revert Hd. clearbody c0. clear c Hok.
  assert (∀ c1, core c1 = core c0 → Some c1 = Some c' → does (heard_act f) c0 c') as Hq by (intros c1 H1 [= <-]; by apply heard_core).
  assert (Some c0 = Some c' → does (heard_act f) c0 c') as Hsame by (by apply Hq).
  destruct (bool_decide_reflect (f_ftype f = frameData)) as [Hf|].
  { destruct (cf.(fecGroup) >? 0) eqn:Hg; [case_test; [done|]|]; intros H.
    - eapply (handleArrival_acts f); [exact Hu| |exact H]. cbn. by rewrite Hg.
    - eapply (handleArrival_acts f); [exact Hu| |exact H]. cbn. by rewrite Hg. }
  destruct (bool_decide_reflect (f_ftype f = frameFEC)) as [Hf|]; [by apply handleFec_acts|].
  destruct (bool_decide_reflect (f_ftype f = frameFECRow)) as [Hf|]; [destruct (fec2D cf); [by apply handleFec_acts|done]|].
  destruct (bool_decide_reflect (f_ftype f = frameStreamFIN)) as [Hf|]; [by apply handleArrival_acts|].
  destruct (bool_decide_reflect (f_ftype f = frameStreamReset)) as [Hf|].
  { unfold handleStreamReset. set (c1 := queueAck c0 _ _). destruct (cn_streams c1 !! _) as [st|] eqn:Hs; [|by apply Hq].
    destruct (on_read E c1 _ st _) as [[c2 a]|] eqn:Ho; [|done]. cbn [mbind option_bind]. intros [= <-]. trans c1; [by apply heard_core|].
    apply (does_act _ _ (ARead (f_streamID f) RvReset)); [|done]. eapply on_read_act; [done| |exact Ho]. intros e r r' b [= <- <-]. constructor. }
  destruct (bool_decide_reflect (f_ftype f = frameStopSending)) as [Hf|]; [intros H; by apply idles_heard, (handleStopSending_acts _ f)|].
  destruct (bool_decide_reflect (f_ftype f = frameWindowUpdate)) as [Hf|]; [intros H; by eapply idles_heard, handleWindowUpdate_acts|].
  destruct (bool_decide _); [apply Hq, tx_do_core|].
  destruct (bool_decide _); [apply Hq; unfold handlePong; by case_test|].
  destruct (bool_decide _); [by apply Hq|].
  destruct (bool_decide _); [intros H; by eapply idles_heard, handleACK_acts|].
  destruct (bool_decide _).
  { apply Hq. unfold handleNack. destruct (decodeSeqListFrame f []) as [[cum seqs]|]; [|done].
    match goal with |- context [nackRequests E ?c ?s ?m ?l] =>
      pose proof (nackRequests_core c s m l) as H1; destruct (nackRequests E c s m l) as [c1 rs] end.
    unfold enqueueResends. by case_test. }
  destruct (bool_decide _); [|done]. apply Hq. unfold handleHandshake. destruct (cn_closed c0); [done|]. destruct (ce_isClient E); [done|]. apply tx_do_core.
Qed.

(** the acts of datagrams *)
Definition heard_in (ds : list (list Z)) (a : act) : Prop :=
  background a ∨ ∃ d f, d ∈ ds ∧ decodeFrame d = Ok f ∧ heard_act f a.
Lemma heard_in_mono ds ds' a : ds ⊆ ds' → heard_in ds a → heard_in ds' a.
Proof. intros Hs [H|(d & f & H1 & H2)]; [by left|right]. exists d, f. split; [by apply Hs|done]. Qed.
Lemma idles_heard_in ds c c' : idles c c' → does (heard_in ds) c c'.
Proof. apply does_weaken. by left. Qed.

Lemma dispatch_all_acts c ds c' : env_ok E → conn_ok E c → Forall is_datagram ds → dispatch_all E c ds = Some c' → does (heard_in ds) c c'.
Proof.
  intros HE Hok Hds. revert c Hok. induction Hds as [|d ds Hd _ IH]; intros c Hok; cbn [dispatch_all]; [by intros [= <-]|].
  destruct (datagram_decodes d [] Hd) as (f & _ & Hdec & Hf & _). rewrite Hdec.
  destruct (dispatchFrameLocked E c f) as [c1|] eqn:H1; [|done]. cbn [mbind option_bind]. intros H2. trans c1.
  - eapply does_weaken; [|eapply dispatch_acts; [done|done|by apply (fw_sid _ Hf)|done]]. intros a Ha. right. exists d, f. split_and!; [set_solver|done..].
  - eapply does_weaken; [|eapply IH; [by eapply dispatch_ok|exact H2]]. intros a. apply heard_in_mono. set_solver.
Qed.
Lemma readMessages_acts c groups c' : env_ok E → conn_ok E c → Forall (Forall is_datagram) groups →
  readMessages E c ((λ ds, concat ds) <$> groups) = Some c' → does (heard_in (concat groups)) c c'.
Proof.
  intros HE Hok Hg. revert c Hok. induction Hg as [|ds groups Hds _ IH]; intros c Hok; [by intros [= <-]|]. cbn [fmap list_fmap].
  rewrite readMessages_cons by done.
  assert (∀ c1, conn_ok E c1 → does (heard_in ds) c c1 → readMessages E c1 ((λ ds, concat ds) <$> groups) = Some c' → does (heard_in (concat (ds :: groups))) c c') as Hgo.
  { intros c1 Hok1 H1 H2. trans c1; (eapply does_weaken; [intros a; apply heard_in_mono|]); [|exact H1| |by apply IH]; cbn; set_solver. }
  destruct (cn_closed c); [by apply Hgo|]. destruct (dispatch_all E c ds) as [c1|] eqn:H1; [|done]. cbn [mbind option_bind].
  apply Hgo; [by eapply dispatch_all_ok|by apply dispatch_all_acts].
Qed.
Lemma readBatch_acts c groups c' : env_ok E → conn_ok E c → Forall (Forall is_datagram) groups →
  readBatch E c ((λ ds, concat ds) <$> groups) = Some c' → does (heard_in (concat groups)) c c'.
Proof.
  intros HE Hok Hg. unfold readBatch. destruct (cn_closed c); [by intros [= <-]|].
  destruct (readMessages E c _) as [c1|] eqn:H1; [|done]. cbn [mbind option_bind]. intros H2. trans c1; [by apply readMessages_acts|].
  by apply idles_heard_in, flushPendingAcksLocked_idles.
Qed.
Lemma forward_acts c ds c' : env_ok E → conn_ok E c → Forall is_datagram ds →
  handleDatagramAndFlush E c (concat ds) = Some c' → does (heard_in ds) c c'.
Proof.
  intros HE Hok Hds. unfold handleDatagramAndFlush, handleDatagramLocked. destruct (cn_closed c) eqn:Hcl; [by intros [= <-]|].
  rewrite parseLoop_datagrams by (done || lia). destruct (dispatch_all E c ds) as [c1|] eqn:H1; [|done]. cbn [mbind option_bind]. intros H2.
  trans c1; [by apply dispatch_all_acts|]. by apply idles_heard_in, flushPendingAcksLocked_idles.
Qed.

(** ** The worker and the tickers *)
Lemma queueCopies_core n c e data q : core (queueCopies E n c e data q).1 = core c.
Proof.
  revert c q. induction n as [|n IH]; intros c q; [done|]. cbn [queueCopies].
  match goal with |- context [tx_do ?m c] => pose proof (tx_do_core m c) as Hl; destruct (tx_do m c) as [c1 [e1|]] end; [done|].
  by rewrite IH.
Qed.
Lemma resendOne_core c req q : core (resendOne E c req q).1 = core c.
Proof.
  unfold resendOne, conn_time. destruct (peekForResend _ _); [|done]. cbn [fst snd]. destruct (takeForResend _ _ _) as [rq [e|]]; [|done].
  set (n := if _ >=? _ then 2%nat else 1%nat). clearbody n. destruct (e_data e) as [d|];
  match goal with |- context [queueCopies E n ?c e ?d q] => pose proof (queueCopies_core n c e d q) as Hl; destruct (queueCopies E n c e d q) as [c1 q1] end; done.
Qed.
Lemma popResend_core c : core (popResend c).1 = core c.
Proof. unfold popResend. destruct (_ !! _); [|done]. cbn [fst]. by destruct (_ && _). Qed.
Lemma serviceLoop_core fuel c q c' q' : serviceLoop E fuel c q = Some (c', q') → core c' = core c.
Proof.
  revert c q. induction fuel as [|fuel IH]; intros c q; cbn [serviceLoop]; [done|]. pose proof (popResend_core c) as Hp.
  destruct (popResend c) as [c1 [req|]]; [|by intros [= <- <-]]. pose proof (resendOne_core c1 req q) as Hr. destruct (resendOne E c1 req q) as [c2 q2].
  intros H%IH. cbn in *. congruence.
Qed.
Lemma serviceResends_core c c' q : serviceResends E c = Some (c', q) → core c' = core c.
Proof.
  unfold serviceResends. destruct (serviceLoop E _ c false) as [[c1 q1]|] eqn:H1; [|done]. cbn [mbind option_bind]. intros [= <- <-].
  rewrite <- (serviceLoop_core _ _ _ _ _ H1). destruct q1; [apply tx_do_core|done].
Qed.

Lemma tailNackScan_sweeps c c' : tailNackScan E c = Some c' → sweeps c c'.
Proof.
  unfold tailNackScan, conn_time. set (c0 := c <| cn_tick := _ |>). set (now := ce_clock E _). intros H. trans c0; [by apply sweeps_core|].
  revert H. clearbody c0 now. clear c. generalize (ce_range_ids E (dom (cn_streams c0))) as l. intros l. revert c0. induction l as [|sid l IH]; intros c; cbn [foldl]; [by intros [= <-]|].
  destruct (tailNackStep E now (Some c) sid) as [c1|] eqn:H1; [|intros H; exfalso; clear -H; by induction l].
  intros H. trans c1; [|by apply IH]. revert H1. unfold tailNackStep. cbn [mbind option_bind].
  destruct (cn_streams c !! sid) as [st|] eqn:Hs; [|by intros [= <-]].
  destruct (on_read E c sid st _) as [[c2 a]|] eqn:Ho; [|done]. cbn [mbind option_bind]. intros [= <-].
  apply (does_act _ _ (ARead sid (RvTail now))); [|done]. eapply on_read_act; [done| |exact Ho]. intros e r r' b [= <- <-]. constructor.
Qed.
Lemma removeStream_drops c sid : micro c ADrop (removeStream E c sid).
Proof. apply mi_drop; [apply delete_subseteq|done..]. Qed.
Lemma gcStreams_sweeps c : sweeps c (gcStreams E c).
Proof.
  unfold gcStreams. trans (foldl (removeStream E) c (collectable E c)); [|by apply sweeps_core].
  generalize (collectable E c) as l. intros l. revert c. induction l as [|sid l IH]; intros c; [done|]. cbn [foldl].
  trans (removeStream E c sid); [|apply IH]. by eapply does_act; [apply removeStream_drops|].
Qed.
Lemma retransmitTick_sweeps c c' : retransmitTick E c = Some c' → sweeps c c'.
Proof.
  unfold retransmitTick, conn_time. destruct (due _ _ _) as [[q reqs]|]; [|done]. cbn [mbind option_bind]. set (c1 := enqueueResends _ _).
  assert (core c1 = core c) as H1 by (unfold c1, enqueueResends; by case_test). clearbody c1.
  destruct (tailNackScan E c1) as [c2|] eqn:H2; [|done]. cbn [mbind option_bind]. intros [= <-].
  trans c1; [by apply sweeps_core|]. trans c2; [by apply tailNackScan_sweeps|apply gcStreams_sweeps].
Qed.

Lemma OpenStream_idles c : conn_ok E c → c.(cn_nextStream) + 2 < 2 ^ 32 → idles c (OpenStream E c).1.
Proof.
  intros Hok Hlt. destruct (ck_table _ _ Hok) as [_ _ _ [T3 T4] T5 _ _].
  assert (cn_streams c !! cn_nextStream c = None) as Hn.
  { destruct (cn_streams c !! cn_nextStream c) as [st|] eqn:Hst; [|done]. apply elem_of_dom_2 in Hst. specialize (T5 _ Hst T4). lia. }
  unfold OpenStream. destruct (cn_closed c); [done|]. destruct (_ || _); [done|]. case_test; [done|].
  apply (does_act _ _ (AOpen (cn_nextStream c))); [|done]. eapply (mi_open c (renv_of E (conn_time E c).1) (ce_clock E (cn_tick c))); [done..|].
  unfold core. cbn. rewrite u32_id; [done|]. unfold is_u32 in *. lia.
Qed.
Lemma SendPing_core c sid seq : core (SendPing E c sid seq).1 = core c.
Proof.
  unfold SendPing, conn_time. cbn [fst snd].
  match goal with |- context [tx_do ?m ?c] => pose proof (tx_do_core m c) as Hl; destruct (tx_do m c) as [c1 [e1|]] end; done.
Qed.

(** ** The decomposition *)

(** what an operation hears *)
Definition op_input (op : conn_op) (ds : list (list Z)) : Prop :=
  match op with
  | KReceive msgs => ∃ groups, msgs = (λ ds, concat ds) <$> groups ∧ ds = concat groups
  | KForward buf => buf = concat ds
  | _ => ds = []
  end.

(** the read side an operation finds *)
Definition found c (st : Stream) : rside := st.(st_read) <| tick := c.(cn_tick) |> <| calls := [] |>.
(** what a [Read], and a [Write], of stream [sid] would come to *)
Definition reads c (st : Stream) (plen : Z) : read_result := (tryRead (renv_of E c) (found c st) plen).2.
Definition writes c (sid : Z) (st : Stream) (p : list Z) : option write_outcome :=
  '(_, _, o) ← @Write _ (conn_path E) cf sid st.(st_write) c p; Some o.

(** the acts of an operation: reading and writing are one act each *)
Definition op_acts c (op : conn_op) (ds : list (list Z)) (l : list act) : Prop :=
  match op with
  | KRead sid plen => l = match c.(cn_streams) !! sid with Some st => [ARead sid (RvRead plen (reads c st plen))] | None => [] end
  | KWrite sid p => Some l = match c.(cn_streams) !! sid with
      | Some st => o ← writes c sid st p; Some [AWrite sid (WvWrite p o)] | None => Some [] end
  | KTick | KCloseFence => Forall sweeping l
  | _ => Forall (heard_in ds) l
  end.

Lemma do_write_acts c sid st ev op c' : c.(cn_streams) !! sid = Some st → 
  (∀ w' c1, op st.(st_write) c = Some (w', c1) → write_rel sid st.(st_write) c ev w' c1 ∧ serves sid c c1) →
  do_write c sid op = Some c' → micro c (AWrite sid ev) c'.
Proof.
  intros Hst Hop. unfold do_write, on_stream. rewrite Hst. destruct (on_write c sid st _) as [[c2 a]|] eqn:Ho; [|done].
  cbn [mbind option_bind]. intros [= <-]. eapply on_write_act; [done| |exact Ho]. intros w' c1 b.
  cbv beta. destruct (op (st_write st) c) as [[w1 c3]|]; [|done]. cbn [mbind option_bind]. intros [= <- <- _]. by apply Hop.
Qed.
Lemma do_write_none c sid op c' : c.(cn_streams) !! sid = None → do_write c sid op = Some c' → c' = c.
Proof. intros Hn. unfold do_write, on_stream. rewrite Hn. by intros [= <-]. Qed.
Lemma do_read_acts c sid st ev op c' : c.(cn_streams) !! sid = Some st → (∀ e s, read_rel e s ev (op e s)) →
  do_read E c sid op = Some c' → micro c (ARead sid ev) c'.
Proof.
  intros Hst Hop. unfold do_read, on_stream. rewrite Hst. destruct (on_read E c sid st _) as [[c2 a]|] eqn:Ho; [|done].
  cbn [mbind option_bind]. intros [= <-]. eapply on_read_act; [done| |exact Ho]. intros e s s' b [= <- <-]. apply Hop.
Qed.
Lemma do_read_none c sid op c' : c.(cn_streams) !! sid = None → do_read E c sid op = Some c' → c' = c.
Proof. intros Hn. unfold do_read, on_stream. rewrite Hn. by intros [= <-]. Qed.

(** a [Write] and a [Read] are one act each *)
Lemma write_acts c sid p c' : env_ok E → conn_ok E c → op_ok c (KWrite sid p) → conn_step E c (KWrite sid p) = Some c' →
  ∃ l, micros c l c' ∧ op_acts c (KWrite sid p) [] l.
Proof.
  intros HE Hok Hop. cbn [conn_step op_acts op_ok] in *. destruct (cn_streams c !! sid) as [st|] eqn:Hst.
  2:{ intros ->%do_write_none; [|done]. exists []. split; [constructor|done]. }
  intros H. unfold writes. destruct (@Write _ (conn_path E) cf sid (st_write st) c p) as [[[w1 c1] o]|] eqn:Hw.
  2:{ exfalso. revert H. unfold do_write, on_stream, on_write. rewrite Hst. cbv beta. by rewrite Hw. }
  exists [AWrite sid (WvWrite p o)]. split; [|done]. eapply (ms_snoc _ []); [constructor|]. eapply do_write_acts; [done| |exact H].
  intros w' c2. cbv beta. rewrite Hw. intros [= <- <-]. split; [by constructor|].
  eapply (writeLoop_serves E HE); [..|exact Hw]; [by apply (ti_lanes _ _ (ck_table _ _ Hok) sid)|by eapply seq_u32, (write_inv_intro E HE)|by apply Hop|lia].
Qed.
Lemma read_acts c sid plen c' : conn_step E c (KRead sid plen) = Some c' → ∃ l, micros c l c' ∧ op_acts c (KRead sid plen) [] l.
Proof.
  cbn [conn_step op_acts]. destruct (cn_streams c !! sid) as [st|] eqn:Hst.
  2:{ intros ->%do_read_none; [|done]. exists []. split; [constructor|done]. }
  intros H. eexists. split; [|reflexivity]. eapply (ms_snoc _ []); [constructor|]. revert H. unfold do_read, on_stream, on_read.
  rewrite Hst. cbn [mbind option_bind]. intros [= <-]. unfold reads. fold (found c st).
  eapply (mi_read _ sid st (renv_of E c) (found c st)); [done..| |by rewrite run_calls_core]. constructor. by destruct (tryRead _ _ _).
Qed.
(** setting both deadlines *)
Lemma deadline_idles c sid st t : c.(cn_streams) !! sid = Some st →
  idles c (c <| cn_streams := <[sid := SetDeadline st t]> c.(cn_streams) |>).
Proof.
  intros Hst. set (c1 := c <| cn_streams := <[sid := mkStream (SetReadDeadline st.(st_read) t) st.(st_write)]> c.(cn_streams) |>). trans c1.
  - apply (does_act _ _ (ARead sid (RvDeadline t))); [|done].
    eapply (mi_read _ sid st (renv_of E c) st.(st_read) _ st.(st_read).(calls)); [done|done|by destruct (st_read st)|constructor|]. by destruct (st_read st).
  - apply (does_act _ _ (AWrite sid (WvDeadline t))); [|done].
    eapply (mi_write c1 sid (mkStream (SetReadDeadline st.(st_read) t) st.(st_write))); [apply lookup_insert_eq|constructor|reflexivity|].
    unfold core, c1. cbn. by rewrite insert_insert_eq.
Qed.

Lemma step_acts c op ds c' : env_ok E → conn_ok E c → op_ok c op → op_input op ds → Forall is_datagram ds →
  conn_step E c op = Some c' → ∃ l, micros c l c' ∧ op_acts c op ds l.
Proof.
  intros HE Hok Hop Hin Hds.
  assert (∀ sid st, cn_streams c !! sid = Some st → lanes_small cf st.(st_write)) as Hl by (intros sid st; apply (ti_lanes _ _ (ck_table _ _ Hok))).
  assert (∀ c1, idles c c1 → Some c1 = Some c' → does (heard_in ds) c c') as Hidle by (intros c1 H [= <-]; by apply idles_heard_in).
  assert (∀ c1, core c1 = core c → Some c1 = Some c' → does (heard_in ds) c c') as Hcore by (intros c1 H; by apply Hidle, idles_core).
  assert (∀ sid ev, micro c (AWrite sid ev) c' → background (AWrite sid ev) → does (heard_in ds) c c') as Hwr.
  { intros sid ev H1 H2. eapply does_act; [exact H1|by left]. }
  assert (∀ sid ev, micro c (ARead sid ev) c' → background (ARead sid ev) → does (heard_in ds) c c') as Hrd.
  { intros sid ev H1 H2. eapply does_act; [exact H1|by left]. }
  destruct op as [| | |sid p|sid|sid code|sid plen|sid code|sid t|msgs|buf| | | | |sid seq|connID| | | |]; cbn [conn_step op_acts op_ok op_input] in *.
  - by apply Hidle, OpenStream_idles.
  - apply Hidle. pose proof (OpenStream_idles c Hok Hop) as H1. unfold OpenStreamSync. destruct (OpenStream E c) as [c1 [id|[]]]; cbn [fst] in *; try done.
    destruct (cn_closed c1); [done|]. trans c1; [done|by apply idles_core].
  - apply Hcore. unfold AcceptStream. destruct (cn_closed c); [done|]. by destruct (cn_acceptCh c).
  - intros H. exact (write_acts c sid p c' HE Hok Hop H).
  - intros H. change (does (heard_in ds) c c'). destruct (cn_streams c !! sid) as [st|] eqn:Hst; [|by apply do_write_none in H as ->].
    apply (Hwr sid WvClose); [|done]. eapply do_write_acts; [done| |exact H]. intros w' c1 [= Hc]. unfold stream_Close in Hc.
    pose proof (CloseWrite_serves E HE sid c (st_write st) (Hl _ _ Hst)) as H2.
    destruct (@CloseWrite _ (conn_path E) sid (st_write st) c) as [[w1 c2] e] eqn:H3. injection Hc as <- <-. split; [by econstructor|done].
  - intros H. change (does (heard_in ds) c c'). destruct (cn_streams c !! sid) as [st|] eqn:Hst; [|by apply do_write_none in H as ->].
    apply (Hwr sid (WvCancel code)); [|done]. eapply do_write_acts; [done| |exact H]. intros w' c1 [= Hc]. split; [by constructor|].
    pose proof (abort_serves E HE sid c (st_write st) code (Hl _ _ Hst)) as H2. unfold CancelWrite in Hc. rewrite Hc in H2. exact H2.
  - intros H. exact (read_acts c sid plen c' H).
  - intros H. change (does (heard_in ds) c c'). destruct (cn_streams c !! sid) as [st|] eqn:Hst; [|by apply do_read_none in H as ->].
    apply (Hrd sid (RvCancel code)); [|done]. eapply do_read_acts; [done| |exact H]. constructor.
  - unfold on_stream. destruct (cn_streams c !! sid) as [st|] eqn:Hst; [|by apply Hcore]. by apply Hidle, deadline_idles.
  - destruct Hin as (groups & -> & ->). intros H. apply readBatch_acts; try done. by apply Forall_concat in Hds.
  - subst buf. intros H. by apply forward_acts.
  - destruct (serviceResends E c) as [[c1 q]|] eqn:H1; [|done]. cbn [mbind option_bind]. apply Hcore. by eapply serviceResends_core.
  - by apply Hcore.
  - intros H. by apply retransmitTick_sweeps.
  - apply Hcore. unfold keepAliveTick. case_test; [done|]. by rewrite SendPing_core.
  - apply Hcore, SendPing_core.
  - apply Hcore, tx_do_core.
  - apply Hcore, tx_do_core.
  - by apply Hcore.
  - apply Hcore, tx_do_core.
  - intros [= <-]. apply (does_act _ _ ADrop); [|done]. apply mi_drop; [apply map_empty_subseteq|done..].
Qed.

(** ** Streams made *)
Definition creates (sid : Z) (a : act) : bool :=
  match a with AOpen sid' | AAccept sid' => bool_decide (sid' = sid) | _ => false end.
Definition births (sid : Z) (l : list act) : nat := length (filter (λ a, creates sid a = true) l).
(** whether [sid] was made between [c] and [c'] *)
Definition born c c' (sid : Z) : nat := if bool_decide (c.(cn_streams) !! sid = None ∧ c'.(cn_streams) !! sid ≠ None) then 1 else 0.

Lemma births_snoc sid l a : births sid (l ++ [a]) = (births sid l + (if creates sid a then 1 else 0))%nat.
Proof. unfold births. rewrite filter_app, length_app. cbn. by destruct (creates sid a); case_decide. Qed.
(** an act that drops nothing makes a stream exactly where the table grows *)
Lemma micro_dom c a c' sid : micro c a c' → a ≠ ADrop →
  (creates sid a = false ∧ (c'.(cn_streams) !! sid = None ↔ c.(cn_streams) !! sid = None)) ∨
  (creates sid a = true ∧ c.(cn_streams) !! sid = None ∧ c'.(cn_streams) !! sid ≠ None).
Proof.
  assert (∀ sid' st st', cn_streams c !! sid' = Some st → (<[sid' := st' : Stream]> (cn_streams c) !! sid = None ↔ cn_streams c !! sid = None)) as Hsame.
  { intros sid' st st' Hst. destruct (decide (sid' = sid)) as [->|Hne]; [by rewrite lookup_insert_eq, Hst|by rewrite lookup_insert_ne]. }
  assert (∀ sid' st', cn_streams c !! sid' = None → let b := bool_decide (sid' = sid) in
    (b = false ∧ (<[sid' := st' : Stream]> (cn_streams c) !! sid = None ↔ cn_streams c !! sid = None)) ∨
    (b = true ∧ cn_streams c !! sid = None ∧ <[sid' := st']> (cn_streams c) !! sid ≠ None)) as Hnew.
  { intros sid' st' Hn. cbv zeta. case_bool_decide as Hx; [subst; right; by rewrite lookup_insert_eq|left; by rewrite lookup_insert_ne]. }
  intros [c1 [= -> _ _]|e now c1 He Hn Ho [= -> _ _]|sid' e now c1 He Hn Ho [= -> _ _]|c1 H1 H2 H3|sid' st e s s' k ev c1 Hst He Hs Hr [= -> _ _]
    |sid' st w' c1 ev c2 Hst Hr Hsv [= -> _ _]] Hd; try done.
  - by left.
  - by apply Hnew.
  - by apply Hnew.
  - left. split; [done|]. by eapply Hsame.
  - left. split; [done|]. by eapply Hsame.
Qed.
Lemma micros_births c l c' sid : micros c l c' → ADrop ∉ l → births sid l = born c c' sid ∧ (c.(cn_streams) !! sid ≠ None → c'.(cn_streams) !! sid ≠ None).
Proof.
  intros Hm. induction Hm as [|l c1 a c2 _ IH Ha]; intros Hd.
  { unfold born. rewrite bool_decide_false by naive_solver. done. }
  destruct IH as [IH1 IH2]; [set_solver|]. rewrite births_snoc, IH1. unfold born.
  destruct (micro_dom c1 a c2 sid Ha ltac:(set_solver)) as [[-> Hi]|(-> & H1 & H2)].
  - split; [|naive_solver]. rewrite Nat.add_0_r. by rewrite (bool_decide_ext (_ ∧ cn_streams c1 !! sid ≠ None) (cn_streams c !! sid = None ∧ cn_streams c2 !! sid ≠ None)) by naive_solver.
  - assert (cn_streams c !! sid = None) as Hc by (destruct (cn_streams c !! sid) eqn:Hx; [exfalso; by apply IH2|done]).
    rewrite bool_decide_false by naive_solver. rewrite bool_decide_true by done. split; [done|]. by intros [].
Qed.
Lemma sweeping_births c l c' sid : micros c l c' → Forall sweeping l → births sid l = born c c' sid.
Proof.
  intros Hm Hl. assert (births sid l = 0%nat ∧ (c.(cn_streams) !! sid = None → c'.(cn_streams) !! sid = None)) as [-> Hn].
  { induction Hm as [|l c1 a c2 _ IH Ha]; [done|]. apply Forall_app in Hl as [Hl [Ha' _]%Forall_cons]. destruct (IH Hl) as [IH1 IH2].
    rewrite births_snoc, IH1. destruct Ha as [c2 [= -> _ _]|e now c2 He Hn Ho [= -> _ _]|sid' e now c2 He Hn Ho [= -> _ _]|c2 H1 H2 H3|sid' st e s s' k ev c2 Hst He Hs Hr [= -> _ _]
      |sid' st w' c2 ev c3 Hst Hr Hsv [= -> _ _]]; try done; (split; [done|]); intros Hc%IH2.
    - by eapply lookup_weaken_None.
    - rewrite lookup_insert_ne; [done|]. congruence. }
  unfold born. by rewrite bool_decide_false by naive_solver.
Qed.
Lemma op_acts_births c op ds l c' sid : op_acts c op ds l → micros c l c' → births sid l = born c c' sid.
Proof.
  intros Ha Hm. assert (Forall sweeping l ∨ ADrop ∉ l) as [Hs|Hd]; [|by apply sweeping_births|by apply micros_births].
  assert (Forall (heard_in ds) l → ADrop ∉ l) as Hh.
  { intros Hf Hin. rewrite Forall_forall in Hf. by destruct (Hf _ Hin) as [?|(d & f & _ & _ & ?)]. }
  destruct op as [| | |sid' p|sid'|sid' code|sid' plen|sid' code|sid' t|msgs|buf| | | | |sid' seq|connID| | | |]; cbn [op_acts] in Ha; try (by right; apply Hh); try (by left).
  - right. destruct (cn_streams c !! sid') as [st|]; [|injection Ha as ->; set_solver].
    destruct (writes c sid' st p); [|done]. injection Ha as ->. set_solver.
  - right. rewrite Ha. destruct (cn_streams c !! sid'); set_solver.
Qed.

End acts.
