(* ===== verification/ConnLedger.v ===== *)
(** * What a connection notes for acknowledgement

    The numbers a connection will acknowledge outside any stream's state
    ([sReadIdsToAck]) and its tombstones ([deadStreams]): which operations
    change them, and what a number on such a list means. *)
From S2P Require Import Prelude Errors Frame Float64 Pacer Options Ring StreamRecv Retransmit RetransmitSpec RetransmitRefine.
From S2P Require Import StreamSend SendRule Estimator SendBatch BatchInv SendFifo Connection ConnLemmas Termination ConnBooks ConnInv ConnOps ConnRun ConnFlags ConnInput ConnActs.

Definition ledger (c : Connection) : gmap Z (list Z) * gmap Z Z := (c.(cn_sReadIdsToAck), c.(cn_deadStreams)).
(** [seq] is on the list of stream [sid] *)
Definition listed (c : Connection) (sid seq : Z) : Prop := ∃ l, c.(cn_sReadIdsToAck) !! sid = Some l ∧ seq ∈ l.
(** the lists grow by numbers in [P] *)
Definition notes (P : Z → Z → Prop) (c c' : Connection) : Prop :=
  c'.(cn_deadStreams) = c.(cn_deadStreams) ∧ ∀ sid seq, listed c' sid seq → listed c sid seq ∨ P sid seq.
#[export] Instance notes_preorder P : PreOrder (notes P).
Proof.
  split; [intros c; split; [done|by left]|]. intros c1 c2 c3 [D1 H1] [D2 H2]. split; [congruence|].
  intros sid seq [H|?]%H2; [|by right]. by apply H1.
Qed.
Lemma notes_weaken (P Q : Z → Z → Prop) c c' : (∀ sid seq, P sid seq → Q sid seq) → notes P c c' → notes Q c c'.
Proof. intros HPQ [D H]. split; [done|]. intros sid seq [?|?]%H; [by left|right; by apply HPQ]. Qed.
Lemma notes_ledger P c c' : ledger c' = ledger c → notes P c c'.
Proof. intros [= H1 H2]. split; [done|]. unfold listed. rewrite H1. by left. Qed.

Section ledger.
Context (E : cenv).
#[local] Abbreviation cf := (tx_cfg (ce_tx E)).
Implicit Types (c : Connection).

Lemma sends_ledger c c' : sends c c' → ledger c' = ledger c.
Proof. unfold sends. intros ->. done. Qed.
Lemma tx_ledger m c : ledger (tx_do' m c) = ledger c.
Proof. apply sends_ledger, tx_do_sends. Qed.
Lemma on_read_ledger {A} c sid st (op : renv → rside → option (rside * A)) c' a :
  on_read E c sid st op = Some (c', a) → ledger c' = ledger c.
Proof. intros (s & _ & H%sends_ledger)%on_read_eq. exact H. Qed.

(** ** Frames *)

(** a stream the connection no longer has, or never opened *)
Definition stranger c (sid : Z) : Prop := c.(cn_streams) !! sid = None ∧ (c.(cn_deadStreams) !! sid ≠ None ∨ own E sid = true).
(** what a frame adds to the lists *)
Definition noted_of c (f : frame) (sid seq : Z) : Prop :=
  sid = f.(f_streamID) ∧ seq = f.(f_seq) ∧ (f.(f_ftype) = frameStreamReset ∨ stranger c sid).

Lemma listed_queueAck c sid seq sid' seq' : listed (queueAck c sid seq) sid' seq' → listed c sid' seq' ∨ sid' = sid ∧ seq' = seq.
Proof.
  intros (l & Hl & Hin). cbn in Hl. apply lookup_insert_Some in Hl as [[-> <-]|[_ Hl]]; [|left; by exists l].
  apply elem_of_app in Hin as [Hin|Hin%list_elem_of_singleton]; [|by right]. left.
  destruct (cn_sReadIdsToAck c !! sid') as [l|] eqn:Hl; [by exists l|by apply elem_of_nil in Hin].
Qed.

Lemma streamForFrame_ledger c sid c' r : streamForFrame E c sid = (c', r) → ledger c' = ledger c ∧ (r = inr true → stranger c sid).
Proof.
  unfold streamForFrame. destruct (cn_closed c); [by intros [= <- <-]|]. destruct (cn_streams c !! sid) as [s|] eqn:Hs; [by intros [= <- <-]|].
  destruct (bool_decide_reflect (cn_deadStreams c !! sid ≠ None)); [intros [= <- <-]; split; [done|by split; [|left]]|].
  fold (own E sid). destruct (own E sid) eqn:Hown; [intros [= <- <-]; split; [done|by split; [|right]]|]. cbn [negb orb].
  destruct (cn_nil c); [by intros [= <- <-]|]. case_test; [intros [= <- <-]; split; [|done]; by rewrite !tx_ledger|].
  unfold insert_stream, conn_time. cbn [fst snd]. case_test; by intros [= <- <-].
Qed.
Lemma handleArrival_notes c f g payload isFin c' : f.(f_streamID) = g.(f_streamID) → f.(f_seq) = g.(f_seq) →
  handleArrival E c f payload isFin = Some c' → notes (noted_of c g) c c'.
Proof.
  intros Hsid Hseq. unfold handleArrival. destruct (streamForFrame E c (f_streamID f)) as [c1 [s|d]] eqn:Hsf; apply streamForFrame_ledger in Hsf as [Hl Hd].
  - destruct (on_read E c1 _ s _) as [[c2 a]|] eqn:Ho; [|done]. cbn [mbind option_bind]. intros [= <-]. apply notes_ledger. by rewrite <- Hl, <- (on_read_ledger _ _ _ _ _ _ Ho).
  - intros [= <-]. injection Hl as Hl1 Hl2. destruct d; [|apply notes_ledger; unfold ledger; congruence]. split; [done|].
    intros sid seq [(l & Hl & Hin)|[-> ->]]%listed_queueAck; [left; exists l; by rewrite <- Hl1|right]. split_and!; [done|done|right]. by apply Hd.
Qed.

Lemma nackRequests_ledger c sid m seqs : ledger (nackRequests E c sid m seqs).1 = ledger c.
Proof.
  revert c. induction seqs as [|seq seqs IH]; intros c; [done|]. cbn [nackRequests]. unfold conn_time. cbn [fst snd].
  destruct (requestForResend _ _ _ _ _) as [q r]. match goal with |- context [nackRequests E ?c1 sid m seqs] => specialize (IH c1) end.
  destruct (nackRequests E _ sid m seqs) as [c2 rs]. done.
Qed.
Lemma handleACK_ledger c f c' : handleACK E c f = Some c' → ledger c' = ledger c.
Proof.
  unfold handleACK, on_write, conn_time. destruct (decodeSeqListFrame f []) as [[cum seqs]|]; [|by intros [= <-]]. cbn.
  destruct (ackCumulative _ _ _ _) as [[q1 f1] s1]. destruct (ackMany _ _ _ _) as [[q2 f2] s2].
  set (sample := if _ || _ then _ else _). clearbody sample. repeat case_test; cbn; try (by intros [= <-]);
    destruct (cn_streams c !! _); by intros [= <-].
Qed.
Lemma handleFec_ledger c f row c' : handleFec E c f row = Some c' → ledger c' = ledger c.
Proof.
  unfold handleFec. destruct (_ || _); [by intros [= <-]|]. destruct (_ || _); [by intros [= <-]|].
  destruct (cn_streams c !! _) as [s|]; [|by intros [= <-]]. destruct (on_read E c _ s _) as [[c2 r]|] eqn:Hr; [|done].
  cbn [mbind option_bind]. apply on_read_ledger in Hr. intros [= <-]. by destruct r.
Qed.
Lemma handleStopSending_ledger c f c' : env_ok E → conn_ok E c → handleStopSending E c f = Some c' → ledger c' = ledger c.
Proof.
  intros HE Hok. unfold handleStopSending, on_write. destruct (cn_streams c !! _) as [s|] eqn:Hs; [|by intros [= <-]].
  pose proof (proj1 (abort_serves E HE (f_streamID f) c (st_write s) (f_seq f) (ti_lanes _ _ (ck_table _ _ Hok) _ _ Hs))) as Ha.
  unfold onStopSending. destruct (@abortWriteLocked _ (conn_path E) _ _ _ _ _) as [w1 c1]. cbn in *.
  intros [= <-]. exact (sends_ledger _ _ Ha).
Qed.

Lemma dispatch_notes c f c' : env_ok E → conn_ok E c → dispatchFrameLocked E c f = Some c' → notes (noted_of c f) c c'.
Proof.
  intros HE Hok. unfold dispatchFrameLocked. set (c0 := c <| cn_missedPongs := 0 |>).
  assert (conn_ok E c0) as Hok0 by (unfold c0; ok_same Hok). intros Hd. change (notes (noted_of c0 f) c0 c'). revert Hd. clearbody c0. clear c Hok.
  assert (∀ c1, ledger c1 = ledger c0 → Some c1 = Some c' → notes (noted_of c0 f) c0 c') as Hq by (intros c1 H1 [= <-]; by apply notes_ledger).
  assert (Some c0 = Some c' → notes (noted_of c0 f) c0 c') as Hsame by (by apply Hq).
  destruct (bool_decide _); [destruct (cf.(fecGroup) >? 0); [case_test; [done|]|]; by apply handleArrival_notes|].
  destruct (bool_decide _); [intros H%handleFec_ledger; by apply notes_ledger|].
  destruct (bool_decide _); [destruct (fec2D cf); [intros H%handleFec_ledger; by apply notes_ledger|done]|].
  destruct (bool_decide _); [by apply handleArrival_notes|].
  destruct (bool_decide_reflect (f_ftype f = frameStreamReset)) as [Hft|].
  { unfold handleStreamReset. set (c1 := queueAck c0 _ _). assert (notes (noted_of c0 f) c0 c1) as H1.
    { split; [done|]. intros sid seq [?|[-> ->]]%listed_queueAck; [by left|right; split_and!; [done|done|by left]]. }
    destruct (cn_streams c1 !! _) as [st|] eqn:Hs; [|by intros [= <-]].
    destruct (on_read E c1 _ st _) as [[c2 a]|] eqn:Ho; [|done]. cbn [mbind option_bind]. intros [= <-]. etrans; [exact H1|]. apply notes_ledger. by eapply on_read_ledger. }
  destruct (bool_decide _); [intros H%handleStopSending_ledger; [by apply notes_ledger|done|done]|].
  destruct (bool_decide _).
  { unfold handleWindowUpdate, on_write. destruct (decodeWindowUpdatePayload _); [|done]. destruct (cn_streams c0 !! _); [|done]. by apply Hq. }
  destruct (bool_decide _); [apply Hq, tx_ledger|].
  destruct (bool_decide _); [apply Hq; unfold handlePong; by case_test|].
  destruct (bool_decide _); [by apply Hq|].
  destruct (bool_decide _); [intros H%handleACK_ledger; by apply notes_ledger|].
  destruct (bool_decide _).
  { apply Hq. unfold handleNack. destruct (decodeSeqListFrame f []) as [[cum seqs]|]; [|done].
    match goal with |- context [nackRequests E ?c ?s ?m ?l] =>
      pose proof (nackRequests_ledger c s m l) as H1; destruct (nackRequests E c s m l) as [c1 rs] end.
    unfold enqueueResends. by case_test. }
  destruct (bool_decide _); [|done]. apply Hq. unfold handleHandshake. destruct (cn_closed c0); [done|]. destruct (ce_isClient E); [done|]. apply tx_ledger.
Qed.

(** a stream is not made and dropped by input *)
Lemma does_keeps ds c c' sid : does E (heard_in E ds) c c' → c.(cn_streams) !! sid ≠ None → c'.(cn_streams) !! sid ≠ None.
Proof.
  intros (l & Hm & Hl). apply (micros_births E c l c' sid Hm). intros Hin. rewrite Forall_forall in Hl.
  by destruct (Hl _ Hin) as [?|(d & f & _ & _ & ?)].
Qed.

(** what datagrams add to the lists: RESETs, and frames of strangers *)
Definition noted_in c (ds : list (list Z)) (sid seq : Z) : Prop :=
  is_u32 sid ∧ is_u32 seq ∧ ((∃ d f, d ∈ ds ∧ decodeFrame d = Ok f ∧ f.(f_ftype) = frameStreamReset ∧ sid = f.(f_streamID)) ∨ stranger c sid).
Lemma dispatch_all_notes c ds c' : env_ok E → conn_ok E c → Forall is_datagram ds → dispatch_all E c ds = Some c' → notes (noted_in c ds) c c'.
Proof.
  intros HE Hok Hds. revert c Hok. induction Hds as [|d ds Hd _ IH]; intros c Hok; cbn [dispatch_all]; [by intros [= <-]|].
  destruct (datagram_decodes d [] Hd) as (f & _ & Hdec & Hf & _). rewrite Hdec.
  destruct (dispatchFrameLocked E c f) as [c1|] eqn:H1; [|done]. cbn [mbind option_bind]. intros H2. trans c1.
  - eapply notes_weaken; [|by apply dispatch_notes]. intros sid seq (-> & -> & Hn). split_and!; [apply Hf|apply Hf|].
    destruct Hn as [Hr|?]; [left|by right]. exists d, f. split_and!; [by left|done..].
  - eapply notes_weaken; [|eapply IH; [by eapply dispatch_ok|exact H2]]. intros sid seq (Hu & Hv & Hn). split_and!; [done|done|].
    destruct Hn as [(d' & f' & Hin & Hn)|[Hno Hn]]; [left; exists d', f'; split; [by right|done]|right].
    pose proof (dispatch_notes c f c1 HE Hok H1) as [Hdead _]. rewrite Hdead in Hn. split; [|done].
    assert (does E (heard_in E [d]) c c1) as Hdo. { apply (dispatch_all_acts E c [d] c1); [done|done|by apply Forall_singleton|]. cbn. by rewrite Hdec, H1. }
    destruct (cn_streams c !! sid) eqn:Hx; [|done]. by destruct (does_keeps [d] c c1 sid Hdo ltac:(by rewrite Hx)).
Qed.

(** ** Flushing *)
Lemma ackDirtyStep_ledger m c q sid c' q' : ackDirtyStep E m (Some (c, q)) sid = Some (c', q') → ledger c' = ledger c.
Proof.
  unfold ackDirtyStep. cbn [mbind option_bind]. destruct (cn_streams c !! sid) as [s|]; cbn [mbind option_bind]; [|by intros [= <- <-]].
  destruct (on_read E c sid s _) as [[c1 [[cum seqs] granted]]|] eqn:Hr; [|done]. cbn [mbind option_bind].
  destruct (ackSnapLoop _ _ _ _ _ _ _) as [c2|] eqn:Hl; [|done]. cbn [mbind option_bind]. intros [= <- <-].
  apply on_read_ledger in Hr. apply ackSnapLoop_sends, sends_ledger in Hl. rewrite <- Hr, <- Hl. apply (tx_ledger _ c2).
Qed.
Lemma ackListStep_notes m c q sid c' q' : ackListStep E m (Some (c, q)) sid = Some (c', q') → notes (λ _ _, False) c c'.
Proof.
  unfold ackListStep. cbn [mbind option_bind]. case_test; [by intros [= <- <-]|].
  destruct (ackListLoop _ _ _ _ _ _) as [c2|] eqn:Hl; [|done]. cbn [mbind option_bind]. intros [= <- <-].
  apply ackListLoop_sends, sends_ledger in Hl. etrans; [by apply notes_ledger, Hl|]. split; [done|]. intros sid' seq (l & Hl' & Hin). left. cbn in Hl'.
  apply lookup_insert_Some in Hl' as [[-> <-]|[_ Hl']]; [by apply elem_of_nil in Hin|by exists l].
Qed.
Lemma foldl_notes (g : option (Connection * bool) → Z → option (Connection * bool)) l c q c' q' :
  (∀ id, g None id = None) → (∀ c q id c' q', g (Some (c, q)) id = Some (c', q') → notes (λ _ _, False) c c') →
  foldl g (Some (c, q)) l = Some (c', q') → notes (λ _ _, False) c c'.
Proof. intros Hn Hg H. eapply (foldl_ok (notes (λ _ _, False) c)); [exact Hn| |reflexivity|exact H]. intros c1 q1 id c2 q2 H1 H2. etrans; [exact H1|by eapply Hg]. Qed.
Lemma flush_notes c c' : flushPendingAcksLocked E c = Some c' → notes (λ _ _, False) c c'.
Proof.
  unfold flushPendingAcksLocked. case_test; [by intros [= <-]|].
  destruct (foldl (ackDirtyStep _ _) _ _) as [[c1 q1]|] eqn:H1; [|done]. cbn [mbind option_bind].
  apply foldl_notes in H1; [|done|intros * ?%ackDirtyStep_ledger; by apply notes_ledger].
  destruct (foldl (ackListStep _ _) _ _) as [[c2 q2]|] eqn:H2; [|done]. cbn [mbind option_bind].
  apply foldl_notes in H2; [|done|intros *; apply ackListStep_notes]. intros [= <-]. etrans; [exact H1|]. etrans; [exact H2|].
  apply notes_ledger. destruct q2; [apply tx_ledger|done].
Qed.

(** ** The worker and the tickers *)
Lemma queueCopies_ledger n c e data q : ledger (queueCopies E n c e data q).1 = ledger c.
Proof.
  revert c q. induction n as [|n IH]; intros c q; [done|]. cbn [queueCopies]. set (m := queueResendCopy _ _ _ _ _).
  pose proof (tx_ledger m c) as Ht. unfold tx_do' in Ht. destruct (tx_do m c) as [c1 [e1|]]; cbn [fst] in *; [done|]. by rewrite IH.
Qed.
Lemma resendOne_ledger c req q : ledger (resendOne E c req q).1 = ledger c.
Proof.
  unfold resendOne, conn_time. destruct (peekForResend _ _); [|done]. cbn [fst snd]. destruct (takeForResend _ _ _) as [q1 [e|]]; [|done].
  destruct (e_data e) as [d|]; cbn [fst snd];
    match goal with |- context [queueCopies E ?n ?c ?e ?b ?q] => pose proof (queueCopies_ledger n c e b q) as Hq; destruct (queueCopies E n c e b q) end;
    exact Hq.
Qed.
Lemma serviceLoop_ledger fuel c q c' q' : serviceLoop E fuel c q = Some (c', q') → ledger c' = ledger c.
Proof.
  revert c q. induction fuel as [|fuel IH]; intros c q; [done|]. cbn [serviceLoop].
  assert (ledger (popResend c).1 = ledger c) as Hp by (unfold popResend; destruct (_ !! _); [|done]; cbn; by destruct (_ && _)).
  destruct (popResend c) as [c1 [req|]]; cbn [fst] in Hp; [|by intros [= <- <-]].
  pose proof (resendOne_ledger c1 req q) as Hr. destruct (resendOne E c1 req q) as [c2 q2]. cbn [fst] in Hr. intros H%IH. congruence.
Qed.
Lemma serviceResends_ledger c c' q : serviceResends E c = Some (c', q) → ledger c' = ledger c.
Proof.
  unfold serviceResends. destruct (serviceLoop _ _ _ _) as [[c1 q1]|] eqn:H1; [|done]. cbn [mbind option_bind].
  apply serviceLoop_ledger in H1. intros [= <- <-]. rewrite <- H1. destruct q1; [apply tx_ledger|done].
Qed.
Lemma SendPing_ledger c sid seq : ledger (SendPing E c sid seq).1 = ledger c.
Proof.
  unfold SendPing, conn_time. cbn [fst snd]. set (c1 := c <| cn_tick := _ |> <| cn_sendPingMs := _ |>). change (ledger c) with (ledger c1).
  clearbody c1. set (m := sendControlFrame _ _ _ _). pose proof (tx_ledger m c1) as Ht. unfold tx_do' in Ht.
  by destruct (tx_do m c1) as [c2 [e|]].
Qed.

(** a tick buries the streams it drops *)
Definition buries c c' : Prop :=
  (∀ sid seq, listed c' sid seq → listed c sid seq) ∧
  ∀ sid, c'.(cn_deadStreams) !! sid ≠ None → c.(cn_deadStreams) !! sid ≠ None ∨ c.(cn_streams) !! sid ≠ None.
Lemma gcStreams_buries c : buries c (gcStreams E c).
Proof.
  unfold gcStreams. set (ids := collectable E c). assert (∀ sid, sid ∈ ids → cn_streams c !! sid ≠ None) as Hids.
  { intros sid [H _]%list_elem_of_filter. by destruct (cn_streams c !! sid). }
  assert (∀ ids, (∀ sid, sid ∈ ids → cn_streams c !! sid ≠ None) → buries c (foldl (removeStream E) c ids)) as Hall.
  { clear. intros ids. enough (∀ c0, (∀ sid, sid ∈ ids → cn_streams c !! sid ≠ None) → buries c c0 → buries c (foldl (removeStream E) c0 ids)) as H.
    { intros Hi. apply H; [done|]. split; [done|by left]. }
    induction ids as [|sid ids IH]; intros c0 Hs [B1 B2]; [done|]. cbn [foldl]. apply IH; [set_solver|]. split.
    - intros sid' seq (l & Hl & Hin). cbn in Hl. apply lookup_delete_Some in Hl as [_ Hl]. apply B1. by exists l.
    - intros sid'. cbn. destruct (decide (sid = sid')) as [<-|Hne]; [right; apply Hs; by left|]. rewrite lookup_insert_ne by done. apply B2. }
  destruct (Hall ids Hids) as [B1 B2]. split; [exact B1|]. intros sid Hd. apply B2. cbn in Hd. intros Hx. apply Hd. rewrite map_lookup_filter, Hx. done.
Qed.
Lemma tailNackScan_ledger c c' : tailNackScan E c = Some c' → ledger c' = ledger c ∧ ∀ sid, c'.(cn_streams) !! sid ≠ None → c.(cn_streams) !! sid ≠ None.
Proof.
  unfold tailNackScan, conn_time. cbn [fst snd]. set (c0 := c <| cn_tick := _ |>). change (ledger c) with (ledger c0).
  change (cn_streams c) with (cn_streams c0). clearbody c0.
  generalize (ce_range_ids E (dom (cn_streams c0))). intros ids. set (now := ce_clock E _). clearbody now.
  revert c0. induction ids as [|id ids IH]; intros c0; [by intros [= <-]|]. cbn [foldl].
  unfold tailNackStep at 2. cbn [mbind option_bind]. destruct (cn_streams c0 !! id) as [st|] eqn:Hst; [|apply IH].
  destruct (on_read E c0 id st _) as [[c1 a]|] eqn:Ho; cbn [mbind option_bind].
  - intros [H1 H2]%IH. split; [rewrite H1; by eapply on_read_ledger|]. intros sid Hs%H2.
    apply on_read_eq in Ho as (s & _ & (Hst1 & _)%sends_fields). rewrite Hst1 in Hs. cbn in Hs.
    destruct (decide (id = sid)) as [<-|Hne]; [by rewrite Hst|by rewrite lookup_insert_ne in Hs].
  - intros Hx. exfalso. clear -Hx. induction ids; [done|]. auto.
Qed.
Lemma retransmitTick_buries c c' : retransmitTick E c = Some c' → buries c c'.
Proof.
  unfold retransmitTick, conn_time. cbn [fst snd]. destruct (due _ _ _) as [[q rs]|]; [|done]. cbn [mbind option_bind].
  set (c0 := enqueueResends _ _). assert (ledger c0 = ledger c ∧ cn_streams c0 = cn_streams c) as [[= L1 L2] L3] by (unfold c0, enqueueResends; by case_test). clearbody c0.
  destruct (tailNackScan E c0) as [c1|] eqn:H1; [|done]. cbn [mbind option_bind]. intros [= <-].
  apply tailNackScan_ledger in H1 as [[= H1 H2] H3]. destruct (gcStreams_buries c1) as [B1 B2]. split.
  - intros sid seq (l & Hl & Hin)%B1. exists l. split; [congruence|done].
  - intros sid [Hd|Hs%H3]%B2; [left; congruence|right; congruence].
Qed.

(** ** Every other operation leaves them alone *)
Lemma do_write_ledger c sid op c' :
  (∀ st w1 c1, c.(cn_streams) !! sid = Some st → op st.(st_write) c = Some (w1, c1) → sends c c1) →
  do_write c sid op = Some c' → ledger c' = ledger c.
Proof.
  intros Hop. unfold do_write, on_stream, on_write. destruct (cn_streams c !! sid) as [st|]; [|by intros [= <-]].
  destruct (op (st_write st) c) as [[w1 c1]|] eqn:H1; [|done]. cbn [mbind option_bind]. intros [= <-].
  apply (sends_ledger c c1). by eapply Hop.
Qed.
Lemma do_read_ledger c sid op c' : do_read E c sid op = Some c' → ledger c' = ledger c.
Proof.
  unfold do_read, on_stream. destruct (cn_streams c !! sid) as [st|]; [|by intros [= <-]].
  destruct (on_read E c sid st _) as [[c1 a]|] eqn:H1; [|done]. intros [= <-]. by eapply on_read_ledger.
Qed.
Lemma OpenStream_ledger c : ledger (OpenStream E c).1 = ledger c.
Proof. unfold OpenStream. destruct (cn_closed c); [done|]. destruct (_ || _); [done|]. by case_test. Qed.

Definition keeps_ledger (op : conn_op) : bool := match op with KReceive _ | KForward _ | KTick => false | _ => true end.
Lemma step_ledger c op c' : env_ok E → conn_ok E c → op_ok c op → keeps_ledger op = true → conn_step E c op = Some c' → ledger c' = ledger c.
Proof.
  intros HE Hc Hop Hk.
  assert (∀ sid st, cn_streams c !! sid = Some st → lanes_small cf st.(st_write)) as Hl by (intros sid st; apply (ti_lanes _ _ (ck_table _ _ Hc))).
  destruct op as [| | |sid p|sid|sid code|sid plen|sid code|sid t|msgs|buf| | | | |sid seq|connID| | | |]; cbn [conn_step op_ok] in *; try done.
  - intros [= <-]. apply OpenStream_ledger.
  - intros [= <-]. pose proof (OpenStream_ledger c) as H1. unfold OpenStreamSync. destruct (OpenStream E c) as [c1 [id|[]]]; cbn [fst] in *; try done.
    by destruct (cn_closed c1).
  - intros [= <-]. unfold AcceptStream. destruct (cn_closed c); [done|]. by destruct (cn_acceptCh c).
  - apply do_write_ledger. intros st w1 c1 Hst. specialize (Hop st Hst). unfold Write.
    destruct (writeLoop _ _ _ _ _ _ _) as [[[w2 c2] o]|] eqn:H1; [|done]. cbn [mbind option_bind]. intros [= <- <-].
    pose proof (write_inv_intro E HE sid st c Hst Hc) as Hi.
    eapply proj1, (writeLoop_serves E HE); [..|exact H1]; [by eapply Hl|by eapply seq_u32|done|lia].
  - apply do_write_ledger. intros st w1 c1 Hst. unfold stream_Close.
    pose proof (proj1 (CloseWrite_serves E HE sid c (st_write st) (Hl _ _ Hst))) as H2.
    destruct (@CloseWrite _ (conn_path E) sid (st_write st) c) as [[w' c2] e]. by intros [= <- <-].
  - apply do_write_ledger. intros st w1 c1 Hst. unfold CancelWrite.
    pose proof (proj1 (abort_serves E HE sid c (st_write st) code (Hl _ _ Hst))) as H2.
    destruct (@abortWriteLocked _ (conn_path E) sid (st_write st) c code true) as [w' c2]. by intros [= <- <-].
  - apply do_read_ledger.
  - apply do_read_ledger.
  - unfold on_stream. destruct (cn_streams c !! sid) as [st|]; by intros [= <-].
  - destruct (serviceResends E c) as [[c1 q]|] eqn:H1; [|done]. intros [= <-]. by eapply serviceResends_ledger.
  - by intros [= <-].
  - intros [= <-]. unfold keepAliveTick. case_test; [done|]. by rewrite SendPing_ledger.
  - intros [= <-]. apply SendPing_ledger.
  - intros [= <-]. apply tx_ledger.
  - intros [= <-]. apply tx_ledger.
  - by intros [= <-].
  - intros [= <-]. apply tx_ledger.
  - by intros [= <-].
Qed.

(** ** Input, up to the flush *)
Definition mid_of c (op : conn_op) : option Connection :=
  match op with KReceive msgs => readMessages E c msgs | KForward buf => handleDatagramLocked E c buf | _ => None end.
(** the datagrams are dispatched one by one, none if the connection is closed;
    then acknowledgements go out *)
Lemma step_input c op ds c1 : env_ok E → conn_ok E c → op_input op ds → Forall is_datagram ds → mid_of c op = Some c1 →
  ∃ ds0, ds0 ⊆ ds ∧ dispatch_all E c ds0 = Some c1 ∧ ∀ c', conn_step E c op = Some c' → c' = c1 ∨ flushPendingAcksLocked E c1 = Some c'.
Proof.
  intros HE Hok Hin Hds. destruct op as [| | | | | | | | |msgs|buf| | | | | | | | | |]; try done; cbn [mid_of conn_step op_input] in *.
  - destruct Hin as (groups & -> & ->). unfold readBatch. rewrite readMessages_groups by (done || by apply Forall_concat in Hds).
    pose proof (readMessages_singles E HE c (concat groups) [] Hok Hds) as Hm. rewrite app_nil_r in Hm. rewrite Hm. cbn [readMessages]. destruct (cn_closed c).
    + intros [= <-]. exists []. split_and!; [set_solver|done|]. intros c' [= <-]. by left.
    + destruct (dispatch_all E c _) as [c2|] eqn:H2; [|done]. cbn [mbind option_bind]. intros [= <-]. exists (concat groups). split_and!; [done|done|]. by right.
  - subst buf. unfold handleDatagramAndFlush, handleDatagramLocked. destruct (cn_closed c).
    + intros [= <-]. exists []. split_and!; [set_solver|done|]. intros c' [= <-]. by left.
    + rewrite parseLoop_datagrams by (done || lia). intros H. exists ds. rewrite H. split_and!; [done|done|]. by right.
Qed.
Lemma mid_total c op : op_ok c op → keeps_ledger op = false → op ≠ KTick → ∃ c1, mid_of c op = Some c1.
Proof. destruct op; try done; intros H _ _; [by apply readMessages_total|by apply handleDatagramLocked_total]. Qed.

(** a message of datagrams is heeded if they are *)
Lemma heeds_datagrams {Cl : claims} ds : Forall is_datagram ds → (∀ d f, d ∈ ds → decodeFrame d = Ok f → heeded (Cl := Cl) f) → heeds_all (Cl := Cl) (concat ds).
Proof.
  intros Hds Hh. unfold heeds_all. generalize (S (length (concat ds))) as fuel. intros fuel. revert fuel.
  induction Hds as [|d ds Hd _ IH]; intros fuel; (destruct fuel as [|fuel]; [done|]); cbn [heeds concat]; [done|].
  case_test; [|done]. destruct (datagram_decodes d (concat ds) Hd) as (f & H1 & H2 & _ & Hl & _). rewrite H1. split; [apply (Hh d); [by left|done]|].
  assert (slice (d ++ concat ds) (frameHeaderSize + f_length f) (Zlen (d ++ concat ds)) = concat ds) as ->.
  { rewrite <- Hl. unfold slice, Zlen. rewrite take_ge by (rewrite length_drop; lia). by rewrite Nat2Z.id, drop_app_length. }
  apply IH. intros d' f' Hd'. apply Hh. by right.
Qed.
End ledger.
