(* ===== verification/ConnSender.v ===== *)
(** * What the streams of a connection send

    The write-side theory ([SendRun], [StreamWriting]) speaks of one stream
    against an interface of its connection.  Here the connection is shown to
    keep that interface's laws, so that the theory holds of every stream of
    a whole connection: as long as a stream number has been used once, what
    the connection's history has of it is what one write side sent. *)
From S2P Require Import Prelude Errors Frame Float64 Pacer Options Ring StreamRecv Xor RecvLemmas RecvInv StreamDelivery Retransmit RetransmitSpec RetransmitRefine.
From S2P Require Import StreamSend SendRule SendLanes SendInv SendRun StreamWriting Estimator SendBatch BatchInv SendFifo Connection ConnLemmas Termination ConnBooks ConnInv ConnOps ConnRun ConnFlags ConnInput ConnActs.

(** the frames stream [sid] has handed over *)
Definition frames_of (sid : Z) (l : list (Z * sent)) : list sent :=
  omap (λ f, if bool_decide (f.1 = sid) then Some f.2 else None) l.
Definition stream_log (c : Connection) (sid : Z) : list sent := frames_of sid c.(cn_log).

Lemma frames_of_app sid l1 l2 : frames_of sid (l1 ++ l2) = frames_of sid l1 ++ frames_of sid l2.
Proof. apply omap_app. Qed.
Lemma frames_of_own sid l : frames_of sid (pair sid <$> l) = l.
Proof. induction l as [|x l IH]; [done|]. cbn. rewrite bool_decide_true by done. f_equal. exact IH. Qed.
Lemma frames_of_other sid sid' l : sid' ≠ sid → frames_of sid (pair sid' <$> l) = [].
Proof. intros Hne. induction l as [|x l IH]; [done|]. cbn. rewrite bool_decide_false by done. exact IH. Qed.
Lemma frames_of_elem sid x l : x ∈ frames_of sid l ↔ (sid, x) ∈ l.
Proof.
  unfold frames_of. rewrite list_elem_of_omap. split.
  - intros ([sid' y] & Hin & Hx). cbn in Hx. case_bool_decide; [|done]. naive_solver.
  - intros Hin. exists (sid, x). split; [done|]. cbn. by rewrite bool_decide_true.
Qed.
Lemma serves_log sid c c' : serves sid c c' →
  (∃ l, stream_log c' sid = stream_log c sid ++ l) ∧ ∀ sid', sid' ≠ sid → stream_log c' sid' = stream_log c sid'.
Proof.
  intros [_ [l Hl]]. unfold stream_log. split.
  - exists l. by rewrite Hl, frames_of_app, frames_of_own.
  - intros sid' Hne. rewrite Hl, frames_of_app, frames_of_other, app_nil_r by done. done.
Qed.

Section sender.
Context (E : cenv) (HE : env_ok E).
#[local] Abbreviation cf := (tx_cfg (ce_tx E)).
Implicit Types (c : Connection).

(** a connection keeps the laws of [SendPath] *)
#[export] Instance conn_laws : @SendPathLaws Connection (conn_path E).
Proof.
  refine (@Build_SendPathLaws Connection (conn_path E) stream_log _ _ _ _ _ _ _);
    intros; unfold stream_log.
  - etrans; [exact (f_equal (frames_of sid) (proj2 (data_serves E c sid seq p)))|]. rewrite frames_of_app. cbn. by rewrite bool_decide_true.
  - etrans; [exact (f_equal (frames_of sid) (proj2 (fec_serves E c ftype sid base count xorLen data)))|]. rewrite frames_of_app. cbn. by rewrite bool_decide_true.
  - etrans; [exact (f_equal (frames_of sid) (proj2 (reliable_serves E c ftype sid seq p)))|]. rewrite frames_of_app. cbn. by rewrite bool_decide_true.
  - exact (f_equal (frames_of sid) (tx_do_keeps_log (SendBatch.flushSend (ce_tx E)) c)).
  - done.
  - done.
  - done.
Defined.

(** an environment with this connection's configuration *)
Definition base_env : renv := renv_of E (newConnection E).

(** stream [sid] of [c], made [n] times, with [bytes] written to it *)
Record sender_at (n : nat) (bytes : list Z) c (sid : Z) : Prop := mkSenderAt {
  sa_never : n = 0%nat → stream_log c sid = [] ∧ c.(cn_streams) !! sid = None ∧ bytes = [];
  sa_once : n = 1%nat → ∃ w, send_inv base_env (maxBufSize cf) w (stream_log c sid) ∧
    (∀ st, c.(cn_streams) !! sid = Some st → st.(st_write) = w) ∧
    (Forall accepted (stream_log c sid) → concat (payloads (stream_log c sid)) = bytes);
  sa_u32 : n ≠ 0%nat → is_u32 sid;
  sa_own : own E sid = true → (n ≤ 1)%nat ∧ (c.(cn_nextStream) ≤ sid → n = 0%nat);
}.

(** the bytes an act writes to [sid] *)
Definition act_writes (sid : Z) (a : act) : list Z :=
  match a with AWrite sid' (WvWrite p o) => if bool_decide (sid' = sid) then slice p 0 (written o) else [] | _ => [] end.

Lemma base_cfg : config_wf (cfg base_env) ∧ maxPayload (cfg base_env) < 2 ^ 32.
Proof using HE. split; [apply (te_cfg _ (eo_tx _ HE))|apply (eo_payload _ HE)]. Qed.

#[local] Abbreviation inv := (send_inv base_env (maxBufSize cf)).
(** an act on a write side *)
Lemma write_rel_spec sid w c ev w' c1 : write_rel E sid w c ev w' c1 → inv w (stream_log c sid) →
  ∃ L', stream_log c1 sid = stream_log c sid ++ L' ∧ inv w' (stream_log c1 sid) ∧
    (Forall accepted L' → concat (payloads L') = act_writes sid (AWrite sid ev)).
Proof using HE.
  intros Hr Hi. destruct base_cfg as [Hcfg H32].
  pose (op := match ev with WvWrite p _ => OpWrite p | WvClose => OpClose | WvCancel code => OpCancel code | WvStop code => OpStopSending code
    | WvWindow offset => OpWindow offset | WvAcked n => OpAcked n | WvDeadline t => OpDeadline t end : send_op Connection).
  destruct (@send_step_spec Connection (conn_path E) conn_laws base_env Hcfg sid H32 (maxBufSize cf) (@stream_inFlightCap_le _ (conn_path E) base_env)
    (mkSender w c []) op Hi) as (sd & o & L' & H1 & H2 & H3 & H4); [by unfold op; destruct ev|].
  exists L'. assert (sd_w sd = w' ∧ sd_c sd = c1 ∧ taken o = act_writes sid (AWrite sid ev)) as (<- & <- & Ht); [|by rewrite <- Ht].
  unfold op in H1. clear -H1 Hr.
  destruct Hr as [p w' c' o' Hw|w' c' e Hw|code w' c' Hw|code w' c' Hw|offset|n|t]; cbn [send_step] in H1.
  - change (cfg base_env) with cf in H1. rewrite Hw in H1. cbn in H1. injection H1 as <- <-. split_and!; [done..|]. cbn. rewrite bool_decide_true by done. by rewrite Z.sub_0_r.
  - rewrite Hw in H1. by injection H1 as <- <-.
  - rewrite Hw in H1. by injection H1 as <- <-.
  - rewrite Hw in H1. by injection H1 as <- <-.
  - by injection H1 as <- <-.
  - by injection H1 as <- <-.
  - by injection H1 as <- <-.
Qed.

Lemma act_writes_other sid sid' ev : sid' ≠ sid → act_writes sid (AWrite sid' ev) = [].
Proof. intros Hne. destruct ev; [|done..]. cbn. by rewrite bool_decide_false. Qed.

(** what an act leaves of a stream it is not about *)
Lemma sender_same n bytes c c' sid : sender_at n bytes c sid → stream_log c' sid = stream_log c sid → c.(cn_nextStream) ≤ c'.(cn_nextStream) →
  (∀ st, c'.(cn_streams) !! sid = Some st → ∃ st0, c.(cn_streams) !! sid = Some st0 ∧ st.(st_write) = st0.(st_write)) → sender_at n bytes c' sid.
Proof.
  intros [A1 A2 AU A3] Hl Hn Hs. split.
  - intros Hz. destruct (A1 Hz) as (B1 & B2 & B3). rewrite Hl. split_and!; [done| |done].
    destruct (cn_streams c' !! sid) as [st|] eqn:Hst; [|done]. destruct (Hs st eq_refl) as (st0 & ? & _). congruence.
  - intros Ho. destruct (A2 Ho) as (w & B1 & B2 & B3). exists w. rewrite Hl. split_and!; [done| |done].
    intros st Hst. destruct (Hs st Hst) as (st0 & H1 & ->). by apply B2.
  - done.
  - intros Ho. destruct (A3 Ho) as [B1 B2]. split; [done|]. intros H. apply B2. lia.
Qed.

(** a stream made *)
Lemma sender_new n bytes c c' sid : sender_at n bytes c sid → stream_log c' sid = stream_log c sid →
  (∀ st, c'.(cn_streams) !! sid = Some st → st.(st_write) = newStream_write cf (streamBufSize cf)) → is_u32 sid →
  (own E sid = true → n = 0%nat ∧ sid < c'.(cn_nextStream)) → sender_at (n + 1) bytes c' sid.
Proof using HE.
  intros [A1 A2 AU A3] Hl Hst Hu Ho. destruct base_cfg as [Hcfg H32]. split; [lia| |done|].
  - intros Hn. destruct A1 as (B1 & _ & ->); [lia|]. exists (newStream_write cf (streamBufSize cf)). rewrite Hl, B1. split_and!; [|done|done].
    apply (newStream_send_inv base_env); [done|]. pose proof (dataCap_bounds base_env Hcfg). change (cfg base_env) with cf in *. unfold maxBufSize. case_bool_decide; lia.
  - intros H. destruct (Ho H) as [-> Hlt]. split; [done|]. lia.
Qed.

Lemma micro_sender c a c' sid n bytes : micro E c a c' → sender_at n bytes c sid → sender_at (n + (if creates sid a then 1 else 0)) (bytes ++ act_writes sid a) c' sid.
Proof using HE.
  intros Ha Hs.
  destruct Ha as [c' [= Hst Hlog Hn]|e now c' He Hnone Ho [= Hst Hlog Hn]|sid' e now c' He Hnone Ho [= Hst Hlog Hn]|c' Hst Hlog Hn
    |sid' st e s s' k ev c' Hsid He Hs' Hr [= Hst Hlog Hn]|sid' st w' c1 ev c' Hsid Hr Hsv [= Hst Hlog Hn]];
    cbn [creates act_writes]; rewrite ?app_nil_r, ?Nat.add_0_r.
  - apply (sender_same n bytes c); [done|unfold stream_log; congruence|lia|]. rewrite Hst. eauto.
  - case_bool_decide as Hx.
    + subst sid. apply (sender_new n bytes c); [done|unfold stream_log; congruence|..].
      * intros st. rewrite Hst, lookup_insert_eq. intros [= <-]. cbn. by rewrite He.
      * apply Ho.
      * intros _. split; [apply (sa_own _ _ _ _ Hs); [apply Ho|lia]|lia].
    + rewrite Nat.add_0_r. apply (sender_same n bytes c); [done|unfold stream_log; congruence|lia|]. rewrite Hst, lookup_insert_ne by done. eauto.
  - case_bool_decide as Hx.
    + subst sid'. apply (sender_new n bytes c); [done|unfold stream_log; congruence|..].
      * intros st. rewrite Hst, lookup_insert_eq. intros [= <-]. cbn. by rewrite He.
      * apply Ho.
      * destruct Ho. congruence.
    + rewrite Nat.add_0_r. apply (sender_same n bytes c); [done|unfold stream_log; congruence|lia|]. rewrite Hst, lookup_insert_ne by done. eauto.
  - apply (sender_same n bytes c); [done|unfold stream_log; congruence|lia|]. intros st H. exists st. split; [by eapply lookup_weaken|done].
  - apply (sender_same n bytes c); [done|unfold stream_log; congruence|lia|]. rewrite Hst. intros st' H. destruct (decide (sid' = sid)) as [->|Hne].
    + rewrite lookup_insert_eq in H. injection H as <-. by exists st.
    + rewrite lookup_insert_ne in H by done. eauto.
  - destruct (serves_log _ _ _ Hsv) as [_ Hother]. assert (∀ i, stream_log c' i = stream_log c1 i) as Hl by (intros i; unfold stream_log; congruence).
    destruct (decide (sid' = sid)) as [->|Hne].
    2:{ change (bytes ++ _) with (bytes ++ act_writes sid (AWrite sid' ev)). rewrite act_writes_other, app_nil_r by done.
        apply (sender_same n bytes c); [done|rewrite Hl; by apply Hother|lia|]. rewrite Hst, lookup_insert_ne by done. eauto. }
    change (bytes ++ _) with (bytes ++ act_writes sid (AWrite sid ev)). destruct Hs as [A1 A2 AU A3]. split.
    + intros Hz. destruct (A1 Hz) as (_ & ? & _). congruence.
    + intros H1. destruct (A2 H1) as (w & B1 & B2 & B3). rewrite <- (B2 st Hsid) in B1.
      destruct (write_rel_spec _ _ _ _ _ _ Hr B1) as (L' & C1 & C2 & C3). exists w'. rewrite Hl. split_and!; [done| |].
      * intros st'. rewrite Hst, lookup_insert_eq. by intros [= <-].
      * rewrite C1. intros [F1 F2]%Forall_app. rewrite payloads_app, concat_app, (B3 F1), (C3 F2). done.
    + done.
    + intros Ho. destruct (A3 Ho) as [B1 B2]. split; [done|]. intros H. apply B2. lia.
Qed.

Lemma micros_sender c l c' sid n bytes : micros E c l c' → sender_at n bytes c sid →
  sender_at (n + births sid l) (bytes ++ concat (act_writes sid <$> l)) c' sid.
Proof using HE.
  intros Hm. revert n bytes. induction Hm as [|l c1 a c2 _ IH Ha]; intros n bytes Hs.
  { cbn. by rewrite Nat.add_0_r, app_nil_r. }
  rewrite births_snoc, fmap_app, concat_app, Nat.add_assoc, app_assoc. cbn [fmap list_fmap concat]. rewrite app_nil_r.
  eapply micro_sender; [exact Ha|]. by apply IH.
Qed.

(** a new connection *)
Lemma new_sender sid : sender_at 0 [] (newConnection E) sid.
Proof. split; [done|done|done|]. intros _. split; [lia|done]. Qed.

(** the bytes an operation writes to [sid] *)
Definition writes_of c (op : conn_op) (sid : Z) : list Z :=
  match op with
  | KWrite sid' p => if bool_decide (sid' = sid) then
      match c.(cn_streams) !! sid with Some st => slice p 0 (default 0 (written <$> writes E c sid st p)) | None => [] end else []
  | _ => []
  end.
Lemma op_acts_writes c op ds l sid : op_acts E c op ds l → concat (act_writes sid <$> l) = writes_of c op sid.
Proof.
  assert (Forall (heard_in E ds) l ∨ Forall sweeping l → concat (act_writes sid <$> l) = []) as Hno.
  { intros Hl. assert (Forall (λ a, act_writes sid a = []) l) as Hl2.
    { destruct Hl as [Hl|Hl]; (eapply Forall_impl; [exact Hl|]); intros a; destruct a as [| | | | |sid' []]; try done.
      intros [?|(d & f & _ & _ & ?)]; done. }
    clear Hl. induction Hl2 as [|a l Ha _ IH]; [done|]. cbn. by rewrite Ha, IH. }
  destruct op as [| | |sid' p|sid'|sid' code|sid' plen|sid' code|sid' t|msgs|buf| | | | |sid' seq|connID| | | |]; cbn [op_acts writes_of];
    try (intros Ha; apply Hno; by left); try (intros Ha; apply Hno; by right).
  - destruct (cn_streams c !! sid') as [st|] eqn:Hst.
    + destruct (writes E c sid' st p) as [o|] eqn:Ho; [|done]. cbn [mbind option_bind]. intros [= ->]. cbn [fmap list_fmap concat act_writes]. rewrite app_nil_r.
      case_bool_decide as Hx; [|done]. subst sid'. by rewrite Hst, Ho.
    + intros [= ->]. cbn. case_bool_decide as Hx; [|done]. subst. by rewrite Hst.
  - intros ->. by destruct (cn_streams c !! sid').
Qed.
End sender.
