(* ===== verification/ConnReceiver.v ===== *)
(** * What the streams of a connection deliver

    The read-side theory ([RecvInv], [StreamDelivery]) speaks of one stream
    and the frames of one sender.  Here it is carried over to the streams of
    a whole connection: as long as a connection hears, of a stream, what its
    peer sent, what the application reads of that stream is a prefix of what
    the peer wrote, also when the stream is reset or cancelled halfway. *)
From S2P Require Import Prelude Errors Frame Float64 Pacer Options Ring StreamRecv Xor RecvLemmas RecvInv StreamDelivery Retransmit RetransmitSpec RetransmitRefine.
From S2P Require Import StreamSend SendRule SendLanes SendInv SendRun StreamWriting Estimator SendBatch BatchInv SendFifo Connection ConnLemmas Termination ConnBooks ConnInv ConnOps ConnRun ConnFlags ConnInput ConnActs ConnSender.

(** the read-side invariant depends on the configuration alone *)
Lemma recv_inv_cfg e e' chunks out s : cfg e = cfg e' → recv_inv e chunks out s → recv_inv e' chunks out s.
Proof.
  intros He [A B C D F H I J K L M O P Q R T U].
  assert (∀ stride base rs a, acc_ok e chunks stride base rs a → acc_ok e' chunks stride base rs a) as Hacc.
  { intros stride base rs a [A1 A2 A3 A4 A5 A6 A7 A8]. rewrite He in A3, A4, A5. by split. }
  assert (∀ stride base count xl data, parity_ok e chunks stride base count xl data → parity_ok e' chunks stride base count xl data) as Hpar.
  { intros stride base count xl data [A1 A2 A3 A4 A5 A6 A7 A8]. rewrite He in A2, A4. by split. }
  unfold pool_ok in *. rewrite He in F, H, J, P, Q. split; try done.
  - intros base a Ha. by apply Hacc, H.
  - intros base a Ha. by apply Hacc, I.
  - intros base p Hp. destruct (J base p Hp). split; [done|by apply Hpar].
  - intros base p Hp. destruct (K base p Hp). split; [done|by apply Hpar].
Qed.

Section receiver.
Context (E : cenv).
#[local] Abbreviation cf := (tx_cfg (ce_tx E)).
#[local] Abbreviation env := (base_env E).
(** what the peer has sent on the stream *)
Context (L : list sent) (HL : sender_ok env (payloads L)).
(** the peer does not refuse the stream *)
Context (unrefused : Prop).
Implicit Types (s : rside) (hist : list Z).

Definition has_fin : Prop := ∃ seq p, SentReliable frameStreamFIN seq p ∈ L.

(** a read direction that was reset or cancelled: nothing is left to read *)
Definition cut s : Prop :=
  s.(readErr) ≠ None ∧ s.(rg).(readLen) = 0 ∧ (unrefused → s.(readErr) = Some io_EOF → s.(readCanceled) = true).

(** a stream of which [hist] has been read *)
Definition reader_inv hist s : Prop :=
  (recv_inv env (payloads L) (quiet hist) s ∧ (s.(finRecvd) = true → has_fin)) ∨ (cut s ∧ hist `prefix_of` concat (payloads L)).

(** what a stream may be told: the peer's frames *)
Definition ev_ok (ev : read_ev) : Prop :=
  match ev with
  | RvDeliver seq p false => 0 ≤ seq < Zlen (payloads L) ∧ p = chunk (payloads L) seq
  | RvDeliver seq p true => seq = Zlen (payloads L) ∧ p = [] ∧ has_fin
  | RvFec row base count xl data => 0 < cf.(fecGroup) ∧ parity_ok env (payloads L) (stride_of env row) base count xl data
  | RvReset => unrefused → ¬ has_fin
  | RvRead plen _ => 0 ≤ plen
  | _ => True
  end.
Definition ev_bytes (ev : read_ev) : list Z := match ev with RvRead _ (ReadBytes p) => p | _ => [] end.

Lemma recv_inv_prefix hist s : recv_inv env (payloads L) (quiet hist) s → hist `prefix_of` concat (payloads L).
Proof using.
  intros Hi. pose proof (RecvInv.ri_data _ _ _ _ Hi) as Hd. cbn in Hd.
  exists (contents s.(rg) ++ concat (drop (Z.to_nat s.(readSeq)) (payloads L))).
  rewrite app_assoc, Hd. unfold first_chunks. by rewrite <- concat_app, take_drop.
Qed.
Lemma reader_prefix hist s : reader_inv hist s → hist `prefix_of` concat (payloads L).
Proof using. intros [[H _]|[_ H]]; [by eapply recv_inv_prefix|done]. Qed.

(** ** A stream that was cut stays so *)
Definition cut_view s := (s.(readErr), s.(rg).(readLen), s.(readCanceled)).
Lemma cut_same s s' : cut_view s' = cut_view s → cut s → cut s'.
Proof using. unfold cut_view, cut. by intros [= -> -> ->]. Qed.
Lemma cut_read e s ev s' : cut s → read_rel e s ev s' → cut s' ∧ ev_bytes ev = [] ∧
  (∀ plen, ev = RvRead plen (ReadErr io_EOF) → unrefused → s.(readCanceled) = true).
Proof using.
  intros Hc Hr. pose proof Hc as (He & Hl & Hcl).
  assert (cut s' → ev_bytes ev = [] → (∀ plen r, ev ≠ RvRead plen r) → cut s' ∧ ev_bytes ev = [] ∧ (∀ plen, ev = RvRead plen (ReadErr io_EOF) → unrefused → s.(readCanceled) = true)) as Hk.
  { intros H1 H2 H3. split_and!; [done..|]. intros plen Hx. by apply H3 in Hx. }
  destruct Hr as [seq p fin s' ack Hd|row base count xl data s' b Hd| |plen s' r Hd|code|now| |t]; try (apply Hk; [|done|done]).
  - unfold deliver, fec_fuel in Hd. cbn [deliverLocked] in Hd. unfold deliverStep, deliverBody in Hd.
    revert Hd. set (s0 := if _ || finRecvd s then _ else s).
    assert (cut_view s0 = cut_view s) as H0 by (unfold s0; by destruct (_ || finRecvd s)).
    assert (cut s0) as Hc0 by (by eapply cut_same). clearbody s0. destruct Hc0 as (He0 & _).
    rewrite (bool_decide_true (readErr s0 ≠ None)), orb_true_r by done. cbn [mbind option_bind].
    set (s1 := if bool_decide (0 < Zlen p) then _ else s0). assert (cut_view s1 = cut_view s0) as H1.
    { unfold s1, grantLocked. repeat case_test; done. }
    clearbody s1. set (s2 := if bool_decide (readSeq s1 ≤ seq) then _ else s1). assert (cut_view s2 = cut_view s1) as H2 by (unfold s2; by case_test).
    clearbody s2. intros [= <- _]. eapply (cut_same s); [|done]. trans (cut_view s2); [by destruct (_ && _)|congruence].
  - unfold applyFec in Hd. rewrite (bool_decide_true (readErr s ≠ None)), orb_true_r in Hd by done. by injection Hd as <- _.
  - unfold cut, deliverReset, discardReadStateLocked. rewrite bool_decide_false by done. cbn. done.
  - unfold tryRead in Hd. rewrite bool_decide_true in Hd by done. destruct (readErr s) as [e'|] eqn:He'; [|done]. injection Hd as <- <-.
    split_and!; [done|done|]. intros ? [= _ ->] Hu. by apply Hcl.
  - unfold CancelRead. destruct (readCanceled s); [done|]. unfold cut, discardReadStateLocked, call. cbn. case_test; done.
  - unfold maybeTailNack. by rewrite (bool_decide_true (readErr s ≠ None)).
  - done.
  - done.
Qed.

(** ** A stream that was not *)
#[local] Abbreviation live := (recv_inv env (payloads L)).

Lemma sender_ok_cfg e : cfg e = cf → sender_ok e (payloads L).
Proof using HL. intros He. destruct HL as [A1 A2 A3 A4]. change (cfg env) with cf in *. split; rewrite ?He; done. Qed.

(** the read side's own step, in the environment of this connection *)
Lemma live_step e s ev hist s' o : cfg e = cf → live (quiet hist) s → event_ok e (payloads L) ev → recv_step e (payloads L) s ev = Some (s', o) →
  live (quiet (hist ++ obs_bytes o)) s' ∧ obs_ok (payloads L) s s' hist o.
Proof using HL.
  intros He Hi Hev Hs. destruct (recv_step_spec e (payloads L) (sender_ok_cfg e He) hist s ev) as (s1 & o1 & H1 & H2 & H3); [by eapply recv_inv_cfg, Hi|done|].
  rewrite Hs in H1. injection H1 as <- <-. split; [|done]. by eapply recv_inv_cfg, H2.
Qed.
Lemma parity_ok_cfg e row base count xl data : cfg e = cf → parity_ok env (payloads L) (stride_of env row) base count xl data →
  parity_ok e (payloads L) (stride_of e row) base count xl data.
Proof using.
  intros He. unfold stride_of. change (cfg env) with cf. rewrite He. intros [A1 A2 A3 A4 A5 A6 A7 A8]. change (cfg env) with cf in *.
  split; rewrite ?He; done.
Qed.
(** resetting or cancelling cuts it *)
Lemma live_cut hist s s' : live (quiet hist) s → (s.(finRecvd) = true → has_fin) → s'.(rg).(readLen) = 0 →
  s'.(readErr) = Some (default ErrStreamReset s.(readErr)) → (unrefused → has_fin → s'.(readCanceled) = true) → reader_inv hist s'.
Proof using.
  intros Hi Hf Hl He Hc. right. split; [|by eapply recv_inv_prefix]. unfold cut. split_and!; [by rewrite He|done|]. intros Hu HE0.
  apply Hc; [done|]. apply Hf. pose proof (ri_err _ _ _ _ Hi) as Hr. rewrite He in HE0. destruct (readErr s); [by destruct Hr as (_ & ? & _)|done].
Qed.

Lemma reader_step e s ev s' hist : cfg e = cf → ev_ok ev → read_rel e s ev s' → reader_inv hist s →
  reader_inv (hist ++ ev_bytes ev) s' ∧
  (∀ plen, ev = RvRead plen (ReadErr io_EOF) → unrefused → s.(readCanceled) = false → hist = concat (payloads L)).
Proof using HL.
  intros He Hev Hr [[Hi Hf]|[Hc Hp]].
  2:{ destruct (cut_read e s ev s' Hc Hr) as (H1 & -> & H3). rewrite app_nil_r. split; [by right|].
      intros plen -> Hu Hn. specialize (H3 plen eq_refl Hu). congruence. }
  assert (∀ rev o, event_ok e (payloads L) rev → recv_step e (payloads L) s rev = Some (s', o) → obs_bytes o = ev_bytes ev →
    (s'.(finRecvd) = true → has_fin) → reader_inv (hist ++ ev_bytes ev) s' ∧ obs_ok (payloads L) s s' hist o) as Hgo.
  { intros rev o H1 H2 H3 H4. destruct (live_step e s rev hist s' o He Hi H1 H2) as [H5 H6]. rewrite <- H3. split; [by left|done]. }
  assert ((∀ plen r, ev ≠ RvRead plen r) → reader_inv (hist ++ ev_bytes ev) s' → reader_inv (hist ++ ev_bytes ev) s' ∧
    (∀ plen, ev = RvRead plen (ReadErr io_EOF) → unrefused → s.(readCanceled) = false → hist = concat (payloads L))) as Hk.
  { intros H1 H2. split; [done|]. intros plen Hx. by apply H1 in Hx. }
  destruct Hr as [seq p fin s' ack Hd|row base count xl data s' b Hd| |plen s' r Hd|code|now| |t]; try (apply Hk; [done|]); cbn [ev_bytes ev_ok] in *; rewrite ?app_nil_r in *.
  - destruct fin.
    + destruct Hev as (-> & -> & Hfin). eapply (Hgo EvFin); cbn [recv_step event_ok obs_bytes]; [done|by rewrite Hd|done|done].
    + destruct Hev as (Hs & ->). eapply (Hgo (EvData seq)); cbn [recv_step event_ok obs_bytes]; [done|by rewrite Hd|done|]. by rewrite (deliver_fin _ _ _ _ _ _ Hd).
  - destruct Hev as (Hg & Hpar). eapply (Hgo (EvParity row base count xl data)); cbn [recv_step event_ok obs_bytes]; [|by rewrite Hd|done|].
    + rewrite He. split; [done|by apply parity_ok_cfg].
    + destruct (applyFec_total e s row base count xl data) as (s1 & r1 & H1 & H2 & _). rewrite Hd in H1. injection H1 as <- <-. by rewrite H2.
  - eapply live_cut; [exact Hi|exact Hf|done| |].
    + unfold deliverReset. cbn. by destruct (readErr s) eqn:Hx; rewrite ?Hx.
    + intros Hu Hfin. by destruct (Hev Hu).
  - assert (finRecvd s' = finRecvd s) as Hfs.
    { pose proof (tryRead_spec e (so_cfg _ _ (sender_ok_cfg e He)) _ (so_count _ _ (sender_ok_cfg e He)) (so_chunks _ _ (sender_ok_cfg e He)) (so_payload _ _ (sender_ok_cfg e He)) hist s plen
        (recv_inv_cfg env e _ _ _ (eq_sym He) Hi) Hev) as Ht. rewrite Hd in Ht. by destruct Ht as (_ & ? & _). }
    destruct (Hgo (EvRead plen) (ObsRead r)) as [H1 H2]; cbn [recv_step event_ok obs_bytes]; [done|by rewrite Hd|by destruct r|by rewrite Hfs|]. split; [exact H1|].
    intros plen' [= _ ->] _ _. cbn in H2. by destruct H2 as [?|[_ ?]].
  - unfold CancelRead. rewrite (ri_canceled _ _ _ _ Hi). eapply live_cut; [exact Hi|exact Hf|done|..];
    unfold discardReadStateLocked, call; cbn; by destruct (readErr s) eqn:Hx; rewrite ?Hx.
  - eapply (Hgo (EvTailNack now)); cbn [recv_step event_ok obs_bytes]; [done|done|done|].
    assert (rview (maybeTailNack e s now) = rview s) as Hv by apply maybeTailNack_view. unfold rview in Hv. injection Hv as _ _ _ _ _ _ _ _ -> _ _ _ _ _ _ _ _. done.
  - eapply (Hgo EvAckFlush); cbn [recv_step event_ok obs_bytes]; done.
  - eapply (Hgo (EvSetDeadline t)); cbn [recv_step event_ok obs_bytes]; done.
Qed.

(** ** The streams of a connection *)
Implicit Types (c : Connection).

(** clocks and calls do not matter *)
Lemma reader_view hist s s' : s' = s <| tick := s'.(tick) |> <| calls := s'.(calls) |> → reader_inv hist s → reader_inv hist s'.
Proof using.
  intros ->. intros [[Hi Hf]|[Hc Hp]]; [left|right]; [|done]. split; [|done]. by eapply recv_inv_view, Hi.
Qed.

(** stream [sid] of [c], if there is one, with [hist] read of it *)
Definition reader_at c (sid : Z) hist : Prop :=
  match c.(cn_streams) !! sid with Some st => reader_inv hist st.(st_read) | None => hist = [] end.
Definition told_ok (sid : Z) (a : act) : Prop := ∀ ev, a = ARead sid ev → ev_ok ev.
Definition act_reads (sid : Z) (a : act) : list Z :=
  match a with ARead sid' ev => if bool_decide (sid' = sid) then ev_bytes ev else [] | _ => [] end.

Lemma reader_at_same c c' sid hist : c'.(cn_streams) !! sid = c.(cn_streams) !! sid → reader_at c sid hist → reader_at c' sid (hist ++ []).
Proof using. intros Hs. unfold reader_at. by rewrite Hs, app_nil_r. Qed.
Lemma reader_at_new c c' sid e now hist : c.(cn_streams) !! sid = None → c'.(cn_streams) !! sid = Some (newStream e cf.(streamBufSize) now) →
  cfg e = cf → reader_at c sid hist → reader_at c' sid (hist ++ []).
Proof using HL.
  intros Hn Hs He. unfold reader_at. rewrite Hn, Hs. intros ->. left. split; [|done]. cbn [app newStream st_read].
  destruct (sender_ok_cfg e He) as [A1 A2 A3 A4]. apply (recv_inv_cfg e); [done|]. apply newStream_read_inv; try done. by rewrite He.
Qed.

Lemma micro_reader c a c' sid hist : micro E c a c' → a ≠ ADrop → told_ok sid a → reader_at c sid hist → reader_at c' sid (hist ++ act_reads sid a).
Proof using HL.
  intros Ha Hd Ht Hr.
  destruct Ha as [c' [= Hst _ _]|e now c' He Hnone Ho [= Hst _ _]|sid' e now c' He Hnone Ho [= Hst _ _]|c' Hst _ _
    |sid' st e s s' k ev c' Hsid He Hs' Hrel [= Hst _ _]|sid' st w' c1 ev c' Hsid Hrel Hsv [= Hst _ _]]; cbn [act_reads]; try done.
  - by apply (reader_at_same c); [rewrite Hst|].
  - destruct (decide (cn_nextStream c = sid)) as [<-|Hne].
    + eapply (reader_at_new c); [done|by rewrite Hst, lookup_insert_eq|done|done].
    + apply (reader_at_same c); [by rewrite Hst, lookup_insert_ne|done].
  - destruct (decide (sid' = sid)) as [<-|Hne].
    + eapply (reader_at_new c); [done|by rewrite Hst, lookup_insert_eq|done|done].
    + apply (reader_at_same c); [by rewrite Hst, lookup_insert_ne|done].
  - case_bool_decide as Hx; [|apply (reader_at_same c); [by rewrite Hst, lookup_insert_ne|done]]. subst sid'.
    unfold reader_at in *. rewrite Hsid in Hr. rewrite Hst, lookup_insert_eq. cbn [st_read].
    apply (reader_view _ s'); [by destruct s'|]. eapply reader_step; [exact He|by apply Ht|exact Hrel|]. by eapply reader_view, Hr.
  - destruct (decide (sid' = sid)) as [<-|Hne]; [|apply (reader_at_same c); [by rewrite Hst, lookup_insert_ne|done]].
    unfold reader_at in *. rewrite Hsid in Hr. by rewrite Hst, lookup_insert_eq, app_nil_r.
Qed.
Lemma micros_reader c l c' sid hist : micros E c l c' → ADrop ∉ l → Forall (told_ok sid) l → reader_at c sid hist →
  reader_at c' sid (hist ++ concat (act_reads sid <$> l)).
Proof using HL.
  intros Hm. induction Hm as [|l c1 a c2 _ IH Ha]; intros Hd Ht Hr; [cbn; by rewrite app_nil_r|].
  apply Forall_app in Ht as [Ht1 [Ht2 _]%Forall_cons]. rewrite fmap_app, concat_app, app_assoc. cbn [fmap list_fmap concat]. rewrite app_nil_r.
  apply (micro_reader c1); [done|set_solver|done|]. apply IH; [set_solver|done|done].
Qed.
(** a sweep may drop the stream *)
Lemma sweep_reader c l c' sid hist : micros E c l c' → Forall sweeping l → reader_at c sid hist →
  reader_at c' sid (if bool_decide (c'.(cn_streams) !! sid = None) then [] else hist).
Proof using HL.
  intros Hm. revert hist. induction Hm as [|l c1 a c2 _ IH Ha]; intros hist Ht Hr.
  { unfold reader_at in *. case_bool_decide as Hx; [by rewrite Hx in *|done]. }
  apply Forall_app in Ht as [Ht1 [Ht2 _]%Forall_cons]. specialize (IH hist Ht1 Hr).
  assert (a = ADrop ∨ a ≠ ADrop) as [->|Hd] by (destruct a; by auto).
  - inversion Ha as [| | |? Hsub _ _| |]; subst. unfold reader_at in *.
    destruct (cn_streams c2 !! sid) as [st|] eqn:Hst; [|by rewrite bool_decide_true]. rewrite (bool_decide_false (Some st = None)) by done. rewrite (lookup_weaken _ _ _ _ Hst Hsub) in IH. by rewrite bool_decide_false in IH.
  - apply (micro_reader c1 a c2 sid) in IH; [|done|done|by intros ev ->; destruct ev].
    assert (act_reads sid a = []) as H0 by (destruct a as [| | | |sid' []|]; try done; try (by destruct Ht2); cbn; by destruct (bool_decide (sid' = sid))). rewrite H0, app_nil_r in IH.
    pose proof (micro_dom E c1 a c2 sid Ha Hd) as [[_ Hi]|[Hc _]]; [|by destruct a].
    rewrite (bool_decide_ext _ _ Hi). done.
Qed.
End receiver.
