(* ===== verification/WireFrames.v ===== *)
(** * From frames to datagrams and back

    Every send operation puts one frame into one datagram, and a receiver
    gets that frame back, field by field: the links between what a stream
    hands over at one end and what the dispatcher sees at the other. *)
From S2P Require Import Prelude Errors Frame Float64 Pacer Options Ring StreamRecv Xor RecvLemmas RecvInv StreamDelivery Retransmit RetransmitSpec RetransmitRefine.
From S2P Require Import StreamSend SendRule SendLanes SendInv SendRun StreamWriting Estimator SendBatch BatchInv SendFifo Connection ConnLemmas Termination ConnBooks ConnInv ConnOps ConnRun ConnFlags ConnInput ConnActs ConnSender ConnReceiver.

(** ** Fields *)
Lemma byte_u32 v k : 0 ≤ k ≤ 24 → u8 (Z.shiftr (u32 v) k) = u8 (Z.shiftr v k).
Proof.
  intros Hk. apply Z.bits_inj'. intros n Hn. unfold u8, u32. destruct (decide (n < 8)).
  - by rewrite !Z.mod_pow2_bits_low, !Z.shiftr_spec, Z.mod_pow2_bits_low by lia.
  - by rewrite !Z.mod_pow2_bits_high by lia.
Qed.
Lemma PutUint32_u32 v : PutUint32 (u32 v) = PutUint32 v.
Proof. unfold PutUint32. cbn [be_bytes]. by rewrite !byte_u32 by lia. Qed.
Lemma header_bytes_u32 ft sid sq len : header_bytes ft (u32 sid) (u32 sq) len = header_bytes ft sid sq len.
Proof. unfold header_bytes. by rewrite !PutUint32_u32. Qed.

Section wire.
Context (X : txenv).
#[local] Abbreviation cf := (tx_cfg X).

(** the zero prefix of a DATA frame with FEC on *)
Definition fec_pad (ft : Z) : list Z := replicate (Z.to_nat (frameHdrLen X ft - frameHeaderSize)) 0.

(** the type, stream, number and payload a send operation puts on the wire *)
Definition op_fields (op : tx_op) : option (Z * Z * Z * list Z) :=
  match op with
  | TxData sid seq p => Some (frameData, sid, seq, fec_pad frameData ++ p)
  | TxFec ft sid base count xl data => Some (ft, sid, base, PutUint32 (fec_meta count xl) ++ data)
  | TxReliable ft sid seq p | TxResend ft sid seq p => Some (ft, sid, seq, fec_pad ft ++ p)
  | TxWindow sid offset | TxWindowNow sid offset => Some (frameWindowUpdate, sid, 0, windowUpdatePayload offset)
  | TxControl ft sid seq => Some (ft, sid, seq, [])
  | TxAck sid cum seqs | TxAckNow sid cum seqs => Some (frameACK, sid, 0, seqlist_payload cum seqs)
  | TxNack sid seqs | TxNackNow sid seqs => Some (frameNack, sid, 0, seqlist_payload 0 seqs)
  | TxReset sid code => Some (frameStreamReset, sid, 0, resetPayload code)
  | TxHandshake connID => Some (frameHandshake, 0, 0, handshakePayload connID)
  | TxFlush => None
  end.

Lemma Zlen_fec_pad ft : Zlen (fec_pad ft) = frameHdrLen X ft - frameHeaderSize.
Proof. unfold fec_pad, frameHdrLen, frameHeaderSize, fecMetaLen. destruct (_ && _); by rewrite Zlen_replicate. Qed.
Lemma data_hdr_fields ft sid seq p : frameHdrLen X ft - frameHeaderSize + Zlen p < 2 ^ 32 →
  data_hdr X ft sid seq (Zlen p) ++ p = header_bytes ft sid seq (Zlen (fec_pad ft ++ p)) ++ fec_pad ft ++ p.
Proof.
  intros Hl. unfold data_hdr. rewrite <- app_assoc, Zlen_app, Zlen_fec_pad. rewrite u32_id; [done|]. pose proof (Zlen_nonneg p).
  unfold is_u32, frameHdrLen, frameHeaderSize, fecMetaLen in *. destruct (_ && _); lia.
Qed.

Lemma frame_of_fields op d : maxPayload cf < 2 ^ 32 → config_wf cf → op_fits X op → d ∈ frame_of X op →
  ∃ ft sid sq pl, op_fields op = Some (ft, sid, sq, pl) ∧ d = header_bytes ft sid sq (Zlen pl) ++ pl ∧ is_u32 (Zlen pl).
Proof.
  intros H32 Hcf Hfit Hd.
  assert (∀ ft sid sq pl, op_fields op = Some (ft, sid, sq, pl) → d = header_bytes ft sid sq (Zlen pl) ++ pl → Zlen pl < 2 ^ 32 →
    ∃ ft sid sq pl, op_fields op = Some (ft, sid, sq, pl) ∧ d = header_bytes ft sid sq (Zlen pl) ++ pl ∧ is_u32 (Zlen pl)) as Hgo.
  { intros ft sid sq pl H1 H2 H3. exists ft, sid, sq, pl. split_and!; [done|done|]. split; [apply Zlen_nonneg|done]. }
  assert (∀ ft sid sq p, frameHdrLen X ft + Zlen p ≤ maxDatagram cf → d ∈ [data_hdr X ft sid sq (Zlen p) ++ p] →
    d = header_bytes ft sid sq (Zlen (fec_pad ft ++ p)) ++ fec_pad ft ++ p ∧ Zlen (fec_pad ft ++ p) < 2 ^ 32) as Hdata.
  { intros ft sid sq p Hl Hin%list_elem_of_singleton. subst d. unfold maxDatagram in Hl. split; [apply data_hdr_fields; lia|].
    rewrite Zlen_app, Zlen_fec_pad. lia. }
  assert (frameHdrLen X frameData + dataCap cf = maxDatagram cf) as Hcap.
  { unfold frameHdrLen, dataCap, maxDatagram. rewrite bool_decide_true by done. destruct (fecGroup cf >? 0); cbn [andb]; lia. }
  destruct op as [sid sq p|ft sid base count xl data|ft sid sq p|sid offset|sid offset|ft sid sq|sid cum seqs|sid cum seqs|sid seqs|sid seqs|ft sid sq p|sid code|connID|];
    cbn [frame_of op_fits] in *.
  - destruct (Hdata frameData sid sq p ltac:(lia) Hd) as [H1 H2]. by eapply Hgo.
  - apply list_elem_of_singleton in Hd. unfold fecMetaLen in *. rewrite u32_id in Hd by (pose proof (Zlen_nonneg data); unfold is_u32; lia).
    eapply (Hgo ft sid base (PutUint32 (fec_meta count xl) ++ data)); [done| |]; rewrite Zlen_app, Zlen_PutUint32; [done|lia].
  - destruct (Hdata ft sid sq p ltac:(lia) Hd) as [H1 H2]. by eapply Hgo.
  - apply list_elem_of_singleton in Hd. by eapply Hgo.
  - apply list_elem_of_singleton in Hd. by eapply Hgo.
  - apply list_elem_of_singleton in Hd. eapply (Hgo ft sid sq []); [done|by rewrite app_nil_r|done].
  - apply list_elem_of_singleton in Hd. assert (Zlen (seqlist_payload cum seqs) = 8 + 4 * Zlen seqs) as Hz
      by (unfold seqlist_payload; rewrite !Zlen_app, !Zlen_PutUint32, Zlen_concat_seqs; lia). eapply Hgo; [done|by rewrite Hz|lia].
  - apply list_elem_of_singleton in Hd. assert (Zlen (seqlist_payload cum seqs) = 8 + 4 * Zlen seqs) as Hz
      by (unfold seqlist_payload; rewrite !Zlen_app, !Zlen_PutUint32, Zlen_concat_seqs; lia). eapply Hgo; [done|by rewrite Hz|lia].
  - apply list_elem_of_singleton in Hd. assert (Zlen (seqlist_payload 0 seqs) = 8 + 4 * Zlen seqs) as Hz
      by (unfold seqlist_payload; rewrite !Zlen_app, !Zlen_PutUint32, Zlen_concat_seqs; lia). eapply Hgo; [done|by rewrite Hz|lia].
  - apply list_elem_of_singleton in Hd. assert (Zlen (seqlist_payload 0 seqs) = 8 + 4 * Zlen seqs) as Hz
      by (unfold seqlist_payload; rewrite !Zlen_app, !Zlen_PutUint32, Zlen_concat_seqs; lia). eapply Hgo; [done|by rewrite Hz|lia].
  - destruct (Hdata ft sid sq p ltac:(lia) Hd) as [H1 H2]. by eapply Hgo.
  - apply list_elem_of_singleton in Hd. by eapply Hgo.
  - apply list_elem_of_singleton in Hd. by eapply Hgo.
  - by apply elem_of_nil in Hd.
Qed.
End wire.

(** the datagram of a send operation, as the peer decodes it *)
Lemma op_frame E op d : env_ok E → d ∈ frame_of E.(ce_tx) op → op_fits E.(ce_tx) op → Forall is_u8 d →
  is_datagram d ∧ ∃ ft sid sq pl, op_fields E.(ce_tx) op = Some (ft, sid, sq, pl) ∧ decodeFrame d = Ok (mkFrame ft (u32 sid) (u32 sq) (Zlen pl) pl).
Proof.
  intros HE Hd Hfit Hb.
  destruct (frame_of_fields E.(ce_tx) op d (eo_payload _ HE) (te_cfg _ (eo_tx _ HE)) Hfit Hd) as (ft & sid & sq & pl & H1 & H2 & H3).
  rewrite H2, <- header_bytes_u32. rewrite H2 in Hb. apply Forall_app in Hb as [Hh Hp]. apply Forall_cons in Hh as [Hft _]. split.
  - exists ft, (u32 sid), (u32 sq), pl. split_and!; try done; apply u32_range.
  - exists ft, sid, sq, pl. split; [done|]. rewrite <- (app_nil_r pl) at 2. apply decodeFrame_bytes; [apply u32_range..|done].
Qed.
Lemma wire_frame E log d : env_ok E → from_streams E log d → Forall is_u8 d →
  is_datagram d ∧ ∃ op ft sid sq pl, op_logged E log op ∧ op_fields E.(ce_tx) op = Some (ft, sid, sq, pl) ∧
    decodeFrame d = Ok (mkFrame ft (u32 sid) (u32 sq) (Zlen pl) pl).
Proof.
  intros HE (op & Hd & Hfit & Hlog) Hb. destruct (op_frame E op d HE Hd Hfit Hb) as [H1 (ft & sid & sq & pl & H2 & H3)].
  split; [done|]. by exists op, ft, sid, sq, pl.
Qed.

(** only an ACK is taken for one, and it says what was put into it *)
Lemma ack_frame E log op ft sid sq pl cum seqs : env_ok E → op_fits E.(ce_tx) op → op_logged E log op → op_fields E.(ce_tx) op = Some (ft, sid, sq, pl) → ft = frameACK →
  decodeSeqListFrame (mkFrame ft (u32 sid) (u32 sq) (Zlen pl) pl) [] = Ok (cum, seqs) →
  ∃ cum' seqs', (op = TxAck sid cum' seqs' ∨ op = TxAckNow sid cum' seqs') ∧ cum = u32 cum' ∧ seqs = u32 <$> seqs'.
Proof.
  intros HE Hfit Hl Hf Hft. pose proof (eo_payload _ HE) as H32.
  assert (∀ cum' seqs', Zlen seqs' < 2 ^ 32 → pl = seqlist_payload cum' seqs' → decodeSeqListFrame (mkFrame ft (u32 sid) (u32 sq) (Zlen pl) pl) [] = Ok (cum, seqs) →
    cum = u32 cum' ∧ seqs = u32 <$> seqs') as Hdec.
  { intros cum' seqs' Hn -> Hd. rewrite (decodeSeqListFrame_ok _ (u32 cum') (u32 <$> seqs') []) in Hd; [by injection Hd as <- <-|apply u32_range| | |].
    - apply Forall_fmap, Forall_forall. intros x _. apply u32_range.
    - unfold Zlen in *. rewrite length_fmap. unfold is_u32. lia.
    - cbn [f_payload]. rewrite app_nil_r. unfold seqlist_payload, Zlen. rewrite length_fmap, (PutUint32_u32 cum'). do 3 f_equal. rewrite <- list_fmap_compose.
      apply list_fmap_ext. intros i x _. symmetry. apply PutUint32_u32. }
  destruct op as [sid' sq' p|ft' sid' base count xl data|ft' sid' sq' p|sid' offset|sid' offset|ft' sid' sq'|sid' cum' seqs'|sid' cum' seqs'|sid' seqs'|sid' seqs'|ft' sid' sq' p|sid' code|connID|];
    cbn [op_logged op_fields op_fits] in *; try done; injection Hf as <- <- <- <-; try done.
  - by destruct Hl as [[->| ->] _].
  - by destruct Hl as [[->| ->] _].
  - intros Hd. exists cum', seqs'. split; [by left|]. apply Hdec; [lia|done|done].
  - intros Hd. exists cum', seqs'. split; [by right|]. apply Hdec; [lia|done|done].
  - destruct Hl as [[-> _]|[[->| ->] _]]; done.
Qed.

(** ** Where a frame comes from *)
Definition origin (Ea : cenv) (log : list (Z * sent)) (ft sid sq : Z) (pl : list Z) : Prop :=
  (ft = frameData ∧ ∃ p e, (sid, SentData sq p e) ∈ log ∧ pl = fec_pad Ea.(ce_tx) frameData ++ p) ∨
  (∃ p, (sid, SentReliable ft sq p) ∈ log ∧ pl = fec_pad Ea.(ce_tx) ft ++ p) ∨
  (∃ count xl data, (sid, SentFec ft sq count xl data) ∈ log ∧ pl = PutUint32 (fec_meta count xl) ++ data) ∨
  (ft = frameStreamReset ∧ is_u32 sid ∧ own Ea sid = false) ∨ control_type ft.
Lemma op_origin Ea log op ft sid sq pl : op_logged Ea log op → op_fields Ea.(ce_tx) op = Some (ft, sid, sq, pl) → origin Ea log ft sid sq pl.
Proof.
  assert (control_type frameWindowUpdate ∧ control_type frameACK ∧ control_type frameNack ∧ control_type frameHandshake) as (C1 & C2 & C3 & C4)
    by (unfold control_type; set_solver).
  intros Hl. destruct op as [sid' sq' p|ft' sid' base count xl data|ft' sid' sq' p|sid' offset|sid' offset|ft' sid' sq'|sid' cum seqs|sid' cum seqs|sid' seqs|sid' seqs|ft' sid' sq' p|sid' code|connID|];
    cbn [op_logged op_fields] in *; intros [= <- <- <- <-]; unfold origin; auto 10.
  - destruct Hl as [e He]. left. by eauto.
  - destruct Hl as [_ Hl]. right; right; left. by eauto.
  - destruct Hl as [_ Hl]. right; left. by eauto.
  - destruct Hl as [[-> [e He]]|[_ Hl]]; [left|right; left]; by eauto.
Qed.

Lemma control_not ft : control_type ft → ft ∉ [frameData; frameFEC; frameFECRow; frameStreamFIN; frameStreamReset].
Proof. unfold control_type. intros H1 H2. rewrite !elem_of_cons in H1, H2. set_unfold. destruct_or!; subst; done. Qed.

(** ** What a stream's peer hears *)

(** [L] is what one write side has sent: every DATA frame taken, and none
    numbered over *)
Definition stream_sent (E : cenv) (L : list sent) : Prop :=
  good L ∧ ∃ w, send_inv (base_env E) (maxBufSize (tx_cfg E.(ce_tx))) w L.

(** two ends that agree on what a frame looks like *)
Record compatible (Ea Eb : cenv) : Prop := mkCompatible {
  co_a : env_ok Ea;
  co_b : env_ok Eb;
  co_payload : maxPayload (tx_cfg Ea.(ce_tx)) = maxPayload (tx_cfg Eb.(ce_tx));
  co_fec : fecGroup (tx_cfg Ea.(ce_tx)) = fecGroup (tx_cfg Eb.(ce_tx));
  co_small : maxPayload (tx_cfg Ea.(ce_tx)) < 2 ^ 16;     (* parity frames have 16 bits for lengths *)
}.

Section link.
Context (Ea Eb : cenv) (Hco : compatible Ea Eb) (L : list sent) (HL : stream_sent Ea L).
#[local] Abbreviation cfa := (tx_cfg (ce_tx Ea)).
#[local] Abbreviation cfb := (tx_cfg (ce_tx Eb)).

Lemma sent_ok_a : sent_ok (base_env Ea) L (concat (payloads L)).
Proof using HL Hco.
  destruct HL as [Hg [w Hw]]. destruct (base_cfg Ea (co_a _ _ Hco)). by eapply send_inv_sent_ok.
Qed.
Lemma dataCap_eq : dataCap cfa = dataCap cfb.
Proof using Hco. unfold dataCap. by rewrite (co_payload _ _ Hco), (co_fec _ _ Hco). Qed.
Lemma sender_ok_b : sender_ok (base_env Eb) (payloads L).
Proof using HL Hco.
  destruct (sk_sender _ _ _ sent_ok_a) as [_ A2 A3 _]. destruct (base_cfg Eb (co_b _ _ Hco)) as [B1 B2]. split; try done.
  change (cfg (base_env Ea)) with cfa in A3. rewrite dataCap_eq in A3. exact A3.
Qed.
Lemma parity_ok_b row base count xl data : parity_ok (base_env Ea) (payloads L) (stride_of (base_env Ea) row) base count xl data →
  parity_ok (base_env Eb) (payloads L) (stride_of (base_env Eb) row) base count xl data.
Proof using Hco.
  unfold stride_of. change (cfg (base_env Ea)) with cfa. change (cfg (base_env Eb)) with cfb. rewrite (co_fec _ _ Hco).
  intros [A1 A2 A3 A4 A5 A6 A7 A8]. change (cfg (base_env Ea)) with cfa in *. rewrite (co_fec _ _ Hco) in *. by split.
Qed.

(** a reliable frame is the FIN or a RESET, not both *)
Lemma reliable_types ft sq p : SentReliable ft sq p ∈ L → ft = frameStreamFIN ∨ ft = frameStreamReset ∧ ¬ has_fin L.
Proof using HL.
  destruct HL as [_ [w [Hw _]]]. destruct (wi_end _ _ _ _ Hw) as [Hn|(L1 & ft1 & p1 & -> & Hn & Hft)]; rewrite Forall_forall in Hn; intros Hin.
  { by apply Hn in Hin. }
  assert (∀ ft' sq' p', SentReliable ft' sq' p' ∈ L1 ++ [SentReliable ft1 (u32 (Zlen (frames L1))) p1] → ft' = ft1) as Hone.
  { intros ft' sq' p' [Hx|Hx%list_elem_of_singleton]%elem_of_app; [by apply Hn in Hx|]. by injection Hx. }
  rewrite (Hone _ _ _ Hin). destruct Hft as [[-> _]|[-> _]]; [by left|right]. split; [done|]. intros (sq' & p' & Hf). by apply Hone in Hf.
Qed.

(** ** Parity metadata *)
Lemma fec_meta_fields count xl : 0 ≤ count < 2 ^ 16 → 0 ≤ xl < 2 ^ 16 →
  Z.shiftr (u32 (fec_meta count xl)) 16 = count ∧ Z.land (u32 (fec_meta count xl)) 65535 = xl.
Proof using.
  intros Hc Hx. assert (fec_meta count xl = Z.lor (Z.shiftl count 16) xl) as ->.
  { unfold fec_meta. rewrite (u32_id count), (u32_id xl) by (unfold is_u32; lia). rewrite u32_id; [done|].
    rewrite Z.shiftl_mul_pow2 by lia. unfold is_u32. lia. }
  assert (u32 (Z.lor (Z.shiftl count 16) xl) = Z.lor (Z.shiftl count 16) xl) as ->.
  { apply u32_id. assert (Z.lor (Z.shiftl count 16) xl = Z.lxor (Z.shiftl count 16) xl) as ->.
    - apply Z.bits_inj'. intros n Hn. rewrite Z.lor_spec, Z.lxor_spec. destruct (decide (n < 16)).
      + rewrite Z.shiftl_spec_low by lia. by destruct (Z.testbit xl n).
      + rewrite (Z.bits_above_log2 xl n); [by destruct (Z.testbit _ n)|lia|].
        destruct (decide (xl = 0)) as [->|]; [change (Z.log2 0) with 0; lia|]. assert (Z.log2 xl < 16); [apply Z.log2_lt_pow2; lia|lia].
    - rewrite Z.shiftl_mul_pow2 by lia. apply lxor_u32; unfold is_u32; lia. }
  split.
  - rewrite Z.shiftr_lor, Z.shiftr_shiftl_l by lia. rewrite Z.sub_diag, Z.shiftl_0_r, (Z.shiftr_div_pow2 xl) by lia. rewrite Z.div_small by lia. apply Z.lor_0_r.
  - change 65535 with (Z.ones 16). rewrite Z.land_lor_distr_l, !Z.land_ones by lia. rewrite Z.shiftl_mul_pow2, Z.mod_mul, (Z.mod_small xl) by lia. done.
Qed.

Section heard.
Context (log : list (Z * sent)) (Hu : ∀ sid x, (sid, x) ∈ log → is_u32 sid).
Context (sid : Z) (HsL : ∀ x, (sid, x) ∈ log → x ∈ L).

Lemma data_chunk sq p e : SentData sq p e ∈ L → 0 ≤ sq < Zlen (payloads L) ∧ p = chunk (payloads L) sq.
Proof using HL Hco.
  intros Hin. assert ((sq, p) ∈ frames L) as Hf. { unfold frames. apply list_elem_of_omap. by exists (SentData sq p e). }
  apply list_elem_of_lookup in Hf as [k Hk]. pose proof (sk_seqs _ _ _ sent_ok_a k _ Hk) as Hs. cbn in Hs. subst sq.
  pose proof (lookup_lt_Some _ _ _ Hk) as Hlt. rewrite Zlen_payloads. unfold Zlen. split; [lia|].
  unfold chunk, payloads. rewrite Nat2Z.id, list_lookup_fmap, Hk. done.
Qed.
Lemma fec_fields ft sq count xl data : SentFec ft sq count xl data ∈ L →
  (ft = frameFEC ∨ ft = frameFECRow) ∧ is_u32 sq ∧ 0 ≤ count < 2 ^ 16 ∧ 0 ≤ xl < 2 ^ 16 ∧
  parity_ok (base_env Eb) (payloads L) (stride_of (base_env Eb) (bool_decide (ft = frameFECRow))) sq count xl data.
Proof using HL Hco.
  intros Hin. destruct (sk_parity _ _ _ sent_ok_a _ _ _ _ _ Hin) as [Hft Hp]. split; [done|]. apply parity_ok_b in Hp. pose proof Hp as [A1 A2 A3 A4 A5 A6 A7 A8].
  destruct (base_cfg Eb (co_b _ _ Hco)) as [B1 B2]. change (cfg (base_env Eb)) with cfb in *. destruct sender_ok_b as [C1 C2 C3 C4].
  set (stride := stride_of (base_env Eb) (bool_decide (ft = frameFECRow))) in *. pose proof (cw_fec _ B1) as Hg.
  assert (1 ≤ stride) as Hst by (unfold stride, stride_of; change (cfg (base_env Eb)) with cfb; destruct (bool_decide _); lia).
  assert (is_u32 sq) as Hsq by (unfold is_u32; nia). assert (0 ≤ xl < 2 ^ 16) as Hxl; [|split_and!; (done || lia)].
  rewrite A5. apply xsum_below; [lia|]. intros i Hi%elem_of_seqZ. pose proof (dataCap_bounds (base_env Eb) B1) as D1. change (cfg (base_env Eb)) with cfb in *.
  assert (0 ≤ sq + i * stride < Zlen (payloads L)) as Hb by nia. pose proof (chunk_bounds (base_env Eb) (payloads L) C3 _ Hb) as D2.
  change (cfg (base_env Eb)) with cfb in *. pose proof (co_small _ _ Hco) as D3. rewrite (co_payload _ _ Hco) in D3. lia.
Qed.

Lemma fec_pad_data : fec_pad Ea.(ce_tx) frameData = if fecGroup cfb >? 0 then [0; 0; 0; 0] else [].
Proof using Hco.
  unfold fec_pad, frameHdrLen. rewrite <- (co_fec _ _ Hco), bool_decide_true by done. cbn [andb]. by destruct (fecGroup cfa >? 0).
Qed.
Lemma fec_pad_other ft : ft ≠ frameData → fec_pad Ea.(ce_tx) ft = [].
Proof using. intros Hft. unfold fec_pad, frameHdrLen. by rewrite bool_decide_false. Qed.

(** the peer of a stream hears of it what the stream sent *)
Lemma heard_ok ft sid0 sq pl ev : origin Ea log ft sid0 sq pl →
  heard_act Eb (mkFrame ft (u32 sid0) (u32 sq) (Zlen pl) pl) (ARead sid ev) → ev_ok Eb L (own Ea sid = true) ev.
Proof using All.
  intros Ho Hh.
  assert (∀ x, (sid0, x) ∈ log → sid = u32 sid0 → x ∈ L ∧ sid = sid0) as Hown.
  { intros x Hx Hs. rewrite u32_id in Hs by (by eapply Hu). subst sid0. split; [by apply HsL|done]. }
  assert (∀ t, ft = t → t ∈ [frameData; frameFEC; frameFECRow; frameStreamFIN; frameStreamReset] → ¬ control_type ft) as Hctl.
  { intros t -> Ht Hc. by apply control_not in Hc. }
  assert (∀ sq x p, (sid0, SentReliable ft sq p) ∈ log → sid = u32 sid0 → x = ft → x = frameStreamFIN ∨ x = frameStreamReset ∧ ¬ has_fin L) as Hrel.
  { intros sq' x p Hin Hs ->. destruct (Hown _ Hin Hs) as [H1 _]. by eapply reliable_types. }
  assert (∀ sq count xl data, (sid0, SentFec ft sq count xl data) ∈ log → sid = u32 sid0 → ft = frameFEC ∨ ft = frameFECRow) as Hfec.
  { intros sq' count xl data Hin Hs. destruct (Hown _ Hin Hs) as [H1 _]. by destruct (fec_fields _ _ _ _ _ H1). }
  destruct ev as [sq' p fin|row base count xl data| |plen r|code|now| |t]; try done; cbn [heard_act ev_ok f_ftype f_streamID f_seq f_payload] in *.
  - destruct fin.
    + destruct Hh as (-> & Hs & -> & ->). destruct Ho as [[? _]|[(p & Hin & _)|[(count & xl & data & Hin & _)|[[? _]|Hc]]]]; try done.
      * destruct (Hown _ Hin Hs) as [H1 _]. destruct (sk_fin _ _ _ sent_ok_a _ _ H1) as [-> ->]. destruct sender_ok_b as [_ C2 _ _].
        pose proof (Zlen_nonneg (payloads L)). split_and!; [apply u32_id; unfold is_u32; lia|done|]. by eexists _, _.
      * by destruct (Hfec _ _ _ _ Hin Hs).
      * exfalso. eapply Hctl; [reflexivity| |exact Hc]. set_solver.
    + destruct Hh as (-> & Hs & -> & ->). destruct Ho as [[_ (p & e & Hin & ->)]|[(p & Hin & _)|[(count & xl & data & Hin & _)|[[? _]|Hc]]]]; try done.
      * destruct (Hown _ Hin Hs) as [H1 _]. destruct (data_chunk _ _ _ H1) as [H2 H3]. destruct sender_ok_b as [_ C2 _ _].
        rewrite u32_id by (unfold is_u32; lia). split; [done|]. rewrite fec_pad_data. destruct (fecGroup cfb >? 0); [|exact H3].
        rewrite <- H3. change fecMetaLen with (Zlen [0; 0; 0; 0]) at 1. rewrite slice_app_r by lia. rewrite Zlen_app, Z.sub_diag.
        replace (Zlen [0; 0; 0; 0] + Zlen p - Zlen [0; 0; 0; 0]) with (Zlen p) by lia. apply slice_all.
      * by destruct (Hrel _ frameData _ Hin Hs eq_refl) as [?|[? _]].
      * by destruct (Hfec _ _ _ _ Hin Hs).
      * exfalso. eapply Hctl; [reflexivity| |exact Hc]. set_solver.
  - destruct Hh as (Hft & Hs & -> & Hg & Hl & [-> ->] & Hc & ->). destruct Ho as [[? _]|[(p & Hin & _)|[(count & xl & data & Hin & ->)|[[? _]|Hc']]]].
    + subst ft. by destruct row.
    + destruct (Hrel _ ft _ Hin Hs eq_refl) as [?|[? _]]; subst ft; by destruct row.
    + destruct (Hown _ Hin Hs) as [H1 _]. destruct (fec_fields _ _ _ _ _ H1) as (_ & Hsq & Hcount & Hxl & Hp).
      assert (slice (PutUint32 (fec_meta count xl) ++ data) 0 fecMetaLen = PutUint32 (fec_meta count xl)) as Hm by (apply slice_pre; done).
      rewrite Hm, Uint32_PutUint32' in *. destruct (fec_meta_fields count xl Hcount Hxl) as [-> ->].
      assert (slice (PutUint32 (fec_meta count xl) ++ data) fecMetaLen (Zlen (PutUint32 (fec_meta count xl) ++ data)) = data) as Hd.
      { rewrite slice_app_r by (rewrite Zlen_PutUint32; done). rewrite Zlen_app, Zlen_PutUint32. change fecMetaLen with 4. rewrite Z.sub_diag.
        replace (4 + Zlen data - 4) with (Zlen data) by lia. apply slice_all. }
      rewrite Hd, (u32_id sq Hsq). split; [lia|]. replace row with (bool_decide (ft = frameFECRow)); [done|]. subst ft. by destruct row.
    + subst ft. by destruct row.
    + exfalso. eapply Hctl; [exact Hft| |exact Hc']. destruct row; set_solver.
  - destruct Hh as (-> & Hs). intros Hu0. destruct Ho as [[? _]|[(p & Hin & _)|[(count & xl & data & Hin & _)|[(_ & Hsid & Hno)|Hc]]]]; try done.
    + by destruct (Hrel _ frameStreamReset _ Hin Hs eq_refl) as [?|[_ ?]].
    + by destruct (Hfec _ _ _ _ Hin Hs).
    + rewrite u32_id in Hs by done. subst. congruence.
    + exfalso. eapply Hctl; [reflexivity| |exact Hc]. set_solver.
Qed.
End heard.
End link.
