(* ===== verification/Lifecycle.v ===== *)
(** * The life of a connection: its goroutines and [Close]

    A connection is driven by three goroutines of its own ([readLoop],
    [retransmitLoop], [keepAliveLoop]), by the application, by the listener's
    goroutine ([handleDatagramAndFlush]), and is ended by any number of
    concurrent calls of [Close].  This file interleaves them.

    - Each goroutine is a program counter and the steps between its
      interactions with the others: the atomics, the channels, the mutexes,
      the wait group and the socket.
    - What a step does to the connection is an operation of [ConnRun.v], done
      at one point of the critical section it runs in.
    - [recvMu] is held across several steps by [readLoop] and by the
      listener's goroutine: it is free when neither is dispatching.
    - [sendMu] is held by at most one goroutine, which may have found the
      socket not shut down and be about to use its descriptor ([true]).
      A goroutine may take it any number of times while its program counter
      is at code that sends.
    - [lf_fenced] and [lf_ended] are history variables: the streams [Close]
      took off the table, and those it has torn down. *)
From S2P Require Import Prelude Errors Frame Float64 Pacer Options Ring StreamRecv Retransmit RetransmitSpec RetransmitRefine.
From S2P Require Import StreamSend SendRule Estimator SendBatch BatchInv SendFifo Connection ConnLemmas Termination ConnBooks ConnInv ConnOps ConnRun ConnFlags.

(** ** State *)
Inductive sock_state := SockOpen | SockShut | SockClosed.

Inductive thread := TReader | TResender | TKeeper | TForward | TApp | TCloser (i : nat).
#[export] Instance thread_eq_dec : EqDecision thread.
Proof. solve_decision. Defined.

(** [readLoop]: at its head; in [RecvMMsg]; with messages; holding [recvMu];
    gone *)
Inductive reader_pc := RTop | RRecv | RGot (msgs : list (list Z)) | RDispatch (msgs : list (list Z)) | RLeft.
(** [retransmitLoop]: in [serviceResends]; in its select; after a tick; gone *)
Inductive resender_pc := WService | WSelect | WTicked | WLeft.
(** [keepAliveLoop]: in its select; after a tick; gone *)
Inductive keeper_pc := PSelect | PTicked | PLeft.
(** [handleDatagramAndFlush], called by the listener *)
Inductive forward_pc := FIdle | FGot (buf : list Z) | FDispatch (buf : list Z).

(** [Close]: called; lost, and waiting for the winner; returned after
    losing; and the winner, before each of its actions. *)
Inductive closer_pc :=
  | CStart
  | CLost
  | CLeft
  | CChan
  | CGoAway
  | CDrain
  | CFence
  | CDeliver (todo : list Stream)
  | CWait
  | CUring
  | CSock
  | COnClose
  | CReturn
  | CDone.

Record life := mkLife {
  lf_conn : Connection;
  lf_started : bool;
  lf_closeCh : bool;                  (* closed *)
  lf_closeDone : bool;                (* closed *)
  lf_sock : sock_state;
  lf_uring : bool;                    (* the ring's storage is there *)
  lf_doneWg : Z;
  lf_reader : reader_pc;
  lf_resender : resender_pc;
  lf_keeper : keeper_pc;
  lf_forward : forward_pc;
  lf_sendMu : option (thread * bool);
  lf_closers : list closer_pc;
  lf_onClose : nat;                   (* runs of [onClose] *)
  lf_fenced : list Stream;
  lf_ended : list Stream;
}.
#[export] Instance eta_life : Eta life :=
  λ s, mkLife (lf_conn s) (lf_started s) (lf_closeCh s) (lf_closeDone s) (lf_sock s) (lf_uring s) (lf_doneWg s) (lf_reader s)
    (lf_resender s) (lf_keeper s) (lf_forward s) (lf_sendMu s) (lf_closers s) (lf_onClose s) (lf_fenced s) (lf_ended s).

Section life.
Context (E : cenv).
#[local] Abbreviation cf := (tx_cfg (ce_tx E)).
Implicit Types (s : life).

(** after [newConnection] *)
Definition newLife (uring : bool) : life :=
  mkLife (newConnection E) false false false SockOpen uring 0 RTop WService PSelect FIdle None [] 0 [] [].

(** [start] *)
Definition start s : life :=
  let workers := if cf.(keepAlive) >? 0 then 3 else 2 in
  s <| lf_started := true |> <| lf_doneWg := s.(lf_doneWg) + workers |>
    <| lf_keeper := if cf.(keepAlive) >? 0 then PSelect else PLeft |>.

Definition holds s (t : thread) : bool := match s.(lf_sendMu) with Some (t', _) => bool_decide (t' = t) | None => false end.
Definition recvMu_free s : bool :=
  match s.(lf_reader), s.(lf_forward) with RDispatch _, _ => false | _, FDispatch _ => false | _, _ => true end.

(** [defer c.doneWg.Done()] *)
Definition Done s : life := s <| lf_doneWg := s.(lf_doneWg) - 1 |>.
Definition set_conn s (c : Connection) : life := s <| lf_conn := c |>.

(** ** [readLoop] *)
Inductive reader_step : life → life → Prop :=
  | rd_closed s :
      s.(lf_reader) = RTop → s.(lf_conn).(cn_closed) = true → reader_step s (Done (s <| lf_reader := RLeft |>))
  | rd_recv s :
      s.(lf_reader) = RTop → s.(lf_conn).(cn_closed) = false → reader_step s (s <| lf_reader := RRecv |>)
  | rd_shut s :                                               (* [RecvMMsg] returns: the socket is shut down *)
      s.(lf_reader) = RRecv → s.(lf_sock) ≠ SockOpen → reader_step s (Done (s <| lf_reader := RLeft |>))
  | rd_lock s msgs :                                          (* [recvMu.Lock()] *)
      s.(lf_reader) = RGot msgs → recvMu_free s = true → reader_step s (s <| lf_reader := RDispatch msgs |>)
  | rd_late s msgs :
      s.(lf_reader) = RDispatch msgs → s.(lf_conn).(cn_closed) = true → reader_step s (Done (s <| lf_reader := RLeft |>))
  | rd_dispatch s msgs c' :
      s.(lf_reader) = RDispatch msgs → s.(lf_conn).(cn_closed) = false → holds s TReader = false →
      conn_step E s.(lf_conn) (KReceive msgs) = Some c' →
      reader_step s (set_conn s c' <| lf_reader := RTop |>).

(** What only the kernel brings about: a blocked [RecvMMsg] returns while the
    socket is open, or with messages that were queued.  Nothing says that it
    ever will. *)
Inductive kernel_step : life → life → Prop :=
  | rd_retry s :                                              (* [EINTR], or nothing received *)
      s.(lf_reader) = RRecv → kernel_step s (s <| lf_reader := RTop |>)
  | rd_error s :
      s.(lf_reader) = RRecv → kernel_step s (Done (s <| lf_reader := RLeft |>))
  | rd_messages s msgs :
      s.(lf_reader) = RRecv → Forall (Forall is_u8) msgs → kernel_step s (s <| lf_reader := RGot msgs |>).

(** ** [retransmitLoop] *)
Inductive resender_step : life → life → Prop :=
  | rs_service s c' (queued : bool) :
      s.(lf_resender) = WService → holds s TResender = false → serviceResends E s.(lf_conn) = Some (c', queued) →
      resender_step s (set_conn s c' <| lf_resender := if queued then WService else WSelect |>)
  | rs_stop s :
      s.(lf_resender) = WSelect → s.(lf_closeCh) = true → resender_step s (Done (s <| lf_resender := WLeft |>))
  | rs_wake s c' :
      s.(lf_resender) = WSelect → s.(lf_conn).(cn_resendWake) = true → conn_step E s.(lf_conn) KWake = Some c' →
      resender_step s (set_conn s c' <| lf_resender := WService |>)
  | rs_tick s :
      s.(lf_resender) = WSelect → resender_step s (s <| lf_resender := WTicked |>)
  | rs_scan s c' :
      s.(lf_resender) = WTicked → holds s TResender = false → conn_step E s.(lf_conn) KTick = Some c' →
      resender_step s (set_conn s c' <| lf_resender := WService |>).

(** ** [keepAliveLoop] *)
Inductive keeper_step : life → life → Prop :=
  | kp_stop s :
      s.(lf_keeper) = PSelect → s.(lf_closeCh) = true → keeper_step s (Done (s <| lf_keeper := PLeft |>))
  | kp_tick s :
      s.(lf_keeper) = PSelect → keeper_step s (s <| lf_keeper := PTicked |>)
  | kp_give_up s c' :                                         (* [go c.Close()] *)
      s.(lf_keeper) = PTicked → conn_step E s.(lf_conn) KKeepAlive = Some c' → maxMissedPongs < c'.(cn_missedPongs) →
      keeper_step s (Done (set_conn s c' <| lf_keeper := PLeft |> <| lf_closers := s.(lf_closers) ++ [CStart] |>))
  | kp_ping s c' :
      s.(lf_keeper) = PTicked → holds s TKeeper = false → conn_step E s.(lf_conn) KKeepAlive = Some c' →
      c'.(cn_missedPongs) ≤ maxMissedPongs → keeper_step s (set_conn s c' <| lf_keeper := PSelect |>).

(** ** [handleDatagramAndFlush] *)
Inductive forward_step : life → life → Prop :=
  | fw_lock s buf :                                           (* [recvMu.Lock()] *)
      s.(lf_forward) = FGot buf → recvMu_free s = true → forward_step s (s <| lf_forward := FDispatch buf |>)
  | fw_dispatch s buf c' :                                    (* nothing, when [closed] *)
      s.(lf_forward) = FDispatch buf → holds s TForward = false → conn_step E s.(lf_conn) (KForward buf) = Some c' →
      forward_step s (set_conn s c' <| lf_forward := FIdle |>).

(** ** The sections of [sendMu], as [flushSendLocked] uses the socket *)

(** the goroutine is at code that sends *)
Definition may_send s (t : thread) : Prop :=
  match t with
  | TReader => ∃ msgs, s.(lf_reader) = RDispatch msgs
  | TResender => s.(lf_resender) = WService ∨ s.(lf_resender) = WTicked
  | TKeeper => s.(lf_keeper) = PTicked
  | TForward => ∃ buf, s.(lf_forward) = FDispatch buf
  | TApp => True
  | TCloser i => s.(lf_closers) !! i = Some CGoAway
  end.

Inductive send_step : life → life → Prop :=
  | sd_lock s t :
      s.(lf_sendMu) = None → may_send s t → send_step s (s <| lf_sendMu := Some (t, false) |>)
  | sd_check s t :                                            (* [!c.sock.IsShutdown()] *)
      s.(lf_sendMu) = Some (t, false) → s.(lf_sock) = SockOpen → send_step s (s <| lf_sendMu := Some (t, true) |>)
  | sd_send s t :                                             (* the descriptor is used, or the pacer's wait was cancelled *)
      s.(lf_sendMu) = Some (t, true) → send_step s (s <| lf_sendMu := Some (t, false) |>)
  | sd_unlock s t :
      s.(lf_sendMu) = Some (t, false) → send_step s (s <| lf_sendMu := None |>).

(** ** [Close], call [i] *)
Definition at_pc s (i : nat) (pc : closer_pc) : Prop := s.(lf_closers) !! i = Some pc.
Definition goto s (i : nat) (pc : closer_pc) : life := s <| lf_closers := <[i := pc]> s.(lf_closers) |>.

Inductive closer_step (i : nat) : life → life → Prop :=
  | cl_win s :                                                (* [closed.CompareAndSwap(false, true)] *)
      at_pc s i CStart → s.(lf_conn).(cn_closed) = false →
      closer_step i s (goto (set_conn s (Close_begin s.(lf_conn))) i CChan)
  | cl_lose s :
      at_pc s i CStart → s.(lf_conn).(cn_closed) = true → closer_step i s (goto s i CLost)
  | cl_late s :                                               (* [<-c.closeDone] *)
      at_pc s i CLost → s.(lf_closeDone) = true → closer_step i s (goto s i CLeft)
  | cl_chan s :
      at_pc s i CChan → closer_step i s (goto (s <| lf_closeCh := true |>) i CGoAway)
  | cl_goaway s :
      at_pc s i CGoAway → holds s (TCloser i) = false →
      closer_step i s (goto (set_conn s (Close_goaway E s.(lf_conn))) i CDrain)
  | cl_drain s :                                              (* [waitGen] under [sendMu] *)
      at_pc s i CDrain → s.(lf_sendMu) = None → closer_step i s (goto s i CFence)
  | cl_fence s :                                              (* under [recvMu] *)
      at_pc s i CFence → recvMu_free s = true →
      closer_step i s (goto (set_conn s (Close_fence E s.(lf_conn)).1 <| lf_sock := SockShut |>
                               <| lf_fenced := (Close_fence E s.(lf_conn)).2 |>) i (CDeliver (Close_fence E s.(lf_conn)).2))
  | cl_deliver s st todo :
      at_pc s i (CDeliver (st :: todo)) →
      closer_step i s (goto (s <| lf_ended := s.(lf_ended) ++ [deliverClose st] |>) i (CDeliver todo))
  | cl_delivered s :
      at_pc s i (CDeliver []) → closer_step i s (goto s i CWait)
  | cl_wait s :                                               (* [doneWg.Wait()] *)
      at_pc s i CWait → s.(lf_doneWg) = 0 → closer_step i s (goto s i CUring)
  | cl_uring s :                                              (* under [sendMu] *)
      at_pc s i CUring → s.(lf_sendMu) = None → closer_step i s (goto (s <| lf_uring := false |>) i CSock)
  | cl_sock s :
      at_pc s i CSock → closer_step i s (goto (s <| lf_sock := SockClosed |>) i COnClose)
  | cl_onclose s :
      at_pc s i COnClose → closer_step i s (goto (s <| lf_onClose := S s.(lf_onClose) |>) i CReturn)
  | cl_return s :                                             (* [close(c.closeDone)], deferred *)
      at_pc s i CReturn → closer_step i s (goto (s <| lf_closeDone := true |>) i CDone).

(** ** The whole *)

(** what the application does with a connection and its streams *)
Definition app_op (op : conn_op) : Prop :=
  match op with
  | KOpen | KOpenSync | KAccept | KWrite _ _ | KCloseWrite _ | KCancelWrite _ _ | KRead _ _ | KCancelRead _ _ | KSetDeadline _ _
  | KPing _ _ | KHandshake _ | KHandshakeAck => True
  | _ => False
  end.

(** steps of the connection's own goroutines and of its closers, which need
    nothing of the outside *)
Inductive own_step : life → life → Prop :=
  | os_reader s s' : s.(lf_started) = true → reader_step s s' → own_step s s'
  | os_resender s s' : s.(lf_started) = true → resender_step s s' → own_step s s'
  | os_keeper s s' : s.(lf_started) = true → keeper_step s s' → own_step s s'
  | os_forward s s' : forward_step s s' → own_step s s'
  | os_send s s' : send_step s s' → own_step s s'
  | os_closer i s s' : closer_step i s s' → own_step s s'
  | os_goaway s :                                             (* [go c.Close()] on a GOAWAY *)
      s.(lf_started) = true → s.(lf_conn).(cn_closing) = true →
      own_step s (s <| lf_closers := s.(lf_closers) ++ [CStart] |>).

(** what others do to it *)
Inductive call :=
  | CallStart
  | CallClose
  | CallForward (buf : list Z)
  | CallOp (op : conn_op).
Inductive call_step : call → life → life → Prop :=
  | ca_start s : s.(lf_started) = false → call_step CallStart s (start s)
  | ca_close s : s.(lf_started) = true → call_step CallClose s (s <| lf_closers := s.(lf_closers) ++ [CStart] |>)
  | ca_forward s buf : s.(lf_started) = true → s.(lf_forward) = FIdle → Forall is_u8 buf →
      call_step (CallForward buf) s (s <| lf_forward := FGot buf |>)
  | ca_op s op c' : s.(lf_started) = true → app_op op → op_ok s.(lf_conn) op → conn_step E s.(lf_conn) op = Some c' →
      call_step (CallOp op) s (set_conn s c').

Definition life_step s s' : Prop := own_step s s' ∨ (s.(lf_started) = true ∧ kernel_step s s') ∨ ∃ k, call_step k s s'.
(** the states of a connection that was created with a ring, or without *)
Definition alive (uring : bool) s : Prop := rtc life_step (newLife uring) s.
End life.
