(* ===== verification/LifeInv.v ===== *)
(** * The invariant of a connection's life

    [life_inv u tp s]: the call of [Close] that won has done its first [tp]
    actions; the flags, the channels, the socket and the ring are as that
    says; the wait group counts the goroutines that have not left; and no
    goroutine is about to use what is gone. *)
From S2P Require Import Prelude Errors Frame Float64 Pacer Options Ring StreamRecv Retransmit RetransmitSpec RetransmitRefine.
From S2P Require Import StreamSend SendRule Estimator SendBatch BatchInv SendFifo Connection ConnLemmas Termination ConnBooks ConnInv ConnOps ConnRun ConnFlags Lifecycle.

(** how far the winner is; 0 for the others *)
Definition rank (pc : closer_pc) : nat :=
  match pc with
  | CStart | CLost | CLeft => 0
  | CChan => 1 | CGoAway => 2 | CDrain => 3 | CFence => 4 | CDeliver _ => 5 | CWait => 6 | CUring => 7 | CSock => 8
  | COnClose => 9 | CReturn => 10 | CDone => 11
  end.
Definition pc_at (tp : nat) (pc : closer_pc) : Prop :=
  match pc with CStart => True | CLost => (0 < tp)%nat | CLeft => tp = 11%nat | _ => rank pc = tp end.
Definition sock_at (tp : nat) : sock_state := if decide (tp ≤ 4)%nat then SockOpen else if decide (tp ≤ 8)%nat then SockShut else SockClosed.

(** the goroutines that have not left *)
Definition working (s : life) : Z :=
  (match s.(lf_reader) with RLeft => 0 | _ => 1 end) + (match s.(lf_resender) with WLeft => 0 | _ => 1 end) +
  (match s.(lf_keeper) with PLeft => 0 | _ => 1 end).
(** what the kernel gave is bytes *)
Definition bytes_in (s : life) : Prop :=
  (∀ msgs, s.(lf_reader) = RGot msgs ∨ s.(lf_reader) = RDispatch msgs → Forall (Forall is_u8) msgs) ∧
  (∀ buf, s.(lf_forward) = FGot buf ∨ s.(lf_forward) = FDispatch buf → Forall is_u8 buf).
(** what only [Close] and [start] change *)
Definition shared (s : life) := (s.(lf_started), s.(lf_closeCh), s.(lf_closeDone), s.(lf_sock), s.(lf_uring), s.(lf_onClose), s.(lf_fenced), s.(lf_ended)).

Section inv.
Context (E : cenv) (HE : env_ok E) (u : bool).
#[local] Abbreviation cf := (tx_cfg (ce_tx E)).
Implicit Types (s : life).

Record life_inv (tp : nat) s : Prop := mkLifeInv {
  li_reach : reachable E s.(lf_conn);
  li_flags : flags s.(lf_conn) = (bool_decide (1 ≤ tp)%nat, bool_decide (5 ≤ tp)%nat);
  li_shared : shared s = (s.(lf_started), bool_decide (2 ≤ tp)%nat, bool_decide (11 ≤ tp)%nat, sock_at tp,
    (if decide (8 ≤ tp)%nat then false else u), (if decide (10 ≤ tp)%nat then 1%nat else 0%nat), s.(lf_fenced), s.(lf_ended));
  li_started : s.(lf_started) = false → s.(lf_closers) = [] ∧ s.(lf_reader) = RTop ∧ s.(lf_resender) = WService;
  li_wg : s.(lf_doneWg) = if s.(lf_started) then working s else 0;
  li_wait : (7 ≤ tp)%nat → s.(lf_doneWg) = 0;
  li_send t : (8 ≤ tp)%nat → s.(lf_sendMu) ≠ Some (t, true);
  li_closers i pc : s.(lf_closers) !! i = Some pc → pc_at tp pc;
  li_unique i j pc pc' : s.(lf_closers) !! i = Some pc → s.(lf_closers) !! j = Some pc' → rank pc ≠ 0%nat → rank pc' ≠ 0%nat → i = j;
  li_winner : (0 < tp)%nat → ∃ i pc, s.(lf_closers) !! i = Some pc ∧ rank pc = tp;
  li_deliver i todo : s.(lf_closers) !! i = Some (CDeliver todo) → s.(lf_ended) ++ (deliverClose <$> todo) = deliverClose <$> s.(lf_fenced);
  li_early : (tp ≤ 4)%nat → s.(lf_ended) = [];
  li_ended : (6 ≤ tp)%nat → s.(lf_ended) = deliverClose <$> s.(lf_fenced);
  li_bytes : bytes_in s;
}.

(** ** Steps that are not the winner's *)
Record keeps s s' : Prop := mkKeeps {
  kp_reach : reachable E s'.(lf_conn);
  kp_flags : flags s'.(lf_conn) = flags s.(lf_conn);
  kp_shared : shared s' = shared s;
  kp_init : s.(lf_started) = false → s'.(lf_closers) = s.(lf_closers) ∧ s'.(lf_reader) = s.(lf_reader) ∧ s'.(lf_resender) = s.(lf_resender) ∧ s'.(lf_doneWg) = s.(lf_doneWg);
  kp_wg : s'.(lf_doneWg) - working s' = s.(lf_doneWg) - working s ∧ s'.(lf_doneWg) ≤ s.(lf_doneWg);
  kp_send t : s'.(lf_sendMu) = Some (t, true) → s.(lf_sock) = SockOpen ∨ s.(lf_sendMu) = Some (t, true);
  kp_closers : s'.(lf_closers) = s.(lf_closers) ∨ s'.(lf_closers) = s.(lf_closers) ++ [CStart];
  kp_bytes : bytes_in s';
}.

Lemma working_nonneg s : 0 ≤ working s.
Proof. unfold working. destruct (lf_reader s), (lf_resender s), (lf_keeper s); lia. Qed.
Lemma sock_at_open tp : sock_at tp = SockOpen → (tp ≤ 4)%nat.
Proof. unfold sock_at. destruct (decide _); [done|]. by destruct (decide _). Qed.

Lemma closers_snoc s s' i pc : s'.(lf_closers) = s.(lf_closers) ∨ s'.(lf_closers) = s.(lf_closers) ++ [CStart] →
  s'.(lf_closers) !! i = Some pc → s.(lf_closers) !! i = Some pc ∨ pc = CStart.
Proof.
  intros [->| ->]; [by left|]. intros [?|[_ H]]%lookup_app_Some; [by left|]. right.
  apply list_lookup_singleton_Some in H as [_ <-]. done.
Qed.

Lemma keeps_inv tp s s' : keeps s s' → life_inv tp s → life_inv tp s'.
Proof.
  intros [K1 K2 K3 K4 [K5 K5'] K6 K7 K8] [I1 I2 I3 I4 I5 I6 I7 I8 I9 I10 I11 I12 I13 I14].
  pose proof K3 as K3'. unfold shared in K3'. injection K3' as Hst Hcc Hcd Hsk Hur Hoc Hfe Hen.
  pose proof (λ i pc, closers_snoc s s' i pc K7) as Hcl.
  split; try done.
  - by rewrite K2.
  - rewrite K3, I3. by rewrite Hst, Hfe, Hen.
  - rewrite Hst. intros Hs. destruct (I4 Hs) as (? & ? & ?), (K4 Hs) as (-> & -> & -> & _). done.
  - rewrite Hst. destruct (lf_started s) eqn:Hs; [lia|]. destruct (K4 eq_refl) as (_ & _ & _ & ->). done.
  - intros Ht. specialize (I6 Ht). destruct (lf_started s) eqn:Hs.
    + pose proof (working_nonneg s'). lia.
    + destruct (K4 eq_refl) as (_ & _ & _ & ->). done.
  - intros t Ht Hm. destruct (K6 _ Hm) as [Ho|Ho]; [|by eapply I7].
    unfold shared in I3. injection I3 as _ _ Hsk' _ _. rewrite Hsk' in Ho. apply sock_at_open in Ho. lia.
  - intros i pc Hi. destruct (Hcl _ _ Hi) as [H1| ->]; [by eapply I8|done].
  - intros i j pc pc' Hi Hj Hp Hp'. destruct (Hcl _ _ Hi) as [H1| ->], (Hcl _ _ Hj) as [H2| ->]; try done. by eapply I9.
  - intros Ht. destruct (I10 Ht) as (i & pc & Hi & Hp). exists i, pc. split; [|done].
    destruct K7 as [-> | ->]; [done|]. by apply lookup_app_l_Some.
  - intros i todo Hi. destruct (Hcl _ _ Hi) as [H1|H1]; [|done]. rewrite Hen, Hfe. by eapply I11.
  - intros Ht. rewrite Hen. auto.
  - intros Ht. rewrite Hen, Hfe. auto.
Qed.

(** an operation of the connection *)
Lemma op_keeps s op c' : reachable E s.(lf_conn) → op_ok s.(lf_conn) op → not_close op → conn_step E s.(lf_conn) op = Some c' →
  reachable E c' ∧ flags c' = flags s.(lf_conn).
Proof using HE.
  intros Hr Hop Hn Hs. split; [by eapply reach_step|]. eapply (conn_step_flags E HE); [by apply reachable_ok|done..].
Qed.

Section steps.
Context (s : life) (Hr : reachable E s.(lf_conn)) (Hb : bytes_in s) (Hst : s.(lf_started) = true).

(** a step that leaves the connection and the program counters that carry
    input as they are, or moves one of them *)
#[local] Ltac by_cases :=
  split; cbn;
    [done|done|done|congruence
    |unfold working, Done, set_conn; cbn; repeat match goal with H : lf_reader s = _ |- _ => rewrite H | H : lf_resender s = _ |- _ => rewrite H | H : lf_keeper s = _ |- _ => rewrite H end; lia
    |by intros; right|first [by left|by right]
    |destruct Hb as [Hb1 Hb2]; split; cbn; intros ?; [try (by apply Hb1)|try (by apply Hb2)]; try (by intros [?|?])].

Lemma reader_keeps s' : reader_step E s s' → keeps s s'.
Proof using HE Hr Hb Hst.
  destruct 1 as [s Hp Hc|s Hp Hc|s Hp Hsk|s msgs Hp Hf|s msgs Hp Hc|s msgs c' Hp Hc Hh Hs]; try by by_cases.
  - by_cases. intros [?|[= <-]]; [done|]. apply Hb1. by left.
  - destruct (op_keeps s (KReceive msgs) c' Hr) as [H1 H2]; [apply Hb; by right|done|done|]. by by_cases.
Qed.
Lemma kernel_keeps s' : kernel_step s s' → keeps s s'.
Proof using Hr Hb Hst. destruct 1 as [s Hp|s Hp|s msgs Hp Hm]; try by by_cases. by_cases. intros [[= <-]|?]; done. Qed.
Lemma resender_keeps s' : resender_step E s s' → keeps s s'.
Proof using HE Hr Hb Hst.
  destruct 1 as [s c' queued Hp Hh Hs|s Hp Hc|s c' Hp Hw Hs|s Hp|s c' Hp Hh Hs]; try by by_cases.
  - destruct (op_keeps s KService c' Hr) as [H1 H2]; [done|done|cbn [conn_step]; by rewrite Hs|]. destruct queued; by by_cases.
  - destruct (op_keeps s KWake c' Hr) as [H1 H2]; [done..|]. by by_cases.
  - destruct (op_keeps s KTick c' Hr) as [H1 H2]; [done..|]. by by_cases.
Qed.
Lemma keeper_keeps s' : keeper_step E s s' → keeps s s'.
Proof using HE Hr Hb Hst.
  destruct 1 as [s Hp Hc|s Hp|s c' Hp Hs Hm|s c' Hp Hh Hs Hm]; try by by_cases.
  - destruct (op_keeps s KKeepAlive c' Hr) as [H1 H2]; [done..|]. by by_cases.
  - destruct (op_keeps s KKeepAlive c' Hr) as [H1 H2]; [done..|]. by by_cases.
Qed.
Lemma goaway_keeps : keeps s (s <| lf_closers := s.(lf_closers) ++ [CStart] |>).
Proof using Hr Hb Hst. by_cases. Qed.
End steps.

Lemma forward_keeps s s' : reachable E s.(lf_conn) → bytes_in s → forward_step E s s' → keeps s s'.
Proof using HE.
  intros Hr Hb. destruct 1 as [s buf Hp Hf|s buf c' Hp Hh Hs].
  2: destruct (op_keeps s (KForward buf) c' Hr) as [H1 H2]; [apply Hb; by right|done|done|].
  all: split; try done; [by right|by left|].
  all: destruct Hb as [Hb1 Hb2]; split; cbn; [done|].
  - intros ? [?|[= <-]]; [done|]; apply Hb2; by left.
  - by intros ? [?|?].
Qed.
Lemma send_keeps s s' : reachable E s.(lf_conn) → bytes_in s → send_step s s' → keeps s s'.
Proof.
  intros Hr Hb. destruct 1 as [s t Hm Ht|s t Hm Hs|s t Hm|s t Hm]; (split; try done; cbn; try (by left)).
Qed.
Lemma app_keeps s op c' : reachable E s.(lf_conn) → bytes_in s → app_op op → op_ok s.(lf_conn) op → conn_step E s.(lf_conn) op = Some c' →
  keeps s (set_conn s c').
Proof using HE.
  intros Hr Hb Ha Hop Hs. destruct (op_keeps s op c' Hr Hop) as [H1 H2]; [by destruct op|done|].
  split; try done; [by right|by left].
Qed.

(** ** The steps of [Close] *)
Lemma pc_at_rank tp pc : rank pc ≠ 0%nat → pc_at tp pc → rank pc = tp.
Proof. by destruct pc. Qed.

(** call [i] goes on, as the winner or to become it *)
Lemma closers_advance tp tp' (l : list closer_pc) (i : nat) pc pc' :
  (∀ i pc, l !! i = Some pc → pc_at tp pc) →
  (∀ i j pc pc', l !! i = Some pc → l !! j = Some pc' → rank pc ≠ 0%nat → rank pc' ≠ 0%nat → i = j) →
  l !! i = Some pc → rank pc = tp → rank pc' = tp' → (0 < tp')%nat → (tp < 11)%nat →
  (∀ j q, <[i := pc']> l !! j = Some q → pc_at tp' q) ∧
  (∀ j k q q', <[i := pc']> l !! j = Some q → <[i := pc']> l !! k = Some q' → rank q ≠ 0%nat → rank q' ≠ 0%nat → j = k) ∧
  ((0 < tp')%nat → ∃ j q, <[i := pc']> l !! j = Some q ∧ rank q = tp').
Proof.
  intros Hat Huq Hi Hp Hp' H0 H11. pose proof (lookup_lt_Some _ _ _ Hi) as Hlt.
  assert (∀ j q, <[i := pc']> l !! j = Some q → j = i ∧ q = pc' ∨ j ≠ i ∧ l !! j = Some q ∧ rank q = 0%nat) as Hlk.
  { intros j q. destruct (decide (i = j)) as [<-|Hne].
    - rewrite list_lookup_insert_eq by done. intros [= <-]. by left.
    - rewrite list_lookup_insert_ne by done. intros Hq. right. split_and!; [done|done|].
      destruct (decide (rank q = 0%nat)) as [|Hr]; [done|]. pose proof (pc_at_rank _ _ Hr (Hat _ _ Hq)) as Hr'.
      destruct Hne. eapply Huq; [exact Hi|exact Hq|congruence|done]. }
  split_and!.
  - intros j q Hq. destruct (Hlk j q Hq) as [[-> ->]|(_ & H1 & H2)]; [by destruct pc'; cbn in *; subst; (done || lia)|].
    specialize (Hat _ _ H1). destruct q; try done; cbn in *; lia.
  - intros j k q q' Hq Hq' Hn Hn'. destruct (Hlk _ _ Hq) as [[-> _]|(_ & _ & ?)]; [|done].
    destruct (Hlk _ _ Hq') as [[-> _]|(_ & _ & ?)]; done.
  - intros _. exists i, pc'. split; [by apply list_lookup_insert_eq|done].
Qed.

(** a call that lost goes on *)
Lemma closers_lost tp (l : list closer_pc) (i : nat) pc' :
  (∀ i pc, l !! i = Some pc → pc_at tp pc) →
  (∀ i j pc pc', l !! i = Some pc → l !! j = Some pc' → rank pc ≠ 0%nat → rank pc' ≠ 0%nat → i = j) →
  (∃ pc, l !! i = Some pc ∧ rank pc = 0%nat) → rank pc' = 0%nat → pc_at tp pc' →
  (∀ j q, <[i := pc']> l !! j = Some q → pc_at tp q) ∧
  (∀ j k q q', <[i := pc']> l !! j = Some q → <[i := pc']> l !! k = Some q' → rank q ≠ 0%nat → rank q' ≠ 0%nat → j = k) ∧
  (∀ j q, rank q ≠ 0%nat → <[i := pc']> l !! j = Some q ↔ l !! j = Some q).
Proof.
  intros Hat Huq (pc & Hi & Hp) Hp' Ha. pose proof (lookup_lt_Some _ _ _ Hi) as Hlt.
  assert (∀ j q, rank q ≠ 0%nat → <[i := pc']> l !! j = Some q ↔ l !! j = Some q) as Hlk.
  { intros j q Hr. destruct (decide (i = j)) as [<-|Hne]; [|by rewrite list_lookup_insert_ne].
    rewrite list_lookup_insert_eq by done. split; intros [= Hq]; [|rewrite Hi in Hq; injection Hq as ->]; congruence. }
  split_and!; [|by intros j k q q' Hq Hq' Hn Hn'; rewrite Hlk in Hq by done; rewrite Hlk in Hq' by done; eapply Huq|done].
  intros j q. destruct (decide (i = j)) as [<-|Hne]; [|rewrite list_lookup_insert_ne by done; apply Hat].
  rewrite list_lookup_insert_eq by done. by intros [= <-].
Qed.

Lemma new_inv : life_inv 0 (newLife E u).
Proof using. split; [apply reach_new|..]; cbn; try done; try lia. by split; intros ? [?|?]. Qed.

Lemma start_inv tp s : life_inv tp s → s.(lf_started) = false → life_inv tp (start E s).
Proof using.
  intros [I1 I2 I3 I4 I5 I6 I7 I8 I9 I10 I11 I12 I13 I14] Hs. destruct (I4 Hs) as (Hc & Hrd & Hrs).
  assert (tp = 0%nat) as -> by (destruct (decide (0 < tp)%nat) as [Ht|]; [destruct (I10 Ht) as (i & pc & Hi & _); by rewrite Hc in Hi|lia]).
  unfold shared in I3. injection I3 as H1 H2 H3 H4 H5. split; try done; cbn; try lia.
  - unfold shared, start. cbn. by rewrite H1, H2, H3, H4, H5.
  - rewrite I5, Hs. unfold working, start. cbn. rewrite Hrd, Hrs. case_test; lia.
Qed.

(** the winner, at [pc], does something that leads to [pc'] *)
Lemma advance_inv tp s s' i pc pc' tp' : life_inv tp s → at_pc s i pc → rank pc = tp → rank pc' = tp' → (tp < tp' ≤ 11)%nat →
  s'.(lf_closers) = <[i := pc']> s.(lf_closers) →
  reachable E s'.(lf_conn) → flags s'.(lf_conn) = (bool_decide (1 ≤ tp')%nat, bool_decide (5 ≤ tp')%nat) →
  shared s' = (s.(lf_started), bool_decide (2 ≤ tp')%nat, bool_decide (11 ≤ tp')%nat, sock_at tp',
    (if decide (8 ≤ tp')%nat then false else u), (if decide (10 ≤ tp')%nat then 1%nat else 0%nat), s'.(lf_fenced), s'.(lf_ended)) →
  (s'.(lf_doneWg), s'.(lf_reader), s'.(lf_resender), s'.(lf_keeper), s'.(lf_forward)) =
    (s.(lf_doneWg), s.(lf_reader), s.(lf_resender), s.(lf_keeper), s.(lf_forward)) →
  ((7 ≤ tp')%nat → s.(lf_doneWg) = 0) → ((8 ≤ tp')%nat → ∀ t, s'.(lf_sendMu) ≠ Some (t, true)) →
  (∀ todo, pc' = CDeliver todo → s'.(lf_ended) ++ (deliverClose <$> todo) = deliverClose <$> s'.(lf_fenced)) →
  ((tp' ≤ 4)%nat → s'.(lf_ended) = []) → ((6 ≤ tp')%nat → s'.(lf_ended) = deliverClose <$> s'.(lf_fenced)) → life_inv tp' s'.
Proof using.
  intros [I1 I2 I3 I4 I5 I6 I7 I8 I9 I10 I11 I12 I13 I14] Hi Hp Hp' Htp Hcl Hr Hfl Hsh [= Hwg Hrd Hrs Hkp Hfw] Hw Hsm Hd Hea Hen.
  destruct (closers_advance tp tp' _ i pc pc' I8 I9 Hi Hp Hp' ltac:(lia) ltac:(lia)) as (C1 & C2 & C3). rewrite <- Hcl in C1, C2, C3.
  assert (s'.(lf_started) = s.(lf_started)) as Hst by (unfold shared in Hsh; congruence).
  split; try done.
  - by rewrite Hsh, Hst.
  - rewrite Hst. intros Hs. destruct (I4 Hs) as (Hc & _). unfold at_pc in Hi. by rewrite Hc in Hi.
  - rewrite Hst, Hwg, I5. unfold working. by rewrite Hrd, Hrs, Hkp.
  - intros H7. by rewrite Hwg, Hw.
  - intros t H8. by apply Hsm.
  - intros j todo Hj. apply Hd. pose proof (C1 _ _ Hj) as Hr5. cbn in Hr5.
    rewrite Hcl in Hj. destruct (decide (i = j)) as [<-|Hne].
    + rewrite list_lookup_insert_eq in Hj by by eapply lookup_lt_Some. by injection Hj.
    + destruct Hne. eapply C2; [by rewrite Hcl; apply list_lookup_insert_eq; eapply lookup_lt_Some|by rewrite Hcl|lia|done].
  - destruct I14 as [B1 B2]. split; [by rewrite Hrd|by rewrite Hfw].
Qed.

(** a call that lost *)
Lemma lost_inv tp s i pc pc' : life_inv tp s → at_pc s i pc → rank pc = 0%nat → rank pc' = 0%nat → pc_at tp pc' → life_inv tp (goto s i pc').
Proof using.
  intros [I1 I2 I3 I4 I5 I6 I7 I8 I9 I10 I11 I12 I13 I14] Hi Hp Hp' Ha.
  destruct (closers_lost tp _ i pc' I8 I9 (ex_intro _ pc (conj Hi Hp)) Hp' Ha) as (C1 & C2 & C3).
  split; try done.
  - intros Hs. destruct (I4 Hs) as (Hc & _). unfold at_pc in Hi. by rewrite Hc in Hi.
  - intros Ht. destruct (I10 Ht) as (j & q & Hj & Hq). exists j, q. split; [|done]. apply C3; [lia|done].
  - intros j todo Hj. apply (I11 j todo). by apply C3 in Hj.
Qed.

Lemma Close_begin_reach c : reachable E c → reachable E (Close_begin c).
Proof. intros H. by apply (reach_step E c KCloseBegin). Qed.
Lemma Close_goaway_reach c : reachable E c → reachable E (Close_goaway E c) ∧ flags (Close_goaway E c) = flags c.
Proof. intros H. split; [by apply (reach_step E c KCloseGoAway)|apply tx_flags]. Qed.
Lemma Close_fence_reach c : reachable E c → reachable E (Close_fence E c).1.
Proof. intros H. by apply (reach_step E c KCloseFence). Qed.

Lemma deliver_inv s i st todo : life_inv 5 s → at_pc s i (CDeliver (st :: todo)) →
  life_inv 5 (goto (s <| lf_ended := s.(lf_ended) ++ [deliverClose st] |>) i (CDeliver todo)).
Proof using.
  intros [I1 I2 I3 I4 I5 I6 I7 I8 I9 I10 I11 I12 I13 I14] Hi. pose proof (lookup_lt_Some _ _ _ Hi) as Hlt.
  assert (∀ j q, <[i := CDeliver todo]> s.(lf_closers) !! j = Some q → j = i ∧ q = CDeliver todo ∨ j ≠ i ∧ s.(lf_closers) !! j = Some q) as Hlk.
  { intros j q. destruct (decide (i = j)) as [<-|Hne]; [|rewrite list_lookup_insert_ne by done; by right].
    rewrite list_lookup_insert_eq by done. intros [= <-]. by left. }
  assert (∀ j q, rank q ≠ 0%nat → <[i := CDeliver todo]> s.(lf_closers) !! j = Some q → j = i ∧ q = CDeliver todo) as Hwin.
  { intros j q Hr Hj. destruct (Hlk _ _ Hj) as [?|[Hne H1]]; [done|]. destruct Hne. by eapply I9. }
  unfold shared in I3. injection I3 as Hcc Hcd Hsk Hur Hoc.
  split; try done; cbn; try lia.
  - unfold shared. cbn. by rewrite Hcc, Hcd, Hsk, Hur, Hoc.
  - intros Hs. destruct (I4 Hs) as (Hc & _). unfold at_pc in Hi. by rewrite Hc in Hi.
  - intros j q Hj. destruct (Hlk _ _ Hj) as [[-> ->]|[_ H1]]; [done|by eapply I8].
  - intros j k q q' Hj Hk Hq Hq'. destruct (Hwin _ _ Hq Hj) as [-> _], (Hwin _ _ Hq' Hk) as [-> _]. done.
  - intros _. exists i, (CDeliver todo). split; [by apply list_lookup_insert_eq|done].
  - intros j t Hj. destruct (Hwin j (CDeliver t) (Nat.neq_succ_0 4) Hj) as [_ [= ->]]. rewrite <- (I11 _ _ Hi), <- app_assoc. done.
Qed.

(** the winner goes on from [pc], its [n]-th place, to [pc'] *)
#[local] Ltac advance n pc pc' := exists (S n); split; [|lia];
  eapply (advance_inv n _ _ _ pc pc' (S n)); [eassumption|eassumption|done|done|lia|done|..].
(** what [advance] leaves *)
#[local] Ltac fields :=
  first [done|lia|cbn; by auto using Close_begin_reach, Close_fence_reach
        |unfold flags, shared; cbn; repeat match goal with
           | H : cn_closed _ = _ |- _ => rewrite H | H : cn_nil _ = _ |- _ => rewrite H
           | H : lf_closeCh _ = _ |- _ => rewrite H | H : lf_closeDone _ = _ |- _ => rewrite H | H : lf_sock _ = _ |- _ => rewrite H
           | H : lf_uring _ = _ |- _ => rewrite H | H : lf_onClose _ = _ |- _ => rewrite H end; reflexivity
        |intros _; match goal with H : (_ ≤ _)%nat → _ |- _ => apply H; lia end
        |by intros _ t; match goal with H : ∀ t, (8 ≤ _)%nat → _ |- _ => apply H; lia end].

(** how far the winner is after a step *)
Lemma closer_inv i tp s s' : closer_step E i s s' → life_inv tp s → ∃ tp', life_inv tp' s' ∧ (tp ≤ tp')%nat.
Proof using.
  intros Hstep Hinv. pose proof Hinv as [I1 I2 I3 I4 I5 I6 I7 I8 I9 I10 I11 I12 I13 I14].
  unfold shared in I3. injection I3 as Hcc Hcd Hsk Hur Hoc. unfold flags in I2. injection I2 as Hcl Hnl.
  assert (s.(lf_conn).(cn_closed) = false → tp = 0%nat) as H0 by (rewrite Hcl; intros ?%bool_decide_eq_false; lia).
  assert (s.(lf_conn).(cn_closed) = true → (0 < tp)%nat) as H1 by (rewrite Hcl; by intros ?%bool_decide_eq_true).
  destruct Hstep as [s Hi Hc|s Hi Hc|s Hi Hc|s Hi|s Hi Hh|s Hi Hm|s Hi Hf|s st todo Hi|s Hi|s Hi Hw|s Hi Hm|s Hi|s Hi|s Hi];
    pose proof (I8 _ _ Hi) as Ha; cbn [pc_at rank] in Ha; try subst tp.
  - pose proof (H0 Hc) as ->. advance 0%nat CStart CChan; fields.
  - exists tp. split; [|done]. eapply lost_inv; [done|exact Hi|done..|]. by apply H1.
  - rewrite Hc in Hcd. symmetry in Hcd. apply bool_decide_eq_true in Hcd. exists tp. split; [|done].
    eapply lost_inv; [done|exact Hi|done..|]. cbn. destruct (I10 Ha) as (j & q & _ & <-). destruct q; cbn in *; lia.
  - advance 1%nat CChan CGoAway; fields.
  - destruct (Close_goaway_reach _ I1) as [Hg1 Hg2]. advance 2%nat CGoAway CDrain; try fields.
    change (flags (Close_goaway E (lf_conn s)) = (bool_decide (1 ≤ 3)%nat, bool_decide (5 ≤ 3)%nat)). rewrite Hg2. fields.
  - advance 3%nat CDrain CFence; fields.
  - advance 4%nat CFence (CDeliver (Close_fence E (lf_conn s)).2); try fields; [exact (Close_fence_reach _ I1)|].
    intros todo [= <-]. change (s.(lf_ended) ++ (deliverClose <$> (Close_fence E (lf_conn s)).2) = deliverClose <$> (Close_fence E (lf_conn s)).2).
    by rewrite I12 by lia.
  - exists 5%nat. split; [|done]. by apply deliver_inv.
  - advance 5%nat (CDeliver []) CWait; try fields. intros _. cbn. rewrite <- (I11 _ _ Hi). by rewrite app_nil_r.
  - advance 6%nat CWait CUring; fields.
  - advance 7%nat CUring CSock; try fields. intros _ t. cbn. by rewrite Hm.
  - advance 8%nat CSock COnClose; fields.
  - advance 9%nat COnClose CReturn; fields.
  - advance 10%nat CReturn CDone; fields.
Qed.

(** ** Every state *)
Lemma own_inv tp s s' : own_step E s s' → life_inv tp s → ∃ tp', life_inv tp' s' ∧ (tp ≤ tp')%nat.
Proof using HE.
  intros Hstep Hi. pose proof (li_reach _ _ Hi) as Hr. pose proof (li_bytes _ _ Hi) as Hb.
  destruct Hstep as [s s' Hs H|s s' Hs H|s s' Hs H|s s' H|s s' H|i s s' H|s Hs H]; try by eapply closer_inv.
  all: exists tp; split; [|done]; eapply keeps_inv; [|exact Hi].
  - by apply reader_keeps.
  - by apply resender_keeps.
  - by apply keeper_keeps.
  - by apply forward_keeps.
  - by apply send_keeps.
  - by apply goaway_keeps.
Qed.
Lemma call_inv k tp s s' : call_step E k s s' → life_inv tp s → life_inv tp s'.
Proof using HE.
  intros Hstep Hi. pose proof (li_reach _ _ Hi) as Hr. pose proof (li_bytes _ _ Hi) as Hb.
  destruct Hstep as [s Hs|s Hs|s buf Hs Hf Hbuf|s op c' Hs Ha Hop Hc].
  - by apply start_inv.
  - eapply keeps_inv; [|exact Hi]. by apply goaway_keeps.
  - eapply keeps_inv; [|exact Hi]. split; try done; [by right|by left|]. destruct Hb as [B1 B2]. split; cbn; [done|]. intros b [[= <-]|?]; done.
  - eapply keeps_inv; [|exact Hi]. by eapply app_keeps.
Qed.
Lemma life_step_inv tp s s' : life_step E s s' → life_inv tp s → ∃ tp', life_inv tp' s' ∧ (tp ≤ tp')%nat.
Proof using HE.
  intros [H|[[Hs H]|[k H]]] Hi; [by eapply own_inv| |]; exists tp; (split; [|done]); [|by eapply call_inv].
  eapply keeps_inv; [|exact Hi]. apply kernel_keeps; [apply Hi|apply Hi|done|done].
Qed.
End inv.

Lemma alive_inv E u s : env_ok E → alive E u s → ∃ tp, life_inv E u tp s.
Proof.
  intros HE Hs. assert (life_inv E u 0 (newLife E u)) as H0 by apply new_inv. revert H0. generalize 0%nat.
  induction Hs as [s|s s1 s2 H1 _ IH]; intros tp Hi; [by exists tp|].
  destruct (life_step_inv E HE u tp s s1 H1 Hi) as (tp' & Hi' & _). by eapply IH.
Qed.
