(* ===== verification/Teardown.v ===== *)
(** * Tearing a connection down

    What [Close] guarantees to its callers and to the connection's
    goroutines, and that it comes to an end. *)
From S2P Require Import Prelude Errors Frame Float64 Pacer Options Ring StreamRecv Retransmit RetransmitSpec RetransmitRefine.
From S2P Require Import StreamSend SendRule Estimator SendBatch BatchInv SendFifo Connection ConnLemmas Termination ConnBooks ConnInv ConnOps ConnRun ConnFlags Lifecycle LifeInv.

(** ** The resend worker runs out of work *)
Section service.
Context (E : cenv).
Implicit Types (c : Connection).

Lemma serviceLoop_empties fuel c q c' q' : head_ok c → serviceLoop E fuel c q = Some (c', q') → backlog c' = [] ∧ head_ok c'.
Proof.
  revert c q. induction fuel as [|fuel IH]; intros c q Hh; [done|]. cbn [serviceLoop].
  pose proof (popResend_spec c Hh) as Hp. destruct (popResend c) as [c1 [r|]].
  - destruct Hp as (Hh1 & _). pose proof (resendOne_queue E c1 r q) as [Hq1 Hq2]. destruct (resendOne E c1 r q) as [c2 q2]. cbn in Hq1, Hq2.
    apply IH. unfold head_ok in *. by rewrite Hq1, Hq2.
  - destruct Hp as (Hh1 & _ & _ & Hb). intros [= <- _]. by split; [apply Hb|].
Qed.
Lemma serviceResends_empties c c' q : head_ok c → serviceResends E c = Some (c', q) → backlog c' = [] ∧ head_ok c'.
Proof.
  intros Hh. unfold serviceResends. destruct (serviceLoop _ _ _ _) as [[c1 q1]|] eqn:Hs; [|done]. cbn [mbind option_bind].
  apply serviceLoop_empties in Hs; [|done]. intros [= <- _]. destruct q1; [|done]. unfold tx_do'.
  pose proof (sends_fields _ _ (tx_do_sends (SendBatch.flushSend (ce_tx E)) c1)) as (_ & _ & _ & _ & _ & _ & _ & H1 & H2 & _).
  unfold backlog, head_ok in *. by rewrite H1, H2.
Qed.
Lemma serviceResends_idle c : head_ok c → backlog c = [] → ∃ c', serviceResends E c = Some (c', false).
Proof.
  intros Hh Hb. unfold serviceResends. cbn [serviceLoop]. pose proof (popResend_spec c Hh) as Hp.
  destruct (popResend c) as [c1 [r|]]; [|cbn; by eauto]. destruct Hp as (_ & _ & Hp & _). by rewrite Hb in Hp.
Qed.
End service.

(** ** Schedules *)
Section schedule.
Context (E : cenv) (HE : env_ok E) (u : bool).
Implicit Types (s : life).
#[local] Abbreviation inv := (life_inv E u).

(** a step that is not the winner's *)
Definition calm s s' : Prop := own_step E s s' ∧ ∀ tp, inv tp s → inv tp s'.

Lemma calm_own s s' : rtc calm s s' → rtc (own_step E) s s'.
Proof. induction 1 as [|s1 s2 s3 [H _] _ IH]; [done|]. by eapply rtc_l. Qed.
Lemma calm_inv s s' tp : rtc calm s s' → inv tp s → inv tp s'.
Proof. induction 1 as [|s1 s2 s3 [_ H] _ IH]; [done|]. intros Hi. by apply IH, H. Qed.

Lemma calm_send s s' : send_step s s' → calm s s'.
Proof using. intros H. split; [by apply os_send|]. intros tp Hi. eapply keeps_inv; [|exact Hi]. apply send_keeps; [apply Hi..|done]. Qed.
Lemma calm_forward s s' : forward_step E s s' → calm s s'.
Proof using HE. intros H. split; [by apply os_forward|]. intros tp Hi. eapply keeps_inv; [|exact Hi]. apply (forward_keeps E HE); [apply Hi..|done]. Qed.
Lemma calm_reader s s' : s.(lf_started) = true → reader_step E s s' → calm s s'.
Proof using HE. intros Hs H. split; [by apply os_reader|]. intros tp Hi. eapply keeps_inv; [|exact Hi]. apply (reader_keeps E HE); [apply Hi..|done|done]. Qed.
Lemma calm_resender s s' : s.(lf_started) = true → resender_step E s s' → calm s s'.
Proof using HE. intros Hs H. split; [by apply os_resender|]. intros tp Hi. eapply keeps_inv; [|exact Hi]. apply (resender_keeps E HE); [apply Hi..|done|done]. Qed.
Lemma calm_keeper s s' : s.(lf_started) = true → keeper_step E s s' → calm s s'.
Proof using HE. intros Hs H. split; [by apply os_keeper|]. intros tp Hi. eapply keeps_inv; [|exact Hi]. apply (keeper_keeps E HE); [apply Hi..|done|done]. Qed.

(** an operation of the connection has a result *)
Lemma op_runs s tp op : inv tp s → op_ok s.(lf_conn) op → ∃ c', conn_step E s.(lf_conn) op = Some c'.
Proof using HE. intros Hi Hop. destruct (conn_step_ok E HE s.(lf_conn) op) as (c' & H & _); [apply reachable_ok; [done|apply Hi]|done|by exists c']. Qed.

(** whoever holds [sendMu] releases it *)
Lemma release_send s : ∃ s', rtc calm s s' ∧ s' = s <| lf_sendMu := None |>.
Proof using HE.
  destruct (lf_sendMu s) as [[t b]|] eqn:Hm.
  - assert (∃ s1, rtc calm s s1 ∧ s1 = s <| lf_sendMu := Some (t, false) |>) as (s1 & H1 & ->).
    { destruct b; eexists; (split; [|done]).
      - eapply rtc_once, calm_send, sd_send. done.
      - replace (s <| lf_sendMu := Some (t, false) |>) with s; [done|]. rewrite <- Hm. by destruct s. }
    eexists. split; [|done]. eapply rtc_r; [exact H1|]. exact (calm_send _ _ (sd_unlock (s <| lf_sendMu := Some (t, false) |>) t eq_refl)).
  - exists s. split; [done|]. rewrite <- Hm. by destruct s.
Qed.

(** what the progress of the winner says *)
Lemma inv_started tp s : inv tp s → (0 < tp)%nat → s.(lf_started) = true.
Proof. intros Hi Ht. destruct (lf_started s) eqn:Hs; [done|]. destruct (li_started _ _ _ _ Hi Hs) as [Hc _]. destruct (li_winner _ _ _ _ Hi Ht) as (i & pc & Hl & _). by rewrite Hc in Hl. Qed.
Lemma inv_closed tp s : inv tp s → (0 < tp)%nat → s.(lf_conn).(cn_closed) = true.
Proof. intros Hi Ht. pose proof (li_flags _ _ _ _ Hi) as Hf. unfold flags in Hf. rewrite bool_decide_true in Hf by lia. by injection Hf. Qed.
Lemma inv_closeCh tp s : inv tp s → (1 < tp)%nat → s.(lf_closeCh) = true.
Proof. intros Hi Ht. pose proof (li_shared _ _ _ _ Hi) as Hf. unfold shared in Hf. rewrite bool_decide_true in Hf by lia. by injection Hf. Qed.

(** [recvMu] is released by whoever dispatches *)
Lemma release_forward tp s : inv tp s →
  ∃ s', rtc calm s s' ∧ (∀ buf, s'.(lf_forward) ≠ FDispatch buf) ∧ s'.(lf_sendMu) = None ∧
    (s'.(lf_closers), s'.(lf_reader), s'.(lf_resender), s'.(lf_keeper)) = (s.(lf_closers), s.(lf_reader), s.(lf_resender), s.(lf_keeper)).
Proof using HE.
  intros Hi. destruct (release_send s) as (s1 & H1 & Hs1). pose proof (calm_inv _ _ tp H1 Hi) as Hi1.
  destruct (lf_forward s) as [|buf|buf] eqn:Hf; [exists s1; by subst s1; cbn; rewrite Hf..|].
  assert (lf_forward s1 = FDispatch buf) as Hf1 by (by subst s1).
  destruct (op_runs s1 tp (KForward buf) Hi1) as [c' Hc]; [cbn; eapply (li_bytes _ _ _ _ Hi1); by right|].
  eexists. split; [eapply rtc_r; [exact H1|]; apply calm_forward, (fw_dispatch E s1 buf c' Hf1); [by subst s1|done]|]. by subst s1.
Qed.
Lemma release_recv tp s : inv tp s → (0 < tp)%nat →
  ∃ s', rtc calm s s' ∧ recvMu_free s' = true ∧ s'.(lf_closers) = s.(lf_closers) ∧
    (s'.(lf_reader) = s.(lf_reader) ∨ s'.(lf_reader) = RLeft) ∧ (s'.(lf_resender), s'.(lf_keeper)) = (s.(lf_resender), s.(lf_keeper)).
Proof using HE.
  intros Hi Ht. destruct (release_forward tp s Hi) as (s1 & H1 & Hf & _ & [= Hcl Hrd Hrs Hkp]).
  pose proof (calm_inv _ _ tp H1 Hi) as Hi1. destruct (lf_reader s1) as [| | |msgs|] eqn:Hr1.
  4:{ exists (Done (s1 <| lf_reader := RLeft |>)). split.
      - eapply rtc_r; [exact H1|]. apply calm_reader; [by eapply inv_started|]. apply (rd_late E s1 msgs Hr1). by eapply inv_closed.
      - split_and!; [|done|by right|cbn; congruence]. unfold recvMu_free. cbn. destruct (lf_forward s1) eqn:?; [done..|]. by destruct (Hf buf). }
  all: exists s1; split_and!; [done| |done|left; congruence|congruence].
  all: unfold recvMu_free; rewrite Hr1; destruct (lf_forward s1) eqn:?; [done..|]; by destruct (Hf buf).
Qed.

(** ** The goroutines leave *)
Lemma inv_shut tp s : inv tp s → (4 < tp)%nat → s.(lf_sock) ≠ SockOpen.
Proof. intros Hi Ht. pose proof (li_shared _ _ _ _ Hi) as Hf. injection Hf as _ _ -> _ _. unfold sock_at. repeat case_decide; done || lia. Qed.
Lemma reader_leaves tp s : inv tp s → (4 < tp)%nat →
  ∃ s', rtc calm s s' ∧ s'.(lf_reader) = RLeft ∧ s'.(lf_closers) = s.(lf_closers) ∧ (s'.(lf_resender), s'.(lf_keeper)) = (s.(lf_resender), s.(lf_keeper)).
Proof using HE.
  intros Hi Ht. destruct (release_recv tp s Hi ltac:(lia)) as (s1 & H1 & Hfree & Hcl & _ & Hrest).
  pose proof (calm_inv _ _ tp H1 Hi) as Hi1. pose proof (inv_started _ _ Hi1 ltac:(lia)) as Hst. pose proof (inv_closed _ _ Hi1 ltac:(lia)) as Hc.
  pose proof (inv_shut _ _ Hi1 Ht) as Hsh.
  destruct (lf_reader s1) as [| |msgs|msgs|] eqn:Hr.
  - eexists. split; [eapply rtc_r; [exact H1|]; apply calm_reader, (rd_closed E s1); done|done].
  - eexists. split; [eapply rtc_r; [exact H1|]; apply calm_reader, (rd_shut E s1); done|done].
  - exists (Done (s1 <| lf_reader := RDispatch msgs |> <| lf_reader := RLeft |>)). split; [|done]. etrans; [exact H1|].
    eapply rtc_l; [apply calm_reader, (rd_lock E s1 msgs Hr Hfree); done|]. eapply rtc_once, calm_reader, (rd_late E _ msgs); done.
  - unfold recvMu_free in Hfree. by rewrite Hr in Hfree.
  - by exists s1.
Qed.

(** what the other goroutines see of a resender's or keeper's steps *)
Definition others s : reader_pc * list closer_pc := (s.(lf_reader), s.(lf_closers)).

Lemma inv_head tp s : inv tp s → head_ok s.(lf_conn).
Proof using HE. intros Hi. apply (ti_head E). apply (ck_table E _ (reachable_ok E HE _ ltac:(apply Hi))). Qed.

Lemma resender_idles tp s : inv tp s → (0 < tp)%nat → s.(lf_resender) = WService → s.(lf_sendMu) = None →
  ∃ s', rtc calm s s' ∧ s'.(lf_resender) = WSelect ∧ others s' = others s ∧ s'.(lf_keeper) = s.(lf_keeper).
Proof using HE.
  intros Hi Ht Hr Hm. pose proof (inv_started _ _ Hi Ht) as Hst. pose proof (inv_head _ _ Hi) as Hh.
  destruct (serviceResends_total E s.(lf_conn) Hh) as (c1 & q & H1).
  assert (holds s TResender = false) as Hf by (unfold holds; by rewrite Hm).
  pose proof (calm_resender s _ Hst (rs_service E s c1 q Hr Hf H1)) as Hc1. destruct q; [|by eexists; split; [by apply rtc_once|]].
  destruct (serviceResends_empties E _ _ _ Hh H1) as [Hb Hh1]. destruct (serviceResends_idle E c1 Hh1 Hb) as (c2 & H2).
  set (s1 := set_conn s c1 <| lf_resender := WService |>) in *.
  assert (holds s1 TResender = false) as Hf1 by (unfold holds, s1; cbn; by rewrite Hm).
  eexists. split; [eapply rtc_l; [exact Hc1|]; apply rtc_once, calm_resender, (rs_service E s1 c2 false eq_refl Hf1 H2); done|done].
Qed.
Lemma resender_leaves tp s : inv tp s → (1 < tp)%nat →
  ∃ s', rtc calm s s' ∧ s'.(lf_resender) = WLeft ∧ others s' = others s ∧ s'.(lf_keeper) = s.(lf_keeper).
Proof using HE.
  intros Hi Ht.
  assert (∀ s, inv tp s → s.(lf_resender) = WSelect → ∃ s', rtc calm s s' ∧ s'.(lf_resender) = WLeft ∧ others s' = others s ∧ s'.(lf_keeper) = s.(lf_keeper)) as Hsel.
  { intros s0 H0 Hp. eexists. split; [apply rtc_once, calm_resender, (rs_stop E s0 Hp); [exact (inv_started _ _ H0 ltac:(lia))|by eapply inv_closeCh]|done]. }
  assert (∀ s, inv tp s → s.(lf_resender) = WService → s.(lf_sendMu) = None → ∃ s', rtc calm s s' ∧ s'.(lf_resender) = WLeft ∧ others s' = others s ∧ s'.(lf_keeper) = s.(lf_keeper)) as Hser.
  { intros s0 H0 Hp Hm. destruct (resender_idles tp s0 H0 ltac:(lia) Hp Hm) as (s1 & H1 & Hp1 & Ho1 & Hk1).
    destruct (Hsel s1 (calm_inv _ _ _ H1 H0) Hp1) as (s2 & H2 & ? & ? & ?). exists s2. split; [by etrans|]. split_and!; congruence. }
  destruct (release_send s) as (s1 & H1 & Hs1). pose proof (calm_inv _ _ tp H1 Hi) as Hi1.
  assert (∃ s', rtc calm s1 s' ∧ s'.(lf_resender) = WLeft ∧ others s' = others s1 ∧ s'.(lf_keeper) = s1.(lf_keeper)) as (s2 & H2 & Hp2 & Ho2 & Hk2).
  { destruct (lf_resender s1) eqn:Hp; [apply Hser; [done|done|by subst s1]|by apply Hsel| |by exists s1].
    destruct (op_runs s1 tp KTick Hi1 I) as [c' Hc]. set (s2 := set_conn s1 c' <| lf_resender := WService |>).
    assert (calm s1 s2) as Hc2 by (apply calm_resender, (rs_scan E s1 c' Hp); [exact (inv_started _ _ Hi1 ltac:(lia))|by subst s1|done]).
    destruct (Hser s2 (proj2 Hc2 _ Hi1)) as (s3 & H3 & ? & ? & ?); [done|by subst s2 s1|]. exists s3. split; [by eapply rtc_l|done]. }
  exists s2. split; [by etrans|]. subst s1. split_and!; done.
Qed.

(** the keep-alive loop may start one more [Close] on its way out *)
Lemma keeper_leaves tp s : inv tp s → (1 < tp)%nat →
  ∃ s', rtc calm s s' ∧ s'.(lf_keeper) = PLeft ∧ s'.(lf_reader) = s.(lf_reader) ∧ s'.(lf_resender) = s.(lf_resender) ∧
    s.(lf_closers) `prefix_of` s'.(lf_closers).
Proof using HE.
  intros Hi Ht. destruct (release_send s) as (s1 & H1 & Hs1). pose proof (calm_inv _ _ tp H1 Hi) as Hi1.
  pose proof (inv_started _ _ Hi1 ltac:(lia)) as Hst. pose proof (inv_closeCh _ _ Hi1 Ht) as Hch.
  destruct (lf_keeper s1) eqn:Hk; [| |exists s1; by subst s1].
  - eexists. split; [eapply rtc_r; [exact H1|]; by apply calm_keeper, (kp_stop E s1 Hk)|by subst s1].
  - destruct (op_runs s1 tp KKeepAlive Hi1 I) as [c' Hc]. destruct (decide (maxMissedPongs < c'.(cn_missedPongs))) as [Hm|Hm].
    + eexists. split; [eapply rtc_r; [exact H1|]; by apply calm_keeper, (kp_give_up E s1 c' Hk Hc Hm)|]. subst s1. split_and!; try done.
      cbn. by apply prefix_app_r.
    + set (s2 := set_conn s1 c' <| lf_keeper := PSelect |>).
      assert (calm s1 s2) as Hc2 by (apply calm_keeper, (kp_ping E s1 c' Hk); [done|by subst s1|done|lia]).
      eexists. split; [etrans; [exact H1|]; eapply rtc_l; [exact Hc2|]; by apply rtc_once, calm_keeper, (kp_stop E s2 eq_refl)|].
      by subst s2 s1.
Qed.

Lemma workers_leave tp s : inv tp s → (4 < tp)%nat →
  ∃ s', rtc calm s s' ∧ s'.(lf_doneWg) = 0 ∧ s.(lf_closers) `prefix_of` s'.(lf_closers).
Proof using HE.
  intros Hi Ht. destruct (reader_leaves tp s Hi ltac:(lia)) as (s1 & H1 & Hr1 & Hc1 & _). pose proof (calm_inv _ _ tp H1 Hi) as Hi1.
  destruct (resender_leaves tp s1 Hi1 ltac:(lia)) as (s2 & H2 & Hr2 & [= Hrd2 Hc2] & _). pose proof (calm_inv _ _ tp H2 Hi1) as Hi2.
  destruct (keeper_leaves tp s2 Hi2 ltac:(lia)) as (s3 & H3 & Hk3 & Hrd3 & Hrs3 & Hc3). pose proof (calm_inv _ _ tp H3 Hi2) as Hi3.
  exists s3. split; [by etrans; [exact H1|]; etrans|]. split; [|by rewrite <- Hc1, <- Hc2].
  rewrite (li_wg _ _ _ _ Hi3), (inv_started _ _ Hi3) by lia. unfold working. by rewrite Hk3, Hrd3, Hrs3, Hrd2, Hr1, Hr2.
Qed.

(** ** The winner goes on *)
Lemma at_goto s i pc pc' : at_pc s i pc → at_pc (goto s i pc') i pc'.
Proof. intros Hi. apply list_lookup_insert_eq. by eapply lookup_lt_Some. Qed.

Lemma closer_to tp s s' i pc' : inv tp s → closer_step E i s s' → at_pc s' i pc' → rank pc' ≠ 0%nat →
  rtc (own_step E) s s' ∧ inv (rank pc') s'.
Proof.
  intros Hi Hs Hp Hr. split; [by apply rtc_once, (os_closer E i)|]. destruct (closer_inv E u i tp s s' Hs Hi) as (tp' & Hi' & _).
  by rewrite (pc_at_rank _ _ Hr (li_closers _ _ _ _ Hi' _ _ Hp)).
Qed.
Lemma closer_goes tp s s1 x i pc pc' : inv tp s → rtc calm s s1 → closer_step E i s1 (goto x i pc') → at_pc x i pc → rank pc' ≠ 0%nat →
  ∃ s', rtc (own_step E) s s' ∧ inv (rank pc') s'.
Proof.
  intros Hi H1 Hs Hp Hr. exists (goto x i pc'). destruct (closer_to tp s1 _ i pc' (calm_inv _ _ _ H1 Hi) Hs (at_goto _ _ _ _ Hp) Hr) as [H2 H3].
  split; [|done]. etrans; [by apply calm_own|done].
Qed.

Lemma delivers s i todo : inv 5 s → at_pc s i (CDeliver todo) → ∃ s', rtc (own_step E) s s' ∧ inv 6 s'.
Proof.
  revert s. induction todo as [|st todo IH]; intros s Hi Hp.
  - destruct (closer_to 5 s (goto s i CWait) i CWait Hi (cl_delivered E i s Hp) (at_goto _ _ _ _ Hp)) as [H1 H2]; [done|]. by eexists.
  - pose proof (cl_deliver E i s st todo Hp) as Hs. pose proof (at_goto (s <| lf_ended := s.(lf_ended) ++ [deliverClose st] |>) i _ (CDeliver todo) Hp) as Hp'.
    destruct (closer_to 5 s _ i (CDeliver todo) Hi Hs Hp') as [H1 H2]; [done|]. destruct (IH _ H2 Hp') as (s' & H3 & H4).
    exists s'. split; [by etrans|done].
Qed.

Lemma winner_goes tp s : inv tp s → (0 < tp < 11)%nat → ∃ s', rtc (own_step E) s s' ∧ inv (S tp) s'.
Proof using HE.
  intros Hi [Ht Ht']. destruct (li_winner _ _ _ _ Hi Ht) as (i & pc & Hp & Hr).
  destruct (release_send s) as (s1 & H1 & Hs1). assert (at_pc s1 i pc) as Hp1 by (by subst s1).
  assert (holds s1 (TCloser i) = false) as Hh by (by subst s1). assert (lf_sendMu s1 = None) as Hm by (by subst s1).
  destruct pc as [| | | | | | |todo| | | | | |]; cbn in Hr; subst tp; try lia.
  - by apply (closer_goes 1 s s1 _ i CChan CGoAway Hi H1 (cl_chan E i s1 Hp1)).
  - by apply (closer_goes 2 s s1 _ i CGoAway CDrain Hi H1 (cl_goaway E i s1 Hp1 Hh)).
  - by apply (closer_goes 3 s s1 _ i CDrain CFence Hi H1 (cl_drain E i s1 Hp1 Hm)).
  - destruct (release_recv 4 s Hi Ht) as (s2 & H2 & Hfree & Hcl & _). assert (at_pc s2 i CFence) as Hp2 by (unfold at_pc; by rewrite Hcl).
    by apply (closer_goes 4 s s2 _ i CFence _ Hi H2 (cl_fence E i s2 Hp2 Hfree)).
  - by apply (delivers s i todo).
  - destruct (workers_leave 6 s Hi ltac:(lia)) as (s2 & H2 & Hwg & Hcl). assert (at_pc s2 i CWait) as Hp2 by (exact (prefix_lookup_Some _ _ _ _ Hp Hcl)).
    by apply (closer_goes 6 s s2 _ i CWait CUring Hi H2 (cl_wait E i s2 Hp2 Hwg)).
  - by apply (closer_goes 7 s s1 _ i CUring CSock Hi H1 (cl_uring E i s1 Hp1 Hm)).
  - by apply (closer_goes 8 s s1 _ i CSock COnClose Hi H1 (cl_sock E i s1 Hp1)).
  - by apply (closer_goes 9 s s1 _ i COnClose CReturn Hi H1 (cl_onclose E i s1 Hp1)).
  - by apply (closer_goes 10 s s1 _ i CReturn CDone Hi H1 (cl_return E i s1 Hp1)).
Qed.

Lemma winner_returns tp s : inv tp s → (0 < tp)%nat → ∃ s', rtc (own_step E) s s' ∧ inv 11 s'.
Proof using HE.
  intros Hi Ht. assert (tp ≤ 11)%nat as Hle.
  { destruct (li_winner _ _ _ _ Hi Ht) as (i & pc & _ & <-). destruct pc; cbn; lia. }
  remember (11 - tp)%nat as n eqn:Hn. revert tp s Hi Ht Hle Hn. induction n as [|n IH]; intros tp s Hi Ht Hle Hn.
  - exists s. split; [done|]. by replace 11%nat with tp by lia.
  - destruct (winner_goes tp s Hi ltac:(lia)) as (s1 & H1 & Hi1). destruct (IH (S tp) s1 Hi1) as (s2 & H2 & Hi2); [lia..|].
    exists s2. split; [by etrans|done].
Qed.

(** ** The others return *)
Definition returned (pc : closer_pc) : Prop := pc = CDone ∨ pc = CLeft.

Lemma loser_returns s i pc : inv 11 s → at_pc s i pc → ∃ s', rtc (own_step E) s s' ∧ inv 11 s' ∧
  (∃ pc', returned pc' ∧ s'.(lf_closers) = <[i := pc']> s.(lf_closers)).
Proof.
  intros Hi Hp.
  assert (∀ s, inv 11 s → at_pc s i CLost → ∃ s', rtc (own_step E) s s' ∧ inv 11 s' ∧
    (∃ pc', returned pc' ∧ s'.(lf_closers) = <[i := pc']> s.(lf_closers))) as Hlate.
  { intros s0 H0 Hp0. pose proof (li_shared _ _ _ _ H0) as Hsh. injection Hsh as _ Hcd _. exists (goto s0 i CLeft). split_and!.
    - apply rtc_once, (os_closer E i). by apply cl_late.
    - by eapply lost_inv.
    - exists CLeft. split; [by right|done]. }
  pose proof (li_closers _ _ _ _ Hi _ _ Hp) as Ha. destruct pc; cbn in Ha; try done.
  - assert (inv 11 (goto s i CLost)) as H1 by (eapply lost_inv; [done|exact Hp|done|done|cbn; lia]).
    destruct (Hlate _ H1 (at_goto _ _ _ _ Hp)) as (s2 & H2 & Hi2 & pc' & Hr & Hc). exists s2. split_and!; [|done|].
    + eapply rtc_l; [|exact H2]. apply (os_closer E i), (cl_lose E i s Hp). by eapply (inv_closed 11); [|lia].
    + exists pc'. split; [done|]. rewrite Hc. cbn. by rewrite list_insert_insert_eq.
  - by apply Hlate.
  - exists s. split_and!; [done|done|]. exists CLeft. split; [by right|]. by rewrite list_insert_id.
  - exists s. split_and!; [done|done|]. exists CDone. split; [by left|]. by rewrite list_insert_id.
Qed.

Lemma losers_return n s : inv 11 s → (n ≤ length s.(lf_closers))%nat → ∃ s', rtc (own_step E) s s' ∧ inv 11 s' ∧
  length s'.(lf_closers) = length s.(lf_closers) ∧ ∀ i pc, (i < n)%nat → s'.(lf_closers) !! i = Some pc → returned pc.
Proof.
  intros Hi Hn. induction n as [|n IH]; [exists s; split_and!; [done|done|done|lia]|].
  destruct (IH ltac:(lia)) as (s1 & H1 & Hi1 & Hl1 & Hr1). destruct (lookup_lt_is_Some_2 s1.(lf_closers) n ltac:(lia)) as [pc Hpc].
  destruct (loser_returns s1 n pc Hi1 Hpc) as (s2 & H2 & Hi2 & pc' & Hr & Hc). exists s2. split_and!; [by etrans|done|rewrite Hc, length_insert; lia|].
  intros i q Hin. rewrite Hc. destruct (decide (n = i)) as [<-|Hne].
  - rewrite list_lookup_insert_eq by lia. by intros [= <-].
  - rewrite list_lookup_insert_ne by done. apply Hr1. lia.
Qed.

(** the first call to get through *)
Lemma somebody_wins tp s : inv tp s → s.(lf_closers) ≠ [] → ∃ s' tp', rtc (own_step E) s s' ∧ inv tp' s' ∧ (0 < tp')%nat.
Proof.
  intros Hi Hne. destruct (decide (0 < tp)%nat) as [Ht|Ht]; [by exists s, tp|]. assert (tp = 0%nat) as -> by lia.
  destruct (lf_closers s) as [|pc l] eqn:Hl; [done|]. assert (at_pc s 0 pc) as Hp by (unfold at_pc; by rewrite Hl).
  pose proof (li_closers _ _ _ _ Hi _ _ Hp) as Ha. destruct pc; cbn in Ha; try done; try lia.
  pose proof (li_flags _ _ _ _ Hi) as Hf. injection Hf as Hc _.
  destruct (closer_goes 0 s s _ 0 CStart CChan Hi (rtc_refl _ _) (cl_win E 0 s Hp Hc)) as (s' & H1 & H2); [done|done|].
  exists s', 1%nat. split_and!; [done|done|lia].
Qed.

(** every call returns *)
Lemma all_return tp s : inv tp s → s.(lf_closers) ≠ [] →
  ∃ s', rtc (own_step E) s s' ∧ Forall returned s'.(lf_closers) ∧ s'.(lf_sock) = SockClosed.
Proof using HE.
  intros Hi Hne. destruct (somebody_wins tp s Hi Hne) as (s1 & tp1 & H1 & Hi1 & Ht1).
  destruct (winner_returns tp1 s1 Hi1 Ht1) as (s2 & H2 & Hi2).
  destruct (losers_return (length s2.(lf_closers)) s2 Hi2 (le_n _)) as (s3 & H3 & Hi3 & Hl & Hr).
  exists s3. split_and!; [by etrans; [exact H1|]; etrans| |].
  - apply Forall_lookup. intros i pc Hpc. eapply Hr; [|exact Hpc]. rewrite <- Hl. by eapply lookup_lt_Some.
  - pose proof (li_shared _ _ _ _ Hi3) as Hsh. by injection Hsh.
Qed.

(** ** The fallback path comes to an end, on an open connection too *)
Lemma reader_yields tp s : inv tp s → s.(lf_started) = true → ∃ s', rtc calm s s' ∧ (∀ msgs, s'.(lf_reader) ≠ RDispatch msgs) ∧ s'.(lf_forward) = s.(lf_forward).
Proof using HE.
  intros Hi Hst. destruct (lf_reader s) as [| | |msgs|] eqn:Hr; try (by exists s; split_and!; [done|congruence|done]).
  destruct (cn_closed (lf_conn s)) eqn:Hc.
  { eexists. split; [apply rtc_once, calm_reader, (rd_late E s msgs Hr Hc); done|]. by split. }
  destruct (release_send s) as (s1 & H1 & Hs1). pose proof (calm_inv _ _ tp H1 Hi) as Hi1.
  assert (lf_reader s1 = RDispatch msgs) as Hr1 by (by subst s1).
  destruct (op_runs s1 tp (KReceive msgs) Hi1) as [c' Hop]; [cbn; eapply (li_bytes _ _ _ _ Hi1); by right|].
  eexists. split; [eapply rtc_r; [exact H1|]; apply calm_reader, (rd_dispatch E s1 msgs c' Hr1); by subst s1|]. by subst s1.
Qed.
Lemma forward_ends tp s : inv tp s → s.(lf_started) = true → ∃ s', rtc calm s s' ∧ s'.(lf_forward) = FIdle.
Proof using HE.
  intros Hi Hst.
  assert (∀ s buf, inv tp s → s.(lf_forward) = FDispatch buf → ∃ s', rtc calm s s' ∧ s'.(lf_forward) = FIdle) as Hd.
  { intros s0 buf H0 Hf. destruct (release_send s0) as (s1 & H1 & Hs1). pose proof (calm_inv _ _ tp H1 H0) as Hi1.
    assert (lf_forward s1 = FDispatch buf) as Hf1 by (by subst s1).
    destruct (op_runs s1 tp (KForward buf) Hi1) as [c' Hc]; [cbn; eapply (li_bytes _ _ _ _ Hi1); by right|].
    eexists. split; [eapply rtc_r; [exact H1|]; apply calm_forward, (fw_dispatch E s1 buf c' Hf1); [by subst s1|done]|done]. }
  destruct (lf_forward s) as [|buf|buf] eqn:Hf; [by exists s| |by eapply Hd].
  destruct (reader_yields tp s Hi Hst) as (s1 & H1 & Hr1 & Hf1). pose proof (calm_inv _ _ tp H1 Hi) as Hi1. rewrite Hf in Hf1.
  assert (recvMu_free s1 = true) as Hfree by (unfold recvMu_free; rewrite Hf1; destruct (lf_reader s1) eqn:Hr; try done; by destruct (Hr1 msgs)).
  pose proof (calm_forward _ _ (fw_lock E s1 buf Hf1 Hfree)) as Hc.
  destruct (Hd _ buf (proj2 Hc tp Hi1) eq_refl) as (s2 & H2 & Hf2). exists s2. split; [|done]. etrans; [exact H1|]. by eapply rtc_l.
Qed.
End schedule.

(** ** What [Close] guarantees *)

(** C12: [Close] pulls nothing away from under a goroutine.  However the
    connection's three goroutines, the listener's, the application's and any
    number of calls of [Close] interleave: a goroutine in [RecvMMsg], or past
    the shutdown check of a flush, finds the socket's descriptor not yet
    closed and the ring's storage still there; when the descriptor is closed
    the three goroutines have left; at most one call does the tearing down,
    and [onClose] runs at most once; and a call of [Close] that has returned,
    whichever it is, returned after all of it was done: every stream that was
    on the table has been told, and the table stays empty. *)
Theorem teardown_safe E u s :
  env_ok E → alive E u s →
  (∀ t, s.(lf_sendMu) = Some (t, true) → s.(lf_sock) ≠ SockClosed ∧ s.(lf_uring) = u) ∧
  (s.(lf_reader) = RRecv → s.(lf_sock) ≠ SockClosed) ∧
  (s.(lf_sock) = SockClosed → s.(lf_reader) = RLeft ∧ s.(lf_resender) = WLeft ∧ s.(lf_keeper) = PLeft) ∧
  (s.(lf_onClose) ≤ 1)%nat ∧
  (∀ i pc, s.(lf_closers) !! i = Some pc → returned pc →
     s.(lf_sock) = SockClosed ∧ s.(lf_onClose) = 1%nat ∧ s.(lf_ended) = deliverClose <$> s.(lf_fenced) ∧ s.(lf_conn).(cn_streams) = ∅).
Proof.
  intros HE Hs. destruct (alive_inv E u s HE Hs) as [tp Hi]. pose proof (li_shared _ _ _ _ Hi) as Hsh. injection Hsh as _ _ Hsk Hur Hoc.
  assert (lf_sock s = SockClosed → 8 < tp)%nat as H9.
  { rewrite Hsk. unfold sock_at. destruct (decide (tp ≤ 4)%nat); [done|]. destruct (decide (tp ≤ 8)%nat); [done|lia]. }
  assert (lf_sock s = SockClosed → s.(lf_reader) = RLeft ∧ s.(lf_resender) = WLeft ∧ s.(lf_keeper) = PLeft) as Hleft.
  { intros H%H9. pose proof (li_wait _ _ _ _ Hi ltac:(lia)) as Hw. rewrite (li_wg _ _ _ _ Hi), (inv_started E u tp s Hi) in Hw by lia.
    unfold working in Hw. destruct (lf_reader s), (lf_resender s), (lf_keeper s); done. }
  split_and!; [| |done| |].
  - intros t Hm. assert (¬ (8 ≤ tp)%nat) as H8 by (intros H8; by eapply (li_send _ _ _ _ Hi t H8)).
    split; [intros ?%H9; lia|]. rewrite Hur. by rewrite decide_False.
  - intros Hr (Hl & _)%Hleft. congruence.
  - rewrite Hoc. case_decide; lia.
  - intros i pc Hpc Hret. assert (tp = 11%nat) as ->.
    { pose proof (li_closers _ _ _ _ Hi _ _ Hpc) as Ha. destruct Hret as [-> | ->]; cbn in Ha; lia. }
    split_and!; [done|done|by apply (li_ended _ _ _ _ Hi); lia|].
    apply (ti_nil E _ (ck_table E _ (reachable_ok E HE _ ltac:(apply Hi)))). pose proof (li_flags _ _ _ _ Hi) as Hf. by injection Hf.
Qed.

(** a stream is open; [Close] has fenced the input while an application's
    flush, past its shutdown check, is about to use the descriptor *)
Definition opened_conn : Connection := (OpenStream witness_E (newConnection witness_E)).1.
Lemma opened_open : opened_conn.(cn_closed) = false.
Proof. unfold opened_conn. rewrite (flags_closed _ _ (flags_marks _ _ (OpenStream_marks witness_E _))). reflexivity. Qed.
Definition run_1 : life := start witness_E (newLife witness_E true).
Lemma run_1_ids : op_ok run_1.(lf_conn) KOpen.
Proof. reflexivity. Qed.
Definition run_2 : life := set_conn run_1 opened_conn.
Definition run_3 : life := run_2 <| lf_closers := run_2.(lf_closers) ++ [CStart] |>.
Definition run_4 : life := goto (set_conn run_3 (Close_begin run_3.(lf_conn))) 0 CChan.
Definition run_5 : life := goto (run_4 <| lf_closeCh := true |>) 0 CGoAway.
Definition run_6 : life := goto (set_conn run_5 (Close_goaway witness_E run_5.(lf_conn))) 0 CDrain.
Definition run_7 : life := goto run_6 0 CFence.
Definition run_8 : life := run_7 <| lf_sendMu := Some (TApp, false) |>.
Definition run_9 : life := run_8 <| lf_sendMu := Some (TApp, true) |>.
Definition fenced_life : life :=
  goto (set_conn run_9 (Close_fence witness_E run_9.(lf_conn)).1 <| lf_sock := SockShut |> <| lf_fenced := (Close_fence witness_E run_9.(lf_conn)).2 |>)
    0 (CDeliver (Close_fence witness_E run_9.(lf_conn)).2).
Lemma fenced_alive : alive witness_E true fenced_life.
Proof.
  unfold alive. eapply rtc_l; [right; right; exists CallStart; exact (ca_start witness_E (newLife witness_E true) eq_refl)|].
  eapply rtc_l; [right; right; exists (CallOp KOpen); exact (ca_op witness_E run_1 KOpen opened_conn eq_refl I run_1_ids eq_refl)|].
  eapply rtc_l; [right; right; exists CallClose; exact (ca_close witness_E run_2 eq_refl)|].
  eapply rtc_l; [left; exact (os_closer _ 0 _ _ (cl_win _ 0 run_3 eq_refl opened_open))|].
  eapply rtc_l; [left; exact (os_closer _ 0 _ _ (cl_chan _ 0 run_4 eq_refl))|].
  eapply rtc_l; [left; exact (os_closer _ 0 _ _ (cl_goaway _ 0 run_5 eq_refl eq_refl))|].
  eapply rtc_l; [left; exact (os_closer _ 0 _ _ (cl_drain _ 0 run_6 eq_refl eq_refl))|].
  eapply rtc_l; [left; exact (os_send _ _ _ (sd_lock run_7 TApp eq_refl I))|].
  eapply rtc_l; [left; exact (os_send _ _ _ (sd_check run_8 TApp eq_refl eq_refl))|].
  eapply rtc_l; [left; exact (os_closer _ 0 _ _ (cl_fence _ 0 run_9 eq_refl eq_refl))|]. apply rtc_refl.
Qed.
Lemma teardown_safe_witness : alive witness_E true fenced_life ∧ size opened_conn.(cn_streams) = 1%nat ∧
  fenced_life.(lf_sock) ≠ SockClosed ∧ fenced_life.(lf_uring) = true.
Proof.
  destruct (teardown_safe witness_E true fenced_life witness_env_ok fenced_alive) as (H1 & _).
  split; [exact fenced_alive|]. split; [vm_compute; reflexivity|exact (H1 TApp eq_refl)].
Defined.

(** C15: [Close] comes to an end.  Whatever the connection is doing when
    [Close] is called, and however far other calls of it have come, the
    connection's goroutines and the calls themselves can run, with no help
    from the application, the peer or the kernel, until every call has
    returned and the descriptor is closed: no wait of [Close], for a mutex,
    for the goroutines or for another call, is for something that will not
    come.  In particular a [RecvMMsg] that is blocked is one that the
    shutdown of the socket ends: a receive never returns by itself here. *)
Theorem close_completes E u s :
  env_ok E → alive E u s → s.(lf_closers) ≠ [] →
  ∃ s', rtc (own_step E) s s' ∧ Forall returned s'.(lf_closers) ∧ s'.(lf_sock) = SockClosed.
Proof. intros HE Hs. destruct (alive_inv E u s HE Hs) as [tp Hi]. by apply (all_return E HE u tp). Qed.
Lemma close_completes_witness : ∃ s',
  rtc (own_step witness_E) fenced_life s' ∧ Forall returned s'.(lf_closers) ∧ s'.(lf_sock) = SockClosed.
Proof. apply (close_completes witness_E true fenced_life witness_env_ok fenced_alive). discriminate. Defined.

(** ** A receive error *)

(** once [readLoop] has left it stays away *)
Lemma reader_gone E s s' : rtc (life_step E) s s' → s.(lf_reader) = RLeft → s'.(lf_reader) = RLeft.
Proof.
  induction 1 as [|s1 s2 s3 Hs _ IH]; [done|]. intros Hr. apply IH. destruct Hs as [Hs|[[_ Hs]|[k Hs]]]; [|by destruct Hs; cbn in *; congruence|by destruct Hs].
  destruct Hs as [s s' _ H|s s' _ H|s s' _ H|s s' H|s s' H|i s s' H|s _ H]; destruct H; done || (cbn in *; congruence).
Qed.
(** An error of [RecvMMsg] other than [EINTR] (a connected UDP socket reports
    the peer's refusals there) ends [readLoop] and nothing else: the
    connection is open, nobody closes it, and it never hears its peer again. *)
Lemma read_error_deafens E u : ∃ s, alive E u s ∧ s.(lf_conn).(cn_closed) = false ∧ s.(lf_sock) = SockOpen ∧ s.(lf_closers) = [] ∧
  ∀ s', rtc (life_step E) s s' → s'.(lf_reader) = RLeft.
Proof.
  exists (Done (start E (newLife E u) <| lf_reader := RRecv |> <| lf_reader := RLeft |>)). split_and!; try done.
  - unfold alive. eapply rtc_l; [right; right; exists CallStart; exact (ca_start E (newLife E u) eq_refl)|].
    eapply rtc_l; [left; exact (os_reader E (start E (newLife E u)) _ eq_refl (rd_recv E (start E (newLife E u)) eq_refl eq_refl))|].
    apply rtc_once. right. left. exact (conj eq_refl (rd_error (start E (newLife E u) <| lf_reader := RRecv |>) eq_refl)).
  - intros s' H. by eapply reader_gone.
Qed.
