(* ===== verification/Listener.v ===== *)
(** * The listener ([listener.go])

    A listener owns an unconnected socket and a goroutine that reads it.  A
    handshake from an unknown peer makes a connection; what comes from a known
    one is forwarded to its connection.  The listener keeps its connections
    by their peers' addresses, hands new ones to [Accept], and closes them
    all when it is closed.

    - [w_lives] is every connection the listener has made, in order, each
      with its own life ([Lifecycle.v]); the listener's map and channel refer
      to them by their position.
    - The listener's goroutine and the calls of its [Close] are program
      counters, as in [Lifecycle.v].  A map read or write under [connMu] is
      one step.
    - A connection's [onClose] is [removeConnection]: it runs in the step
      that counts it ([lf_onClose]).
    - The kernel decides which datagrams arrive and from where ([key] is the
      sender's address as [unet.Address.String] prints it), whether a socket
      can be made ([lr_fail]) and whether it gets a ring. *)
From stdpp Require Import strings.
From S2P Require Import Prelude Errors Frame Float64 Pacer Options Ring StreamRecv Retransmit RetransmitSpec RetransmitRefine.
From S2P Require Import StreamSend SendRule Estimator SendBatch BatchInv SendFifo Connection ConnLemmas Termination ConnBooks ConnInv ConnOps ConnRun ConnFlags Lifecycle LifeInv Teardown.

(** ** State *)
Definition acceptChCap : Z := 64.

(** [readLoop]: at its head; in [Recvfrom]; with a datagram; in the fallback
    path of connection [i]; with connection [i] made, published, started; its
    answer not sent; in [conn.Close()], call [k] of it; before the offer;
    gone *)
Inductive lreader_pc :=
  | LTop
  | LRecv
  | LGot (key : string) (buf : list Z)
  | LForward (i : nat)
  | LPublish (i : nat)
  | LStart (i : nat)
  | LAck (i : nat)
  | LFailed (i : nat)
  | LCloseConn (i k : nat)
  | LOffer (i : nat)
  | LLeft.

(** [Close]: called; returned at once, having lost; and the winner, before
    each of its actions *)
Inductive lcloser_pc :=
  | GStart
  | GLost
  | GChan
  | GShutdown
  | GWait
  | GSock
  | GSnapshot
  | GClosing (todo : list nat)
  | GWaiting (i k : nat) (todo : list nat)       (* in [c.Close()], call [k] of connection [i] *)
  | GDone.
#[export] Instance lcloser_eq_dec : EqDecision lcloser_pc.
Proof. solve_decision. Defined.

(** a connection of the listener *)
Record lconn := mkLconn {
  lc_key : string;                     (* [remoteAddr.String()] *)
  lc_connID : Z;
  lc_env : cenv;
  lc_ring : bool;
  lc_life : life;
}.
#[export] Instance eta_lconn : Eta lconn := λ c, mkLconn (lc_key c) (lc_connID c) (lc_env c) (lc_ring c) (lc_life c).

Record world := mkWorld {
  w_closed : bool;
  w_closeCh : bool;                    (* closed *)
  w_sock : sock_state;
  w_doneWg : Z;
  w_conns : gmap string nat;
  w_nil : bool;                        (* [l.conns == nil] *)
  w_acceptCh : list nat;
  w_accepted : list nat;               (* handed out by [Accept], a history *)
  w_pacers : gmap positive WirePacer;
  w_reader : lreader_pc;
  w_closers : list lcloser_pc;
  w_lives : list lconn;
}.
#[export] Instance eta_world : Eta world :=
  λ w, mkWorld (w_closed w) (w_closeCh w) (w_sock w) (w_doneWg w) (w_conns w) (w_nil w) (w_acceptCh w) (w_accepted w) (w_pacers w)
    (w_reader w) (w_closers w) (w_lives w).

(** the connection id of a datagram that is a handshake *)
Definition handshake_of (buf : list Z) : option Z :=
  match decodeFrame buf with
  | Err _ => None
  | Ok f =>
      if negb (f.(f_ftype) =? frameHandshake) then None
      else match decodeHandshake f.(f_payload) with Ok connID => Some connID | Err _ => None end
  end.

Section listener.
Context (cf : config).
Implicit Types (w : world).

(** after [Listen], with the goroutine started *)
Definition newListener (pacers : gmap positive WirePacer) : world :=
  mkWorld false false SockOpen 1 ∅ false [] [] pacers LTop [] [].

Definition set_life w (i : nat) (c : lconn) (s : life) : world := w <| w_lives := <[i := c <| lc_life := s |>]> w.(w_lives) |>.
Definition conn_at w (i : nat) (c : lconn) : Prop := w.(w_lives) !! i = Some c.

(** the environment [newConnection] runs in, for a configuration *)
Definition conn_env (cfg : config) (E : cenv) : Prop := tx_cfg E.(ce_tx) = cfg ∧ E.(ce_isClient) = false ∧ env_ok E.

(** [createConnection], when its socket can be made *)
Definition createConnection w (now : Z) (key : string) (connID : Z) (E : cenv) (ring : bool) (w' : world) : Prop :=
  let '(store, cfg) := ensureWirePacer w.(w_pacers) now cf in
  conn_env cfg E ∧
  w' = w <| w_pacers := store |> <| w_lives := w.(w_lives) ++ [mkLconn key connID E ring (newLife E ring)] |>.

(** [removeConnection]; deleting from the nil map does nothing *)
Definition removeConnection w (key : string) : world := w <| w_conns := delete key w.(w_conns) |>.

(** ** [readLoop] *)
Definition lDone w : world := w <| w_doneWg := w.(w_doneWg) - 1 |>.

Inductive lreader_step : world → world → Prop :=
  | lr_closed w :
      w.(w_reader) = LTop → w.(w_closed) = true → lreader_step w (lDone (w <| w_reader := LLeft |>))
  | lr_recv w :
      w.(w_reader) = LTop → w.(w_closed) = false → lreader_step w (w <| w_reader := LRecv |>)
  | lr_shut w :                                       (* [Recvfrom] returns, without a datagram: the socket is shut down *)
      w.(w_reader) = LRecv → w.(w_sock) ≠ SockOpen → lreader_step w (w <| w_reader := LTop |>)
  | lr_found w key buf i c s' :
      w.(w_reader) = LGot key buf → w.(w_conns) !! key = Some i → conn_at w i c →
      call_step c.(lc_env) (CallForward buf) c.(lc_life) s' →
      lreader_step w (set_life w i c s' <| w_reader := LForward i |>)
  | lr_forwarded w i c :
      w.(w_reader) = LForward i → conn_at w i c → c.(lc_life).(lf_forward) = FIdle →
      lreader_step w (w <| w_reader := LTop |>)
  | lr_ignored w key buf :
      w.(w_reader) = LGot key buf → w.(w_conns) !! key = None → handshake_of buf = None →
      lreader_step w (w <| w_reader := LTop |>)
  | lr_fail w key buf connID :                       (* [createConnection] returned an error *)
      w.(w_reader) = LGot key buf → w.(w_conns) !! key = None → handshake_of buf = Some connID →
      lreader_step w (w <| w_reader := LTop |>)
  | lr_create w key buf connID now E ring w' :
      w.(w_reader) = LGot key buf → w.(w_conns) !! key = None → handshake_of buf = Some connID →
      createConnection w now key connID E ring w' →
      lreader_step w (w' <| w_reader := LPublish (length w.(w_lives)) |>)
  | lr_publish w i c :                                (* writing to the nil map would panic *)
      w.(w_reader) = LPublish i → conn_at w i c → w.(w_nil) = false →
      lreader_step w (w <| w_conns := <[c.(lc_key) := i]> w.(w_conns) |> <| w_reader := LStart i |>)
  | lr_start w i c s' :
      w.(w_reader) = LStart i → conn_at w i c → call_step c.(lc_env) CallStart c.(lc_life) s' →
      lreader_step w (set_life w i c s' <| w_reader := LAck i |>)
  | lr_ack w i c s' :
      w.(w_reader) = LAck i → conn_at w i c → call_step c.(lc_env) (CallOp KHandshakeAck) c.(lc_life) s' →
      (tx_do (sendControlFrame c.(lc_env).(ce_tx) frameHandshake 0 0) c.(lc_life).(lf_conn)).2 = None →
      lreader_step w (set_life w i c s' <| w_reader := LOffer i |>)
  | lr_ack_failed w i c s' e :
      w.(w_reader) = LAck i → conn_at w i c → call_step c.(lc_env) (CallOp KHandshakeAck) c.(lc_life) s' →
      (tx_do (sendControlFrame c.(lc_env).(ce_tx) frameHandshake 0 0) c.(lc_life).(lf_conn)).2 = Some e →
      lreader_step w (set_life w i c s' <| w_reader := LFailed i |>)
  | lr_close w i c s' :                               (* [conn.Close()] *)
      w.(w_reader) = LFailed i → conn_at w i c → call_step c.(lc_env) CallClose c.(lc_life) s' →
      lreader_step w (set_life w i c s' <| w_reader := LCloseConn i (length c.(lc_life).(lf_closers)) |>)
  | lr_close_returned w i k c pc :
      w.(w_reader) = LCloseConn i k → conn_at w i c → c.(lc_life).(lf_closers) !! k = Some pc → returned pc →
      lreader_step w (w <| w_reader := LTop |>)
  | lr_dead w i c :
      w.(w_reader) = LOffer i → conn_at w i c → c.(lc_life).(lf_conn).(cn_closed) = true → lreader_step w (w <| w_reader := LTop |>)
  | lr_offer w i c :
      w.(w_reader) = LOffer i → conn_at w i c → c.(lc_life).(lf_conn).(cn_closed) = false → Zlen w.(w_acceptCh) < acceptChCap →
      lreader_step w (w <| w_acceptCh := w.(w_acceptCh) ++ [i] |> <| w_reader := LTop |>)
  | lr_full w i c :
      w.(w_reader) = LOffer i → conn_at w i c → c.(lc_life).(lf_conn).(cn_closed) = false → acceptChCap ≤ Zlen w.(w_acceptCh) →
      lreader_step w (w <| w_reader := LTop |>).

(** What only the kernel brings about: a blocked [Recvfrom] returns.  Nothing
    says that it ever will. *)
Inductive lkernel_step : world → world → Prop :=
  | lr_retry w :                                      (* [EINTR]; an error, not closed; a short datagram *)
      w.(w_reader) = LRecv → lkernel_step w (w <| w_reader := LTop |>)
  | lr_stop w :                                       (* an error, closed *)
      w.(w_reader) = LRecv → w.(w_closed) = true → lkernel_step w (lDone (w <| w_reader := LLeft |>))
  | lr_datagram w key buf :
      w.(w_reader) = LRecv → Forall is_u8 buf → frameHeaderSize ≤ Zlen buf ≤ maxDatagram cf →
      lkernel_step w (w <| w_reader := LGot key buf |>).

(** ** [Accept], with a live context: [None] where it waits

    [stop] is the choice of the select where both channels are ready. *)
Definition Accept w (stop : bool) : world * option (result nat) :=
  match w.(w_acceptCh) with
  | [] => (w, if w.(w_closeCh) then Some (Err ErrClosed) else None)
  | i :: rest =>
      if w.(w_closeCh) && stop then (w, Some (Err ErrClosed))
      else
        let w := w <| w_acceptCh := rest |> in
        if w.(w_closed) then (w, Some (Err ErrClosed)) else (w <| w_accepted := w.(w_accepted) ++ [i] |>, Some (Ok i))
  end.

(** ** [Close], call [j] *)
Definition lat_pc w (j : nat) (pc : lcloser_pc) : Prop := w.(w_closers) !! j = Some pc.
Definition lgoto w (j : nat) (pc : lcloser_pc) : world := w <| w_closers := <[j := pc]> w.(w_closers) |>.

Inductive lcloser_step (j : nat) : world → world → Prop :=
  | lcl_win w : lat_pc w j GStart → w.(w_closed) = false → lcloser_step j w (lgoto (w <| w_closed := true |>) j GChan)
  | lcl_lose w : lat_pc w j GStart → w.(w_closed) = true → lcloser_step j w (lgoto w j GLost)
  | lcl_chan w : lat_pc w j GChan → lcloser_step j w (lgoto (w <| w_closeCh := true |>) j GShutdown)
  | lcl_shutdown w : lat_pc w j GShutdown → lcloser_step j w (lgoto (w <| w_sock := SockShut |>) j GWait)
  | lcl_wait w : lat_pc w j GWait → w.(w_doneWg) = 0 → lcloser_step j w (lgoto w j GSock)
  | lcl_sock w : lat_pc w j GSock → lcloser_step j w (lgoto (w <| w_sock := SockClosed |>) j GSnapshot)
  | lcl_snapshot w todo :                             (* the range over the map has some order *)
      lat_pc w j GSnapshot → todo ≡ₚ (map_to_list w.(w_conns)).*2 →
      lcloser_step j w (lgoto (w <| w_conns := ∅ |> <| w_nil := true |>) j (GClosing todo))
  | lcl_close w i todo c s' :
      lat_pc w j (GClosing (i :: todo)) → conn_at w i c → call_step c.(lc_env) CallClose c.(lc_life) s' →
      lcloser_step j w (lgoto (set_life w i c s') j (GWaiting i (length c.(lc_life).(lf_closers)) todo))
  | lcl_close_returned w i k todo c pc :
      lat_pc w j (GWaiting i k todo) → conn_at w i c → c.(lc_life).(lf_closers) !! k = Some pc → returned pc →
      lcloser_step j w (lgoto w j (GClosing todo))
  | lcl_done w : lat_pc w j (GClosing []) → lcloser_step j w (lgoto w j GDone).

(** ** The whole *)

(** a step of connection [i]'s goroutines; [onClose] removes it *)
Definition after_own w (i : nat) (c : lconn) (s' : life) : world :=
  let w := set_life w i c s' in
  if decide (s'.(lf_onClose) = c.(lc_life).(lf_onClose)) then w else removeConnection w c.(lc_key).

(** what happens by itself, without the application, the kernel or a peer *)
Inductive lown_step : world → world → Prop :=
  | lo_reader w w' : lreader_step w w' → lown_step w w'
  | lo_closer j w w' : lcloser_step j w w' → lown_step w w'
  | lo_conn w i c s' : conn_at w i c → own_step c.(lc_env) c.(lc_life) s' → lown_step w (after_own w i c s').

Inductive world_step : world → world → Prop :=
  | ws_own w w' : lown_step w w' → world_step w w'
  | ws_kernel w w' : lkernel_step w w' → world_step w w'
  | ws_conn_kernel w i c s' :
      conn_at w i c → c.(lc_life).(lf_started) = true → kernel_step c.(lc_life) s' → world_step w (set_life w i c s')
  | ws_accept w stop : world_step w (Accept w stop).1
  | ws_close w : world_step w (w <| w_closers := w.(w_closers) ++ [GStart] |>)
  | ws_app w i c k s' :                               (* the application and a connection it was given *)
      i ∈ w.(w_accepted) → conn_at w i c → k = CallClose ∨ (∃ op, k = CallOp op) → call_step c.(lc_env) k c.(lc_life) s' →
      world_step w (set_life w i c s').

Definition listening w : Prop := ∃ pacers, rtc world_step (newListener pacers) w.
End listener.
