(* ===== verification/ListenerInv.v ===== *)
(** * The invariant of a listener and its connections *)
From stdpp Require Import strings.
From S2P Require Import Prelude Errors Frame Float64 Pacer Options Ring StreamRecv Retransmit RetransmitSpec RetransmitRefine.
From S2P Require Import StreamSend SendRule Estimator SendBatch BatchInv SendFifo Connection ConnLemmas Termination ConnBooks ConnInv ConnOps ConnRun ConnFlags Lifecycle LifeInv Teardown Listener.

(** ** What a connection's steps keep *)
Definition life_le (s s' : life) : Prop :=
  (s.(lf_onClose) ≤ s'.(lf_onClose))%nat ∧ (s.(lf_started) = true → s'.(lf_started) = true) ∧
  (length s.(lf_closers) ≤ length s'.(lf_closers))%nat.

Lemma own_le E s s' : own_step E s s' → life_le s s'.
Proof.
  unfold life_le. destruct 1 as [s s' Hs H|s s' Hs H|s s' Hs H|s s' H|s s' H|i s s' H|s Hs H]; try destruct H; cbn;
    rewrite ?length_insert, ?length_app; cbn; lia || (split_and!; (lia || done)).
Qed.
Lemma call_le E k s s' : call_step E k s s' → life_le s s' ∧ s'.(lf_onClose) = s.(lf_onClose).
Proof. unfold life_le. destruct 1; cbn; rewrite ?length_app; cbn; split_and!; (lia || done). Qed.
(** only [start] starts *)
Lemma own_started E s s' : own_step E s s' → s'.(lf_started) = s.(lf_started).
Proof. by destruct 1 as [s s' Hs H|s s' Hs H|s s' Hs H|s s' H|s s' H|i s s' H|s Hs H]; try destruct H. Qed.

Lemma alive_step E u s s' : alive E u s → life_step E s s' → alive E u s'.
Proof. unfold alive. intros. by eapply rtc_r. Qed.
Lemma alive_onClose E u s : env_ok E → alive E u s → (s.(lf_onClose) ≤ 1)%nat.
Proof.
  intros HE Hs. destruct (alive_inv E u s HE Hs) as [tp Hi]. pose proof (li_shared _ _ _ _ Hi) as Hsh. injection Hsh as _ _ _ _ ->.
  case_decide; lia.
Qed.
Lemma alive_unstarted E u s : env_ok E → alive E u s → s.(lf_started) = false → s.(lf_onClose) = 0%nat.
Proof.
  intros HE Hs Hst. destruct (alive_inv E u s HE Hs) as [tp Hi]. pose proof (li_shared _ _ _ _ Hi) as Hsh. injection Hsh as _ _ _ _ ->.
  case_decide; [|done]. destruct (li_winner _ _ _ _ Hi) as (i & pc & Hp & _); [lia|]. destruct (li_started _ _ _ _ Hi Hst) as [Hc _].
  by rewrite Hc in Hp.
Qed.

(** ** The invariant *)

(** a connection whose [onClose] has run *)
Definition gone (c : lconn) : Prop := c.(lc_life).(lf_onClose) ≠ 0%nat.

(** the connection the listener's goroutine is making *)
Definition pending (pc : lreader_pc) : option nat :=
  match pc with LPublish i | LStart i | LAck i | LOffer i => Some i | _ => None end.
(** the connection it has yet to start *)
Definition unstarted (pc : lreader_pc) : option nat := match pc with LPublish i | LStart i => Some i | _ => None end.
(** the connections it refers to *)
Definition refers (pc : lreader_pc) : option nat :=
  match pc with LPublish i | LStart i | LAck i | LOffer i | LForward i | LFailed i | LCloseConn i _ => Some i | _ => None end.

Record conns_inv (lives : list lconn) (conns : gmap string nat) (nil : bool) (pc : lreader_pc) : Prop := mkConnsInv {
  ci_alive i c : lives !! i = Some c → env_ok c.(lc_env) ∧ alive c.(lc_env) c.(lc_ring) c.(lc_life);
  ci_started i c : lives !! i = Some c → c.(lc_life).(lf_started) = bool_decide (unstarted pc ≠ Some i);
  ci_map k i : conns !! k = Some i → ∃ c, lives !! i = Some c ∧ c.(lc_key) = k ∧ ¬ gone c;
  ci_tracked i c : nil = false → lives !! i = Some c → ¬ gone c → pc ≠ LPublish i → conns !! c.(lc_key) = Some i;
  ci_publish i : pc = LPublish i → ∃ c, lives !! i = Some c ∧ conns !! c.(lc_key) = None;
  ci_nil : nil = true → pc = LLeft ∧ conns = ∅;
  ci_refers i : refers pc = Some i → (i < length lives)%nat;
  ci_close i k c : pc = LCloseConn i k → lives !! i = Some c → (k < length c.(lc_life).(lf_closers))%nat;
}.
Record accept_inv (n : nat) (accepted ch : list nat) (pc : lreader_pc) : Prop := mkAcceptInv {
  ai_nodup : NoDup (accepted ++ ch);
  ai_pending i : pending pc = Some i → i ∉ accepted ++ ch;
  ai_range i : i ∈ accepted ++ ch → (i < n)%nat;
  ai_full : Zlen ch ≤ acceptChCap;
}.

(** what the calls of [Close] know *)
Definition lwinner (pc : lcloser_pc) : Prop := pc ≠ GStart ∧ pc ≠ GLost.
Definition covers (lives : list lconn) (todo : list nat) : Prop :=
  (∀ i c, lives !! i = Some c → gone c ∨ i ∈ todo) ∧ Forall (λ i, (i < length lives)%nat) todo.
Definition gpc_inv (w : world) (pc : lcloser_pc) : Prop :=
  match pc with
  | GStart => True
  | GLost => w.(w_closed) = true
  | GChan => w.(w_closed) = true ∧ w.(w_nil) = false
  | GShutdown => w.(w_closed) = true ∧ w.(w_nil) = false ∧ w.(w_closeCh) = true
  | GWait => w.(w_closed) = true ∧ w.(w_nil) = false ∧ w.(w_closeCh) = true ∧ w.(w_sock) = SockShut
  | GSock | GSnapshot => w.(w_closed) = true ∧ w.(w_nil) = false ∧ w.(w_closeCh) = true ∧ w.(w_reader) = LLeft
  | GClosing todo => w.(w_closed) = true ∧ w.(w_closeCh) = true ∧ w.(w_reader) = LLeft ∧ w.(w_nil) = true ∧ covers w.(w_lives) todo
  | GWaiting i k todo => w.(w_closed) = true ∧ w.(w_closeCh) = true ∧ w.(w_reader) = LLeft ∧ w.(w_nil) = true ∧ covers w.(w_lives) (i :: todo) ∧
      ∃ c, w.(w_lives) !! i = Some c ∧ (k < length c.(lc_life).(lf_closers))%nat
  | GDone => w.(w_closed) = true ∧ w.(w_closeCh) = true ∧ w.(w_reader) = LLeft ∧ w.(w_nil) = true ∧ covers w.(w_lives) []
  end.

Record world_inv (w : world) : Prop := mkWorldInv {
  wi_conns : conns_inv w.(w_lives) w.(w_conns) w.(w_nil) w.(w_reader);
  wi_accept : accept_inv (length w.(w_lives)) w.(w_accepted) w.(w_acceptCh) w.(w_reader);
  wi_wg : w.(w_doneWg) = match w.(w_reader) with LLeft => 0 | _ => 1 end;
  wi_bytes key buf : w.(w_reader) = LGot key buf → Forall is_u8 buf;
  wi_closers j pc : w.(w_closers) !! j = Some pc → gpc_inv w pc;
  wi_unique j j' pc pc' : w.(w_closers) !! j = Some pc → w.(w_closers) !! j' = Some pc' → lwinner pc → lwinner pc' → j = j';
  wi_nil : w.(w_nil) = true → w.(w_closed) = true;
  wi_won : w.(w_closed) = true → ∃ j pc, w.(w_closers) !! j = Some pc ∧ lwinner pc;
}.

Lemma new_world_inv pacers : world_inv (newListener pacers).
Proof.
  split; cbn; try done.
  split; cbn; try done; [apply NoDup_nil_2|intros i Hi; by apply elem_of_nil in Hi].
Qed.

Section steps.
Implicit Types (w : world) (c : lconn).

(** ** A connection goes on *)

(** [c'] is [c] later *)
Definition later c c' : Prop :=
  c'.(lc_key) = c.(lc_key) ∧ c'.(lc_env) = c.(lc_env) ∧ c'.(lc_ring) = c.(lc_ring) ∧ life_step c.(lc_env) c.(lc_life) c'.(lc_life) ∧
  life_le c.(lc_life) c'.(lc_life).

Lemma later_gone c c' : later c c' → gone c → gone c'.
Proof. unfold gone. intros (_ & _ & _ & _ & H & _). lia. Qed.

Lemma insert_lookup (l : list lconn) i c c' j x : l !! i = Some c → <[i := c']> l !! j = Some x →
  (j = i ∧ x = c') ∨ (j ≠ i ∧ l !! j = Some x).
Proof.
  intros Hi. destruct (decide (i = j)) as [<-|Hne].
  - rewrite list_lookup_insert_eq by (by eapply lookup_lt_Some). intros [= <-]. by left.
  - rewrite list_lookup_insert_ne by done. by right.
Qed.
Lemma lookup_after (l : list lconn) i c c' j x : l !! i = Some c → l !! j = Some x → ∃ x', <[i := c']> l !! j = Some x' ∧ (j = i ∧ x' = c' ∨ j ≠ i ∧ x' = x).
Proof.
  intros Hi Hj. destruct (decide (i = j)) as [<-|Hne].
  - exists c'. split; [apply list_lookup_insert_eq; by eapply lookup_lt_Some|by left].
  - exists x. split; [by rewrite list_lookup_insert_ne|by right].
Qed.

(** the connections, after connection [i] went on; what was removed from the
    map is the entry of [i], when its [onClose] ran *)
Lemma conns_after lives conns nil pc pc' i c c' : conns_inv lives conns nil pc → lives !! i = Some c → later c c' →
  c'.(lc_life).(lf_started) = bool_decide (unstarted pc' ≠ Some i) → (∀ j, j ≠ i → unstarted pc' = Some j ↔ unstarted pc = Some j) →
  (∀ j, pc' = LPublish j ↔ pc = LPublish j) → (nil = true → pc' = LLeft) → (∀ j, refers pc' = Some j → refers pc = Some j ∨ j = i) →
  (∀ j k x, pc' = LCloseConn j k → <[i := c']> lives !! j = Some x → (k < length x.(lc_life).(lf_closers))%nat) →
  conns_inv (<[i := c']> lives) (if decide (c'.(lc_life).(lf_onClose) = c.(lc_life).(lf_onClose)) then conns else delete c.(lc_key) conns) nil pc'.
Proof.
  intros [C1 C2 C3 C4 C5 C6 C7 C8] Hi Hl Hst Huns Hpub Hnil Href Hcl. pose proof Hl as (Hk & He & Hr & Hs & Ho & Hle1 & Hle2).
  destruct (C1 i c Hi) as [HE Ha]. pose proof (alive_step _ _ _ _ Ha Hs) as Ha'. pose proof (alive_onClose _ _ _ HE Ha') as Ho'.
  assert (∀ k j, (if decide (lf_onClose (lc_life c') = lf_onClose (lc_life c)) then conns else delete (lc_key c) conns) !! k = Some j → conns !! k = Some j) as Hsub.
  { intros k j. destruct (decide _); [done|]. by intros [_ ?]%lookup_delete_Some. }
  assert (∀ k, conns !! k = None → (if decide (lf_onClose (lc_life c') = lf_onClose (lc_life c)) then conns else delete (lc_key c) conns) !! k = None) as Hnone.
  { intros k Hkn. destruct (decide _); [done|]. apply lookup_delete_None. by right. }
  split.
  - intros j x Hx. destruct (insert_lookup _ _ _ _ _ _ Hi Hx) as [[-> ->]|[_ Hx']]; [|by eapply C1]. rewrite He, Hr. done.
  - intros j x Hx. destruct (insert_lookup _ _ _ _ _ _ Hi Hx) as [[-> ->]|[Hne Hx']]; [done|]. rewrite (C2 _ _ Hx').
    apply bool_decide_ext. by rewrite Huns.
  - intros k j Hj. destruct (C3 k j (Hsub _ _ Hj)) as (x & Hx & Hkx & Hg).
    destruct (lookup_after _ i c c' j x Hi Hx) as (x' & Hx' & [[-> ->]|[Hne ->]]); [|by exists x].
    exists c'. split; [done|]. rewrite Hi in Hx. injection Hx as <-. split; [congruence|]. intros Hg'. apply Hg. unfold gone in *.
    destruct (decide (lf_onClose (lc_life c') = lf_onClose (lc_life c))) as [Heq|Hneq]; [congruence|]. by rewrite Hkx, lookup_delete_eq in Hj.
  - intros j x Hn Hx Hg Hp. destruct (insert_lookup _ _ _ _ _ _ Hi Hx) as [[-> ->]|[Hne Hx']].
    + assert (conns !! lc_key c = Some i) as Hci.
      { apply (C4 i c Hn Hi); [|by rewrite <- Hpub]. intros ?. by eapply Hg, later_gone. }
      rewrite Hk. rewrite decide_True; [done|]. unfold gone in Hg. lia.
    + assert (conns !! lc_key x = Some j) as Hcj by (apply C4; [done|done|done|by rewrite <- Hpub]).
      destruct (decide _) as [|Hneq]; [done|]. rewrite lookup_delete_ne; [done|]. intros Hkk.
      assert (conns !! lc_key c = Some i) as Hci; [|congruence]. apply (C4 i c Hn Hi); [unfold gone; lia|].
      intros ->. specialize (C2 i c Hi). rewrite bool_decide_false in C2 by (cbn; naive_solver).
      destruct Hs as [Hs|[[? _]|[k Hs]]]; [|congruence|apply call_le in Hs as [_ ?]; congruence].
      pose proof (own_started _ _ _ Hs) as Hst'. rewrite C2 in Hst'. rewrite (alive_unstarted _ _ _ HE Ha' Hst'), (alive_unstarted _ _ _ HE Ha C2) in Hneq. done.
  - intros j Hj. apply Hpub in Hj. destruct (C5 j Hj) as (x & Hx & Hkx).
    destruct (lookup_after _ i c c' j x Hi Hx) as (x' & Hx' & [[-> ->]|[Hne ->]]); [|exists x; auto].
    rewrite Hi in Hx. injection Hx as <-. exists c'. split; [done|]. rewrite Hk. auto.
  - intros Hn. destruct (C6 Hn) as [_ ->]. split; [auto|]. destruct (decide _); [done|]. apply delete_empty.
  - intros j Hj. rewrite length_insert. destruct (Href j Hj) as [H| ->]; [auto|by eapply lookup_lt_Some].
  - done.
Qed.

(** ** What the calls of [Close] know, under other steps *)
Definition lives_later (l l' : list lconn) : Prop :=
  length l' = length l ∧ ∀ i c, l !! i = Some c → ∃ c', l' !! i = Some c' ∧ (c' = c ∨ later c c').
Definition wstable w w' : Prop :=
  w'.(w_closed) = w.(w_closed) ∧ w'.(w_closeCh) = w.(w_closeCh) ∧ w'.(w_nil) = w.(w_nil) ∧ w'.(w_sock) = w.(w_sock) ∧
  (w.(w_reader) = LLeft → w'.(w_reader) = LLeft ∧ lives_later w.(w_lives) w'.(w_lives)).

Lemma lives_later_insert l i c c' : l !! i = Some c → later c c' → lives_later l (<[i := c']> l).
Proof.
  intros Hi Hl. split; [apply length_insert|]. intros j x Hx.
  destruct (lookup_after l i c c' j x Hi Hx) as (x' & Hx' & [[-> ->]|[_ ->]]); [|by eauto].
  rewrite Hi in Hx. injection Hx as <-. by eauto.
Qed.
Lemma lives_later_refl l : lives_later l l.
Proof. split; [done|]. by eauto. Qed.

Lemma covers_later l l' todo : lives_later l l' → covers l todo → covers l' todo.
Proof.
  intros [Hlen Hl] [H1 H2]. split; [|by rewrite Hlen]. intros i c' Hc'.
  destruct (lookup_lt_is_Some_2 l i) as [c Hc]; [rewrite <- Hlen; by eapply lookup_lt_Some|].
  destruct (Hl i c Hc) as (x & Hx & Hcc). rewrite Hc' in Hx. injection Hx as <-.
  destruct (H1 i c Hc) as [Hg|Hin]; [left|by right]. destruct Hcc as [->|Hcc]; [done|by eapply later_gone].
Qed.

Lemma gpc_stable w w' pc : wstable w w' → gpc_inv w pc → gpc_inv w' pc.
Proof.
  intros (Hc & Hch & Hn & Hsk & Hr). destruct pc as [| | | | | | |todo|i k todo|]; cbn; rewrite ?Hc, ?Hch, ?Hn, ?Hsk; try done.
  - intros (? & ? & ? & Hl). destruct (Hr Hl). done.
  - intros (? & ? & ? & Hl). destruct (Hr Hl). done.
  - intros (? & ? & Hl & ? & Hcov). destruct (Hr Hl) as [? Hll]. split_and!; try done. by eapply covers_later.
  - intros (? & ? & Hl & ? & Hcov & c & Hic & Hk). destruct (Hr Hl) as [? Hll]. split_and!; try done; [by eapply covers_later|].
    destruct (proj2 Hll i c Hic) as (c' & Hc' & [->|(_ & _ & _ & _ & _ & _ & Hle)]); [by eauto|]. exists c'. split; [done|lia].
  - intros (? & ? & Hl & ? & Hcov). destruct (Hr Hl) as [? Hll]. split_and!; try done. by eapply covers_later.
Qed.

(** a step that is not [Close]'s *)
Lemma world_other w w' : world_inv w → wstable w w' → w'.(w_closers) = w.(w_closers) ∨ w'.(w_closers) = w.(w_closers) ++ [GStart] →
  conns_inv w'.(w_lives) w'.(w_conns) w'.(w_nil) w'.(w_reader) →
  accept_inv (length w'.(w_lives)) w'.(w_accepted) w'.(w_acceptCh) w'.(w_reader) →
  w'.(w_doneWg) = match w'.(w_reader) with LLeft => 0 | _ => 1 end →
  (∀ key buf, w'.(w_reader) = LGot key buf → Forall is_u8 buf) → world_inv w'.
Proof.
  intros [W1 W2 W3 W4 W5 W6 Wn W7] Hst Hcl Hci Hai Hwg Hb.
  assert (∀ j pc, w'.(w_closers) !! j = Some pc → w.(w_closers) !! j = Some pc ∨ pc = GStart) as Hlk.
  { intros j pc. destruct Hcl as [-> | ->]; [by left|]. intros [?|[_ H]]%lookup_app_Some; [by left|]. right.
    apply list_lookup_singleton_Some in H as [_ <-]. done. }
  split; try done.
  - intros j pc Hj. destruct (Hlk _ _ Hj) as [H| ->]; [|done]. eapply gpc_stable; [done|by eapply W5].
  - intros j j' pc pc' Hj Hj' Hp Hp'. destruct (Hlk _ _ Hj) as [H| ->]; [|by destruct Hp]. destruct (Hlk _ _ Hj') as [H'| ->]; [|by destruct Hp'].
    by eapply W6.
  - by destruct Hst as (-> & _ & -> & _).
  - destruct Hst as (-> & _). intros Hc. destruct (W7 Hc) as (j & pc & Hj & Hp). exists j, pc. split; [|done].
    destruct Hcl as [-> | ->]; [done|by apply lookup_app_l_Some].
Qed.

(** ** The listener's goroutine *)
Lemma conns_pc lives conns nil pc pc' : conns_inv lives conns nil pc → nil = false → unstarted pc' = unstarted pc →
  (∀ j, pc' = LPublish j → pc = LPublish j) → (∀ j, pc = LPublish j → pc' = LPublish j) →
  (∀ j, refers pc' = Some j → refers pc = Some j) → (∀ j k, pc' ≠ LCloseConn j k) → conns_inv lives conns nil pc'.
Proof.
  intros [C1 C2 C3 C4 C5 C6 C7 C8] Hn Hu Hp Hp' Hr Hc. split; try done; try congruence; try (by eauto).
  - intros i c Hi. rewrite Hu. auto.
Qed.
Lemma accept_pc n accepted ch pc pc' : accept_inv n accepted ch pc → (∀ i, pending pc' = Some i → pending pc = Some i) → accept_inv n accepted ch pc'.
Proof. intros [A1 A2 A3 A4] Hp. split; auto. Qed.

(** while it runs the map is there *)
Lemma reader_not_nil w : world_inv w → w.(w_reader) ≠ LLeft → w.(w_nil) = false.
Proof. intros Hw Hr. destruct (w_nil w) eqn:Hn; [|done]. by destruct (ci_nil _ _ _ _ (wi_conns _ Hw) Hn). Qed.

(** it only moves *)
Lemma reader_moves w pc' : world_inv w → w.(w_reader) ≠ LLeft → unstarted w.(w_reader) = None → unstarted pc' = None →
  refers pc' = None → pc' ≠ LLeft → (∀ key buf, pc' = LGot key buf → Forall is_u8 buf) → world_inv (w <| w_reader := pc' |>).
Proof.
  intros Hw Hr Hu Hu' Href Hpc Hb.
  pose proof (reader_not_nil w Hw ltac:(done)) as Hn.
  apply (world_other w); try done; cbn.
  - by left.
  - eapply conns_pc; [apply Hw|done|congruence|..].
    + by intros j ->.
    + intros j Hj. by rewrite Hj in Hu.
    + congruence.
    + by intros j k ->.
  - eapply accept_pc; [apply Hw|]. intros i Hi. destruct pc'; try done.
  - rewrite (wi_wg _ Hw). by destruct (w_reader w), pc'.
Qed.
Lemma reader_stops w : world_inv w → w.(w_reader) = LTop ∨ w.(w_reader) = LRecv → world_inv (lDone (w <| w_reader := LLeft |>)).
Proof.
  intros Hw Hr. assert (unstarted (w_reader w) = None ∧ w_reader w ≠ LLeft) as [Hu Hne] by (by destruct Hr as [-> | ->]).
  pose proof (reader_not_nil w Hw ltac:(done)) as Hn.
  apply (world_other w); try done; cbn.
  - by left.
  - eapply conns_pc; [apply Hw|done|by rewrite Hu|..]; try done. intros j Hj. by rewrite Hj in Hu.
  - by eapply accept_pc; [apply Hw|].
  - rewrite (wi_wg _ Hw). by destruct Hr as [-> | ->].
Qed.

(** it takes connection [i] a step further, by a call *)
Lemma reader_calls w pc' i c s' : world_inv w → conn_at w i c → w.(w_reader) ≠ LLeft → life_step c.(lc_env) c.(lc_life) s' → life_le c.(lc_life) s' →
  s'.(lf_onClose) = c.(lc_life).(lf_onClose) →
  s'.(lf_started) = bool_decide (unstarted pc' ≠ Some i) → (∀ j, j ≠ i → unstarted pc' = Some j ↔ unstarted w.(w_reader) = Some j) →
  (∀ j, pc' = LPublish j ↔ w.(w_reader) = LPublish j) → pc' ≠ LLeft → (∀ j, refers pc' = Some j → j = i) →
  (∀ k, pc' = LCloseConn i k → (k < length s'.(lf_closers))%nat) → (∀ j, pending pc' = Some j → pending w.(w_reader) = Some j) → (∀ key buf, pc' ≠ LGot key buf) →
  world_inv (set_life w i c s' <| w_reader := pc' |>).
Proof.
  intros Hw Hi Hr Hs Hle Hoc Hst Hu Hpub Hpc Href Hk Hpend Hgot.
  pose proof (reader_not_nil w Hw ltac:(done)) as Hn.
  assert (later c (c <| lc_life := s' |>)) as Hl by done.
  apply (world_other w); try done; cbn.
  - by left.
  - pose proof (conns_after _ _ _ _ pc' i c (c <| lc_life := s' |>) (wi_conns _ Hw) Hi Hl) as H.
    rewrite decide_True in H by done. apply H; try done; [congruence|by intros j Hj; right; apply Href|].
    intros j k x -> Hx. assert (j = i) as -> by (by apply Href).
    destruct (insert_lookup _ _ _ _ _ _ Hi Hx) as [[_ ->]|[? _]]; [|done]. by apply Hk.
  - rewrite length_insert. by eapply accept_pc; [apply Hw|].
  - rewrite (wi_wg _ Hw). by destruct (w_reader w), pc'.
  - intros key buf ->. by destruct (Hgot key buf).
Qed.

Lemma call_later E k s s' : call_step E k s s' → life_step E s s'.
Proof. intros H. right. right. by exists k. Qed.

(** it makes a connection *)
Lemma reader_creates w E key connID ring store : world_inv w → env_ok E → (∃ key' buf, w.(w_reader) = LGot key' buf) → w.(w_conns) !! key = None →
  world_inv (w <| w_pacers := store |> <| w_lives := w.(w_lives) ++ [mkLconn key connID E ring (newLife E ring)] |>
               <| w_reader := LPublish (length w.(w_lives)) |>).
Proof.
  intros Hw HE (key' & buf & Hr) Hkey. pose proof (wi_conns _ Hw) as [C1 C2 C3 C4 C5 C6 C7 C8]. rewrite Hr in *.
  pose proof (reader_not_nil w Hw ltac:(congruence)) as Hn.
  set (c0 := mkLconn key connID E ring (newLife E ring)).
  assert (∀ i c, (w.(w_lives) ++ [c0]) !! i = Some c → w.(w_lives) !! i = Some c ∨ i = length w.(w_lives) ∧ c = c0) as Hlk.
  { intros i c [?|[? H]]%lookup_app_Some; [by left|right]. apply list_lookup_singleton_Some in H as [? <-]. split; [lia|done]. }
  apply (world_other w); try done; cbn.
  - split_and!; [done..|]. by rewrite Hr.
  - by left.
  - split; try done.
    + intros i c Hi. destruct (Hlk i c Hi) as [?|[_ ->]]; [by eapply C1|]. split; [done|]. apply rtc_refl.
    + intros i c Hi. destruct (Hlk i c Hi) as [H|[-> ->]]; [|by rewrite bool_decide_false by naive_solver].
      rewrite (C2 i c H). apply bool_decide_ext. cbn. apply lookup_lt_Some in H. split; [|done]. intros _ [= ?]. lia.
    + intros k i Hi. destruct (C3 k i Hi) as (c & Hc & ?). exists c. split; [by apply lookup_app_l_Some|done].
    + intros i c _ Hi Hg Hp. destruct (Hlk i c Hi) as [H|[-> ->]]; [by apply C4|done].
    + intros i [= <-]. exists c0. split; [by rewrite lookup_app_r, Nat.sub_diag|done].
    + congruence.
    + intros i [= <-]. rewrite length_app. cbn. lia.
  - destruct (wi_accept _ Hw) as [A1 A2 A3 A4]. split; try done.
    + intros i [= <-] Hin. apply A3 in Hin. lia.
    + intros i Hin. rewrite length_app. apply A3 in Hin. lia.
  - rewrite (wi_wg _ Hw). by rewrite Hr.
Qed.

(** it publishes one *)
Lemma reader_publishes w i c : world_inv w → w.(w_reader) = LPublish i → conn_at w i c →
  world_inv (w <| w_conns := <[c.(lc_key) := i]> w.(w_conns) |> <| w_reader := LStart i |>).
Proof.
  intros Hw Hr Hi. pose proof (wi_conns _ Hw) as [C1 C2 C3 C4 C5 C6 C7 C8]. rewrite Hr in *.
  pose proof (reader_not_nil w Hw ltac:(congruence)) as Hn.
  destruct (C5 i eq_refl) as (c' & Hc' & Hnone). assert (c' = c) as -> by (unfold conn_at in Hi; congruence).
  assert (¬ gone c) as Hg.
  { destruct (C1 i c Hi) as [HE Ha]. specialize (C2 i c Hi). rewrite bool_decide_false in C2 by naive_solver.
    unfold gone. rewrite (alive_unstarted _ _ _ HE Ha C2). intros Hx. by apply Hx. }
  apply (world_other w); try done; cbn.
  - split_and!; [done..|]. by rewrite Hr.
  - by left.
  - split; try done.
    + intros k j. destruct (decide (lc_key c = k)) as [<-|Hne]; [rewrite lookup_insert_eq; intros [= <-]; by exists c|].
      rewrite lookup_insert_ne by done. apply C3.
    + intros j x _ Hj Hgx _. destruct (decide (j = i)) as [->|Hne].
      * assert (x = c) as -> by (unfold conn_at in Hi; congruence). by rewrite lookup_insert_eq.
      * assert (w_conns w !! lc_key x = Some j) as Hx by (apply C4; [done|done|done|congruence]).
        rewrite lookup_insert_ne; [done|]. congruence.
    + congruence.
  - eapply accept_pc; [apply Hw|]. by rewrite Hr.
  - rewrite (wi_wg _ Hw). by rewrite Hr.
Qed.

(** it offers one to [Accept] *)
Lemma reader_offers w i c : world_inv w → w.(w_reader) = LOffer i → conn_at w i c → Zlen w.(w_acceptCh) < acceptChCap →
  world_inv (w <| w_acceptCh := w.(w_acceptCh) ++ [i] |> <| w_reader := LTop |>).
Proof.
  intros Hw Hr Hi Hlen. pose proof (wi_accept _ Hw) as [A1 A2 A3 A4]. rewrite Hr in A2.
  apply (world_other w); try done; cbn.
  - split_and!; [done..|]. by rewrite Hr.
  - by left.
  - pose proof (reader_not_nil w Hw ltac:(congruence)) as Hn.
    eapply conns_pc; [apply Hw|done|..]; rewrite ?Hr; done.
  - split; try done.
    + rewrite (assoc_L (++)). apply NoDup_app. split_and!; [done| |apply NoDup_singleton].
      intros j Hj Hj'. apply list_elem_of_singleton in Hj' as ->. by eapply A2.
    + intros j. rewrite (assoc_L (++)). intros [Hj|Hj]%elem_of_app; [auto|]. apply list_elem_of_singleton in Hj as ->. by eapply lookup_lt_Some.
    + rewrite Zlen_app. change (Zlen [i]) with 1. lia.
  - rewrite (wi_wg _ Hw). by rewrite Hr.
Qed.

(** a call on a started connection keeps it started *)
Lemma call_started E k s s' : call_step E k s s' → s'.(lf_started) = true.
Proof. by destruct 1. Qed.

(** the goroutine only moves on, or calls one connection and moves on *)
#[local] Ltac moves Hr := apply reader_moves; [done|by rewrite Hr|by rewrite Hr|done|done|done|try done].
#[local] Ltac calls Hr Hs := eapply reader_calls; try rewrite Hr; try done;
  [exact (call_later _ _ _ _ Hs)|apply (call_le _ _ _ _ Hs)|apply (call_le _ _ _ _ Hs)|by rewrite (call_started _ _ _ _ Hs)|..].

Lemma lreader_inv cf w w' : lreader_step cf w w' → world_inv w → world_inv w'.
Proof.
  intros Hstep Hw.
  destruct Hstep as [w Hr Hc|w Hr Hc|w Hr Hsk|w key buf i c s' Hr Hl Hi Hs|w i c Hr Hi Hf|w key buf Hr Hl Hh
    |w key buf connID Hr Hl Hh|w key buf connID now E ring w' Hr Hl Hh Hcr|w i c Hr Hi Hn|w i c s' Hr Hi Hs|w i c s' Hr Hi Hs He|w i c s' e Hr Hi Hs He
    |w i c s' Hr Hi Hs|w i k c pc Hr Hi Hpc Hret|w i c Hr Hi Hc|w i c Hr Hi Hc Hlen|w i c Hr Hi Hc Hlen].
  - apply reader_stops; [done|by left].
  - moves Hr.
  - moves Hr.
  - calls Hr Hs. by intros j [= <-].
  - moves Hr.
  - moves Hr.
  - moves Hr.
  - unfold createConnection in Hcr. destruct (ensureWirePacer _ _ _) as [store cfg]. destruct Hcr as [(_ & _ & HE) ->].
    apply reader_creates; [done|done|by eauto|done].
  - by apply reader_publishes.
  - calls Hr Hs; [by intros j Hj; cbn; split; [done|intros [= <-]]|by intros j [= <-]].
  - calls Hr Hs. by intros j [= <-].
  - calls Hr Hs. by intros j [= <-].
  - calls Hr Hs; [by intros j [= <-]|]. intros k [= <-]. inversion_clear Hs. cbn. rewrite length_app. cbn. lia.
  - moves Hr.
  - moves Hr.
  - by eapply reader_offers.
  - moves Hr.
Qed.

(** ** The kernel *)
Lemma lkernel_inv cf w w' : lkernel_step cf w w' → world_inv w → world_inv w'.
Proof.
  intros Hstep Hw. destruct Hstep as [w Hr|w Hr Hc|w key buf Hr Hb Hlen]; [moves Hr|by apply reader_stops; [|right]|].
  moves Hr. by intros ? ? [= <- <-].
Qed.
Lemma kernel_le s s' : kernel_step s s' → life_le s s' ∧ s'.(lf_onClose) = s.(lf_onClose) ∧ s'.(lf_started) = s.(lf_started).
Proof. by destruct 1. Qed.

(** ** The application *)
Lemma accept_step_inv w stop : world_inv w → world_inv (Accept w stop).1.
Proof.
  intros Hw. unfold Accept. destruct (w_acceptCh w) as [|i rest] eqn:Hch; [done|]. destruct (_ && _); [done|].
  pose proof (wi_accept _ Hw) as [A1 A2 A3 A4]. rewrite Hch in *.
  assert (∀ accepted, accepted ++ rest ⊆ w.(w_accepted) ++ i :: rest → NoDup (accepted ++ rest) →
    world_inv (w <| w_acceptCh := rest |> <| w_accepted := accepted |>)) as Hacc.
  { intros accepted Hsub Hnd. apply (world_other w); try done; cbn; [split_and!; [done..|]; intros ?; split; [done|apply lives_later_refl]|by left|apply Hw| |apply Hw|apply Hw].
    split; [done| | |].
    - intros j Hj Hin. by eapply A2, Hsub.
    - intros j Hj. by apply A3, Hsub.
    - rewrite Zlen_cons in A4. lia. }
  change (w_closed (w <| w_acceptCh := rest |>)) with (w_closed w). destruct (w_closed w) eqn:Hcl; cbn [fst].
  - apply (Hacc w.(w_accepted)); [set_solver|]. apply NoDup_app in A1 as (N1 & N2 & N3). apply NoDup_cons in N3 as [? ?].
    apply NoDup_app. split_and!; [done|set_solver|done].
  - apply (Hacc (w.(w_accepted) ++ [i])); rewrite <- (assoc_L (++)); done.
Qed.

Lemma conn_step_inv w i c s' : world_inv w → conn_at w i c → life_step c.(lc_env) c.(lc_life) s' → life_le c.(lc_life) s' →
  s'.(lf_started) = c.(lc_life).(lf_started) → world_inv (after_own w i c s').
Proof.
  intros Hw Hi Hs Hle Hst. assert (later c (c <| lc_life := s' |>)) as Hl by done.
  assert (after_own w i c s' = set_life w i c s' <| w_conns :=
    if decide (s'.(lf_onClose) = c.(lc_life).(lf_onClose)) then w.(w_conns) else delete c.(lc_key) w.(w_conns) |>) as ->.
  { unfold after_own. by destruct (decide _). }
  pose proof (wi_conns _ Hw) as Hc. apply (world_other w); try done; cbn.
  - split_and!; [done..|]. intros Hr. split; [done|]. by eapply lives_later_insert.
  - by left.
  - apply (conns_after _ _ _ (w_reader w) _ i c (c <| lc_life := s' |>) Hc Hi Hl); try done; [|apply Hc|by left|].
    + cbn. rewrite Hst. by apply (ci_started _ _ _ _ Hc).
    + intros j k x Hr Hx. destruct (insert_lookup _ _ _ _ _ _ Hi Hx) as [[-> ->]|[_ Hx']]; [|by eapply (ci_close _ _ _ _ Hc)].
      pose proof (ci_close _ _ _ _ Hc _ _ _ Hr Hi). destruct Hle as (_ & _ & Hle). cbn. lia.
  - rewrite length_insert. apply Hw.
  - apply Hw.
  - apply Hw.
Qed.

(** ** [Close] *)
Lemma gpc_lgoto w j q pc : gpc_inv (lgoto w j q) pc ↔ gpc_inv w pc.
Proof. by destruct pc. Qed.
Lemma gpc_loser w pc : ¬ lwinner pc → w.(w_closed) = true → gpc_inv w pc.
Proof. unfold lwinner. intros Hp Hc. destruct pc; cbn; try done; by destruct Hp. Qed.
Lemma gpc_closed w pc : gpc_inv w pc → pc ≠ GStart → w.(w_closed) = true.
Proof. destruct pc; cbn; naive_solver. Qed.

(** a call of [Close] that has won, or wins, goes on *)
Lemma winner_moves w w0 j pc pc' : world_inv w → lat_pc w j pc → lwinner pc ∨ w.(w_closed) = false → lwinner pc' →
  w0.(w_closers) = w.(w_closers) → conns_inv w0.(w_lives) w0.(w_conns) w0.(w_nil) w0.(w_reader) →
  accept_inv (length w0.(w_lives)) w0.(w_accepted) w0.(w_acceptCh) w0.(w_reader) →
  w0.(w_doneWg) = w.(w_doneWg) → w0.(w_reader) = w.(w_reader) → w0.(w_closed) = true → gpc_inv w0 pc' → world_inv (lgoto w0 j pc').
Proof.
  intros [W1 W2 W3 W4 W5 W6 Wn W7] Hj Hwin Hwin' Hcl Hci Hai Hwg Hrd Hc Hp'. pose proof (lookup_lt_Some _ _ _ Hj) as Hlt.
  assert (∀ j' q, (lgoto w0 j pc').(w_closers) !! j' = Some q → j' = j ∧ q = pc' ∨ j' ≠ j ∧ w.(w_closers) !! j' = Some q ∧ ¬ lwinner q) as Hlk.
  { intros j' q. cbn. rewrite Hcl. destruct (decide (j = j')) as [<-|Hne]; [rewrite list_lookup_insert_eq by done; intros [= <-]; by left|].
    rewrite list_lookup_insert_ne by done. intros Hq. right. split_and!; [done|done|]. intros Hwq. destruct Hwin as [Hw|Hw].
    - destruct Hne. by eapply W6.
    - rewrite (gpc_closed w q) in Hw; [done|by eapply W5|apply Hwq]. }
  split; try done.
  - cbn. by rewrite Hwg, Hrd.
  - intros key buf. cbn. rewrite Hrd. apply W4.
  - intros j' q Hq. apply gpc_lgoto. destruct (Hlk _ _ Hq) as [[-> ->]|(_ & _ & Hn)]; [done|by apply gpc_loser].
  - intros j1 j2 q1 q2 Hq1 Hq2 Hw1 Hw2. destruct (Hlk _ _ Hq1) as [[-> _]|(_ & _ & ?)]; [|done].
    destruct (Hlk _ _ Hq2) as [[-> _]|(_ & _ & ?)]; done.
  - intros _. exists j, pc'. split; [|done]. cbn. rewrite Hcl. by apply list_lookup_insert_eq.
Qed.
Lemma loser_moves w j : world_inv w → lat_pc w j GStart → w.(w_closed) = true → world_inv (lgoto w j GLost).
Proof.
  intros [W1 W2 W3 W4 W5 W6 Wn W7] Hj Hc. pose proof (lookup_lt_Some _ _ _ Hj) as Hlt.
  assert (∀ j' q, lwinner q → (lgoto w j GLost).(w_closers) !! j' = Some q ↔ w.(w_closers) !! j' = Some q) as Hlk.
  { intros j' q [Hq1 Hq2]. cbn. destruct (decide (j = j')) as [<-|Hne]; [|by rewrite list_lookup_insert_ne].
    rewrite list_lookup_insert_eq by done. unfold lat_pc in Hj. split; intros [= Hx]; congruence. }
  split; try done.
  - intros j' q. cbn. destruct (decide (j = j')) as [<-|Hne]; [rewrite list_lookup_insert_eq by done; by intros [= <-]|].
    rewrite list_lookup_insert_ne by done. intros Hq. apply gpc_lgoto. by eapply W5.
  - intros j1 j2 q1 q2 Hq1 Hq2 Hw1 Hw2. rewrite Hlk in Hq1 by done. rewrite Hlk in Hq2 by done. by eapply W6.
  - intros _. destruct (W7 Hc) as (j' & q & Hq & Hw'). exists j', q. by rewrite Hlk.
Qed.

(** the snapshot has every connection that is not gone *)
Lemma snapshot_covers w todo : world_inv w → w.(w_nil) = false → w.(w_reader) = LLeft → todo ≡ₚ (map_to_list w.(w_conns)).*2 → covers w.(w_lives) todo.
Proof.
  intros Hw Hn Hr Htodo. pose proof (wi_conns _ Hw) as Hc. split.
  - intros i c Hi. destruct (decide (c.(lc_life).(lf_onClose) = 0%nat)) as [Hg|Hg]; [right|by left].
    rewrite Htodo. apply list_elem_of_fmap. exists (c.(lc_key), i). split; [done|]. apply elem_of_map_to_list.
    apply (ci_tracked _ _ _ _ Hc); [done|done| |by rewrite Hr]. intros Hx. by apply Hx.
  - apply Forall_forall. intros i. rewrite Htodo, list_elem_of_fmap. intros ([k i'] & -> & H%elem_of_map_to_list).
    destruct (ci_map _ _ _ _ Hc _ _ H) as (c & Hi & _). by eapply lookup_lt_Some.
Qed.
(** a call of [Close] has returned: [onClose] has run *)
Lemma returned_gone E u s k pc : env_ok E → alive E u s → s.(lf_closers) !! k = Some pc → returned pc → s.(lf_onClose) ≠ 0%nat.
Proof.
  intros HE Ha Hk Hr. destruct (alive_inv E u s HE Ha) as [tp Hi]. pose proof (li_closers _ _ _ _ Hi _ _ Hk) as Hp.
  assert (tp = 11%nat) as -> by (destruct Hr as [-> | ->]; cbn in Hp; congruence). pose proof (li_shared _ _ _ _ Hi) as Hsh.
  injection Hsh as _ _ _ _ ->. done.
Qed.

Lemma lcloser_inv j w w' : lcloser_step j w w' → world_inv w → world_inv w'.
Proof.
  intros Hstep Hw. pose proof (wi_conns _ Hw) as Hci. pose proof (wi_accept _ Hw) as Hai.
  destruct Hstep as [w Hj Hc|w Hj Hc|w Hj|w Hj|w Hj Hwg|w Hj|w todo Hj Htodo|w i todo c s' Hj Hi Hs|w i k todo c pc Hj Hi Hk Hret|w Hj];
    pose proof (wi_closers _ Hw _ _ Hj) as Hp; cbn [gpc_inv] in Hp.
  - apply (winner_moves w _ j GStart); try done; [by right|]. cbn. split; [done|].
    destruct (w_nil w) eqn:Hn; [|done]. by rewrite (wi_nil w Hw Hn) in Hc.
  - by apply loser_moves.
  - apply (winner_moves w _ j GChan); try done; [by left|apply Hp|]. cbn. by destruct Hp.
  - apply (winner_moves w _ j GShutdown); try done; [by left|apply Hp|]. cbn. by destruct Hp as (? & ? & ?).
  - apply (winner_moves w _ j GWait); try done; [by left|apply Hp|]. cbn. destruct Hp as (? & ? & ? & _). split_and!; try done.
    pose proof (wi_wg _ Hw) as Hx. rewrite Hwg in Hx. by destruct (w_reader w).
  - apply (winner_moves w _ j GSock); try done; [by left|apply Hp].
  - destruct Hp as (P1 & P2 & P3 & P4). apply (winner_moves w _ j GSnapshot); try done; [by left| |].
    + cbn. rewrite P4 in *. destruct Hci as [C1 C2 C3 C4 C5 C6 C7 C8]. split; done.
    + cbn. split_and!; try done. by apply snapshot_covers.
  - destruct Hp as (P1 & P2 & P3 & P4 & P5). destruct (call_le _ _ _ _ Hs) as [Hle Hoc].
    assert (later c (c <| lc_life := s' |>)) as Hl by (split_and!; try done; [by eapply call_later|apply Hle..]).
    apply (winner_moves w _ j (GClosing (i :: todo))); try done; cbn; [by left| | |].
    + pose proof (conns_after _ _ _ _ (w_reader w) i c (c <| lc_life := s' |>) Hci Hi Hl) as H. rewrite decide_True in H by done.
      apply H; try done; [|by rewrite P3..]. cbn. rewrite (call_started _ _ _ _ Hs), P3. done.
    + by rewrite length_insert.
    + split_and!; try done; [by eapply covers_later; [eapply lives_later_insert|]|].
      exists (c <| lc_life := s' |>). split; [apply list_lookup_insert_eq; by eapply lookup_lt_Some|].
      inversion_clear Hs. cbn. rewrite length_app. cbn. lia.
  - destruct Hp as (P1 & P2 & P3 & P4 & [P5 P6] & _). apply (winner_moves w _ j (GWaiting i k todo)); try done; cbn; [by left|].
    split_and!; try done. split; [|by inversion P6]. intros i' c' Hi'. destruct (P5 i' c' Hi') as [Hg|[->|Hin]%elem_of_cons]; [by left|left|by right].
    assert (c' = c) as -> by (unfold conn_at in Hi; congruence). destruct (ci_alive _ _ _ _ Hci i c Hi) as [HE Ha]. by eapply returned_gone.
  - destruct Hp as (P1 & P2 & P3 & P4 & P5). apply (winner_moves w _ j (GClosing [])); try done. by left.
Qed.
End steps.
