(* ===== verification/ListenerRun.v ===== *)
(** * Runs of a listener

    What holds in every state a listener and its connections can reach. *)
From stdpp Require Import strings.
From S2P Require Import Prelude Errors Frame Float64 Pacer Options Ring StreamRecv Retransmit RetransmitSpec RetransmitRefine.
From S2P Require Import StreamSend SendRule Estimator SendBatch BatchInv SendFifo Connection ConnLemmas Termination ConnBooks ConnInv ConnOps ConnRun ConnFlags Lifecycle LifeInv Teardown Listener ListenerInv.

Section run.
Context (cf : config).
Implicit Types (w : world).

Lemma lown_inv w w' : lown_step cf w w' → world_inv w → world_inv w'.
Proof.
  intros [w1 w2 H|j w1 w2 H|w1 i c s' Hi H] Hw; [by eapply lreader_inv|by eapply lcloser_inv|].
  apply conn_step_inv; [done|done|by left|by eapply own_le|by eapply own_started].
Qed.
Lemma world_step_inv w w' : world_step cf w w' → world_inv w → world_inv w'.
Proof.
  assert (∀ w i c s', s'.(lf_onClose) = c.(lc_life).(lf_onClose) → set_life w i c s' = after_own w i c s') as Hset.
  { intros w0 i c s' Hoc. unfold after_own. by rewrite decide_True. }
  intros [w1 w2 H|w1 w2 H|w1 i c s' Hi Hst H|w1 stop|w1|w1 i c k s' Hin Hi Hk Hs] Hw.
  - by eapply lown_inv.
  - by eapply lkernel_inv.
  - destruct (kernel_le _ _ H) as (Hle & Hoc & Hst'). rewrite Hset by done. apply conn_step_inv; [done|done|right; by left|done|done].
  - by apply accept_step_inv.
  - apply (world_other w1); try done; cbn; [by split_and!; [done..|]; intros ?; split; [done|apply lives_later_refl]|by right|apply Hw..].
  - destruct (call_le _ _ _ _ Hs) as [Hle Hoc]. rewrite Hset by done.
    apply conn_step_inv; [done|done|by eapply call_later|done|].
    rewrite (call_started _ _ _ _ Hs). destruct Hk as [->|[op ->]]; by inversion Hs.
Qed.
Lemma listening_inv w : listening cf w → world_inv w.
Proof.
  intros [pacers Hs]. assert (world_inv (newListener pacers)) as H0 by apply new_world_inv. revert H0.
  induction Hs as [w|w1 w2 w3 H1 _ IH]; [done|]. intros Hw. by eapply IH, world_step_inv.
Qed.

(** a connection that is gone is torn down *)
Lemma gone_down E u s : env_ok E → alive E u s → s.(lf_onClose) ≠ 0%nat →
  s.(lf_sock) = SockClosed ∧ s.(lf_reader) = RLeft ∧ s.(lf_resender) = WLeft ∧ s.(lf_keeper) = PLeft ∧ s.(lf_conn).(cn_streams) = ∅.
Proof.
  intros HE Ha Hg. destruct (alive_inv E u s HE Ha) as [tp Hi]. pose proof (li_shared _ _ _ _ Hi) as Hsh. injection Hsh as _ _ Hsk _ Hoc.
  assert (10 ≤ tp)%nat as Ht by (rewrite Hoc in Hg; by destruct (decide (10 ≤ tp)%nat)).
  rewrite Hsk. unfold sock_at. rewrite !decide_False by lia. split; [done|].
  pose proof (li_wait _ _ _ _ Hi ltac:(lia)) as Hw. rewrite (li_wg _ _ _ _ Hi), (inv_started E u tp s Hi) in Hw by lia.
  unfold working in Hw. split_and!; [by destruct (lf_reader s), (lf_resender s), (lf_keeper s)..|].
  apply (ti_nil E _ (ck_table E _ (reachable_ok E HE _ ltac:(apply Hi)))). pose proof (li_flags _ _ _ _ Hi) as Hf.
  rewrite (bool_decide_true (5 ≤ tp)%nat) in Hf by lia. by injection Hf.
Qed.
End run.

Lemma lown_world cf w w' : rtc (lown_step cf) w w' → rtc (world_step cf) w w'.
Proof. induction 1 as [|w1 w2 w3 H _ IH]; [done|]. eapply rtc_l; [|exact IH]. by apply ws_own. Qed.

(** ** A run: a peer's handshake makes a connection, which is accepted; then
    the listener is closed. *)
Definition listen_cf : config := WithBatchSize 2 (WithMaxDatagramSize 140 defaultConfig).
Definition listen_E : cenv := example_env listen_cf false.
Lemma listen_env_ok : env_ok listen_E.
Proof. split; [apply tx_setup_ok; [split; vm_compute; naive_solver|done|by intros _]|done|done]. Qed.
Definition hello : list Z := header_bytes frameHandshake 0 0 8 ++ handshakePayload 7.
Definition peer : string := "10.0.0.1:9".
Definition made : lconn := mkLconn peer 7 listen_E false (newLife listen_E false).
Definition started_conn : lconn := made <| lc_life := start listen_E made.(lc_life) |>.
Definition acked_conn : Connection := tx_do' (sendControlFrame listen_E.(ce_tx) frameHandshake 0 0) started_conn.(lc_life).(lf_conn).
Definition acked_life : life := set_conn started_conn.(lc_life) acked_conn.
Lemma acked_step : call_step listen_E (CallOp KHandshakeAck) started_conn.(lc_life) acked_life.
Proof. unfold acked_life. apply (ca_op _ _ KHandshakeAck acked_conn); [reflexivity|exact I|exact I|]. unfold acked_conn, conn_step. reflexivity. Qed.

Definition lrun_1 : world := newListener ∅ <| w_reader := LRecv |>.
Definition lrun_2 : world := lrun_1 <| w_reader := LGot peer hello |>.
Definition lrun_3 : world := lrun_2 <| w_pacers := ∅ |> <| w_lives := [made] |> <| w_reader := LPublish 0 |>.
Definition lrun_4 : world := lrun_3 <| w_conns := <[peer := 0%nat]> ∅ |> <| w_reader := LStart 0 |>.
Definition lrun_5 : world := set_life lrun_4 0 made (start listen_E made.(lc_life)) <| w_reader := LAck 0 |>.
Definition lrun_6 : world := set_life lrun_5 0 started_conn acked_life <| w_reader := LOffer 0 |>.
Definition lrun_7 : world := lrun_6 <| w_acceptCh := [0%nat] |> <| w_reader := LTop |>.
Definition lrun_8 : world := (Accept lrun_7 false).1.
Definition lrun_9 : world := lrun_8 <| w_closers := [GStart] |>.

Lemma hello_bytes : Forall is_u8 hello.
Proof. apply bytes_okb. vm_compute. reflexivity. Qed.
Lemma hello_len : frameHeaderSize ≤ Zlen hello ≤ maxDatagram listen_cf.
Proof. vm_compute. split; discriminate. Qed.
Lemma hello_id : handshake_of hello = Some 7.
Proof. vm_compute. reflexivity. Qed.
Lemma hello_makes : createConnection listen_cf lrun_2 0 peer 7 listen_E false (lrun_2 <| w_pacers := ∅ |> <| w_lives := [made] |>).
Proof. unfold createConnection. split; [|done]. split; [done|]. split; [done|exact listen_env_ok]. Qed.
Lemma hello_answered : (tx_do (sendControlFrame listen_E.(ce_tx) frameHandshake 0 0) started_conn.(lc_life).(lf_conn)).2 = None.
Proof. vm_compute. reflexivity. Qed.
Lemma answer_open : acked_life.(lf_conn).(cn_closed) = false.
Proof. exact (flags_closed _ _ (tx_flags (sendControlFrame listen_E.(ce_tx) frameHandshake 0 0) started_conn.(lc_life).(lf_conn))). Qed.

Lemma room : Zlen lrun_6.(w_acceptCh) < acceptChCap.
Proof. reflexivity. Qed.

(** one step of the listener's goroutine *)
#[local] Ltac by_reader t := eapply rtc_l; [exact (ws_own _ _ _ (lo_reader _ _ _ t))|].

Lemma lrun_listening : listening listen_cf lrun_9.
Proof.
  exists ∅.
  by_reader (lr_recv listen_cf (newListener ∅) eq_refl eq_refl).
  eapply rtc_l; [exact (ws_kernel _ _ _ (lr_datagram listen_cf lrun_1 peer hello eq_refl hello_bytes hello_len))|].
  by_reader (lr_create listen_cf lrun_2 peer hello 7 0 listen_E false _ eq_refl eq_refl hello_id hello_makes).
  by_reader (lr_publish listen_cf lrun_3 0 made eq_refl eq_refl eq_refl).
  by_reader (lr_start listen_cf lrun_4 0 made _ eq_refl eq_refl (ca_start listen_E made.(lc_life) eq_refl)).
  by_reader (lr_ack listen_cf lrun_5 0 started_conn acked_life eq_refl eq_refl acked_step hello_answered).
  by_reader (lr_offer listen_cf lrun_6 0 (started_conn <| lc_life := acked_life |>) eq_refl eq_refl answer_open room).
  eapply rtc_l; [exact (ws_accept listen_cf lrun_7 false)|].
  eapply rtc_l; [exact (ws_close listen_cf lrun_8)|]. apply rtc_refl.
Qed.

(** connection [i] belongs in the table under [k]: it was made for that peer,
    it is past its entry and its teardown is not complete *)
Definition belongs (w : world) (k : string) (i : nat) : Prop :=
  ∃ c, w.(w_lives) !! i = Some c ∧ c.(lc_key) = k ∧ ¬ gone c ∧ w.(w_reader) ≠ LPublish i.

(** C14: the listener's table is exact.  Until the listener is closed, its map
    holds, under its peer's address, each connection it has made whose
    teardown is not complete, and nothing else (a connection just made is
    entered before its goroutines start): so a peer never has two
    connections, a retransmitted handshake finds the first, and the removal
    that ends a connection, which names only the address, never hits a later
    connection of the same peer.  The goroutine never writes to the nil map,
    it starts a connection exactly once and before anyone can close it, and
    [Accept] never hands out a connection twice. *)
Theorem listener_tracks cf w :
  listening cf w →
  (w.(w_nil) = false → ∀ k i, w.(w_conns) !! k = Some i ↔ belongs w k i) ∧
  (∀ i, w.(w_reader) = LPublish i → w.(w_nil) = false ∧ ∃ c, w.(w_lives) !! i = Some c ∧ w.(w_conns) !! c.(lc_key) = None) ∧
  (∀ i c, w.(w_lives) !! i = Some c → c.(lc_life).(lf_started) = bool_decide (unstarted w.(w_reader) ≠ Some i)) ∧
  (∀ i c, w.(w_lives) !! i = Some c → c.(lc_life).(lf_closers) ≠ [] → c.(lc_life).(lf_started) = true) ∧
  NoDup (w.(w_accepted) ++ w.(w_acceptCh)).
Proof.
  intros Hw%listening_inv. pose proof (wi_conns _ Hw) as Hc. split_and!.
  - intros Hn k i. split.
    + intros Hk. destruct (ci_map _ _ _ _ Hc k i Hk) as (c & Hi & Hkc & Hg). exists c. split_and!; try done. intros Hr.
      destruct (ci_publish _ _ _ _ Hc i Hr) as (c' & Hi' & Hno). congruence.
    + intros (c & Hi & <- & Hg & Hr). by apply (ci_tracked _ _ _ _ Hc).
  - intros i Hr. split; [|by apply (ci_publish _ _ _ _ Hc)]. apply reader_not_nil; [done|]. by rewrite Hr.
  - apply Hc.
  - intros i c Hi Hcl. destruct (ci_alive _ _ _ _ Hc i c Hi) as [HE Ha]. destruct (alive_inv _ _ _ HE Ha) as [tp Hl].
    destruct (lf_started (lc_life c)) eqn:Hs; [done|]. by destruct (li_started _ _ _ _ Hl Hs).
  - apply Hw.
Qed.
Lemma listener_tracks_witness : listening listen_cf lrun_9 ∧ lrun_9.(w_accepted) = [0%nat] ∧ lrun_9.(w_conns) !! peer = Some 0%nat.
Proof.
  split; [exact lrun_listening|]. split; [reflexivity|].
  destruct (listener_tracks listen_cf lrun_9 lrun_listening) as [H _]. apply (H eq_refl).
  exists (started_conn <| lc_life := acked_life |>). split; [reflexivity|]. split; [reflexivity|]. split; [|discriminate].
  intros Hg. apply Hg. reflexivity.
Defined.
