(* ===== verification/ListenerEnd.v ===== *)
(** * Closing a listener comes to an end *)
From stdpp Require Import strings.
From S2P Require Import Prelude Errors Frame Float64 Pacer Options Ring StreamRecv Retransmit RetransmitSpec RetransmitRefine.
From S2P Require Import StreamSend SendRule Estimator SendBatch BatchInv SendFifo Connection ConnLemmas Termination ConnBooks ConnInv ConnOps ConnRun ConnFlags Lifecycle LifeInv Teardown Listener ListenerInv ListenerRun.

Section ends.
Context (cf : config).
Implicit Types (w : world) (c : lconn).
#[local] Abbreviation runs := (rtc (lown_step cf)).

Lemma runs_inv w w' : runs w w' → world_inv w → world_inv w'.
Proof. induction 1 as [|w1 w2 w3 H _ IH]; [done|]. intros Hw. by eapply IH, lown_inv. Qed.
Lemma own_le_star E s s' : rtc (own_step E) s s' → life_le s s'.
Proof.
  induction 1 as [s|s1 s2 s3 H _ IH]; [done|]. apply own_le in H as (H1 & H2 & H3). destruct IH as (I1 & I2 & I3). unfold life_le. split_and!; auto; lia.
Qed.

(** what a connection's own steps leave of the listener *)
Definition lstate w := (w.(w_reader), w.(w_closers), w.(w_closed)).

(** connection [i] runs by itself *)
Lemma conn_runs E i s s' : rtc (own_step E) s s' → ∀ w c, conn_at w i c → c.(lc_env) = E → c.(lc_life) = s →
  ∃ w', runs w w' ∧ conn_at w' i (c <| lc_life := s' |>) ∧ lstate w' = lstate w ∧ w'.(w_conns) ⊆ w.(w_conns).
Proof.
  induction 1 as [s|s1 s2 s3 H _ IH]; intros w c Hi HE Hs.
  - exists w. split_and!; [done| |done|done]. rewrite <- Hs. by destruct c.
  - subst E s1. assert (conn_at (after_own w i c s2) i (c <| lc_life := s2 |>)) as Hi2.
    { unfold after_own, conn_at. destruct (decide _); cbn; apply list_lookup_insert_eq; by eapply lookup_lt_Some. }
    destruct (IH _ _ Hi2 eq_refl eq_refl) as (w' & H1 & H2 & H3 & H4). exists w'. split_and!; [|exact H2| |].
    + eapply rtc_l; [|exact H1]. by apply lo_conn.
    + rewrite H3. unfold after_own. by destruct (decide _).
    + etrans; [exact H4|]. unfold after_own. destruct (decide _); [done|]. cbn. apply delete_subseteq.
Qed.

(** a started connection's fallback path ends *)
Lemma conn_forward_ends w i c : world_inv w → conn_at w i c → c.(lc_life).(lf_started) = true →
  ∃ w' c', runs w w' ∧ conn_at w' i c' ∧ c'.(lc_env) = c.(lc_env) ∧ c'.(lc_life).(lf_forward) = FIdle ∧ c'.(lc_life).(lf_started) = true ∧ lstate w' = lstate w ∧
    w'.(w_conns) ⊆ w.(w_conns).
Proof.
  intros Hw Hi Hst. destruct (ci_alive _ _ _ _ (wi_conns _ Hw) i c Hi) as [HE Ha]. destruct (alive_inv _ _ _ HE Ha) as [tp Hl].
  destruct (forward_ends _ HE _ tp _ Hl Hst) as (s' & H1 & H2). apply calm_own in H1.
  destruct (conn_runs _ i _ _ H1 w c Hi eq_refl eq_refl) as (w' & R1 & R2 & R3 & R4). exists w', (c <| lc_life := s' |>). split_and!; try done.
  apply own_le_star in H1 as (_ & Hle & _). by apply Hle.
Qed.
(** a call of a connection's [Close] returns *)
Lemma conn_close_returns w i k c : world_inv w → conn_at w i c → (k < length c.(lc_life).(lf_closers))%nat →
  ∃ w' c' pc, runs w w' ∧ conn_at w' i c' ∧ c'.(lc_life).(lf_closers) !! k = Some pc ∧ returned pc ∧ lstate w' = lstate w.
Proof.
  intros Hw Hi Hk. destruct (ci_alive _ _ _ _ (wi_conns _ Hw) i c Hi) as [HE Ha]. destruct (alive_inv _ _ _ HE Ha) as [tp Hl].
  destruct (all_return _ HE _ tp _ Hl) as (s' & H1 & H2 & _); [intros Hx; rewrite Hx in Hk; cbn in Hk; lia|].
  destruct (conn_runs _ i _ _ H1 w c Hi eq_refl eq_refl) as (w' & R1 & R2 & R3 & _). apply own_le_star in H1 as (_ & _ & Hle).
  destruct (lookup_lt_is_Some_2 s'.(lf_closers) k ltac:(lia)) as [pc Hpc]. exists w', (c <| lc_life := s' |>), pc. split_and!; try done.
  rewrite Forall_lookup in H2. by eapply H2.
Qed.

(** ** The listener's goroutine leaves *)

(** from [w], with the listener closed, it can leave *)
Definition leaves w : Prop := ∃ w', runs w w' ∧ w'.(w_reader) = LLeft ∧ w'.(w_closers) = w.(w_closers) ∧ w'.(w_closed) = true.

Lemma leaves_via w w1 : runs w w1 → w1.(w_closers) = w.(w_closers) → leaves w1 → leaves w.
Proof. intros H1 Hc (w2 & H2 & H3 & H4 & H5). exists w2. split_and!; [by etrans|done|congruence|done]. Qed.
Lemma leaves_step w w1 : lreader_step cf w w1 → w1.(w_closers) = w.(w_closers) → leaves w1 → leaves w.
Proof. intros H1 Hc. apply leaves_via; [|done]. by apply rtc_once, lo_reader. Qed.

Lemma leaves_top w : w.(w_reader) = LTop → w.(w_closed) = true → leaves w.
Proof. intros Hr Hc. exists (lDone (w <| w_reader := LLeft |>)). split_and!; try done. apply rtc_once, lo_reader. by apply lr_closed. Qed.

Lemma leaves_forward w i : world_inv w → w.(w_reader) = LForward i → w.(w_closed) = true → leaves w.
Proof.
  intros Hw Hr Hc. destruct (lookup_lt_is_Some_2 w.(w_lives) i) as [c Hi]; [apply (ci_refers _ _ _ _ (wi_conns _ Hw)); by rewrite Hr|].
  assert (lf_started (lc_life c) = true) as Hst by (rewrite (ci_started _ _ _ _ (wi_conns _ Hw) i c Hi), Hr; done).
  destruct (conn_forward_ends w i c Hw Hi Hst) as (w1 & c1 & R & Hi1 & _ & Hf & _ & [= Hr1 Hcl1 Hc1] & _).
  eapply leaves_via; [exact R|done|]. eapply leaves_step; [apply (lr_forwarded cf w1 i c1); congruence|done|]. apply leaves_top; [done|cbn; congruence].
Qed.
Lemma leaves_offer w i : world_inv w → w.(w_reader) = LOffer i → w.(w_closed) = true → leaves w.
Proof.
  intros Hw Hr Hc. destruct (lookup_lt_is_Some_2 w.(w_lives) i) as [c Hi]; [apply (ci_refers _ _ _ _ (wi_conns _ Hw)); by rewrite Hr|].
  destruct (cn_closed (lf_conn (lc_life c))) eqn:Hcl; [eapply leaves_step; [by apply (lr_dead cf w i c)|done|by apply leaves_top]|].
  destruct (decide (Zlen w.(w_acceptCh) < acceptChCap)).
  - eapply leaves_step; [by apply (lr_offer cf w i c)|done|by apply leaves_top].
  - eapply leaves_step; [apply (lr_full cf w i c); [done..|lia]|done|by apply leaves_top].
Qed.
Lemma leaves_close w i k : world_inv w → w.(w_reader) = LCloseConn i k → w.(w_closed) = true → leaves w.
Proof.
  intros Hw Hr Hc. destruct (lookup_lt_is_Some_2 w.(w_lives) i) as [c Hi]; [apply (ci_refers _ _ _ _ (wi_conns _ Hw)); by rewrite Hr|].
  destruct (conn_close_returns w i k c Hw Hi) as (w1 & c1 & pc & R & Hi1 & Hpc & Hret & [= Hr1 Hcl1 Hc1]); [by eapply (ci_close _ _ _ _ (wi_conns _ Hw))|].
  eapply leaves_via; [exact R|done|]. eapply leaves_step; [apply (lr_close_returned cf w1 i k c1 pc); congruence|done|]. apply leaves_top; [done|cbn; congruence].
Qed.
Lemma leaves_failed w i : world_inv w → w.(w_reader) = LFailed i → w.(w_closed) = true → leaves w.
Proof.
  intros Hw Hr Hc. destruct (lookup_lt_is_Some_2 w.(w_lives) i) as [c Hi]; [apply (ci_refers _ _ _ _ (wi_conns _ Hw)); by rewrite Hr|].
  assert (lf_started (lc_life c) = true) as Hst by (rewrite (ci_started _ _ _ _ (wi_conns _ Hw) i c Hi), Hr; done).
  pose proof (lr_close cf w i c _ Hr Hi (ca_close _ _ Hst)) as H1. eapply leaves_step; [exact H1|done|].
  eapply leaves_close; [by eapply lreader_inv|done|done].
Qed.
Lemma leaves_ack w i : world_inv w → w.(w_reader) = LAck i → w.(w_closed) = true → leaves w.
Proof.
  intros Hw Hr Hc. destruct (lookup_lt_is_Some_2 w.(w_lives) i) as [c Hi]; [apply (ci_refers _ _ _ _ (wi_conns _ Hw)); by rewrite Hr|].
  assert (lf_started (lc_life c) = true) as Hst by (rewrite (ci_started _ _ _ _ (wi_conns _ Hw) i c Hi), Hr; done).
  pose proof (ca_op (lc_env c) (lc_life c) KHandshakeAck _ Hst I I eq_refl) as Hs.
  destruct (tx_do (sendControlFrame (ce_tx (lc_env c)) frameHandshake 0 0) (lf_conn (lc_life c))).2 as [e|] eqn:He.
  - pose proof (lr_ack_failed cf w i c _ e Hr Hi Hs He) as H1. eapply leaves_step; [exact H1|done|].
    eapply leaves_failed; [by eapply lreader_inv|done|done].
  - pose proof (lr_ack cf w i c _ Hr Hi Hs He) as H1. eapply leaves_step; [exact H1|done|].
    eapply leaves_offer; [by eapply lreader_inv|done|done].
Qed.
Lemma leaves_start w i : world_inv w → w.(w_reader) = LStart i → w.(w_closed) = true → leaves w.
Proof.
  intros Hw Hr Hc. destruct (lookup_lt_is_Some_2 w.(w_lives) i) as [c Hi]; [apply (ci_refers _ _ _ _ (wi_conns _ Hw)); by rewrite Hr|].
  assert (lf_started (lc_life c) = false) as Hst by (rewrite (ci_started _ _ _ _ (wi_conns _ Hw) i c Hi), Hr; cbn; by rewrite bool_decide_false by naive_solver).
  pose proof (lr_start cf w i c _ Hr Hi (ca_start _ _ Hst)) as H1. eapply leaves_step; [exact H1|done|].
  eapply leaves_ack; [by eapply lreader_inv|done|done].
Qed.
Lemma leaves_publish w i : world_inv w → w.(w_reader) = LPublish i → w.(w_closed) = true → leaves w.
Proof.
  intros Hw Hr Hc. destruct (lookup_lt_is_Some_2 w.(w_lives) i) as [c Hi]; [apply (ci_refers _ _ _ _ (wi_conns _ Hw)); by rewrite Hr|].
  pose proof (lr_publish cf w i c Hr Hi (reader_not_nil w Hw ltac:(congruence))) as H1. eapply leaves_step; [exact H1|done|].
  eapply leaves_start; [by eapply lreader_inv|done|done].
Qed.
Lemma leaves_unknown w key buf : w.(w_reader) = LGot key buf → w.(w_conns) !! key = None → w.(w_closed) = true → leaves w.
Proof.
  intros Hr Hk Hc. destruct (handshake_of buf) as [connID|] eqn:Hh.
  - eapply leaves_step; [by apply (lr_fail cf w key buf connID)|done|by apply leaves_top].
  - eapply leaves_step; [by apply (lr_ignored cf w key buf)|done|by apply leaves_top].
Qed.
Lemma leaves_got w key buf : world_inv w → w.(w_reader) = LGot key buf → w.(w_closed) = true → leaves w.
Proof.
  intros Hw Hr Hc. destruct (w_conns w !! key) as [i|] eqn:Hk; [|by eapply leaves_unknown].
  destruct (ci_map _ _ _ _ (wi_conns _ Hw) key i Hk) as (c & Hi & Hkc & _).
  assert (lf_started (lc_life c) = true) as Hst by (rewrite (ci_started _ _ _ _ (wi_conns _ Hw) i c Hi), Hr; done).
  destruct (conn_forward_ends w i c Hw Hi Hst) as (w1 & c1 & R & Hi1 & He1 & Hf & Hst1 & [= Hr1 Hcl1 Hc1] & Hsub).
  pose proof (runs_inv _ _ R Hw) as Hw1. eapply leaves_via; [exact R|done|].
  destruct (w_conns w1 !! key) as [j|] eqn:Hk1; [|eapply leaves_unknown; [by rewrite Hr1|done|congruence]].
  pose proof (lookup_weaken _ _ _ _ Hk1 Hsub) as Hj. rewrite Hk in Hj. injection Hj as <-.
  pose proof (ca_forward (lc_env c1) (lc_life c1) buf Hst1 Hf (wi_bytes _ Hw _ _ Hr)) as Hs.
  rewrite Hr in Hr1. pose proof (lr_found cf w1 key buf i c1 _ Hr1 Hk1 Hi1 Hs) as H1. eapply leaves_step; [exact H1|done|].
  eapply leaves_forward; [by eapply lreader_inv|done|cbn; congruence].
Qed.

Lemma reader_leaves_listener w : world_inv w → w.(w_closed) = true → w.(w_sock) ≠ SockOpen → leaves w.
Proof.
  intros Hw Hc Hsk. destruct (w_reader w) as [| |key buf|i|i|i|i|i|i k|i|] eqn:Hr.
  - by apply leaves_top.
  - eapply leaves_step; [by apply lr_shut|done|by apply leaves_top].
  - by eapply leaves_got.
  - by eapply leaves_forward.
  - by eapply leaves_publish.
  - by eapply leaves_start.
  - by eapply leaves_ack.
  - by eapply leaves_failed.
  - by eapply leaves_close.
  - by eapply leaves_offer.
  - by exists w.
Qed.

(** ** [Close] goes on *)

(** the listener and its connections can run, by themselves, until the call
    that closes the listener has returned *)
Definition finishes w : Prop := ∃ w' j, runs w w' ∧ w'.(w_closers) !! j = Some GDone.
Lemma finishes_via w w1 : runs w w1 → finishes w1 → finishes w.
Proof. intros H1 (w2 & j & H2 & H3). exists w2, j. split; [by etrans|done]. Qed.
Lemma finishes_step j w w1 : world_inv w → lcloser_step j w w1 → (world_inv w1 → finishes w1) → finishes w.
Proof. intros Hw H1 H2. eapply finishes_via; [apply rtc_once, (lo_closer cf j), H1|]. by apply H2; eapply lcloser_inv. Qed.
Lemma lat_lgoto w j pc pc' : lat_pc w j pc → lat_pc (lgoto w j pc') j pc'.
Proof. intros Hj. apply list_lookup_insert_eq. by eapply lookup_lt_Some. Qed.

Lemma finishes_closing todo w j : world_inv w → lat_pc w j (GClosing todo) → finishes w.
Proof.
  revert w. induction todo as [|i todo IH]; intros w Hw Hj.
  - exists (lgoto w j GDone), j. split; [by apply rtc_once, (lo_closer cf j), lcl_done|by eapply lat_lgoto].
  - destruct (wi_closers _ Hw _ _ Hj) as (_ & _ & Hr & _ & _ & Hall). apply Forall_cons in Hall as [Hlt _].
    destruct (lookup_lt_is_Some_2 w.(w_lives) i Hlt) as [c Hi].
    assert (lf_started (lc_life c) = true) as Hst by (rewrite (ci_started _ _ _ _ (wi_conns _ Hw) i c Hi), Hr; done).
    pose proof (lcl_close j w i todo c _ Hj Hi (ca_close _ _ Hst)) as H1. eapply finishes_step; [done|exact H1|]. intros Hw1.
    set (w1 := lgoto _ j _) in *. assert (lat_pc w1 j (GWaiting i (length c.(lc_life).(lf_closers)) todo)) as Hj1 by (by eapply (lat_lgoto (set_life w i c _))).
    destruct (wi_closers _ Hw1 _ _ Hj1) as (_ & _ & _ & _ & _ & c1 & Hi1 & Hk).
    destruct (conn_close_returns w1 i _ c1 Hw1 Hi1 Hk) as (w2 & c2 & pc & R & Hi2 & Hpc & Hret & [= _ Hcl2 _]).
    pose proof (runs_inv _ _ R Hw1) as Hw2. eapply finishes_via; [exact R|].
    assert (lat_pc w2 j (GWaiting i (length c.(lc_life).(lf_closers)) todo)) as Hj2 by (unfold lat_pc; by rewrite Hcl2).
    eapply finishes_step; [done|by eapply lcl_close_returned|]. intros Hw3. eapply IH; [done|by eapply lat_lgoto].
Qed.
Lemma finishes_snapshot w j : world_inv w → lat_pc w j GSnapshot → finishes w.
Proof.
  intros Hw Hj. eapply finishes_step; [done|by apply (lcl_snapshot j w _ Hj (Permutation_refl _))|]. intros Hw1.
  eapply finishes_closing; [done|by eapply (lat_lgoto (w <| w_conns := ∅ |> <| w_nil := true |>))].
Qed.
Lemma finishes_sock w j : world_inv w → lat_pc w j GSock → finishes w.
Proof.
  intros Hw Hj. eapply finishes_step; [done|by apply (lcl_sock j w Hj)|]. intros Hw1.
  eapply finishes_snapshot; [done|by eapply (lat_lgoto (w <| w_sock := SockClosed |>))].
Qed.
Lemma finishes_wait w j : world_inv w → lat_pc w j GWait → finishes w.
Proof.
  intros Hw Hj. destruct (wi_closers _ Hw _ _ Hj) as (Hc & _ & _ & Hsk). destruct (reader_leaves_listener w Hw Hc ltac:(congruence)) as (w1 & R & Hr & Hcl & _).
  pose proof (runs_inv _ _ R Hw) as Hw1. eapply finishes_via; [exact R|].
  assert (lat_pc w1 j GWait) as Hj1 by (unfold lat_pc; by rewrite Hcl).
  eapply finishes_step; [done|apply (lcl_wait j w1 Hj1); rewrite (wi_wg _ Hw1); by rewrite Hr|]. intros Hw2.
  eapply finishes_sock; [done|by eapply lat_lgoto].
Qed.
Lemma finishes_shutdown w j : world_inv w → lat_pc w j GShutdown → finishes w.
Proof.
  intros Hw Hj. eapply finishes_step; [done|by apply (lcl_shutdown j w Hj)|]. intros Hw1.
  eapply finishes_wait; [done|by eapply (lat_lgoto (w <| w_sock := SockShut |>))].
Qed.
Lemma finishes_chan w j : world_inv w → lat_pc w j GChan → finishes w.
Proof.
  intros Hw Hj. eapply finishes_step; [done|by apply (lcl_chan j w Hj)|]. intros Hw1.
  eapply finishes_shutdown; [done|by eapply (lat_lgoto (w <| w_closeCh := true |>))].
Qed.

Lemma close_finishes w : world_inv w → w.(w_closers) ≠ [] → finishes w.
Proof.
  intros Hw Hne. assert (∀ w j pc, world_inv w → lat_pc w j pc → lwinner pc → finishes w) as Hwin.
  { clear w Hw Hne. intros w j pc Hw Hj [Hp1 Hp2]. destruct pc as [| | | | | | |todo|i k todo|]; try done.
    - by eapply finishes_chan.
    - by eapply finishes_shutdown.
    - by eapply finishes_wait.
    - by eapply finishes_sock.
    - by eapply finishes_snapshot.
    - by eapply finishes_closing.
    - destruct (wi_closers _ Hw _ _ Hj) as (_ & _ & _ & _ & _ & c1 & Hi1 & Hk).
      destruct (conn_close_returns w i k c1 Hw Hi1 Hk) as (w2 & c2 & pc & R & Hi2 & Hpc & Hret & [= _ Hcl2 _]).
      eapply finishes_via; [exact R|]. eapply finishes_step; [by eapply runs_inv|eapply (lcl_close_returned j w2); [unfold lat_pc; by rewrite Hcl2|done..]|].
      intros Hw3. eapply finishes_closing; [done|]. eapply (lat_lgoto _ _ (GWaiting i k todo)). unfold lat_pc. by rewrite Hcl2.
    - by exists w, j. }
  destruct (w_closed w) eqn:Hc.
  - destruct (wi_won _ Hw Hc) as (j & pc & Hj & Hp). by eapply Hwin.
  - destruct (w_closers w) as [|pc l] eqn:Hl; [done|]. assert (lat_pc w 0 pc) as Hj by (unfold lat_pc; by rewrite Hl).
    destruct (decide (pc = GStart)) as [->|Hp]; [|rewrite (gpc_closed w pc) in Hc; [done|by eapply (wi_closers _ Hw)|done]].
    eapply finishes_step; [done|by apply (lcl_win 0 w)|]. intros Hw1. eapply (Hwin _ 0%nat GChan); [done|by eapply (lat_lgoto (w <| w_closed := true |>))|done].
Qed.
End ends.

(** C16: closing a listener comes to an end.  Whatever the listener and its
    connections are doing when [Close] is called (a datagram being
    forwarded, a connection half made, connections being closed by their own
    peers or by the application), they can run, with no help from the
    application, from any peer or from the kernel, until the call that closes
    the listener has returned.  In particular a [Recvfrom] that is blocked
    when the listener is closed is one that the shutdown of its socket ends. *)
Theorem listener_close_ends cf w :
  listening cf w → w.(w_closers) ≠ [] → finishes cf w.
Proof. intros Hw%listening_inv Hne. by apply close_finishes. Qed.
Lemma listener_close_ends_witness : ∃ w' j, rtc (lown_step listen_cf) lrun_9 w' ∧ w'.(w_closers) !! j = Some GDone.
Proof. apply (listener_close_ends listen_cf lrun_9 lrun_listening). discriminate. Defined.

(** nothing of a connection is left: its descriptor is closed, its goroutines
    are gone and its streams have been told *)
Definition torn_down (s : life) : Prop :=
  s.(lf_sock) = SockClosed ∧ s.(lf_reader) = RLeft ∧ s.(lf_resender) = WLeft ∧ s.(lf_keeper) = PLeft ∧ s.(lf_conn).(cn_streams) = ∅.

(** C13: closing the listener closes everything.  When the call of [Close]
    that closed the listener has returned, the listener's goroutine is gone,
    and every connection the listener ever made, accepted or not, waiting in
    the accept queue, dropped because the queue was full, or already being
    closed by someone else, is completely torn down: its descriptor closed,
    its goroutines gone, its streams told.  (A call that finds the listener
    closed already returns at once, [GLost], and promises none of this.) *)
Theorem listener_close_complete cf w j :
  listening cf w → w.(w_closers) !! j = Some GDone →
  w.(w_reader) = LLeft ∧
  ∀ i c, w.(w_lives) !! i = Some c → torn_down c.(lc_life).
Proof.
  intros Hw%listening_inv Hj. destruct (wi_closers _ Hw _ _ Hj) as (_ & _ & Hr & _ & Hcov & _). split; [done|].
  intros i c Hi. destruct (Hcov i c Hi) as [Hg|Hin]; [|by apply elem_of_nil in Hin].
  destruct (ci_alive _ _ _ _ (wi_conns _ Hw) i c Hi) as [HE Ha]. by eapply gone_down.
Qed.

(** connections are only added *)
Lemma lown_length cf w w' : lown_step cf w w' → (length w.(w_lives) ≤ length w'.(w_lives))%nat.
Proof.
  intros [w1 w2 H|j w1 w2 H|w1 i c s' Hi H].
  - destruct H; cbn; rewrite ?length_insert; try done.
    match goal with Hcr : createConnection _ _ _ _ _ _ _ _ |- _ => rename Hcr into Hcr' end. unfold createConnection in Hcr'. destruct (ensureWirePacer _ _ _). destruct Hcr' as [_ ->]. cbn. rewrite length_app. lia.
  - destruct H; cbn; rewrite ?length_insert; done.
  - unfold after_own. destruct (decide _); cbn; by rewrite length_insert.
Qed.
Lemma lown_length_star cf w w' : rtc (lown_step cf) w w' → (length w.(w_lives) ≤ length w'.(w_lives))%nat.
Proof. induction 1 as [|w1 w2 w3 H%lown_length _ IH]; [done|]. lia. Qed.

Lemma listener_close_complete_witness : ∃ w j c,
  listening listen_cf w ∧ w.(w_closers) !! j = Some GDone ∧ w.(w_lives) !! 0%nat = Some c ∧ c.(lc_life).(lf_sock) = SockClosed.
Proof.
  destruct (close_finishes listen_cf lrun_9 (listening_inv _ _ lrun_listening) ltac:(discriminate)) as (w & j & R & Hj).
  assert (listening listen_cf w) as Hw.
  { destruct lrun_listening as [pacers H]. exists pacers. etrans; [exact H|by apply lown_world]. }
  destruct (lookup_lt_is_Some_2 w.(w_lives) 0) as [c Hc]; [apply lown_length_star in R; exact R|].
  destruct (listener_close_complete listen_cf w j Hw Hj) as [_ H]. destruct (H 0%nat c Hc) as [Hs _].
  exists w, j, c. exact (conj Hw (conj Hj (conj Hc Hs))).
Defined.
