(* ===== verification/Dial.v ===== *)
(** * The handshake of [Dial]

    With its socket made ([Sockets.v]), [Dial] makes the client's end of a
    connection, sends the handshake, and waits for the answer.  Its [select] is run over a list of events: which
    of its channels is ready when, and what the connection's reader receives
    meanwhile. *)
From stdpp Require Import strings.
From S2P Require Import Prelude Errors Frame Float64 Pacer Options Ring StreamRecv Retransmit RetransmitSpec RetransmitRefine.
From S2P Require Import StreamSend SendRule Estimator SendBatch BatchInv SendFifo Connection ConnLemmas Termination ConnBooks ConnInv ConnOps ConnRun ConnFlags ConnInput Lifecycle LifeInv Teardown Listener ListenerInv ListenerRun.

(** [Dial] is in [sendHandshake] or in its [select].  While it sends it may be
    held up (by the pacer, by [sendMu]) for any time, in which the connection's
    goroutines go on and its own channels become ready, but none is looked at:
    a channel that became ready then is found by the next [select], a later
    event. *)
Inductive dial_event :=
  | DReceive (msgs : list (list Z))        (* [readLoop], in the meantime *)
  | DWorker (op : conn_op)                 (* [retransmitLoop] and [keepAliveLoop] *)
  | DClose                                 (* the [go c.Close()] of a GOAWAY or of [keepAliveLoop] *)
  | DSent                                  (* the send of the handshake gets through, or fails *)
  | DEstablished                           (* [<-c.establishedCh] *)
  | DCancelled (err : go_error)            (* [<-ctx.Done()], with [ctx.Err()] *)
  | DDeadline                              (* [<-deadline.C] *)
  | DRetry.                                (* [<-retry.C] *)
Definition worker_op (op : conn_op) : bool := match op with KService | KWake | KTick | KKeepAlive => true | _ => false end.

Section dial.
Context (E : cenv).
Implicit Types (c : Connection).

(** [c.Close(); return nil, err] *)
Definition release c (err : go_error) : Connection * option (result unit) := ((conn_Close E c).1, Some (Err err)).

(** The loop of [Dial]: the connection it leaves and what it returned, [None]
    while it waits.  [establishedCh] is ready once it is closed; what is not
    ready, or not looked at, passes. *)
Fixpoint dialLoop (connID : Z) (sending : bool) c (evs : list dial_event) : option (Connection * option (result unit)) :=
  match evs with
  | [] => Some (c, None)
  | DReceive msgs :: evs => c ← readBatch E c msgs; dialLoop connID sending c evs
  | DWorker op :: evs => c ← (if worker_op op then conn_step E c op else Some c); dialLoop connID sending c evs
  | DClose :: evs => dialLoop connID sending (if c.(cn_closing) then (conn_Close E c).1 else c) evs
  | DSent :: evs =>
      if sending then
        match conn_sendHandshake E c connID with
        | (c, Some err) => Some (release c err)
        | (c, None) => dialLoop connID false c evs
        end
      else dialLoop connID sending c evs
  | DEstablished :: evs =>
      if sending then dialLoop connID sending c evs
      else if c.(cn_established) then Some (c, Some (Ok ())) else dialLoop connID sending c evs
  | DCancelled err :: evs => if sending then dialLoop connID sending c evs else Some (release c err)
  | DDeadline :: evs => if sending then dialLoop connID sending c evs else Some (release c ErrHandshakeTimeout)
  | DRetry :: evs => dialLoop connID true c evs
  end.

(** the part of [Dial] that follows the making of its socket: it begins with
    a handshake *)
Definition dialConn (connID : Z) (evs : list dial_event) : option (Connection * option (result unit)) :=
  dialLoop connID true (newConnection E) evs.
End dial.

(** the frames of a message, as [handleDatagramLocked] finds them *)
Fixpoint frames_of (fuel : nat) (buf : list Z) : list frame :=
  match fuel with
  | O => []
  | S fuel =>
      if Zlen buf >=? frameHeaderSize then
        match decodeFrame buf with
        | Err _ => []
        | Ok f => f :: frames_of fuel (slice buf (frameHeaderSize + f.(f_length)) (Zlen buf))
        end
      else []
  end.
(** the message has a HANDSHAKE frame *)
Definition has_handshake (m : list Z) : Prop := ∃ f, f ∈ frames_of (S (length m)) m ∧ f.(f_ftype) = frameHandshake.

Section established.
Context (E : cenv) (HE : env_ok E).
#[local] Abbreviation ok := (conn_ok E).
Implicit Types (c : Connection).

Lemma marks_established c c' : marks c' = marks c → c'.(cn_established) = c.(cn_established).
Proof. by intros [= _ _ ?]. Qed.

(** only a HANDSHAKE frame establishes *)
Lemma parse_established fuel c buf c' : ok c → Forall is_u8 buf → parseLoop E fuel c buf = Some c' → c'.(cn_established) = true →
  c.(cn_established) = true ∨ ∃ f, f ∈ frames_of fuel buf ∧ f.(f_ftype) = frameHandshake.
Proof using HE.
  revert c buf. induction fuel as [|fuel IH]; intros c buf Hc Hb; [done|]. cbn [parseLoop frames_of]. case_test; [|intros [= <-]; by left].
  destruct (decodeFrame buf) as [f|e] eqn:Hd; [|intros [= <-]; by left].
  destruct (dispatchFrameLocked E c f) as [c1|] eqn:H1; [|done]. cbn [mbind option_bind]. intros H2 He.
  destruct (decide (f.(f_ftype) = frameHandshake)) as [Ht|Ht]; [right; exists f; split; [by left|done]|].
  destruct (IH c1 _ (dispatch_ok E HE _ _ _ Hc (decodeFrame_wf _ _ Hb Hd) H1) ltac:(unfold slice; by apply Forall_take, Forall_drop) H2 He)
    as [H|(g & Hg & Htg)].
  - left. by rewrite <- (marks_established _ _ (dispatch_marks E HE c f c1 Hc Ht H1)).
  - right. exists g. split; [by right|done].
Qed.
Lemma messages_established c msgs c' : ok c → Forall (Forall is_u8) msgs → readMessages E c msgs = Some c' → c'.(cn_established) = true →
  c.(cn_established) = true ∨ ∃ m, m ∈ msgs ∧ has_handshake m.
Proof using HE.
  intros Hc Hm. revert c Hc. induction Hm as [|m msgs Hm _ IH]; intros c Hc; cbn [readMessages]; [intros [= <-]; by left|].
  assert (∀ c1, ok c1 → readMessages E c1 msgs = Some c' → c'.(cn_established) = true →
    c1.(cn_established) = true ∨ ∃ m', m' ∈ m :: msgs ∧ has_handshake m') as Hrest.
  { intros c1 H1 H2 H3. destruct (IH c1 H1 H2 H3) as [?|(m' & ? & ?)]; [by left|]. right. exists m'. split; [by right|done]. }
  case_test; [by apply Hrest|]. destruct (handleDatagramLocked E c m) as [c1|] eqn:H1; [|done]. cbn [mbind option_bind]. intros H2 He.
  destruct (Hrest c1 ltac:(by eapply (handleDatagramLocked_ok E HE)) H2 He) as [H3|?]; [|by right].
  unfold handleDatagramLocked in H1. destruct (cn_closed c); [injection H1 as <-; by left|].
  destruct (parse_established _ _ _ _ Hc Hm H1 H3) as [?|?]; [by left|]. right. exists m. split; [by left|done].
Qed.
Lemma batch_established c msgs c' : ok c → Forall (Forall is_u8) msgs → readBatch E c msgs = Some c' → c'.(cn_established) = true →
  c.(cn_established) = true ∨ ∃ m, m ∈ msgs ∧ has_handshake m.
Proof using HE.
  intros Hc Hm. unfold readBatch. destruct (cn_closed c); [intros [= <-]; by left|]. destruct (readMessages E c msgs) as [c1|] eqn:H1; [|done].
  cbn [mbind option_bind]. intros H2%flushPendingAcksLocked_marks%marks_established. rewrite H2. by apply messages_established.
Qed.
End established.

(** ** What [Dial] returns *)

(** what the reader receives is bytes *)
Definition bytes_event (ev : dial_event) : Prop := match ev with DReceive msgs => Forall (Forall is_u8) msgs | _ => True end.
(** the peer answered during [evs] *)
Definition answered (evs : list dial_event) : Prop := ∃ msgs m, DReceive msgs ∈ evs ∧ m ∈ msgs ∧ has_handshake m.
Lemma answered_cons ev evs : answered evs → answered (ev :: evs).
Proof. intros (msgs & m & H1 & H2 & H3). exists msgs, m. split_and!; [by right|done|done]. Qed.

(** [Dial] is sending, after [evs] *)
Definition sending_after (sending : bool) (evs : list dial_event) : bool :=
  foldl (λ b ev, match ev with DRetry => true | DSent => false | _ => b end) sending evs.

(** what a return of [Dial] says of the connection; [est], [closed] and
    [sending] are what was so at the start *)
Record dial_result (sending est closed : bool) (evs : list dial_event) (c : Connection) (r : option (result unit)) : Prop := mkDialResult {
  dr_ok : r = Some (Ok ()) → c.(cn_established) = true ∧ (est = true ∨ answered evs);
  dr_err e : r = Some (Err e) → c.(cn_closed) = true ∧ c.(cn_streams) = ∅;
  dr_open : (∀ e, r ≠ Some (Err e)) → c.(cn_closed) = true → closed = true ∨ DClose ∈ evs;
  dr_wait : r = None → ∀ evs1 evs2, evs = evs1 ++ DDeadline :: evs2 → sending_after sending evs1 = true;
}.
(** a step that goes on *)
Lemma dial_result_cons ev evs sending sending' est est' closed closed' c r :
  dial_result sending' est' closed' evs c r → sending' = sending_after sending [ev] → (ev = DDeadline → sending = true) →
  (est' = true → est = true ∨ answered (ev :: evs)) → (closed' = true → closed = true ∨ ev = DClose) →
  dial_result sending est closed (ev :: evs) c r.
Proof.
  intros [R1 R2 R3 R4] -> Hd Hest Hcl. split.
  - intros Hr. destruct (R1 Hr) as [? [?|?]]; (split; [done|]); [by apply Hest|right; by apply answered_cons].
  - done.
  - intros Hr Hc. destruct (R3 Hr Hc) as [?|?]; [|right; by right]. destruct (Hcl H) as [?| ->]; [by left|right; by left].
  - intros Hr evs1 evs2 He. destruct evs1 as [|ev1 evs1]; injection He as -> ->; [by apply Hd|]. by apply (R4 Hr evs1 evs2).
Qed.

Section outcome.
Context (E : cenv) (HE : env_ok E).
Implicit Types (c : Connection).

(** a connection that [Close] has closed, or has not been called for *)
Definition whole c : Prop := reachable E c ∧ c.(cn_nil) = c.(cn_closed).
Lemma whole_streams c : whole c → c.(cn_closed) = true → c.(cn_streams) = ∅.
Proof using HE. intros [Hr Hn] Hc. apply (ti_nil E _ (ck_table E _ (reachable_ok E HE _ Hr))). congruence. Qed.
Lemma whole_flags c c' : whole c → reachable E c' → flags c' = flags c → whole c'.
Proof. intros [_ Hn] Hr [= H1 H2]. split; [done|congruence]. Qed.
Lemma Close_whole c : whole c → whole (conn_Close E c).1 ∧ (conn_Close E c).1.(cn_closed) = true.
Proof.
  intros Hw. pose proof Hw as [Hc Hn]. unfold conn_Close. destruct (cn_closed c) eqn:Hcl; [done|].
  assert (cn_closed (Close_goaway E (Close_begin c)) = true) as Hx by exact (flags_closed _ _ (tx_flags _ _)).
  split; [|exact Hx]. split; [|by transitivity (cn_closed (Close_goaway E (Close_begin c))); [rewrite Hx|]].
  exact (Close_fence_reach E _ (proj1 (Close_goaway_reach E _ (Close_begin_reach E _ Hc)))).
Qed.
Lemma release_result sending est closed evs c err : whole c →
  ∃ c' r, Some (release E c err) = Some (c', r) ∧ reachable E c' ∧ dial_result sending est closed evs c' r.
Proof using HE.
  intros Hw. destruct (Close_whole c Hw) as [H1 H2]. eexists _, _. split; [reflexivity|]. split; [apply H1|].
  split; [done| |intros Hx; by destruct (Hx err)|done]. intros e _. split; [done|by apply whole_streams].
Qed.
Lemma handshake_step c connID : reachable E c →
  reachable E (conn_sendHandshake E c connID).1 ∧ marks (conn_sendHandshake E c connID).1 = marks c.
Proof. intros Hc. split; [by apply (reach_step E c (KHandshake connID))|apply tx_marks]. Qed.
Lemma worker_marks c op c' : reachable E c → worker_op op = true → conn_step E c op = Some c' → reachable E c' ∧ marks c' = marks c.
Proof using HE.
  intros Hc Hw Hs. split; [by apply (reach_step E c op); [|destruct op|]|]. destruct op; try discriminate Hw; cbn [conn_step] in Hs.
  - destruct (serviceResends E c) as [[c1 q]|] eqn:H1; [|done]. injection Hs as <-. by apply serviceResends_marks in H1.
  - by injection Hs as <-.
  - by apply retransmitTick_marks in Hs.
  - injection Hs as <-. unfold keepAliveTick. case_test; [done|]. by rewrite SendPing_marks.
Qed.

Lemma dialLoop_outcome connID evs : ∀ sending c, whole c → Forall bytes_event evs →
  ∃ c' r, dialLoop E connID sending c evs = Some (c', r) ∧ reachable E c' ∧ dial_result sending c.(cn_established) c.(cn_closed) evs c' r.
Proof using HE.
  induction evs as [|ev evs IH]; intros sending c Hw Hb.
  { exists c, None. split; [done|]. split; [apply Hw|]. split; [done|done|by left|]. by intros _ [|? evs1] evs2. }
  apply Forall_cons in Hb as [Hb Hbs].
  assert (∀ sending' c1, whole c1 → sending' = sending_after sending [ev] → (ev = DDeadline → sending = true) →
    (c1.(cn_established) = true → c.(cn_established) = true ∨ answered (ev :: evs)) → (c1.(cn_closed) = true → c.(cn_closed) = true ∨ ev = DClose) →
    ∃ c' r, dialLoop E connID sending' c1 evs = Some (c', r) ∧ reachable E c' ∧ dial_result sending c.(cn_established) c.(cn_closed) (ev :: evs) c' r) as Hgo.
  { intros sending' c1 Hw1 H1 H2 H3 H4. destruct (IH sending' c1 Hw1 Hbs) as (c' & r & D1 & D2 & D3). exists c', r. split_and!; [done|done|].
    by eapply dial_result_cons. }
  assert (∀ c1, reachable E c1 → marks c1 = marks c → whole c1 ∧ c1.(cn_established) = c.(cn_established) ∧ c1.(cn_closed) = c.(cn_closed)) as Hmk.
  { intros c1 Hr Hm. split; [by eapply whole_flags; [..|apply flags_marks]|]. split; [by apply marks_established|by apply flags_closed, flags_marks]. }
  pose proof Hw as [Hc _]. destruct ev as [msgs|op| | | |err| |]; cbn [dialLoop bytes_event] in *.
  - destruct (conn_step_ok E HE c (KReceive msgs)) as (c1 & H1 & _); [by apply reachable_ok|done|]. cbn [conn_step] in H1. rewrite H1. cbn [mbind option_bind].
    assert (reachable E c1) as Hr1 by (by apply (reach_step E c (KReceive msgs) c1)).
    assert (flags c1 = flags c) as Hf by (eapply (conn_step_flags E HE c (KReceive msgs)); [by apply reachable_ok|done|done|done]).
    apply Hgo; [by eapply whole_flags|done|done| |rewrite (flags_closed c c1 Hf); by left].
    intros He. destruct (batch_established E HE c msgs c1 (reachable_ok E HE c Hc) Hb H1 He) as [?|(m & ? & ?)]; [by left|right].
    exists msgs, m. split_and!; [by left|done|done].
  - assert (∃ c1, (if worker_op op then conn_step E c op else Some c) = Some c1 ∧ reachable E c1 ∧ marks c1 = marks c) as (c1 & -> & Hr1 & Hm).
    { destruct (worker_op op) eqn:Ho; [|by exists c]. destruct (conn_step_ok E HE c op) as (c1 & H1 & _); [by apply reachable_ok|by destruct op|].
      exists c1. split; [done|]. by eapply worker_marks. }
    cbn [mbind option_bind]. destruct (Hmk c1 Hr1 Hm) as (? & He & Hcl). apply Hgo; [done|done|done|rewrite He; by left|rewrite Hcl; by left].
  - apply Hgo; [|done|done| |by right].
    + destruct (cn_closing c); [by apply Close_whole|done].
    + assert (cn_established (if cn_closing c then (conn_Close E c).1 else c) = cn_established c) as ->; [|by left].
      destruct (cn_closing c); [|done]. unfold conn_Close. destruct (cn_closed c); [done|]. exact (marks_established _ _ (tx_marks _ (Close_begin c))).
  - destruct sending; [|apply Hgo; try done; by left]. destruct (handshake_step c connID Hc) as [H1 H2].
    destruct (conn_sendHandshake E c connID) as [c1 [err|]]; cbn [fst] in *; destruct (Hmk c1 H1 H2) as (? & He & Hcl); [by apply release_result|].
    apply Hgo; [done|done|done|rewrite He; by left|rewrite Hcl; by left].
  - destruct sending; [apply Hgo; try done; by left|]. destruct (cn_established c) eqn:He; [|apply Hgo; try done; rewrite ?He; by left].
    exists c, (Some (Ok ())). split; [done|]. split; [done|]. split; [by intros _; split; [|left]|done|by left|done].
  - destruct sending; [apply Hgo; try done; by left|by apply release_result].
  - destruct sending; [apply Hgo; try done; by left|by apply release_result].
  - apply Hgo; try done; by left.
Qed.
End outcome.

(** However its channels become ready and whatever arrives meanwhile *)
Lemma dialConn_outcome E connID evs :
  env_ok E → E.(ce_isClient) = true → Forall bytes_event evs →
  ∃ c r, dialConn E connID evs = Some (c, r) ∧ reachable E c ∧ dial_result true false false evs c r.
Proof.
  intros HE Hcl Hb. destruct (dialLoop_outcome E HE connID evs true (newConnection E)) as (c & r & D1 & D2 & D3); [by split; [constructor|]|done|].
  exists c, r. split_and!; [done|done|]. by rewrite (eq_refl : cn_established (newConnection E) = negb (ce_isClient E)), Hcl in D3.
Qed.

(** ** The handshake, end to end *)

(** the datagrams a connection has put into its batches *)
Definition datagrams (E : cenv) (c : Connection) : list (list Z) :=
  match c.(cn_tx) with Some s => queued E.(ce_tx) s | None => [] end.
(** a client's handshake, and the listener's answer, on the wire *)
Definition handshake_dgram (connID : Z) : list Z := header_bytes frameHandshake 0 0 8 ++ handshakePayload connID.
Definition answer_dgram : list Z := header_bytes frameHandshake 0 0 0.

Lemma tx_op_datagrams E c op c' : env_ok E → reachable E c → op_fits E.(ce_tx) op → tx_do (tx_exec E.(ce_tx) op) c = (c', None) →
  datagrams E c' = datagrams E c ++ frame_of E.(ce_tx) op.
Proof.
  intros HE Hc Hfit. destruct (ck_wire _ _ (reachable_ok E HE c Hc)) as (s & D & Hx & Hs & _). unfold tx_do, datagrams. rewrite Hx.
  destruct (tx_exec_spec _ (eo_tx _ HE) D op Hfit s Hs) as (s' & r & -> & Hr). intros [= <- Hok].
  destruct Hr as [[_ Hq]|[[e ->] _]]; [|done]. destruct Hs as [_ Hq0]. rewrite Hq0. by destruct (existsb _ _).
Qed.

Lemma handshake_decodes connID : is_u64 connID → handshake_of (handshake_dgram connID) = Some connID.
Proof.
  intros Hid. unfold handshake_of, handshake_dgram. set (p := handshakePayload connID). assert (Zlen p = 8) as Hp by done.
  pose proof (decodeFrame_bytes frameHandshake 0 0 p []) as Hd. rewrite app_nil_r, Hp in Hd. rewrite Hd by done. cbn [f_ftype f_payload].
  rewrite bool_decide_true by done. cbn [negb]. unfold decodeHandshake. rewrite Hp, bool_decide_false by lia.
  unfold p, handshakePayload. by rewrite <- (app_nil_r (PutUint64 connID)), Uint64_PutUint64, u64_id.
Qed.

Lemma answer_establishes E c : env_ok E → reachable E c → E.(ce_isClient) = true → c.(cn_closed) = false →
  ∃ c', readBatch E c [answer_dgram] = Some c' ∧ c'.(cn_established) = true.
Proof.
  intros HE Hc Hcl Hopen. unfold readBatch. rewrite Hopen. cbn [readMessages]. rewrite bool_decide_false by (vm_compute; done).
  unfold handleDatagramLocked. rewrite Hopen. change (S (length answer_dgram)) with 14%nat. cbn [parseLoop].
  change (decodeFrame answer_dgram) with (Ok (mkFrame frameHandshake 0 0 0 [])).
  rewrite (bool_decide_true (frameHeaderSize ≤ Zlen answer_dgram)) by (vm_compute; done).
  set (c0 := c <| cn_missedPongs := 0 |>). assert (dispatchFrameLocked E c (mkFrame frameHandshake 0 0 0 []) = Some (handleHandshake E c0)) as Hd by done.
  rewrite Hd. cbn [mbind option_bind]. rewrite bool_decide_false by (vm_compute; done). cbn [mbind option_bind].
  unfold handleHandshake. change (cn_closed c0) with (cn_closed c). rewrite Hopen, Hcl.
  destruct (flushPendingAcksLocked_total E (c0 <| cn_established := true |>)) as [c2 H2]. exists c2. split; [done|].
  by rewrite (marks_established _ _ (flushPendingAcksLocked_marks E _ _ H2)).
Qed.

(** C30: the handshake works.  A client's handshake goes out as a datagram of
    its own that the listener reads back as the client's connection id,
    whatever the id; the listener's answer goes out as one, too; and the
    client that receives it is established, whatever it was doing. *)
Theorem handshake_works E E' connID c c' :
  env_ok E → env_ok E' → E.(ce_isClient) = true → is_u64 connID → reachable E c → reachable E' c' → c.(cn_closed) = false →
  (∀ c1, conn_sendHandshake E c connID = (c1, None) → datagrams E c1 = datagrams E c ++ [handshake_dgram connID]) ∧
  handshake_of (handshake_dgram connID) = Some connID ∧
  (∀ c1, tx_do (sendControlFrame E'.(ce_tx) frameHandshake 0 0) c' = (c1, None) → datagrams E' c1 = datagrams E' c' ++ [answer_dgram]) ∧
  (∃ c2, readBatch E c [answer_dgram] = Some c2 ∧ c2.(cn_established) = true).
Proof.
  intros HE HE' Hcl Hid Hc Hc' Hopen. split_and!.
  - intros c1 H. by apply (tx_op_datagrams E c (TxHandshake connID) c1).
  - by apply handshake_decodes.
  - intros c1 H. by apply (tx_op_datagrams E' c' (TxControl frameHandshake 0 0) c1).
  - by apply answer_establishes.
Qed.
Lemma id_7 : is_u64 7.
Proof. unfold is_u64. lia. Qed.
Lemma handshake_works_witness :
  handshake_of (handshake_dgram 7) = Some 7 ∧ ∃ c2, readBatch witness_E (newConnection witness_E) [answer_dgram] = Some c2 ∧ c2.(cn_established) = true.
Proof.
  destruct (handshake_works witness_E listen_E 7 (newConnection witness_E) (newConnection listen_E) witness_env_ok listen_env_ok eq_refl
    id_7 (reach_new witness_E) (reach_new listen_E) eq_refl) as (_ & H1 & _ & H2).
  exact (conj H1 H2).
Defined.

(** a run of [Dial] that resends its handshake once, and whose deadline passes
    while it does *)
Definition dial_events : list dial_event := [DSent; DRetry; DDeadline; DReceive [answer_dgram]; DSent; DEstablished].
Lemma dial_events_ok : Forall bytes_event dial_events.
Proof.
  assert (Forall (Forall is_u8) [answer_dgram]) as Hm by (apply Forall_singleton, bytes_okb; vm_compute; reflexivity).
  by repeat (apply Forall_cons_2; [done|]).
Qed.
