(* ===== verification/Sockets.v ===== *)
(** * Sockets, [Dial] and [Listen]

    How the package comes by its sockets: the options it sets
    ([setSockBuf], [bindToDevice], [setKernelPacingRate]), the three chains
    of calls that make one ([Dial], [Listen], [createConnection]), and
    [Dial] and [Listen] as a whole.

    A [*unet.Socket] is another package's builder.  Its methods are an
    interface ([Unet]) over a state that holds the socket object and what the
    kernel knows of it; [UnetLaws] is what its documentation promises, and is
    assumed only where a theorem says so. *)
From stdpp Require Import strings.
From S2P Require Import Prelude Errors Addr Frame Float64 Pacer Options Ring StreamRecv Retransmit RetransmitSpec RetransmitRefine.
From S2P Require Import StreamSend SendRule Estimator SendBatch BatchInv SendFifo Connection ConnLemmas Termination ConnBooks ConnInv ConnOps ConnRun ConnFlags ConnInput Lifecycle LifeInv Teardown Listener ListenerInv ListenerRun Dial.

(** ** The builder *)

(** [unet.SockOpt]: a function on the socket that may fail *)
Definition SockOpt (K : Type) : Type := K → K * option go_error.

Class Unet (K : Type) := {
  sockaddr : Type;
  NewSocket : K → K;
  ResolveFarAddr : list Z → Z → K → K;
  ResolveNearAddr : list Z → Z → K → K;
  SetNearAddr : sockaddr → K → K;
  SetFarAddr : sockaddr → K → K;
  ConstructUdp : K → K;
  SetOptReusePort : K → K;
  SetOptReuseAddr : K → K;
  SetOpt : SockOpt K → bool → K → K;                     (* unless the flag is set *)
  Bind : K → K;
  Connect : K → K;
  Done : K → K * option go_error;
  Fd_Get : K → option Z;                                 (* [Fd.Get()], [None] when not valid *)
  sock_Close : K → K;
  SetsockoptInt : Z → Z → Z → Z → K → K * option go_error;
  SetsockoptString : Z → Z → Z → list Z → K → K * option go_error;
  socketOpts_run : positive → K → K;                     (* the application's [cfg.socketOpts] *)
}.

Definition SOL_SOCKET : Z := 1.
Definition SO_SNDBUF : Z := 7.
Definition SO_RCVBUF : Z := 8.
Definition SO_BINDTODEVICE : Z := 25.
Definition SO_SNDBUFFORCE : Z := 32.
Definition SO_RCVBUFFORCE : Z := 33.
Definition SO_MAX_PACING_RATE : Z := 47.

Section sockets.
Context {K : Type} `{U : Unet K}.
Implicit Types (k : K).

(** ** Options of a socket *)
Definition setSockBuf (opt forceOpt size : Z) : SockOpt K := λ k,
  match Fd_Get k with
  | None => (k, Some ErrClosed)
  | Some fd =>
      match SetsockoptInt fd SOL_SOCKET forceOpt size k with
      | (k, None) => (k, None)
      | (k, Some _) => ((SetsockoptInt fd SOL_SOCKET opt size k).1, None)
      end
  end.
Definition setRcvBuf (size : Z) : SockOpt K := setSockBuf SO_RCVBUF SO_RCVBUFFORCE size.
Definition setSndBuf (size : Z) : SockOpt K := setSockBuf SO_SNDBUF SO_SNDBUFFORCE size.

Definition bindToDevice (ifname : list Z) : SockOpt K := λ k,
  match Fd_Get k with
  | None => (k, Some ErrClosed)
  | Some fd => SetsockoptString fd SOL_SOCKET SO_BINDTODEVICE ifname k
  end.

Definition setKernelPacingRate (p : option WirePacer) : SockOpt K := λ k,
  match kernelPacingRate p with
  | None => (k, None)
  | Some rate =>
      match Fd_Get k with
      | None => (k, Some ErrClosed)
      | Some fd => ((SetsockoptInt fd SOL_SOCKET SO_MAX_PACING_RATE rate k).1, None)
      end
  end.

(** the pacer a configuration points to *)
Definition pacer_of (store : gmap positive WirePacer) (cfg : config) : option WirePacer := cfg.(wirePacer) ≫= λ l, store !! l.

(** the options every socket gets, then the application's own *)
Definition tune (store : gmap positive WirePacer) (cfg : config) k : K :=
  let k := SetOpt (setRcvBuf cfg.(recvBufSize)) false k in
  let k := SetOpt (setSndBuf cfg.(sendBufSize)) false k in
  let k := SetOpt (setKernelPacingRate (pacer_of store cfg)) (bool_decide (cfg.(wirePacer) = None)) k in
  let k := SetOpt (bindToDevice cfg.(bindDevice)) (bool_decide (cfg.(bindDevice) = [])) k in
  match cfg.(socketOpts) with None => k | Some fn => socketOpts_run fn k end.

(** [sock.Done()], and its descriptor *)
Definition finishSocket k : K * result Z :=
  match Done k with
  | (k, Some err) => (k, Err err)
  | (k, None) =>
      match Fd_Get k with
      | None => (sock_Close k, Err ErrClosed)
      | Some fd => (k, Ok fd)
      end
  end.

(** ["0.0.0.0"] *)
Definition anyAddr : list Z := [48; 46; 48; 46; 48; 46; 48].

(** the sockets of [Dial], of [Listen] and of [createConnection] *)
Definition dialSocket (store : gmap positive WirePacer) (cfg : config) (host : list Z) (port : Z) k : K * result Z :=
  let k := ConstructUdp (ResolveNearAddr anyAddr 0 (ResolveFarAddr host port (NewSocket k))) in
  finishSocket (Connect (Bind (tune store cfg k))).
Definition listenSocket (store : gmap positive WirePacer) (cfg : config) (host : list Z) (port : Z) k : K * result Z :=
  let k := SetOptReuseAddr (SetOptReusePort (ConstructUdp (ResolveNearAddr host port (NewSocket k)))) in
  finishSocket (Bind (tune store cfg k)).
Definition acceptSocket (store : gmap positive WirePacer) (cfg : config) (near far : sockaddr) k : K * result Z :=
  let k := SetOptReuseAddr (SetOptReusePort (ConstructUdp (SetFarAddr far (SetNearAddr near (NewSocket k))))) in
  finishSocket (Connect (Bind (tune store cfg k))).

(** ** [Dial] *)

(** what the kernel and the runtime answer to a client's connection *)
Record answers := mkAnswers {
  an_segment : bool;
  an_gro : bool;
  an_shut : nat → bool;
  an_granted : nat → bool;
  an_errno : nat → Z;
  an_caps : Z * Z;
  an_clock : nat → Z;
  an_range_acc : gmap Z fecAccum → list (Z * fecAccum);
  an_range_entries : gmap Z positive → list (Z * positive);
  an_range_ids : gset Z → list Z;
}.
Definition client_env (a : answers) (store : gmap positive WirePacer) (cfg : config) : cenv :=
  mkCenv (tx_setup cfg (pacer_of store cfg) a.(an_segment) a.(an_gro) a.(an_shut) a.(an_granted) a.(an_errno))
    true a.(an_caps) a.(an_clock) a.(an_range_acc) a.(an_range_entries) a.(an_range_ids).

(** [b] is what [rand.Read] gives *)
Definition generateConnID (b : list Z) : Z := Uint64 b.

(** what [Dial] leaves: the socket, the pacers, the connection it made if it
    got that far, and what it returned, [None] while it waits *)
Record dialled := mkDialled {
  dl_sock : K;
  dl_pacers : gmap positive WirePacer;
  dl_cfg : config;
  dl_conn : option Connection;
  dl_ret : option (result unit);
}.

Definition Dial (lookup : list Z → result Z) (a : answers) (rnd : list Z) (store : gmap positive WirePacer) (now : Z) k
    (addr : list Z) (opts : list Opt) (evs : list dial_event) : option dialled :=
  let '(store, cfg) := ensureWirePacer store now (applyOptions opts) in
  match parseAddr lookup addr with
  | Err err => Some (mkDialled k store cfg None (Some (Err err)))
  | Ok (host, port) =>
      match dialSocket store cfg host port k with
      | (k, Err err) => Some (mkDialled k store cfg None (Some (Err err)))
      | (k, Ok fd) =>
          '(c, r) ← dialConn (client_env a store cfg) (generateConnID rnd) evs;
          Some (mkDialled k store cfg (Some c) r)
      end
  end.

(** ** [Listen]: the socket, the configuration and the listener, or an error *)
Definition Listen (lookup : list Z → result Z) (store : gmap positive WirePacer) k (addr : list Z) (opts : list Opt)
    : K * config * result world :=
  let cfg := applyOptions opts in
  match parseAddr lookup addr with
  | Err err => (k, cfg, Err err)
  | Ok (host, port) =>
      match listenSocket store cfg host port k with
      | (k, Err err) => (k, cfg, Err err)
      | (k, Ok fd) => (k, cfg, Ok (newListener store))
      end
  end.
End sockets.
Arguments dialled : clear implicits.

(** ** What the options may cost *)

(** What the builder promises.  It keeps the first error it meets; an option
    is skipped when its flag says so, and is run otherwise; setting an option
    of a descriptor leaves the socket object alone. *)
Class UnetLaws (K : Type) `{U : Unet K} := {
  sock_Error : K → option go_error;
  SetOpt_skipped o (k : K) : SetOpt o true k = k;
  SetOpt_run o (k : K) : sock_Error k = None →
    Fd_Get (SetOpt o false k) = Fd_Get (o k).1 ∧ (sock_Error (o k).1 = None → sock_Error (SetOpt o false k) = (o k).2);
  SetsockoptInt_frame fd level opt v (k : K) :
    Fd_Get (SetsockoptInt fd level opt v k).1 = Fd_Get k ∧ sock_Error (SetsockoptInt fd level opt v k).1 = sock_Error k;
  SetsockoptString_frame fd level opt v (k : K) :
    Fd_Get (SetsockoptString fd level opt v k).1 = Fd_Get k ∧ sock_Error (SetsockoptString fd level opt v k).1 = sock_Error k;
}.

Section tuning.
Context {K : Type} `{L : UnetLaws K}.
Implicit Types (k : K) (o : SockOpt K).

(** a socket that has a descriptor and has met no error *)
Definition good_sock (fd : Z) k : Prop := Fd_Get k = Some fd ∧ sock_Error k = None.
(** an option that leaves it so, and succeeds *)
Definition harmless o : Prop := ∀ fd k, good_sock fd k → good_sock fd (o k).1 ∧ (o k).2 = None.

Lemma good_setsockopt fd fd' level opt v k : good_sock fd k → good_sock fd (SetsockoptInt fd' level opt v k).1.
Proof. intros [H1 H2]. destruct (SetsockoptInt_frame fd' level opt v k) as [H3 H4]. split; congruence. Qed.
Lemma setSockBuf_harmless opt forceOpt size : harmless (setSockBuf opt forceOpt size).
Proof.
  intros fd k Hk. unfold setSockBuf. rewrite (proj1 Hk). pose proof (good_setsockopt fd fd SOL_SOCKET forceOpt size k Hk) as H.
  destruct (SetsockoptInt fd SOL_SOCKET forceOpt size k) as [k1 [e|]]; [|done]. split; [by apply good_setsockopt|done].
Qed.
Lemma setKernelPacingRate_harmless p : harmless (setKernelPacingRate p).
Proof.
  intros fd k Hk. unfold setKernelPacingRate. destruct (kernelPacingRate p); [|done]. rewrite (proj1 Hk). split; [by apply good_setsockopt|done].
Qed.
Lemma SetOpt_harmless fd o b k : harmless o → good_sock fd k → good_sock fd (SetOpt o b k).
Proof.
  intros Ho Hk. destruct b; [by rewrite SetOpt_skipped|]. destruct (SetOpt_run o k (proj2 Hk)) as [H1 H2].
  destruct (Ho fd k Hk) as [[H3 H4] H5]. split; [by rewrite H1|by rewrite H2].
Qed.

(** The tuning of a socket is best effort.  Whatever the kernel answers to it,
    the buffer sizes and the pacing rate cost no connection: the socket keeps
    its descriptor, and the only error it can be left with is the kernel's
    refusal of a device it was asked for. *)
Theorem tuning_best_effort store cfg fd k :
  cfg.(socketOpts) = None → good_sock fd k →
  Fd_Get (tune store cfg k) = Some fd ∧
  (cfg.(bindDevice) = [] → sock_Error (tune store cfg k) = None) ∧
  (∀ e, sock_Error (tune store cfg k) = Some e →
     ∃ k', good_sock fd k' ∧ (SetsockoptString fd SOL_SOCKET SO_BINDTODEVICE cfg.(bindDevice) k').2 = Some e).
Proof using L.
  intros Hcb Hk. unfold tune. rewrite Hcb.
  apply (SetOpt_harmless _ (setRcvBuf (recvBufSize cfg)) false _ (setSockBuf_harmless _ _ _)) in Hk.
  apply (SetOpt_harmless _ (setSndBuf (sendBufSize cfg)) false _ (setSockBuf_harmless _ _ _)) in Hk.
  apply (SetOpt_harmless _ _ (bool_decide (wirePacer cfg = None)) _ (setKernelPacingRate_harmless (pacer_of store cfg))) in Hk.
  set (k1 := SetOpt (setKernelPacingRate _) _ _) in *. clearbody k1. clear k. destruct Hk as [H1 H2].
  destruct (bool_decide_reflect (bindDevice cfg = [])) as [Hd|Hd]; [rewrite SetOpt_skipped; split_and!; [done|done|congruence]|].
  destruct (SetOpt_run (bindToDevice (bindDevice cfg)) k1 H2) as [H3 H4]. rewrite H3. unfold bindToDevice in *. rewrite H1 in H4 |- *.
  destruct (SetsockoptString_frame fd SOL_SOCKET SO_BINDTODEVICE (bindDevice cfg) k1) as [H5 H6]. rewrite H5. split_and!; [done|done|].
  intros e He. exists k1. split; [done|]. rewrite <- He, H4; [done|congruence].
Qed.
End tuning.

(** ** What [Dial] and [Listen] return *)
Lemma ensureWirePacer_same store now c :
  ∃ l, (ensureWirePacer store now c).2 = c <| wirePacer := l |>.
Proof.
  unfold ensureWirePacer. destruct (bool_decide (wirePacer c ≠ None) || (paceRate c <=? 0)); [exists (wirePacer c); by destruct c|].
  destruct (NewWirePacer _ now); by eexists.
Qed.

(** options a connection can be made with: a batch that holds something, room
    for the headers of a GSO packet, 32-bit lengths *)
Definition usable (opts : list Opt) : Prop :=
  Forall is_option opts ∧ 0 < (applyOptions opts).(batchSize) ∧ headers_fit (applyOptions opts) ∧ maxPayload (applyOptions opts) < 2 ^ 32.

Lemma client_env_ok a store now opts : usable opts → (∀ m, a.(an_range_entries) m ≡ₚ map_to_list m) →
  env_ok (client_env a (ensureWirePacer store now (applyOptions opts)).1 (ensureWirePacer store now (applyOptions opts)).2).
Proof.
  intros (H1 & H2 & H3 & H4) Ha. destruct (ensureWirePacer_same store now (applyOptions opts)) as [l ->].
  destruct (applyOptions_wf opts H1) as [[W1 W2 W3 W4] _]. split; [|cbn; unfold tx_setup; by destruct (resolveGSO _ _ _)|done].
  by apply tx_setup_ok.
Qed.

Section dialling.
Context {K : Type} `{U : Unet K}.
Implicit Types (k : K).

(** why there is no connection at all: the address, the builder, or a socket
    without a descriptor, which is closed *)
Definition no_socket (lookup : list Z → result Z) k (addr : list Z) (k' : K) (e : go_error) : Prop :=
  parseAddr lookup addr = Err e ∧ k' = k ∨
  (∃ k1, Done k1 = (k', Some e)) ∨
  (∃ k1 k2, Done k1 = (k2, None) ∧ Fd_Get k2 = None ∧ k' = sock_Close k2 ∧ e = ErrClosed).

Lemma finishSocket_spec k k' r : finishSocket k = (k', r) →
  match r with
  | Ok fd => Done k = (k', None) ∧ Fd_Get k' = Some fd
  | Err e => Done k = (k', Some e) ∨ ∃ k2, Done k = (k2, None) ∧ Fd_Get k2 = None ∧ k' = sock_Close k2 ∧ e = ErrClosed
  end.
Proof.
  unfold finishSocket. destruct (Done k) as [k1 [e|]] eqn:Hd; [intros [= <- <-]; by left|].
  destruct (Fd_Get k1) as [fd|] eqn:Hf; intros [= <- <-]; [done|right; by exists k1].
Qed.


(** [Listen] starts a listener exactly when the address is well formed and the
    builder made a socket with a descriptor; its runs begin where those of
    [ListenerRun] do, with a configuration the package can work with *)
Lemma Listen_spec lookup store k addr opts k' cfg r : Forall is_option opts → Listen lookup store k addr opts = (k', cfg, r) →
  config_wf cfg ∧
  match r with
  | Ok w => w = newListener store ∧ (∃ host port, parseAddr lookup addr = Ok (host, port)) ∧ is_Some (Fd_Get k')
  | Err e => no_socket lookup k addr k' e
  end.
Proof.
  intros Hop. unfold Listen. destruct (applyOptions_wf opts Hop) as [Hw _]. destruct (parseAddr lookup addr) as [[host port]|e] eqn:Hp.
  2:{ intros [= <- <- <-]. split; [done|by left]. }
  destruct (listenSocket store (applyOptions opts) host port k) as [k1 [fd|e]] eqn:Hs; apply finishSocket_spec in Hs; intros [= <- <- <-]; (split; [done|]).
  - destruct Hs as [_ Hf]. split_and!; [done|by exists host, port|by exists fd].
  - right. destruct Hs as [?|(k2 & ?)]; [left; by eexists|right; by eexists _, _].
Qed.
End dialling.

(** ** A builder

    One that keeps the laws: it records the options that were set, on a kernel
    that forbids the privileged ones. *)
Record usock := mkUsock {
  us_fd : option Z;
  us_err : option go_error;
  us_opts : list (Z * Z);
}.
Definition us_set (opt v : Z) (k : usock) : usock * option go_error :=
  if bool_decide (opt = SO_RCVBUFFORCE ∨ opt = SO_SNDBUFFORCE) then (k, Some (ErrErrno 1))
  else (mkUsock k.(us_fd) k.(us_err) (k.(us_opts) ++ [(opt, v)]), None).
#[export] Instance usock_Unet : Unet usock := {|
  sockaddr := unit;
  NewSocket _ := mkUsock None None [];
  ResolveFarAddr _ _ k := k;
  ResolveNearAddr _ _ k := k;
  SetNearAddr _ k := k;
  SetFarAddr _ k := k;
  ConstructUdp k := mkUsock (Some 5) k.(us_err) k.(us_opts);
  SetOptReusePort k := k;
  SetOptReuseAddr k := k;
  SetOpt o unless k :=
    if unless then k
    else match k.(us_err) with
         | Some _ => k
         | None => let '(k, e) := o k in match k.(us_err) with Some _ => k | None => mkUsock k.(us_fd) e k.(us_opts) end
         end;
  Bind k := k;
  Connect k := k;
  Done k := (k, k.(us_err));
  Fd_Get k := k.(us_fd);
  sock_Close k := mkUsock None k.(us_err) k.(us_opts);
  SetsockoptInt _ _ opt v k := us_set opt v k;
  SetsockoptString _ _ opt v k := us_set opt (Zlen v) k;
  socketOpts_run _ k := k;
|}.
Lemma us_set_frame opt v k : (us_set opt v k).1.(us_fd) = k.(us_fd) ∧ (us_set opt v k).1.(us_err) = k.(us_err).
Proof. unfold us_set. by case_test. Qed.
#[export] Instance usock_laws : UnetLaws usock.
Proof.
  refine {| sock_Error := us_err |}; [done| |intros; apply us_set_frame..].
  intros o k Hk. cbn in *. rewrite Hk. destruct (o k) as [k' e]. cbn. by destruct (us_err k') eqn:He.
Defined.

(** with the privileged options refused, the unprivileged ones are set *)
Example tuning_example :
  let cfg := WithSendBufferSize 9 (WithRecvBufferSize 7 defaultConfig) in
  sock_Error (tune ∅ cfg (mkUsock (Some 5) None [])) = None ∧ (tune ∅ cfg (mkUsock (Some 5) None [])).(us_opts) = [(SO_RCVBUF, 7); (SO_SNDBUF, 9)].
Proof. vm_compute. done. Qed.

Definition plain_answers : answers :=
  mkAnswers true true (λ _, false) (λ _, true) (λ _, 0) (2 ^ 30, 2 ^ 30) (λ t, Z.of_nat t * Millisecond) map_to_list map_to_list elements.
Definition dial_opts : list Opt := [WithMaxDatagramSize 140; WithBatchSize 2; WithFEC 2].
Lemma dial_opts_usable : usable dial_opts.
Proof. split_and!; [repeat constructor|done|by intros _|done]. Qed.
(** ["h:7"] *)
Definition dial_addr : list Z := [104; 58; 55].
#[local] Abbreviation dial_run := (Dial no_names plain_answers [0; 0; 0; 0; 0; 0; 0; 7] ∅ 0 (mkUsock None None []) dial_addr dial_opts dial_events).
Definition dial_ok (r : option (dialled usock)) : bool := match r with Some d => bool_decide (is_Some d.(dl_conn)) && bool_decide (d.(dl_ret) = Some (Ok ())) | _ => false end.
Lemma dial_runs : dial_ok dial_run = true.
Proof. vm_compute. reflexivity. Qed.
