(* ===== verification/Network.v ===== *)
(** * Two connections and a network

    A client and a server, each a whole connection driven by its application
    and its timers, joined by a network that loses, duplicates, reorders and
    coalesces datagrams at will.  The network hands an end only datagrams the
    other has queued; everything else is open.  Put together are the write
    side ([ConnSender]), the wire ([WireFrames]) and the read side
    ([ConnReceiver]): acknowledgements, retransmissions, parity,
    reconstruction, flow control and closing all happen, and what an
    application reads is what the other wrote.

    An application reads a stream while it is in its connection's table; a
    stream that is dropped and made anew starts a new history. *)
From S2P Require Import Prelude Errors Frame Float64 Pacer Options Ring StreamRecv Xor RecvLemmas RecvInv StreamDelivery Retransmit RetransmitSpec RetransmitRefine.
From S2P Require Import StreamSend SendRule SendLanes SendInv SendRun StreamWriting Estimator SendBatch BatchInv SendFifo Connection ConnLemmas Termination ConnBooks ConnInv ConnOps ConnRun ConnFlags ConnInput ConnActs ConnSender ConnReceiver WireFrames Dial.

(** ** Ends *)

(** a connection, with what its application has read from and written to
    each stream, and how often each stream number has been used *)
Record endpoint := mkEnd {
  ep_conn : Connection;
  ep_read : Z → list Z;
  ep_written : Z → list Z;
  ep_births : Z → nat;
}.

(** the bytes an operation reads from [sid] *)
Definition reads_of (E : cenv) (c : Connection) (op : conn_op) (sid : Z) : list Z :=
  match op with
  | KRead sid' plen => if bool_decide (sid' = sid) then
      match c.(cn_streams) !! sid with Some st => match reads E c st plen with ReadBytes p => p | _ => [] end | None => [] end else []
  | _ => []
  end.

Definition ep_new (E : cenv) : endpoint := mkEnd (newConnection E) (λ _, []) (λ _, []) (λ _, 0%nat).
Definition ep_step (E : cenv) (a : endpoint) (op : conn_op) : option endpoint :=
  let c := a.(ep_conn) in
  c' ← conn_step E c op;
  Some (mkEnd c'
    (λ sid, if bool_decide (c'.(cn_streams) !! sid = None) then [] else a.(ep_read) sid ++ reads_of E c op sid)
    (λ sid, a.(ep_written) sid ++ writes_of E c op sid)
    (λ sid, (a.(ep_births) sid + born c c' sid)%nat)).

(** an operation hears datagrams the peer has sent, whole and unaltered, in
    any number and order, coalesced in any way *)
Definition hears (E : cenv) (peer : Connection) (op : conn_op) : Prop :=
  (∃ ds, op_input op ds ∧ ∀ d, d ∈ ds → d ∈ datagrams E peer) ∧ match op with KRead _ plen => 0 ≤ plen | _ => True end.

Inductive linked (Ea Eb : cenv) : endpoint → endpoint → Prop :=
  | lk_new : linked Ea Eb (ep_new Ea) (ep_new Eb)
  | lk_left a b op a' : linked Ea Eb a b → op_ok a.(ep_conn) op → hears Eb b.(ep_conn) op → ep_step Ea a op = Some a' → linked Ea Eb a' b
  | lk_right a b op b' : linked Ea Eb a b → op_ok b.(ep_conn) op → hears Ea a.(ep_conn) op → ep_step Eb b op = Some b' → linked Ea Eb a b'.

Lemma linked_sym Ea Eb a b : linked Ea Eb a b → linked Eb Ea b a.
Proof. induction 1; [constructor|by eapply lk_right|by eapply lk_left]. Qed.
Lemma compatible_sym Ea Eb : compatible Ea Eb → compatible Eb Ea.
Proof. intros [H1 H2 H3 H4 H5]. split; try done. by rewrite <- H3. Qed.

(** ** What an end hears *)
Lemma datagrams_from E c : conn_ok E c → Forall (from_streams E c.(cn_log)) (datagrams E c).
Proof. intros Hc. destruct (ck_wire _ _ Hc) as (s & D & Hx & [_ Hq] & HD%told_from). unfold datagrams. by rewrite Hx, Hq. Qed.
Lemma input_bytes c op ds d : op_ok c op → op_input op ds → d ∈ ds → Forall is_u8 d.
Proof.
  destruct op as [| | |sid p|sid|sid code|sid plen|sid code|sid t|msgs|buf| | | | |sid seq|connID| | | |]; cbn [op_input]; try (intros _ -> ?%elem_of_nil; done).
  - cbn. intros Hm (groups & -> & ->) Hd. apply list_elem_of_In, in_concat in Hd as (g & Hg%list_elem_of_In & Hd).
    rewrite Forall_fmap, Forall_forall in Hm. specialize (Hm g Hg). cbn in Hm. rewrite Forall_concat, Forall_forall in Hm. apply Hm. by apply list_elem_of_In.
  - cbn. intros Hm -> Hd. rewrite Forall_concat, Forall_forall in Hm. by apply Hm.
Qed.
Lemma hears_datagrams E c peer op ds : env_ok E → conn_ok E peer → op_ok c op → op_input op ds → (∀ d, d ∈ ds → d ∈ datagrams E peer) →
  Forall is_datagram ds.
Proof.
  intros HE Hp Hop Hin Hd. apply Forall_forall. intros d Hx. pose proof (datagrams_from E peer Hp) as Hf. rewrite Forall_forall in Hf.
  by destruct (wire_frame E _ d HE (Hf d (Hd d Hx)) (input_bytes c op ds d Hop Hin Hx)).
Qed.

(** ** The invariant *)
Section step.
Context (E Ep : cenv) (HE : env_ok E) (HEp : env_ok Ep).
Implicit Types (a : endpoint).

Lemma ep_step_conn a op a' : ep_step E a op = Some a' → conn_step E a.(ep_conn) op = Some a'.(ep_conn).
Proof. unfold ep_step. destruct (conn_step E _ op) as [c'|]; [|done]. by intros [= <-]. Qed.

(** a step of one end, as acts *)
Lemma ep_step_acts a op a' peer : conn_ok E a.(ep_conn) → conn_ok Ep peer → op_ok a.(ep_conn) op → hears Ep peer op → ep_step E a op = Some a' →
  ∃ ds l, micros E a.(ep_conn) l a'.(ep_conn) ∧ op_acts E a.(ep_conn) op ds l ∧ Forall is_datagram ds ∧ op_input op ds ∧ ∀ d, d ∈ ds → d ∈ datagrams Ep peer.
Proof using HE HEp.
  intros Hok Hp Hop [(ds & Hin & Hd) _] Hs%ep_step_conn. pose proof (hears_datagrams Ep _ peer op ds HEp Hp Hop Hin Hd) as Hds.
  destruct (step_acts E _ op ds _ HE Hok Hop Hin Hds Hs) as (l & H1 & H2). by exists ds, l.
Qed.

(** the senders of an end *)
Definition senders a : Prop := ∀ sid, sender_at E (a.(ep_births) sid) (a.(ep_written) sid) a.(ep_conn) sid.

Lemma senders_step a op a' peer : conn_ok E a.(ep_conn) → conn_ok Ep peer → op_ok a.(ep_conn) op → hears Ep peer op → ep_step E a op = Some a' →
  senders a → senders a'.
Proof using HE HEp.
  intros Hok Hp Hop Hh Hs Hi sid. destruct (ep_step_acts a op a' peer Hok Hp Hop Hh Hs) as (ds & l & Hm & Ha & _).
  pose proof (micros_sender E HE _ _ _ sid _ _ Hm (Hi sid)) as H1. rewrite (op_acts_births E _ _ _ _ _ sid Ha Hm), (op_acts_writes E _ _ _ _ sid Ha) in H1.
  revert Hs. unfold ep_step. destruct (conn_step E _ op) as [c'|]; [|done]. intros [= <-]. exact H1.
Qed.

Lemma micros_log c l c' : micros E c l c' → c.(cn_log) `prefix_of` c'.(cn_log).
Proof.
  induction 1 as [|l c1 a c2 _ IH Ha]; [done|]. etrans; [exact IH|].
  destruct Ha as [c2 [= _ -> _]|e now c2 _ _ _ [= _ -> _]|sid' e now c2 _ _ _ [= _ -> _]|c2 _ -> _|sid' st e s s' k ev c2 _ _ _ _ [= _ -> _]
    |sid' st w' c2 ev c3 _ _ [_ [k Hk]] [= _ -> _]]; try done. rewrite Hk. by apply prefix_app_r.
Qed.
Lemma step_log a op a' peer sid : conn_ok E a.(ep_conn) → conn_ok Ep peer → op_ok a.(ep_conn) op → hears Ep peer op → ep_step E a op = Some a' →
  stream_log a.(ep_conn) sid `prefix_of` stream_log a'.(ep_conn) sid.
Proof using HE HEp.
  intros Hok Hp Hop Hh Hs. destruct (ep_step_acts a op a' peer Hok Hp Hop Hh Hs) as (ds & l & [k Hk]%micros_log & _).
  unfold stream_log. rewrite Hk, frames_of_app. by apply prefix_app_r.
Qed.
Lemma step_ok a op a' : conn_ok E a.(ep_conn) → op_ok a.(ep_conn) op → ep_step E a op = Some a' → conn_ok E a'.(ep_conn).
Proof using HE.
  intros Hok Hop Hs%ep_step_conn. destruct (conn_step_ok E HE _ op Hok Hop) as (c' & H1 & H2). rewrite Hs in H1. by injection H1 as <-.
Qed.
End step.

(** the streams whose number was used once have one sender, whose frames are
    all the connection's history has of the number *)
Lemma senders_u32 E a sid x : senders E a → (sid, x) ∈ a.(ep_conn).(cn_log) → is_u32 sid.
Proof.
  intros Hs Hx. apply (sa_u32 _ _ _ _ _ (Hs sid)). intros Hz. destruct (sa_never _ _ _ _ _ (Hs sid) Hz) as [Hl _].
  apply frames_of_elem in Hx. unfold stream_log in Hl. rewrite Hl in Hx. by apply elem_of_nil in Hx.
Qed.

(** reading is what the acts read *)
Lemma op_acts_reads Eb c op ds l sid : op_acts Eb c op ds l → Forall sweeping l ∨ (ADrop ∉ l ∧ concat (act_reads sid <$> l) = reads_of Eb c op sid).
Proof.
  assert (Forall (heard_in Eb ds) l → ADrop ∉ l ∧ concat (act_reads sid <$> l) = []) as Hno.
  { intros Hl. assert (Forall (λ a, a ≠ ADrop ∧ act_reads sid a = []) l) as Hl2.
    { eapply Forall_impl; [exact Hl|]. intros a Ha. split; [by intros ->; destruct Ha as [?|(d & f & _ & _ & ?)]|].
      destruct a as [| | | |sid' ev|]; try done. cbn. case_bool_decide; [|done]. destruct ev as [| | |plen r| | | |]; try done.
      by destruct Ha as [?|(d & f & _ & _ & ?)]. }
    clear Hl. induction Hl2 as [|a l [H1 H2] _ [IH1 IH2]]; [by split; [apply not_elem_of_nil|]|]. cbn. rewrite H2, IH2. split; [set_solver|done]. }
  destruct op as [| | |sid' p|sid'|sid' code|sid' plen|sid' code|sid' t|msgs|buf| | | | |sid' seq|connID| | | |]; cbn [op_acts reads_of];
    try (intros Ha; right; by apply Hno); try (intros Ha; by left).
  - intros H. right. destruct (cn_streams c !! sid') as [st|]; [|injection H as ->; split; [set_solver|done]]. destruct (writes Eb c sid' st p); [|done].
    injection H as ->. split; [set_solver|done].
  - intros ->. right. destruct (cn_streams c !! sid') as [st|] eqn:Hst; (split; [set_solver|]); cbn [fmap list_fmap concat act_reads].
    + rewrite app_nil_r. case_bool_decide as Hx; [|done]. subst. by rewrite Hst.
    + case_bool_decide as Hx; [|done]. subst. by rewrite Hst.
Qed.

Section read.
Context (Ea Eb : cenv) (Hco : compatible Ea Eb).

(** what [b] has read, against everything [a] will ever send *)
Definition readers (a b : endpoint) : Prop := ∀ sid L, stream_log a.(ep_conn) sid `prefix_of` L → stream_sent Ea L →
  reader_at Eb L (own Ea sid = true) b.(ep_conn) sid (b.(ep_read) sid).

Lemma readers_later a a' b : (∀ sid, stream_log a.(ep_conn) sid `prefix_of` stream_log a'.(ep_conn) sid) → readers a b → readers a' b.
Proof using. intros Hl Hr sid L HL. apply Hr. etrans; [apply Hl|exact HL]. Qed.

(** the acts about stream [sid] tell it what the peer sent *)
Lemma heard_told a ds l sid L : senders Ea a → conn_ok Ea a.(ep_conn) → stream_log a.(ep_conn) sid `prefix_of` L → stream_sent Ea L →
  (∀ d, d ∈ ds → d ∈ datagrams Ea a.(ep_conn) ∧ Forall is_u8 d) → Forall (heard_in Eb ds) l → Forall (told_ok Eb L (own Ea sid = true) sid) l.
Proof using Hco.
  intros Hs Hok Hpre HL Hd Hl. eapply Forall_impl; [exact Hl|]. intros a0 [Hb|(d & f & H1 & H2 & H3)] ev ->; [by destruct ev|].
  pose proof (datagrams_from Ea _ Hok) as Hf. rewrite Forall_forall in Hf. destruct (Hd d H1) as [Hd1 Hd2].
  destruct (wire_frame Ea _ d (co_a _ _ Hco) (Hf d Hd1) Hd2) as [_ (op' & ft & sid0 & sq & pl & O1 & O2 & O3)].
  rewrite H2 in O3. injection O3 as ->. eapply (heard_ok Ea Eb Hco L HL (cn_log (ep_conn a))); [intros sid' x; by apply (senders_u32 Ea)| |by eapply op_origin|exact H3].
  intros x Hx%frames_of_elem. destruct Hpre as [k ->]. apply elem_of_app. by left.
Qed.
Lemma acts_told a c op ds l sid L : senders Ea a → conn_ok Ea a.(ep_conn) → stream_log a.(ep_conn) sid `prefix_of` L → stream_sent Ea L →
  op_ok c op → op_input op ds → (∀ d, d ∈ ds → d ∈ datagrams Ea a.(ep_conn)) → match op with KRead _ plen => 0 ≤ plen | _ => True end →
  op_acts Eb c op ds l → Forall (told_ok Eb L (own Ea sid = true) sid) l.
Proof using Hco.
  intros Hs Hok Hpre HL Hop Hin Hd Hplen Ha.
  assert (Forall (heard_in Eb ds) l → Forall (told_ok Eb L (own Ea sid = true) sid) l) as Hheard
    by (apply (heard_told a); try done; intros d Hx; split; [by apply Hd|by eapply input_bytes]).
  destruct op as [| | |sid' p|sid'|sid' code|sid' plen|sid' code|sid' t|msgs|buf| | | | |sid' seq|connID| | | |]; cbn [op_acts] in Ha; try (by apply Hheard).
  - destruct (cn_streams c !! sid') as [st|]; [|injection Ha as ->; constructor]. destruct (writes Eb c sid' st p); [|done].
    injection Ha as ->. by apply Forall_singleton.
  - rewrite Ha. destruct (cn_streams c !! sid') as [st|]; [|constructor]. apply Forall_singleton. by intros ev [= <- <-].
  - eapply Forall_impl; [exact Ha|]. intros a0 H0 ev ->. by destruct ev.
  - eapply Forall_impl; [exact Ha|]. intros a0 H0 ev ->. by destruct ev.
Qed.

Lemma readers_step a b op b' : conn_ok Ea a.(ep_conn) → conn_ok Eb b.(ep_conn) → senders Ea a → op_ok b.(ep_conn) op → hears Ea a.(ep_conn) op →
  ep_step Eb b op = Some b' → readers a b → readers a b'.
Proof using Hco.
  intros Hoka Hokb Hs Hop Hh Hstep Hr sid L Hpre HL. pose proof (Hr sid L Hpre HL) as H0.
  destruct (ep_step_acts Eb Ea (co_b _ _ Hco) (co_a _ _ Hco) b op b' _ Hokb Hoka Hop Hh Hstep) as (ds & l & Hm & Ha & _ & Hin & Hd).
  pose proof (acts_told a _ op ds l sid L Hs Hoka Hpre HL Hop Hin Hd (proj2 Hh) Ha) as Ht. pose proof (sender_ok_b Ea Eb Hco L HL) as HLb.
  assert (b'.(ep_read) sid = if bool_decide (cn_streams b'.(ep_conn) !! sid = None) then [] else b.(ep_read) sid ++ reads_of Eb b.(ep_conn) op sid) as Hrd.
  { clear -Hstep. revert Hstep. unfold ep_step. destruct (conn_step Eb _ op) as [c'|]; [|done]. by intros [= <-]. }
  rewrite Hrd. clear Hrd. destruct (op_acts_reads Eb _ _ _ _ sid Ha) as [Hsw|[Hnd Hreads]].
  - assert (reads_of Eb (ep_conn b) op sid = []) as ->; [|rewrite app_nil_r; by eapply sweep_reader].
    destruct op; try done. cbn [op_acts] in Ha. cbn [reads_of]. case_bool_decide as Hx; [|done]. subst. destruct (cn_streams (ep_conn b) !! sid) as [st|]; [|done].
    by apply Forall_cons in Hsw as [? _].
  - rewrite <- Hreads. pose proof (micros_reader Eb L HLb (own Ea sid = true) _ _ _ sid _ Hm Hnd Ht H0) as H1.
    case_bool_decide as Hx; [|exact H1]. unfold reader_at. by rewrite Hx.
Qed.

Lemma linked_inv a b : linked Ea Eb a b → conn_ok Ea a.(ep_conn) ∧ conn_ok Eb b.(ep_conn) ∧ senders Ea a ∧ readers a b.
Proof using Hco.
  induction 1 as [|a b op a' _ (H1 & H2 & H3 & H4) Hop Hh Hs|a b op b' _ (H1 & H2 & H3 & H4) Hop Hh Hs].
  - split_and!; [apply new_ok, Hco|apply new_ok, Hco|intros sid; apply new_sender|]. intros sid L _ _. unfold reader_at. cbn. by rewrite lookup_empty.
  - split_and!; [by eapply step_ok; [apply Hco|..]|done|by eapply (senders_step Ea Eb (co_a _ _ Hco) (co_b _ _ Hco) a op a' (ep_conn b))|].
    eapply readers_later; [|exact H4]. intros sid. by eapply (step_log Ea Eb (co_a _ _ Hco) (co_b _ _ Hco) a op a' (ep_conn b)).
  - split_and!; [done|by eapply step_ok; [apply Hco|..]|done|by eapply readers_step].
Qed.
End read.

(** ** Runs, to exhibit linked ends *)
Inductive net_op :=
  | NDo (left : bool) (op : conn_op)                  (* an application or a timer *)
  | NCarry (left : bool) (groups : list (list nat)).  (* messages made of the peer's datagrams, by their places *)

Definition local_op (op : conn_op) : bool :=
  match op with KReceive _ | KForward _ => false | KRead _ plen => 0 <=? plen | _ => true end.
Definition carried (E : cenv) (peer : Connection) (groups : list (list nat)) : list (list (list Z)) :=
  (λ g : list nat, omap (λ k, datagrams E peer !! k) g) <$> groups.
Definition end_step (E Ep : cenv) (a peer : endpoint) (op : conn_op) : option endpoint :=
  if op_okb a.(ep_conn) op then ep_step E a op else None.
Definition net_step (Ea Eb : cenv) (n : endpoint * endpoint) (op : net_op) : option (endpoint * endpoint) :=
  let '(a, b) := n in
  match op with
  | NDo true op => if local_op op then a ← end_step Ea Eb a b op; Some (a, b) else None
  | NDo false op => if local_op op then b ← end_step Eb Ea b a op; Some (a, b) else None
  | NCarry true groups => a ← end_step Ea Eb a b (KReceive ((λ ds, concat ds) <$> carried Eb b.(ep_conn) groups)); Some (a, b)
  | NCarry false groups => b ← end_step Eb Ea b a (KReceive ((λ ds, concat ds) <$> carried Ea a.(ep_conn) groups)); Some (a, b)
  end.
Fixpoint net_run (Ea Eb : cenv) (n : endpoint * endpoint) (ops : list net_op) : option (endpoint * endpoint) :=
  match ops with [] => Some n | op :: ops => n ← net_step Ea Eb n op; net_run Ea Eb n ops end.
Definition net_check (Ea Eb : cenv) (ops : list net_op) (P : endpoint → endpoint → bool) : bool :=
  match net_run Ea Eb (ep_new Ea, ep_new Eb) ops with Some (a, b) => P a b | None => false end.

Lemma local_hears E peer op : local_op op = true → hears E peer op.
Proof.
  intros H. split; [exists []; split; [by destruct op|by intros d ?%elem_of_nil]|]. destruct op; try done. by apply bool_decide_eq_true in H.
Qed.
Lemma carried_hears E peer groups : hears E peer (KReceive ((λ ds, concat ds) <$> carried E peer groups)).
Proof.
  split; [|done]. exists (concat (carried E peer groups)). split; [by eexists|]. intros d Hd.
  apply list_elem_of_In, in_concat in Hd as (g & Hg%list_elem_of_In & Hd%list_elem_of_In). apply list_elem_of_fmap in Hg as (ks & -> & _).
  apply list_elem_of_omap in Hd as (k & _ & Hk). by eapply list_elem_of_lookup_2.
Qed.
Lemma end_step_inv E Ep a peer op a' : end_step E Ep a peer op = Some a' → op_ok a.(ep_conn) op ∧ ep_step E a op = Some a'.
Proof. unfold end_step. destruct (op_okb _ op) eqn:Ho; [|done]. split; [by apply op_okb_ok|done]. Qed.
Lemma net_step_linked Ea Eb a b op a' b' : linked Ea Eb a b → net_step Ea Eb (a, b) op = Some (a', b') → linked Ea Eb a' b'.
Proof.
  intros Hl. destruct op as [[] op|[] groups]; cbn [net_step].
  - destruct (local_op op) eqn:Hlo; [|done]. destruct (end_step Ea Eb a b op) as [a1|] eqn:Hs; [|done]. intros [= <- <-].
    apply end_step_inv in Hs as [H1 H2]. eapply lk_left; [done|done|by apply local_hears|done].
  - destruct (local_op op) eqn:Hlo; [|done]. destruct (end_step Eb Ea b a op) as [b1|] eqn:Hs; [|done]. intros [= <- <-].
    apply end_step_inv in Hs as [H1 H2]. eapply lk_right; [done|done|by apply local_hears|done].
  - destruct (end_step Ea Eb a b _) as [a1|] eqn:Hs; [|done]. intros [= <- <-].
    apply end_step_inv in Hs as [H1 H2]. eapply lk_left; [done|done|by apply carried_hears|done].
  - destruct (end_step Eb Ea b a _) as [b1|] eqn:Hs; [|done]. intros [= <- <-].
    apply end_step_inv in Hs as [H1 H2]. eapply lk_right; [done|done|by apply carried_hears|done].
Qed.
Lemma net_check_spec Ea Eb ops P : net_check Ea Eb ops P = true → ∃ a b, linked Ea Eb a b ∧ P a b = true.
Proof.
  unfold net_check. assert (∀ ops a b a' b', linked Ea Eb a b → net_run Ea Eb (a, b) ops = Some (a', b') → linked Ea Eb a' b') as Hrun.
  { clear. induction ops as [|op ops IH]; intros a b a' b' Hl; cbn [net_run]; [by intros [= <- <-]|].
    destruct (net_step Ea Eb (a, b) op) as [[a1 b1]|] eqn:H1; [|done]. cbn [mbind option_bind]. apply IH. by eapply net_step_linked. }
  destruct (net_run Ea Eb (ep_new Ea, ep_new Eb) ops) as [[a b]|] eqn:H; [|done]. intros HP. exists a, b. split; [|done].
  eapply Hrun; [constructor|exact H].
Qed.

(** ** The theorem *)
Section end_to_end.
Context (Ea Eb : cenv) (Hco : compatible Ea Eb).

(** a number used at most once has one sender, whose frames carry what was
    written *)
Lemma sender_once a sid : senders Ea a → (a.(ep_births) sid ≤ 1)%nat → good (stream_log a.(ep_conn) sid) →
  stream_sent Ea (stream_log a.(ep_conn) sid) ∧ concat (payloads (stream_log a.(ep_conn) sid)) = a.(ep_written) sid.
Proof using Hco.
  intros Hs Hn Hg. destruct (Hs sid) as [H0 H1 _ _]. destruct (decide (a.(ep_births) sid = 0%nat)) as [Hz|Hz].
  - destruct (H0 Hz) as (-> & _ & ->). split; [|done]. split; [done|]. destruct (base_cfg Ea (co_a _ _ Hco)) as [Hcfg _].
    exists (newStream_write (cfg (base_env Ea)) 0). apply newStream_send_inv; [done|].
    pose proof (dataCap_bounds (base_env Ea) Hcfg). change (cfg (base_env Ea)) with (tx_cfg Ea.(ce_tx)) in *. unfold maxBufSize. case_bool_decide; lia.
  - destruct H1 as (w & B1 & _ & B3); [lia|]. split; [by split; [|exists w]|]. apply B3, Hg.
Qed.

(** a reader told it is at the end has everything *)
Lemma reader_end L c sid hist st plen : stream_sent Ea L → reader_at Eb L (own Ea sid = true) c sid hist → own Ea sid = true →
  c.(cn_streams) !! sid = Some st → readCanceled st.(st_read) = false → 0 ≤ plen → reads Eb c st plen = ReadErr io_EOF → hist = concat (payloads L).
Proof using Hco.
  intros HL Hr Ho Hst Hc Hp Hrd. unfold reader_at in Hr. rewrite Hst in Hr. unfold reads in Hrd.
  destruct (tryRead (renv_of Eb c) (found c st) plen) as [s' r] eqn:Ht. cbn in Hrd. subst r.
  eapply (reader_step Eb L (sender_ok_b Ea Eb Hco L HL) (own Ea sid = true) (renv_of Eb c) (found c st) (RvRead plen (ReadErr io_EOF)) s' hist); try done.
  - by apply rr_read.
  - by apply (reader_view Eb L _ hist st.(st_read)).
Qed.
End end_to_end.

(** C1: a stream carries the application's bytes from end to end.  A client
    and a server, whole connections with the same frame format, are driven by
    their applications and timers in any order, over a network that loses,
    duplicates, reorders and coalesces their datagrams.  For a stream of fewer
    than 2^32 frames, of which the writer's connection has refused no DATA
    frame ([good]; what a refused one does is [refused_frame_corrupts]), and
    whose number the writer has used once (one it opens itself it always
    has): at every moment what one end has read from the stream is a prefix
    of what the other has written to it; and when a stream opened by the
    writer reports the end of the file, to a reader that has not cancelled
    it, everything written has been read. *)
Theorem network_delivers Ea Eb a b sid :
  compatible Ea Eb → linked Ea Eb a b → own Ea sid = true ∨ (ep_births a sid ≤ 1)%nat → good (stream_log a.(ep_conn) sid) →
  ep_read b sid `prefix_of` ep_written a sid ∧
  (own Ea sid = true → ∀ st plen, b.(ep_conn).(cn_streams) !! sid = Some st → readCanceled st.(st_read) = false → 0 ≤ plen →
    reads Eb b.(ep_conn) st plen = ReadErr io_EOF → ep_read b sid = ep_written a sid).
Proof.
  intros Hco Hl Hn Hg. destruct (linked_inv Ea Eb Hco a b Hl) as (_ & _ & Hs & Hr).
  assert (ep_births a sid ≤ 1)%nat as Hone by (destruct Hn as [Ho|]; [apply (sa_own _ _ _ _ _ (Hs sid) Ho)|done]).
  destruct (sender_once Ea Eb Hco a sid Hs Hone Hg) as [HL <-]. specialize (Hr sid _ (reflexivity _) HL). split.
  - unfold reader_at in Hr. destruct (cn_streams (ep_conn b) !! sid); [by eapply reader_prefix|]. rewrite Hr. apply prefix_nil.
  - intros Ho st plen H1 H2 H3 H4. by eapply reader_end.
Qed.

(** A client sends 250 bytes in three frames, two parity frames and a FIN.
    The first frame is lost, the second arrives twice, the third comes first
    and coalesced with the FIN: the parity makes up for the loss.  The server
    reads it all and answers on the same stream. *)
Definition net_cfg : config := WithFEC 2 (WithBatchSize 2 (WithMaxDatagramSize 140 defaultConfig)).
Definition net_client : cenv := example_env net_cfg true.
Definition net_server : cenv := example_env net_cfg false.
Definition net_script : list net_op :=
  [ NDo true KOpen; NDo true (KWrite 1 (replicate 100 1 ++ replicate 100 2 ++ replicate 50 3)); NDo true (KCloseWrite 1);
    NCarry false [[5; 2]; [3]; [1; 1]]%nat; NDo false KAccept; NDo false (KRead 1 300); NDo false (KWrite 1 [9; 8]);
    NCarry true [[4; 0]; [4]]%nat; NDo true (KRead 1 1) ].
Lemma net_compatible : compatible net_client net_server.
Proof.
  assert (∀ isClient, env_ok (example_env net_cfg isClient)) as He.
  { intros isClient. split; [|done|done]. apply tx_setup_ok; [split; vm_compute; naive_solver|done|by intros _]. }
  by split; [apply He|apply He| | |].
Qed.
Definition net_goal (a b : endpoint) : bool :=
  match b.(ep_conn).(cn_streams) !! 1 with
  | Some st => negb st.(st_read).(readCanceled) && match reads net_server b.(ep_conn) st 1 with ReadErr e => bool_decide (e = io_EOF) | _ => false end
  | None => false
  end && forallb (λ x, match x with SentData _ _ (Some _) => false | _ => true end) (stream_log a.(ep_conn) 1) &&
  forallb (λ x, match x with SentData _ _ (Some _) => false | _ => true end) (stream_log b.(ep_conn) 1) &&
  bool_decide (Zlen (payloads (stream_log a.(ep_conn) 1)) = 3) && bool_decide (Zlen (payloads (stream_log b.(ep_conn) 1)) = 1) &&
  bool_decide (ep_births b 1 = 1%nat) && bool_decide (ep_read b 1 = replicate 100 1 ++ replicate 100 2 ++ replicate 50 3) && bool_decide (ep_read a 1 = [9]).
Lemma net_script_goal : net_check net_client net_server net_script net_goal = true.
Proof. vm_compute. reflexivity. Qed.
Lemma good_check L n : forallb (λ x, match x with SentData _ _ (Some _) => false | _ => true end) L = true → Zlen (payloads L) = n → n + 1 < 2 ^ 32 → good L.
Proof.
  intros H1 <- H2. split; [|done]. apply Forall_forall. intros x Hx%list_elem_of_In. rewrite forallb_forall in H1. specialize (H1 x Hx).
  by destruct x as [? ? []| |].
Qed.
Lemma network_delivers_witness : ∃ a b, linked net_client net_server a b ∧
  ep_written a 1 = replicate 100 1 ++ replicate 100 2 ++ replicate 50 3 ∧ ep_read b 1 = ep_written a 1 ∧
  ep_read a 1 = [9] ∧ [9] `prefix_of` ep_written b 1.
Proof.
  destruct (net_check_spec _ _ _ _ net_script_goal) as (a & b & Hl & HP). unfold net_goal in HP. rewrite !andb_true_iff in HP.
  destruct HP as (((((((H1 & H2) & H3) & H4%bool_decide_eq_true) & H5%bool_decide_eq_true) & H6%bool_decide_eq_true) & H7%bool_decide_eq_true) & H8%bool_decide_eq_true).
  destruct (b.(ep_conn).(cn_streams) !! 1) as [st|] eqn:Hst; [|done]. apply andb_true_iff in H1 as [Hc%negb_true_iff Hr].
  destruct (reads net_server (ep_conn b) st 1) as [| |e] eqn:Hrd; try done. apply bool_decide_eq_true in Hr as ->.
  destruct (network_delivers net_client net_server a b 1 net_compatible Hl (or_introl eq_refl) (good_check _ 3 H2 H4 eq_refl)) as [_ He].
  specialize (He eq_refl st 1 Hst Hc ltac:(lia) Hrd).
  assert (ep_births b 1 ≤ 1)%nat as Hb by lia.
  destruct (network_delivers net_server net_client b a 1 (compatible_sym _ _ net_compatible) (linked_sym _ _ _ _ Hl) (or_intror Hb) (good_check _ 1 H3 H5 eq_refl)) as [Hp _].
  exists a, b. rewrite H8 in Hp. rewrite <- He, H7. done.
Defined.
