(* ===== verification/Reliability.v ===== *)
(** * Nothing is forgotten

    What [Network] leaves open: whether a frame the network lost is ever made
    up for.  Here the sender's retransmission queue is related to the peer's
    streams: a frame leaves the queue only when an ACK names it, an ACK names
    only what its sender has taken in (or no longer wants), so every frame
    that was handed over is still pending at one end or has arrived at the
    other.  [Resending] shows that what is pending is sent again. *)
From S2P Require Import Prelude Errors Frame Float64 Pacer Options Ring StreamRecv Xor RecvLemmas RecvInv StreamDelivery Retransmit RetransmitSpec RetransmitRefine.
From S2P Require Import StreamSend SendRule SendLanes SendInv SendRun StreamWriting Estimator SendBatch BatchInv SendFifo Connection ConnLemmas Termination ConnBooks ConnInv ConnOps ConnRun ConnFlags ConnInput ConnActs ConnLedger ConnSender ConnReceiver WireFrames Dial Network.

(** ** What a read side has taken in *)

(** the application cancelled the stream, or it was reset *)
Definition given_up (s : rside) : Prop := s.(readCanceled) = true ∨ s.(readErr) ≠ None ∧ s.(readErr) ≠ Some io_EOF.
(** frame [q] was delivered or buffered, or is the FIN, or is not wanted *)
Definition taken (s : rside) (q : Z) : Prop := held s q ∨ (s.(finRecvd) = true ∧ q = s.(finSeq)) ∨ given_up s.

(** ** Streams that come and go *)

(** the first stream numbered [sid], of [n] so far, is no longer in the table *)
Definition dropped (n : nat) (c : Connection) (sid : Z) : Prop := (1 ≤ n)%nat ∧ c.(cn_streams) !! sid = None ∨ (2 ≤ n)%nat.
(** ... or has taken frame [q] in *)
Definition received (n : nat) (c : Connection) (sid q : Z) : Prop :=
  dropped n c sid ∨ ∃ st, c.(cn_streams) !! sid = Some st ∧ taken st.(st_read) q.
Lemma received_same n c c' sid q : c'.(cn_streams) !! sid = c.(cn_streams) !! sid → received n c sid q → received n c' sid q.
Proof. unfold received, dropped. by intros ->. Qed.

Section taken.
Context (E : cenv) (L : list sent) (HL : sender_ok (base_env E) (payloads L)) (unrefused : Prop) (Hu : unrefused).
#[local] Abbreviation cf := (tx_cfg (ce_tx E)).
#[local] Abbreviation env := (base_env E).
Implicit Types (s : rside).

Lemma cut_given_up s : cut unrefused s → given_up s.
Proof using Hu.
  intros (He & _ & Hc). destruct (decide (readErr s = Some io_EOF)) as [Hx|Hx]; [left; by apply Hc|by right].
Qed.
Lemma live_not_given_up out s : recv_inv env (payloads L) out s → ¬ given_up s.
Proof using.
  intros Hi [Hc|[H1 H2]]; [by rewrite (ri_canceled _ _ _ _ Hi) in Hc|]. pose proof (ri_err _ _ _ _ Hi) as He.
  destruct (readErr s) as [e|]; [|done]. destruct He as [-> _]. done.
Qed.

(** taking in is for good *)
Lemma grows_taken out out' s s' q : recv_inv env (payloads L) out s → recv_inv env (payloads L) out' s' → grows s s' →
  (s.(finRecvd) = true → s'.(finRecvd) = true) → taken s q → taken s' q.
Proof using.
  intros Hi Hi' [_ Hg] Hf [Hh|[[Hx ->]|Hg']]; [left; by apply Hg| |by destruct (live_not_given_up _ _ Hi)].
  right; left. split; [by apply Hf|]. by rewrite (ri_fin _ _ _ _ Hi Hx), (ri_fin _ _ _ _ Hi' (Hf Hx)).
Qed.
Lemma deliver_fin_mono e s seq p fin s' ack : deliver e s seq p fin = Some (s', ack) → s.(finRecvd) = true → s'.(finRecvd) = true.
Proof using.
  destruct fin; [|intros ->%deliver_fin; done]. unfold deliver, fec_fuel. cbn [deliverLocked]. unfold deliverStep, deliverBody.
  set (s0 := if _ || finRecvd s then _ else s). assert (finRecvd s0 = finRecvd s) as H0 by (unfold s0; by destruct (_ || finRecvd s)). clearbody s0.
  intros H Hf. rewrite Hf in H0. revert H. destruct (readCanceled s0 || _); cbn [mbind option_bind].
  - intros [= <- _]. rewrite ?andb_false_r. cbn [andb negb]. unfold grantLocked. repeat case_test; done.
  - destruct (seq <? readSeq s0); cbn [mbind option_bind]; intros [= <- _]; rewrite ?andb_false_r; cbn [andb negb]; [done|].
    unfold maybeEOFLocked. by destruct (_ && _).
Qed.

Lemma taken_step e s ev s' hist q : cfg e = cf → ev_ok E L unrefused ev → read_rel e s ev s' → reader_inv E L unrefused hist s →
  taken s q → taken s' q.
Proof using HL Hu.
  intros He Hev Hr [[Hi _]|[Hc _]]; [|intros _; right; right; by eapply cut_given_up, cut_read].
  destruct (sender_ok_cfg E L HL e He) as [H1 H2 H3 H4]. pose proof (recv_inv_cfg env e _ _ _ (eq_sym He) Hi) as Hi'.
  intros Hq. assert (∀ out, recv_inv e (payloads L) out s' → grows s s' → (finRecvd s = true → finRecvd s' = true) → taken s' q) as Hgo.
  { intros out Ho Hg Hf. eapply grows_taken; [exact Hi|by eapply recv_inv_cfg, Ho|done|done|done]. }
  destruct Hr as [seq p fin s' ack Hd|row base count xl data s' b Hd| |plen s' r Hd|code|now| |t]; cbn [ev_ok] in Hev.
  - destruct (deliver_spec e H1 (payloads L) H2 H3 H4 (quiet hist) s seq p fin eq_refl Hi') as (s1 & a1 & E1 & E2 & E3 & _).
    { destruct fin; [by destruct Hev as (-> & -> & _)|done]. }
    rewrite Hd in E1. injection E1 as <- <-. eapply Hgo; [done|done|by eapply deliver_fin_mono].
  - destruct Hev as [Hg Hpar]. destruct (applyFec_spec e H1 (payloads L) H2 H3 H4 (quiet hist) s row base count xl data eq_refl Hi') as (s1 & b1 & E1 & E2 & E3).
    { by rewrite He. } { by apply (parity_ok_cfg E L e). }
    rewrite Hd in E1. injection E1 as <- <-. eapply Hgo; [done|done|].
    destruct (applyFec_total e s row base count xl data) as (s2 & r2 & E4 & E5 & _). rewrite Hd in E4. injection E4 as <- <-. by rewrite E5.
  - destruct (decide (readErr s = None)) as [Hn|Hn]; [right; right; right; unfold deliverReset; by rewrite bool_decide_true|].
    pose proof (ri_err _ _ _ _ Hi) as Hx. destruct (readErr s) as [x|] eqn:Hrx; [|done]. destruct Hx as (-> & Hf & Hx).
    unfold taken, held, deliverReset. rewrite Hrx. cbn. destruct Hq as [[Hq|Hq]|[Hq|Hq]]; [by left; left| |by right; left|by destruct (live_not_given_up _ _ Hi)].
    left; left. destruct (reorder s !! q) as [buf|] eqn:Hb; [|done]. destruct (ri_reorder _ _ _ _ Hi _ _ Hb) as [? _]. lia.
  - pose proof (tryRead_spec e H1 (payloads L) H2 H3 H4 hist s plen Hi' Hev) as Hr. rewrite Hd in Hr. destruct Hr as (Hg & Hf & Hr).
    assert (∃ out, recv_inv e (payloads L) out s') as [out Ho] by (destruct r; by destruct Hr as (? & _); eexists).
    eapply Hgo; [exact Ho|done|by rewrite Hf].
  - right; right; left. unfold CancelRead. rewrite (ri_canceled _ _ _ _ Hi). cbn. by repeat case_test.
  - pose proof (maybeTailNack_view e s now) as Hv. eapply Hgo; [by eapply recv_inv_view, Hi'| |];
      unfold rview in Hv; injection Hv as _ V2 V3 _ _ _ _ _ V4 _ _ _ _ _ _ _ _; [by apply grows_same|by rewrite V4].
  - done.
  - done.
Qed.

(** a snapshot names what was taken in, and it fits the wire *)
Lemma snapshot_taken s hist q : reader_inv E L unrefused hist s →
  q < u32 (ackSnapshot s).2.1.1 ∨ q ∈ u32 <$> (ackSnapshot s).2.1.2 → 0 ≤ q → taken s q.
Proof using HL Hu.
  intros [[Hi _]|[Hc _]] Hq H0; [|right; right; by apply cut_given_up]. destruct HL as [_ HN _ _].
  pose proof (Zlen_nonneg (payloads L)). pose proof (ri_seq _ _ _ _ Hi) as Hs0.
  assert (readSeq s < 2 ^ 32) as Hs1. { pose proof (ri_err _ _ _ _ Hi) as Hx. destruct (readErr s); lia. }
  destruct Hq as [Hq|(x & -> & Hx)%list_elem_of_fmap].
  - cbn in Hq. rewrite u32_id in Hq by (unfold is_u32; lia). by left; left.
  - assert (∀ x, held s x → 0 ≤ x → u32 x = x) as Hid.
    { intros y [Hy|Hy] Hy0; apply u32_id; unfold is_u32; [lia|]. destruct (reorder s !! y) as [b|] eqn:Hb; [|done].
      destruct (ri_reorder _ _ _ _ Hi _ _ Hb) as [? _]. lia. }
    cbn in Hx. rewrite !elem_of_app in Hx. destruct Hx as [[Hx|[Hx1 Hx2]%list_elem_of_filter]|[Hx1 Hx2]%list_elem_of_filter].
    + destruct (finRecvd s) eqn:Hf; cbn [andb] in Hx; [|by apply elem_of_nil in Hx]. pose proof (ri_fin _ _ _ _ Hi Hf) as Hfs.
      destruct (_ >=? _); [|by apply elem_of_nil in Hx]. apply list_elem_of_singleton in Hx as ->.
      right; left. split; [done|]. rewrite u32_id by (unfold is_u32; lia). done.
    + assert (held s x) as Hh by (apply (ri_acks _ _ _ _ Hi), elem_of_app; by left). left. by rewrite Hid by (done || lia).
    + assert (held s x) as Hh by (apply (ri_acks _ _ _ _ Hi), elem_of_app; by right). left. by rewrite Hid by (done || lia).
Qed.

(** ** Connections *)
#[local] Abbreviation told := (told_ok E L unrefused).
Definition readable (c : Connection) (sid : Z) : Prop := ∃ hist, reader_at E L unrefused c sid hist.
Implicit Types (c : Connection).

Lemma micro_readable c a c' sid : micro E c a c' → told sid a → readable c sid → readable c' sid.
Proof using HL.
  intros Ha Ht [hist Hr]. assert (a = ADrop ∨ a ≠ ADrop) as [->|Hd] by (destruct a; by auto); [|eexists; by eapply micro_reader].
  inversion Ha as [| | |? Hsub _ _| |]; subst. unfold readable, reader_at in *. destruct (cn_streams c' !! sid) as [st|] eqn:Hst; [|by eexists].
  rewrite (lookup_weaken _ _ _ _ Hst Hsub) in Hr. by eexists.
Qed.
Lemma micro_received c a c' sid n q : micro E c a c' → told sid a → readable c sid → (c.(cn_streams) !! sid ≠ None → (1 ≤ n)%nat) →
  received n c sid q → received (n + (if creates sid a then 1 else 0)) c' sid q.
Proof using HL Hu.
  intros Ha Ht [hist Hr] Hn Hq.
  assert (∀ sid', c.(cn_streams) !! sid' = None → sid' = sid → received (n + 1) c' sid q) as Hnew.
  { intros ? Hno ->. left. right. destruct Hq as [[[? _]|?]|(st & Hst & _)]; [lia|lia|congruence]. }
  assert (c'.(cn_streams) !! sid = c.(cn_streams) !! sid → received (n + 0) c' sid q) as Hsame by (rewrite Nat.add_0_r; intros; by eapply received_same).
  destruct Ha as [c' [= Hst _ _]|e now c' He Hnone Ho [= Hst _ _]|sid' e now c' He Hnone Ho [= Hst _ _]|c' Hst _ _
    |sid' st e s s' k ev c' Hsid He Hs' Hrel [= Hst _ _]|sid' st w' c1 ev c' Hsid Hrel Hsv [= Hst _ _]]; cbn [creates].
  - apply Hsame. by rewrite Hst.
  - case_bool_decide as Hx; [by eapply Hnew|]. apply Hsame. by rewrite Hst, lookup_insert_ne.
  - case_bool_decide as Hx; [by eapply Hnew|]. apply Hsame. by rewrite Hst, lookup_insert_ne.
  - rewrite Nat.add_0_r. destruct (cn_streams c' !! sid) as [st|] eqn:Hs.
    + eapply received_same; [|exact Hq]. rewrite Hs. symmetry. by eapply lookup_weaken.
    + left. destruct Hq as [[[? _]|?]|(st & Hx & _)]; [by left|by right|left]. split; [|done]. apply Hn. by rewrite Hx.
  - destruct (decide (sid' = sid)) as [->|Hne]; [|apply Hsame; by rewrite Hst, lookup_insert_ne]. rewrite Nat.add_0_r.
    destruct Hq as [[[_ Hx]|?]|(st' & Hx & Hq)]; [congruence|left; by right|right]. rewrite Hsid in Hx. injection Hx as <-.
    eexists. split; [by rewrite Hst, lookup_insert_eq|]. unfold reader_at in Hr. rewrite Hsid in Hr.
    apply (taken_step e s ev s' hist q He (Ht ev eq_refl) Hrel); rewrite Hs'; [|exact Hq]. by eapply (reader_view E L), Hr.
  - destruct (decide (sid' = sid)) as [->|Hne]; [|apply Hsame; by rewrite Hst, lookup_insert_ne]. rewrite Nat.add_0_r.
    destruct Hq as [[[_ Hx]|?]|(st' & Hx & Hq)]; [congruence|left; by right|right]. rewrite Hsid in Hx. injection Hx as <-.
    eexists. split; [by rewrite Hst, lookup_insert_eq|done].
Qed.
Lemma micros_received c l c' sid n bytes : env_ok E → micros E c l c' → Forall (told sid) l → sender_at E n bytes c sid → readable c sid →
  readable c' sid ∧ ∀ q, received n c sid q → received (n + births sid l) c' sid q.
Proof using HL Hu.
  intros HE Hm. induction Hm as [|l c1 a c2 Hm IH Ha]; intros Ht Hs Hr; [split; [done|]; intros q; by rewrite Nat.add_0_r|].
  apply Forall_app in Ht as [Ht1 [Ht2 _]%Forall_cons]. destruct (IH Ht1 Hs Hr) as [IH1 IH2]. split; [by eapply micro_readable|].
  intros q Hq. rewrite births_snoc, Nat.add_assoc. eapply micro_received; [exact Ha|done|done| |by apply IH2].
  intros Hx. pose proof (micros_sender E HE _ _ _ sid _ _ Hm Hs) as Hs1. destruct (decide (n + births sid l = 0)%nat) as [H0|H0]; [|lia].
  by destruct (sa_never _ _ _ _ _ Hs1 H0) as (_ & ? & _).
Qed.
End taken.

(** ** Two ends *)

(** [x] opened stream [sid] and its batch refused no frame of it *)
Definition sound (Ex Ey : cenv) (x : endpoint) (sid : Z) : Prop :=
  own Ex sid = true ∧ own Ey sid = false ∧ good (stream_log x.(ep_conn) sid).
(** frame [q] of that stream need not be sent to [y] again *)
Definition settles (Ex Ey : cenv) (x y : endpoint) (sid q : Z) : Prop :=
  sound Ex Ey x sid → received (y.(ep_births) sid) y.(ep_conn) sid q ∨ aborted x.(ep_conn).(cn_log) sid.
(** what [x] may say of [y]'s frames, and what is settled of its own *)
Definition claims_of (Ex Ey : cenv) (x y : endpoint) : claims := mkClaims
  (λ sid cum seqs, ∀ q, 0 ≤ q → q < u32 cum ∨ q ∈ u32 <$> seqs → settles Ey Ex y x (u32 sid) q)
  (λ sid q, 0 ≤ q → settles Ex Ey x y sid q) [].
(** what [x] has noted for acknowledgement, and its tombstones *)
Definition noted_ok (Ex Ey : cenv) (x y : endpoint) : Prop :=
  (∀ sid q, listed x.(ep_conn) sid q → is_u32 sid ∧ is_u32 q ∧ settles Ey Ex y x sid q) ∧
  ∀ sid, x.(ep_conn).(cn_deadStreams) !! sid ≠ None → (1 ≤ x.(ep_births) sid)%nat.
Record honest (Ex Ey : cenv) (x y : endpoint) : Prop := mkHonest {
  hn_ok : ok_with Ex (Cl := claims_of Ex Ey x y) x.(ep_conn);
  hn_noted : noted_ok Ex Ey x y;
}.

(** what [Network] knows of two ends *)
Record joined (Ex Ey : cenv) (x y : endpoint) : Prop := mkJoined {
  jn_x : conn_ok Ex x.(ep_conn);
  jn_y : conn_ok Ey y.(ep_conn);
  jn_sx : senders Ex x;
  jn_sy : senders Ey y;
  jn_ry : readers Ex Ey x y;
  jn_rx : readers Ey Ex y x;
}.
Lemma linked_joined Ex Ey x y : compatible Ex Ey → linked Ex Ey x y → joined Ex Ey x y.
Proof.
  intros Hco Hl. destruct (linked_inv Ex Ey Hco x y Hl) as (H1 & H2 & H3 & H4).
  destruct (linked_inv Ey Ex (compatible_sym _ _ Hco) y x (linked_sym _ _ _ _ Hl)) as (_ & _ & H5 & H6). by split.
Qed.
Lemma joined_sym Ex Ey x y : joined Ex Ey x y → joined Ey Ex y x.
Proof. intros []. by split. Qed.
Lemma good_prefix L L' : L `prefix_of` L' → good L' → good L.
Proof.
  intros [k ->] [[H1 _]%Forall_app H2]. split; [done|]. rewrite payloads_app, Zlen_app in H2. pose proof (Zlen_nonneg (payloads k)). lia.
Qed.

Section step.
Context (Ex Ey : cenv) (Hco : compatible Ex Ey) (x y x' : endpoint) (op : conn_op).
Context (Hj : joined Ex Ey x y) (Hop : op_ok x.(ep_conn) op) (Hh : hears Ey y.(ep_conn) op) (Hs : ep_step Ex x op = Some x').
Set Default Proof Using "Hco Hj Hop Hh Hs".
#[local] Abbreviation cx := (ep_conn x).
#[local] Abbreviation cy := (ep_conn y).
#[local] Abbreviation cx' := (ep_conn x').
#[local] Abbreviation HEx := (co_a _ _ Hco).
#[local] Abbreviation HEy := (co_b _ _ Hco).
#[local] Abbreviation Hco' := (compatible_sym _ _ Hco).

Lemma births_later sid : x'.(ep_births) sid = (x.(ep_births) sid + born cx cx' sid)%nat.
Proof using Hs. clear -Hs. revert Hs. unfold ep_step. destruct (conn_step Ex _ op) as [c'|]; [|done]. by intros [= <-]. Qed.

(** *** What [x] sends *)
Lemma log_later : cx.(cn_log) ⊆ cx'.(cn_log).
Proof.
  destruct (ep_step_acts Ex Ey HEx HEy x op x' cy (jn_x _ _ _ _ Hj) (jn_y _ _ _ _ Hj) Hop Hh Hs) as (ds & l & [k ->]%micros_log & _).
  intros z Hz. apply elem_of_app. by left.
Qed.
Lemma sound_later sid : sound Ex Ey x' sid → sound Ex Ey x sid.
Proof.
  intros (H1 & H2 & H3). split_and!; [done|done|]. eapply good_prefix, H3.
  exact (step_log Ex Ey HEx HEy x op x' cy sid (jn_x _ _ _ _ Hj) (jn_y _ _ _ _ Hj) Hop Hh Hs).
Qed.
Lemma settles_sender sid q : settles Ex Ey x y sid q → settles Ex Ey x' y sid q.
Proof.
  intros H Hsd%sound_later. destruct (H Hsd) as [?|?]; [by left|right]. eapply aborted_mono, H0. exact log_later.
Qed.

(** *** What [x] receives *)
Lemma sound_stream sid : sound Ey Ex y sid → stream_sent Ey (stream_log cy sid).
Proof using Hco Hj.
  intros (H1 & _ & H3). destruct (sender_once Ey Ex Hco' y sid (jn_sy _ _ _ _ Hj)) as [H _]; [|done|done].
  apply (sa_own _ _ _ _ _ (jn_sy _ _ _ _ Hj sid) H1).
Qed.
#[local] Abbreviation Ly := (λ sid, stream_log cy sid).
Lemma sound_readable sid : sound Ey Ex y sid → readable Ex (Ly sid) (own Ey sid = true) cx sid.
Proof. intros H%sound_stream. eexists. by apply (jn_rx _ _ _ _ Hj sid). Qed.
Lemma received_later sid q : sound Ey Ex y sid → received (x.(ep_births) sid) cx sid q → received (x'.(ep_births) sid) cx' sid q.
Proof.
  intros Hsd Hr. pose proof (sound_stream sid Hsd) as HL. rewrite births_later.
  destruct (ep_step_acts Ex Ey HEx HEy x op x' cy (jn_x _ _ _ _ Hj) (jn_y _ _ _ _ Hj) Hop Hh Hs) as (ds & l & Hm & Ha & _ & Hin & Hd).
  rewrite <- (op_acts_births Ex _ _ _ _ _ sid Ha Hm).
  pose proof (acts_told Ey Ex Hco' y cx op ds l sid (Ly sid) (jn_sy _ _ _ _ Hj) (jn_y _ _ _ _ Hj) (reflexivity _) HL Hop Hin Hd (proj2 Hh) Ha) as Ht.
  by apply (micros_received Ex (Ly sid) (sender_ok_b Ey Ex Hco' _ HL) _ (proj1 Hsd) cx l cx' sid _ _ HEx Hm Ht (jn_sx _ _ _ _ Hj sid) (sound_readable sid Hsd)).
Qed.
Lemma settles_receiver sid q : settles Ey Ex y x sid q → settles Ey Ex y x' sid q.
Proof. intros H Hsd. destruct (H Hsd) as [?|?]; [left; by apply received_later|by right]. Qed.

(** *** In the middle of an operation, before it acknowledges *)
Context (ds : list (list Z)) (Hin : op_input op ds) (Hds : Forall is_datagram ds) (Hd : ∀ d, d ∈ ds → d ∈ datagrams Ey cy ∧ Forall is_u8 d).
Context (c1 : Connection) (Hc1 : mid_of Ex cx op = Some c1).
Set Default Proof Using "All".

Lemma mid_acts : ∃ l1 l2, micros Ex cx l1 c1 ∧ Forall (heard_in Ex ds) l1 ∧ micros Ex c1 l2 cx' ∧ Forall background l2 ∧
  ∀ sid, (births sid l1 + births sid l2)%nat = born cx cx' sid.
Proof.
  destruct (step_input Ex cx op ds c1 HEx (jn_x _ _ _ _ Hj) Hin Hds Hc1) as (ds0 & Hsub & H1 & H2). specialize (H2 _ (ep_step_conn Ex _ _ _ Hs)).
  assert (Forall is_datagram ds0) as Hds0 by (apply Forall_forall; intros d Hx%Hsub; rewrite Forall_forall in Hds; auto).
  destruct (dispatch_all_acts Ex cx ds0 c1 HEx (jn_x _ _ _ _ Hj) Hds0 H1) as (l1 & M1 & F1).
  assert (does Ex background c1 cx') as (l2 & M2 & F2) by (destruct H2 as [->|H2]; [done|by apply flushPendingAcksLocked_idles]).
  exists l1, l2. split_and!; [done|eapply Forall_impl; [exact F1|]; intros a; by apply heard_in_mono|done|done|]. intros sid.
  assert (ADrop ∉ l1 ++ l2) as Hnd.
  { rewrite elem_of_app. rewrite Forall_forall in F1, F2. intros [Ha|Ha]; [by destruct (F1 _ Ha) as [?|(? & ? & _ & _ & ?)]|by destruct (F2 _ Ha)]. }
  destruct (micros_births Ex cx (l1 ++ l2) cx' sid) as [<- _]; [by eapply micros_app|done|]. unfold births. by rewrite filter_app, length_app.
Qed.
Lemma mid_u32 sid st : c1.(cn_streams) !! sid = Some st → is_u32 sid.
Proof.
  destruct mid_acts as (l1 & l2 & M1 & _). intros Hst. destruct (micros_sender Ex HEx _ _ _ sid _ _ M1 (jn_sx _ _ _ _ Hj sid)) as [A _ B _].
  apply B. intros Hz. destruct (A Hz) as (_ & ? & _). congruence.
Qed.
(** what a stream has taken in by then, it has taken in afterwards *)
Lemma mid_taken sid st : sound Ey Ex y sid → c1.(cn_streams) !! sid = Some st →
  (∃ hist, reader_inv Ex (Ly sid) (own Ey sid = true) hist st.(st_read)) ∧ ∀ q, taken st.(st_read) q → received (x'.(ep_births) sid) cx' sid q.
Proof.
  intros Hsd Hst. pose proof (sound_stream sid Hsd) as HL. destruct mid_acts as (l1 & l2 & M1 & F1 & M2 & F2 & Hb).
  pose proof (heard_told Ey Ex Hco' y ds l1 sid (Ly sid) (jn_sy _ _ _ _ Hj) (jn_y _ _ _ _ Hj) (reflexivity _) HL Hd F1) as T1.
  assert (Forall (told_ok Ex (Ly sid) (own Ey sid = true) sid) l2) as T2.
  { eapply Forall_impl; [exact F2|]. intros a Ha ev ->. by destruct ev. }
  pose proof (sender_ok_b Ey Ex Hco' _ HL) as HLb. pose proof (jn_sx _ _ _ _ Hj sid) as S0.
  destruct (micros_received Ex (Ly sid) HLb _ (proj1 Hsd) cx l1 c1 sid _ _ HEx M1 T1 S0 (sound_readable sid Hsd)) as [R1 _].
  pose proof (micros_sender Ex HEx _ _ _ sid _ _ M1 S0) as S1.
  destruct (micros_received Ex (Ly sid) HLb _ (proj1 Hsd) c1 l2 cx' sid _ _ HEx M2 T2 S1 R1) as [_ R2]. split.
  - destruct R1 as [hist R1]. unfold reader_at in R1. rewrite Hst in R1. by exists hist.
  - intros q Hq. rewrite births_later, <- Hb, Nat.add_assoc. apply R2. right. by exists st.
Qed.
(** a RESET frame of a stream [y] opened is [y]'s *)
Lemma reset_heard d f : d ∈ ds → decodeFrame d = Ok f → f.(f_ftype) = frameStreamReset → own Ey f.(f_streamID) = true → aborted cy.(cn_log) f.(f_streamID).
Proof.
  intros Hx Hdec Hft Hown. destruct (Hd d Hx) as [H1 H2]. pose proof (datagrams_from Ey _ (jn_y _ _ _ _ Hj)) as Hf. rewrite Forall_forall in Hf.
  destruct (wire_frame Ey _ d HEy (Hf d H1) H2) as [_ (op' & ft & sid & sq & pl & O1 & O2 & O3)]. rewrite Hdec in O3. injection O3 as ->.
  cbn [f_ftype f_streamID] in *. subst ft.
  assert (∀ z, (sid, z) ∈ cn_log cy → u32 sid = sid) as Hu by (intros z Hz; by eapply u32_id, (senders_u32 Ey y), Hz; apply Hj).
  assert (∀ sq p, (sid, SentReliable frameStreamReset sq p) ∈ cn_log cy → aborted (cn_log cy) (u32 sid)) as Hlog.
  { intros sq' p Hz. rewrite (Hu _ Hz). by eexists _, _. }
  destruct op' as [sid' sq' p|ft' sid' base count xl data|ft' sid' sq' p|sid' offset|sid' offset|ft' sid' sq'|sid' cum' seqs'|sid' cum' seqs'|sid' seqs'|sid' seqs'|ft' sid' sq' p|sid' code|connID|];
    cbn [op_logged op_fields] in *; try done; injection O2; intros; simplify_eq/=.
  - by destruct O1 as [[?|?] _].
  - destruct O1 as [_ O1]. by eapply Hlog.
  - destruct (control_not _ O1). set_solver.
  - destruct O1 as [[? _]|[_ O1]]; [done|by eapply Hlog].
  - destruct O1 as [O1 O4]. rewrite u32_id in Hown by done. congruence.
Qed.
Lemma mid_listed sid q : noted_ok Ex Ey x y → listed c1 sid q → is_u32 sid ∧ is_u32 q ∧ settles Ey Ex y x sid q.
Proof.
  intros [Hn Hdead]. destruct (step_input Ex cx op ds c1 HEx (jn_x _ _ _ _ Hj) Hin Hds Hc1) as (ds0 & Hsub & H1 & _).
  assert (Forall is_datagram ds0) as Hds0 by (apply Forall_forall; intros d Hx%Hsub; rewrite Forall_forall in Hds; auto).
  destruct (dispatch_all_notes Ex cx ds0 c1 HEx (jn_x _ _ _ _ Hj) Hds0 H1) as [_ Hl].
  intros [Hx|(U1 & U2 & Hx)]%Hl; [by apply Hn|]. split_and!; [done|done|]. intros (S1 & S2 & S3).
  destruct Hx as [(d & f & Hx1 & Hx2 & Hx3 & ->)|[Hno [Hx|Hx]]]; [right|left; left; left|congruence].
  - eapply reset_heard; [by apply Hsub|done|done|done].
  - split; [by apply Hdead|done].
Qed.
Lemma mid_flush : noted_ok Ex Ey x y → may_flush (Cl := claims_of Ex Ey x' y) c1.
Proof.
  intros Hn. split.
  - intros sid st Hst sub Hsub q Hq0 Hq Hsd. rewrite (u32_id sid) in * by (by eapply mid_u32). left.
    pose proof (sound_stream sid Hsd) as HL. destruct (mid_taken sid st Hsd Hst) as [[hist Hr] Ht]. apply Ht.
    apply (snapshot_taken Ex (Ly sid) (sender_ok_b Ey Ex Hco' _ HL) _ (proj1 Hsd) _ hist); [done| |done].
    destruct Hq as [Hq|(z & -> & Hz)%list_elem_of_fmap]; [by left|right]. apply list_elem_of_fmap. eexists. split; [done|]. by apply Hsub.
  - intros sid l Hl sub Hsub q Hq0 [Hq|(z & -> & Hz)%list_elem_of_fmap]; [change (u32 0) with 0 in Hq; lia|].
    destruct (mid_listed sid z Hn) as (U1 & U2 & Hst); [exists l; by auto|]. rewrite (u32_id sid), (u32_id z) by done. by apply settles_receiver.
Qed.
End step.

(** ** The ends stay honest *)
Section honest.
Context (Ex Ey : cenv) (Hco : compatible Ex Ey) (x y x' : endpoint) (op : conn_op).
Context (Hj : joined Ex Ey x y) (Hop : op_ok x.(ep_conn) op) (Hh : hears Ey y.(ep_conn) op) (Hs : ep_step Ex x op = Some x').
Context (Hx : honest Ex Ey x y) (Hy : honest Ey Ex y x).
Set Default Proof Using "All".
#[local] Abbreviation cx := (ep_conn x).
#[local] Abbreviation cy := (ep_conn y).
#[local] Abbreviation cx' := (ep_conn x').
#[local] Abbreviation HEx := (co_a _ _ Hco).
#[local] Abbreviation HEy := (co_b _ _ Hco).
#[local] Abbreviation Cl' := (claims_of Ex Ey x' y).

Lemma claims_later : ok_with Ex (Cl := Cl') cx.
Proof.
  apply (ok_weaken Ex (claims_of Ex Ey x y)); [done| | |exact (hn_ok _ _ _ _ Hx)].
  - intros sid cum seqs H q Hq0 Hq. eapply settles_receiver; [done..|]. by apply H.
  - intros sid q H. left. intros Hq. eapply settles_sender; [done..|]. by apply H.
Qed.
Lemma honest_peer : honest Ey Ex y x'.
Proof.
  destruct Hy as [H1 [H2 H3]]. split.
  - apply (ok_weaken Ey (claims_of Ey Ex y x)); [done| | |exact H1].
    + intros sid cum seqs H q Hq0 Hq. eapply settles_sender; [done..|]. by apply H.
    + intros sid q H. left. intros Hq. eapply settles_receiver; [done..|]. by apply H.
  - split; [|done]. intros sid q (U1 & U2 & H)%H2. split_and!; [done|done|]. by eapply settles_sender.
Qed.

(** the ACKs [x] hears are those [y] sent *)
Lemma ack_heeded d f : d ∈ datagrams Ey cy → Forall is_u8 d → decodeFrame d = Ok f → heeded (Cl := Cl') f.
Proof.
  intros Hd Hb Hdec Hft cum seqs q Hl Hq Hq0. destruct (ck_wire _ _ (hn_ok _ _ _ _ Hy)) as (s & D & Hw & [_ HQ] & HD).
  unfold datagrams in Hd. rewrite Hw, HQ in Hd. rewrite Forall_forall in HD. destruct (HD d Hd) as (op' & O1 & O2 & O3 & O4).
  destruct (op_frame Ey op' d HEy O1 O2 Hb) as [_ (ft & sid & sq & pl & F1 & F2)]. rewrite Hdec in F2. injection F2 as ->. cbn [f_ftype f_streamID] in *.
  destruct (ack_frame Ey _ op' ft sid sq pl cum seqs HEy O2 O3 F1 Hft Hl) as (cum' & seqs' & Hop' & -> & ->).
  eapply settles_sender; [done..|]. destruct Hop' as [-> | ->]; by apply O4.
Qed.
Lemma heeded_op : op_heeded Ex (Cl := Cl') cx op.
Proof.
  destruct Hh as [(ds & Hin & Hd) _].
  pose proof (hears_datagrams Ey cx cy op ds HEy (jn_y _ _ _ _ Hj) Hop Hin Hd) as Hds.
  assert (∀ d, d ∈ ds → d ∈ datagrams Ey cy ∧ Forall is_u8 d) as Hd' by (intros d Hz; split; [by apply Hd|by eapply input_bytes]).
  assert (∀ c1, mid_of Ex cx op = Some c1 → may_flush (Cl := Cl') c1) as Hmid.
  { intros c1 Hc1. by eapply (mid_flush Ex Ey Hco x y x' op Hj Hop Hh Hs ds), (hn_noted _ _ _ _ Hx). }
  assert (∀ d f, d ∈ ds → decodeFrame d = Ok f → heeded (Cl := Cl') f) as Hack by (intros d f Hz; by apply ack_heeded; apply Hd').
  clear -Hin Hds Hack Hmid. destruct op as [| | | | | | | | |msgs|buf| | | | | | | | | |]; try done; (split; [|exact Hmid]); cbn [op_input] in Hin.
  - destruct Hin as (groups & -> & ->). apply Forall_fmap, Forall_forall. intros g Hg. apply Forall_concat in Hds. rewrite Forall_forall in Hds.
    apply heeds_datagrams; [by apply Hds|]. intros d f Hz. apply Hack, list_elem_of_In, in_concat. exists g. by split; apply list_elem_of_In.
  - subst buf. by apply heeds_datagrams.
Qed.
Lemma noted_later : noted_ok Ex Ey x' y.
Proof.
  destruct (hn_noted _ _ _ _ Hx) as [N1 N2]. pose proof (ep_step_conn Ex _ _ _ Hs) as Hc.
  assert (∀ sid, (1 ≤ ep_births x sid)%nat → (1 ≤ ep_births x' sid)%nat) as Hb by (intros sid; rewrite (births_later Ex x x' op Hs); lia).
  assert (∀ sid q, is_u32 sid ∧ is_u32 q ∧ settles Ey Ex y x sid q → is_u32 sid ∧ is_u32 q ∧ settles Ey Ex y x' sid q) as Hst.
  { intros sid q (U1 & U2 & H). split_and!; [done|done|]. by eapply settles_receiver. }
  assert (op = KTick ∨ op ≠ KTick) as Htick by (clear; destruct op; by auto).
  destruct (keeps_ledger op) eqn:Hk; [|destruct Htick as [Ht|Hnt]].
  - apply (step_ledger Ex _ _ _ HEx (jn_x _ _ _ _ Hj) Hop Hk) in Hc. injection Hc as Hc1 Hc2. unfold noted_ok, listed. rewrite Hc1, Hc2. split; [|by intros sid ?%N2%Hb].
    intros sid q Hl. by apply Hst, N1.
  - rewrite Ht in Hc. apply retransmitTick_buries in Hc as [B1 B2]. split; [intros sid q Hl; by apply Hst, N1, B1|]. intros sid [Hl|Hl]%B2; [by apply Hb, N2|]. apply Hb.
    destruct (decide (ep_births x sid = 0%nat)) as [H0|]; [|lia]. by destruct (sa_never _ _ _ _ _ (jn_sx _ _ _ _ Hj sid) H0) as (_ & ? & _).
  - destruct (mid_total Ex cx op Hop Hk Hnt) as [c1 Hc1]. destruct Hh as [(ds & Hin & Hd) _].
    pose proof (hears_datagrams Ey cx cy op ds HEy (jn_y _ _ _ _ Hj) Hop Hin Hd) as Hds.
    assert (∀ d, d ∈ ds → d ∈ datagrams Ey cy ∧ Forall is_u8 d) as Hd' by (intros d Hz; split; [by apply Hd|by eapply input_bytes]).
    destruct (step_input Ex cx op ds c1 HEx (jn_x _ _ _ _ Hj) Hin Hds Hc1) as (ds0 & Hsub & H1 & H2). specialize (H2 _ Hc).
    assert (notes (λ _ _, False) c1 cx') as [D2 L2] by (destruct H2 as [->|H2]; [done|by eapply flush_notes]).
    assert (Forall is_datagram ds0) as Hds0 by (apply Forall_forall; intros d Hz%Hsub; rewrite Forall_forall in Hds; auto).
    destruct (dispatch_all_notes Ex cx ds0 c1 HEx (jn_x _ _ _ _ Hj) Hds0 H1) as [D1 _]. split; [|rewrite D2, D1; by intros sid ?%N2%Hb].
    intros sid q [Hl|[]]%L2. by eapply Hst, mid_listed.
Qed.
Lemma honest_step : honest Ex Ey x' y.
Proof.
  split; [|exact noted_later]. destruct (conn_step_ok_with Ex HEx _ op claims_later Hop heeded_op) as (c' & H1 & H2).
  rewrite (ep_step_conn Ex _ _ _ Hs) in H1. by injection H1 as <-.
Qed.
End honest.

Lemma linked_honest Ex Ey x y : compatible Ex Ey → linked Ex Ey x y → honest Ex Ey x y ∧ honest Ey Ex y x.
Proof.
  intros Hco. pose proof (compatible_sym _ _ Hco) as Hco'. induction 1 as [|x y op x' Hl [IH1 IH2] Hop Hh Hs|x y op y' Hl [IH1 IH2] Hop Hh Hs].
  - assert (∀ E E', env_ok E → honest E E' (ep_new E) (ep_new E')) as Hnew; [|split; apply Hnew, Hco].
    intros E E' HE. split; [by apply new_ok|]. split; [intros sid q (l & Hl & _)|intros sid Hl]; cbn in Hl; by rewrite lookup_empty in Hl.
  - pose proof (linked_joined _ _ _ _ Hco Hl) as Hj. split; [by eapply (honest_step Ex Ey)|by eapply (honest_peer Ex Ey)].
  - pose proof (joined_sym _ _ _ _ (linked_joined _ _ _ _ Hco Hl)) as Hj. split; [by eapply (honest_peer Ey Ex)|by eapply (honest_step Ey Ex)].
Qed.

(** ** The fate of a frame *)
Section fate.
Context (Ea Eb : cenv) (Hco : compatible Ea Eb) (a b : endpoint) (Hl : linked Ea Eb a b) (sid : Z) (Hsd : sound Ea Eb a sid).
#[local] Abbreviation La := (stream_log (ep_conn a) sid).

Lemma sound_sent : stream_sent Ea La.
Proof using Hco Hl Hsd. by apply (sound_stream Eb Ea (compatible_sym _ _ Hco) b a); [apply joined_sym, linked_joined|]. Qed.
Lemma owed_seq x ft seq p : x ∈ La → owed x = Some (ft, seq, p) → 0 ≤ seq ∨ aborted a.(ep_conn).(cn_log) sid.
Proof using Hco Hl Hsd.
  intros Hx Ho. pose proof sound_sent as HL. destruct x as [sq pl e|? ? ? ? ?|ft' sq pl]; cbn in Ho; simplify_eq.
  - left. by destruct (data_chunk Ea Eb Hco _ HL _ _ _ Hx) as [[? _] _].
  - destruct (reliable_types Ea _ HL _ _ _ Hx) as [-> |[-> _]]; [left|right; eexists _, _; by apply frames_of_elem].
    destruct (sk_fin _ _ _ (sent_ok_a Ea Eb Hco _ HL) _ _ Hx) as [-> _]. apply Zlen_nonneg.
Qed.
Lemma frame_fate x ft seq p : x ∈ La → owed x = Some (ft, seq, p) →
  (∃ L, rq_holds a.(ep_conn).(cn_rq) [] L ∧ (ft, sid, seq, p) ∈ frame_key <$> L) ∨
  received (b.(ep_births) sid) b.(ep_conn) sid seq ∨ aborted a.(ep_conn).(cn_log) sid.
Proof using Hco Hl Hsd.
  intros Hx Ho. destruct (linked_honest Ea Eb a b Hco Hl) as [[[(L & HL & _ & [Hcv _] & _) _ _] _] _].
  destruct (Hcv sid x ft seq p) as [Hq|[Hs|?]]; [by apply frames_of_elem|done|left; by exists L| |by right; right].
  right. destruct (owed_seq x ft seq p Hx Ho) as [Hq|?]; [|by right]. by apply Hs.
Qed.

(** a frame number of the stream has a frame *)
Lemma data_sent q : 0 ≤ q < Zlen (payloads La) → ∃ p e, SentData q p e ∈ La.
Proof using Hco Hl Hsd.
  intros Hq. rewrite Zlen_payloads in Hq. destruct (lookup_lt_is_Some_2 (frames La) (Z.to_nat q)) as [[sq p] Hf]; [unfold Zlen in Hq; lia|].
  pose proof (sk_seqs _ _ _ (sent_ok_a Ea Eb Hco _ sound_sent) _ _ Hf) as Hs. cbn in Hs. rewrite Z2Nat.id in Hs by lia. subst sq.
  apply list_elem_of_lookup_2 in Hf. unfold frames in Hf. apply list_elem_of_omap in Hf as ([sq p' e| |] & Hx & Hy); simplify_eq/=. by exists p, e.
Qed.
(** what waits in the ring and, past its end, in the reorder buffer, up to frame [n] *)
Definition buffered (s : rside) (q : Z) : list Z := match s.(reorder) !! q with Some buf => bytes buf | None => [] end.
Definition unread (s : rside) (n : Z) : list Z := contents s.(rg) ++ concat (buffered s <$> seqZ s.(readSeq) (n - s.(readSeq))).

Lemma drop_chunks (chunks : list (list Z)) k : 0 ≤ k → drop (Z.to_nat k) chunks = chunk chunks <$> seqZ k (Zlen chunks - k).
Proof using.
  intros Hk. apply list_eq. intros i. rewrite lookup_drop, list_lookup_fmap. destruct (decide (Z.to_nat k + i < length chunks)%nat) as [Hlt|Hge].
  - rewrite lookup_seqZ_lt by (unfold Zlen; lia). cbn. unfold chunk. replace (Z.to_nat (k + Z.of_nat i)) with (Z.to_nat k + i)%nat by lia.
    by destruct (lookup_lt_is_Some_2 chunks (Z.to_nat k + i) Hlt) as [x ->].
  - rewrite lookup_seqZ_ge by (unfold Zlen; lia). rewrite lookup_ge_None_2 by lia. done.
Qed.
(** a live stream that holds every frame has them all *)
Lemma all_held hist s : recv_inv (base_env Eb) (payloads La) (quiet hist) s → (∀ q, 0 ≤ q < Zlen (payloads La) → held s q) →
  hist ++ unread s (Zlen (payloads La)) = concat (payloads La).
Proof using.
  intros Hi Hall. pose proof (ri_seq _ _ _ _ Hi) as H0. pose proof (RecvInv.ri_data _ _ _ _ Hi) as Hd. cbn in Hd. unfold unread.
  rewrite app_assoc, Hd. unfold first_chunks. rewrite <- (take_drop (Z.to_nat (readSeq s)) (payloads La)) at 3. rewrite concat_app. f_equal.
  rewrite drop_chunks by done. f_equal. apply list_fmap_ext. intros i q Hq%list_elem_of_lookup_2%elem_of_seqZ. unfold buffered.
  destruct (Hall q) as [?|Hr]; [lia|lia|]. destruct (reorder s !! q) as [buf|] eqn:Hb; [|done]. by destruct (ri_reorder _ _ _ _ Hi _ _ Hb) as (_ & _ & ->).
Qed.
End fate.


(** the frames of a stream, all taken by the batch, none a RESET *)
Definition calm (L : list sent) : bool :=
  forallb (λ x, match x with SentData _ _ (Some _) => false | SentReliable ft _ _ => negb (ft =? frameStreamReset) | _ => true end) L.
Lemma calm_good L n : calm L = true → Zlen (payloads L) = n → n + 1 < 2 ^ 32 → good L.
Proof.
  intros H. apply good_check. unfold calm in H. rewrite forallb_forall in *. intros x Hx%H. by destruct x as [? ? []| |].
Qed.
Lemma calm_not_aborted c sid : calm (stream_log c sid) = true → ¬ aborted c.(cn_log) sid.
Proof.
  intros H (seq & p & Hx%frames_of_elem%list_elem_of_In). unfold calm in H. rewrite forallb_forall in H. apply H in Hx. by apply negb_true_iff, bool_decide_eq_false in Hx.
Qed.

(** The client of C1 sends its three frames and the FIN; the network loses all
    but the third: the first is in the client's queue. *)
Definition loss_script : list net_op :=
  [ NDo true KOpen; NDo true (KWrite 1 (replicate 100 1 ++ replicate 100 2 ++ replicate 50 3)); NDo true (KCloseWrite 1); NCarry false [[2]]%nat; NCarry true [[0; 1]]%nat ].
Definition loss_goal (a b : endpoint) : bool :=
  calm (stream_log a.(ep_conn) 1) && bool_decide (Zlen (payloads (stream_log a.(ep_conn) 1)) = 3) &&
  match head (stream_log a.(ep_conn) 1) with Some (SentData seq p None) => bool_decide (seq = 0 ∧ p = replicate 100 1 ++ replicate 23 2) | _ => false end && bool_decide (ep_births b 1 = 1%nat) &&
  match b.(ep_conn).(cn_streams) !! 1 with
  | Some st => bool_decide (st.(st_read).(readSeq) = 0) && bool_decide (st.(st_read).(reorder) !! 0 = None) && bool_decide (st.(st_read).(reorder) !! 2 ≠ None) &&
      negb st.(st_read).(finRecvd) && negb st.(st_read).(readCanceled) && bool_decide (st.(st_read).(readErr) = None)
  | None => false
  end.

(** C3: what is acknowledged has arrived.  Two linked ends as in C1; [a]
    opened stream [sid] and has not reset it, no DATA frame of it was refused,
    and its retransmission queue holds nothing of the stream: everything was
    acknowledged.  If [b] still
    has the stream, the first of its number, and has not given it up, then
    what [b] has read and what it holds, in its ring and in its reorder buffer
    after that, are together everything [a] wrote; and if [a] closed its side,
    [b] knows where the end is. *)
Theorem acknowledged_delivered Ea Eb a b sid st :
  compatible Ea Eb → linked Ea Eb a b → own Ea sid = true → own Eb sid = false → good (stream_log a.(ep_conn) sid) →
  ¬ aborted a.(ep_conn).(cn_log) sid → hasStream a.(ep_conn).(cn_rq) sid = false →
  b.(ep_conn).(cn_streams) !! sid = Some st → (ep_births b sid ≤ 1)%nat → ¬ given_up st.(st_read) →
  ep_read b sid ++ unread st.(st_read) (Zlen (payloads (stream_log a.(ep_conn) sid))) = ep_written a sid ∧
  (has_fin (stream_log a.(ep_conn) sid) → st.(st_read).(finRecvd) = true).
Proof.
  intros Hco Hl H1 H2 H3 Hab Hq Hst Hb Hg. assert (sound Ea Eb a sid) as Hsd by done.
  destruct (linked_joined Ea Eb a b Hco Hl) as [J1 _ J3 _ J5 _].
  destruct (sender_once Ea Eb Hco a sid J3) as [HL <-]; [apply (sa_own _ _ _ _ _ (J3 sid) H1)|done|].
  assert (∀ x ft seq p, x ∈ stream_log a.(ep_conn) sid → owed x = Some (ft, seq, p) → taken st.(st_read) seq) as Htk.
  { intros x ft seq p Hx Ho. destruct (frame_fate Ea Eb Hco a b Hl sid Hsd x ft seq p Hx Ho) as [(L & HL' & Hin)|[[[[_ ?]|?]|(st' & Hst' & ?)]|?]].
    - apply list_elem_of_fmap in Hin as (f & [= _ -> _ _] & Hf). by destruct (holds_hasStream _ _ _ HL' _ Hq f Hf).
    - congruence.
    - lia.
    - rewrite Hst in Hst'. by injection Hst' as <-.
    - done. }
  specialize (J5 sid _ (reflexivity _) HL). unfold reader_at in J5. rewrite Hst in J5.
  destruct J5 as [[Hi Hf]|[Hc _]]; [|destruct Hg; by apply (cut_given_up (own Ea sid = true) H1)].
  assert (has_fin (stream_log a.(ep_conn) sid) → st.(st_read).(finRecvd) = true) as Hfin.
  { intros (sq & p & Hx). destruct (sk_fin _ _ _ (sent_ok_a Ea Eb Hco _ HL) _ _ Hx) as [-> _].
    destruct (Htk _ _ _ _ Hx eq_refl) as [[Hh|Hh]|[[? _]|?]]; [|destruct (reorder (st_read st) !! _) as [buf|] eqn:Hbuf; [|done]|done|done].
    - pose proof (ri_err _ _ _ _ Hi) as He. destruct (readErr (st_read st)); [by destruct He as (_ & ? & _)|lia].
    - destruct (ri_reorder _ _ _ _ Hi _ _ Hbuf) as [? _]. lia. }
  split; [|done]. apply (all_held Eb a sid); [exact Hi|]. intros q Hq'. destruct (data_sent Ea Eb Hco a b Hl sid Hsd q Hq') as (p & e & Hx).
  destruct (Htk _ _ _ _ Hx eq_refl) as [?|[[Hf1 Hf2]|?]]; [done| |done]. rewrite (ri_fin _ _ _ _ Hi Hf1) in Hf2. lia.
Qed.

(** With all of it but the first frame, which parity makes up for, the server
    answers; its ACK empties the client's queue while 130 bytes are unread. *)
Definition acked_script : list net_op :=
  [ NDo true KOpen; NDo true (KWrite 1 (replicate 100 1 ++ replicate 100 2 ++ replicate 50 3)); NDo true (KCloseWrite 1);
    NCarry false [[5; 2]; [3]; [1; 1]]%nat; NDo false (KRead 1 120); NCarry true [[0; 1; 2; 3]]%nat ].
Definition acked_goal (a b : endpoint) : bool :=
  calm (stream_log a.(ep_conn) 1) && bool_decide (Zlen (payloads (stream_log a.(ep_conn) 1)) = 3) && negb (hasStream a.(ep_conn).(cn_rq) 1) && bool_decide (ep_births b 1 = 1%nat) &&
  bool_decide (Zlen (ep_read b 1) = 120) && existsb (λ x, match x with SentReliable ft _ _ => ft =? frameStreamFIN | _ => false end) (stream_log a.(ep_conn) 1) &&
  match b.(ep_conn).(cn_streams) !! 1 with Some st => negb st.(st_read).(readCanceled) && bool_decide (st.(st_read).(readErr) = Some io_EOF) | None => false end.
Lemma acknowledged_delivered_witness : ∃ a b st, linked net_client net_server a b ∧ b.(ep_conn).(cn_streams) !! 1 = Some st ∧ Zlen (ep_read b 1) = 120 ∧
  ep_read b 1 ++ unread st.(st_read) 3 = ep_written a 1 ∧ st.(st_read).(finRecvd) = true.
Proof.
  destruct (net_check_spec net_client net_server acked_script acked_goal) as (a & b & Hl & HP); [vm_compute; reflexivity|].
  unfold acked_goal in HP. rewrite !andb_true_iff in HP.
  destruct HP as ((((((H1 & H2%bool_decide_eq_true) & H3%negb_true_iff) & H4%bool_decide_eq_true) & H5%bool_decide_eq_true) & H6) & H7).
  destruct (b.(ep_conn).(cn_streams) !! 1) as [st|] eqn:Hst; [|done]. apply andb_true_iff in H7 as [S1%negb_true_iff S2%bool_decide_eq_true].
  assert (has_fin (stream_log a.(ep_conn) 1)) as Hfin.
  { apply existsb_exists in H6 as ([| |ft sq p] & Hx%list_elem_of_In & Hft); try done. apply bool_decide_eq_true in Hft as ->. by exists sq, p. }
  destruct (acknowledged_delivered net_client net_server a b 1 st net_compatible Hl eq_refl eq_refl (calm_good _ 3 H1 H2 eq_refl) (calm_not_aborted _ _ H1) H3 Hst)
    as [R1 R2]; [lia|intros [?|[_ ?]]; congruence|]. rewrite H2 in R1. exists a, b, st. exact (conj Hl (conj Hst (conj H5 (conj R1 (R2 Hfin))))).
Defined.

(** ** A lost WINDOW_UPDATE

    Credit is not part of what is made up for.  [windowUpdatePayload]'s comment
    has a lost update superseded by the next one, and [sendWindowUpdate]'s by
    the next receive batch.  When the writer waits for the very credit that was
    lost and everything it sent is acknowledged, there is no next one: nothing
    is pending, so nothing is sent that the peer would answer with an update. *)
Definition small_cfg : config := WithStreamBufferSize 100 (WithBatchSize 2 (WithMaxDatagramSize 140 defaultConfig)).
Definition small_client : cenv := example_env small_cfg true.
Definition small_server : cenv := example_env small_cfg false.
Definition unsent : list Z := replicate 46 5.
Definition starve_script : list net_op :=
  [ NDo true KOpen; NDo true (KWrite 1 (replicate 246 4 ++ unsent)); NCarry false [[0]; [1]]%nat; NCarry true [[0; 1]]%nat; NDo false (KRead 1 1000) ].

(** every datagram sent from place [from] on *)
Definition since (E : cenv) (c : Connection) (from : nat) : list (list nat) := [seq from (length (datagrams E c) - from)].
(** both sides' timers run, both applications try again, and the network
    carries everything that is sent meanwhile *)
Definition carried_round (n : endpoint * endpoint) (na nb : nat) : option (endpoint * endpoint * nat * nat) :=
  '(a, b) ← net_run small_client small_server n
    [NDo true (KWrite 1 unsent); NDo true KTick; NDo true KService; NDo true KKeepAlive; NDo false (KRead 1 1000); NDo false KTick; NDo false KService; NDo false KKeepAlive];
  let na' := length (datagrams small_client a.(ep_conn)) in
  '(a, b) ← net_run small_client small_server (a, b) [NCarry false (since small_client a.(ep_conn) na)];
  let nb' := length (datagrams small_server b.(ep_conn)) in
  '(a, b) ← net_run small_client small_server (a, b) [NCarry true (since small_server b.(ep_conn) nb)];
  Some (a, b, na', nb').
Fixpoint rounds (k : nat) (n : endpoint * endpoint) (na nb : nat) : option (endpoint * endpoint) :=
  match k with O => Some n | S k => '(a, b, na, nb) ← carried_round n na nb; rounds k (a, b) na nb end.
(** what the writer may send, has sent, what is unacknowledged, and what the
    reader has granted and read *)
Definition credit_view (n : endpoint * endpoint) : option (Z * Z * bool * Z * Z) :=
  let '(a, b) := n in
  sa ← a.(ep_conn).(cn_streams) !! 1; sb ← b.(ep_conn).(cn_streams) !! 1;
  Some (sa.(st_write).(maxSendOffset), sa.(st_write).(sentOffset), hasStream a.(ep_conn).(cn_rq) 1, sb.(st_read).(peerOffset), Zlen (b.(ep_read) 1)).

(** The writer is out of credit with everything acknowledged; the reader has
    read it all and granted 254 bytes more, in an update that is lost.  After a
    hundred rounds in which no other datagram is lost, the writer still waits
    for 46 bytes of room and has 8. *)
Theorem lost_window_strands :
  (n ← net_run small_client small_server (ep_new small_client, ep_new small_server) starve_script;
   credit_view n) = Some (254, 246, false, 500, 246) ∧
  (n ← net_run small_client small_server (ep_new small_client, ep_new small_server) starve_script;
   n ← rounds 100 n (length (datagrams small_client (ep_conn n.1))) (length (datagrams small_server (ep_conn n.2)));
   st ← (ep_conn n.1).(cn_streams) !! 1;
   Some (credit_view n, writes small_client (ep_conn n.1) 1 st unsent)) = Some (Some (254, 246, false, 500, 246), Some (WBlocked 0 unsent)).
Proof. split; vm_compute; reflexivity. Qed.
