(* ===== verification/Resending.v ===== *)
(** * What is pending is sent again

    [Reliability] leaves a frame either with the peer or in the sender's
    retransmission queue.  Here: a frame that stays in the queue goes out
    again.  The ticker marks it once it is older than the retransmission
    timeout; a marked frame is among the worker's requests in every state a
    connection can reach ([waited] of [ConnInv]); and a pass of the worker
    puts each of them on the wire and empties the batch. *)
From S2P Require Import Prelude Errors Frame Float64 Pacer Options Ring StreamRecv Retransmit RetransmitSpec RetransmitRefine.
From S2P Require Import StreamSend SendRule Estimator SendBatch BatchInv SendFifo Connection ConnLemmas Termination ConnBooks ConnInv ConnOps ConnRun Dial.

(** ** A send path that does not fail *)

(** the socket stays open, the pacer grants and the kernel takes every batch *)
Definition willing (X : txenv) : Prop := ∀ t, X.(isShutdown) t = false ∧ X.(granted) t = true ∧ X.(sendErrno) t = 0.

Definition sure {A} (m : T A) : Prop := ∀ s s' r, m s = Some (s', r) → ∃ a, r = Ok a.
Lemma sure_ret {A} (a : A) : sure (mret a).
Proof. intros s s' r [= _ <-]. by exists a. Qed.
Lemma sure_bind {A B} (m : T A) (k : A → T B) : sure m → (∀ a, sure (k a)) → sure (m ≫= k).
Proof.
  intros Hm Hk s s' r. unfold mbind, T_bind. destruct (m s) as [[s1 r1]|] eqn:H1; [|done].
  destruct (Hm _ _ _ H1) as [a ->]. apply Hk.
Qed.
Lemma sure_get : sure get.
Proof. intros s s' r [= _ <-]. by eexists. Qed.
Lemma sure_modify f : sure (modify f).
Proof. intros s s' r [= _ <-]. by eexists. Qed.
Lemma sure_lift {A} (o : option A) : sure (lift o).
Proof. intros s s' r. unfold lift. destruct o; [|done]. intros [= _ <-]. by eexists. Qed.
Lemma sure_when b m : sure m → sure (when b m).
Proof. intros Hm. destruct b; [exact Hm|apply sure_ret]. Qed.
Lemma sure_ask {A B} (f : nat → A) v (k : A → T B) : (∀ t, f t = v) → sure (k v) → sure (ask f ≫= k).
Proof. intros Hf Hk s s' r. unfold mbind, T_bind, ask. rewrite Hf. apply Hk. Qed.
Create HintDb sure.
#[local] Hint Resolve sure_ret sure_get sure_modify sure_lift sure_when : sure.
(** a sequence of steps that cannot fail *)
Ltac sure_steps := repeat first [solve [auto with sure]|apply sure_bind; [|intros ?]|match goal with |- sure (let '(_, _) := ?x in _) => destruct x end].

Section sure.
Context (X : txenv) (HX : willing X).

Lemma sure_flush : sure (flushSendLocked X).
Proof using HX.
  unfold flushSendLocked. apply sure_bind; [apply sure_modify|intros _]. apply sure_bind; [apply sure_get|intros s0]. destruct (_ =? 0); [apply sure_modify|].
  apply (sure_ask _ false); [apply HX|]. assert (∀ k : bool → T unit, sure (k true) → sure (match tx_pacer X with Some _ => ask (granted X) | None => mret true end ≫= k)) as Hg.
  { intros k Hk. destruct (tx_pacer X); [apply (sure_ask _ true); [apply HX|done]|exact Hk]. }
  apply Hg. cbn [negb]. apply (sure_ask _ 0); [apply HX|]. apply sure_bind; [apply sure_modify|intros _]. apply sure_ret.
Qed.
#[local] Hint Resolve sure_flush : sure.
Lemma sure_resend ft sid seq p : sure (queueResendCopy X ft sid seq p).
Proof using HX.
  unfold queueResendCopy, acquireSendSlot, splitPacingClassLocked, commitSendSlot, flush_if_full, write_slot. sure_steps.
Qed.
End sure.

(** ** The worker *)
Section worker.
Context (E : cenv) (HE : env_ok E) (HX : willing E.(ce_tx)).
#[local] Abbreviation X := (ce_tx E).
#[local] Abbreviation ok := (conn_ok E).
#[local] Abbreviation dgs := (datagrams E).
Implicit Types (c : Connection).

(** the datagram a resend of frame [f] makes *)
Definition copy_of (f : pframe) : list Z := data_hdr X f.(p_ftype) f.(p_streamID) f.(p_seq) (Zlen f.(p_bytes)) ++ f.(p_bytes).

(** the queue keeps what it holds *)
Definition rq_kept c c' : Prop := ∀ loans L, rq_holds c.(cn_rq) loans L → rq_holds c'.(cn_rq) loans L.
Lemma rq_kept_trans c1 c2 c3 : rq_kept c1 c2 → rq_kept c2 c3 → rq_kept c1 c3.
Proof. intros H1 H2 loans L HL. by apply H2, H1. Qed.
Lemma rq_kept_same c c' : c'.(cn_rq) = c.(cn_rq) → rq_kept c c'.
Proof. intros H loans L. by rewrite H. Qed.
Lemma tx_do_kept m c : rq_kept c (tx_do m c).1.
Proof.
  intros loans L HL. unfold tx_do. destruct (cn_tx c) as [s|]; [|done]. destruct (m s) as [[s' r]|]; [|done]. cbn [fst].
  destruct (existsb _ _); [by apply holds_drain|done].
Qed.

(** the send path is in order *)
Definition wired c : Prop := ∃ s D, c.(cn_tx) = Some s ∧ BatchInv.st X D s.
Lemma ok_wired (C : claims) c : ok_with E (Cl := C) c → wired c.
Proof. intros Hc. destruct (ck_wire _ _ Hc) as (s & D & Hx & Hs & _). by exists s, D. Qed.

Lemma tx_sends op c : op_fits X op → sure (tx_exec X op) → wired c →
  (tx_do (tx_exec X op) c).2 = None ∧ wired (tx_do (tx_exec X op) c).1 ∧ dgs (tx_do (tx_exec X op) c).1 = dgs c ++ frame_of X op.
Proof using HE.
  intros Hfit Hsure (s & D & Hx & Hs). unfold tx_do, datagrams. rewrite Hx.
  destruct (tx_exec_spec _ (eo_tx _ HE) D op Hfit s Hs) as (s' & r & H1 & Hr). rewrite H1. cbn [fst snd].
  destruct (Hsure _ _ _ H1) as [a ->]. destruct Hr as [Hs'|[[e He] _]]; [|done]. split; [done|].
  pose proof (proj2 Hs) as Hq. pose proof (proj2 Hs') as Hq'. rewrite Hq. destruct (existsb _ _); (split; [by exists s', (D ++ frame_of X op)|exact Hq']).
Qed.

Lemma queueCopies_sends n c (e : retransmitEntry) data b : wired c → op_fits X (TxResend e.(e_ftype) e.(e_streamID) e.(e_seq) data) →
  let '(c', b') := queueCopies E n c e data b in
  wired c' ∧ rq_kept c c' ∧ (b = true → b' = true) ∧
  ∃ D, dgs c' = dgs c ++ D ∧ ((0 < n)%nat → b' = true ∧ data_hdr X e.(e_ftype) e.(e_streamID) e.(e_seq) (Zlen data) ++ data ∈ D).
Proof using HE HX.
  revert c b. induction n as [|n IH]; intros c b Hw Hfit; cbn [queueCopies].
  { split_and!; [done|by apply rq_kept_same|done|]. exists []. rewrite app_nil_r. split; [done|lia]. }
  set (op := TxResend _ _ _ _) in *. change (queueResendCopy X (e_ftype e) (e_streamID e) (e_seq e) data) with (tx_exec X op).
  destruct (tx_sends op c Hfit (sure_resend X HX _ _ _ _) Hw) as (H1 & H2 & H3). pose proof (tx_do_kept (tx_exec X op) c) as Hk.
  destruct (tx_do (tx_exec X op) c) as [c1 r]. cbn [fst snd] in *. subst r. specialize (IH c1 true H2 Hfit).
  destruct (queueCopies E n c1 e data true) as [c2 b2]. destruct IH as (W & K & B & D & HD & _).
  split_and!; [done|by eapply rq_kept_trans|auto|]. exists (frame_of X op ++ D). rewrite HD, H3, app_assoc. split; [done|].
  intros _. split; [by apply B|]. apply elem_of_app. left. by left.
Qed.

Lemma keys_unique_eq L f g : keys_unique L → f ∈ L → g ∈ L → request_of f = request_of g → f = g.
Proof using.
  unfold keys_unique. induction L as [|h L IH]; [by intros _ ?%elem_of_nil|]. rewrite fmap_cons. intros [Hn Hu]%NoDup_cons Hf Hg [= H1 H2].
  apply elem_of_cons in Hf as [->|Hf]; apply elem_of_cons in Hg as [->|Hg]; [done| | |apply IH; try done; unfold request_of; congruence]; exfalso; apply Hn, list_elem_of_fmap;
    [exists g|exists f]; (split; [congruence|done]).
Qed.

(** one request: its frame goes out, the others stay marked *)
Lemma resendOne_sends c req b L : wired c → rq_holds c.(cn_rq) [] L → Forall (kept_frame E c.(cn_log)) L → req_u32 req →
  let '(c', b') := resendOne E c req b in
  (b = true → b' = true) ∧ (∃ L', rq_holds c'.(cn_rq) [] L' ∧ ∀ f, f ∈ L → request_of f ≠ req → f ∈ L') ∧
  ∃ D, dgs c' = dgs c ++ D ∧ ∀ f, f ∈ L → f.(p_queued) = true → request_of f = req → b' = true ∧ copy_of f ∈ D.
Proof using HE HX.
  intros Hw HL Hk [Hsid Hseq]. unfold resendOne.
  assert (∀ c', c'.(cn_rq) = c.(cn_rq) → dgs c' = dgs c → (∀ f, f ∈ L → f.(p_queued) = true → request_of f ≠ req) →
    (b = true → b = true) ∧ (∃ L', rq_holds c'.(cn_rq) [] L' ∧ ∀ f, f ∈ L → request_of f ≠ req → f ∈ L') ∧
    ∃ D, dgs c' = dgs c ++ D ∧ ∀ f, f ∈ L → f.(p_queued) = true → request_of f = req → b = true ∧ copy_of f ∈ D) as Hnone.
  { intros c' H1 H2 H3. split_and!; [done|exists L; by rewrite H1|]. exists []. rewrite app_nil_r. split; [done|]. intros f Hf Hq He. by destruct (H3 f Hf Hq). }
  destruct (peekForResend _ _) as [x|] eqn:Hpk; [|by apply Hnone; [..|exact (holds_peek _ _ L HL req Hsid Hseq Hpk)]].
  unfold conn_time. cbn [fst snd]. change (cn_rq (c <| cn_tick := S (cn_tick c) |>)) with (cn_rq c). set (now := ce_clock E (cn_tick c)).
  pose proof (holds_take _ _ L HL req now Hsid Hseq) as Htk. destruct (takeForResend (cn_rq c) req now) as [q [e|]].
  2:{ destruct Htk as [-> Hn]. by apply Hnone. }
  destruct Htk as (d & L' & f & Hd & HL' & _ & Hum & Hf & Hreq & Hkey). rewrite Hd.
  set (c1 := c <| cn_tick := _ |> <| cn_rq := q |>). change (cn_rq c1) with q.
  assert (kept_frame E (cn_log c) f) as [_ Hfit] by (rewrite Forall_forall in Hk; by apply Hk).
  unfold frame_key in Hkey. injection Hkey as K1 K2 K3 K4. rewrite K1, K4 in Hfit.
  match goal with |- context [queueCopies E ?n c1 e ?data b] => assert (0 < n)%nat as Hn by (destruct (_ >=? _); lia);
    pose proof (queueCopies_sends n c1 e data b Hw Hfit) as Hq; destruct (queueCopies E n c1 e data b) as [c2 b2] end.
  destruct Hq as (_ & Q2 & Q3 & D & Q4 & Q5). split_and!; [exact Q3| |].
  - exists L'. split; [|apply Hum]. cbn. apply holds_release. by apply Q2.
  - exists D. split; [exact Q4|]. intros g Hg _ Hr. destruct (Q5 Hn) as [-> Q6]. split; [done|].
    assert (g = f) as -> by (apply (keys_unique_eq L); [exact (holds_keys _ _ L HL)|done|done|congruence]). unfold copy_of. by rewrite K1, K2, K3, K4.
Qed.

(** the whole queue of requests *)
Lemma serviceLoop_sends fuel c b c' b' : ok c → serviceLoop E fuel c b = Some (c', b') →
  (b = true → b' = true) ∧ ∃ D, dgs c' = dgs c ++ D ∧
  ∀ L f, rq_holds c.(cn_rq) [] L → f ∈ L → f.(p_queued) = true → b' = true ∧ copy_of f ∈ D.
Proof using HE HX.
  revert c b. induction fuel as [|fuel IH]; intros c b Hc; [done|]. cbn [serviceLoop].
  pose proof (popResend_spec c (ti_head _ _ (ck_table _ _ Hc))) as Hp. destruct (popResend_ok E (Cl := no_claims) c Hc) as [Hc1 Hu].
  destruct (popResend c) as [c1 [r|]]; destruct Hp as (_ & Hrq & Hb & Hn); cbn [fst snd option_list] in *.
  - pose proof (ok_wired _ _ Hc1) as Hw1. destruct (ck_queue _ _ Hc1) as (L0 & HL0 & Hk0 & _).
    pose proof (resendOne_sends c1 r b L0 Hw1 HL0 Hk0 (Hu r eq_refl)) as Hr.
    pose proof (resendOne_ok E HE c1 r b Hc1 (Hu r eq_refl)) as Hc2. destruct (resendOne E c1 r b) as [c2 b2]. cbn [fst] in Hc2.
    destruct Hr as (R1 & (L2 & HL2 & R2) & D2 & R3 & R4). intros (H1 & D & H2 & H3)%IH; [|exact Hc2]. split; [auto|].
    assert (dgs c1 = dgs c) as Hd1 by (by rewrite Hrq). exists (D2 ++ D). rewrite H2, R3, Hd1, app_assoc. split; [done|].
    intros L f HL Hf Hq. assert (f ∈ L0) as Hf0. { eapply (holds_elem _ _ _ HL); [|done]. rewrite Hrq in HL0. exact HL0. }
    destruct (decide (p_streamID f = r.(req_streamID) ∧ p_seq f = r.(req_seq))) as [He|He].
    + destruct (R4 f Hf0 Hq) as [B1 B2]; [destruct r; unfold request_of; cbn in *; by destruct He as [-> ->]|]. split; [by apply H1|]. apply elem_of_app. by left.
    + destruct (H3 L2 f HL2) as [B1 B2]; [|done|].
      * apply R2; [done|]. intros Hx. apply He. by rewrite <- Hx.
      * split; [done|]. apply elem_of_app. by right.
  - intros [= <- <-]. split; [done|]. exists []. rewrite app_nil_r. split; [by rewrite Hrq|]. intros L f HL Hf Hq. exfalso.
    destruct (ck_queue _ _ Hc) as (L0 & HL0 & _ & [_ Hwt] & _). assert (f ∈ L0) as Hf0 by (by eapply (holds_elem _ _ _ HL)).
    specialize (Hwt f Hf0 Hq). rewrite Hb, (Hn eq_refl) in Hwt. by apply elem_of_nil in Hwt.
Qed.

(** a pass of the worker, with the flush at its end *)
Lemma service_sends c c' : ok c → conn_step E c KService = Some c' →
  ∃ D, dgs c' = dgs c ++ D ∧
  ∀ L f, rq_holds c.(cn_rq) [] L → f ∈ L → f.(p_queued) = true → copy_of f ∈ D ∧ ∃ s, c'.(cn_tx) = Some s ∧ s.(sendN) = 0.
Proof using HE HX.
  intros Hc. cbn [conn_step]. unfold serviceResends. destruct (serviceLoop _ _ _ _) as [[c1 b]|] eqn:Hl; [|done]. cbn [mbind option_bind]. intros [= <-].
  pose proof (serviceLoop_ok E HE _ _ _ _ _ Hc Hl) as Hc1. destruct (serviceLoop_sends _ _ _ _ _ Hc Hl) as (_ & D & H1 & H2).
  exists D. destruct b.
  - assert (op_fits X TxFlush) as Hfit by done. destruct (ok_wired _ _ Hc1) as (s & D0 & Hx & Hs).
    destruct (flushSendLocked_spec X (eo_tx _ HE) D0 s Hs) as (s' & r & F1 & [[Hs' _] F2]).
    assert (∃ q, tx_do' (SendBatch.flushSend X) c1 = c1 <| cn_tx := Some s' |> <| cn_rq := q |>) as [q ->].
    { unfold tx_do', tx_do, SendBatch.flushSend. rewrite Hx, F1. cbn [fst]. destruct (existsb _ _); [by eexists|exists (cn_rq c1)]. by destruct c1. }
    split; [|intros L f HL Hf Hq; split; [by eapply H2|by exists s']]. rewrite <- H1. unfold datagrams. cbn. rewrite Hx. by rewrite (proj2 Hs), (proj2 Hs').
  - split; [exact H1|]. intros L f HL Hf Hq. by destruct (H2 L f HL Hf Hq).
Qed.

(** ** The ticker *)
Lemma run_calls_kept sid c ks : rq_kept c (foldl (run_call E sid) c ks).
Proof.
  revert c. induction ks as [|k ks IH]; intros c; [by apply rq_kept_same|]. cbn [foldl]. eapply rq_kept_trans; [|apply IH].
  destruct k; cbn [run_call]; try apply tx_do_kept; by apply rq_kept_same.
Qed.
Lemma on_read_kept {A} c sid st (op : renv → rside → option (rside * A)) c' a : on_read E c sid st op = Some (c', a) → rq_kept c c'.
Proof.
  unfold on_read. destruct (op _ _) as [[s a']|]; [|done]. cbn [mbind option_bind]. intros [= <- _].
  eapply rq_kept_trans; [|apply run_calls_kept]. by apply rq_kept_same.
Qed.
Lemma tailNackScan_kept c c' : tailNackScan E c = Some c' → rq_kept c c'.
Proof.
  unfold tailNackScan, conn_time. cbn [fst snd]. set (c0 := c <| cn_tick := _ |>). intros H. apply (rq_kept_trans c c0); [by apply rq_kept_same|]. revert H.
  clearbody c0. generalize (ce_range_ids E (dom (cn_streams c0))) (ce_clock E (cn_tick c)). intros ids now. revert c0.
  induction ids as [|id ids IH]; intros c0; [intros [= <-]; by apply rq_kept_same|]. cbn [foldl].
  unfold tailNackStep at 2. cbn [mbind option_bind]. destruct (cn_streams c0 !! id) as [st|]; [|apply IH].
  destruct (on_read E c0 id st _) as [[c1 a]|] eqn:Ho; cbn [mbind option_bind].
  - intros H%IH. eapply rq_kept_trans; [by eapply on_read_kept|done].
  - intros Hx. exfalso. clear -Hx. induction ids; [done|]. auto.
Qed.
Lemma gcStreams_kept c L : ok c → rq_holds c.(cn_rq) [] L → rq_holds (gcStreams E c).(cn_rq) [] L.
Proof using HE.
  intros Hc HL. unfold gcStreams, conn_time. cbn.
  assert (Forall (λ id, ∀ f, f ∈ L → f.(p_streamID) ≠ id) (collectable E c)) as Hs.
  { apply Forall_forall. intros id (L0 & HL0 & Hn)%(collectable_settled E c id Hc) f Hf. apply Hn. by eapply (holds_elem _ _ _ HL). }
  revert Hs. generalize (collectable E c). intros ids. clear Hc. revert c HL. induction ids as [|id ids IH]; intros c HL Hs; [done|].
  apply Forall_cons in Hs as [H1 H2]. cbn [foldl]. apply IH; [|done]. pose proof (holds_purge _ _ L HL id (ce_range_entries E (entries (cn_rq c))) (eo_entries _ HE _)) as Hp.
  replace L with (filter (λ f, f.(p_streamID) ≠ id) L); [exact Hp|]. apply filter_all. done.
Qed.

Lemma tick_marks c c' L1 f L2 : ok c → rq_holds c.(cn_rq) [] (L1 ++ f :: L2) →
  Forall (λ g, currentRTO c.(cn_est) ≤ time_Sub (E.(ce_clock) c.(cn_tick)) g.(p_sentAt)) (L1 ++ [f]) → conn_step E c KTick = Some c' →
  ∃ L g, rq_holds c'.(cn_rq) [] L ∧ g ∈ L ∧ frame_key g = frame_key f ∧ g.(p_queued) = true.
Proof using HE.
  intros Hc HL Hold. cbn [conn_step]. unfold retransmitTick, conn_time. cbn [fst snd]. change (cn_rq (c <| cn_tick := S (cn_tick c) |>)) with (cn_rq c).
  set (c0 := c <| cn_tick := _ |>). change (cn_est c0) with (cn_est c).
  destruct (holds_due _ _ _ HL (currentRTO (cn_est c)) (ce_clock E (cn_tick c))) as (q & rs & L' & Hd & HL' & _ & _ & -> & Hrs). rewrite Hd. cbn [mbind option_bind].
  destruct (s_due_old _ _ _ _ L2 Hold) as (g & Hg & Hkey & Hq). set (L' := (s_due _ _ _).1) in *.
  set (c1 := enqueueResends (c0 <| cn_rq := q |>) rs). destruct (tailNackScan E c1) as [c2|] eqn:H2; [|done]. cbn [mbind option_bind]. intros [= <-].
  exists L', g. split_and!; try done. apply gcStreams_kept.
  - eapply (tailNackScan_ok E HE); [|exact H2]. apply enqueueResends_ok; [|done]. apply ok_queue; [unfold c0; ok_same Hc|].
    intros L0 HL0. destruct (holds_due _ _ L0 HL0 (currentRTO (cn_est c)) (ce_clock E (cn_tick c))) as (q0 & rs0 & L0' & Hd0 & H0 & H0' & H0'' & _).
    change (cn_rq c0) with (cn_rq c) in Hd0. rewrite Hd in Hd0. injection Hd0 as <- <-. by exists L0'.
  - apply (tailNackScan_kept _ _ H2). unfold c1, enqueueResends. by case_test.
Qed.
End worker.

(** C4: what is overdue is sent again.  In every state a connection can reach,
    as long as its socket takes what it is given: (1) a frame that has been
    pending for a retransmission timeout, as have those sent before it, is on
    the wire again, with the payload it was first sent with, after a pass of
    the ticker and one of the worker; (2) a frame that is marked for a resend,
    by the ticker or for a NACK, is never stranded: the next pass of the
    worker, whatever came in between, puts it on the wire.  Nothing of it is
    left waiting in the batch. *)
Theorem overdue_resent E c :
  env_ok E → willing E.(ce_tx) → reachable E c →
  (∀ L1 f L2, rq_holds c.(cn_rq) [] (L1 ++ f :: L2) →
     Forall (λ g, currentRTO c.(cn_est) ≤ time_Sub (E.(ce_clock) c.(cn_tick)) g.(p_sentAt)) (L1 ++ [f]) →
     ∃ c1 c2 s D, conn_step E c KTick = Some c1 ∧ conn_step E c1 KService = Some c2 ∧
       datagrams E c2 = datagrams E c1 ++ D ∧ copy_of E f ∈ D ∧ c2.(cn_tx) = Some s ∧ s.(sendN) = 0) ∧
  (∀ L f, rq_holds c.(cn_rq) [] L → f ∈ L → f.(p_queued) = true →
     ∃ c1 s D, conn_step E c KService = Some c1 ∧ datagrams E c1 = datagrams E c ++ D ∧ copy_of E f ∈ D ∧ c1.(cn_tx) = Some s ∧ s.(sendN) = 0).
Proof.
  intros HE HX Hr. assert (∀ c L f, conn_ok E c → rq_holds c.(cn_rq) [] L → f ∈ L → f.(p_queued) = true →
     ∃ c1 s D, conn_step E c KService = Some c1 ∧ datagrams E c1 = datagrams E c ++ D ∧ copy_of E f ∈ D ∧ c1.(cn_tx) = Some s ∧ s.(sendN) = 0) as Hsv.
  { clear c Hr. intros c L f Hc HL Hf Hq. destruct (conn_step_ok E HE c KService Hc I) as (c1 & H1 & _).
    destruct (service_sends E HE HX c c1 Hc H1) as (D & H2 & H3). destruct (H3 L f HL Hf Hq) as (H4 & s & H5 & H6). by exists c1, s, D. }
  pose proof (reachable_ok E HE c Hr) as Hc. split; [|intros L f; by apply Hsv]. intros L1 f L2 HL Hold.
  destruct (conn_step_ok E HE c KTick Hc I) as (c1 & H1 & Hc1). destruct (tick_marks E HE c c1 L1 f L2 Hc HL Hold H1) as (L & g & HL' & Hg & Hk & Hq).
  destruct (Hsv c1 L g Hc1 HL' Hg Hq) as (c2 & s & D & S1 & S2 & S3 & S4 & S5). exists c1, c2, s, D. split_and!; try done.
  unfold frame_key in Hk. injection Hk as K1 K2 K3 K4. unfold copy_of in *. by rewrite <- K1, <- K2, <- K3, <- K4.
Qed.

(** A client whose clock advances a second with every reading writes two bytes,
    and nothing is heard. *)
Definition slow_E : cenv :=
  let E := example_env (WithMaxDatagramSize 140 defaultConfig) true in
  mkCenv E.(ce_tx) true E.(ce_caps) (λ n, unixEpoch + Second * Z.of_nat n) E.(ce_range_acc) E.(ce_range_entries) E.(ce_range_ids).
Definition slow_frame : pframe := mkPframe frameData 1 0 [7; 8] (slow_E.(ce_clock) 1) 0 false.
Lemma slow_env_ok : env_ok slow_E.
Proof. split; [|done|done]. apply tx_setup_ok; [split; vm_compute; naive_solver|done|by intros _]. Qed.
Lemma slow_willing : willing slow_E.(ce_tx).
Proof. intros t. split_and!; vm_compute; reflexivity. Qed.

(** the pending frames, read off the queue's map *)
Definition entries_of (q : retransmitQueue) : list pframe := (λ kp, view q.(arena) (node q kp.2)) <$> map_to_list q.(entries).
Lemma holds_entries q loans L f : rq_holds q loans L → f ∈ L ↔ f ∈ entries_of q.
Proof.
  intros (l & Hi & <- & _). unfold RetransmitSpec.pending, entries_of. rewrite !list_elem_of_fmap. split.
  - intros (p & -> & Hp). exists (key_of (node q p), p). split; [done|]. apply elem_of_map_to_list. by apply (ri_entries _ _ _ Hi).
  - intros ([k p] & -> & Hp%elem_of_map_to_list). exists p. split; [done|]. by apply (ri_entries _ _ _ Hi) in Hp as [? _].
Qed.
Lemma overdue_resent_witness : ∃ c c1 c2 D, conn_run slow_E (newConnection slow_E) [KOpen; KWrite 1 [7; 8]] = Some c ∧
  conn_step slow_E c KTick = Some c1 ∧ conn_step slow_E c1 KService = Some c2 ∧ datagrams slow_E c2 = datagrams slow_E c1 ++ D ∧ copy_of slow_E slow_frame ∈ D.
Proof.
  destruct (run_check_spec slow_E [KOpen; KWrite 1 [7; 8]] (λ c, match entries_of c.(cn_rq) with
    | [mkPframe ft sid seq p t r b] => bool_decide ((ft, sid, seq, p, t, r, b) = (frameData, 1, 0, [7; 8], slow_E.(ce_clock) 1, 0, false)) &&
        bool_decide (currentRTO c.(cn_est) ≤ time_Sub (slow_E.(ce_clock) c.(cn_tick)) t)
    | _ => false end)) as (c & Hrun & Hr & HP); [vm_compute; reflexivity|].
  destruct (entries_of (cn_rq c)) as [|[ft sid seq p t r b] []] eqn:He; [discriminate HP| |discriminate HP]. apply andb_true_iff in HP as [H1%bool_decide_eq_true H2%bool_decide_eq_true].
  injection H1 as -> -> -> -> -> -> ->. fold slow_frame in He. destruct (ck_queue _ _ (reachable_ok slow_E slow_env_ok c Hr)) as (L & HL & _).
  assert (∀ f, f ∈ L ↔ f = slow_frame) as HLf by (intros f; rewrite (holds_entries _ _ _ f HL), He; apply list_elem_of_singleton).
  destruct (list_elem_of_split L slow_frame) as (L1 & L2 & HL12); [by apply HLf|]. rewrite HL12 in HL.
  destruct (overdue_resent slow_E c slow_env_ok slow_willing Hr) as [Ho _].
  destruct (Ho L1 slow_frame L2 HL) as (c1 & c2 & s & D & S1 & S2 & S3 & S4 & _).
  { apply Forall_forall. intros f Hf. assert (f = slow_frame) as ->; [|exact H2]. apply HLf. rewrite HL12.
    apply elem_of_app in Hf as [Hf|Hf%list_elem_of_singleton]; apply elem_of_app; [by left|right; rewrite Hf; by left]. }
  exists c, c1, c2, D. exact (conj Hrun (conj S1 (conj S2 (conj S3 S4)))).
Defined.
