(* ===== verification/Uring.v ===== *)
(** * The io_uring send ring ([uring.go])

    [sendRing] is the memory shared with the kernel, a submission and a
    completion queue with 32-bit counters that wrap and power-of-two masks,
    and the process's own bookkeeping ([outstanding], [firstErr]).

    - Addresses of [msghdr]s are integers; an SQE is the fields the code
      sets.
    - [flight] is the kernel's side: the operations it has accepted and not
      completed.  [taken] is a history variable: all it has accepted, in
      order.
    - The kernel acts at instants, counted by [instant]: each [io_uring_enter]
      and each load of the completion tail is one.  What it chooses there is
      the oracle [kernel]: the error of the call, how many submissions it
      takes, which operations it completes, with what result.  As documented
      (io_uring_enter(2)): a call that fails takes nothing; one that succeeds
      takes at least one of the submissions it was asked to, if there are
      any; a wait for a completion returns when there is one; a completion is
      posted only where the queue has room.
    - Loops carry fuel, [None] when it runs out.
    - Setting up and releasing the mappings is in [UringSetup];
      [newSendRing] is the ring that yields. *)
From S2P Require Import Prelude.

Definition ioringOpSendmsg : Z := 9.
Definition iosqeAsync : Z := 16.
(** [syscall.EINTR] *)
Definition EINTR : Z := 4.

Record ioUringSqe := mkSqe { opcode : Z; sqe_flags : Z; sqe_fd : Z; addr : Z; sqe_len : Z; sqe_userData : Z }.
Record ioUringCqe := mkCqe { cqe_userData : Z; res : Z }.

Record sendRing := mkRing {
  sqHead : Z; sqTail : Z; sqMask : Z; sqArray : list Z; sqes : list ioUringSqe;
  cqHead : Z; cqTail : Z; cqMask : Z; cqes : list ioUringCqe;
  outstanding : list Z;
  firstErr : Z;
  flight : list ioUringSqe;
  taken : list ioUringSqe;
  instant : nat;
}.
#[export] Instance eta_sendRing : Eta sendRing :=
  λ r, mkRing (sqHead r) (sqTail r) (sqMask r) (sqArray r) (sqes r) (cqHead r) (cqTail r) (cqMask r) (cqes r)
    (outstanding r) (firstErr r) (flight r) (taken r) (instant r).

(** what the kernel chooses at each instant *)
Record kernel := mkKernel {
  k_errno : nat → Z;
  k_take : nat → Z;
  k_done : nat → list (nat * Z);        (* operations it completes: place in [flight], result *)
}.

Definition zeroSqe : ioUringSqe := mkSqe 0 0 0 0 0 0.
Definition zeroCqe : ioUringCqe := mkCqe 0 0.

(** the ring [newSendRing] maps: the kernel rounds the sizes up to powers of
    two, [2 ^ a] submissions and [2 ^ b] completions *)
Definition newSendRing (a b : Z) : sendRing :=
  mkRing 0 0 (2 ^ a - 1) (replicate (Z.to_nat (2 ^ a)) 0) (replicate (Z.to_nat (2 ^ a)) zeroSqe)
    0 0 (2 ^ b - 1) (replicate (Z.to_nat (2 ^ b)) zeroCqe) [0; 0] 0 [] [] 0.

(** the cell of position [pos] of a queue *)
Definition cell (mask pos : Z) : nat := Z.to_nat (Z.land pos mask).

Section ring.
Context (K : kernel).
Implicit Types (r : sendRing).

(** ** The kernel *)

(** complete the operation at place [i] of [flight], if there is room *)
Definition k_complete r (d : nat * Z) : sendRing :=
  match r.(flight) !! d.1 with
  | Some op =>
      if u32 (r.(cqTail) - r.(cqHead)) <? Zlen r.(cqes) then
        r <| flight := delete d.1 r.(flight) |>
          <| cqes := <[cell r.(cqMask) r.(cqTail) := mkCqe op.(sqe_userData) d.2]> r.(cqes) |>
          <| cqTail := u32 (r.(cqTail) + 1) |>
      else r
  | None => r
  end.
Definition k_act r : sendRing :=
  let n := r.(instant) in foldl k_complete (r <| instant := S n |>) (K.(k_done) n).

(** the submission at position [pos] *)
Definition k_fetch r (pos : Z) : option ioUringSqe :=
  i ← r.(sqArray) !! cell r.(sqMask) pos; r.(sqes) !! Z.to_nat i.
Definition k_accept r (n : Z) : sendRing :=
  let ops := omap (λ i, k_fetch r (u32 (r.(sqHead) + i))) (seqZ 0 n) in
  r <| flight := r.(flight) ++ ops |> <| taken := r.(taken) ++ ops |>
    <| sqHead := u32 (r.(sqHead) + n) |>.

(** [io_uring_enter]; [minComplete > 0] waits *)
Definition enter r (toSubmit minComplete : Z) : sendRing * Z * Z :=
  let n := r.(instant) in
  if negb (K.(k_errno) n =? 0) then (k_act r, 0, K.(k_errno) n)
  else
    let avail := Z.min toSubmit (u32 (r.(sqTail) - r.(sqHead))) in
    let consumed := if avail <=? 0 then 0 else Z.max 1 (Z.min (K.(k_take) n) avail) in
    let r := k_act (k_accept r consumed) in
    let r := if (minComplete >? 0) && (u32 (r.(cqTail) - r.(cqHead)) =? 0) then k_complete r (0%nat, 0) else r in
    (r, consumed, 0).

(** ** The wrapper *)
Definition add_outstanding (g d : Z) (o : list Z) : list Z := alter (λ x, x + d) (Z.to_nat g) o.

(** one CQE: the position, and what [reap] does with it *)
Definition reapOne r (head : Z) : sendRing :=
  match r.(cqes) !! cell r.(cqMask) head with
  | Some cqe =>
      let r := if cqe.(cqe_userData) <? 2 then r <| outstanding := add_outstanding cqe.(cqe_userData) (-1) r.(outstanding) |> else r in
      if (cqe.(res) <? 0) && (r.(firstErr) =? 0) then r <| firstErr := - cqe.(res) |> else r
  | None => r
  end.
(** [for ; head != tail; head++], [tail - head] passes *)
Definition reap r : sendRing :=
  let head := r.(cqHead) in
  let r := k_act r in
  let tail := r.(cqTail) in
  let r := foldl (λ r i, reapOne r (u32 (head + i))) r (seqZ 0 (u32 (tail - head))) in
  r <| cqHead := tail |>.

(** write the SQEs for [hdrs] from position [tail] on *)
Fixpoint fillSqes r (tail sockFd : Z) (hdrs : list Z) (gen sqeFlags : Z) : sendRing :=
  match hdrs with
  | [] => r
  | h :: hdrs =>
      let idx := cell r.(sqMask) tail in
      let r := r <| sqes := <[idx := mkSqe ioringOpSendmsg sqeFlags sockFd h 1 gen]> r.(sqes) |>
                 <| sqArray := <[idx := Z.of_nat idx]> r.(sqArray) |> in
      fillSqes r (u32 (tail + 1)) sockFd hdrs gen sqeFlags
  end.

Fixpoint enterAll (fuel : nat) r (toSubmit : Z) : option (sendRing * Z) :=
  match fuel with
  | O => None
  | S fuel =>
      if toSubmit >? 0 then
        let '(r, consumed, errno) := enter r toSubmit 0 in
        if negb (errno =? 0) then if errno =? EINTR then enterAll fuel r toSubmit else Some (r, errno)
        else enterAll fuel r (toSubmit - consumed)
      else Some (r, 0)
  end.

Fixpoint submitSendmsg (fuel : nat) r (sockFd : Z) (hdrs : list Z) (gen sqeFlags : Z) : option (sendRing * Z) :=
  match fuel with
  | O => None
  | S fuel =>
      if Zlen hdrs >? 0 then
        let tail := r.(sqTail) in
        let head := r.(sqHead) in
        let free := Zlen r.(sqes) - u32 (tail - head) in
        let n := Zlen hdrs in
        let n := if n >? free then free else n in
        if n =? 0 then
          let '(r, _, errno) := enter r 0 1 in
          if negb (errno =? 0) && negb (errno =? EINTR) then Some (r, errno)
          else submitSendmsg fuel (reap r) sockFd hdrs gen sqeFlags
        else
          let r := fillSqes r tail sockFd (slice hdrs 0 n) gen sqeFlags in
          let r := r <| sqTail := u32 (tail + n) |> in
          '(r, errno) ← enterAll fuel r n;
          if negb (errno =? 0) then Some (r, errno)
          else
            let r := r <| outstanding := add_outstanding gen n r.(outstanding) |> in
            submitSendmsg fuel r sockFd (slice hdrs n (Zlen hdrs)) gen sqeFlags
      else Some (r, 0)
  end.

Fixpoint waitGen (fuel : nat) r (gen : Z) : option (sendRing * Z) :=
  match fuel with
  | O => None
  | S fuel =>
      let r := reap r in
      if default 0 (r.(outstanding) !! Z.to_nat gen) <=? 0 then Some (r, 0)
      else
        let '(r, _, errno) := enter r 0 1 in
        if negb (errno =? 0) && negb (errno =? EINTR) then Some (r, errno) else waitGen fuel r gen
  end.

Definition collectErr r : sendRing * Z := (r <| firstErr := 0 |>, r.(firstErr)).

(** [close], up to the release of the mappings *)
Definition ring_close (fuel : nat) r : option sendRing :=
  '(r, _) ← waitGen fuel r 0; '(r, _) ← waitGen fuel r 1; Some r.
End ring.
