(* ===== verification/UringRing.v ===== *)
(** * The accounting of the io_uring send ring

    The queues are windows of power-of-two arrays, addressed by counters that
    wrap at 32 bits.  [outstanding] counts, for each generation, exactly the
    operations the kernel has accepted and the process has not reaped, as
    long as every submission succeeded. *)
From S2P Require Import Prelude Uring.

(** ** Counters *)
Lemma u32_count_push t h n : is_u32 h → 0 ≤ n → u32 (t - h) + n < 2 ^ 32 → u32 (u32 (t + n) - h) = u32 (t - h) + n.
Proof. unfold u32, is_u32. intros Hh Hn Hc. Z.to_euclidean_division_equations. lia. Qed.
Lemma u32_count_pop t h n : 0 ≤ n ≤ u32 (t - h) → u32 (t - u32 (h + n)) = u32 (t - h) - n.
Proof. unfold u32. intros Hn. Z.to_euclidean_division_equations. lia. Qed.
Lemma u32_tail t h : is_u32 t → u32 (h + u32 (t - h)) = t.
Proof. unfold u32, is_u32. intros Ht. Z.to_euclidean_division_equations. lia. Qed.
Lemma u32_add_add h i j : u32 (u32 (h + i) + j) = u32 (h + (i + j)).
Proof. unfold u32. Z.to_euclidean_division_equations. lia. Qed.
Lemma u32_is x : is_u32 (u32 x).
Proof. apply u32_range. Qed.

(** ** Cells *)
Section cells.
Context (k : Z) (Hk : 0 ≤ k ≤ 31).

Lemma cell_mod x : cell (2 ^ k - 1) (u32 x) = Z.to_nat (x mod 2 ^ k).
Proof using Hk.
  unfold cell, u32. replace (2 ^ k - 1) with (Z.ones k) by (rewrite Z.ones_equiv; lia).
  rewrite Z.land_ones by lia. f_equal. replace (2 ^ 32) with (2 ^ k * 2 ^ (32 - k)) by (rewrite <- Z.pow_add_r by lia; f_equal; lia).
  apply Z.mod_mod_divide. exists (2 ^ (32 - k)). lia.
Qed.
Lemma cell_lt x : (cell (2 ^ k - 1) (u32 x) < Z.to_nat (2 ^ k))%nat.
Proof using Hk. rewrite cell_mod. pose proof (Z.mod_pos_bound x (2 ^ k) ltac:(apply Z.pow_pos_nonneg; lia)). lia. Qed.
Lemma cell_ne h i j : 0 ≤ i < j → j - i < 2 ^ k → cell (2 ^ k - 1) (u32 (h + i)) ≠ cell (2 ^ k - 1) (u32 (h + j)).
Proof using Hk.
  intros Hi Hj. rewrite !cell_mod. assert (0 < 2 ^ k) as H0 by (apply Z.pow_pos_nonneg; lia). intros Heq%Z2Nat.inj; try (apply Z.mod_pos_bound; lia).
  generalize dependent (2 ^ k). intros s Hj Hs Heq.
  assert (((h + j) - (h + i)) mod s = 0) as H0 by (rewrite Zminus_mod, Heq, Z.sub_diag; apply Z.mod_0_l; lia).
  rewrite Z.mod_small in H0 by lia. lia.
Qed.
End cells.

(** ** Windows *)
Definition window {A} (get : nat → option A) (mask h n : Z) : list A :=
  omap (λ i, get (cell mask (u32 (h + i)))) (seqZ 0 n).

Lemma omap_ext_in {A B} (f g : A → option B) (l : list A) : (∀ x, x ∈ l → f x = g x) → omap f l = omap g l.
Proof. induction l as [|x l IH]; intros H; [done|]. cbn. rewrite H by set_solver. rewrite IH; [done|]. set_solver. Qed.
Lemma omap_fmap {A B C} (f : B → option C) (g : A → B) (l : list A) : omap f (g <$> l) = omap (f ∘ g) l.
Proof. induction l as [|x l IH]; [done|]. cbn. by rewrite IH. Qed.

Section windows.
Context {A : Type}.
Implicit Types (get : nat → option A).

Lemma window_ext get get' mask h n : (∀ i, 0 ≤ i < n → get' (cell mask (u32 (h + i))) = get (cell mask (u32 (h + i)))) →
  window get' mask h n = window get mask h n.
Proof. intros H. apply omap_ext_in. intros i Hi%elem_of_seqZ. apply H. lia. Qed.
Lemma window_0 get mask h n : n ≤ 0 → window get mask h n = [].
Proof. intros Hn. unfold window. by rewrite seqZ_nil. Qed.
Lemma window_app get mask h n m : 0 ≤ n → 0 ≤ m → window get mask h (n + m) = window get mask h n ++ window get mask (u32 (h + n)) m.
Proof.
  intros Hn Hm. unfold window. rewrite seqZ_app, omap_app by done. f_equal.
  rewrite Z.add_0_l. replace n with (Z.add n 0) at 1 by lia. rewrite <- fmap_add_seqZ, omap_fmap. apply omap_ext_in.
  intros i _. cbn. by rewrite u32_add_add.
Qed.
Lemma window_1 get mask h x : get (cell mask (u32 h)) = Some x → window get mask h 1 = [x].
Proof. intros H. unfold window. change (seqZ 0 1) with [0]. cbn. by rewrite Z.add_0_r, H. Qed.
Lemma window_push get get' mask h n x : 0 ≤ n →
  (∀ i, 0 ≤ i < n → get' (cell mask (u32 (h + i))) = get (cell mask (u32 (h + i)))) →
  get' (cell mask (u32 (h + n))) = Some x → window get' mask h (n + 1) = window get mask h n ++ [x].
Proof.
  intros Hn He Hx. rewrite window_app by lia. rewrite (window_ext get get') by done. f_equal. apply window_1.
  by rewrite <- (Z.add_0_r (u32 (h + n))), u32_add_add, Z.add_0_r.
Qed.
End windows.

(** ** The invariant *)
Implicit Types (r : sendRing) (g : Z).

Definition sq_len r : Z := u32 (r.(sqTail) - r.(sqHead)).
Definition cq_len r : Z := u32 (r.(cqTail) - r.(cqHead)).
(** the submissions the kernel has not taken, the completions not reaped *)
Definition sq_list r : list ioUringSqe := omap (λ i, k_fetch r (u32 (r.(sqHead) + i))) (seqZ 0 (sq_len r)).
Definition cq_list r : list ioUringCqe := window (λ i, r.(cqes) !! i) r.(cqMask) r.(cqHead) (cq_len r).

Definition count_sqe g (l : list ioUringSqe) : Z := Zlen (filter (λ x, x.(sqe_userData) = g) l).
Definition count_cqe g (l : list ioUringCqe) : Z := Zlen (filter (λ x, x.(cqe_userData) = g) l).
(** the operations of generation [g] the kernel has accepted and the process
    has not reaped *)
Definition unreaped g r : Z := count_sqe g r.(flight) + count_cqe g (cq_list r).

Record ring_ok r : Prop := mkRingOk {
  rk_sq : ∃ a, 0 ≤ a ≤ 31 ∧ r.(sqMask) = 2 ^ a - 1 ∧ length r.(sqes) = Z.to_nat (2 ^ a) ∧ length r.(sqArray) = Z.to_nat (2 ^ a);
  rk_cq : ∃ b, 0 ≤ b ≤ 31 ∧ r.(cqMask) = 2 ^ b - 1 ∧ length r.(cqes) = Z.to_nat (2 ^ b);
  rk_u32 : is_u32 r.(sqHead) ∧ is_u32 r.(sqTail) ∧ is_u32 r.(cqHead) ∧ is_u32 r.(cqTail);
  rk_sqn : sq_len r ≤ Zlen r.(sqes);
  rk_cqn : cq_len r ≤ Zlen r.(cqes);
  rk_ident : ∀ i, 0 ≤ i < sq_len r → r.(sqArray) !! cell r.(sqMask) (u32 (r.(sqHead) + i)) = Some (Z.of_nat (cell r.(sqMask) (u32 (r.(sqHead) + i))));
  rk_out : length r.(outstanding) = 2%nat;
  rk_gens : Forall (λ x, 0 ≤ x.(sqe_userData) < 2) (r.(flight) ++ sq_list r) ∧ Forall (λ x, 0 ≤ x.(cqe_userData) < 2) (cq_list r);
}.

Lemma count_sqe_app g l1 l2 : count_sqe g (l1 ++ l2) = count_sqe g l1 + count_sqe g l2.
Proof. unfold count_sqe. by rewrite filter_app, Zlen_app. Qed.
Lemma count_cqe_app g l1 l2 : count_cqe g (l1 ++ l2) = count_cqe g l1 + count_cqe g l2.
Proof. unfold count_cqe. by rewrite filter_app, Zlen_app. Qed.
Lemma count_cqe_one g x : count_cqe g [x] = if decide (x.(cqe_userData) = g) then 1 else 0.
Proof. unfold count_cqe. rewrite filter_cons. by destruct (decide _). Qed.
Lemma count_sqe_delete g l i x : l !! i = Some x → count_sqe g l = (if decide (x.(sqe_userData) = g) then 1 else 0) + count_sqe g (delete i l).
Proof.
  intros Hl. rewrite (delete_take_drop l i), <- (take_drop_middle l i x Hl) at 1. rewrite !count_sqe_app.
  unfold count_sqe at 2. rewrite filter_cons. destruct (decide _); [rewrite Zlen_cons|]; fold (count_sqe g (drop (S i) l)); unfold count_sqe; lia.
Qed.
Lemma count_sqe_nonneg g l : 0 ≤ count_sqe g l.
Proof. apply Zlen_nonneg. Qed.
Lemma count_cqe_nonneg g l : 0 ≤ count_cqe g l.
Proof. apply Zlen_nonneg. Qed.

(** ** The kernel *)

(** what the kernel's own steps leave alone *)
Definition k_frame r r' : Prop :=
  r'.(sqTail) = r.(sqTail) ∧ r'.(sqMask) = r.(sqMask) ∧ r'.(sqArray) = r.(sqArray) ∧ r'.(sqes) = r.(sqes) ∧
  r'.(cqHead) = r.(cqHead) ∧ r'.(cqMask) = r.(cqMask) ∧ r'.(outstanding) = r.(outstanding) ∧ r'.(firstErr) = r.(firstErr).
(** completing operations *)
Definition completes r r' : Prop :=
  k_frame r r' ∧ r'.(sqHead) = r.(sqHead) ∧ r'.(taken) = r.(taken) ∧ (∀ g, unreaped g r' = unreaped g r) ∧
  (length r'.(flight) ≤ length r.(flight))%nat ∧ (r.(instant) ≤ r'.(instant))%nat ∧
  (length r'.(flight) = length r.(flight) → cq_len r' = cq_len r).
#[export] Instance completes_preorder : PreOrder completes.
Proof.
  split.
  - intros r. unfold completes, k_frame. naive_solver.
  - intros r1 r2 r3 (F1 & A1 & B1 & C1 & D1 & I1 & L1) (F2 & A2 & B2 & C2 & D2 & I2 & L2). unfold completes, k_frame in *.
    split_and!; try (by destruct_and!; congruence); lia.
Qed.

Lemma sq_frame r r' : k_frame r r' → r'.(sqHead) = r.(sqHead) → sq_len r' = sq_len r ∧ sq_list r' = sq_list r.
Proof.
  intros (H1 & H2 & H3 & H4 & _) H. unfold sq_list, sq_len. rewrite H1, H. split; [done|]. apply omap_ext_in.
  intros i _. unfold k_fetch. by rewrite H2, H3, H4.
Qed.

Lemma k_complete_spec r d : ring_ok r → ring_ok (k_complete r d) ∧ completes r (k_complete r d).
Proof.
  intros Hr. unfold k_complete. destruct (flight r !! d.1) as [op|] eqn:Hop; [|split; [done|reflexivity]].
  destruct (decide (u32 (cqTail r - cqHead r) < Zlen (cqes r))) as [Hroom|Hroom];
    [rewrite bool_decide_true by done|rewrite bool_decide_false by done; split; [done|reflexivity]].
  fold (cq_len r) in Hroom. destruct Hr as [(a & Ha & R1) (b & Hb & Hm & Hlen) (U1 & U2 & U3 & U4) R4 R5 R6 R7 [G1 G2]].
  assert (0 ≤ cq_len r) as H0 by apply u32_range. assert (2 ^ b ≤ 2 ^ 31) as Hb31 by (apply Z.pow_le_mono_r; lia).
  assert (Zlen (cqes r) = 2 ^ b) as HZ by (unfold Zlen; rewrite Hlen; apply Z2Nat.id, Z.pow_nonneg; lia).
  set (r' := r <| flight := _ |> <| cqes := _ |> <| cqTail := _ |>).
  assert (cq_len r' = cq_len r + 1) as Hl'.
  { unfold cq_len, r'. cbn. apply u32_count_push; [done|lia|]. fold (cq_len r). lia. }
  assert (cqTail r = u32 (cqHead r + cq_len r)) as Ht by (symmetry; by apply u32_tail).
  assert (cq_list r' = cq_list r ++ [mkCqe op.(sqe_userData) d.2]) as Hc'.
  { unfold cq_list. rewrite Hl'. unfold r'. cbn. rewrite Hm. apply window_push; [lia| |].
    - intros i Hi. rewrite list_lookup_insert_ne; [done|]. rewrite Ht. apply not_eq_sym, cell_ne; lia.
    - rewrite Ht, list_lookup_insert_eq; [done|]. rewrite Hlen. by apply cell_lt. }
  assert (sq_list r' = sq_list r) as Hs' by (apply sq_frame; done).
  split.
  - split; try done.
    + by exists a.
    + exists b. unfold r'. cbn. by rewrite length_insert.
    + unfold r'. cbn. split_and!; try done; apply u32_range.
    + rewrite Hl'. unfold r'. cbn. unfold Zlen in *. rewrite length_insert. lia.
    + rewrite Hc', Hs'. apply Forall_app in G1 as [G1 G3]. split; apply Forall_app.
      * split; [|done]. unfold r'. cbn. by apply Forall_delete.
      * split; [done|]. apply Forall_cons_2; [|constructor]. cbn. rewrite Forall_lookup in G1. by eapply G1.
  - split_and!; try done.
    + intros g. unfold unreaped. rewrite Hc', count_cqe_app. unfold r'. cbn. rewrite (count_sqe_delete g (flight r) _ _ Hop).
      rewrite count_cqe_one. cbn. lia.
    + unfold r'. cbn. apply lookup_lt_Some in Hop as Hlt. rewrite length_delete by done. lia.
    + unfold r'. cbn. apply lookup_lt_Some in Hop as Hlt. rewrite length_delete by done. lia.
Qed.

Section kernel.
Context (K : kernel).
Lemma k_act_spec r : ring_ok r → ring_ok (k_act K r) ∧ completes r (k_act K r) ∧ (r.(instant) < (k_act K r).(instant))%nat.
Proof.
  intros Hr. unfold k_act. set (r1 := r <| instant := _ |>).
  assert (ring_ok r1) as H1 by (destruct Hr; by split).
  assert (completes r r1) as Hc by (unfold completes, k_frame; cbn; naive_solver lia).
  assert (r.(instant) < r1.(instant))%nat as Hlt by (cbn; lia). clearbody r1.
  assert (∀ ds r1, ring_ok r1 → ring_ok (foldl k_complete r1 ds) ∧ completes r1 (foldl k_complete r1 ds)) as Hf.
  { induction ds as [|d ds IH]; intros x Hx; cbn; [split; [done|reflexivity]|]. destruct (k_complete_spec x d Hx) as [Hx1 Hx2].
    destruct (IH _ Hx1) as [H2 H3]. split; [done|]. by etrans. }
  destruct (Hf (k_done K (instant r)) r1 H1) as [H2 H3]. split_and!; [done|by etrans|].
  destruct H3 as (_ & _ & _ & _ & _ & H3 & _). lia.
Qed.

(** taking submissions *)
Definition sq_get r (c : nat) : option ioUringSqe := i ← r.(sqArray) !! c; r.(sqes) !! Z.to_nat i.
Lemma sq_list_window r : sq_list r = window (sq_get r) r.(sqMask) r.(sqHead) (sq_len r).
Proof. done. Qed.

Definition fetched r n : list ioUringSqe := omap (λ i, k_fetch r (u32 (r.(sqHead) + i))) (seqZ 0 n).

Lemma k_accept_spec r n : ring_ok r → 0 ≤ n ≤ sq_len r →
  let r' := k_accept r n in
  ring_ok r' ∧ k_frame r r' ∧ sq_list r = fetched r n ++ sq_list r' ∧ sq_len r' = sq_len r - n ∧
  r'.(flight) = r.(flight) ++ fetched r n ∧ r'.(taken) = r.(taken) ++ fetched r n ∧ cq_list r' = cq_list r ∧ cq_len r' = cq_len r ∧
  r'.(instant) = r.(instant).
Proof.
  intros [R1 R2 (U1 & U2 & U3 & U4) R4 R5 R6 R7 [G1 G2]] Hn r'. assert (sq_len r' = sq_len r - n) as Hl by (unfold sq_len; apply u32_count_pop; done).
  assert (sq_list r = fetched r n ++ sq_list r') as Hs.
  { rewrite sq_list_window. replace (sq_len r) with (n + sq_len r') by lia. rewrite window_app by lia. done. }
  split_and!; try done. split; try done.
  - unfold r'. cbn. split_and!; try done. apply u32_range.
  - rewrite Hl. cbn. lia.
  - intros i Hi. unfold r'. cbn. rewrite u32_add_add. apply R6. lia.
  - split; [|done]. rewrite Hs, app_assoc in G1. exact G1.
Qed.

(** [io_uring_enter] *)
Record enter_ok r (t m : Z) r' (consumed e : Z) : Prop := mkEnterOk {
  eo_ok : ring_ok r';
  eo_now : (r.(instant) < r'.(instant))%nat;
  eo_err : e ≠ 0 → completes r r';
  eo_errno : e ≠ 0 → e = k_errno K r.(instant);
  eo_range : e = 0 → 0 ≤ consumed ≤ Z.max 0 t ∧ consumed ≤ sq_len r ∧ (0 < t → 0 < sq_len r → 0 < consumed);
  eo_done : e = 0 → completes (k_accept r consumed) r';
  eo_wait : e = 0 → 0 < m → cq_len r = 0 → r.(flight) ≠ [] → (length r'.(flight) < length (k_accept r consumed).(flight))%nat;
}.
Lemma enter_spec r t m : ring_ok r → let '(r', consumed, e) := enter K r t m in enter_ok r t m r' consumed e.
Proof.
  intros Hr. unfold enter. destruct (decide (k_errno K (instant r) = 0)) as [He|He].
  2:{ rewrite bool_decide_false by done. cbn [negb]. destruct (k_act_spec r Hr) as (H1 & H2 & H3). by split. }
  rewrite bool_decide_true by done. cbn [negb]. set (avail := Z.min t _). fold (sq_len r) in avail.
  assert (0 ≤ sq_len r) as H0 by apply u32_range.
  set (n := if bool_decide (avail ≤ 0) then 0 else _).
  assert (0 ≤ n ≤ Z.max 0 t ∧ n ≤ sq_len r ∧ (0 < t → 0 < sq_len r → 0 < n)) as (N1 & N2 & N3).
  { unfold n. destruct (decide (avail ≤ 0)); [rewrite bool_decide_true by done|rewrite bool_decide_false by done]; split_and!; lia. }
  clearbody n avail. destruct (k_accept_spec r n Hr ltac:(lia)) as (A1 & A2 & _ & _ & A3 & _ & _ & A4 & A5).
  destruct (k_act_spec (k_accept r n) A1) as (B1 & B2 & B3). set (r1 := k_act K (k_accept r n)) in *.
  destruct (_ && _) eqn:Hw.
  - apply andb_true_iff in Hw as [_ Hw%bool_decide_eq_true]. fold (cq_len r1) in Hw. destruct (k_complete_spec r1 (0%nat, 0) B1) as [C1 C2].
    split; try done.
    + destruct C2 as (_ & _ & _ & _ & _ & C2 & _). lia.
    + intros _. by etrans.
    + intros _ _ Hc Hf. destruct B2 as (_ & _ & _ & _ & B2 & _).
      assert (0 < length (flight (k_accept r n)))%nat as HF by (rewrite A3, length_app; destruct (flight r); [done|cbn; lia]).
      generalize dependent (length (flight (k_accept r n))). intros L HF B2. unfold k_complete. cbn [fst].
      destruct (flight r1) as [|op l] eqn:Hfl; [cbn; by rewrite Hfl|].
      rewrite bool_decide_true; [cbn in *; lia|]. fold (cq_len r1). rewrite Hw.
      destruct (rk_cq _ B1) as (b & Hb & _ & Hlen). unfold Zlen. rewrite Hlen. pose proof (Z.pow_pos_nonneg 2 b ltac:(lia) ltac:(lia)). lia.
  - split; try done. intros _ Hm Hc Hf. destruct B2 as (_ & _ & _ & _ & B2 & _ & B4).
    destruct (decide (length (flight r1) = length (flight (k_accept r n)))) as [Heq|]; [|lia].
    rewrite A4, Hc in B4. specialize (B4 Heq). apply andb_false_iff in Hw as [Hw%bool_decide_eq_false|Hw%bool_decide_eq_false]; [lia|].
    by fold (cq_len r1) in Hw.
Qed.

(** a call that only waits *)
Lemma k_accept_0 r : ring_ok r → completes r (k_accept r 0).
Proof.
  intros Hr. destruct (rk_u32 _ Hr) as (U1 & _). unfold completes, k_frame, unreaped, k_accept, cq_list, cq_len. cbn.
  rewrite !app_nil_r, Z.add_0_r. split_and!; try done. by apply u32_id.
Qed.
Lemma enter_wait_spec r : ring_ok r → let '(r', _, e) := enter K r 0 1 in
  ring_ok r' ∧ completes r r' ∧ (r.(instant) < r'.(instant))%nat ∧ (e ≠ 0 → e = k_errno K r.(instant)) ∧
  (e = 0 → cq_len r = 0 → r.(flight) ≠ [] → (length r'.(flight) < length r.(flight))%nat).
Proof.
  intros Hr. pose proof (enter_spec r 0 1 Hr) as Hs. destruct (enter K r 0 1) as [[r' n] e]. destruct Hs as [E1 E2 E3 E6 E4 E5 E7].
  destruct (decide (e = 0)) as [->|He]; [|split_and!; [done|by apply E3|done|done|done]].
  destruct (E4 eq_refl) as (N1 & N2 & _). assert (n = 0) as -> by lia. pose proof (k_accept_0 r Hr) as H0.
  split_and!; [done|etrans; [exact H0|by apply E5]|done|done|]. intros _ Hc Hf. specialize (E7 eq_refl ltac:(lia) Hc Hf).
  destruct H0 as (_ & _ & _ & _ & H0 & _). lia.
Qed.
End kernel.
