(* ===== verification/UringRun.v ===== *)
(** * Runs of the io_uring send ring

    Submitting and waiting, what they guarantee when they succeed, that they
    come to an end, and what a failed submission leaves behind. *)
From S2P Require Import Prelude Uring UringRing.

Implicit Types (r : sendRing) (g : Z).

(** the counters are exact *)
Definition accounted r : Prop := ∀ g, 0 ≤ g < 2 → r.(outstanding) !! Z.to_nat g = Some (unreaped g r).
Definition idle r : Prop := sq_len r = 0.

Section ring.
Context (K : kernel).

(** ** Reaping *)
Definition reapCqe r (c : ioUringCqe) : sendRing :=
  let r := if c.(cqe_userData) <? 2 then r <| outstanding := add_outstanding c.(cqe_userData) (-1) r.(outstanding) |> else r in
  if (c.(res) <? 0) && (r.(firstErr) =? 0) then r <| firstErr := - c.(res) |> else r.

(** only the process's own counters change *)
Definition counts_only r r' : Prop := r' = r <| outstanding := r'.(outstanding) |> <| firstErr := r'.(firstErr) |>.
Lemma reapCqe_counts r c : counts_only r (reapCqe r c).
Proof. unfold counts_only, reapCqe. by destruct (bool_decide (cqe_userData c < 2)), (_ && _), r. Qed.

Lemma reap_fold (h n : Z) r : ring_ok r → 0 ≤ n → n ≤ Zlen r.(cqes) →
  foldl (λ r i, reapOne r (u32 (h + i))) r (seqZ 0 n) = foldl reapCqe r (window (λ i, r.(cqes) !! i) r.(cqMask) h n).
Proof.
  intros Hr Hn _. destruct (rk_cq _ Hr) as (b & Hb & Hm & Hlen). clear Hr. unfold window.
  generalize (seqZ 0 n). clear n Hn. intros l. revert r Hm Hlen. induction l as [|i l IH]; intros r Hm Hlen; [done|]. cbn [foldl omap list_omap].
  assert (is_Some (cqes r !! cell (cqMask r) (u32 (h + i)))) as [c Hc].
  { apply lookup_lt_is_Some. rewrite Hlen, Hm. by apply cell_lt. }
  rewrite Hc. cbn [foldl]. assert (reapOne r (u32 (h + i)) = reapCqe r c) as -> by (unfold reapOne; by rewrite Hc).
  pose proof (reapCqe_counts r c) as Hk. set (r1 := reapCqe r c) in *. assert (cqes r1 = cqes r ∧ cqMask r1 = cqMask r) as [H1 H2] by (by rewrite Hk).
  rewrite IH by (rewrite ?H1, ?H2; done). by rewrite H1, H2.
Qed.

Lemma reapCqes_spec cs r : length r.(outstanding) = 2%nat → Forall (λ x, 0 ≤ x.(cqe_userData) < 2) cs →
  let r' := foldl reapCqe r cs in
  counts_only r r' ∧ length r'.(outstanding) = 2%nat ∧
  ∀ g x, 0 ≤ g < 2 → r.(outstanding) !! Z.to_nat g = Some x → r'.(outstanding) !! Z.to_nat g = Some (x - count_cqe g cs).
Proof.
  intros Hl Hcs. revert r Hl. induction Hcs as [|c cs Hc _ IH]; intros r Hl r'.
  { split_and!; [by destruct r|done|]. intros g x _ Hx. cbn. by rewrite Hx, Z.sub_0_r. }
  pose proof (reapCqe_counts r c) as Hk. cbn [foldl] in r'. set (r1 := reapCqe r c) in *.
  assert (outstanding r1 = add_outstanding (cqe_userData c) (-1) (outstanding r)) as Ho.
  { unfold r1, reapCqe. rewrite (bool_decide_true (cqe_userData c < 2)) by lia. by destruct (_ && _). }
  assert (length (outstanding r1) = 2%nat) as Hl1 by (rewrite Ho; unfold add_outstanding; by rewrite length_alter).
  destruct (IH r1 Hl1) as (I1 & I2 & I3). fold r' in I1, I2, I3. clearbody r1 r'. split_and!; [|done|].
  - unfold counts_only in *. rewrite I1, Hk. done.
  - intros g x Hg Hx. assert (count_cqe g (c :: cs) = count_cqe g [c] + count_cqe g cs) as Hcc by apply (count_cqe_app g [c] cs). rewrite Hcc, count_cqe_one.
    rewrite (I3 g (x - if decide (cqe_userData c = g) then 1 else 0) Hg); [f_equal; lia|]. rewrite Ho. unfold add_outstanding.
    destruct (decide (cqe_userData c = g)) as [->|Hne].
    + rewrite list_lookup_alter_eq, Hx. done.
    + rewrite list_lookup_alter_ne by lia. rewrite Hx. f_equal. lia.
Qed.

(** what waiting keeps *)
Definition waits r r' : Prop :=
  r'.(sqHead) = r.(sqHead) ∧ r'.(sqTail) = r.(sqTail) ∧ r'.(taken) = r.(taken) ∧ (length r'.(flight) ≤ length r.(flight))%nat ∧
  (r.(instant) ≤ r'.(instant))%nat.
#[local] Instance waits_preorder : PreOrder waits.
Proof. split; [intros r; unfold waits; naive_solver lia|]. unfold waits. intros r1 r2 r3. naive_solver (congruence || lia). Qed.
Lemma completes_waits r r' : completes r r' → waits r r'.
Proof. intros ((H1 & _) & H2 & H3 & _ & H4 & H5 & _). done. Qed.
Lemma completes_accounted r r' : completes r r' → accounted r → accounted r'.
Proof. intros ((_ & _ & _ & _ & _ & _ & Ho & _) & _ & _ & Hu & _) Ha g Hg. rewrite Ho, Hu. by apply Ha. Qed.
Lemma waits_idle r r' : waits r r' → idle r → idle r'.
Proof. intros (H1 & H2 & _). unfold idle, sq_len. by rewrite H1, H2. Qed.

Lemma reap_spec r : ring_ok r →
  let r' := reap K r in
  ring_ok r' ∧ cq_len r' = 0 ∧ waits r r' ∧ (r.(instant) < r'.(instant))%nat ∧ (accounted r → accounted r').
Proof.
  intros Hr r'. destruct (k_act_spec K r Hr) as (A1 & A2 & A3).
  assert (r' = foldl reapCqe (k_act K r) (cq_list (k_act K r)) <| cqHead := cqTail (k_act K r) |>) as Heq.
  { unfold r', reap. cbv zeta. assert (cqHead (k_act K r) = cqHead r) as <- by apply A2. rewrite reap_fold; [done|done|apply u32_range|apply (rk_cqn _ A1)]. }
  clearbody r'. subst r'. set (r1 := k_act K r) in *.
  destruct (reapCqes_spec (cq_list r1) r1 (rk_out _ A1) (proj2 (rk_gens _ A1))) as (R1 & R2 & R3).
  set (r2 := foldl reapCqe r1 (cq_list r1)) in *. clearbody r2. set (r' := r2 <| cqHead := cqTail r1 |>).
  assert (cqTail r2 = cqTail r1) as Ht by (by rewrite R1). assert (flight r2 = flight r1) as Hf by (by rewrite R1).
  assert (cq_len r' = 0) as Hc by (unfold cq_len, r'; cbn; rewrite Ht, Z.sub_diag; done).
  assert (cq_list r' = []) as Hcl by (unfold cq_list; rewrite Hc; by apply window_0).
  assert (sq_list r' = sq_list r1) as Hsl by (unfold r'; rewrite R1; done).
  assert (waits r r') as Hw.
  { etrans; [by apply completes_waits|]. unfold waits, r'. cbn. rewrite R1. done. }
  split_and!; [|done|done| |].
  - destruct A1 as [Q1 Q2 (U1 & U2 & U3 & U4) Q4 Q5 Q6 Q7 [G1 G2]]. split; try (unfold r'; cbn; rewrite R1; done).
    + rewrite Hc. unfold Zlen. lia.
    + rewrite Hcl, Hsl. unfold r'. cbn. rewrite Hf. split; [done|constructor].
  - unfold r'. cbn. rewrite R1. cbn. lia.
  - intros Ha. pose proof (completes_accounted _ _ A2 Ha) as Ha1. intros g Hg.
    change (outstanding r') with (outstanding r2). rewrite (R3 g _ Hg (Ha1 g Hg)). f_equal. unfold unreaped. rewrite Hcl.
    change (flight r') with (flight r2). rewrite Hf. change (count_cqe g []) with 0. lia.
Qed.

(** ** Waiting *)
Lemma count_sqe_0 g l : count_sqe g l = 0 → Forall (λ x, x.(sqe_userData) ≠ g) l.
Proof.
  unfold count_sqe, Zlen. intros H. apply Forall_forall. intros x Hx Hg.
  assert (x ∈ filter (λ x, x.(sqe_userData) = g) l) as Hin by (by apply list_elem_of_filter).
  destruct (filter _ l); [by apply elem_of_nil in Hin|cbn in H; lia].
Qed.

Lemma waitGen_spec fuel r g r' e : ring_ok r → accounted r → 0 ≤ g < 2 → waitGen K fuel r g = Some (r', e) →
  ring_ok r' ∧ accounted r' ∧ waits r r' ∧ (e = 0 → Forall (λ x, x.(sqe_userData) ≠ g) r'.(flight) ∧ r'.(outstanding) !! Z.to_nat g = Some 0).
Proof.
  intros Hr Ha Hg. revert r Hr Ha. induction fuel as [|fuel IH]; intros r Hr Ha; [done|]. cbn [waitGen].
  destruct (reap_spec r Hr) as (R1 & R2 & R3 & _ & R4). set (r1 := reap K r) in *. clearbody r1. specialize (R4 Ha).
  rewrite (R4 g Hg). cbn [default].
  assert (unreaped g r1 = count_sqe g (flight r1)) as Hu.
  { unfold unreaped, cq_list. rewrite R2, window_0 by done. change (count_cqe g []) with 0. lia. }
  pose proof (count_sqe_nonneg g (flight r1)) as H0.
  destruct (decide (unreaped g r1 ≤ 0)) as [Hz|Hz]; [rewrite bool_decide_true by done|rewrite bool_decide_false by done].
  { intros [= <- <-]. split_and!; try done. intros _. split; [apply count_sqe_0; lia|]. rewrite (R4 g Hg). f_equal. lia. }
  pose proof (enter_wait_spec K r1 R1) as He. destruct (enter K r1 0 1) as [[r2 n] e2]. destruct He as (E1 & E2 & _ & _ & _).
  pose proof (completes_waits _ _ E2) as Hw2. pose proof (completes_accounted _ _ E2 R4) as Ha2.
  destruct (negb _ && negb _) eqn:Hb.
  - intros [= <- <-]. split_and!; [done|done|by etrans|]. intros ->. apply andb_true_iff in Hb as [Hb _].
    rewrite bool_decide_true in Hb by done. done.
  - intros Hw. destruct (IH r2 E1 Ha2 Hw) as (I1 & I2 & I3 & I4). split_and!; [done|done| |done]. etrans; [exact R3|]. by etrans.
Qed.

(** with finitely many interruptions a wait ends *)
Lemma waitGen_ends N r g : ring_ok r → accounted r → 0 ≤ g < 2 → (∀ n, (N ≤ n)%nat → k_errno K n ≠ EINTR) →
  ∀ fuel, (N - r.(instant) + length r.(flight) < fuel)%nat → ∃ r' e, waitGen K fuel r g = Some (r', e).
Proof.
  intros Hr Ha Hg HN fuel. revert r Hr Ha. induction fuel as [|fuel IH]; intros r Hr Ha Hf; [lia|]. cbn [waitGen].
  destruct (reap_spec r Hr) as (R1 & R2 & R3 & R5 & R4). set (r1 := reap K r) in *. clearbody r1. specialize (R4 Ha).
  rewrite (R4 g Hg). cbn [default].
  destruct (decide (unreaped g r1 ≤ 0)) as [Hz|Hz]; [rewrite bool_decide_true by done; by eauto|rewrite bool_decide_false by done].
  assert (flight r1 ≠ []) as Hfl.
  { intros H0. apply Hz. unfold unreaped, cq_list. rewrite R2, window_0, H0 by done. done. }
  pose proof (enter_wait_spec K r1 R1) as He. destruct (enter K r1 0 1) as [[r2 n] e2]. destruct He as (E1 & E2 & E3 & E4 & E5).
  pose proof (completes_accounted _ _ E2 R4) as Ha2. destruct R3 as (_ & _ & _ & R3 & R6). pose proof (completes_waits _ _ E2) as (_ & _ & _ & W1 & W2).
  destruct (decide (e2 = 0)) as [->|He2].
  { cbn. apply IH; [done|done|]. specialize (E5 eq_refl R2 Hfl). lia. }
  rewrite (bool_decide_false (e2 = 0)) by done. destruct (decide (e2 = EINTR)) as [->|Hne]; [|rewrite bool_decide_false by done; cbn; by eauto].
  rewrite bool_decide_true by done. cbn. apply IH; [done|done|].
  assert (¬ (N ≤ instant r1)%nat) as Hlt. { intros HNle. apply (HN _ HNle). symmetry. by apply E4. } lia.
Qed.

(** ** Submitting *)
Definition sqe_of (fd gen flags h : Z) : ioUringSqe := mkSqe ioringOpSendmsg flags fd h 1 gen.
(** write one SQE and advance the tail *)
Definition push1 r (x : ioUringSqe) : sendRing :=
  let idx := cell r.(sqMask) r.(sqTail) in
  r <| sqes := <[idx := x]> r.(sqes) |> <| sqArray := <[idx := Z.of_nat idx]> r.(sqArray) |> <| sqTail := u32 (r.(sqTail) + 1) |>.

Lemma push1_spec r x : ring_ok r → sq_len r < Zlen r.(sqes) → 0 ≤ x.(sqe_userData) < 2 →
  let r' := push1 r x in
  ring_ok r' ∧ sq_list r' = sq_list r ++ [x] ∧ sq_len r' = sq_len r + 1 ∧ Zlen r'.(sqes) = Zlen r.(sqes).
Proof.
  intros [(a & Ha & Hm & L1 & L2) R2 (U1 & U2 & U3 & U4) R4 R5 R6 R7 [G1 G2]] Hlt Hx r'.
  assert (0 ≤ sq_len r) as H0 by apply u32_range. assert (2 ^ a ≤ 2 ^ 31) as Ha31 by (apply Z.pow_le_mono_r; lia).
  assert (Zlen (sqes r) = 2 ^ a) as HZ by (unfold Zlen; rewrite L1; apply Z2Nat.id, Z.pow_nonneg; lia).
  assert (sq_len r' = sq_len r + 1) as Hl.
  { unfold sq_len, r'. cbn. apply u32_count_push; [done|lia|]. fold (sq_len r). lia. }
  assert (sqTail r = u32 (sqHead r + sq_len r)) as Ht by (symmetry; by apply u32_tail).
  set (idx := cell (sqMask r) (sqTail r)) in *.
  assert (idx < Z.to_nat (2 ^ a))%nat as Hidx by (unfold idx; rewrite Hm, Ht; by apply cell_lt).
  assert (∀ i, 0 ≤ i < sq_len r → idx ≠ cell (sqMask r) (u32 (sqHead r + i))) as Hne.
  { intros i Hi. unfold idx. rewrite Ht, Hm. apply not_eq_sym, cell_ne; lia. }
  assert (sq_list r' = sq_list r ++ [x]) as Hs.
  { rewrite !sq_list_window, Hl. change (sqHead r') with (sqHead r). change (sqMask r') with (sqMask r). apply window_push; [done| |].
    - intros i Hi. unfold sq_get. change (sqArray r') with (<[idx := Z.of_nat idx]> (sqArray r)). change (sqes r') with (<[idx := x]> (sqes r)).
      rewrite list_lookup_insert_ne by (by apply Hne). rewrite R6 by done. cbn [mbind option_bind]. rewrite Nat2Z.id.
      apply list_lookup_insert_ne. by apply Hne.
    - rewrite <- Ht. fold idx. unfold sq_get. change (sqArray r') with (<[idx := Z.of_nat idx]> (sqArray r)). change (sqes r') with (<[idx := x]> (sqes r)).
      rewrite list_lookup_insert_eq by lia. cbn [mbind option_bind]. rewrite Nat2Z.id. apply list_lookup_insert_eq. lia. }
  split_and!; [|done|done|unfold r', Zlen; cbn; by rewrite length_insert]. split; try done.
  - exists a. unfold r'. cbn. by rewrite !length_insert.
  - unfold r'. cbn. split_and!; try done. apply u32_range.
  - rewrite Hl. unfold r', Zlen. cbn. rewrite length_insert. unfold Zlen in Hlt. lia.
  - intros i. rewrite Hl. intros Hi. change (sqArray r') with (<[idx := Z.of_nat idx]> (sqArray r)).
    change (sqHead r') with (sqHead r). change (sqMask r') with (sqMask r). destruct (decide (i = sq_len r)) as [->|Hi'].
    + rewrite <- Ht. fold idx. apply list_lookup_insert_eq. lia.
    + rewrite list_lookup_insert_ne by (apply Hne; lia). apply R6. lia.
  - rewrite Hs. split; [|done]. rewrite app_assoc. apply Forall_app. split; [done|]. by apply Forall_cons_2.
Qed.

Lemma fillSqes_tail r t fd hdrs gen flags x y :
  fillSqes (r <| sqTail := y |>) t fd hdrs gen flags <| sqTail := x |> = fillSqes r t fd hdrs gen flags <| sqTail := x |>.
Proof. revert r t. induction hdrs as [|h hdrs IH]; intros r t; [done|]. cbn [fillSqes]. etrans; [|apply IH]. reflexivity. Qed.

(** writing the SQEs and then the tail, as one push after the other *)
Lemma fillSqes_push r fd hdrs gen flags n : is_u32 r.(sqTail) → n = Zlen hdrs →
  fillSqes r r.(sqTail) fd hdrs gen flags <| sqTail := u32 (r.(sqTail) + n) |> = foldl push1 r (sqe_of fd gen flags <$> hdrs).
Proof.
  intros Hu ->. revert r Hu. induction hdrs as [|h hdrs IH]; intros r Hu.
  { cbn. rewrite Z.add_0_r, u32_id by done. by destruct r. }
  cbn [fillSqes fmap list_fmap foldl]. rewrite <- IH by (cbn; apply u32_range).
  cbn [push1 sqTail]. rewrite Zlen_cons.
  change (sqTail (push1 r (sqe_of fd gen flags h))) with (u32 (sqTail r + 1)).
  unfold push1. rewrite fillSqes_tail, u32_add_add, (Z.add_comm 1). done.
Qed.

Lemma pushes_spec xs r : ring_ok r → sq_len r + Zlen xs ≤ Zlen r.(sqes) → Forall (λ x, 0 ≤ x.(sqe_userData) < 2) xs →
  let r' := foldl push1 r xs in
  ring_ok r' ∧ sq_list r' = sq_list r ++ xs ∧ sq_len r' = sq_len r + Zlen xs ∧ r'.(taken) = r.(taken) ∧
  r'.(outstanding) = r.(outstanding) ∧ (∀ g, unreaped g r' = unreaped g r) ∧ Zlen r'.(sqes) = Zlen r.(sqes).
Proof.
  intros Hr Hl Hxs. revert r Hr Hl. induction Hxs as [|x xs Hx _ IH]; intros r Hr Hl r'.
  { unfold r'. cbn. rewrite app_nil_r, Z.add_0_r. done. }
  rewrite Zlen_cons in Hl. pose proof (Zlen_nonneg xs). destruct (push1_spec r x Hr ltac:(lia) Hx) as (P1 & P2 & P3 & P4).
  destruct (IH (push1 r x) P1 ltac:(lia)) as (I1 & I2 & I3 & I4 & I5 & I6 & I7). cbn [foldl] in r'. fold r' in I1, I2, I3, I4, I5, I6, I7.
  clearbody r'. split_and!; try done.
  - by rewrite I2, P2, <- app_assoc.
  - rewrite I3, P3, Zlen_cons. lia.
  - lia.
Qed.

(** all of the submission queue is taken *)
Lemma enterAll_spec fuel r n r' e : ring_ok r → n = sq_len r → enterAll K fuel r n = Some (r', e) →
  ring_ok r' ∧ r'.(outstanding) = r.(outstanding) ∧ Zlen r'.(sqes) = Zlen r.(sqes) ∧
  (e = 0 → idle r' ∧ r'.(taken) = r.(taken) ++ sq_list r ∧ ∀ g, unreaped g r' = unreaped g r + count_sqe g (sq_list r)).
Proof.
  revert r n. induction fuel as [|fuel IH]; intros r n Hr Hn; [done|]. cbn [enterAll]. assert (0 ≤ sq_len r) as H0 by apply u32_range.
  destruct (decide (0 < n)) as [Hp|Hp]; [rewrite bool_decide_true by done|rewrite bool_decide_false by done].
  2:{ intros [= <- <-]. split_and!; try done. intros _. assert (sq_len r = 0) as Hz by lia. unfold idle. rewrite Hz.
      assert (sq_list r = []) as -> by (rewrite sq_list_window, Hz; by apply window_0). rewrite app_nil_r. split_and!; try done. intros g. change (count_sqe g []) with 0. lia. }
  pose proof (enter_spec K r n 0 Hr) as He. destruct (enter K r n 0) as [[r1 c] e1]. destruct He as [E1 _ E3 _ E4 E5 _].
  destruct (decide (e1 = 0)) as [->|He1].
  - rewrite bool_decide_true by done. cbn [negb]. destruct (E4 eq_refl) as (N1 & N2 & _). specialize (E5 eq_refl).
    destruct (k_accept_spec r c Hr ltac:(lia)) as (A1 & A2 & A3 & A4 & A5 & A6 & A7 & A8 & _).
    pose proof E5 as (F1 & F2 & F3 & F4 & _). destruct (sq_frame _ _ F1 F2) as [S1 S2].
    intros Hl. destruct (IH r1 (n - c) E1 ltac:(lia) Hl) as (I1 & I2 & I3 & I4).
    assert (outstanding r1 = outstanding r) as Ho by (destruct F1 as (_ & _ & _ & _ & _ & _ & -> & _); by apply A2).
    assert (sqes r1 = sqes r) as Hs by (destruct F1 as (_ & _ & _ & -> & _); by apply A2).
    split_and!; [done|by rewrite I2|by rewrite I3, Hs|]. intros ->. destruct (I4 eq_refl) as (J1 & J2 & J3). split_and!; [done| |].
    + rewrite J2, F3, A6, S2, A3. by rewrite <- app_assoc.
    + intros g. rewrite J3, F4, S2, A3, count_sqe_app. unfold unreaped. rewrite A5, A7, count_sqe_app. lia.
  - rewrite bool_decide_false by done. cbn [negb]. specialize (E3 He1). pose proof E3 as (F1 & F2 & F3 & F4 & _). destruct (sq_frame _ _ F1 F2) as [S1 S2].
    assert (outstanding r1 = outstanding r ∧ sqes r1 = sqes r) as [Ho Hs] by (split; apply F1).
    destruct (bool_decide (e1 = EINTR)).
    + intros Hl. destruct (IH r1 n E1 ltac:(lia) Hl) as (I1 & I2 & I3 & I4). split_and!; [done|by rewrite I2|by rewrite I3, Hs|].
      intros ->. destruct (I4 eq_refl) as (J1 & J2 & J3). split_and!; [done|by rewrite J2, F3, S2|]. intros g. by rewrite J3, F4, S2.
    + intros [= <- <-]. split_and!; [done|done|by rewrite Hs|done].
Qed.

Lemma enterAll_ends N r n : ring_ok r → n = sq_len r → (∀ m, (N ≤ m)%nat → k_errno K m ≠ EINTR) →
  ∀ fuel, (N - r.(instant) + Z.to_nat n < fuel)%nat → ∃ r' e, enterAll K fuel r n = Some (r', e).
Proof.
  intros Hr Hn HN fuel. revert r n Hr Hn. induction fuel as [|fuel IH]; intros r n Hr Hn Hf; [lia|]. cbn [enterAll].
  destruct (decide (0 < n)) as [Hp|Hp]; [rewrite bool_decide_true by done|rewrite bool_decide_false by done; by eauto].
  pose proof (enter_spec K r n 0 Hr) as He. destruct (enter K r n 0) as [[r1 c] e1]. destruct He as [E1 E2 E3 E6 E4 E5 _].
  destruct (decide (e1 = 0)) as [->|He1].
  - rewrite bool_decide_true by done. cbn [negb]. destruct (E4 eq_refl) as (N1 & N2 & N3). specialize (E5 eq_refl). specialize (N3 ltac:(lia) ltac:(lia)).
    destruct (k_accept_spec r c Hr ltac:(lia)) as (_ & _ & _ & A4 & _). pose proof E5 as (F1 & F2 & _). destruct (sq_frame _ _ F1 F2) as [S1 _].
    apply IH; [done|lia|lia].
  - rewrite bool_decide_false by done. cbn [negb]. specialize (E3 He1). pose proof E3 as (F1 & F2 & _). destruct (sq_frame _ _ F1 F2) as [S1 _].
    destruct (decide (e1 = EINTR)) as [->|Hne]; [rewrite bool_decide_true by done|rewrite bool_decide_false by done; by eauto].
    apply IH; [done|lia|]. assert (¬ (N ≤ instant r)%nat) as Hlt. { intros HNle. apply (HN _ HNle). symmetry. by apply E6. } lia.
Qed.

Lemma count_sqes_of g fd gen flags hdrs : count_sqe g (sqe_of fd gen flags <$> hdrs) = if decide (gen = g) then Zlen hdrs else 0.
Proof.
  induction hdrs as [|h hdrs IH]; [by destruct (decide _)|]. unfold count_sqe in *. cbn [fmap list_fmap]. rewrite filter_cons. cbn [sqe_of sqe_userData].
  destruct (decide (gen = g)); [|done]. rewrite !Zlen_cons, IH. lia.
Qed.
Lemma add_outstanding_accounted r o gen d u : 0 ≤ gen < 2 → accounted r →
  (∀ g, 0 ≤ g < 2 → u g = unreaped g r + if decide (gen = g) then d else 0) → o = add_outstanding gen d r.(outstanding) →
  ∀ g, 0 ≤ g < 2 → o !! Z.to_nat g = Some (u g).
Proof.
  intros Hgen Ha Hu -> g Hg. rewrite Hu by done. unfold add_outstanding. destruct (decide (gen = g)) as [->|Hne].
  - rewrite list_lookup_alter_eq, (Ha g Hg). done.
  - rewrite list_lookup_alter_ne by lia. rewrite (Ha g Hg). f_equal. lia.
Qed.

(** a pass of the submission loop *)
Lemma submit_pass r fd hdrs gen flags n : ring_ok r → idle r → accounted r → 0 ≤ gen < 2 →
  0 < Zlen hdrs → n = (if bool_decide (Zlen r.(sqes) < Zlen hdrs) then Zlen r.(sqes) else Zlen hdrs) →
  let r1 := fillSqes r r.(sqTail) fd (slice hdrs 0 n) gen flags <| sqTail := u32 (r.(sqTail) + n) |> in
  0 < n ≤ Zlen hdrs ∧ ring_ok r1 ∧ sq_len r1 = n ∧ r1.(instant) = r.(instant) ∧
  ∀ r2, ring_ok r2 ∧ r2.(outstanding) = r1.(outstanding) ∧ (idle r2 ∧ r2.(taken) = r1.(taken) ++ sq_list r1 ∧
      ∀ g, unreaped g r2 = unreaped g r1 + count_sqe g (sq_list r1)) →
    let r3 := r2 <| outstanding := add_outstanding gen n r2.(outstanding) |> in
    ring_ok r3 ∧ idle r3 ∧ accounted r3 ∧ r3.(taken) = r.(taken) ++ (sqe_of fd gen flags <$> slice hdrs 0 n).
Proof.
  intros Hr Hi Ha Hg Hh Hn r1.
  assert (0 < Zlen (sqes r)) as Hs.
  { destruct (rk_sq _ Hr) as (a & Ha' & _ & L & _). unfold Zlen. rewrite L. pose proof (Z.pow_pos_nonneg 2 a ltac:(lia) ltac:(lia)). lia. }
  assert (0 < n ≤ Zlen hdrs ∧ n ≤ Zlen (sqes r)) as [Hn1 Hn2].
  { destruct (decide (Zlen (sqes r) < Zlen hdrs)); [rewrite bool_decide_true in Hn by done|rewrite bool_decide_false in Hn by done]; lia. }
  assert (Zlen (slice hdrs 0 n) = n) as Hl by (rewrite Zlen_slice; lia).
  assert (r1 = foldl push1 r (sqe_of fd gen flags <$> slice hdrs 0 n)) as Heq.
  { apply fillSqes_push; [apply (rk_u32 _ Hr)|done]. }
  assert (Zlen (sqe_of fd gen flags <$> slice hdrs 0 n) = n) as Hlf by (unfold Zlen in *; rewrite length_fmap; done).
  unfold idle in Hi. destruct (pushes_spec (sqe_of fd gen flags <$> slice hdrs 0 n) r Hr) as (P1 & P2 & P3 & P4 & P5 & P6 & _).
  { lia. }
  { apply Forall_fmap, Forall_forall. intros x _. done. }
  assert (instant r1 = instant r) as Hin.
  { rewrite Heq. generalize (sqe_of fd gen flags <$> slice hdrs 0 n). intros l. revert r Hr Hi Ha Hn Hs Hn2 r1 Heq P1 P2 P3 P4 P5 P6.
    intros r. intros _ _ _ _ _ _ _ _ _ _ _ _ _ _. revert r. induction l as [|x l IH]; intros r; [done|]. cbn [foldl]. by rewrite IH. }
  rewrite <- Heq in P1, P2, P3, P4, P5, P6. assert (sq_list r = []) as Hsl by (rewrite sq_list_window, Hi; by apply window_0).
  split_and!; [lia|lia|done|lia|done|]. intros r2 (Q1 & Q2 & Q3 & Q4 & Q5) r3.
  rewrite P2, Hsl in Q4, Q5. cbn [app] in Q4, Q5. split_and!.
  - destruct Q1. split; try done. unfold r3. cbn. unfold add_outstanding. by rewrite length_alter.
  - done.
  - assert (∀ g, 0 ≤ g < 2 → add_outstanding gen n (outstanding r2) !! Z.to_nat g = Some (unreaped g r2)) as Ha3; [|exact Ha3].
    apply (add_outstanding_accounted r _ gen n (λ g, unreaped g r2) Hg Ha); [|by rewrite Q2, P5].
    intros g _. rewrite Q5, P6, count_sqes_of, Hl. done.
  - change (taken r3) with (taken r2). by rewrite Q4, P4.
Qed.

Lemma submit_spec fuel r fd hdrs gen flags r' e : ring_ok r → idle r → accounted r → 0 ≤ gen < 2 →
  submitSendmsg K fuel r fd hdrs gen flags = Some (r', e) →
  e = 0 → ring_ok r' ∧ idle r' ∧ accounted r' ∧ r'.(taken) = r.(taken) ++ (sqe_of fd gen flags <$> hdrs).
Proof.
  intros Hr Hi Ha Hg Hs ->. revert r hdrs Hr Hi Ha Hs. induction fuel as [|fuel IH]; intros r hdrs Hr Hi Ha; [done|]. cbn [submitSendmsg].
  destruct (decide (0 < Zlen hdrs)) as [Hh|Hh]; [rewrite (bool_decide_true (0 < Zlen hdrs)) by done|rewrite (bool_decide_false (0 < Zlen hdrs)) by done].
  2:{ intros [= <-]. destruct hdrs; [cbn; by rewrite app_nil_r|]. rewrite Zlen_cons in Hh. pose proof (Zlen_nonneg hdrs). lia. }
  unfold idle in Hi. fold (sq_len r). rewrite Hi, Z.sub_0_r. set (n := if bool_decide (Zlen (sqes r) < Zlen hdrs) then Zlen (sqes r) else Zlen hdrs).
  destruct (submit_pass r fd hdrs gen flags n Hr Hi Ha Hg Hh eq_refl) as (N1 & P1 & P2 & _ & P4). clearbody n.
  rewrite (bool_decide_false (n = 0)) by lia. set (r1 := _ <| sqTail := _ |>) in *. clearbody r1.
  destruct (enterAll K fuel r1 n) as [[r2 e2]|] eqn:He; [|done]. cbn [mbind option_bind].
  destruct (enterAll_spec fuel r1 n r2 e2 P1 (eq_sym P2) He) as (Q1 & Q2 & _ & Q3).
  destruct (decide (e2 = 0)) as [->|He2]; [rewrite bool_decide_true by done|rewrite bool_decide_false by done; by intros [= _ ->]]. cbn [negb].
  destruct (P4 r2 (conj Q1 (conj Q2 (Q3 eq_refl)))) as (T1 & T2 & T3 & T4). intros Hl.
  destruct (IH _ _ T1 T2 T3 Hl) as (J1 & J2 & J3 & J4). split_and!; [done..|]. rewrite J4, T4, <- app_assoc, <- fmap_app. do 2 f_equal.
  rewrite <- slice_split by lia. apply slice_all.
Qed.

Lemma submit_ends N r fd hdrs gen flags : ring_ok r → idle r → accounted r → 0 ≤ gen < 2 → (∀ m, (N ≤ m)%nat → k_errno K m ≠ EINTR) →
  ∀ fuel, (N + 2 * length hdrs + 1 < fuel)%nat → ∃ r' e, submitSendmsg K fuel r fd hdrs gen flags = Some (r', e).
Proof.
  intros Hr Hi Ha Hg HN fuel. revert r hdrs Hr Hi Ha. induction fuel as [|fuel IH]; intros r hdrs Hr Hi Ha Hf; [lia|]. cbn [submitSendmsg].
  destruct (decide (0 < Zlen hdrs)) as [Hh|Hh]; [rewrite (bool_decide_true (0 < Zlen hdrs)) by done|rewrite (bool_decide_false (0 < Zlen hdrs)) by done; by eauto].
  unfold idle in Hi. fold (sq_len r). rewrite Hi, Z.sub_0_r. set (n := if bool_decide (Zlen (sqes r) < Zlen hdrs) then Zlen (sqes r) else Zlen hdrs).
  destruct (submit_pass r fd hdrs gen flags n Hr Hi Ha Hg Hh eq_refl) as (N1 & P1 & P2 & P3 & P4). clearbody n.
  rewrite (bool_decide_false (n = 0)) by lia. set (r1 := _ <| sqTail := _ |>) in *. clearbody r1.
  destruct (enterAll_ends N r1 n P1 (eq_sym P2) HN fuel) as (r2 & e2 & He); [unfold Zlen in N1; lia|].
  rewrite He. cbn [mbind option_bind]. destruct (enterAll_spec fuel r1 n r2 e2 P1 (eq_sym P2) He) as (Q1 & Q2 & _ & Q3).
  destruct (decide (e2 = 0)) as [->|He2]; [rewrite bool_decide_true by done|rewrite bool_decide_false by done; by eauto]. cbn [negb].
  destruct (P4 r2 (conj Q1 (conj Q2 (Q3 eq_refl)))) as (T1 & T2 & T3 & T4). apply IH; [done..|].
  unfold slice. rewrite length_take, length_drop. unfold Zlen in N1. lia.
Qed.
End ring.

(** ** Runs *)

(** The rings a connection can have as long as every submission has succeeded;
    waits and the operations themselves may fail.  After a failed submission
    the books are wrong for good ([failed_submit_forgotten]). *)
Inductive ring_run (K : kernel) : sendRing → Prop :=
  | rr_new a b : 0 ≤ a ≤ 31 → 0 ≤ b ≤ 31 → ring_run K (newSendRing a b)
  | rr_submit fuel r fd hdrs gen flags r' :
      ring_run K r → 0 ≤ gen < 2 → submitSendmsg K fuel r fd hdrs gen flags = Some (r', 0) → ring_run K r'
  | rr_wait fuel r gen r' e : ring_run K r → 0 ≤ gen < 2 → waitGen K fuel r gen = Some (r', e) → ring_run K r'
  | rr_collect r : ring_run K r → ring_run K (collectErr r).1.

Lemma newSendRing_ok a b : 0 ≤ a ≤ 31 → 0 ≤ b ≤ 31 → ring_ok (newSendRing a b) ∧ idle (newSendRing a b) ∧ accounted (newSendRing a b).
Proof.
  intros Ha Hb. assert (is_u32 0) as H0 by done. split_and!; [|done|].
  - split; try done; cbn [sqMask sqes sqArray cqMask cqes newSendRing].
    + exists a. by rewrite !length_replicate.
    + exists b. by rewrite !length_replicate.
    + apply Zlen_nonneg.
    + apply Zlen_nonneg.
    + change (sq_len (newSendRing a b)) with 0. intros i Hi. lia.
  - intros g Hg. assert (g = 0 ∨ g = 1) as [-> | ->] by lia; done.
Qed.
Lemma ring_run_ok K r : ring_run K r → ring_ok r ∧ idle r ∧ accounted r.
Proof.
  induction 1 as [a b Ha Hb|fuel r fd hdrs gen flags r' _ (I1 & I2 & I3) Hg Hs|fuel r gen r' e _ (I1 & I2 & I3) Hg Hw|r _ (I1 & I2 & I3)].
  - by apply newSendRing_ok.
  - by destruct (submit_spec K fuel r fd hdrs gen flags r' 0 I1 I2 I3 Hg Hs eq_refl) as (? & ? & ? & _).
  - destruct (waitGen_spec K fuel r gen r' e I1 I3 Hg Hw) as (W1 & W2 & W3 & _). split_and!; [done| |done]. by eapply waits_idle.
  - split_and!; [|done|done]. destruct I1. by split.
Qed.

(** C23: the io_uring ring keeps exact books.  As long as every submission has
    succeeded (after one that failed the counts are wrong, see
    [failed_submit_forgotten]), and however the kernel schedules, completes
    and fails the operations:
    [outstanding] counts exactly the operations accepted and not reaped,
    with head and tail counters that wrap at 32 bits; a submission that
    succeeds hands the kernel exactly the messages, in order, tagged with
    their generation; and a wait that succeeds returns when, and only when,
    nothing of that generation is in flight, so that its slots may be written
    again.  Both come to an end once signals stop interrupting them. *)
Theorem uring_exact K r gen N :
  ring_run K r → 0 ≤ gen < 2 → (∀ n, (N ≤ n)%nat → k_errno K n ≠ EINTR) →
  accounted r ∧
  (∀ fd hdrs flags, ∃ fuel r' e, submitSendmsg K fuel r fd hdrs gen flags = Some (r', e) ∧
     (e = 0 → r'.(taken) = r.(taken) ++ (sqe_of fd gen flags <$> hdrs))) ∧
  (∃ fuel r' e, waitGen K fuel r gen = Some (r', e) ∧
     (e = 0 → Forall (λ x, x.(sqe_userData) ≠ gen) r'.(flight) ∧ r'.(outstanding) !! Z.to_nat gen = Some 0)).
Proof.
  intros Hr Hg HN. destruct (ring_run_ok K r Hr) as (R1 & R2 & R3). split_and!; [done| |].
  - intros fd hdrs flags. destruct (submit_ends K N r fd hdrs gen flags R1 R2 R3 Hg HN _ (Nat.lt_succ_diag_r _)) as (r' & e & H).
    eexists _, r', e. split; [exact H|]. intros ->. by apply (submit_spec K _ r fd hdrs gen flags r' 0 R1 R2 R3 Hg H).
  - destruct (waitGen_ends K N r gen R1 R3 Hg HN _ (Nat.lt_succ_diag_r _)) as (r' & e & H).
    eexists _, r', e. split; [exact H|]. apply (waitGen_spec K _ r gen r' e R1 R3 Hg H).
Qed.

(** a kernel that takes two submissions at a time, is interrupted once, and
    completes nothing before it is waited for *)
Definition witness_kernel : kernel := mkKernel (λ n, if bool_decide (n = 1%nat) then EINTR else 0) (λ _, 2) (λ _, []).
Lemma uring_exact_witness : ∃ fuel r r' fuel' r'' e,
  submitSendmsg witness_kernel fuel (newSendRing 2 3) 7 [100; 101; 102] 1 iosqeAsync = Some (r, 0) ∧ length r.(flight) = 3%nat ∧
  submitSendmsg witness_kernel fuel r 7 [200] 0 0 = Some (r', 0) ∧ r'.(taken) = r.(taken) ++ [sqe_of 7 0 0 200] ∧
  waitGen witness_kernel fuel' r' 1 = Some (r'', e) ∧ (e = 0 → Forall (λ x, x.(sqe_userData) ≠ 1) r''.(flight)).
Proof.
  destruct (submitSendmsg witness_kernel 20 (newSendRing 2 3) 7 [100; 101; 102] 1 iosqeAsync) as [[r e1]|] eqn:H1; [|vm_compute in H1; discriminate].
  assert (e1 = 0 ∧ length r.(flight) = 3%nat) as [-> H2] by (vm_compute in H1; injection H1 as <- <-; done).
  destruct (submitSendmsg witness_kernel 20 r 7 [200] 0 0) as [[r' e2]|] eqn:H3;
    [|vm_compute in H1; injection H1 as <-; vm_compute in H3; discriminate].
  assert (e2 = 0 ∧ r'.(taken) = r.(taken) ++ [sqe_of 7 0 0 200]) as [-> H4].
  { vm_compute in H1. injection H1 as <-. vm_compute in H3. injection H3 as <- <-. done. }
  assert (ring_run witness_kernel r') as Hr.
  { eapply rr_submit; [|by instantiate (1 := 0)|exact H3]. eapply rr_submit; [|by instantiate (1 := 1)|exact H1]. apply rr_new; done. }
  destruct (uring_exact witness_kernel r' 1 2 Hr ltac:(done)) as (_ & _ & fuel' & r'' & e & H5 & H6).
  { intros n Hn. unfold witness_kernel. cbn. rewrite bool_decide_false by lia. done. }
  exists 20%nat, r, r', fuel', r'', e. split_and!; try done. intros He. by apply H6.
Defined.

(** A failed submission is forgotten.  When [io_uring_enter] takes part
    of a batch and then fails (the kernel is short of memory, or the
    completion queue is in overflow), [submitSendmsg] returns the error before
    it has counted anything.  The message already taken is in flight, but
    [outstanding] does not know: waiting for its generation returns at once,
    and the slot is written again while the kernel may still read it; and the
    message not taken stays at the head of the submission queue, so that the
    next submission hands it over in place of its own. *)
Theorem failed_submit_forgotten :
  let K := mkKernel (λ n, if bool_decide (n = 1%nat) then 16 else 0) (λ _, 1) (λ _, []) in
  (λ p, (p.1.(flight), p.1.(outstanding), p.2)) <$> submitSendmsg K 10 (newSendRing 2 3) 7 [100; 101] 0 iosqeAsync
    = Some ([sqe_of 7 0 iosqeAsync 100], [0; 0], 16) ∧
  (p ← submitSendmsg K 10 (newSendRing 2 3) 7 [100; 101] 0 iosqeAsync; p ← waitGen K 10 p.1 0; Some (p.1.(flight), p.2))
    = Some ([sqe_of 7 0 iosqeAsync 100], 0) ∧
  (p ← submitSendmsg K 10 (newSendRing 2 3) 7 [100; 101] 0 iosqeAsync; p ← submitSendmsg K 10 p.1 7 [100] 0 iosqeAsync;
   Some (addr <$> p.1.(taken), addr <$> sq_list p.1, p.2)) = Some ([100; 101], [100], 0).
Proof. vm_compute. split_and!; reflexivity. Qed.
