(* ===== verification/UringSetup.v ===== *)
(** * Setting up the io_uring ([newSendRing] and [close] of [uring.go])

    The system calls that make a ring, map its two areas and release them,
    with the memory the code then reads and writes through [unsafe] slices,
    which nobody checks.  A ring is made or nothing is left behind, every
    slice lies inside its mapping, and closing gives everything back.

    The kernel is a parameter: what [io_uring_setup(2)] answers and whether
    [mmap] succeeds.  [layout_ok] is what io_uring_setup(2) says of its
    answer: the sizes are powers of two at least as large as asked for, and
    each ring's control words lie before its array. *)
From S2P Require Import Prelude Options Uring UringRing UringRun.

Definition ioringOffSqRing : Z := 0.
Definition ioringOffSqes : Z := 268435456.
Definition ioringFeatSingleMmap : Z := 1.
Definition sqeSize : Z := 64.   (* [unsafe.Sizeof(ioUringSqe{})] *)
Definition cqeSize : Z := 16.

Record ioSqringOffsets := mkSqOff { so_head : Z; so_tail : Z; so_ringMask : Z; so_array : Z }.
Record ioCqringOffsets := mkCqOff { co_head : Z; co_tail : Z; co_ringMask : Z; co_cqes : Z }.
Record ioUringParams := mkParams { sqEntries : Z; cqEntries : Z; features : Z; sqOff : ioSqringOffsets; cqOff : ioCqringOffsets }.

(** ** Resources *)
Inductive resource := RFd (fd : Z) | RMap (fd off len : Z).
#[export] Instance resource_eq_dec : EqDecision resource.
Proof. solve_decision. Defined.
(** [syscall.Close] and [syscall.Munmap] *)
Definition give_back (r : resource) (held : list resource) : list resource := filter (λ x, x ≠ r) held.

(** the kernel's answers *)
Record setup_kernel := mkSetupKernel {
  ks_setup : Z → option (Z * ioUringParams);   (* a descriptor, and the parameters it filled in *)
  ks_mmap : Z → Z → Z → bool;
}.

(** a ring as mapped: the lengths of the two areas, and where its parts are *)
Record ring_area := mkArea { ra_fd : Z; ra_ring : Z; ra_sqes : Z; ra_params : ioUringParams }.

Section setup.
Context (K : setup_kernel).

(** [&r.ring[off]]: an index out of range panics *)
Definition at_ok (len off : Z) : bool := off <? len.

(** the outer [None] is a panic, the inner one the [nil] ring; with the
    resources held on return *)
Definition newSendRing_setup (sqSize : Z) (held : list resource) : option (option ring_area * list resource) :=
  match K.(ks_setup) sqSize with
  | None => Some (None, held)
  | Some (fd, p) =>
      let held := RFd fd :: held in
      if Z.land p.(features) ioringFeatSingleMmap =? 0 then Some (None, give_back (RFd fd) held)
      else
        let sqRingSz := u32 (p.(sqOff).(so_array) + u32 (p.(sqEntries) * 4)) in
        let cqRingSz := u32 (p.(cqOff).(co_cqes) + u32 (p.(cqEntries) * 16)) in
        let ringSz := sqRingSz in
        let ringSz := if cqRingSz >? ringSz then cqRingSz else ringSz in
        if negb (K.(ks_mmap) fd ioringOffSqRing ringSz) then Some (None, give_back (RFd fd) held)
        else
          let held := RMap fd ioringOffSqRing ringSz :: held in
          let sqeSz := p.(sqEntries) * sqeSize in
          if negb (K.(ks_mmap) fd ioringOffSqes sqeSz)
          then Some (None, give_back (RFd fd) (give_back (RMap fd ioringOffSqRing ringSz) held))
          else
            let held := RMap fd ioringOffSqes sqeSz :: held in
            let at32 := at_ok ringSz in
            if at32 p.(sqOff).(so_head) && at32 p.(sqOff).(so_tail) && at32 p.(sqOff).(so_ringMask) && at32 p.(sqOff).(so_array)
               && at_ok sqeSz 0
               && at32 p.(cqOff).(co_head) && at32 p.(cqOff).(co_tail) && at32 p.(cqOff).(co_ringMask) && at32 p.(cqOff).(co_cqes)
            then Some (Some (mkArea fd ringSz sqeSz p), held)
            else None
  end.

(** the end of [close] *)
Definition release_ring (r : ring_area) (held : list resource) : list resource :=
  let held := give_back (RMap r.(ra_fd) ioringOffSqes r.(ra_sqes)) held in
  let held := give_back (RMap r.(ra_fd) ioringOffSqRing r.(ra_ring)) held in
  give_back (RFd r.(ra_fd)) held.

(** the ring of a new connection, if it is to have one *)
Definition setupUring (cfg : config) (held : list resource) : option (option ring_area * list resource) :=
  if cfg.(enableIOUring) then newSendRing_setup (2 * cfg.(batchSize)) held else Some (None, held).
End setup.

(** ** What is documented of the kernel *)
Record layout_ok (sqSize : Z) (p : ioUringParams) : Prop := mkLayoutOk {
  lo_sq : ∃ a, 0 ≤ a ≤ 15 ∧ p.(sqEntries) = 2 ^ a ∧ sqSize ≤ 2 ^ a;
  lo_cq : ∃ b, 0 ≤ b ≤ 16 ∧ p.(cqEntries) = 2 ^ b;
  lo_sqOff : ∀ off, off ∈ [p.(sqOff).(so_head); p.(sqOff).(so_tail); p.(sqOff).(so_ringMask)] → 0 ≤ off ∧ off + 4 ≤ p.(sqOff).(so_array);
  lo_cqOff : ∀ off, off ∈ [p.(cqOff).(co_head); p.(cqOff).(co_tail); p.(cqOff).(co_ringMask)] → 0 ≤ off ∧ off + 4 ≤ p.(cqOff).(co_cqes);
  lo_sqArray : 0 ≤ p.(sqOff).(so_array) < 2 ^ 30;
  lo_cqes : 0 ≤ p.(cqOff).(co_cqes) < 2 ^ 30;
}.
Definition kernel_ok (K : setup_kernel) : Prop :=
  ∀ sqSize fd p, K.(ks_setup) sqSize = Some (fd, p) → layout_ok sqSize p.

(** every slice the ring is used through lies inside what was mapped *)
Definition inside (r : ring_area) : Prop :=
  let p := r.(ra_params) in
  p.(sqOff).(so_array) + 4 * p.(sqEntries) ≤ r.(ra_ring) ∧
  p.(cqOff).(co_cqes) + cqeSize * p.(cqEntries) ≤ r.(ra_ring) ∧
  sqeSize * p.(sqEntries) ≤ r.(ra_sqes) ∧
  ∀ off, off ∈ [p.(sqOff).(so_head); p.(sqOff).(so_tail); p.(sqOff).(so_ringMask); p.(cqOff).(co_head); p.(cqOff).(co_tail); p.(cqOff).(co_ringMask)] →
    0 ≤ off ∧ off + 4 ≤ r.(ra_ring).
(** a descriptor the kernel hands out is not in use *)
Definition fresh_fd (K : setup_kernel) (held : list resource) : Prop :=
  ∀ sqSize fd p, K.(ks_setup) sqSize = Some (fd, p) → RFd fd ∉ held ∧ ∀ off len, RMap fd off len ∉ held.

(** ** Proofs *)
Lemma give_back_head r held : r ∉ held → give_back r (r :: held) = held.
Proof.
  intros Hr. unfold give_back. rewrite filter_cons_False by (intros H; by apply H). induction held as [|x held IH]; [done|].
  apply not_elem_of_cons in Hr as [H1 H2]. rewrite filter_cons_True by (by intros ->). by rewrite IH.
Qed.

(** the ring area holds both arrays: no sum wraps *)
Lemma ring_sizes sqSize p : layout_ok sqSize p →
  let sq := u32 (p.(sqOff).(so_array) + u32 (p.(sqEntries) * 4)) in
  let cq := u32 (p.(cqOff).(co_cqes) + u32 (p.(cqEntries) * 16)) in
  sq = p.(sqOff).(so_array) + 4 * p.(sqEntries) ∧ cq = p.(cqOff).(co_cqes) + 16 * p.(cqEntries) ∧ 1 ≤ p.(sqEntries) ∧ 1 ≤ p.(cqEntries).
Proof.
  intros [(a & Ha & Hsq & _) (b & Hb & Hcq) _ _ H1 H2].
  assert (1 ≤ 2 ^ a ≤ 2 ^ 15) by (split; [apply (Z.pow_le_mono_r 2 0 a)|apply Z.pow_le_mono_r]; lia).
  assert (1 ≤ 2 ^ b ≤ 2 ^ 16) by (split; [apply (Z.pow_le_mono_r 2 0 b)|apply Z.pow_le_mono_r]; lia).
  rewrite Hsq, Hcq. cbv zeta. rewrite !u32_id; unfold is_u32; rewrite ?u32_id by (unfold is_u32; lia); lia.
Qed.

Lemma inside_area sqSize fd p ringSz : layout_ok sqSize p →
  p.(sqOff).(so_array) + 4 * p.(sqEntries) ≤ ringSz → p.(cqOff).(co_cqes) + 16 * p.(cqEntries) ≤ ringSz →
  1 ≤ p.(sqEntries) → 1 ≤ p.(cqEntries) → inside (mkArea fd ringSz (p.(sqEntries) * sqeSize) p).
Proof.
  intros Hl H1 H2 H3 H4. unfold inside, sqeSize, cqeSize. cbn [ra_params ra_ring ra_sqes]. split_and!; [lia|lia|lia|].
  intros off Hoff. assert (off ∈ [so_head (sqOff p); so_tail (sqOff p); so_ringMask (sqOff p)] ∨ off ∈ [co_head (cqOff p); co_tail (cqOff p); co_ringMask (cqOff p)]) as [Hs|Hc] by set_solver.
  - pose proof (lo_sqOff _ _ Hl off Hs). lia.
  - pose proof (lo_cqOff _ _ Hl off Hc). lia.
Qed.

(** C24: a ring is set up soundly or not at all.  Whatever [io_uring_setup]
    and [mmap] answer, [newSendRing] does not panic; if it returns no ring,
    every descriptor and mapping it made has been given back; if it returns
    one, there is room for as many submissions as asked for, every array and
    control word the code reaches through unchecked pointers lies inside the
    mapped memory, and [close] gives back exactly what was taken. *)
Theorem ring_setup_sound K sqSize held : kernel_ok K → fresh_fd K held →
  ∃ o held', newSendRing_setup K sqSize held = Some (o, held') ∧
    match o with
    | None => held' = held
    | Some r => inside r ∧ sqSize ≤ r.(ra_params).(sqEntries) ∧ release_ring r held' = held
    end.
Proof.
  intros HK Hf. unfold newSendRing_setup. destruct (ks_setup K sqSize) as [[fd p]|] eqn:Hs; [|by exists None, held].
  destruct (Hf _ _ _ Hs) as [F1 F2]. pose proof (HK _ _ _ Hs) as Hl. destruct (ring_sizes _ _ Hl) as (Z1 & Z2 & Z3 & Z4). cbv zeta in Z1, Z2.
  case_test; [eexists _, _; split; [done|by apply give_back_head]|]. cbv zeta. rewrite Z1, Z2.
  set (ringSz := if bool_decide _ then _ else _). assert (so_array (sqOff p) + 4 * sqEntries p ≤ ringSz ∧ co_cqes (cqOff p) + 16 * cqEntries p ≤ ringSz) as [R1 R2]
    by (unfold ringSz; case_bool_decide; lia). clearbody ringSz.
  destruct (ks_mmap K fd ioringOffSqRing ringSz); cbn [negb]; [|eexists _, _; split; [done|by apply give_back_head]].
  assert (RMap fd ioringOffSqRing ringSz ∉ RFd fd :: held) as G1 by (apply not_elem_of_cons; by split).
  destruct (ks_mmap K fd ioringOffSqes (sqEntries p * sqeSize)); cbn [negb].
  2:{ eexists _, _. split; [done|]. cbv beta iota. rewrite (give_back_head (RMap _ _ _)) by done. by apply give_back_head. }
  pose proof (inside_area _ fd p ringSz Hl R1 R2 Z3 Z4) as Hin. pose proof Hin as (_ & _ & I3 & I4). cbn [ra_params ra_ring ra_sqes] in I3, I4.
  assert (Forall (λ off, at_ok ringSz off = true) [so_head (sqOff p); so_tail (sqOff p); so_ringMask (sqOff p); co_head (cqOff p); co_tail (cqOff p); co_ringMask (cqOff p)]) as Hat.
  { apply Forall_forall. intros off Hoff. apply bool_decide_eq_true. specialize (I4 off Hoff). lia. }
  rewrite !Forall_cons in Hat. destruct Hat as (-> & -> & -> & -> & -> & -> & _). unfold at_ok, sqeSize. rewrite !bool_decide_true by lia. cbn [andb].
  eexists _, _. split; [done|]. split_and!; [exact Hin|cbn; destruct (lo_sq _ _ Hl) as (a & _ & -> & ?); done|].
  unfold release_ring. cbn [ra_fd ra_sqes ra_ring]. rewrite give_back_head, give_back_head, give_back_head; [done|done|done|].
  apply not_elem_of_cons. split; [unfold ioringOffSqes, ioringOffSqRing; congruence|]. apply not_elem_of_cons. by split.
Qed.

(** A kernel that makes a ring of 256 with the offsets Linux uses. *)
Definition linux_params : ioUringParams := mkParams 256 512 1 (mkSqOff 0 4 16 8512) (mkCqOff 8 12 20 320).
Definition linux_kernel : setup_kernel := mkSetupKernel (λ n, if (0 <=? n) && (n <=? 256) then Some (7, linux_params) else None) (λ _ _ _, true).
Lemma linux_kernel_ok : kernel_ok linux_kernel.
Proof.
  intros n fd p. cbn. destruct (bool_decide_reflect (0 ≤ n)), (bool_decide_reflect (n ≤ 256)); cbn; try done. intros [= _ <-]. split.
  - exists 8. cbn. lia.
  - exists 9. cbn. lia.
  - intros off Hoff. cbn in *. set_unfold. destruct_or!; subst; lia.
  - intros off Hoff. cbn in *. set_unfold. destruct_or!; subst; lia.
  - cbn. lia.
  - cbn. lia.
Qed.
Lemma ring_setup_sound_witness : ∃ r held', newSendRing_setup linux_kernel 128 [RFd 3] = Some (Some r, held') ∧
  r.(ra_ring) = 9536 ∧ inside r ∧ release_ring r held' = [RFd 3].
Proof.
  destruct (ring_setup_sound linux_kernel 128 [RFd 3] linux_kernel_ok) as (o & held' & H1 & H2).
  - intros n fd p. cbn. destruct (_ && _); [|done]. intros [= <- _]. split; [|intros off len]; rewrite list_elem_of_singleton; done.
  - vm_compute in H1. injection H1 as <- <-. destruct H2 as (H2 & _ & H3). by eexists _, _.
Defined.
