(* ===== verification/UringFlush.v ===== *)
(** * The pipelined flush ([connection.go], [flushSendUringLocked])

    With io_uring a flush submits the batch and returns; the next batch is
    built in the other slot set meanwhile.  What must not happen: a slot or a
    payload buffer is written while the kernel may still read it. *)
From S2P Require Import Prelude Errors Frame Retransmit RetransmitSpec RetransmitRefine Uring UringRing UringRun.

Record usend := mkUsend {
  us_ring : sendRing;
  us_set : Z;                 (* [uringSet] *)
  us_mark : Z;                (* [uringMark] *)
  us_rq : retransmitQueue;
}.
#[export] Instance eta_usend : Eta usend := λ u, mkUsend (us_ring u) (us_set u) (us_mark u) (us_rq u).

Definition asyncBytesMin : Z := Z.shiftl 16 10.

Section flush.
(** the kernel, the socket, and where the [msghdr]s of the two sets lie *)
Context (K : kernel) (fd : Z) (hdr_at : Z → Z → Z).
Implicit Types (u : usend).

(** a flush of [n] messages of the lengths [lens] *)
Definition flushSendUringLocked (fuel : nat) u (lens : list Z) (n : Z) : option (usend * Z) :=
  let total := foldr Z.add 0 (slice lens 0 n) in
  let sqeFlags := if total >=? asyncBytesMin then iosqeAsync else 0 in
  let set := u.(us_set) in
  '(r, errno) ← submitSendmsg K fuel u.(us_ring) fd (hdr_at set <$> seqZ 0 n) set sqeFlags;
  let u := u <| us_ring := r |> in
  if negb (errno =? 0) then Some (u, errno)
  else
    let u := u <| us_set := Z.lxor u.(us_set) 1 |> in
    '(r, errno) ← waitGen K fuel u.(us_ring) u.(us_set);
    let u := u <| us_ring := r |> in
    if negb (errno =? 0) then Some (u, errno)
    else
      let u := u <| us_rq := drainPendingFreeFirst u.(us_rq) u.(us_mark) |> in
      let u := u <| us_mark := pendingFreeLen u.(us_rq) |> in
      let '(r, errno) := collectErr u.(us_ring) in
      Some (u <| us_ring := r |>, errno).

(** ** Runs *)

(** The connection's use of the path.  [sendDataFrame] and [sendReliableFrame]
    add a frame to the retransmission queue first, under the queue's lock, and
    then, under [sendMu], give its payload a place in the batch; in between
    anything may happen, flushes too ([acquireSendSlot] makes one when the
    batch is full or of another class).  [z_pending] are the payloads added
    that have no place yet; [z_building] and [z_flying] those referenced from
    the set being filled and from the set submitted last; each with the bytes
    it was given. *)
Record zstate := mkZ {
  z_u : usend;
  z_loans : list bslice;
  z_pending : list (bslice * list Z);
  z_building : list (bslice * list Z);
  z_flying : list (bslice * list Z);
}.

Inductive z_op :=
  | ZQueue (op : rq_op)                      (* an operation of the retransmission queue *)
  | ZRef (i : nat)                           (* the [i]th of the pending payloads gets its place in the batch *)
  | ZDrop                                    (* the batch is abandoned: the socket is shut down, or the pacer cancelled *)
  | ZFlush (fuel : nat) (lens : list Z) (n : Z).

Definition is_drain (op : rq_op) : bool := match op with OpDrain | OpDrainFirst _ => true | _ => false end.
Definition added (q : retransmitQueue) (op : rq_op) : list (bslice * list Z) :=
  match op with OpAdd ftype sid seq payload now => [((add q ftype sid seq payload now).2, payload)] | _ => [] end.

(** what the callers guarantee: [op_ok], a new frame being one whose key is
    not in the map *)
Definition z_admits (q : retransmitQueue) (loans : list bslice) (op : rq_op) : Prop :=
  match op with
  | OpAdd _ sid seq _ _ => is_u32 sid ∧ is_u32 seq ∧ q.(entries) !! retransmitKey sid seq = None
  | _ => op_ok (q, loans) [] op
  end.

(** the payload's buffer has not been freed *)
Definition unfreed (q : retransmitQueue) (x : bslice * list Z) : Prop := x.1 ∉ pendingFree q.

(** The steps of runs in which every submission and every wait succeeds.  A
    payload that has been freed when a flush ends, and still has no place in
    a batch, is no longer safe to reference, and no step references it: that
    takes a frame to be resent and acknowledged, or its stream removed, while
    the call that added it waits for its place ([freed_before_queued]). *)
Inductive z_step : zstate → z_op → zstate → Prop :=
  | zs_queue z op q' loans' ret :
      is_drain op = false → z_admits z.(z_u).(us_rq) z.(z_loans) op →
      rq_step (z.(z_u).(us_rq), z.(z_loans)) op = Some (q', loans', ret) →
      z_step z (ZQueue op) (mkZ (z.(z_u) <| us_rq := q' |>) loans' (z.(z_pending) ++ added z.(z_u).(us_rq) op) z.(z_building) z.(z_flying))
  | zs_ref z i x : z.(z_pending) !! i = Some x →
      z_step z (ZRef i) (mkZ z.(z_u) z.(z_loans) (delete i z.(z_pending)) (z.(z_building) ++ [x]) z.(z_flying))
  | zs_drop z : z_step z ZDrop (mkZ z.(z_u) z.(z_loans) z.(z_pending) [] z.(z_flying))
  (** the error [e] of an earlier completion may be reported *)
  | zs_flush z fuel lens n u' e r1 :
      submitSendmsg K fuel z.(z_u).(us_ring) fd (hdr_at z.(z_u).(us_set) <$> seqZ 0 n) z.(z_u).(us_set)
        (if foldr Z.add 0 (slice lens 0 n) >=? asyncBytesMin then iosqeAsync else 0) = Some (r1, 0) →
      (∃ r2, waitGen K fuel r1 (Z.lxor z.(z_u).(us_set) 1) = Some (r2, 0)) →
      flushSendUringLocked fuel z.(z_u) lens n = Some (u', e) →
      z_step z (ZFlush fuel lens n) (mkZ u' z.(z_loans) (filter (unfreed u'.(us_rq)) z.(z_pending)) [] z.(z_building)).
End flush.

Inductive z_reach (K : kernel) (fd : Z) (hdr_at : Z → Z → Z) : zstate → Prop :=
  | zr_new a b maxPayload : 0 ≤ a ≤ 31 → 0 ≤ b ≤ 31 → 0 ≤ maxPayload →
      z_reach K fd hdr_at (mkZ (mkUsend (newSendRing a b) 0 0 (newRetransmitQueue maxPayload)) [] [] [] [])
  | zr_step z op z' : z_reach K fd hdr_at z → z_step K fd hdr_at z op z' → z_reach K fd hdr_at z'.

(** ** Freed buffers are queued in order *)
Lemma set_node_pf q p f : pendingFree (set_node q p f) = pendingFree q.
Proof. done. Qed.
Lemma unlink_pf q e : pendingFree (unlink q e) = pendingFree q.
Proof. unfold unlink. by destruct (e_prev _), (e_next _). Qed.
Lemma pushTail_pf q e : pendingFree (pushTail q e) = pendingFree q.
Proof. unfold pushTail. by destruct (q_tail _). Qed.
Lemma removeLocked_pf q k e : pendingFree q `prefix_of` pendingFree (removeLocked q k e).
Proof.
  assert (pendingFree (removeLocked q k e) = pendingFree (unlink q e) ++ option_list (node (unlink q e) e).(e_data)) as -> by done.
  rewrite unlink_pf. by apply prefix_app_r.
Qed.
Lemma ackLoop_pf q sid now seqs b r : pendingFree q `prefix_of` pendingFree (ackLoop q sid now seqs b r).1.1.
Proof.
  revert q b r. induction seqs as [|seq seqs IH]; intros q b r; [done|]. cbn [ackLoop]. unfold ackStep.
  destruct (entries q !! _) as [e|]; [|apply IH]. etrans; [apply removeLocked_pf|apply IH].
Qed.
Lemma purgeLoop_pf q sid order : pendingFree q `prefix_of` pendingFree (purgeLoop q sid order).
Proof.
  revert q. induction order as [|[k e] order IH]; intros q; [done|]. cbn [purgeLoop]. etrans; [|apply IH].
  destruct (bool_decide _); [apply removeLocked_pf|done].
Qed.
Lemma dueLoop_pf fuel q p rto now reqs q' rs : dueLoop fuel q p rto now reqs = Some (q', rs) → pendingFree q' = pendingFree q.
Proof.
  revert q p reqs. induction fuel as [|fuel IH]; intros q [e|] reqs; cbn [dueLoop]; try done; try (by intros [= <- <-]).
  repeat (destruct (bool_decide _) || destruct (e_queued _)); try (by intros [= <- <-]); try apply IH; intros H%IH; done.
Qed.

(** operations other than drains only append to [pendingFree] *)
Lemma rq_step_pf q loans op q' loans' ret : is_drain op = false → rq_step (q, loans) op = Some (q', loans', ret) →
  pendingFree q `prefix_of` pendingFree q'.
Proof.
  intros Hd. destruct op as [ft sid seq p now|sid seq|sid seqs now|sid cum now|sid order| |n|sid seq ma now|req|req now|s|rto now]; try done; cbn [rq_step].
  - unfold add. destruct (arena_get _ _) as [a d]. unfold getEntry. destruct (reverse _); intros [= <- _ _]; by rewrite pushTail_pf.
  - intros [= <- _ _]. unfold ackOne. destruct (entries q !! _); [apply removeLocked_pf|done].
  - unfold ackMany. pose proof (ackLoop_pf q sid now seqs 0 0) as H. destruct (ackLoop _ _ _ _ _ _) as [[q1 b] r]. by intros [= <- _ _].
  - unfold ackCumulative. destruct (_ || _); [by intros [= <- _ _]|]. set (l := seqZ _ _). pose proof (ackLoop_pf q sid now l 0 0) as H.
    destruct (ackLoop _ _ _ _ _ _) as [[q1 b] r]. by intros [= <- _ _].
  - intros [= <- _ _]. apply purgeLoop_pf.
  - unfold requestForResend. destruct (entries q !! _); [|by intros [= <- _ _]]. destruct (_ || _); by intros [= <- _ _].
  - by intros [= <- _ _].
  - unfold takeForResend. destruct (entries q !! _); [|by intros [= <- _ _]]. destruct (negb _); [by intros [= <- _ _]|].
    destruct (arena_get _ _) as [a d]. intros [= <- _ _].
    match goal with |- _ `prefix_of` pendingFree (put arena _ ?q1) => change (pendingFree (put arena _ q1)) with (pendingFree q1) end.
    by rewrite pushTail_pf, unlink_pf.
  - by intros [= <- _ _].
  - destruct (due q rto now) as [[q1 rs]|] eqn:H; [|done]. intros [= <- _ _]. apply dueLoop_pf in H. by rewrite H.
Qed.

(** ** The invariant *)
(** the slice holds [p] and its buffer is not free *)
Definition held (q : retransmitQueue) (l : list positive) (x : bslice * list Z) : Prop :=
  x.1 ∈ in_use q l ∧ slice_bytes q.(arena) x.1 = x.2.

Lemma lxor_set u : 0 ≤ u < 2 → 0 ≤ Z.lxor u 1 < 2 ∧ Z.lxor (Z.lxor u 1) 1 = u ∧ Z.lxor u 1 ≠ u.
Proof. intros Hu. assert (u = 0 ∨ u = 1) as [-> | ->] by lia; done. Qed.

(** a step of the queue keeps what is referenced *)
Lemma held_step q l op q' l' : keeps_buffers q l op q' l' → ∀ x, held q l x → op_spares q x.1 op → held q' l' x.
Proof. intros Hk [s p] [H1 H2] Hs. cbn in *. destruct (Hk s H1 Hs) as [H3 H4]. split; [done|]. cbn. by rewrite H4. Qed.

Lemma nodup_pf q l loans s : rq_inv q l loans → s ∈ live q l → s ∉ pendingFree q.
Proof.
  intros Hi Hs Hp. pose proof (mi_nodup _ _ (ri_mem _ _ _ Hi)) as Hn. apply NoDup_app in Hn as (_ & _ & Hn).
  rewrite !fmap_app in Hn. apply NoDup_app in Hn as (_ & Hn & _). apply (Hn s.(sl_buf)); [by apply list_elem_of_fmap_2|].
  apply elem_of_app. left. by apply list_elem_of_fmap_2.
Qed.

Lemma z_admits_ok q l loans op : rq_inv q l loans → z_admits q loans op → op_ok (q, loans) (pending q l) op.
Proof.
  intros Hi. destruct op; try done. intros (H1 & H2 & H3). split_and!; try done. by eapply lookup_missing_spec.
Qed.
(** the queue after a step, with what it keeps *)
Lemma queue_step q l loans op q' loans' ret : rq_inv q l loans → acked_u32 q.(ackedThrough) → is_drain op = false →
  op_ok (q, loans) (pending q l) op → rq_step (q, loans) op = Some (q', loans', ret) →
  ∃ l', rq_inv q' l' loans' ∧ acked_u32 q'.(ackedThrough) ∧ (∀ x, held q l x → held q' l' x) ∧
    Forall (λ x, held q' l' x ∧ x.1 ∉ pendingFree q') (added q op).
Proof.
  intros Hi Ha Hd Hop Hs. assert (∀ s, op_spares q s op) as Hsp by (intros s; by destruct op).
  destruct op as [ft sid seq p now| | | | | | | | | | |]; cbn [added].
  { destruct Hop as (O1 & O2 & O3). destruct (add_spec q l loans ft sid seq p now Hi O1 O2 O3) as (q2 & e & s & E & Hi2 & _ & Hb & Hl & Hpf & Hat & Hk).
    cbn [rq_step] in Hs. rewrite E in Hs |- *. cbn [snd]. injection Hs as <- <- _.
    assert (s ∈ live q2 (l ++ [e])) as Hin by (rewrite Hl; set_solver). exists (l ++ [e]). split_and!; [done|by rewrite Hat| |].
    - intros [s' p'] [H1 H2]. cbn in *. split; cbn; [unfold in_use in *; rewrite Hpf, Hl; set_solver|]. rewrite Hk; [done|]. unfold in_use in H1. set_solver.
    - apply Forall_cons_2; [|apply Forall_nil_2]. split; [split; [unfold in_use; set_solver|done]|]. by eapply nodup_pf. }
  all: destruct (sim_step q l loans _ Hi Ha Hop) as (q1 & loans1 & l1 & r1 & E & _ & Hi1 & Hk & Ha1); rewrite Hs in E; injection E as <- <- <-;
    exists l1; split_and!; [done|by apply Ha1|intros x Hx; by eapply held_step|apply Forall_nil_2].
Qed.

Section inv.
Context (K : kernel) (fd : Z) (hdr_at : Z → Z → Z).
Implicit Types (z : zstate).

Record z_inv z : Prop := mkZInv {
  zi_ring : ring_run K z.(z_u).(us_ring);
  zi_set : 0 ≤ z.(z_u).(us_set) < 2;
  zi_free : Forall (λ x, x.(sqe_userData) ≠ z.(z_u).(us_set)) z.(z_u).(us_ring).(flight);
  zi_mark : 0 ≤ z.(z_u).(us_mark) ≤ pendingFreeLen z.(z_u).(us_rq);
  zi_queue : ∃ l, rq_inv z.(z_u).(us_rq) l z.(z_loans) ∧ acked_u32 z.(z_u).(us_rq).(ackedThrough) ∧
    Forall (λ x, held z.(z_u).(us_rq) l x ∧ x.1 ∉ take (Z.to_nat z.(z_u).(us_mark)) (pendingFree z.(z_u).(us_rq))) (z.(z_building) ++ z.(z_pending)) ∧
    Forall (held z.(z_u).(us_rq) l) z.(z_flying);
}.

Lemma z_queue_ok z op q' loans' ret : z_inv z → is_drain op = false →
  z_admits z.(z_u).(us_rq) z.(z_loans) op →
  rq_step (z.(z_u).(us_rq), z.(z_loans)) op = Some (q', loans', ret) →
  z_inv (mkZ (z.(z_u) <| us_rq := q' |>) loans' (z.(z_pending) ++ added z.(z_u).(us_rq) op) z.(z_building) z.(z_flying)).
Proof.
  intros [Z1 Z2 Z3 Z4 (l & Q1 & Q2 & Q3 & Q4)] Hd Hop Hs. pose proof (rq_step_pf _ _ _ _ _ _ Hd Hs) as Hpf.
  set (q := us_rq (z_u z)) in *. destruct (queue_step q l (z_loans z) op q' loans' ret Q1 Q2 Hd (z_admits_ok _ _ _ _ Q1 Hop) Hs) as (l' & R1 & R2 & R3 & R4).
  assert (pendingFreeLen q ≤ pendingFreeLen q') as Hlen by (unfold pendingFreeLen, Zlen; apply prefix_length in Hpf; lia).
  assert (take (Z.to_nat (us_mark (z_u z))) (pendingFree q') = take (Z.to_nat (us_mark (z_u z))) (pendingFree q)) as Htk.
  { destruct Hpf as [k ->]. apply take_app_le. unfold pendingFreeLen, Zlen in Z4. lia. }
  split; try done; [cbn; lia|]. exists l'. cbn [z_u z_pending z_building z_flying z_loans us_rq us_mark]. split_and!; [done|done| |].
  - rewrite app_assoc. apply Forall_app. split; (eapply Forall_impl; [eassumption|]); intros x [H1 H2]; (split; [by auto|]).
    + change (x.1 ∉ take (Z.to_nat (us_mark (z_u z))) (pendingFree q')). by rewrite Htk.
    + intros Hx. apply H2. apply elem_of_take in Hx as (i & Hx & _). by eapply list_elem_of_lookup_2.
  - eapply Forall_impl; [exact Q4|]. apply R3.
Qed.

Lemma z_flush_ok z fuel lens n u' e r1 : z_inv z →
  submitSendmsg K fuel z.(z_u).(us_ring) fd (hdr_at z.(z_u).(us_set) <$> seqZ 0 n) z.(z_u).(us_set)
    (if foldr Z.add 0 (slice lens 0 n) >=? asyncBytesMin then iosqeAsync else 0) = Some (r1, 0) →
  (∃ r2, waitGen K fuel r1 (Z.lxor z.(z_u).(us_set) 1) = Some (r2, 0)) →
  flushSendUringLocked K fd hdr_at fuel z.(z_u) lens n = Some (u', e) →
  z_inv (mkZ u' z.(z_loans) (filter (unfreed u'.(us_rq)) z.(z_pending)) [] z.(z_building)).
Proof.
  intros [Z1 Z2 Z3 Z4 (l & Q1 & Q2 & Q3 & Q4)] Hs (r2 & Hw) Hf. unfold flushSendUringLocked in Hf. cbv zeta in Hf.
  rewrite Hs in Hf. cbn -[waitGen drainPendingFreeFirst pendingFreeLen Z.lxor] in Hf. rewrite Hw in Hf.
  cbn -[drainPendingFreeFirst pendingFreeLen Z.lxor] in Hf. injection Hf as <- _.
  destruct (lxor_set _ Z2) as (X1 & _ & _). set (q := us_rq (z_u z)) in *. set (m := us_mark (z_u z)) in *.
  assert (ring_run K r1) as Hr1 by exact (rr_submit K _ _ _ _ _ _ _ Z1 Z2 Hs). destruct (ring_run_ok K r1 Hr1) as (B1 & _ & B3).
  destruct (waitGen_spec K fuel r1 _ r2 0 B1 B3 X1 Hw) as (_ & _ & _ & W). destruct (W eq_refl) as [W1 _].
  destruct (drainPendingFreeFirst_spec q l (z_loans z) m Q1 ltac:(lia)) as (D1 & D2 & D3 & D4).
  assert (ring_run K r2) as Hr2 by exact (rr_wait K _ _ _ _ _ Hr1 X1 Hw).
  split; cbn -[drainPendingFreeFirst pendingFreeLen Z.lxor].
  - by apply (rr_collect K r2).
  - done.
  - done.
  - split; [apply Zlen_nonneg|done].
  - assert (Forall (held (drainPendingFreeFirst q m) l) (z_building z ++ z_pending z)) as Hh.
    { eapply Forall_impl; [exact Q3|]. intros [s p] [[H1 H2] H3]. cbn in H1, H2, H3. split; cbn -[drainPendingFreeFirst].
      - unfold in_use in *. rewrite D4. rewrite <- (take_drop (Z.to_nat m) (pendingFree q)), <- app_assoc in H1. set_solver.
      - rewrite <- H2. apply slice_bytes_mem. by rewrite D3. }
    apply Forall_app in Hh as [H1 H2]. exists l. split_and!; [done|done| |done]. apply Forall_forall. intros x [Hf Hx]%list_elem_of_filter.
    rewrite Forall_forall in H2. split; [by apply H2|]. intros Ht. apply Hf. apply elem_of_take in Ht as (i & Ht & _). by eapply list_elem_of_lookup_2.
Qed.

Lemma z_reach_inv z : z_reach K fd hdr_at z → z_inv z.
Proof.
  induction 1 as [a b mp Ha Hb Hm|z op z' _ IH Hs].
  - split; cbn; try done; [by apply rr_new|]. exists []. split_and!; [by apply rq_inv_new|apply map_Forall_empty|apply Forall_nil_2..].
  - destruct Hs as [z op q' loans' ret Hd Hop Hs|z i x Hx|z|z fuel lens n u' e r1 Hs Hw Hf].
    + by eapply z_queue_ok.
    + destruct IH as [Z1 Z2 Z3 Z4 (l & Q1 & Q2 & Q3 & Q4)]. split; try done. exists l. split_and!; [done|done| |done].
      cbn [z_building z_pending z_u]. by rewrite <- app_assoc, <- (delete_Permutation _ _ _ Hx).
    + destruct IH as [Z1 Z2 Z3 Z4 (l & Q1 & Q2 & Q3 & Q4)]. split; try done. exists l. apply Forall_app in Q3 as [_ Q3]. by split_and!.
    + by eapply z_flush_ok.
Qed.
End inv.

(** C22: the pipelined flush is safe.  In a run in which every submission and
    every wait has succeeded (after a failed one nothing is promised, see
    [failed_submit_forgotten]), however frames are added, acknowledged,
    purged and resent between flushes, however long a frame waits between its
    addition and its place in a batch, and however the kernel schedules the
    submissions: every payload referenced from the batch being built or from
    the batch in flight still holds the bytes it was given, though its frame
    may have been acknowledged, its buffer freed and the freed buffers of
    earlier batches recycled (each flush recycles what had been freed when
    the batch it submits was begun); and no operation in flight reads the
    slot set being written.  The one frame left out is the one that is freed,
    and outlives the end of a flush, before it has its place
    ([freed_before_queued]). *)
Theorem uring_zero_copy K fd hdr_at z :
  z_reach K fd hdr_at z →
  Forall (λ x, slice_bytes z.(z_u).(us_rq).(arena) x.1 = x.2) (z.(z_building) ++ z.(z_flying)) ∧
  Forall (λ x, x.(sqe_userData) ≠ z.(z_u).(us_set)) z.(z_u).(us_ring).(flight).
Proof.
  intros Hz. destruct (z_reach_inv K fd hdr_at z Hz) as [_ _ Z3 _ (l & _ & _ & Q3 & Q4)]. split; [|done].
  apply Forall_app in Q3 as [Q3 _].
  apply Forall_app. split; (eapply Forall_impl; [eassumption|]); [by intros x [[_ H] _]|by intros x [_ H]].
Qed.

(** a frame is sent, flushed, acknowledged while in flight, and its
    successor built meanwhile *)
Definition witness_hdr_at (set i : Z) : Z := 100 * set + i.
(** [op] applied to [z], and whether that is a step *)
Definition z_queue (z : zstate) (op : rq_op) : option zstate :=
  '(q', loans', _) ← rq_step (z.(z_u).(us_rq), z.(z_loans)) op;
  Some (mkZ (z.(z_u) <| us_rq := q' |>) loans' (z.(z_pending) ++ added z.(z_u).(us_rq) op) z.(z_building) z.(z_flying)).
Lemma z_queue_reach K fd hdr_at z op z' : z_reach K fd hdr_at z → is_drain op = false → z_admits z.(z_u).(us_rq) z.(z_loans) op →
  z_queue z op = Some z' → z_reach K fd hdr_at z'.
Proof.
  intros Hz Hd Ha. unfold z_queue. destruct (rq_step _ op) as [[[q' loans'] ret]|] eqn:E; [|done]. intros [= <-].
  eapply zr_step; [exact Hz|by eapply zs_queue].
Qed.

Definition z_flush (K : kernel) (fd : Z) (hdr_at : Z → Z → Z) (fuel : nat) (lens : list Z) (n : Z) (z : zstate) : option zstate :=
  '(r1, e1) ← submitSendmsg K fuel z.(z_u).(us_ring) fd (hdr_at z.(z_u).(us_set) <$> seqZ 0 n) z.(z_u).(us_set)
        (if foldr Z.add 0 (slice lens 0 n) >=? asyncBytesMin then iosqeAsync else 0);
  '(_, e2) ← waitGen K fuel r1 (Z.lxor z.(z_u).(us_set) 1);
  '(u', _) ← flushSendUringLocked K fd hdr_at fuel z.(z_u) lens n;
  if (e1 =? 0) && (e2 =? 0) then Some (mkZ u' z.(z_loans) (filter (unfreed u'.(us_rq)) z.(z_pending)) [] z.(z_building)) else None.
Lemma z_flush_reach K fd hdr_at fuel lens n z z' : z_reach K fd hdr_at z → z_flush K fd hdr_at fuel lens n z = Some z' → z_reach K fd hdr_at z'.
Proof.
  intros Hz. unfold z_flush. destruct (submitSendmsg _ _ _ _ _ _ _) as [[r1 e1]|] eqn:E1; [|done]. cbn [mbind option_bind].
  destruct (waitGen _ _ _ _) as [[r2 e2]|] eqn:E2; [|done]. cbn [mbind option_bind].
  destruct (flushSendUringLocked _ _ _ _ _ _ _) as [[u' e]|] eqn:E3; [|done]. cbn [mbind option_bind].
  destruct (_ && _) eqn:Hb; [|done]. apply andb_true_iff in Hb as [->%bool_decide_eq_true ->%bool_decide_eq_true].
  intros [= <-]. eapply zr_step; [exact Hz|]. eapply zs_flush; [exact E1|by exists r2|exact E3].
Qed.

(** runs of additions, acknowledgements and flushes *)
Definition z_admitsb (q : retransmitQueue) (op : rq_op) : bool :=
  match op with
  | OpAdd _ sid seq _ _ => bool_decide (is_u32 sid ∧ is_u32 seq ∧ q.(entries) !! retransmitKey sid seq = None)
  | OpAckOne sid seq => bool_decide (is_u32 sid ∧ is_u32 seq)
  | _ => false
  end.
Fixpoint z_run (K : kernel) (fd : Z) (hdr_at : Z → Z → Z) (z : zstate) (ops : list z_op) : option zstate :=
  match ops with
  | [] => Some z
  | op :: ops =>
      z ← match op with
          | ZQueue op => if z_admitsb z.(z_u).(us_rq) op then z_queue z op else None
          | ZFlush fuel lens n => z_flush K fd hdr_at fuel lens n z
          | ZRef i => x ← z.(z_pending) !! i; Some (mkZ z.(z_u) z.(z_loans) (delete i z.(z_pending)) (z.(z_building) ++ [x]) z.(z_flying))
          | ZDrop => None
          end;
      z_run K fd hdr_at z ops
  end.
Lemma z_run_reach K fd hdr_at z ops z' : z_reach K fd hdr_at z → z_run K fd hdr_at z ops = Some z' → z_reach K fd hdr_at z'.
Proof.
  revert z. induction ops as [|op ops IH]; intros z Hz; cbn [z_run]; [by intros [= <-]|]. intros (z1 & H1 & H2)%bind_Some.
  apply (IH z1); [|done]. destruct op as [op|i| |fuel lens n]; [| |done|by eapply z_flush_reach].
  2:{ apply bind_Some in H1 as (x & Hx & [= <-]). eapply zr_step; [exact Hz|by apply zs_ref]. }
  destruct (z_admitsb _ op) eqn:Ha; [|done]. eapply z_queue_reach; [exact Hz|..|exact H1]; destruct op; try done; by apply bool_decide_eq_true in Ha.
Qed.
Definition z_check (o : option zstate) : bool :=
  match o with Some z => bool_decide (length z.(z_building) = 1%nat ∧ length z.(z_flying) = 1%nat) | None => false end.
Lemma z_check_spec o : z_check o = true → ∃ z, o = Some z ∧ length z.(z_building) = 1%nat ∧ length z.(z_flying) = 1%nat.
Proof. destruct o as [z|]; [|done]. intros H%bool_decide_eq_true. by exists z. Qed.

Definition witness_z0 : zstate := mkZ (mkUsend (newSendRing 2 3) 0 0 (newRetransmitQueue 4)) [] [] [] [].
Definition witness_z_ops : list z_op :=
  [ZQueue (OpAdd 1 7 0 [10; 11] 100); ZQueue (OpAdd 1 9 0 [30] 101); ZRef 0; ZFlush 20 [15] 1; ZQueue (OpAckOne 7 0); ZRef 0; ZQueue (OpAdd 1 7 1 [20; 21; 22] 120)].
Lemma witness_z_check : z_check (z_run witness_kernel 3 witness_hdr_at witness_z0 witness_z_ops) = true.
Proof. vm_compute. reflexivity. Qed.
Lemma uring_zero_copy_witness : ∃ z,
  z_run witness_kernel 3 witness_hdr_at witness_z0 witness_z_ops = Some z ∧ length z.(z_building) = 1%nat ∧ length z.(z_flying) = 1%nat ∧
  Forall (λ x, slice_bytes z.(z_u).(us_rq).(arena) x.1 = x.2) (z.(z_building) ++ z.(z_flying)).
Proof.
  assert (z_reach witness_kernel 3 witness_hdr_at witness_z0) as R0 by (apply zr_new; lia).
  destruct (z_check_spec _ witness_z_check) as (z & H0 & H1 & H2). exists z.
  pose proof (z_run_reach witness_kernel 3 witness_hdr_at witness_z0 witness_z_ops z R0 H0) as Hz.
  exact (conj H0 (conj H1 (conj H2 (proj1 (uring_zero_copy witness_kernel 3 witness_hdr_at z Hz))))).
Defined.

(** A payload freed before it has its place.  [add] returns a slice of the
    arena, which the caller references after it has waited for [sendMu], or
    for the pacer in the flush [acquireSendSlot] makes.  If the wait is longer
    than the timeout, the frame is due, is resent and may be acknowledged in
    the meantime; a flush then recycles its buffer, the next frame added
    (of stream 9) is written into it, and the slice that [add] gave out
    (for stream 7), now referenced from the batch, holds the other stream's
    bytes. *)
Theorem freed_before_queued :
  let '(q, s) := add (newRetransmitQueue 4) 1 7 0 [10; 11] 100 in
  slice_bytes q.(arena) s = [10; 11] ∧
  (λ st, slice_bytes st.1.1.(arena) s) <$>
    rq_run (q, []) [OpDue 50 200; OpTake (mkRequest 7 0) 201; OpAckMany 7 [0] 220; OpDrain; OpAdd 1 9 0 [30; 31] 240] = Some [30; 31].
Proof. vm_compute. split; reflexivity. Qed.
